(* ===== verification/_CoqProject ===== *)
-Q . S2P
Prelude.v
Lz4.v
BcProgram.v
BcEmit.v
BcDisasm.v
Gc.v
F64.v
Values.v
MapTable.v
SetTable.v
LexText.v
Lexer.v
LexerPrint.v
NumText.v
Base64.v
Promise.v
PromiseOk.v
PromiseProps.v
LfQueue.v
LfQueueOk.v
Scheduler.v
SchedulerOk.v
Ast.v
AstImage.v
AstImageOk.v
ParseExpr.v
ParseStmt.v
ParseEnds.v
ParseTotal.v
ParseProps.v
ParseRead.v
Grammar.v
GrammarFacts.v
GrammarSteps.v
GrammarExpr.v
GrammarStmt.v
GrammarOk.v
JsOps.v
JsLaws.v
Vm.v
VmCode.v
Emits.v
Jumps.v
Compile.v
Stmt.v
Eval.v
StmtEval.v
CompileOk.v
StmtOk.v
CstmtOk.v
FuncOk.v
CompileProps.v
FuncProps.v
