(* ===== verification/Prelude.v ===== *)
(** * LR_JS: verification of the engine's core

    LR_JS is a JavaScript engine in C.  This library models the parts of it that
    carry its own logic and proves what makes them correct.  File names below
    are those of the repository under [src/src/].

    ** The program's parts, and how they interact

    A script is tokenized ([engine/lr_lexer.c]) and parsed to a syntax tree
    ([engine/lr_parser.c], [engine/lr_ast.h]).  The tree can be written to and
    read from the IOME586 archive (end of [lr_parser.c]), whose blocks are
    compressed ([lr_compress.c]).  A function's body is compiled
    ([engine/lr_bytecode_compile.c]) through an emitter
    ([engine/lr_bytecode_emit.c]) to a program ([engine/lr_bytecode.h],
    [lr_bytecode_cache.c]) that can be listed ([lr_bytecode_disasm.c]), stored
    ([lr_bytecode_serialize.c]) and run ([lr_bytecode_exec.c], with the value
    operations of [lr_bytecode_value.c]).  Functions the compiler does not take
    are walked by the tree interpreter ([lr_interp.c]).  The run uses hash tables
    for [Map] and [Set] ([lr_map.c], [lr_set.c]), promises on a queue of jobs
    ([lr_promise.c], [engine/lr_engine.c]), a garbage-collection scheduler
    ([lr_gc.c]), and, for work in other threads, a task scheduler
    ([lr_scheduler.c]) over a pool whose workers have lock-free queues
    ([lr_thread_pool.c], [lr_lockfree_queue.h]).

    ** Files

    Foundations: [Prelude] (C integers, byte buffers, tactics, the hints [lr]),
    [F64] (doubles on integers), [Values] ([LRValue] and the keys of the tables),
    [NumText] (the C library's [fmod], [strtod], [printf]).

    Text to tree:
    - [LexText], [Lexer], [LexerPrint]: [lr_lexer.c], one definition per function,
      a loop being the iteration of its body; printing tokens and reading them.
    - [Ast], [ParseExpr], [ParseStmt]: [lr_parser.c], one definition per parsing
      function, over a record [grammar] of the functions that call each other.
    - [ParseEnds], [ParseTotal], [ParseProps]: termination of the parser.
    - [Grammar], [ParseRead], [GrammarFacts], [GrammarSteps], [GrammarExpr],
      [GrammarStmt], [GrammarOk]: the language as a relation between tokens and
      trees, and the proof that the parser implements it.
    - [AstImage], [AstImageOk]: [ser_*], [deser_*] and their entry points.

    Tree to result:
    - [BcProgram], [BcEmit], [BcDisasm]: programs and their image, the emitter,
      the disassembler.
    - [Compile], [Stmt]: [cexpr], and [cstmt] with [bc_compile_ex].
    - [JsOps], [JsLaws]: the value operations and the loop's fast paths.
    - [Vm], [VmCode]: [bc_execute]; a step reads one instruction from the bytes.
    - [Eval], [StmtEval]: the meaning of expressions and statements, the
      specification of the compiler.
    - [Emits], [Jumps], [CompileOk], [StmtOk], [CstmtOk], [FuncOk], [CompileProps],
      [FuncProps]: the compiler's correctness; the last two hold the theorems.

    Runtime:
    - [MapTable], [SetTable]: the tables and the prototype methods.
    - [Gc]: the scheduler of collections.
    - [Promise], [PromiseOk], [PromiseProps]: promises, the job queue, [await].
    - [LfQueue], [LfQueueOk]: the lock-free queue, by atomic operations.
    - [Scheduler], [SchedulerOk]: the list of scheduled tasks.
    - [Lz4]: block compression and the archive's size-prefixed blocks.
    - [Base64]: [btoa] and [atob] of [lr_encoding.c].

    ** How state and operations correspond

    A C structure is a record with the fields the logic reads; a pointer into a
    buffer is an offset, a buffer the list of its bytes; a growing buffer keeps its
    capacity where a write could overrun it.  An access outside a buffer, of freed
    memory or through NULL, and a signed overflow, is a value of its own
    ([DecUndef], [Crash], [Broken], [DisUndef], [Undefined], [None]), so safety is a
    theorem and not an assumption.  Integers keep their width ([u8],
    [i32], ...), doubles are the standard library's [spec_float] rounded to
    binary64.  Functions that can fail or change state are functions of the state
    into an option, a sum or an error type, with a monad where many calls thread
    it (parser, images, promises).  Interleaved threads and the event loop are
    sequences of steps.  The outcomes of [malloc], [calloc] and [realloc], the
    clock, the addresses of new objects and the mathematical library are
    parameters, with what the code relies on as named hypotheses, and so are the
    bytes the decompressor can read outside what was written.

    ** What the theorems show

    - Refinement.  A compiled function, run by the virtual machine, returns what
      executing its statements returns ([FuncProps.compile_func_correct]), as does
      a compiled expression ([CompileProps.compile_expr_correct]); the emitter
      produces the instruction stream it is asked for; the parser gives every
      phrase of the grammar its tree ([GrammarOk.parser_implements_grammar]); on
      keys with one representation per number the [Map] and [Set] methods implement
      an update of a function and of a set under SameValueZero; every call of the
      promise functions is a sequence of steps of the promise specification,
      whatever the script does and awaits; the lock-free queue is a FIFO list.
    - Round trips: LZ4 blocks, archive images of trees and of bytecode, the
      disassembler on emitted code, the lexer on printed tokens, integers through
      text, base64.
    - Invariants: the collector's statistics, nursery blocks that do not overlap,
      tokens that tile the source, settled promises, reactions run once and not
      lost, jobs and tasks in order.
    - Safety and bounds: the decompressor, whatever memory it reads, the reader of
      tree images when its allocations succeed, interleaved pushes of the queue,
      the size of a compressed block.
    - Termination: the lexer on every text, the parser on the texts
      [ParseProps.parser_terminates] names, incremental collection.
    - Equivalence: the virtual machine's fast paths and the general operations
      agree, and are arithmetic on doubles.
    - Errors: truncated images are rejected.  What the code gets wrong is stated
      too, as a lemma with the input that shows it, next to the theorem whose
      hypotheses leave it out.

    ** Fuel and bounds

    Fuel bounds recursion that is not structural, and a theorem shows that it
    suffices: a loop of the lexer takes one unit per byte left ([Lexer]).  The fuel
    of the parser is a depth: it bounds how deep calls are nested and how often a
    single run of a loop turns, not how many calls there are; eight units per byte
    of the text are enough ([ParseProps.parser_terminates], by the measure of
    [ParseEnds] and the ranks of [ParseTotal]), four per token on printed phrases
    ([GrammarOk]).  The reader of tree images takes one per byte; a pass of the
    scheduler two per task; a push alone five and a pop alone seven atomic
    operations.  Both loops of [Lz4] carry fuel that their own theorems show is
    never used up.  The virtual machine and the meaning of statements take fuel
    for steps and turns, which the theorems relate: if the meaning is defined with
    some number of turns, some number of steps ends the run.  In [Promise] the fuel
    bounds the nesting of calls of the script, which has no bound; its theorems
    hold for every fuel with which a call returns.

    ** Not modelled, and why

    The heap of objects (properties, shapes, prototypes, getters, proxies,
    reference counts) is not modelled, and with it the tree-walking interpreter,
    the built-in objects, inline caches, and the bytecode for members, calls,
    closures, exceptions and iteration; [Vm] and [Compile] say at each place what
    they leave out.  The JIT compilers need the semantics of machine code.  The
    positions, pooling, interning and freeing of syntax trees do not affect their
    meaning and are left out.  Input and output (file system, network, console,
    terminal, DOM, canvas, renderers, workers, crypto, storage), the platform
    layers and the command line call the host and keep little logic of their own.
    PCRE2 and sljit are third-party code.

    ** This file

    Shared foundations: C integers at their width, byte buffers and little-endian
    fields, lists addressed by [Z] offsets, and the tactics and hints the component
    files use.  A C integer is a [Z]; every operation that can leave the range of
    its type is written with an explicit wrap ([u8] .. [u64], [i32], [i64]).  A
    buffer is a [list Z] whose elements are meant to satisfy [byte]. *)

From stdpp Require Import base list gmap strings.
From Stdlib Require Import ZArith Lia SpecFloat.

Declare Scope lr_scope.
Delimit Scope lr_scope with lr.
Open Scope Z_scope.

Create HintDb lr.

(** ** Tactics *)

(** Linear arithmetic over division and remainder by constants. *)
Ltac divlia := Z.to_euclidean_division_equations; lia.

(** Case analysis on the scrutinee of the first [if] or [match] in the goal,
    keeping its equation. *)
Ltac case_if :=
  match goal with
  | |- context [if ?b then _ else _] => let H := fresh "Hif" in destruct b eqn:H
  end.

(** The same in a hypothesis. *)
Ltac case_if_in H :=
  match type of H with
  | context [if ?b then _ else _] => let E := fresh "Hif" in destruct b eqn:E
  end.

(** Turn boolean comparisons in the context into propositions. *)
Ltac to_prop :=
  repeat match goal with
  | H : (_ <? _) = true |- _ => apply Z.ltb_lt in H
  | H : (_ <? _) = false |- _ => apply Z.ltb_ge in H
  | H : (_ <=? _) = true |- _ => apply Z.leb_le in H
  | H : (_ <=? _) = false |- _ => apply Z.leb_gt in H
  | H : (_ >? _) = true |- _ => rewrite Z.gtb_ltb in H
  | H : (_ >? _) = false |- _ => rewrite Z.gtb_ltb in H
  | H : (_ >=? _) = true |- _ => rewrite Z.geb_leb in H
  | H : (_ >=? _) = false |- _ => rewrite Z.geb_leb in H
  | H : (_ =? _) = true |- _ => apply Z.eqb_eq in H
  | H : (_ =? _) = false |- _ => apply Z.eqb_neq in H
  | H : andb _ _ = true |- _ => apply andb_prop in H as [? ?]
  | H : andb _ _ = false |- _ => apply andb_false_iff in H
  | H : orb _ _ = true |- _ => apply orb_true_iff in H
  | H : orb _ _ = false |- _ => apply orb_false_iff in H as [? ?]
  | H : negb _ = true |- _ => apply negb_true_iff in H
  | H : negb _ = false |- _ => apply negb_false_iff in H
  end.

(** ** C integers *)

Definition u8 (z : Z) : Z := z mod 2 ^ 8.
Definition u16 (z : Z) : Z := z mod 2 ^ 16.
Definition u32 (z : Z) : Z := z mod 2 ^ 32.
Definition u64 (z : Z) : Z := z mod 2 ^ 64.

Definition to_signed (w z : Z) : Z :=
  let m := z mod 2 ^ w in if m <? 2 ^ (w - 1) then m else m - 2 ^ w.
Definition i32 (z : Z) : Z := to_signed 32 z.
Definition i64 (z : Z) : Z := to_signed 64 z.

Definition INT32_MIN : Z := - 2 ^ 31.
Definition INT32_MAX : Z := 2 ^ 31 - 1.

Lemma u8_range z : 0 <= u8 z < 256.
Proof. apply Z.mod_pos_bound; lia. Qed.

Lemma u32_range z : 0 <= u32 z < 2 ^ 32.
Proof. apply Z.mod_pos_bound; lia. Qed.

Lemma u8_small z : 0 <= z < 256 -> u8 z = z.
Proof. intros. apply Z.mod_small; lia. Qed.

Lemma u64_small z : 0 <= z < 2 ^ 64 -> u64 z = z.
Proof. apply Z.mod_small. Qed.

Lemma u32_small z : 0 <= z < 2 ^ 32 -> u32 z = z.
Proof. apply Z.mod_small. Qed.

Lemma i32_range z : - 2 ^ 31 <= i32 z < 2 ^ 31.
Proof.
  unfold i32, to_signed. pose proof (Z.mod_pos_bound z (2 ^ 32)) as H.
  case_if; to_prop; lia.
Qed.

Lemma to_signed_small w z : 0 < w -> - 2 ^ (w - 1) <= z < 2 ^ (w - 1) -> to_signed w z = z.
Proof.
  intros Hw H. unfold to_signed.
  assert (2 ^ w = 2 * 2 ^ (w - 1)) as Hp by (rewrite <- Z.pow_succ_r by lia; f_equal; lia).
  destruct (Z.lt_ge_cases z 0).
  - replace (z mod 2 ^ w) with (z + 2 ^ w)
      by (apply (Z.mod_unique_pos _ _ (-1)); lia).
    case_if; to_prop; lia.
  - rewrite Z.mod_small by lia. case_if; to_prop; lia.
Qed.

Lemma i32_small z : - 2 ^ 31 <= z < 2 ^ 31 -> i32 z = z.
Proof. intros H. by apply (to_signed_small 32). Qed.

Lemma i64_small z : - 2 ^ 63 <= z < 2 ^ 63 -> i64 z = z.
Proof. intros H. by apply (to_signed_small 64). Qed.

Lemma i32_le z : 0 <= z -> i32 z <= z.
Proof.
  intros H. unfold i32, to_signed.
  pose proof (Z.mod_le z (2 ^ 32) H ltac:(lia)).
  case_if; lia.
Qed.

Lemma i32_u32 z : i32 (u32 z) = i32 z.
Proof. unfold i32, u32, to_signed. by rewrite Z.mod_mod by lia. Qed.

Lemma u32_i32 z : u32 (i32 z) = u32 z.
Proof.
  unfold i32, u32, to_signed. case_if.
  - by rewrite Z.mod_mod by lia.
  - rewrite Zminus_mod, Z.mod_same, Z.sub_0_r by lia.
    by rewrite !Z.mod_mod by lia.
Qed.

#[export] Hint Resolve u8_range u32_range i32_range : lr.

(** ** Bytes and buffers *)

Definition byte (z : Z) : Prop := 0 <= z < 256.
Abbreviation bytes := (Forall byte).

Lemma byte_u8 z : byte (u8 z).
Proof. apply u8_range. Qed.

Lemma bytes_app l1 l2 : bytes (l1 ++ l2) <-> bytes l1 /\ bytes l2.
Proof. apply Forall_app. Qed.

#[export] Hint Resolve byte_u8 : lr.

(** Length of a buffer as a C size. *)
Definition zlen {A} (l : list A) : Z := Z.of_nat (length l).

(** [l[i]] for a C index; meaningful when [0 <= i < zlen l]. *)
Definition at_ (l : list Z) (i : Z) : Z := l !!! Z.to_nat i.

(** [memcpy]-style slice: [n] elements of [l] from offset [i]. *)
Definition slice {A} (i n : Z) (l : list A) : list A :=
  take (Z.to_nat n) (drop (Z.to_nat i) l).

Lemma zlen_app {A} (l1 l2 : list A) : zlen (l1 ++ l2) = zlen l1 + zlen l2.
Proof. unfold zlen. rewrite length_app. lia. Qed.

Lemma zlen_cons {A} (x : A) l : zlen (x :: l) = 1 + zlen l.
Proof. unfold zlen. cbn [length]. lia. Qed.

Lemma zlen_nil {A} : zlen (@nil A) = 0.
Proof. reflexivity. Qed.

Lemma zlen_nonneg {A} (l : list A) : 0 <= zlen l.
Proof. unfold zlen. lia. Qed.

Lemma zlen_replicate {A} n (x : A) : zlen (replicate n x) = Z.of_nat n.
Proof. unfold zlen. by rewrite length_replicate. Qed.

Lemma zlen_slice {A} i n (l : list A) :
  0 <= i -> 0 <= n -> i + n <= zlen l -> zlen (slice i n l) = n.
Proof.
  unfold zlen, slice. intros. rewrite length_take, length_drop. lia.
Qed.

Lemma zlen_take {A} (n : Z) (l : list A) :
  0 <= n <= zlen l -> zlen (take (Z.to_nat n) l) = n.
Proof. unfold zlen. intros. rewrite length_take. lia. Qed.

Create Rewrite HintDb lr_len.
#[export] Hint Rewrite @zlen_app @zlen_cons @zlen_nil @zlen_replicate : lr_len.
#[export] Hint Resolve zlen_nonneg : lr.

(** Extending a prefix of [l] by a slice gives a longer prefix. *)
Lemma take_slice {A} i n (l : list A) :
  0 <= i -> 0 <= n ->
  take (Z.to_nat i) l ++ slice i n l = take (Z.to_nat (i + n)) l.
Proof.
  intros. unfold slice. rewrite Z2Nat.inj_add by lia.
  by rewrite <- take_take_drop.
Qed.

Lemma take_snoc_at (l : list Z) i :
  0 <= i < zlen l ->
  take (Z.to_nat i) l ++ [at_ l i] = take (Z.to_nat (i + 1)) l.
Proof.
  unfold zlen, at_. intros. replace (Z.to_nat (i + 1)) with (S (Z.to_nat i)) by lia.
  symmetry. apply take_S_r. apply list_lookup_lookup_total_lt. lia.
Qed.

Lemma at_take (l : list Z) i n :
  0 <= i < n -> at_ (take (Z.to_nat n) l) i = at_ l i.
Proof.
  intros. unfold at_. rewrite !list_lookup_total_alt.
  by rewrite lookup_take_lt by lia.
Qed.

Lemma at_app_l (l1 l2 : list Z) i :
  0 <= i < zlen l1 -> at_ (l1 ++ l2) i = at_ l1 i.
Proof.
  unfold zlen, at_. intros. apply lookup_total_app_l. lia.
Qed.

Lemma slice_bytes i n (l : list Z) : bytes l -> bytes (slice i n l).
Proof. intros. unfold slice. by apply Forall_take, Forall_drop. Qed.

#[export] Hint Resolve slice_bytes : lr.

(** ** Little-endian fields *)

(** The [n] low bytes of [z], least significant first. *)
Fixpoint le_bytes (n : nat) (z : Z) : list Z :=
  match n with
  | O => []
  | S n' => u8 z :: le_bytes n' (Z.shiftr z 8)
  end.

(** The value of a little-endian byte string. *)
Fixpoint le_val (l : list Z) : Z :=
  match l with
  | [] => 0
  | b :: l' => b + 256 * le_val l'
  end.

Lemma length_le_bytes n z : length (le_bytes n z) = n.
Proof. revert z. induction n; intros; cbn; auto. Qed.

Lemma zlen_le_bytes n z : zlen (le_bytes n z) = Z.of_nat n.
Proof. unfold zlen. by rewrite length_le_bytes. Qed.

Lemma bytes_le_bytes n z : bytes (le_bytes n z).
Proof. revert z. induction n; intros; cbn; constructor; auto with lr. Qed.

Lemma le_val_bytes n z : le_val (le_bytes n z) = z mod 256 ^ Z.of_nat n.
Proof.
  revert z. induction n as [|n IH]; intros z; cbn [le_bytes le_val].
  - symmetry. apply Z.mod_1_r.
  - rewrite IH, Z.shiftr_div_pow2 by lia. unfold u8.
    change (2 ^ 8) with 256.
    rewrite Nat2Z.inj_succ, Z.pow_succ_r by lia.
    rewrite Z.rem_mul_r by lia. reflexivity.
Qed.

Lemma le_val_range l : bytes l -> 0 <= le_val l < 256 ^ zlen l.
Proof.
  induction 1 as [|b l Hb Hl IH]; cbn [le_val].
  - by split.
  - rewrite zlen_cons, Z.pow_add_r by (auto with lr; lia). unfold byte in Hb. lia.
Qed.

#[export] Hint Resolve bytes_le_bytes : lr.
#[export] Hint Rewrite zlen_le_bytes : lr_len.

(** Packing two fields with [|] and [<<]. *)
Lemma lor_shiftl_add k a b :
  0 <= k -> 0 <= a < 2 ^ k -> Z.lor a (Z.shiftl b k) = a + 2 ^ k * b.
Proof.
  intros Hk Ha.
  assert (Z.land a (Z.shiftl b k) = 0) as Hland.
  { apply Z.bits_inj'. intros i Hi. rewrite Z.land_spec, Z.bits_0.
    destruct (Z.lt_ge_cases i k).
    - rewrite Z.shiftl_spec_low by lia. apply andb_false_r.
    - rewrite <- (Z.mod_small a (2 ^ k)), Z.mod_pow2_bits_high by lia. done. }
  rewrite <- Z.lxor_lor, <- Z.add_nocarry_lxor by done.
  rewrite Z.shiftl_mul_pow2 by lia. lia.
Qed.

(** ** Binary64 values

    A C [double] is a [spec_float]; the operations round to nearest even. *)
Abbreviation f64 := spec_float.

Definition f64_of_Z (z : Z) : f64 := binary_normalize 53 1024 z 0 false.
Definition f64_add : f64 -> f64 -> f64 := SFadd 53 1024.
Definition f64_sub : f64 -> f64 -> f64 := SFsub 53 1024.
Definition f64_mul : f64 -> f64 -> f64 := SFmul 53 1024.
Definition f64_div : f64 -> f64 -> f64 := SFdiv 53 1024.
Definition f64_ltb : f64 -> f64 -> bool := SFltb.
Definition f64_leb : f64 -> f64 -> bool := SFleb.
Definition f64_eqb : f64 -> f64 -> bool := SFeqb.

(** A 64-bit pattern as the double it encodes. *)
Definition f64_of_bits (b : Z) : f64 :=
  let s := Z.testbit b 63 in
  let e := Z.land (Z.shiftr b 52) 2047 in
  let m := Z.land b (2 ^ 52 - 1) in
  if e =? 2047 then (if m =? 0 then SpecFloat.S754_infinity s else SpecFloat.S754_nan)
  else if e =? 0 then
    (match m with Z.pos q => SpecFloat.S754_finite s q (-1074)
                | _ => SpecFloat.S754_zero s end)
  else match m + 2 ^ 52 with
       | Z.pos q => SpecFloat.S754_finite s q (e - 1075)
       | _ => SpecFloat.S754_zero s
       end.

(** ** Allocation

    [malloc], [calloc] and [realloc] may fail; an operation that calls them
    takes the outcome as a boolean. *)
Abbreviation alloc_result := bool.
