(* ===== verification/Lz4.v ===== *)
(** LZ4 block compression, [src/src/lr_compress.c].

    [lr_lz4_compress] is modelled as the loop it is: a state with the two
    cursors into the source ([c_ip], [c_anchor]), the bytes written so far
    ([c_op], so [op - dst] is its length), the match-finder hash table and the
    two acceleration counters.  [lr_lz4_decompress] consumes the remaining
    input bytes and extends the output.  C pointers into a buffer are offsets.
    The decoder can read bytes nobody has written, with a match offset of 0, and
    bytes behind its input, in the extension of a length: the bytes it finds
    there, [dst0] and [behind], are parameters.

    The theorems: the decoder restores every input the encoder accepts
    (whatever the hash table finds), the encoder never overruns the
    [LR_LZ4_COMPRESS_BOUND] buffer although it does not check every write, the
    decoder never writes past the destination, whatever it reads, and both loops
    terminate. *)

From stdpp Require Import base list gmap.
From Stdlib Require Import ZArith Lia.
From S2P Require Import Prelude.

Definition LZ4_HASH_LOG : Z := 14.
Definition LZ4_MIN_MATCH : Z := 4.
Definition LZ4_MAX_DISTANCE : Z := 65535.
Definition LZ4_LAST_LITERALS : Z := 5.

(** [LR_LZ4_COMPRESS_BOUND] *)
Definition compress_bound (n : Z) : Z := n + n / 255 + 16.

Definition lz4_hash (val : Z) : Z :=
  Z.shiftr (u32 (val * 2654435761)) (32 - LZ4_HASH_LOG).

Definition lz4_read32 (src : list Z) (p : Z) : Z := le_val (slice p 4 src).

(** ** Compression *)

Record cstate := CState {
  c_ip : Z;                 (* current position in source *)
  c_anchor : Z;             (* start of the current literal run *)
  c_op : list Z;            (* output written so far *)
  c_table : gmap Z Z;       (* hash_table; absent = -1 *)
  c_step : Z;
  c_nb : Z                  (* search_match_nb *)
}.

(** [while (token >= 255) { *op++ = 255; token -= 255; } *op++ = token;] *)
Fixpoint put_ext (fuel : nat) (token : Z) (op : list Z) : list Z :=
  match fuel with
  | O => op
  | S fuel' =>
      if token >=? 255 then put_ext fuel' (token - 255) (op ++ [255])
      else op ++ [u8 token]
  end.

Definition put_length (token : Z) (op : list Z) : list Z :=
  put_ext (S (Z.to_nat (token / 255))) token op.

(** The inner [while] that extends a found match; returns [match]. *)
Fixpoint extend_match (fuel : nat) (src : list Z) (ip matchlimit mt rm : Z) : Z :=
  match fuel with
  | O => mt
  | S fuel' =>
      if (mt <? matchlimit) && (rm <? ip) && (at_ src mt =? at_ src rm)
      then extend_match fuel' src ip matchlimit (mt + 1) (rm + 1)
      else mt
  end.

(** The literal-run part of a sequence: token byte with the literal length in
    its high nibble, extension bytes, then the literals. *)
Definition put_literals (lits op : list Z) : list Z :=
  let lit_len := zlen lits in
  let op1 :=
    if lit_len >=? 15 then put_length (lit_len - 15) (op ++ [u8 (Z.shiftl 15 4)])
    else op ++ [u8 (Z.shiftl lit_len 4)] in
  op1 ++ lits.

(** The offset and the match length; the length is OR'd into the token byte
    at [token_ptr], extension bytes go after the offset. *)
Definition put_match (token_ptr : nat) (offset match_len : Z) (op : list Z) : list Z :=
  let op1 := op ++ [u8 (Z.land offset 255); u8 (Z.land (Z.shiftr offset 8) 255)] in
  let token := match_len - LZ4_MIN_MATCH in
  if token <? 15 then alter (fun b => Z.lor b (u8 token)) token_ptr op1
  else put_length (token - 15) (alter (fun b => Z.lor b 15) token_ptr op1).

(** The reference position is a valid 4-byte match. *)
Definition match_at (src : list Z) (ip ref : Z) : bool :=
  (0 <=? ref) && (ip - ref <=? LZ4_MAX_DISTANCE) &&
  (at_ src ip =? at_ src ref) && (at_ src (ip + 1) =? at_ src (ref + 1)) &&
  (at_ src (ip + 2) =? at_ src (ref + 2)) && (at_ src (ip + 3) =? at_ src (ref + 3)).

(** One iteration of the main loop; [None] is [goto fail]. *)
Definition compress_step (src : list Z) (st : cstate) : option cstate :=
  let iend := zlen src in
  let matchlimit := iend - LZ4_MIN_MATCH in
  let ip := c_ip st in
  let h := lz4_hash (lz4_read32 src ip) in
  let ref := default (-1) (c_table st !! h) in
  let table := <[h := i32 ip]> (c_table st) in
  if match_at src ip ref then
    let mt := extend_match (length src) src ip matchlimit
                (ip + LZ4_MIN_MATCH) (ref + LZ4_MIN_MATCH) in
    let match_len := mt - ip in
    let lit_len := ip - c_anchor st in
    if zlen (c_op st) + 1 + lit_len >? compress_bound iend then None
    else
      let op1 := put_literals (slice (c_anchor st) lit_len src) (c_op st) in
      let op2 := put_match (length (c_op st)) (ip - ref) match_len op1 in
      Some (CState mt mt op2 table (i32 match_len) 0)
  else
    let nb := c_nb st + 1 in
    Some (CState (ip + c_step st) (c_anchor st) (c_op st) table
                 (Z.shiftr nb 1 + 1) nb).

Fixpoint compress_loop (fuel : nat) (src : list Z) (st : cstate) : option cstate :=
  match fuel with
  | O => Some st
  | S fuel' =>
      if c_ip st <? zlen src - LZ4_LAST_LITERALS then
        match compress_step src st with
        | None => None
        | Some st' => compress_loop fuel' src st'
        end
      else Some st
  end.

Definition compress_init : cstate := CState 0 0 [] ∅ 1 1.

(** The remaining literals after the loop. *)
Definition compress_finish (src : list Z) (st : cstate) : option (list Z) :=
  let iend := zlen src in
  let lit_len := iend - c_anchor st in
  if lit_len >? 0 then
    if zlen (c_op st) + 1 + lit_len >? compress_bound iend then None
    else Some (put_literals (slice (c_anchor st) lit_len src) (c_op st))
  else Some (c_op st).

(** [None]: the function returns 0.  [Some out]: it returns [zlen out] with
    [out] written at [dst]. *)
Definition lr_lz4_compress (calloc_ok : alloc_result) (src : list Z) : option (list Z) :=
  if zlen src <? LZ4_MIN_MATCH then None
  else if negb calloc_ok then None
  else match compress_loop (length src) src compress_init with
       | None => None
       | Some st => compress_finish src st
       end.

(** ** Decompression *)

Inductive dec_result :=
  | DecOk (out : list Z)    (* returns [zlen out], the bytes written *)
  | DecFail (out : list Z)  (* returns 0, having written [out] *)
  | DecUndef                (* reads past the bytes [behind] the input *)
  | DecFuel.                (* fuel exhausted; never with the fuel given below *)

Inductive dec_step_result :=
  | StepDone (r : dec_result)
  | StepNext (rest out : list Z).

Section decoder.
(** The bytes in memory behind the input, and those in the destination before the
    call, by offset. *)
Context (behind : list Z) (dst0 : Z -> Z).

(** The extension of a length behind the end of the input. *)
Fixpoint read_behind (len : Z) (mem : list Z) : option Z :=
  match mem with
  | [] => None
  | extra :: mem' => if extra =? 255 then read_behind (len + 255) mem' else Some (len + extra)
  end.

(** [while ((extra = *ip++) == 255) len += 255; len += extra;]: the length, and
    the rest of the input if [ip] has not passed [iend]. *)
Fixpoint read_length (len : Z) (rest : list Z) : option (Z * option (list Z)) :=
  match rest with
  | [] => match read_behind len behind with Some len' => Some (len', None) | None => None end
  | extra :: rest' =>
      if extra =? 255 then read_length (len + 255) rest' else Some (len + extra, Some rest')
  end.

(** [if (nibble == 15) { ... }]: the extended length, if there is one. *)
Definition read_nibble (nibble base : Z) (rest : list Z) : option (Z * option (list Z)) :=
  if nibble =? 15 then read_length base rest else Some (base, Some rest).

(** The byte at [dst + i] when [out] has been written. *)
Definition dst_byte (out : list Z) (i : Z) : Z := if i <? zlen out then at_ out i else dst0 i.

(** [for (i = 0; i < match_len; i++) op[i] = match_src[i];] with overlap. *)
Fixpoint copy_match (n : nat) (offset : Z) (out : list Z) : list Z :=
  match n with
  | O => out
  | S n' => copy_match n' offset (out ++ [dst_byte out (zlen out - offset)])
  end.

(** The body of the loop from the match offset on. *)
Definition decode_match (dst_len token : Z) (rest out : list Z) : dec_step_result :=
  match rest with
  | b0 :: b1 :: rest1 =>
      let offset := Z.lor b0 (Z.shiftl b1 8) in
      match read_nibble (Z.land token 15) (Z.land token 15 + LZ4_MIN_MATCH) rest1 with
      | None => StepDone DecUndef
      | Some (match_len, rest2) =>
          if zlen out - offset <? 0 then StepDone (DecFail out)
          else if zlen out + match_len >? dst_len then StepDone (DecFail out)
          else StepNext (default [] rest2) (copy_match (Z.to_nat match_len) offset out)
      end
  | _ => StepDone (DecFail out)
  end.

(** One iteration of the decoder loop on a token.  [ip + lit_len > iend] holds
    whenever [ip] has passed [iend]. *)
Definition decode_step (dst_len token : Z) (rest out : list Z) : dec_step_result :=
  let nibble := Z.shiftr token 4 in
  match read_nibble nibble nibble rest with
  | None => StepDone DecUndef
  | Some (_, None) => StepDone (DecFail out)
  | Some (lit_len, Some rest1) =>
      if (lit_len >? zlen rest1) || (zlen out + lit_len >? dst_len) then StepDone (DecFail out)
      else
        let out1 := out ++ take (Z.to_nat lit_len) rest1 in
        let rest2 := drop (Z.to_nat lit_len) rest1 in
        match rest2 with
        | [] => StepDone (DecOk out1)
        | _ => decode_match dst_len token rest2 out1
        end
  end.

Fixpoint decode_loop (fuel : nat) (dst_len : Z) (rest out : list Z) : dec_result :=
  match rest with
  | [] => DecOk out
  | token :: rest1 =>
      match fuel with
      | O => DecFuel
      | S fuel' =>
          match decode_step dst_len token rest1 out with
          | StepDone r => r
          | StepNext rest' out' => decode_loop fuel' dst_len rest' out'
          end
      end
  end.

Definition lr_lz4_decompress (src : list Z) (dst_len : Z) : dec_result :=
  decode_loop (length src) dst_len src [].

End decoder.

(** ** The size-aware wrappers *)

Record packed := Packed {
  pk_data : option (list Z);   (* returned pointer; [None] is NULL *)
  pk_len : Z;                  (* *out_len *)
  pk_compressed : bool         (* *was_compressed *)
}.

(** The fallback of every uncompressed path: a copy of the input. *)
Definition packed_copy (copy_ok : alloc_result) (data : list Z) : packed :=
  Packed (if copy_ok then Some data else None) (zlen data) false.

Definition lr_compress_if_beneficial (malloc_ok calloc_ok copy_ok : alloc_result)
    (data : list Z) (min_ratio : f64) : packed :=
  if zlen data <? 64 then packed_copy copy_ok data
  else if negb malloc_ok then packed_copy copy_ok data
  else match lr_lz4_compress calloc_ok data with
       | None => packed_copy copy_ok data
       | Some out =>
           let csize := zlen out in
           if (csize =? 0)
              || f64_ltb min_ratio (f64_div (f64_of_Z csize) (f64_of_Z (zlen data)))
           then packed_copy copy_ok data
           else Packed (Some (le_bytes 4 (u32 (zlen data)) ++ out)) (csize + 4) true
       end.

Inductive unpacked :=
  | Unpacked (data : option (list Z))   (* [None] is NULL *)
  | UnpackUndef.                        (* the decoder's undefined behaviour *)

(** [fresh]: the bytes of the block [malloc] returns. *)
Definition lr_decompress_if_needed (behind : list Z) (fresh : Z -> Z) (malloc_ok : alloc_result)
    (data : list Z) (was_compressed : bool) : unpacked :=
  if negb was_compressed then Unpacked (if malloc_ok then Some data else None)
  else if zlen data <? 4 then Unpacked None
  else
    let uncompressed_len := le_val (take 4 data) in
    if negb malloc_ok then Unpacked None
    else match lr_lz4_decompress behind fresh (drop 4 data) uncompressed_len with
         | DecOk out =>
             if zlen out =? uncompressed_len then Unpacked (Some out) else Unpacked None
         | DecFail _ => Unpacked (if 0 =? uncompressed_len then Some [] else None)
         | DecUndef | DecFuel => UnpackUndef
         end.

(** ** Canonical form of the output *)

(** The extension bytes of a length [n] whose nibble is [min n 15]. *)
Definition len_ext (n : Z) : list Z :=
  if n <? 15 then []
  else replicate (Z.to_nat ((n - 15) / 255)) 255 ++ [(n - 15) mod 255].

(** A whole sequence: token, literals, offset, match length. *)
Definition sequence (lits : list Z) (offset match_len : Z) : list Z :=
  (16 * Z.min (zlen lits) 15 + Z.min (match_len - 4) 15)
    :: len_ext (zlen lits) ++ lits
    ++ [offset mod 256; offset / 256] ++ len_ext (match_len - 4).

(** The last, match-less sequence. *)
Definition last_sequence (lits : list Z) : list Z :=
  16 * Z.min (zlen lits) 15 :: len_ext (zlen lits) ++ lits.

Lemma put_ext_spec fuel token op :
  0 <= token -> token / 255 < Z.of_nat fuel ->
  put_ext fuel token op =
    op ++ replicate (Z.to_nat (token / 255)) 255 ++ [token mod 255].
Proof.
  revert token op. induction fuel as [|fuel IH]; intros token op Ht Hf; [divlia|].
  cbn [put_ext]. rewrite Z.geb_leb. destruct (Z.leb_spec 255 token).
  - assert (token / 255 = 1 + (token - 255) / 255) as E by divlia.
    rewrite IH by divlia. rewrite E, <- app_assoc.
    replace (Z.to_nat (1 + (token - 255) / 255))
      with (S (Z.to_nat ((token - 255) / 255))) by divlia.
    replace ((token - 255) mod 255) with (token mod 255) by divlia. done.
  - rewrite Z.div_small, Z.mod_small, u8_small by lia. done.
Qed.

Lemma put_length_spec n op :
  15 <= n -> put_length (n - 15) op = op ++ len_ext n.
Proof.
  intros. unfold put_length, len_ext. rewrite put_ext_spec by divlia.
  destruct (Z.ltb_spec n 15); [lia|done].
Qed.

Lemma len_ext_small n : n < 15 -> len_ext n = [].
Proof. intros. unfold len_ext. destruct (Z.ltb_spec n 15); [done|lia]. Qed.

Lemma put_literals_spec lits op :
  put_literals lits op =
    op ++ (16 * Z.min (zlen lits) 15) :: len_ext (zlen lits) ++ lits.
Proof.
  unfold put_literals. pose proof (zlen_nonneg lits).
  rewrite Z.geb_leb. destruct (Z.leb_spec 15 (zlen lits)).
  - rewrite put_length_spec by lia. rewrite Z.min_r by lia.
    by rewrite <- !app_assoc.
  - rewrite len_ext_small, Z.min_l by lia. rewrite <- app_assoc. cbn [app].
    rewrite Z.shiftl_mul_pow2, u8_small by lia. do 2 f_equal. lia.
Qed.

Lemma lor_nibble a b : 0 <= b < 16 -> Z.lor (16 * a) b = 16 * a + b.
Proof.
  intros. replace (16 * a) with (Z.shiftl a 4) at 1
    by (rewrite Z.shiftl_mul_pow2; lia).
  rewrite Z.lor_comm, lor_shiftl_add by lia. lia.
Qed.

Lemma put_match_spec op t rest offset match_len :
  (exists a, t = 16 * a) -> 4 <= match_len -> 0 <= offset < 65536 ->
  put_match (length op) offset match_len (op ++ t :: rest) =
    op ++ (t + Z.min (match_len - 4) 15) :: rest
       ++ [offset mod 256; offset / 256] ++ len_ext (match_len - 4).
Proof.
  intros [a ->] Hm Ho. unfold put_match, LZ4_MIN_MATCH.
  assert (u8 (Z.land offset 255) = offset mod 256) as ->.
  { change 255 with (Z.ones 8). rewrite Z.land_ones by lia.
    change (2 ^ 8) with 256. apply u8_small. divlia. }
  assert (u8 (Z.land (Z.shiftr offset 8) 255) = offset / 256) as ->.
  { change 255 with (Z.ones 8). rewrite Z.land_ones, Z.shiftr_div_pow2 by lia.
    change (2 ^ 8) with 256. rewrite Z.mod_small by divlia. apply u8_small. divlia. }
  rewrite <- app_assoc. cbn [app].
  rewrite !alter_app_r_alt, Nat.sub_diag by done. cbn [alter list_alter].
  destruct (Z.ltb_spec (match_len - 4) 15).
  - rewrite len_ext_small, Z.min_l, u8_small, lor_nibble by lia. done.
  - rewrite put_length_spec, Z.min_r, lor_nibble by lia.
    by rewrite <- !app_assoc, <- app_comm_cons, <- app_assoc.
Qed.

(** ** Decoding one sequence *)

Section decoding.
Context (behind : list Z) (dst0 : Z -> Z).

Lemma read_length_spec k r len rest :
  0 <= r < 255 ->
  read_length behind len (replicate k 255 ++ r :: rest) =
    Some (len + 255 * Z.of_nat k + r, Some rest).
Proof.
  intros Hr. revert len. induction k as [|k IH]; intros len; cbn [replicate app read_length].
  - destruct (Z.eqb_spec r 255); [lia|]. do 2 f_equal. lia.
  - cbn. rewrite IH. do 2 f_equal. lia.
Qed.

Lemma read_nibble_spec n base rest :
  0 <= n ->
  read_nibble behind (Z.min n 15) (Z.min n 15 + base) (len_ext n ++ rest) = Some (n + base, Some rest).
Proof.
  intros Hn. unfold read_nibble, len_ext. destruct (Z.ltb_spec n 15).
  - rewrite Z.min_l by lia. destruct (Z.eqb_spec n 15); [lia|done].
  - rewrite Z.min_r, Z.eqb_refl, <- app_assoc by lia. cbn [app].
    rewrite read_length_spec by divlia. do 2 f_equal. divlia.
Qed.

Lemma token_nibbles a b :
  0 <= a < 16 -> 0 <= b < 16 ->
  Z.shiftr (16 * a + b) 4 = a /\ Z.land (16 * a + b) 15 = b.
Proof.
  intros. rewrite Z.shiftr_div_pow2 by lia. change 15 with (Z.ones 4) at 1.
  rewrite Z.land_ones by lia. change (2 ^ 4) with 16. split; divlia.
Qed.

Lemma take_app_zlen (l1 l2 : list Z) : take (Z.to_nat (zlen l1)) (l1 ++ l2) = l1.
Proof. unfold zlen. by rewrite Nat2Z.id, take_app_length. Qed.

Lemma drop_app_zlen (l1 l2 : list Z) : drop (Z.to_nat (zlen l1)) (l1 ++ l2) = l2.
Proof. unfold zlen. by rewrite Nat2Z.id, drop_app_length. Qed.

Lemma decode_step_last lits dst_len out :
  zlen out + zlen lits <= dst_len ->
  decode_step behind dst0 dst_len (16 * Z.min (zlen lits) 15) (len_ext (zlen lits) ++ lits) out
    = StepDone (DecOk (out ++ lits)).
Proof.
  intros H. unfold decode_step. pose proof (zlen_nonneg lits).
  destruct (token_nibbles (Z.min (zlen lits) 15) 0) as [Et _]; [lia..|].
  rewrite Z.add_0_r in Et. rewrite Et.
  rewrite <- (app_nil_r (len_ext (zlen lits) ++ lits)), <- app_assoc.
  rewrite <- (Z.add_0_r (Z.min (zlen lits) 15)) at 2.
  rewrite read_nibble_spec, Z.add_0_r by lia.
  rewrite take_app_zlen, drop_app_zlen, zlen_app.
  change (zlen (@nil Z)) with 0. rewrite Z.add_0_r, Z.gtb_ltb, Z.ltb_irrefl.
  destruct (Z.gtb_spec (zlen out + zlen lits) dst_len); [lia|done].
Qed.

Lemma decode_step_sequence lits offset match_len tail dst_len out :
  1 <= offset <= zlen out + zlen lits -> offset < 65536 -> 4 <= match_len ->
  zlen out + zlen lits + match_len <= dst_len ->
  exists token rest,
    sequence lits offset match_len ++ tail = token :: rest /\
    (length tail <= length rest)%nat /\
    decode_step behind dst0 dst_len token rest out =
      StepNext tail (copy_match dst0 (Z.to_nat match_len) offset (out ++ lits)).
Proof.
  intros Ho Ho2 Hm Hd.
  exists (16 * Z.min (zlen lits) 15 + Z.min (match_len - 4) 15),
    (len_ext (zlen lits) ++ lits
       ++ offset mod 256 :: offset / 256 :: len_ext (match_len - 4) ++ tail).
  split. { unfold sequence. cbn [app]. by rewrite <- !app_assoc. }
  split. { rewrite !length_app. cbn [length]. rewrite length_app. lia. }
  pose proof (zlen_nonneg lits). unfold decode_step.
  destruct (token_nibbles (Z.min (zlen lits) 15) (Z.min (match_len - 4) 15))
    as [Et1 Et2]; [lia..|].
  rewrite Et1.
  rewrite <- (Z.add_0_r (Z.min (zlen lits) 15)) at 2.
  rewrite read_nibble_spec, Z.add_0_r by lia.
  rewrite take_app_zlen, drop_app_zlen, zlen_app.
  destruct (Z.gtb_spec (zlen lits) (zlen lits + zlen (offset mod 256
    :: offset / 256 :: len_ext (match_len - 4) ++ tail))).
  { pose proof (zlen_nonneg (offset mod 256 :: offset / 256
      :: len_ext (match_len - 4) ++ tail)). lia. }
  destruct (Z.gtb_spec (zlen out + zlen lits) dst_len); [lia|]. cbn [orb].
  unfold decode_match, LZ4_MIN_MATCH. rewrite Et2, read_nibble_spec by lia.
  rewrite (lor_shiftl_add 8) by divlia.
  replace (offset mod 256 + 2 ^ 8 * (offset / 256)) with offset by divlia.
  rewrite zlen_app, Z.sub_add.
  destruct (Z.ltb_spec (zlen out + zlen lits - offset) 0); [lia|].
  destruct (Z.gtb_spec (zlen out + zlen lits + match_len) dst_len); [lia|done].
Qed.

End decoding.

(** ** What the encoder writes *)

(** Positions [ip ..] and [ref ..] of [src] agree on the next [n] bytes. *)
Definition agree (src : list Z) (ip ref n : Z) : Prop :=
  forall i, 0 <= i < n -> at_ src (ip + i) = at_ src (ref + i).

(** [encodes src op a]: [op] is a list of whole sequences that decode to the
    first [a] bytes of [src]. *)
Inductive encodes (src : list Z) : list Z -> Z -> Prop :=
  | encodes_nil : encodes src [] 0
  | encodes_seq op anchor ip ref mt :
      encodes src op anchor ->
      0 <= anchor <= ip -> 0 <= ref < ip -> ip - ref <= LZ4_MAX_DISTANCE ->
      ip + LZ4_MIN_MATCH <= mt <= zlen src -> agree src ip ref (mt - ip) ->
      encodes src
        (op ++ sequence (slice anchor (ip - anchor) src) (ip - ref) (mt - ip)) mt.

Lemma copy_match_take dst0 n src p offset :
  1 <= offset <= p -> p + Z.of_nat n <= zlen src ->
  agree src p (p - offset) (Z.of_nat n) ->
  copy_match dst0 n offset (take (Z.to_nat p) src) = take (Z.to_nat (p + Z.of_nat n)) src.
Proof.
  revert p. induction n as [|n IH]; intros p Ho Hp Hag; cbn [copy_match].
  - by rewrite Z.add_0_r.
  - unfold dst_byte. rewrite zlen_take by lia. rewrite (proj2 (Z.ltb_lt (p - offset) p)) by lia.
    rewrite at_take by lia.
    pose proof (Hag 0 ltac:(lia)) as E. rewrite !Z.add_0_r in E.
    rewrite <- E, take_snoc_at, IH by first
      [ lia | intros i Hi; replace (p + 1 + i) with (p + (i + 1)) by lia;
              replace (p + 1 - offset + i) with (p - offset + (i + 1)) by lia;
              apply Hag; lia ].
    do 2 f_equal. lia.
Qed.

Lemma extend_match_spec fuel src ip ref k :
  0 <= k -> agree src ip ref k ->
  let mt := extend_match fuel src ip (zlen src - LZ4_MIN_MATCH) (ip + k) (ref + k) in
  ip + k <= mt <= Z.max (ip + k) (zlen src - LZ4_MIN_MATCH) /\
  mt - ip <= Z.max k (ip - ref) /\ agree src ip ref (mt - ip).
Proof.
  cbv zeta. revert k. induction fuel as [|fuel IH]; intros k Hk Hag; cbn [extend_match].
  { split_and!; [lia..|]. by replace (ip + k - ip) with k by lia. }
  case_if.
  - to_prop. replace (ip + k + 1) with (ip + (k + 1)) by lia.
    replace (ref + k + 1) with (ref + (k + 1)) by lia.
    destruct (IH (k + 1)) as (? & ? & ?); [lia| |split_and!; [lia..|done]].
    intros i Hi. destruct (decide (i = k)) as [->|]; [done|apply Hag; lia].
  - split_and!; [lia..|]. by replace (ip + k - ip) with k by lia.
Qed.

Lemma match_at_spec src ip ref :
  match_at src ip ref = true ->
  0 <= ref /\ ip - ref <= LZ4_MAX_DISTANCE /\ agree src ip ref 4.
Proof.
  unfold match_at. intros H. to_prop. split_and!; [lia..|].
  intros i Hi. assert (i = 0 \/ i = 1 \/ i = 2 \/ i = 3) as [-> | [-> | [-> | ->]]]
    by lia; rewrite ?Z.add_0_r; lia.
Qed.

Lemma zlen_len_ext n :
  0 <= n -> 0 <= zlen (len_ext n) <= n / 255 + 1 /\ (n < 15 -> zlen (len_ext n) = 0)
  /\ (15 <= n -> zlen (len_ext n) = (n - 15) / 255 + 1).
Proof.
  intros. unfold len_ext. destruct (Z.ltb_spec n 15).
  - change (zlen []) with 0. split_and!; divlia.
  - rewrite zlen_app, zlen_replicate, zlen_cons. change (zlen []) with 0.
    split_and!; divlia.
Qed.

(** A sequence is no longer than what it encodes, up to one byte per 255. *)
Lemma zlen_sequence lits offset m :
  4 <= m -> zlen (sequence lits offset m) <= zlen lits + m + zlen lits / 255.
Proof.
  intros. unfold sequence. autorewrite with lr_len. pose proof (zlen_nonneg lits).
  destruct (zlen_len_ext (zlen lits)) as (? & ? & ?); [lia|].
  destruct (zlen_len_ext (m - 4)) as (? & ? & ?); [lia|].
  change (zlen []) with 0. divlia.
Qed.

(** The loop invariant of the encoder. *)
Record cinv (src : list Z) (st : cstate) : Prop := {
  ci_enc : encodes src (c_op st) (c_anchor st);
  ci_anchor : 0 <= c_anchor st <= c_ip st;
  ci_left : c_anchor st < zlen src;
  ci_table : forall h p, c_table st !! h = Some p -> p < c_ip st;
  ci_step : 1 <= c_step st;
  ci_nb : 0 <= c_nb st;
  ci_size : zlen (c_op st) <= c_anchor st + c_anchor st / 255
}.

Lemma cinv_init src : 0 < zlen src -> cinv src compress_init.
Proof.
  intros. split; cbn; try lia; [apply encodes_nil| |done].
  intros h p. by rewrite lookup_empty.
Qed.

Lemma table_insert_lt (t : gmap Z Z) h ip ip' :
  (forall h p, t !! h = Some p -> p < ip) -> 0 <= ip < ip' ->
  forall h' p, <[h := i32 ip]> t !! h' = Some p -> p < ip'.
Proof.
  intros Ht Hip h' p. rewrite lookup_insert. case_decide; intros E; simplify_eq.
  - pose proof (i32_le ip). lia.
  - apply Ht in E. lia.
Qed.

(** A found match, written out. *)
Lemma compress_match_inv src st ref mt table :
  cinv src st -> c_ip st < zlen src - LZ4_LAST_LITERALS ->
  0 <= ref < c_ip st -> c_ip st - ref <= LZ4_MAX_DISTANCE ->
  c_ip st + LZ4_MIN_MATCH <= mt <= zlen src - 2 ->
  mt - c_ip st <= LZ4_MAX_DISTANCE ->
  agree src (c_ip st) ref (mt - c_ip st) ->
  (forall h p, table !! h = Some p -> p < mt) ->
  let lits := slice (c_anchor st) (c_ip st - c_anchor st) src in
  cinv src (CState mt mt (put_match (length (c_op st)) (c_ip st - ref) (mt - c_ip st)
                            (put_literals lits (c_op st)))
                   table (i32 (mt - c_ip st)) 0).
Proof.
  intros [Henc Ha Hl _ _ _ Hs] Hip Href Hd Hmt Hmt2 Hag Ht lits.
  unfold LZ4_LAST_LITERALS, LZ4_MAX_DISTANCE, LZ4_MIN_MATCH in *.
  assert (zlen lits = c_ip st - c_anchor st) as Elits.
  { apply zlen_slice; lia. }
  assert (put_match (length (c_op st)) (c_ip st - ref) (mt - c_ip st)
            (put_literals lits (c_op st))
          = c_op st ++ sequence lits (c_ip st - ref) (mt - c_ip st)) as ->.
  { rewrite put_literals_spec, put_match_spec; [|by eexists|lia..].
    unfold sequence. by rewrite <- !app_assoc. }
  split; cbn [c_ip c_anchor c_op c_table c_step c_nb]; try lia; try done.
  - apply encodes_seq; unfold LZ4_MAX_DISTANCE, LZ4_MIN_MATCH; done || lia.
  - rewrite i32_small; lia.
  - rewrite zlen_app. pose proof (zlen_sequence lits (c_ip st - ref) (mt - c_ip st)).
    divlia.
Qed.

Lemma compress_step_inv src st :
  cinv src st -> c_ip st < zlen src - LZ4_LAST_LITERALS ->
  exists st', compress_step src st = Some st' /\ cinv src st' /\ c_ip st < c_ip st'.
Proof.
  intros Hinv Hip. pose proof Hinv as [Henc Ha Hl Ht Hst Hnb Hs].
  unfold compress_step. set (h := lz4_hash _).
  set (ref := default (-1) (c_table st !! h)).
  assert (ref < c_ip st) as Hrefip.
  { unfold ref. destruct (c_table st !! h) eqn:E; cbn; [by eapply Ht|lia]. }
  destruct (match_at src (c_ip st) ref) eqn:Hm.
  - apply match_at_spec in Hm as (? & ? & Hag).
    destruct (extend_match_spec (length src) src (c_ip st) ref 4) as (Hb & Hb2 & Hag2);
      [lia|done|].
    set (mt := extend_match _ _ _ _ _ _) in *.
    unfold LZ4_LAST_LITERALS, LZ4_MIN_MATCH, LZ4_MAX_DISTANCE in *.
    destruct (Z.gtb_spec (zlen (c_op st) + 1 + (c_ip st - c_anchor st))
      (compress_bound (zlen src))) as [Hov|_].
    { unfold compress_bound in Hov. divlia. }
    eexists. split; [done|]. split; [|cbn; lia].
    apply compress_match_inv; try done; unfold LZ4_LAST_LITERALS, LZ4_MIN_MATCH,
      LZ4_MAX_DISTANCE; try lia.
    eapply table_insert_lt; [done|lia].
  - eexists. split; [done|]. split; [|cbn; lia].
    split; cbn [c_ip c_anchor c_op c_table c_step c_nb]; try lia; try done.
    + eapply table_insert_lt; [done|lia].
    + rewrite Z.shiftr_div_pow2 by lia. divlia.
Qed.

Lemma compress_loop_inv fuel src st :
  cinv src st -> zlen src - LZ4_LAST_LITERALS <= c_ip st + Z.of_nat fuel ->
  exists st', compress_loop fuel src st = Some st' /\ cinv src st' /\
              zlen src - LZ4_LAST_LITERALS <= c_ip st'.
Proof.
  revert st. induction fuel as [|fuel IH]; intros st Hinv Hf; cbn [compress_loop].
  { exists st. split_and!; [done..|lia]. }
  destruct (Z.ltb_spec (c_ip st) (zlen src - LZ4_LAST_LITERALS)) as [Hlt|].
  - destruct (compress_step_inv src st Hinv Hlt) as (st' & -> & Hinv' & ?).
    apply IH; [done|lia].
  - by exists st.
Qed.

(** The output of the whole encoder. *)
Lemma lr_lz4_compress_form src :
  LZ4_MIN_MATCH <= zlen src ->
  exists op a,
    encodes src op a /\ 0 <= a < zlen src /\ zlen op <= a + a / 255 /\
    lr_lz4_compress true src = Some (op ++ last_sequence (slice a (zlen src - a) src)).
Proof.
  unfold LZ4_MIN_MATCH. intros Hn. unfold lr_lz4_compress, LZ4_MIN_MATCH.
  destruct (Z.ltb_spec (zlen src) 4); [lia|]. cbn [negb].
  destruct (compress_loop_inv (length src) src compress_init) as (st & -> & Hinv & _).
  { apply cinv_init. lia. }
  { unfold LZ4_LAST_LITERALS, zlen. cbn. lia. }
  destruct Hinv as [Henc Ha Hl _ _ _ Hs].
  exists (c_op st), (c_anchor st). split_and!; [done|lia..|].
  unfold compress_finish.
  destruct (Z.gtb_spec (zlen src - c_anchor st) 0); [|lia].
  destruct (Z.gtb_spec (zlen (c_op st) + 1 + (zlen src - c_anchor st))
    (compress_bound (zlen src))) as [Hov|_].
  { unfold compress_bound in Hov. divlia. }
  by rewrite put_literals_spec.
Qed.

(** Running the decoder over whole sequences. *)
Lemma decode_encodes behind dst0 src op a tail fuel :
  encodes src op a -> (length (op ++ tail) <= fuel)%nat ->
  exists fuel', (length tail <= fuel')%nat /\
    decode_loop behind dst0 fuel (zlen src) (op ++ tail) [] =
    decode_loop behind dst0 fuel' (zlen src) tail (take (Z.to_nat a) src).
Proof.
  intros Henc. revert tail fuel.
  induction Henc as [|op anchor ip ref mt Henc IH Ha Href Hd Hmt Hag]; intros tail fuel Hf.
  { by exists fuel. }
  rewrite <- app_assoc in Hf |- *.
  destruct (IH _ fuel Hf) as (f1 & Hf1 & ->).
  unfold LZ4_MAX_DISTANCE, LZ4_MIN_MATCH in *.
  assert (zlen (slice anchor (ip - anchor) src) = ip - anchor) as El
    by (apply zlen_slice; lia).
  destruct (decode_step_sequence behind dst0 (slice anchor (ip - anchor) src) (ip - ref) (mt - ip)
    tail (zlen src) (take (Z.to_nat anchor) src))
    as (token & rest & Eseq & Hlen & Estep); rewrite ?zlen_take, ?El by lia; try lia.
  rewrite Eseq in Hf1 |- *. destruct f1 as [|f1]; [cbn in Hf1; lia|].
  cbn [decode_loop]. rewrite Estep.
  exists f1. split; [cbn in Hf1; lia|]. f_equal.
  rewrite take_slice by lia. rewrite Z.add_sub_assoc, Z.add_simpl_l.
  rewrite copy_match_take by first [lia | rewrite Z2Nat.id by lia;
    by replace (ip - (ip - ref)) with ref by lia].
  do 2 f_equal. lia.
Qed.

(** The end of the encoder's output is decoded to the end of the source. *)
Lemma decode_compressed behind dst0 src op a :
  encodes src op a -> 0 <= a < zlen src ->
  lr_lz4_decompress behind dst0 (op ++ last_sequence (slice a (zlen src - a) src)) (zlen src)
    = DecOk src.
Proof.
  intros Henc Ha. unfold lr_lz4_decompress.
  destruct (decode_encodes behind dst0 src op a (last_sequence (slice a (zlen src - a) src)) _
    Henc (Nat.le_refl _)) as (fuel & Hf & ->).
  destruct fuel as [|fuel]; [cbn in Hf; lia|]. cbn [decode_loop last_sequence].
  rewrite decode_step_last by (rewrite zlen_take, zlen_slice; lia).
  rewrite take_slice, Zplus_minus by lia. f_equal.
  apply take_ge. unfold zlen. lia.
Qed.

(** *** Any input *)

Section safety.
Context (behind : list Z) (dst0 : Z -> Z).
(** A run of 255s ends somewhere behind the input. *)
Context (Hb : Exists (fun b => b <> 255) behind).

Lemma read_behind_some len : is_Some (read_behind len behind).
Proof using Hb.
  revert len. pose proof Hb as H. clear Hb.
  induction H as [b mem H|b mem _ IH]; intros len; cbn [read_behind];
    (destruct (Z.eqb_spec b 255); [|by eexists]); [done|apply IH].
Qed.

(** A length is read, from what is left of the input. *)
Lemma read_nibble_some nibble base rest :
  exists len rest', read_nibble behind nibble base rest = Some (len, rest') /\
    (length (default [] rest') <= length rest)%nat.
Proof using Hb.
  unfold read_nibble. case_if; [|by exists base, (Some rest)].
  clear Hif. revert base. induction rest as [|b rest IH]; intros base; cbn [read_length].
  - destruct (read_behind_some base) as [len ->]. by exists len, None.
  - case_if; [|exists (base + b), (Some rest); cbn; split; [done|lia]].
    destruct (IH (base + 255)) as (len & rest' & E & Hl). exists len, rest'. split; [done|cbn; lia].
Qed.

Lemma zlen_copy_match n offset out : zlen (copy_match dst0 n offset out) = zlen out + Z.of_nat n.
Proof using.
  revert out. induction n as [|n IH]; intros out; cbn [copy_match]; [lia|].
  rewrite IH, zlen_app. change (zlen [_]) with 1. lia.
Qed.

(** What the decoder ends with, all of it inside the destination. *)
Definition within (dst_len : Z) (r : dec_result) : Prop :=
  match r with
  | DecOk out | DecFail out => zlen out <= dst_len
  | DecUndef | DecFuel => False
  end.

(** Every step stays inside the destination and consumes input. *)
Lemma decode_step_safe dst_len token rest out :
  zlen out <= dst_len ->
  match decode_step behind dst0 dst_len token rest out with
  | StepDone r => within dst_len r
  | StepNext rest' out' => zlen out' <= dst_len /\ (length rest' <= length rest)%nat
  end.
Proof using Hb.
  intros Ho. unfold decode_step.
  destruct (read_nibble_some (Z.shiftr token 4) (Z.shiftr token 4) rest) as (lit_len & rest' & -> & E1).
  destruct rest' as [rest1|]; [cbn in E1|done].
  destruct ((lit_len >? zlen rest1) || (zlen out + lit_len >? dst_len)) eqn:E2; [done|].
  to_prop. pose proof (length_take rest1 (Z.to_nat lit_len)) as Elen.
  assert (zlen (out ++ take (Z.to_nat lit_len) rest1) <= dst_len) as Ho1
    by (rewrite zlen_app; unfold zlen in *; lia).
  pose proof (length_drop rest1 (Z.to_nat lit_len)) as Edrop.
  destruct (drop (Z.to_nat lit_len) rest1) as [|b0 rest2] eqn:E3; [done|].
  unfold decode_match. destruct rest2 as [|b1 rest2]; [done|]. cbn in Edrop.
  destruct (read_nibble_some (Z.land token 15) (Z.land token 15 + LZ4_MIN_MATCH) rest2)
    as (match_len & rest3 & -> & E4).
  repeat (case_if; [done|]). to_prop. rewrite zlen_copy_match.
  pose proof (zlen_nonneg (out ++ take (Z.to_nat lit_len) rest1)).
  split; lia.
Qed.

Lemma decode_loop_safe fuel dst_len rest out :
  zlen out <= dst_len -> (length rest <= fuel)%nat ->
  within dst_len (decode_loop behind dst0 fuel dst_len rest out).
Proof using Hb.
  revert rest out. induction fuel as [|fuel IH]; intros rest out Ho Hf.
  { destruct rest; [done|cbn in Hf; lia]. }
  destruct rest as [|token rest]; [done|]. cbn [decode_loop].
  pose proof (decode_step_safe dst_len token rest out Ho) as Hs.
  destruct (decode_step _ _ dst_len token rest out) as [r|rest' out']; [done|].
  destruct Hs. apply IH; [done|cbn in Hf; lia].
Qed.

End safety.

(** ** Properties *)

(** C17: LZ4 round trip.  Every input the encoder accepts is restored exactly:
    compression succeeds and decompressing its result into a buffer of the
    original size yields the original bytes, whatever the buffer held and
    whatever lies behind the compressed block. *)
Theorem lr_lz4_roundtrip (src : list Z) :
  LZ4_MIN_MATCH <= zlen src ->
  exists out, lr_lz4_compress true src = Some out /\
              forall behind dst0, lr_lz4_decompress behind dst0 out (zlen src) = DecOk src.
Proof.
  intros Hn. destruct (lr_lz4_compress_form src Hn) as (op & a & Henc & Ha & _ & ->).
  eexists. split; [done|]. intros. apply decode_compressed; [done|lia].
Qed.

Lemma lr_lz4_roundtrip_witness :
  let src := [7; 1; 2; 3; 4; 5; 1; 2; 3; 4; 5; 9; 9; 9; 9; 9] in
  LZ4_MIN_MATCH <= zlen src /\
  exists out, lr_lz4_compress true src = Some out /\
    forall behind dst0, lr_lz4_decompress behind dst0 out (zlen src) = DecOk src.
Proof.
  intros src. assert (LZ4_MIN_MATCH <= zlen src) as H by (vm_compute; discriminate).
  split; [exact H|]. exact (lr_lz4_roundtrip src H).
Defined.

(** C27: the compressed output always fits the [LR_LZ4_COMPRESS_BOUND] buffer
    the caller provides, even though only the literal copies are checked
    against its end, so the encoder's checks never fail and it writes a
    non-empty result without overrunning [dst]. *)
Theorem lr_lz4_compress_fits (src : list Z) :
  LZ4_MIN_MATCH <= zlen src ->
  exists out, lr_lz4_compress true src = Some out /\
              0 < zlen out <= compress_bound (zlen src).
Proof.
  intros Hn. destruct (lr_lz4_compress_form src Hn) as (op & a & _ & Ha & Hs & ->).
  eexists. split; [done|]. unfold compress_bound, last_sequence.
  rewrite zlen_app, zlen_cons, zlen_app, zlen_slice by lia.
  pose proof (zlen_nonneg op).
  destruct (zlen_len_ext (zlen src - a)) as ([] & _ & _); [lia|]. divlia.
Qed.

Lemma lr_lz4_compress_fits_witness :
  let src := replicate 70 65 in
  LZ4_MIN_MATCH <= zlen src /\
  exists out, lr_lz4_compress true src = Some out /\
    0 < zlen out <= compress_bound (zlen src).
Proof.
  intros src. assert (LZ4_MIN_MATCH <= zlen src) as H by (vm_compute; discriminate).
  split; [exact H|]. exact (lr_lz4_compress_fits src H).
Defined.

(** C21: on any input, well formed or not, and whatever the destination holds and
    lies behind the input, the decoder stops, and all it wrote, whether it returns
    a length or fails, is inside the destination.  It is assumed only that not
    every byte behind the input is 255: the decoder reads the extension of a length
    on until it finds another byte ([lr_lz4_decompress_overread]). *)
Theorem lr_lz4_decompress_safe (behind : list Z) (dst0 : Z -> Z) (src : list Z) (dst_len : Z) :
  Exists (fun b => b <> 255) behind -> 0 <= dst_len ->
  (exists out, lr_lz4_decompress behind dst0 src dst_len = DecOk out /\ zlen out <= dst_len) \/
  (exists out, lr_lz4_decompress behind dst0 src dst_len = DecFail out /\ zlen out <= dst_len).
Proof.
  intros Hb Hd. pose proof (decode_loop_safe behind dst0 Hb (length src) dst_len src [] Hd ltac:(done)) as H.
  unfold lr_lz4_decompress. destruct (decode_loop _ _ _ _ _ _); cbn in H; [left|right|done..]; eauto.
Qed.

(** A match of offset 0, and the length of it read behind the input. *)
Lemma lr_lz4_decompress_safe_witness :
  lr_lz4_decompress [1] (fun _ => 9) [31; 7; 0; 0] 40 = DecOk (7 :: replicate 20 9) /\
  ((exists out, lr_lz4_decompress [1] (fun _ => 9) [31; 7; 0; 0] 40 = DecOk out /\ zlen out <= 40) \/
   (exists out, lr_lz4_decompress [1] (fun _ => 9) [31; 7; 0; 0] 40 = DecFail out /\ zlen out <= 40)).
Proof.
  split; [vm_compute; reflexivity|]. apply (lr_lz4_decompress_safe [1] (fun _ => 9) [31; 7; 0; 0] 40).
  - apply Exists_cons_hd. discriminate.
  - lia.
Defined.

(** The decoder trusts the length extension bytes of its input: a block
    that ends inside a run of 255s makes it read past the end of the source
    buffer, for every run length and every destination size; with 255s behind
    it, past these too. *)
Theorem lr_lz4_decompress_overread (n m : nat) (dst0 : Z -> Z) (dst_len : Z) :
  lr_lz4_decompress (replicate m 255) dst0 (240 :: replicate n 255) dst_len = DecUndef.
Proof.
  unfold lr_lz4_decompress. cbn [length decode_loop]. unfold decode_step, read_nibble.
  change (Z.shiftr 240 4) with 15. cbn [Z.eqb Pos.eqb].
  assert (forall len, read_behind len (replicate m 255) = None) as E0.
  { induction m as [|m IH]; intros; cbn; [done|apply IH]. }
  assert (forall len, read_length (replicate m 255) len (replicate n 255) = None) as E.
  { induction n as [|n IH]; intros; cbn; [by rewrite E0|apply IH]. }
  by rewrite E.
Qed.

(** C28: the size-aware wrappers round trip.  Whatever the ratio threshold and
    whichever allocation fails on the way in, a buffer that
    [lr_compress_if_beneficial] returns is turned back into the original data
    by [lr_decompress_if_needed] given the flag it stored, whatever the new block
    held; the four-byte size
    header needs the input to be shorter than 2^32 bytes. *)
Theorem lr_compress_roundtrip (behind : list Z) (fresh : Z -> Z)
    (malloc_ok calloc_ok copy_ok : alloc_result) (data : list Z) (min_ratio : f64) (buf : list Z) :
  zlen data < 2 ^ 32 ->
  pk_data (lr_compress_if_beneficial malloc_ok calloc_ok copy_ok data min_ratio) = Some buf ->
  let p := lr_compress_if_beneficial malloc_ok calloc_ok copy_ok data min_ratio in
  pk_len p = zlen buf /\
  lr_decompress_if_needed behind fresh true buf (pk_compressed p) = Unpacked (Some data).
Proof.
  intros Hlen Hbuf p. subst p. revert Hbuf. unfold lr_compress_if_beneficial.
  assert (forall c, pk_data (packed_copy c data) = Some buf ->
    pk_len (packed_copy c data) = zlen buf /\
    lr_decompress_if_needed behind fresh true buf (pk_compressed (packed_copy c data))
      = Unpacked (Some data)) as Hcopy.
  { intros [] E; cbn in E |- *; by simplify_eq. }
  destruct (Z.ltb_spec (zlen data) 64); [apply Hcopy|].
  destruct malloc_ok; [|apply Hcopy]. cbn [negb].
  destruct calloc_ok; [|unfold lr_lz4_compress, LZ4_MIN_MATCH;
    destruct (Z.ltb_spec (zlen data) 4); apply Hcopy].
  destruct (lr_lz4_compress_form data) as (op & a & Henc & Ha & _ & ->);
    [unfold LZ4_MIN_MATCH; lia|].
  case_if; [apply Hcopy|]. cbn [pk_data pk_len pk_compressed]. intros; simplify_eq.
  split; [autorewrite with lr_len; lia|].
  unfold lr_decompress_if_needed. cbn [negb].
  destruct (Z.ltb_spec (zlen (le_bytes 4 (u32 (zlen data)) ++ op ++
    last_sequence (slice a (zlen data - a) data))) 4) as [Hs|_].
  { rewrite zlen_app, zlen_le_bytes in Hs.
    pose proof (zlen_nonneg (op ++ last_sequence (slice a (zlen data - a) data))). lia. }
  rewrite take_app_length', drop_app_length' by (symmetry; apply length_le_bytes).
  rewrite le_val_bytes. change (256 ^ Z.of_nat 4) with (2 ^ 32).
  rewrite u32_small, Z.mod_small by (pose proof (zlen_nonneg data); lia).
  rewrite decode_compressed by done. by rewrite Z.eqb_refl.
Qed.

Lemma lr_compress_roundtrip_witness :
  let data := replicate 80 7 in
  let p := lr_compress_if_beneficial true true true data (f64_of_Z 1) in
  exists buf, zlen data < 2 ^ 32 /\ pk_data p = Some buf /\ pk_compressed p = true /\
    pk_len p = zlen buf /\
    lr_decompress_if_needed [] (fun _ => 0) true buf (pk_compressed p) = Unpacked (Some data).
Proof.
  intros data p. eexists. split; [by vm_compute|]. split; [by vm_compute|].
  split; [by vm_compute|].
  apply (lr_compress_roundtrip [] (fun _ => 0) true true true data (f64_of_Z 1)); by vm_compute.
Defined.
