(* ===== verification/BcProgram.v ===== *)
(** Bytecode programs: opcodes and their encoding, the constant pool, and the
    [LRBC] image of the IOME586 archive.
    [src/src/engine/lr_bytecode.h], [lr_bytecode_disasm.c],
    [lr_bytecode_serialize.c], and the program management of
    [lr_bytecode_cache.c].

    A program keeps its code as a byte list (so [code_len] is its length) and
    its pool as a list of constants.  A [double] constant is its 64-bit
    pattern, a C string the bytes of its buffer before the terminator, an AST
    pointer an opaque number. *)

From stdpp Require Import base list strings.
From Stdlib Require Import ZArith Lia.
From S2P Require Import Prelude.

(** ** Opcodes *)

Inductive BCOpcode :=
  | BC_STOP | BC_NOP | BC_PUSH_UNDEFINED | BC_PUSH_NULL | BC_PUSH_TRUE
  | BC_PUSH_FALSE | BC_PUSH_THIS | BC_PUSH_INT32 | BC_PUSH_FLOAT64 | BC_PUSH_STRING
  | BC_POP | BC_DUP | BC_DUP2 | BC_SWAP | BC_ROT3 | BC_LOAD_VAR | BC_STORE_VAR
  | BC_LOAD_LOCAL | BC_STORE_LOCAL | BC_INC_LOCAL | BC_INC_LOCAL_DISCARD
  | BC_INC_VAR | BC_DECLARE_VAR | BC_TYPEOF_VAR | BC_ADD_SELF | BC_MUL_SELF
  | BC_ADD | BC_SUB | BC_MUL | BC_DIV | BC_MOD | BC_POW | BC_LT | BC_GT | BC_LE
  | BC_GE | BC_EQ | BC_NE | BC_STRICT_EQ | BC_STRICT_NE | BC_SHL | BC_SHR | BC_SAR
  | BC_BIT_AND | BC_BIT_OR | BC_BIT_XOR | BC_IN | BC_INSTANCEOF | BC_NEG | BC_POS
  | BC_NOT | BC_BIT_NOT | BC_TYPEOF | BC_VOID | BC_JUMP | BC_JUMP_IF_FALSE
  | BC_JUMP_IF_TRUE | BC_JUMP_IF_FALSE_KEEP | BC_JUMP_IF_TRUE_KEEP
  | BC_JUMP_IF_NOT_NULLISH | BC_JUMP_IF_LOCAL_LT_IMM | BC_LOOP_TICK | BC_CALL
  | BC_CALL_METHOD | BC_CALL_ELEM | BC_NEW | BC_RETURN | BC_NEW_OBJECT
  | BC_NEW_ARRAY | BC_DEF_PROP | BC_DEF_ELEM | BC_GET_PROP | BC_LOAD_PROP
  | BC_LOAD_PROP_ADD | BC_SET_PROP | BC_GET_ELEM | BC_SET_ELEM | BC_DELETE_PROP
  | BC_DELETE_ELEM | BC_ITER_INIT | BC_ITER_NEXT | BC_ITER_CLOSE | BC_SCOPE_ENTER
  | BC_SCOPE_LEAVE | BC_EVAL_NODE | BC_EVAL_NODE_POP | BC_SET_RESULT
  | BC_CLEAR_RESULT | BC_THROW | BC_TO_STRING | BC_TO_NUMBER | BC_TO_BOOL.

Definition op_byte (op : BCOpcode) : Z :=
  match op with
  | BC_STOP => 0 | BC_NOP => 1 | BC_PUSH_UNDEFINED => 2 | BC_PUSH_NULL => 3
  | BC_PUSH_TRUE => 4 | BC_PUSH_FALSE => 5 | BC_PUSH_THIS => 6 | BC_PUSH_INT32 => 7
  | BC_PUSH_FLOAT64 => 8 | BC_PUSH_STRING => 9 | BC_POP => 10 | BC_DUP => 11
  | BC_DUP2 => 12 | BC_SWAP => 13 | BC_ROT3 => 14 | BC_LOAD_VAR => 15
  | BC_STORE_VAR => 16 | BC_LOAD_LOCAL => 17 | BC_STORE_LOCAL => 18
  | BC_INC_LOCAL => 19 | BC_INC_LOCAL_DISCARD => 20 | BC_INC_VAR => 21
  | BC_DECLARE_VAR => 22 | BC_TYPEOF_VAR => 23 | BC_ADD_SELF => 24
  | BC_MUL_SELF => 25 | BC_ADD => 26 | BC_SUB => 27 | BC_MUL => 28 | BC_DIV => 29
  | BC_MOD => 30 | BC_POW => 31 | BC_LT => 32 | BC_GT => 33 | BC_LE => 34
  | BC_GE => 35 | BC_EQ => 36 | BC_NE => 37 | BC_STRICT_EQ => 38
  | BC_STRICT_NE => 39 | BC_SHL => 40 | BC_SHR => 41 | BC_SAR => 42
  | BC_BIT_AND => 43 | BC_BIT_OR => 44 | BC_BIT_XOR => 45 | BC_IN => 46
  | BC_INSTANCEOF => 47 | BC_NEG => 48 | BC_POS => 49 | BC_NOT => 50
  | BC_BIT_NOT => 51 | BC_TYPEOF => 52 | BC_VOID => 53 | BC_JUMP => 54
  | BC_JUMP_IF_FALSE => 55 | BC_JUMP_IF_TRUE => 56 | BC_JUMP_IF_FALSE_KEEP => 57
  | BC_JUMP_IF_TRUE_KEEP => 58 | BC_JUMP_IF_NOT_NULLISH => 59
  | BC_JUMP_IF_LOCAL_LT_IMM => 60 | BC_LOOP_TICK => 61 | BC_CALL => 62
  | BC_CALL_METHOD => 63 | BC_CALL_ELEM => 64 | BC_NEW => 65 | BC_RETURN => 66
  | BC_NEW_OBJECT => 67 | BC_NEW_ARRAY => 68 | BC_DEF_PROP => 69
  | BC_DEF_ELEM => 70 | BC_GET_PROP => 71 | BC_LOAD_PROP => 72
  | BC_LOAD_PROP_ADD => 73 | BC_SET_PROP => 74 | BC_GET_ELEM => 75
  | BC_SET_ELEM => 76 | BC_DELETE_PROP => 77 | BC_DELETE_ELEM => 78
  | BC_ITER_INIT => 79 | BC_ITER_NEXT => 80 | BC_ITER_CLOSE => 81
  | BC_SCOPE_ENTER => 82 | BC_SCOPE_LEAVE => 83 | BC_EVAL_NODE => 84
  | BC_EVAL_NODE_POP => 85 | BC_SET_RESULT => 86 | BC_CLEAR_RESULT => 87
  | BC_THROW => 88 | BC_TO_STRING => 89 | BC_TO_NUMBER => 90 | BC_TO_BOOL => 91
  end.

Definition all_opcodes : list BCOpcode :=
  [BC_STOP; BC_NOP; BC_PUSH_UNDEFINED; BC_PUSH_NULL; BC_PUSH_TRUE; BC_PUSH_FALSE;
   BC_PUSH_THIS; BC_PUSH_INT32; BC_PUSH_FLOAT64; BC_PUSH_STRING; BC_POP; BC_DUP;
   BC_DUP2; BC_SWAP; BC_ROT3; BC_LOAD_VAR; BC_STORE_VAR; BC_LOAD_LOCAL;
   BC_STORE_LOCAL; BC_INC_LOCAL; BC_INC_LOCAL_DISCARD; BC_INC_VAR; BC_DECLARE_VAR;
   BC_TYPEOF_VAR; BC_ADD_SELF; BC_MUL_SELF; BC_ADD; BC_SUB; BC_MUL; BC_DIV; BC_MOD;
   BC_POW; BC_LT; BC_GT; BC_LE; BC_GE; BC_EQ; BC_NE; BC_STRICT_EQ; BC_STRICT_NE;
   BC_SHL; BC_SHR; BC_SAR; BC_BIT_AND; BC_BIT_OR; BC_BIT_XOR; BC_IN; BC_INSTANCEOF;
   BC_NEG; BC_POS; BC_NOT; BC_BIT_NOT; BC_TYPEOF; BC_VOID; BC_JUMP;
   BC_JUMP_IF_FALSE; BC_JUMP_IF_TRUE; BC_JUMP_IF_FALSE_KEEP; BC_JUMP_IF_TRUE_KEEP;
   BC_JUMP_IF_NOT_NULLISH; BC_JUMP_IF_LOCAL_LT_IMM; BC_LOOP_TICK; BC_CALL;
   BC_CALL_METHOD; BC_CALL_ELEM; BC_NEW; BC_RETURN; BC_NEW_OBJECT; BC_NEW_ARRAY;
   BC_DEF_PROP; BC_DEF_ELEM; BC_GET_PROP; BC_LOAD_PROP; BC_LOAD_PROP_ADD;
   BC_SET_PROP; BC_GET_ELEM; BC_SET_ELEM; BC_DELETE_PROP; BC_DELETE_ELEM;
   BC_ITER_INIT; BC_ITER_NEXT; BC_ITER_CLOSE; BC_SCOPE_ENTER; BC_SCOPE_LEAVE;
   BC_EVAL_NODE; BC_EVAL_NODE_POP; BC_SET_RESULT; BC_CLEAR_RESULT; BC_THROW;
   BC_TO_STRING; BC_TO_NUMBER; BC_TO_BOOL].

Definition bc_info_operands (op : BCOpcode) : Z :=
  match op with
  | BC_PUSH_FLOAT64 | BC_PUSH_STRING | BC_LOAD_VAR | BC_STORE_VAR | BC_LOAD_LOCAL
  | BC_STORE_LOCAL | BC_INC_LOCAL | BC_INC_LOCAL_DISCARD | BC_INC_VAR
  | BC_TYPEOF_VAR | BC_ADD_SELF | BC_MUL_SELF | BC_CALL | BC_CALL_ELEM | BC_NEW
  | BC_NEW_ARRAY | BC_DEF_PROP | BC_GET_PROP | BC_SET_PROP | BC_DELETE_PROP
  | BC_EVAL_NODE | BC_EVAL_NODE_POP => 1
  | BC_PUSH_INT32 | BC_JUMP | BC_JUMP_IF_FALSE | BC_JUMP_IF_TRUE
  | BC_JUMP_IF_FALSE_KEEP | BC_JUMP_IF_TRUE_KEEP | BC_JUMP_IF_NOT_NULLISH
  | BC_ITER_NEXT => 2
  | BC_CALL_METHOD | BC_LOAD_PROP => 3
  | BC_DECLARE_VAR => 4
  | BC_JUMP_IF_LOCAL_LT_IMM => 5
  | _ => 0
  end.

Definition bc_info_name (op : BCOpcode) : string :=
  match op with
  | BC_STOP => "STOP" | BC_NOP => "NOP" | BC_PUSH_UNDEFINED => "PUSH_UNDEFINED"
  | BC_PUSH_NULL => "PUSH_NULL" | BC_PUSH_TRUE => "PUSH_TRUE"
  | BC_PUSH_FALSE => "PUSH_FALSE" | BC_PUSH_THIS => "PUSH_THIS"
  | BC_PUSH_INT32 => "PUSH_INT32" | BC_PUSH_FLOAT64 => "PUSH_FLOAT64"
  | BC_PUSH_STRING => "PUSH_STRING" | BC_POP => "POP" | BC_DUP => "DUP"
  | BC_DUP2 => "DUP2" | BC_SWAP => "SWAP" | BC_ROT3 => "ROT3"
  | BC_LOAD_VAR => "LOAD_VAR" | BC_STORE_VAR => "STORE_VAR"
  | BC_LOAD_LOCAL => "LOAD_LOCAL" | BC_STORE_LOCAL => "STORE_LOCAL"
  | BC_INC_LOCAL => "INC_LOCAL" | BC_INC_LOCAL_DISCARD => "INC_LOCAL_DISCARD"
  | BC_INC_VAR => "INC_VAR" | BC_DECLARE_VAR => "DECLARE_VAR"
  | BC_TYPEOF_VAR => "TYPEOF_VAR" | BC_ADD_SELF => "ADD_SELF"
  | BC_MUL_SELF => "MUL_SELF" | BC_ADD => "ADD" | BC_SUB => "SUB" | BC_MUL => "MUL"
  | BC_DIV => "DIV" | BC_MOD => "MOD" | BC_POW => "POW" | BC_LT => "LT"
  | BC_GT => "GT" | BC_LE => "LE" | BC_GE => "GE" | BC_EQ => "EQ" | BC_NE => "NE"
  | BC_STRICT_EQ => "STRICT_EQ" | BC_STRICT_NE => "STRICT_NE" | BC_SHL => "SHL"
  | BC_SHR => "SHR" | BC_SAR => "SAR" | BC_BIT_AND => "BIT_AND"
  | BC_BIT_OR => "BIT_OR" | BC_BIT_XOR => "BIT_XOR" | BC_IN => "IN"
  | BC_INSTANCEOF => "INSTANCEOF" | BC_NEG => "NEG" | BC_POS => "POS"
  | BC_NOT => "NOT" | BC_BIT_NOT => "BIT_NOT" | BC_TYPEOF => "TYPEOF"
  | BC_VOID => "VOID" | BC_JUMP => "JUMP" | BC_JUMP_IF_FALSE => "JUMP_IF_FALSE"
  | BC_JUMP_IF_TRUE => "JUMP_IF_TRUE"
  | BC_JUMP_IF_FALSE_KEEP => "JUMP_IF_FALSE_KEEP"
  | BC_JUMP_IF_TRUE_KEEP => "JUMP_IF_TRUE_KEEP"
  | BC_JUMP_IF_NOT_NULLISH => "JUMP_IF_NOT_NULLISH"
  | BC_JUMP_IF_LOCAL_LT_IMM => "JUMP_IF_LOCAL_LT_IMM" | BC_LOOP_TICK => "LOOP_TICK"
  | BC_CALL => "CALL" | BC_CALL_METHOD => "CALL_METHOD"
  | BC_CALL_ELEM => "CALL_ELEM" | BC_NEW => "NEW" | BC_RETURN => "RETURN"
  | BC_NEW_OBJECT => "NEW_OBJECT" | BC_NEW_ARRAY => "NEW_ARRAY"
  | BC_DEF_PROP => "DEF_PROP" | BC_DEF_ELEM => "DEF_ELEM"
  | BC_GET_PROP => "GET_PROP" | BC_LOAD_PROP => "LOAD_PROP"
  | BC_LOAD_PROP_ADD => "?" | BC_SET_PROP => "SET_PROP" | BC_GET_ELEM => "GET_ELEM"
  | BC_SET_ELEM => "SET_ELEM" | BC_DELETE_PROP => "DELETE_PROP"
  | BC_DELETE_ELEM => "DELETE_ELEM" | BC_ITER_INIT => "ITER_INIT"
  | BC_ITER_NEXT => "ITER_NEXT" | BC_ITER_CLOSE => "ITER_CLOSE"
  | BC_SCOPE_ENTER => "SCOPE_ENTER" | BC_SCOPE_LEAVE => "SCOPE_LEAVE"
  | BC_EVAL_NODE => "EVAL_NODE" | BC_EVAL_NODE_POP => "EVAL_NODE_POP"
  | BC_SET_RESULT => "SET_RESULT" | BC_CLEAR_RESULT => "CLEAR_RESULT"
  | BC_THROW => "THROW" | BC_TO_STRING => "TO_STRING" | BC_TO_NUMBER => "TO_NUMBER"
  | BC_TO_BOOL => "TO_BOOL"
  end%string.

(** The [switch] on a raw byte: an opcode, or [default]. *)
Definition op_of_byte (b : Z) : option BCOpcode :=
  if b <? 0 then None else all_opcodes !! Z.to_nat b.

Lemma op_of_op_byte op : op_of_byte (op_byte op) = Some op.
Proof. by destruct op. Qed.

Lemma op_byte_range op : byte (op_byte op).
Proof. by destruct op. Qed.

Lemma op_byte_inj op1 op2 : op_byte op1 = op_byte op2 -> op1 = op2.
Proof.
  intros E. assert (Some op1 = Some op2) as H; [|by simplify_eq].
  by rewrite <- !op_of_op_byte, E.
Qed.

#[export] Hint Resolve op_byte_range : lr.
#[export] Instance BCOpcode_eq_dec : EqDecision BCOpcode.
Proof. solve_decision. Defined.

(** [bc_info(op).operands] on a raw byte. *)
Definition bc_operands_of_byte (b : Z) : Z :=
  match op_of_byte b with Some op => bc_info_operands op | None => 0 end.

Definition operands_total_len (operands : Z) : Z :=
  if operands =? 0 then 1 else if operands =? 1 then 3
  else if operands =? 2 then 5 else if operands =? 3 then 5
  else if operands =? 4 then 4 else if operands =? 5 then 11 else 1.

Definition bc_op_total_len (b : Z) : Z := operands_total_len (bc_operands_of_byte b).

(** ** Programs *)

Inductive BCConst :=
  | PoolInt32 (i : Z)
  | PoolFloat64 (bits : Z)
  | PoolString (str : list Z) (str_hash : Z)
  | PoolNode (node : Z)
  | PoolOther (kind : Z).    (* a kind byte outside the enum, read from an image *)

Record BCProgram := {
  p_code : list Z;
  p_code_cap : Z;
  p_pool : list BCConst;
  p_pool_cap : Z;
  p_max_stack : Z;
  p_node_refs : Z;
  p_compiled : Z;
  p_prog_id : Z;
  p_ref_count : Z
}.

(** [strlen] *)
Fixpoint strlen (s : list Z) : nat :=
  match s with
  | [] => O
  | b :: s' => if b =? 0 then O else S (strlen s')
  end.

Definition cstr (s : list Z) : list Z := take (strlen s) s.

(** [bc_new_program]: a zeroed program with the next id of the thread's
    counter; id 0 is skipped on wrap-around.  Returns the new counter. *)
Definition bc_new_program (calloc_ok : alloc_result) (counter : Z) : option (BCProgram * Z) :=
  if negb calloc_ok then None
  else
    let c1 := u32 (counter + 1) in
    let c2 := if c1 =? 0 then u32 (c1 + 1) else c1 in
    Some ({| p_code := []; p_code_cap := 0; p_pool := []; p_pool_cap := 0;
             p_max_stack := 0; p_node_refs := 0; p_compiled := 0;
             p_prog_id := c2; p_ref_count := 1 |}, c2).

Definition bc_retain_program (p : BCProgram) : BCProgram :=
  {| p_code := p_code p; p_code_cap := p_code_cap p; p_pool := p_pool p;
     p_pool_cap := p_pool_cap p; p_max_stack := p_max_stack p;
     p_node_refs := p_node_refs p; p_compiled := p_compiled p;
     p_prog_id := p_prog_id p; p_ref_count := u32 (p_ref_count p + 1) |}.

(** [bc_free_program] releases one reference: the program that is left, or
    [None] when its memory was freed. *)
Definition bc_free_program (p : BCProgram) : option BCProgram :=
  if p_ref_count p >? 1 then
    Some {| p_code := p_code p; p_code_cap := p_code_cap p; p_pool := p_pool p;
            p_pool_cap := p_pool_cap p; p_max_stack := p_max_stack p;
            p_node_refs := p_node_refs p; p_compiled := p_compiled p;
            p_prog_id := p_prog_id p; p_ref_count := p_ref_count p - 1 |}
  else None.

Definition bc_program_is_restorable (p : BCProgram) : bool := p_node_refs p =? 0.

(** ** Serialization *)

Definition BC_SER_MAGIC : list Z := [76; 82; 66; 67].   (* "LRBC" *)
Definition BC_SER_VERSION : Z := 2.
Definition BC_SER_FLAG_NODE_REFS : Z := 1.

Definition put_u32 (v : Z) : list Z :=
  [u8 (Z.land v 255); u8 (Z.land (Z.shiftr v 8) 255);
   u8 (Z.land (Z.shiftr v 16) 255); u8 (Z.land (Z.shiftr v 24) 255)].

Definition get_u32 (b : list Z) : Z :=
  Z.lor (Z.lor (Z.lor (at_ b 0) (Z.shiftl (at_ b 1) 8)) (Z.shiftl (at_ b 2) 16))
        (Z.shiftl (at_ b 3) 24).

(** The [total] the image buffer is allocated with. *)
Definition const_size (k : BCConst) : Z :=
  1 + match k with
      | PoolInt32 _ => 4
      | PoolFloat64 _ => 8
      | PoolString s _ => 4 + Z.of_nat (strlen s) + 1
      | PoolNode _ | PoolOther _ => 0
      end.

Definition serialize_total (p : BCProgram) : Z :=
  4 + 4 + 4 + 4 + 4 + zlen (p_code p) + foldr (fun k n => const_size k + n) 0 (p_pool p).

Definition serialize_const (k : BCConst) : list Z :=
  match k with
  | PoolInt32 i => 0 :: put_u32 (u32 i)
  | PoolFloat64 bits => 1 :: le_bytes 8 bits
  | PoolString s _ => 2 :: put_u32 (u32 (Z.of_nat (strlen s))) ++ cstr s ++ [0]
  | PoolNode _ => [3]
  | PoolOther kind => [u8 kind]
  end.

(** [None]: NULL, for a program without code or a failed allocation. *)
Definition bc_serialize (malloc_ok : Z -> alloc_result) (p : BCProgram) : option (list Z) :=
  if p_code_cap p =? 0 then None          (* code == NULL *)
  else if negb (malloc_ok (serialize_total p)) then None
  else Some (BC_SER_MAGIC ++ put_u32 BC_SER_VERSION
             ++ put_u32 (if p_node_refs p =? 0 then 0 else BC_SER_FLAG_NODE_REFS)
             ++ put_u32 (u32 (zlen (p_code p))) ++ put_u32 (u32 (zlen (p_pool p)))
             ++ p_code p ++ concat (map serialize_const (p_pool p))).

(** What reading an image comes to: a value; NULL; or undefined behaviour, the
    overflow of an [int32_t] or a write behind the end of a block. *)
Inductive image_result (A : Type) :=
  | Got (a : A)
  | Refused
  | Broken.
Arguments Got {A} a.
Arguments Refused {A}.
Arguments Broken {A}.

(** One pool entry of an image; [rest] is the data from [pos] on.  The size of a
    string's block is a [uint32_t]. *)
Definition deserialize_const (malloc_ok : Z -> alloc_result) (rest : list Z)
    : image_result (BCConst * list Z) :=
  match rest with
  | [] => Refused                                        (* pos >= len *)
  | kind :: rest1 =>
      if kind =? 0 then
        if zlen rest1 <? 4 then Refused
        else Got (PoolInt32 (i32 (get_u32 rest1)), drop 4 rest1)
      else if kind =? 1 then
        if zlen rest1 <? 8 then Refused
        else Got (PoolFloat64 (le_val (take 8 rest1)), drop 8 rest1)
      else if kind =? 2 then
        if zlen rest1 <? 4 then Refused
        else
          let sl := get_u32 rest1 in
          let rest2 := drop 4 rest1 in
          let size := u32 (sl + 1) in
          if zlen rest2 <? sl + 1 then Refused
          else if negb (malloc_ok size) then Refused
          else if size <=? sl then Broken                (* str[sl] = 0 *)
          else Got (PoolString (take (Z.to_nat sl) rest2) 0,
                    drop (Z.to_nat size) rest2)
      else if kind =? 3 then Refused
      else Got (PoolOther kind, rest1)
  end.

(** [n] entries, in a block with room for [cap]. *)
Fixpoint deserialize_pool (malloc_ok : Z -> alloc_result) (n : nat) (cap : Z) (rest : list Z)
    : image_result (list BCConst * list Z) :=
  match n with
  | O => Got ([], rest)
  | S n' =>
      if negb (zlen rest =? 0) && (cap <=? 0) then Broken
      else match deserialize_const malloc_ok rest with
      | Got (k, rest1) =>
          match deserialize_pool malloc_ok n' (cap - 1) rest1 with
          | Got (ks, rest2) => Got (k :: ks, rest2)
          | r => r
          end
      | Refused => Refused
      | Broken => Broken
      end
  end.

(** [bc_deserialize]; [counter] is the thread's program-id counter.  The pool is
    allocated by its element count. *)
Definition bc_deserialize (malloc_ok : Z -> alloc_result) (calloc_ok : alloc_result)
    (counter : Z) (data : list Z) : image_result BCProgram :=
  if (zlen data <? 20) || negb (bool_decide (take 4 data = BC_SER_MAGIC)) then Refused
  else if negb (get_u32 (drop 4 data) =? BC_SER_VERSION) then Refused
  else if negb (Z.land (get_u32 (drop 8 data)) BC_SER_FLAG_NODE_REFS =? 0) then Refused
  else
    let code_len := get_u32 (drop 12 data) in
    let pool_count := get_u32 (drop 16 data) in
    if 20 + code_len >? zlen data then Refused
    else match bc_new_program calloc_ok counter with
    | None => Refused
    | Some (p, _) =>
        let code_cap := i32 code_len + 16 in
        let pool_cap := i32 pool_count + 8 in
        if 2 ^ 31 <=? code_cap then Broken
        else if negb (malloc_ok (u64 code_cap)) then Refused
        else if u64 code_cap <? code_len then Broken       (* memcpy *)
        else if 2 ^ 31 <=? pool_cap then Broken
        else if negb (malloc_ok (u64 pool_cap)) then Refused
        else match deserialize_pool malloc_ok (Z.to_nat pool_count) (u64 pool_cap)
                     (drop (Z.to_nat (20 + code_len)) data) with
        | Got (pool, _) =>
            Got {| p_code := slice 20 code_len data;
                   p_code_cap := code_cap;
                   p_pool := pool;
                   p_pool_cap := pool_cap;
                   p_max_stack := 64; p_node_refs := p_node_refs p;
                   p_compiled := 1; p_prog_id := p_prog_id p;
                   p_ref_count := p_ref_count p |}
        | Refused => Refused
        | Broken => Broken
        end
    end.

(** ** Fields *)

Lemma put_u32_le v : put_u32 v = le_bytes 4 v.
Proof.
  unfold put_u32. cbn [le_bytes].
  rewrite !Z.shiftr_shiftr by lia. cbn [Z.add Pos.add Pos.succ Pos.add_carry].
  unfold u8. change 255 with (Z.ones 8). rewrite !Z.land_ones by lia.
  by rewrite !Z.mod_mod by lia.
Qed.

Lemma get_u32_4 a b c d rest :
  byte a -> byte b -> byte c ->
  get_u32 (a :: b :: c :: d :: rest) = le_val [a; b; c; d].
Proof.
  unfold byte. intros. unfold get_u32.
  change (at_ (a :: b :: c :: d :: rest) 0) with a.
  change (at_ (a :: b :: c :: d :: rest) 1) with b.
  change (at_ (a :: b :: c :: d :: rest) 2) with c.
  change (at_ (a :: b :: c :: d :: rest) 3) with d.
  rewrite (lor_shiftl_add 8 a), (lor_shiftl_add 16), (lor_shiftl_add 24) by lia.
  cbn [le_val]. lia.
Qed.

Lemma get_put_u32 v rest : get_u32 (put_u32 v ++ rest) = u32 v.
Proof.
  rewrite put_u32_le. cbn [le_bytes app]. rewrite get_u32_4 by auto with lr.
  change [u8 v; u8 (Z.shiftr v 8); u8 (Z.shiftr (Z.shiftr v 8) 8);
          u8 (Z.shiftr (Z.shiftr (Z.shiftr v 8) 8) 8)] with (le_bytes 4 v).
  by rewrite le_val_bytes.
Qed.

Lemma get_u32_range l : bytes l -> 4 <= zlen l -> 0 <= get_u32 l < 2 ^ 32.
Proof.
  intros Hl Hn. destruct l as [|a [|b [|c [|d l]]]]; try (unfold zlen in Hn; cbn in Hn; lia).
  decompose_Forall. rewrite get_u32_4 by done.
  pose proof (le_val_range [a; b; c; d]) as Hr. apply Hr. by repeat (apply Forall_cons_2 || apply Forall_nil_2).
Qed.

Lemma length_put_u32 v : length (put_u32 v) = 4%nat.
Proof. done. Qed.

Lemma zlen_put_u32 v : zlen (put_u32 v) = 4.
Proof. done. Qed.

#[export] Hint Rewrite zlen_put_u32 : lr_len.

Lemma drop_put_u32 v rest : drop 4 (put_u32 v ++ rest) = rest.
Proof. done. Qed.

Lemma strlen_le s : (strlen s <= length s)%nat.
Proof. induction s as [|b s IH]; cbn; [lia|]. case_if; lia. Qed.

Lemma cstr_nonzero s : Forall (fun c => c <> 0) s -> cstr s = s.
Proof.
  unfold cstr. induction 1 as [|c s Hc _ IH]; [done|]. cbn [strlen].
  destruct (Z.eqb_spec c 0); [done|]. cbn [take]. by rewrite IH.
Qed.

Lemma zlen_cstr s : zlen (cstr s) = Z.of_nat (strlen s).
Proof. unfold zlen, cstr. rewrite length_take. pose proof (strlen_le s). lia. Qed.

#[export] Hint Rewrite zlen_cstr : lr_len.

(** ** Round trip of the pool *)

(** What survives an image: strings come back as their C string, without the
    hash [pool_add_str] had precomputed. *)
Definition restored_const (k : BCConst) : BCConst :=
  match k with
  | PoolString s _ => PoolString (cstr s) 0
  | _ => k
  end.

(** A constant the image format can represent. *)
Definition const_ok (k : BCConst) : Prop :=
  match k with
  | PoolInt32 i => - 2 ^ 31 <= i < 2 ^ 31
  | PoolFloat64 bits => 0 <= bits < 2 ^ 64
  | PoolString s _ => Z.of_nat (strlen s) < 2 ^ 32 - 1
  | PoolNode _ | PoolOther _ => False
  end.

Lemma deserialize_const_serialize malloc_ok k rest :
  const_ok k -> (forall n, malloc_ok n = true) ->
  deserialize_const malloc_ok (serialize_const k ++ rest) = Got (restored_const k, rest).
Proof.
  intros Hk Hm. destruct k as [i|bits|s h|node|kind]; cbn [const_ok] in Hk; try done;
    cbn [serialize_const app deserialize_const Z.eqb Pos.eqb].
  - rewrite zlen_app, zlen_put_u32. pose proof (zlen_nonneg rest).
    destruct (Z.ltb_spec (4 + zlen rest) 4); [lia|].
    rewrite get_put_u32, drop_put_u32. cbn [restored_const]. do 3 f_equal.
    rewrite i32_u32, i32_u32. by apply i32_small.
  - rewrite zlen_app, zlen_le_bytes. pose proof (zlen_nonneg rest).
    destruct (Z.ltb_spec (Z.of_nat 8 + zlen rest) 8); [lia|].
    rewrite take_app_length', drop_app_length' by (symmetry; apply length_le_bytes).
    rewrite le_val_bytes. change (256 ^ Z.of_nat 8) with (2 ^ 64).
    by rewrite Z.mod_small by lia.
  - rewrite <- app_assoc, zlen_app, zlen_put_u32.
    assert (zlen ((cstr s ++ [0]) ++ rest) = Z.of_nat (strlen s) + 1 + zlen rest) as Ez.
    { rewrite !zlen_app, zlen_cstr. done. }
    pose proof (zlen_nonneg rest).
    destruct (Z.ltb_spec (4 + zlen ((cstr s ++ [0]) ++ rest)) 4); [lia|].
    rewrite get_put_u32, drop_put_u32, !(u32_small (Z.of_nat _)), Ez by lia. cbv zeta.
    rewrite Hm, !(u32_small (_ + 1)) by lia.
    destruct (Z.ltb_spec (Z.of_nat (strlen s) + 1 + zlen rest) (Z.of_nat (strlen s) + 1));
      [lia|]. cbn [negb restored_const].
    destruct (Z.leb_spec (Z.of_nat (strlen s) + 1) (Z.of_nat (strlen s))); [lia|].
    assert (length (cstr s) = strlen s) as El.
    { pose proof (zlen_cstr s) as E. unfold zlen in E. lia. }
    rewrite <- app_assoc, Nat2Z.id, take_app_length' by done.
    rewrite app_assoc, drop_app_length' by (rewrite length_app; cbn; lia). done.
Qed.

Lemma deserialize_pool_serialize malloc_ok ks cap rest :
  Forall const_ok ks -> (forall n, malloc_ok n = true) -> zlen ks <= cap ->
  deserialize_pool malloc_ok (length ks) cap (concat (map serialize_const ks) ++ rest)
    = Got (map restored_const ks, rest).
Proof.
  intros Hks Hm. revert cap rest. induction Hks as [|k ks Hk Hks IH]; intros cap rest Hc; [done|].
  rewrite zlen_cons in Hc. pose proof (zlen_nonneg ks).
  cbn [length deserialize_pool map concat]. rewrite <- app_assoc.
  destruct (Z.leb_spec cap 0); [lia|]. rewrite andb_false_r.
  by rewrite deserialize_const_serialize, IH by (done || lia).
Qed.

(** A program the compiler can hand to [bc_serialize] for restoring. *)
Record program_ok (p : BCProgram) : Prop := {
  po_cap : p_code_cap p <> 0;
  po_code : zlen (p_code p) + 16 < 2 ^ 31;
  po_pool_len : zlen (p_pool p) + 8 < 2 ^ 31;
  po_pool : Forall const_ok (p_pool p);
  po_nodes : p_node_refs p = 0
}.

Definition image_header (p : BCProgram) : list Z :=
  BC_SER_MAGIC ++ put_u32 BC_SER_VERSION
  ++ put_u32 (if p_node_refs p =? 0 then 0 else BC_SER_FLAG_NODE_REFS)
  ++ put_u32 (u32 (zlen (p_code p))) ++ put_u32 (u32 (zlen (p_pool p))).

Lemma bc_serialize_image malloc_ok p :
  p_code_cap p <> 0 -> (forall n, malloc_ok n = true) ->
  bc_serialize malloc_ok p =
    Some (image_header p ++ p_code p ++ concat (map serialize_const (p_pool p))).
Proof.
  intros Hc Hm. unfold bc_serialize. rewrite Hm.
  destruct (Z.eqb_spec (p_code_cap p) 0); [done|]. cbn [negb].
  unfold image_header. by rewrite <- !app_assoc.
Qed.

(** Reading the header of an image back. *)
Lemma header_fields p body :
  let data := image_header p ++ body in
  take 4 data = BC_SER_MAGIC /\ get_u32 (drop 4 data) = BC_SER_VERSION /\
  get_u32 (drop 8 data) = (if p_node_refs p =? 0 then 0 else BC_SER_FLAG_NODE_REFS) /\
  get_u32 (drop 12 data) = u32 (zlen (p_code p)) /\
  get_u32 (drop 16 data) = u32 (zlen (p_pool p)) /\ drop 20 data = body.
Proof.
  unfold image_header. cbv zeta. rewrite <- !app_assoc.
  split_and!; [done| | | | |done].
  - change (drop 4 (BC_SER_MAGIC ++ ?l)) with l. by rewrite get_put_u32.
  - change (drop 8 (BC_SER_MAGIC ++ put_u32 ?v ++ ?l)) with l. rewrite get_put_u32.
    by case_if.
  - change (drop 12 (BC_SER_MAGIC ++ put_u32 ?v ++ put_u32 ?w ++ ?l)) with l.
    rewrite get_put_u32. apply u32_small, u32_range.
  - change (drop 16 (BC_SER_MAGIC ++ put_u32 ?v ++ put_u32 ?w ++ put_u32 ?x ++ ?l)) with l.
    rewrite get_put_u32. apply u32_small, u32_range.
Qed.

Lemma zlen_image_header p : zlen (image_header p) = 20.
Proof. done. Qed.

#[export] Hint Rewrite zlen_image_header : lr_len.

(** The whole of [bc_deserialize] on a header followed by [body]. *)
Lemma bc_deserialize_header malloc_ok counter p body :
  program_ok p -> (forall n, malloc_ok n = true) ->
  bc_deserialize malloc_ok true counter (image_header p ++ body) =
    if zlen (p_code p) >? zlen body then Refused
    else match deserialize_pool malloc_ok (length (p_pool p)) (zlen (p_pool p) + 8)
                 (drop (length (p_code p)) body) with
         | Refused => Refused
         | Broken => Broken
         | Got (pool, _) =>
             Got {| p_code := take (length (p_code p)) body;
                     p_code_cap := zlen (p_code p) + 16;
                     p_pool := pool; p_pool_cap := zlen (p_pool p) + 8;
                     p_max_stack := 64; p_node_refs := 0; p_compiled := 1;
                     p_prog_id := (let c1 := u32 (counter + 1) in
                                   if c1 =? 0 then u32 (c1 + 1) else c1);
                     p_ref_count := 1 |}
         end.
Proof.
  intros [Hcap Hcode Hpl Hpool Hn] Hm. unfold bc_deserialize.
  destruct (header_fields p body) as (-> & -> & -> & -> & -> & Eb).
  rewrite zlen_app, zlen_image_header, Hn. pose proof (zlen_nonneg body).
  pose proof (zlen_nonneg (p_code p)). pose proof (zlen_nonneg (p_pool p)).
  destruct (Z.ltb_spec (20 + zlen body) 20); [lia|].
  rewrite bool_decide_true by done. cbn [negb orb Z.eqb Z.land BC_SER_VERSION Pos.eqb].
  rewrite !u32_small, !i32_small by lia.
  replace (20 + zlen (p_code p) >? 20 + zlen body) with (zlen (p_code p) >? zlen body)
    by (destruct (Z.gtb_spec (zlen (p_code p)) (zlen body)),
          (Z.gtb_spec (20 + zlen (p_code p)) (20 + zlen body)); lia).
  case_if; [done|]. cbn [bc_new_program negb]. cbv zeta. rewrite !Hm. cbn [negb].
  rewrite !u64_small by lia.
  destruct (Z.leb_spec (2 ^ 31) (zlen (p_code p) + 16)); [lia|].
  destruct (Z.leb_spec (2 ^ 31) (zlen (p_pool p) + 8)); [lia|].
  destruct (Z.ltb_spec (zlen (p_code p) + 16) (zlen (p_code p))); [lia|]. unfold slice.
  change (Z.to_nat 20) with 20%nat. rewrite Eb.
  replace (Z.to_nat (20 + zlen (p_code p))) with (20 + length (p_code p))%nat
    by (unfold zlen; lia).
  rewrite <- drop_drop, Eb. unfold zlen. by rewrite !Nat2Z.id.
Qed.

(** ** Truncated images *)

Lemma serialize_const_cons k : const_ok k -> exists b l, serialize_const k = b :: l.
Proof. destruct k; cbn; try done; eauto. Qed.

Lemma deserialize_const_truncated malloc_ok k j :
  const_ok k -> (j < length (serialize_const k))%nat ->
  deserialize_const malloc_ok (take j (serialize_const k)) = Refused.
Proof.
  intros Hk Hj. destruct j as [|j]; [done|].
  destruct k as [i|bits|s h|node|kind]; cbn [const_ok] in Hk; try done;
    cbn [serialize_const take deserialize_const Z.eqb Pos.eqb length] in *.
  - destruct (Z.ltb_spec (zlen (take j (put_u32 (u32 i)))) 4) as [|H]; [done|].
    unfold zlen in H. rewrite length_take in H. cbn [put_u32 length] in *. lia.
  - rewrite length_le_bytes in Hj.
    destruct (Z.ltb_spec (zlen (take j (le_bytes 8 bits))) 8) as [|H]; [done|].
    unfold zlen in H. rewrite length_take, length_le_bytes in H. lia.
  - set (sl := strlen s) in *.
    assert (length (cstr s) = sl) as El.
    { pose proof (zlen_cstr s) as E. unfold zlen in E. lia. }
    destruct (Z.ltb_spec (zlen (take j (put_u32 (u32 (Z.of_nat sl)) ++ cstr s ++ [0]))) 4)
      as [|H]; [done|].
    unfold zlen in H. rewrite length_take in H.
    rewrite !length_app, length_put_u32, El in *. cbn [length] in *.
    replace j with (length (put_u32 (u32 (Z.of_nat sl))) + (j - 4))%nat
      by (rewrite length_put_u32; lia).
    rewrite take_app_add, get_put_u32, drop_put_u32, !u32_small by (rewrite ?u32_small; lia).
    destruct (Z.ltb_spec (zlen (take (j - 4) (cstr s ++ [0]))) (Z.of_nat sl + 1))
      as [|H2]; [done|].
    unfold zlen in H2. rewrite length_take, length_app, El in H2. cbn [length] in H2. lia.
Qed.

Lemma deserialize_pool_truncated malloc_ok ks cap j :
  Forall const_ok ks -> (forall n, malloc_ok n = true) -> zlen ks <= cap ->
  (j < length (concat (map serialize_const ks)))%nat ->
  deserialize_pool malloc_ok (length ks) cap (take j (concat (map serialize_const ks)))
    = Refused.
Proof.
  intros Hks Hm. revert cap j.
  induction Hks as [|k ks Hk Hks IH]; intros cap j Hc Hj; [cbn in Hj; lia|].
  rewrite zlen_cons in Hc. pose proof (zlen_nonneg ks).
  cbn [length deserialize_pool map concat] in *. rewrite length_app in Hj.
  destruct (Z.leb_spec cap 0); [lia|]. rewrite andb_false_r.
  destruct (decide (j < length (serialize_const k))%nat) as [Hlt|].
  - rewrite take_app_le by lia. by rewrite deserialize_const_truncated.
  - replace j with (length (serialize_const k) + (j - length (serialize_const k)))%nat by lia.
    rewrite take_app_add, deserialize_const_serialize by done.
    by rewrite IH by lia.
Qed.

(** ** Properties *)

(** C16: bytecode image round trip.  A program without AST references that is
    serialized and read back, with memory available, has the same code and the
    same constants, up to the precomputed string hashes, which the image does not
    hold.  [program_ok] bounds the code and the pool so that their capacities are
    [int32_t]s, and a string so that its block's size is a [uint32_t]. *)
Theorem bc_serialize_roundtrip (p : BCProgram) (malloc_ok : Z -> alloc_result)
    (counter : Z) :
  program_ok p -> (forall n, malloc_ok n = true) ->
  exists img q,
    bc_serialize malloc_ok p = Some img /\
    bc_deserialize malloc_ok true counter img = Got q /\
    p_code q = p_code p /\ p_pool q = map restored_const (p_pool p) /\
    p_node_refs q = 0 /\ p_compiled q = 1.
Proof.
  intros Hp Hm. pose proof Hp as [Hcap _ _ Hpool _].
  rewrite bc_serialize_image by done. do 2 eexists. split; [done|].
  rewrite bc_deserialize_header, zlen_app by done.
  pose proof (zlen_nonneg (concat (map serialize_const (p_pool p)))).
  destruct (Z.gtb_spec (zlen (p_code p)) (zlen (p_code p)
    + zlen (concat (map serialize_const (p_pool p))))); [lia|].
  rewrite drop_app_length, take_app_length.
  rewrite <- (app_nil_r (concat (map serialize_const (p_pool p)))).
  rewrite deserialize_pool_serialize by (done || lia). by cbn.
Qed.

Definition sample_program : BCProgram :=
  {| p_code := [7; 42; 0; 0; 0; 9; 1; 0; 26; 66]; p_code_cap := 256;
     p_pool := [PoolFloat64 4607182418800017408; PoolString [104; 105] 3329];
     p_pool_cap := 32; p_max_stack := 8; p_node_refs := 0; p_compiled := 1;
     p_prog_id := 1; p_ref_count := 1 |}.

Lemma sample_program_ok : program_ok sample_program.
Proof.
  split; cbn; try done.
  repeat (apply Forall_cons_2 || apply Forall_nil_2); cbn; lia.
Qed.

Lemma bc_serialize_roundtrip_witness :
  program_ok sample_program /\
  exists img q,
    bc_serialize (fun _ => true) sample_program = Some img /\
    bc_deserialize (fun _ => true) true 6 img = Got q /\
    p_code q = p_code sample_program /\
    p_pool q = map restored_const (p_pool sample_program) /\
    p_node_refs q = 0 /\ p_compiled q = 1.
Proof.
  split; [exact sample_program_ok|].
  apply (bc_serialize_roundtrip sample_program (fun _ => true) 6);
    [exact sample_program_ok|done].
Defined.

(** C29: a truncated image is always rejected: with memory available,
    [bc_deserialize] returns NULL on every proper prefix of an image
    [bc_serialize] wrote for such a program, so a partially written archive entry
    is never executed. *)
Theorem bc_deserialize_truncated (p : BCProgram) (malloc_ok : Z -> alloc_result)
    (counter : Z) (img : list Z) (k : nat) :
  program_ok p -> (forall n, malloc_ok n = true) ->
  bc_serialize malloc_ok p = Some img -> (k < length img)%nat ->
  bc_deserialize malloc_ok true counter (take k img) = Refused.
Proof.
  intros Hp Hm. pose proof Hp as [Hcap _ _ Hpool _].
  rewrite bc_serialize_image by done. intros E Hk. apply (inj Some) in E as <-.
  destruct (decide (k < 20)%nat) as [Hlt|].
  { unfold bc_deserialize. set (data := take k _).
    assert (zlen data < 20) as Hd by (unfold data, zlen; rewrite length_take; lia).
    by destruct (Z.ltb_spec (zlen data) 20); [|lia]. }
  replace k with (length (image_header p) + (k - 20))%nat by (cbn; lia).
  rewrite take_app_add, bc_deserialize_header by done.
  rewrite length_app in Hk. change (length (image_header p)) with 20%nat in Hk.
  rewrite length_app in Hk.
  destruct (Z.gtb_spec (zlen (p_code p)) (zlen (take (k - 20) (p_code p ++
    concat (map serialize_const (p_pool p)))))) as [|Hle]; [done|].
  unfold zlen in Hle. rewrite length_take in Hle.
  replace (k - 20)%nat with (length (p_code p) + (k - 20 - length (p_code p)))%nat by lia.
  rewrite take_app_add, drop_app_length.
  by rewrite deserialize_pool_truncated by (done || lia).
Qed.

Lemma bc_deserialize_truncated_witness :
  exists img, program_ok sample_program /\
    bc_serialize (fun _ => true) sample_program = Some img /\ (33 < length img)%nat /\
    bc_deserialize (fun _ => true) true 6 (take 33 img) = Refused.
Proof.
  eexists. split; [exact sample_program_ok|]. split; [by vm_compute|].
  split; [by vm_compute; repeat constructor|].
  apply (bc_deserialize_truncated sample_program (fun _ => true) 6 _ 33);
    [exact sample_program_ok|done|by vm_compute|by vm_compute; repeat constructor].
Defined.

(** The bounds of [program_ok] are needed: the capacities are computed as
    [int32_t]s before anything is checked, and a string of [2 ^ 32 - 1] bytes gets
    a block of 0 bytes. *)
Lemma bc_deserialize_pool_overflow malloc_ok counter :
  malloc_ok 16 = true ->
  bc_deserialize malloc_ok true counter
    (BC_SER_MAGIC ++ put_u32 BC_SER_VERSION ++ put_u32 0 ++ put_u32 0 ++ put_u32 (2 ^ 31 - 1))
    = Broken.
Proof.
  intros Hm. unfold bc_deserialize. rewrite bool_decide_true by done.
  set (data := _ ++ _). change (zlen data <? 20) with false.
  change (get_u32 (drop 4 data)) with BC_SER_VERSION. change (get_u32 (drop 8 data)) with 0.
  change (get_u32 (drop 12 data)) with 0. change (get_u32 (drop 16 data)) with (2 ^ 31 - 1).
  cbn [negb orb Z.eqb Z.land BC_SER_VERSION Pos.eqb bc_new_program]. cbv zeta.
  change (20 + 0 >? zlen data) with false. change (u64 (i32 0 + 16)) with 16. by rewrite Hm.
Qed.

Lemma deserialize_const_wraps malloc_ok rest :
  malloc_ok 0 = true -> 2 ^ 32 <= zlen rest ->
  deserialize_const malloc_ok (2 :: put_u32 (2 ^ 32 - 1) ++ rest) = Broken.
Proof.
  intros Hm Hl. cbn [deserialize_const Z.eqb Pos.eqb]. rewrite get_put_u32, drop_put_u32, zlen_app.
  rewrite u32_small by lia. cbv zeta. change (u32 (2 ^ 32 - 1 + 1)) with 0. rewrite Hm.
  change (zlen (put_u32 (2 ^ 32 - 1))) with 4.
  destruct (Z.ltb_spec (4 + zlen rest) 4); [lia|].
  by destruct (Z.ltb_spec (zlen rest) (2 ^ 32 - 1 + 1)); [lia|].
Qed.

(** A program whose pool refers to AST nodes is written to the archive but
    never restored from it: its image carries the node-reference flag and
    [bc_deserialize] refuses it, exactly when [bc_program_is_restorable] says
    no. *)
Theorem bc_deserialize_node_refs (p : BCProgram) (malloc_ok : Z -> alloc_result)
    (calloc_ok : alloc_result) (counter : Z) (img : list Z) :
  bc_program_is_restorable p = false ->
  bc_serialize malloc_ok p = Some img ->
  bc_deserialize malloc_ok calloc_ok counter img = Refused.
Proof.
  unfold bc_program_is_restorable, bc_serialize. intros Hn.
  destruct (p_code_cap p =? 0), (malloc_ok (serialize_total p)); try done.
  cbn [negb]. intros E. apply (inj Some) in E as <-.
  pose proof (header_fields p (p_code p ++ concat (map serialize_const (p_pool p))))
    as (E1 & E2 & E3 & _). unfold image_header in *. rewrite <- !app_assoc in *.
  unfold bc_deserialize. rewrite E1, E2, E3, Hn. rewrite bool_decide_true by done.
  rewrite orb_false_r. by case_if.
Qed.

Definition sample_node_program : BCProgram :=
  {| p_code := [84; 0; 0; 66]; p_code_cap := 256; p_pool := [PoolNode 77];
     p_pool_cap := 32; p_max_stack := 8; p_node_refs := 1; p_compiled := 1;
     p_prog_id := 1; p_ref_count := 1 |}.

Lemma bc_deserialize_node_refs_witness :
  exists img, bc_program_is_restorable sample_node_program = false /\
    bc_serialize (fun _ => true) sample_node_program = Some img /\
    bc_deserialize (fun _ => true) true 0 img = Refused.
Proof.
  eexists. split; [by vm_compute|]. split; [by vm_compute|].
  apply (bc_deserialize_node_refs sample_node_program (fun _ => true)); by vm_compute.
Defined.
