(* ===== verification/BcEmit.v ===== *)
(** The bytecode emitter, [src/src/engine/lr_bytecode_emit.c].

    [BCComp] is the part of the compiler state the emitter owns: the program
    being built, the [ok] flag, the stack-depth tracking and the instruction
    boundary tracker.  The compiler hands over one opcode byte, then its
    operands; [emit_instr] is that protocol, per operand encoding of
    [bc_info].

    The theorems: what is emitted is a well-formed instruction stream, namely
    the instructions the compiler asked for with each [LOAD_PROP]; [ADD] pair
    fused; a patched jump reaches its target; the constant pool is
    deduplicated and never renumbered.  One more says what the code gets
    wrong: the fusion ignores jump targets. *)

From stdpp Require Import base list strings.
From Stdlib Require Import ZArith Lia.
From S2P Require Import Prelude.
From S2P Require Import BcProgram.

(** ** State *)

Record BCComp := {
  c_p : BCProgram;
  c_ok : bool;
  c_stack_depth : Z;
  c_max_stack_depth : Z;
  c_cur_inst_start : Z;     (* opcode offset of the current instruction *)
  c_inst_written : Z;       (* bytes emitted so far for it *)
  c_inst_total : Z          (* total expected instruction bytes *)
}.

Definition set_code (code : list Z) (cap : Z) (p : BCProgram) : BCProgram :=
  {| p_code := code; p_code_cap := cap; p_pool := p_pool p; p_pool_cap := p_pool_cap p;
     p_max_stack := p_max_stack p; p_node_refs := p_node_refs p;
     p_compiled := p_compiled p; p_prog_id := p_prog_id p; p_ref_count := p_ref_count p |}.

Definition set_pool (pool : list BCConst) (cap refs : Z) (p : BCProgram) : BCProgram :=
  {| p_code := p_code p; p_code_cap := p_code_cap p; p_pool := pool; p_pool_cap := cap;
     p_max_stack := p_max_stack p; p_node_refs := refs;
     p_compiled := p_compiled p; p_prog_id := p_prog_id p; p_ref_count := p_ref_count p |}.

Definition with_p (p : BCProgram) (c : BCComp) : BCComp :=
  {| c_p := p; c_ok := c_ok c; c_stack_depth := c_stack_depth c;
     c_max_stack_depth := c_max_stack_depth c; c_cur_inst_start := c_cur_inst_start c;
     c_inst_written := c_inst_written c; c_inst_total := c_inst_total c |}.

Definition with_ok (ok : bool) (c : BCComp) : BCComp :=
  {| c_p := c_p c; c_ok := ok; c_stack_depth := c_stack_depth c;
     c_max_stack_depth := c_max_stack_depth c; c_cur_inst_start := c_cur_inst_start c;
     c_inst_written := c_inst_written c; c_inst_total := c_inst_total c |}.

Definition with_inst (start written total : Z) (c : BCComp) : BCComp :=
  {| c_p := c_p c; c_ok := c_ok c; c_stack_depth := c_stack_depth c;
     c_max_stack_depth := c_max_stack_depth c; c_cur_inst_start := start;
     c_inst_written := written; c_inst_total := total |}.

(** [UPDATE_STACK(delta)] *)
Definition update_stack (delta : Z) (c : BCComp) : BCComp :=
  let d := c_stack_depth c + delta in
  {| c_p := c_p c; c_ok := c_ok c; c_stack_depth := d;
     c_max_stack_depth := if d >? c_max_stack_depth c then d else c_max_stack_depth c;
     c_cur_inst_start := c_cur_inst_start c; c_inst_written := c_inst_written c;
     c_inst_total := c_inst_total c |}.

(** [memset(&c, 0, sizeof c); c.p = prog; c.ok = 1;] *)
Definition comp_init (p : BCProgram) : BCComp :=
  {| c_p := p; c_ok := true; c_stack_depth := 0; c_max_stack_depth := 0;
     c_cur_inst_start := 0; c_inst_written := 0; c_inst_total := 0 |}.

Definition code_of (c : BCComp) : list Z := p_code (c_p c).
Definition here (c : BCComp) : Z := zlen (code_of c).

Section Emitter.

(** Outcome of a [realloc] to the given size. *)
Variable realloc_ok : Z -> alloc_result.

(** ** Emission *)

(** [int]s that overflow (from a capacity of 2^30 on) are taken to wrap. *)
Definition bc_ensure (extra : Z) (c : BCComp) : BCComp :=
  let p := c_p c in
  if i32 (here c + extra) <=? p_code_cap p then c
  else
    let cap := if p_code_cap p =? 0 then 256 else i32 (p_code_cap p * 2) in
    let cap := if i32 (here c + extra) >? cap then i32 (here c + extra + 64) else cap in
    if realloc_ok (u64 cap) then with_p (set_code (p_code p) cap p) c else with_ok false c.

(** [code[code_len++] = byte] for each byte. *)
Definition append (bs : list Z) (c : BCComp) : BCComp :=
  with_p (set_code (code_of c ++ bs) (p_code_cap (c_p c)) (c_p c)) c.

(** The peephole's test: the whole previous instruction is a [LOAD_PROP]. *)
Definition fusible (c : BCComp) : bool :=
  let start := c_cur_inst_start c in
  (0 <=? start) && (here c - start =? 5) &&
  (at_ (code_of c) start =? op_byte BC_LOAD_PROP).

Definition emit (b : Z) (c : BCComp) : BCComp :=
  if negb (c_ok c) then c
  else if (b =? op_byte BC_ADD) && fusible c then
    let start := c_cur_inst_start c in
    update_stack (-1)
      (with_p (set_code (<[Z.to_nat start := op_byte BC_LOAD_PROP_ADD]> (code_of c))
                        (p_code_cap (c_p c)) (c_p c)) c)
  else
    let c1 := if c_inst_written c >=? c_inst_total c
              then with_inst (here c) 0 (bc_op_total_len b) c else c in
    let c2 := with_inst (c_cur_inst_start c1) (c_inst_written c1 + 1) (c_inst_total c1) c1 in
    let c3 := bc_ensure 1 c2 in
    if negb (c_ok c3) then c3 else append [b] c3.

(** [inst_written += n; if (inst_written > inst_total) inst_written = inst_total;] *)
Definition wrote (n : Z) (c : BCComp) : BCComp :=
  let w := c_inst_written c + n in
  with_inst (c_cur_inst_start c) (if w >? c_inst_total c then c_inst_total c else w)
            (c_inst_total c) c.

Definition emit16 (v : Z) (c : BCComp) : BCComp :=
  if negb (c_ok c) then c
  else if (v <? 0) || (v >? 65535) then with_ok false c
  else
    let c1 := bc_ensure 2 c in
    if negb (c_ok c1) then c1
    else wrote 2 (append [u8 (Z.land v 255); u8 (Z.land (Z.shiftr v 8) 255)] c1).

Definition emit32 (v : Z) (c : BCComp) : BCComp :=
  if negb (c_ok c) then c
  else
    let c1 := bc_ensure 4 c in
    if negb (c_ok c1) then c1 else wrote 4 (append (put_u32 v) c1).

(** Emit a jump with a placeholder target; returns the patch position. *)
Definition emit_jump (op : Z) (c : BCComp) : BCComp * Z :=
  let c1 := emit op c in
  let pos := here c1 in
  (emit32 0 c1, pos).

(** [d[0..3] = ...] *)
Definition write_at (pos : Z) (bs : list Z) (l : list Z) : list Z :=
  take (Z.to_nat pos) l ++ bs ++ drop (Z.to_nat pos + length bs) l.

Definition patch_jump_to (pos target : Z) (c : BCComp) : BCComp :=
  if negb (c_ok c) || (pos <? 0) || (pos + 4 >? here c) then c
  else
    let rel := i32 (target - (pos + 4)) in
    with_p (set_code (write_at pos (put_u32 rel) (code_of c)) (p_code_cap (c_p c)) (c_p c)) c.

Definition patch_here (pos : Z) (c : BCComp) : BCComp := patch_jump_to pos (here c) c.

(** ** Constant pool *)

Definition pool_of (c : BCComp) : list BCConst := p_pool (c_p c).

Definition pool_reserve (c : BCComp) : BCComp * bool :=
  let p := c_p c in
  if zlen (p_pool p) <? p_pool_cap p then (c, true)
  else
    let cap := if p_pool_cap p =? 0 then 32 else i32 (p_pool_cap p * 2) in
    if realloc_ok (u64 (cap * 24)) then
      (with_p (set_pool (p_pool p) cap (p_node_refs p) p) c, true)
    else (with_ok false c, false).

(** The [for] over the pool: first index from [i] that satisfies [f]. *)
Fixpoint pool_find (f : BCConst -> bool) (l : list BCConst) (i : Z) : option Z :=
  match l with
  | [] => None
  | k :: l' => if f k then Some i else pool_find f l' (i + 1)
  end.

(** [idx = pool_count++; pool[idx] = k; if (idx > 0xFFFF) ok = 0;] *)
Definition pool_push (k : BCConst) (refs : Z) (c : BCComp) : BCComp * Z :=
  let p := c_p c in
  let idx := zlen (p_pool p) in
  let c1 := with_p (set_pool (p_pool p ++ [k]) (p_pool_cap p) refs p) c in
  (if idx >? 65535 then with_ok false c1 else c1, idx).

Definition is_f64_const (bits : Z) (k : BCConst) : bool :=
  match k with
  | PoolFloat64 b => f64_eqb (f64_of_bits b) (f64_of_bits bits)
  | _ => false
  end.

Definition pool_add_f64 (bits : Z) (c : BCComp) : BCComp * Z :=
  if negb (c_ok c) then (c, 0)
  else
    let '(c1, ok) := pool_reserve c in
    if negb ok then (c1, 0)
    else match pool_find (is_f64_const bits) (pool_of c1) 0 with
         | Some i => (c1, i)
         | None => pool_push (PoolFloat64 bits) (p_node_refs (c_p c1)) c1
         end.

Definition is_str_const (s : list Z) (k : BCConst) : bool :=
  match k with
  | PoolString t _ => bool_decide (cstr t = cstr s)
  | _ => false
  end.

(** [h = (h << 5) - h + *p2] over the C string. *)
Definition str_hash (s : list Z) : Z :=
  fold_left (fun h b => u32 (u32 (Z.shiftl h 5) - h + b)) (cstr s) 0.

(** [s = None] is a NULL pointer; a failed [bc_strdup] clears [ok]. *)
Definition pool_add_str (s : option (list Z)) (c : BCComp) : BCComp * Z :=
  if negb (c_ok c) then (c, 0)
  else
    let '(c1, ok) := pool_reserve c in
    if negb ok then (c1, 0)
    else
      let str := default [] s in
      match pool_find (is_str_const str) (pool_of c1) 0 with
      | Some i => (c1, i)
      | None =>
          let dup_ok := realloc_ok (zlen (cstr str) + 1) in
          let '(c2, idx) := pool_push (PoolString (if dup_ok then cstr str else [])
                                                  (str_hash str)) (p_node_refs (c_p c1)) c1 in
          (if dup_ok then c2 else with_ok false c2, idx)
      end.

Definition pool_add_node (node : Z) (c : BCComp) : BCComp * Z :=
  if negb (c_ok c) then (c, 0)
  else
    let '(c1, ok) := pool_reserve c in
    if negb ok then (c1, 0)
    else pool_push (PoolNode node) (p_node_refs (c_p c1) + 1) c1.

(** ** The instruction protocol *)

Record instr := Instr { i_op : BCOpcode; i_args : list Z }.

(** The operand layout of an emitted instruction.  [bc_info] has no entry for
    the fused opcode, whose layout is [LOAD_PROP]'s. *)
Definition operand_layout (op : BCOpcode) : Z :=
  if decide (op = BC_LOAD_PROP_ADD) then 3 else bc_info_operands op.

Definition encode_args (layout : Z) (args : list Z) : list Z :=
  match args with
  | [a] => if layout =? 1 then le_bytes 2 a else le_bytes 4 a
  | [a; b] => if layout =? 3 then le_bytes 2 a ++ le_bytes 2 b else le_bytes 2 a ++ [b]
  | [a; b; d] => le_bytes 2 a ++ le_bytes 4 b ++ le_bytes 4 d
  | _ => []
  end.

Definition encode_instr (i : instr) : list Z :=
  op_byte (i_op i) :: encode_args (operand_layout (i_op i)) (i_args i).

(** The number of operands a layout has. *)
Definition layout_arity (layout : Z) : nat :=
  if layout =? 0 then 0 else if layout <=? 2 then 1
  else if layout <=? 4 then 2 else 3.

Definition emit_instr (i : instr) (c : BCComp) : BCComp :=
  let c1 := emit (op_byte (i_op i)) c in
  let layout := bc_info_operands (i_op i) in
  match i_args i with
  | [a] => if layout =? 1 then emit16 a c1 else emit32 a c1
  | [a; b] => if layout =? 3 then emit16 b (emit16 a c1) else emit b (emit16 a c1)
  | [a; b; d] => emit32 d (emit32 b (emit16 a c1))
  | _ => c1
  end.

Fixpoint emit_all (l : list instr) (c : BCComp) : BCComp :=
  match l with
  | [] => c
  | i :: l' => emit_all l' (emit_instr i c)
  end.

(** ** What the emitter produces *)

(** The operands of an instruction, within their encoding. *)
Definition args_ok (layout : Z) (args : list Z) : Prop :=
  match args with
  | [] => layout = 0
  | [a] => (layout = 1 /\ 0 <= a <= 65535) \/ (layout = 2 /\ - 2 ^ 31 <= a < 2 ^ 31)
  | [a; b] => 0 <= a <= 65535 /\
              ((layout = 3 /\ 0 <= b <= 65535) \/ (layout = 4 /\ 0 <= b <= 255))
  | [a; b; d] => layout = 5 /\ 0 <= a <= 65535 /\ - 2 ^ 31 <= b < 2 ^ 31 /\
                 - 2 ^ 31 <= d < 2 ^ 31
  | _ => False
  end.

Definition instr_ok (i : instr) : Prop := args_ok (operand_layout (i_op i)) (i_args i).

(** An instruction the compiler asks for: the fused opcode is the peephole's. *)
Definition source_ok (i : instr) : Prop := instr_ok i /\ i_op i <> BC_LOAD_PROP_ADD.

(** The peephole as a function on instructions, latest first. *)
Definition fuse_step (acc : list instr) (i : instr) : list instr :=
  match acc with
  | Instr BC_LOAD_PROP args :: acc' =>
      if decide (i_op i = BC_ADD) then Instr BC_LOAD_PROP_ADD args :: acc' else i :: acc
  | _ => i :: acc
  end.

Definition fuse (l : list instr) : list instr := rev (fold_left fuse_step l []).

Definition encode (l : list instr) : list Z := concat (map encode_instr l).

(** The compiler state after the instructions [acc], latest first. *)
Record tracked (acc : list instr) (c : BCComp) : Prop := {
  tr_ok : Forall instr_ok acc;
  tr_code : code_of c = encode (rev acc);
  tr_done : c_inst_total c <= c_inst_written c;
  tr_start : c_cur_inst_start c =
    match acc with [] => 0 | i :: _ => here c - zlen (encode_instr i) end
}.

Lemma zlen_encode_instr i :
  instr_ok i -> zlen (encode_instr i) = operands_total_len (operand_layout (i_op i)).
Proof.
  unfold instr_ok, encode_instr. generalize (operand_layout (i_op i)) as y. intros y Hok.
  destruct (i_args i) as [|a [|b [|d [|e l]]]]; cbn [args_ok] in Hok.
  - by subst y.
  - destruct Hok as [[-> _]|[-> _]]; done.
  - destruct Hok as [_ [[-> _]|[-> _]]]; done.
  - destruct Hok as [-> _]; done.
  - done.
Qed.

Lemma zlen_encode_pos i : 1 <= zlen (encode_instr i).
Proof. unfold encode_instr. rewrite zlen_cons. pose proof (zlen_nonneg (encode_args (operand_layout (i_op i)) (i_args i))). lia. Qed.

Lemma op_total_len_layout op :
  op <> BC_LOAD_PROP_ADD -> bc_op_total_len (op_byte op) = operands_total_len (operand_layout op).
Proof. by destruct op. Qed.

Lemma info_layout op : op <> BC_LOAD_PROP_ADD -> bc_info_operands op = operand_layout op.
Proof. unfold operand_layout. intros. by case_decide. Qed.

Lemma encode_snoc acc i : encode (rev (i :: acc)) = encode (rev acc) ++ encode_instr i.
Proof. unfold encode. cbn [rev]. rewrite map_app, concat_app. cbn. by rewrite app_nil_r. Qed.

(** The last instruction starts at the tracked offset. *)
Lemma tracked_start i acc c :
  tracked (i :: acc) c ->
  c_cur_inst_start c = zlen (encode (rev acc)) /\ 0 <= c_cur_inst_start c /\
  here c - c_cur_inst_start c = zlen (encode_instr i) /\
  at_ (code_of c) (c_cur_inst_start c) = op_byte (i_op i).
Proof.
  intros [Hok Hcode _ Hst]. rewrite encode_snoc in Hcode.
  assert (here c = zlen (encode (rev acc)) + zlen (encode_instr i)) as Hh
    by (unfold here; rewrite Hcode; apply zlen_app).
  assert (c_cur_inst_start c = zlen (encode (rev acc))) as Hs by lia.
  pose proof (zlen_nonneg (encode (rev acc))).
  split_and!; [done|lia|lia|].
  rewrite Hs, Hcode. unfold at_. rewrite lookup_total_app_r by (unfold zlen; lia).
  unfold zlen. by replace (Z.to_nat (Z.of_nat (length (encode (rev acc)))) -
    length (encode (rev acc)))%nat with 0%nat by lia.
Qed.

Lemma fusible_spec acc c :
  tracked acc c ->
  fusible c = match acc with Instr BC_LOAD_PROP _ :: _ => true | _ => false end.
Proof.
  intros Ht. unfold fusible. destruct acc as [|i acc].
  - destruct Ht as [_ Hc _ ->]. cbn in Hc. unfold here. by rewrite Hc.
  - pose proof (tracked_start _ _ _ Ht) as (_ & H0 & -> & ->).
    destruct (Z.leb_spec 0 (c_cur_inst_start c)); [cbn [andb]|lia].
    assert (instr_ok i) as Hi by (destruct Ht as [Hok _ _ _]; by apply Forall_inv in Hok).
    rewrite (zlen_encode_instr i Hi). destruct i as [op args]. by destruct op.
Qed.

(** ** Effect of the primitives on the parts [tracked] mentions *)

Lemma bc_ensure_code n c : code_of (bc_ensure n c) = code_of c.
Proof. unfold bc_ensure. by repeat case_if. Qed.

Lemma bc_ensure_start n c : c_cur_inst_start (bc_ensure n c) = c_cur_inst_start c.
Proof. unfold bc_ensure. by repeat case_if. Qed.

Lemma bc_ensure_written n c : c_inst_written (bc_ensure n c) = c_inst_written c.
Proof. unfold bc_ensure. by repeat case_if. Qed.

Lemma bc_ensure_total n c : c_inst_total (bc_ensure n c) = c_inst_total c.
Proof. unfold bc_ensure. by repeat case_if. Qed.

Lemma bc_ensure_ok n c : c_ok (bc_ensure n c) = true -> c_ok c = true.
Proof. unfold bc_ensure. by repeat case_if. Qed.

Lemma bc_ensure_alive n c :
  (forall k, realloc_ok k = true) -> c_ok (bc_ensure n c) = c_ok c.
Proof. intros H. unfold bc_ensure. rewrite H. by case_if. Qed.

(** The tracker view of a state. *)
Definition view (c : BCComp) : list Z * Z * Z * Z :=
  (code_of c, c_cur_inst_start c, c_inst_written c, c_inst_total c).

Ltac unfold_view := unfold view, wrote, append, with_inst, with_p, set_code, code_of in *.

Lemma bc_ensure_view n c : view (bc_ensure n c) = view c.
Proof.
  unfold view. by rewrite bc_ensure_code, bc_ensure_start, bc_ensure_written, bc_ensure_total.
Qed.

Lemma view_wrote_append n bs c :
  view (wrote n (append bs c)) =
    (code_of c ++ bs, c_cur_inst_start c,
     Z.min (c_inst_written c + n) (c_inst_total c), c_inst_total c).
Proof.
  unfold_view. cbn. do 3 f_equal.
  destruct (Z.gtb_spec (c_inst_written c + n) (c_inst_total c)); lia.
Qed.

Lemma emit16_view v c :
  c_ok (emit16 v c) = true ->
  c_ok c = true /\ 0 <= v <= 65535 /\
  view (emit16 v c) = (code_of c ++ le_bytes 2 v, c_cur_inst_start c,
                       Z.min (c_inst_written c + 2) (c_inst_total c), c_inst_total c).
Proof.
  unfold emit16. intros H. repeat case_if; to_prop; cbn in H; try congruence.
  split_and!; [done|lia|lia|].
  rewrite view_wrote_append, bc_ensure_code, bc_ensure_start, bc_ensure_written,
    bc_ensure_total.
  do 4 f_equal. cbn [le_bytes]. unfold u8. change 255 with (Z.ones 8).
  rewrite !Z.land_ones by lia. by rewrite !Z.mod_mod by lia.
Qed.

Lemma emit32_view v c :
  c_ok (emit32 v c) = true ->
  c_ok c = true /\
  view (emit32 v c) = (code_of c ++ le_bytes 4 v, c_cur_inst_start c,
                       Z.min (c_inst_written c + 4) (c_inst_total c), c_inst_total c).
Proof.
  unfold emit32. intros H. repeat case_if; to_prop; cbn in H; try congruence.
  split; [done|].
  by rewrite view_wrote_append, bc_ensure_code, bc_ensure_start, bc_ensure_written,
    bc_ensure_total, put_u32_le.
Qed.

(** A byte that is not fused: an opcode when the last instruction is complete,
    an operand byte otherwise. *)
Lemma emit_view b c :
  c_ok (emit b c) = true -> (b =? op_byte BC_ADD) && fusible c = false ->
  c_ok c = true /\
  view (emit b c) =
    if c_inst_total c <=? c_inst_written c
    then (code_of c ++ [b], here c, 1, bc_op_total_len b)
    else (code_of c ++ [b], c_cur_inst_start c, c_inst_written c + 1, c_inst_total c).
Proof.
  unfold emit. intros H Hf. rewrite Hf in *.
  destruct (c_ok c) eqn:Hc; [cbn [negb] in *|cbn in H; congruence].
  split; [done|]. rewrite Z.geb_leb in *.
  set (c2 := with_inst _ _ _ _) in *.
  destruct (c_ok (bc_ensure 1 c2)) eqn:E; [cbn [negb] in *|cbn in H; congruence].
  pose proof (bc_ensure_view 1 c2) as Hv. unfold view in Hv |- *.
  injection Hv as H1 H2 H3 H4.
  assert (code_of (append [b] (bc_ensure 1 c2)) = code_of c2 ++ [b]) as ->
    by (rewrite <- H1; done).
  cbn [append with_p c_cur_inst_start c_inst_written c_inst_total] in *.
  rewrite H2, H3, H4. unfold c2.
  by destruct (c_inst_total c <=? c_inst_written c).
Qed.

Lemma emit_fuse c :
  c_ok c = true -> fusible c = true ->
  c_ok (emit (op_byte BC_ADD) c) = true /\
  view (emit (op_byte BC_ADD) c) =
    (<[Z.to_nat (c_cur_inst_start c) := op_byte BC_LOAD_PROP_ADD]> (code_of c),
     c_cur_inst_start c, c_inst_written c, c_inst_total c).
Proof.
  intros H Hf. unfold emit. rewrite H, Hf. cbn [negb andb]. rewrite Z.eqb_refl.
  by split.
Qed.

(** ** One instruction *)

Lemma tracked_snoc acc i c c' w t :
  tracked acc c -> instr_ok i ->
  view c' = (code_of c ++ encode_instr i, here c, w, t) -> t <= w -> tracked (i :: acc) c'.
Proof.
  intros [Hok Hc _ _] Hi Hv Hw. unfold view in Hv. injection Hv as H1 H2 H3 H4.
  split; [by apply Forall_cons|by rewrite encode_snoc, <- Hc|lia|].
  rewrite H2. unfold here. rewrite H1, zlen_app. lia.
Qed.

(** The whole of an unfused instruction. *)
Lemma emit_instr_view i c :
  source_ok i -> c_inst_total c <= c_inst_written c ->
  (op_byte (i_op i) =? op_byte BC_ADD) && fusible c = false ->
  (forall c', view c' = (code_of c ++ [op_byte (i_op i)], here c, 1,
                         bc_op_total_len (op_byte (i_op i))) ->
              i_op i = BC_DECLARE_VAR -> c_ok (emit16 (hd 0 (i_args i)) c') = true ->
              fusible (emit16 (hd 0 (i_args i)) c') = false) ->
  c_ok (emit_instr i c) = true ->
  c_ok c = true /\
  exists w t, t <= w /\
    view (emit_instr i c) = (code_of c ++ encode_instr i, here c, w, t).
Proof.
  intros [Hi Hop] Hdone Hnf Hdv. destruct i as [op args].
  unfold instr_ok, emit_instr, encode_instr in *. cbn [i_op i_args] in *.
  rewrite (info_layout op Hop). pose proof (op_total_len_layout op Hop) as Htot.
  pose proof (emit_view (op_byte op) c) as Hev.
  replace (c_inst_total c <=? c_inst_written c) with true in Hev by (symmetry; apply Z.leb_le; lia).
  set (c1 := emit (op_byte op) c) in *.
  destruct args as [|a [|b [|d [|e l]]]]; cbn [args_ok] in Hi; [| | | |done].
  - intros H. destruct (Hev H Hnf) as [Hc Hv]. split; [done|].
    rewrite Hv, Htot, Hi. exists 1, 1. split; [lia|done].
  - destruct Hi as [[Hl Ha]|[Hl Ha]]; rewrite Hl in *; cbn [Z.eqb Pos.eqb encode_args].
    + intros H. apply emit16_view in H as (H1 & _ & Hv2).
      destruct (Hev H1 Hnf) as [Hc Hv]. split; [done|].
      unfold view in Hv. injection Hv as E1 E2 E3 E4.
      rewrite Hv2, E1, E2, E3, E4, Htot, <- app_assoc. by exists 3, 3.
    + intros H. apply emit32_view in H as (H1 & Hv2).
      destruct (Hev H1 Hnf) as [Hc Hv]. split; [done|].
      unfold view in Hv. injection Hv as E1 E2 E3 E4.
      rewrite Hv2, E1, E2, E3, E4, Htot, <- app_assoc. by exists 5, 5.
  - destruct Hi as [Ha [[Hl Hb]|[Hl Hb]]]; rewrite Hl in *; cbn [Z.eqb Pos.eqb encode_args].
    + intros H. apply emit16_view in H as (H2 & _ & Hv3).
      apply emit16_view in H2 as (H1 & _ & Hv2).
      destruct (Hev H1 Hnf) as [Hc Hv]. split; [done|].
      unfold view in Hv, Hv2. injection Hv as E1 E2 E3 E4. injection Hv2 as F1 F2 F3 F4.
      rewrite Hv3, F1, F2, F3, F4, E1, E2, E3, E4, Htot, <- !app_assoc. by exists 5, 5.
    + assert (op = BC_DECLARE_VAR) as Edv by (destruct op; done).
      intros H. pose proof (emit_view b (emit16 a c1)) as Hb2.
      assert (c_ok (emit16 a c1) = true) as H2.
      { unfold emit in H. destruct (c_ok (emit16 a c1)) eqn:E; [done|].
        cbn [negb] in H. congruence. }
      pose proof (emit16_view a c1 H2) as (H1 & _ & Hv2).
      destruct (Hev H1 Hnf) as [Hc Hv]. specialize (Hdv c1 Hv Edv H2). cbn [hd] in Hdv.
      rewrite Hdv, andb_false_r in Hb2. destruct (Hb2 H eq_refl) as [_ Hv3].
      split; [done|].
      unfold view in Hv, Hv2. injection Hv as E1 E2 E3 E4. injection Hv2 as F1 F2 F3 F4.
      rewrite Hv3, F1, F2, F3, F4, E1, E2, E3, E4, Htot, <- !app_assoc.
      cbn [operands_total_len Z.eqb Pos.eqb Z.add Pos.add Pos.succ Z.min Z.compare Pos.compare
           Pos.compare_cont Z.leb].
      by exists 4, 4.
  - destruct Hi as [Hl [Ha _]]. rewrite Hl in *. cbn [Z.eqb Pos.eqb encode_args].
    intros H. apply emit32_view in H as (H3 & Hv4).
    apply emit32_view in H3 as (H2 & Hv3). apply emit16_view in H2 as (H1 & _ & Hv2).
    destruct (Hev H1 Hnf) as [Hc Hv]. split; [done|].
    unfold view in Hv, Hv2, Hv3. injection Hv as E1 E2 E3 E4.
    injection Hv2 as F1 F2 F3 F4. injection Hv3 as G1 G2 G3 G4.
    rewrite Hv4, G1, G2, G3, G4, F1, F2, F3, F4, E1, E2, E3, E4, Htot, <- !app_assoc.
    by exists 11, 11.
Qed.

Lemma fuse_step_fused acc args i :
  i_op i = BC_ADD ->
  fuse_step (Instr BC_LOAD_PROP args :: acc) i = Instr BC_LOAD_PROP_ADD args :: acc.
Proof. intros E. cbn. by rewrite decide_True. Qed.

Lemma fuse_step_plain acc c i :
  tracked acc c -> (op_byte (i_op i) =? op_byte BC_ADD) && fusible c = false ->
  fuse_step acc i = i :: acc.
Proof.
  intros Ht. rewrite (fusible_spec _ _ Ht). intros H.
  destruct acc as [|[op args] acc]; [done|]. destruct op; try done.
  rewrite andb_true_r in H. to_prop. cbn. rewrite decide_False; [done|].
  intros E. apply H. by rewrite E.
Qed.

Lemma add_no_args args : instr_ok (Instr BC_ADD args) -> args = [].
Proof.
  unfold instr_ok. change (operand_layout (i_op (Instr BC_ADD args))) with 0.
  cbn [i_args]. destruct args as [|a [|b [|d [|e l]]]]; cbn [args_ok]; intuition lia.
Qed.

Lemma emit_instr_tracked acc i c :
  tracked acc c -> source_ok i -> c_ok (emit_instr i c) = true ->
  c_ok c = true /\ tracked (fuse_step acc i) (emit_instr i c).
Proof.
  intros Ht Hi H.
  destruct ((op_byte (i_op i) =? op_byte BC_ADD) && fusible c) eqn:Hf.
  - apply andb_prop in Hf as [Hb Hfus]. apply Z.eqb_eq, op_byte_inj in Hb.
    pose proof (fusible_spec _ _ Ht) as Hs. rewrite Hfus in Hs.
    destruct acc as [|[op largs] acc]; [done|]. destruct op; try done.
    destruct i as [op args]. destruct Hi as [Hi _]. cbn in Hb. subst op.
    apply add_no_args in Hi as ->. unfold emit_instr in H |- *. cbn [i_op i_args] in *.
    assert (c_ok c = true) as Hc.
    { unfold emit in H. destruct (c_ok c) eqn:E; [done|]. cbn [negb] in H. congruence. }
    split; [done|]. rewrite fuse_step_fused by done.
    destruct (emit_fuse c Hc Hfus) as [_ Hv].
    pose proof (tracked_start _ _ _ Ht) as (Est & H0 & Elen & Eat).
    destruct Ht as [Hok Hcode Hdone _]. unfold view in Hv.
    apply pair_equal_spec in Hv as [[[E1 E2]%pair_equal_spec E3]%pair_equal_spec E4].
    assert (<[Z.to_nat (c_cur_inst_start c):=op_byte BC_LOAD_PROP_ADD]> (code_of c)
      = encode (rev (Instr BC_LOAD_PROP_ADD largs :: acc))) as Ecode.
    { rewrite Hcode, !encode_snoc, Est. unfold zlen. rewrite Nat2Z.id.
      rewrite insert_app_r_alt by lia. by rewrite Nat.sub_diag. }
    split.
    + inversion Hok; subst. by apply Forall_cons.
    + by rewrite E1.
    + lia.
    + rewrite E2. unfold here in *. rewrite E1, Ecode. rewrite encode_snoc, zlen_app. lia.
  - rewrite (fuse_step_plain acc c) by done.
    destruct (emit_instr_view i c Hi) as (Hc & w & t & Hw & Hv); try done.
    + apply Ht.
    + intros c' Hv _ Hok. apply emit16_view in Hok as (_ & _ & Hv2).
      unfold view in Hv, Hv2. injection Hv as E1 E2 E3 E4. injection Hv2 as F1 F2 F3 F4.
      unfold fusible, here in *. rewrite F1, F2, E1, E2, !zlen_app.
      unfold zlen. cbn [length]. apply andb_false_iff. left.
      apply andb_false_iff. right. apply Z.eqb_neq. lia.
    + split; [done|]. eapply tracked_snoc; try done. apply Hi.
Qed.

(** With memory available an in-range instruction never clears [ok]. *)
Lemma emit_instr_alive i c :
  (forall k, realloc_ok k = true) -> source_ok i -> c_ok c = true ->
  c_ok (emit_instr i c) = true.
Proof.
  intros Hr [Hi Hop] Hc.
  assert (forall b c, c_ok c = true -> c_ok (emit b c) = true) as He.
  { intros b c' H'. unfold emit. rewrite H'. cbn [negb].
    destruct ((b =? op_byte BC_ADD) && fusible c'); [done|].
    set (c2 := with_inst _ _ _ _).
    assert (c_ok c2 = true) as H2 by (unfold c2, with_inst; cbn; by case_if).
    rewrite (bc_ensure_alive 1 c2), H2 by done. cbn [negb].
    unfold append, with_p. cbn. by rewrite bc_ensure_alive. }
  assert (forall v c, 0 <= v <= 65535 -> c_ok c = true -> c_ok (emit16 v c) = true) as H16.
  { intros v c' Hv H'. unfold emit16. rewrite H'. cbn [negb].
    destruct (Z.ltb_spec v 0), (Z.gtb_spec v 65535); try lia. cbn [orb].
    rewrite bc_ensure_alive, H' by done. cbn [negb].
    unfold wrote, with_inst, append, with_p. cbn. by rewrite bc_ensure_alive. }
  assert (forall v c, c_ok c = true -> c_ok (emit32 v c) = true) as H32.
  { intros v c' H'. unfold emit32. rewrite H'. cbn [negb].
    rewrite bc_ensure_alive, H' by done. cbn [negb].
    unfold wrote, with_inst, append, with_p. cbn. by rewrite bc_ensure_alive. }
  destruct i as [op args]. unfold instr_ok, emit_instr in *. cbn [i_op i_args] in *.
  rewrite (info_layout op Hop). pose proof (He (op_byte op) c Hc) as Hop1.
  destruct args as [|a [|b [|d [|e l]]]]; cbn [args_ok] in Hi; [done| | | |done].
  - destruct Hi as [[-> ?]|[-> ?]]; cbn [Z.eqb Pos.eqb]; auto.
  - destruct Hi as [Ha [[-> ?]|[-> ?]]]; cbn [Z.eqb Pos.eqb]; auto.
  - destruct Hi as (_ & ? & _); auto.
Qed.

(** Once [ok] is cleared nothing is emitted any more. *)
Lemma emit_dead b c : c_ok c = false -> emit b c = c.
Proof. intros H. unfold emit. by rewrite H. Qed.

Lemma emit16_dead v c : c_ok c = false -> emit16 v c = c.
Proof. intros H. unfold emit16. by rewrite H. Qed.

Lemma emit32_dead v c : c_ok c = false -> emit32 v c = c.
Proof. intros H. unfold emit32. by rewrite H. Qed.

Lemma emit_instr_dead i c : c_ok c = false -> emit_instr i c = c.
Proof.
  intros H. unfold emit_instr.
  destruct (i_args i) as [|a [|b [|d [|e l]]]]; try case_if;
    by rewrite !emit_dead, ?emit16_dead, ?emit32_dead, ?emit_dead
      by (rewrite ?emit_dead, ?emit16_dead, ?emit32_dead; done).
Qed.

Lemma emit_all_dead l c : c_ok c = false -> emit_all l c = c.
Proof.
  revert c. induction l as [|i l IH]; intros c H; [done|].
  cbn. by rewrite emit_instr_dead, IH.
Qed.

Lemma comp_init_tracked p : p_code p = [] -> tracked [] (comp_init p).
Proof. intros H. split; try done. Qed.

Lemma emit_all_tracked l acc c :
  tracked acc c -> Forall source_ok l -> c_ok (emit_all l c) = true ->
  c_ok c = true /\ tracked (fold_left fuse_step l acc) (emit_all l c).
Proof.
  revert acc c. induction l as [|i l IH]; intros acc c Ht Hl Hc; [by split|].
  cbn [emit_all fold_left] in *. inversion Hl; subst.
  assert (c_ok (emit_instr i c) = true) as Hi.
  { destruct (c_ok (emit_instr i c)) eqn:E; [done|]. exfalso.
    rewrite emit_all_dead in Hc by done. congruence. }
  destruct (emit_instr_tracked acc i c) as [Hok Ht2]; [done..|].
  split; [done|]. by apply IH.
Qed.

End Emitter.

(** ** Jumps *)

Lemma fuse_step_above x acc l :
  i_op x <> BC_LOAD_PROP ->
  fold_left fuse_step l (x :: acc) = fold_left fuse_step l [] ++ x :: acc.
Proof.
  intros Hx. change (x :: acc) with ([] ++ x :: acc) at 1. generalize (@nil instr) as top.
  induction l as [|i l IH]; intros top; [done|]. cbn [fold_left].
  rewrite <- IH. f_equal. destruct top as [|[op args] top].
  - destruct x as [op args]. cbn in *. by destruct op.
  - destruct op; try done. cbn. by case_decide.
Qed.

Lemma emit_jump_instr r op c :
  bc_info_operands op = 2 -> (emit_jump r (op_byte op) c).1 = emit_instr r (Instr op [0]) c.
Proof. intros H. unfold emit_jump, emit_instr. cbn [i_op i_args]. by rewrite H. Qed.

Lemma jump_not_add op : bc_info_operands op = 2 -> (op_byte op =? op_byte BC_ADD) = false.
Proof. by destruct op. Qed.

Lemma jump_source_ok op v :
  bc_info_operands op = 2 -> - 2 ^ 31 <= v < 2 ^ 31 -> source_ok (Instr op [v]).
Proof.
  intros H Hv. assert (op <> BC_LOAD_PROP_ADD) as Hop by (intros ->; done).
  split; [|done]. unfold instr_ok. cbn [i_op i_args args_ok].
  rewrite <- info_layout by done. auto.
Qed.

(** The bytes of a layout-2 instruction. *)
Lemma encode_jump op v :
  bc_info_operands op = 2 -> encode_instr (Instr op [v]) = op_byte op :: put_u32 v.
Proof.
  intros H. assert (op <> BC_LOAD_PROP_ADD) as Hop by (intros ->; done).
  unfold encode_instr. cbn [i_op i_args]. rewrite <- info_layout, H by done.
  cbn [encode_args Z.eqb Pos.eqb]. by rewrite put_u32_le.
Qed.

Lemma encode_app l1 l2 : encode (l1 ++ l2) = encode l1 ++ encode l2.
Proof. unfold encode. by rewrite map_app, concat_app. Qed.

Lemma encode_cons i l : encode (i :: l) = encode_instr i ++ encode l.
Proof. done. Qed.

Lemma write_at_mid pos (a b l1 l2 : list Z) :
  pos = zlen l1 -> length a = length b -> write_at pos b (l1 ++ a ++ l2) = l1 ++ b ++ l2.
Proof.
  intros -> E. unfold write_at, zlen. rewrite Nat2Z.id, take_app_length, <- E.
  by rewrite (app_assoc l1 a l2), <- length_app, drop_app_length.
Qed.

Lemma put_u32_i32 v : put_u32 (i32 v) = put_u32 v.
Proof.
  rewrite !put_u32_le.
  assert (forall n w1 w2, w1 mod 256 ^ Z.of_nat n = w2 mod 256 ^ Z.of_nat n ->
            le_bytes n w1 = le_bytes n w2) as Hext.
  { induction n as [|n IH]; intros w1 w2 E; [done|]. cbn [le_bytes].
    rewrite Nat2Z.inj_succ, Z.pow_succ_r in E by lia.
    rewrite !Z.rem_mul_r in E by lia. unfold u8. change (2 ^ 8) with 256.
    pose proof (Z.mod_pos_bound w1 256). pose proof (Z.mod_pos_bound w2 256).
    rewrite (IH (Z.shiftr w1 8) (Z.shiftr w2 8)), !Z.shiftr_div_pow2 by
      (rewrite ?Z.shiftr_div_pow2 by lia; change (2 ^ 8) with 256; lia).
    f_equal. lia. }
  apply Hext. change (256 ^ Z.of_nat 4) with (2 ^ 32).
  pose proof (u32_i32 v) as H. by unfold u32 in H.
Qed.

(** Emitting [pre], a jump, [body], and patching the jump to the end. *)
Definition emit_forward (r : Z -> alloc_result) (pre : list instr) (op : BCOpcode)
    (body : list instr) (p : BCProgram) : BCComp :=
  let '(c, pos) := emit_jump r (op_byte op) (emit_all r pre (comp_init p)) in
  patch_here pos (emit_all r body c).

Lemma emit_all_alive r l c :
  (forall k, r k = true) -> Forall source_ok l -> c_ok c = true ->
  c_ok (emit_all r l c) = true.
Proof.
  intros Hr Hl. revert c. induction Hl as [|i l Hi Hl IH]; intros c Hc; [done|].
  cbn. by apply IH, emit_instr_alive.
Qed.

Lemma encode_mid top acc op v :
  bc_info_operands op = 2 ->
  encode (rev (top ++ Instr op [v] :: acc))
    = encode (rev acc) ++ [op_byte op] ++ put_u32 v ++ encode (rev top).
Proof.
  intros H. rewrite rev_app_distr. cbn [rev]. rewrite !encode_app, encode_cons,
    encode_jump by done. by rewrite <- !app_assoc.
Qed.

Lemma emit_jump_pos r op c acc :
  tracked acc c -> bc_info_operands op = 2 ->
  c_ok (emit_instr r (Instr op [0]) c) = true ->
  (emit_jump r (op_byte op) c).2 = zlen (encode (rev acc)) + 1.
Proof.
  intros [_ Hc Hd _] Hop H. unfold emit_jump. cbn [snd].
  destruct (emit_view r (op_byte op) c) as [_ Hv].
  - unfold emit_instr in H. cbn [i_op i_args] in H. rewrite Hop in H.
    cbn [Z.eqb Pos.eqb] in H. by apply emit32_view in H as [? _].
  - by rewrite jump_not_add.
  - replace (c_inst_total c <=? c_inst_written c) with true in Hv
      by (symmetry; apply Z.leb_le; lia).
    unfold view in Hv. apply pair_equal_spec in Hv as [[[E1 _]%pair_equal_spec _]%pair_equal_spec _].
    unfold here. by rewrite E1, Hc, zlen_app.
Qed.

(** Patching a pending jump to the current end replaces its operand. *)
Lemma patch_here_tracked top op acc c :
  tracked (top ++ Instr op [0] :: acc) c -> c_ok c = true -> bc_info_operands op = 2 ->
  zlen (encode (rev top)) < 2 ^ 31 ->
  let c' := patch_here (zlen (encode (rev acc)) + 1) c in
  c_ok c' = true /\ tracked (top ++ Instr op [zlen (encode (rev top))] :: acc) c'.
Proof.
  intros T Hok Hop Hlen. set (rel := zlen (encode (rev top))) in *.
  set (pos := zlen (encode (rev acc)) + 1). cbv zeta.
  assert (0 <= zlen (encode (rev acc)) /\ 0 <= rel) as [Ha Hrel]
    by (split; apply zlen_nonneg).
  destruct T as [Hall Hcode Hd Hst]. rewrite encode_mid in Hcode by done.
  assert (here c = pos + 4 + rel) as Eh.
  { unfold here. rewrite Hcode, !zlen_app. unfold pos, rel.
    change (zlen [op_byte op]) with 1. rewrite zlen_put_u32. lia. }
  assert (patch_here pos c = with_p (set_code (encode (rev acc) ++ [op_byte op] ++
    put_u32 rel ++ encode (rev top)) (p_code_cap (c_p c)) (c_p c)) c) as ->.
  { unfold patch_here, patch_jump_to. rewrite Hok. cbn [negb orb].
    destruct (Z.ltb_spec pos 0), (Z.gtb_spec (pos + 4) (here c)); try lia. cbn [orb].
    do 2 f_equal. rewrite put_u32_i32. replace (here c - (pos + 4)) with rel by lia.
    rewrite Hcode, (app_assoc _ [op_byte op] (put_u32 0 ++ _)),
      (app_assoc _ [op_byte op] (put_u32 rel ++ _)).
    apply write_at_mid; [|done]. by rewrite zlen_app. }
  split; [done|]. pose proof (jump_source_ok op rel Hop ltac:(lia)) as [Hjr _].
  split.
  - apply Forall_app in Hall as [? Hb]. inversion Hb; subst. apply Forall_app. split; [done|].
    by apply Forall_cons.
  - rewrite encode_mid by done. done.
  - done.
  - cbn [with_p c_cur_inst_start]. rewrite Hst. unfold here. rewrite Hcode.
    change (code_of (with_p (set_code ?l _ _) _)) with l.
    destruct top as [|i top]; cbn [app]; rewrite !zlen_app;
      change (zlen (put_u32 rel)) with (zlen (put_u32 0));
      rewrite ?encode_jump by done; done.
Qed.

Lemma emit_forward_state r pre op body p :
  p_code p = [] -> bc_info_operands op = 2 -> Forall source_ok pre ->
  Forall source_ok body -> zlen (encode (fuse body)) < 2 ^ 31 ->
  (forall k, r k = true) ->
  let c := emit_forward r pre op body p in
  c_ok c = true /\
  tracked (rev (fuse body) ++ Instr op [zlen (encode (fuse body))] :: rev (fuse pre)) c.
Proof.
  intros Hp Hop Hpre Hbody Hlen Hr. unfold emit_forward.
  set (c0 := emit_all r pre (comp_init p)).
  assert (c_ok c0 = true) as H0 by (by apply emit_all_alive).
  destruct (emit_all_tracked r pre [] (comp_init p)) as [_ T0];
    [by apply comp_init_tracked|done|done|]. fold c0 in T0.
  pose proof (jump_source_ok op 0 Hop ltac:(lia)) as Hj.
  assert (c_ok (emit_instr r (Instr op [0]) c0) = true) as H1 by (by apply emit_instr_alive).
  pose proof (emit_jump_pos r op c0 _ T0 Hop H1) as Epos.
  pose proof (emit_jump_instr r op c0 Hop) as Ej.
  destruct (emit_jump r (op_byte op) c0) as [cj pos]. cbn [fst snd] in *. subst cj pos.
  destruct (emit_instr_tracked r _ _ _ T0 Hj H1) as [_ T1].
  rewrite (fuse_step_plain _ c0) in T1 by (done || by rewrite jump_not_add).
  assert (c_ok (emit_all r body (emit_instr r (Instr op [0]) c0)) = true) as H2
    by (by apply emit_all_alive).
  destruct (emit_all_tracked r body _ _ T1 Hbody H2) as [_ T2].
  rewrite fuse_step_above in T2 by (intros E; cbn in E; by subst op).
  unfold fuse. rewrite !rev_involutive. apply patch_here_tracked; try done.
Qed.

(** ** Constant pool *)

(** [c2]'s pool extends [c1]'s: no index is renumbered. *)
Definition pool_extends (c1 c2 : BCComp) : Prop := exists l, pool_of c2 = pool_of c1 ++ l.

Lemma pool_find_spec f l i :
  match pool_find f l i with
  | Some j => exists k, i <= j /\ l !! Z.to_nat (j - i) = Some k /\ f k = true /\
                Forall (fun k' => f k' = false) (take (Z.to_nat (j - i)) l)
  | None => Forall (fun k' => f k' = false) l
  end.
Proof.
  revert i. induction l as [|k l IH]; intros i; cbn [pool_find]; [done|].
  destruct (f k) eqn:E.
  - exists k. rewrite Z.sub_diag. by split_and!.
  - specialize (IH (i + 1)). destruct (pool_find f l (i + 1)) as [j|].
    + destruct IH as (k' & Hj & Hl & Hf & Hall). exists k'.
      replace (Z.to_nat (j - i)) with (S (Z.to_nat (j - (i + 1)))) by lia.
      split_and!; [lia|done|done|by constructor].
    + by constructor.
Qed.

Lemma pool_find_app f l1 l2 i j :
  pool_find f l1 i = Some j -> pool_find f (l1 ++ l2) i = Some j.
Proof.
  revert i. induction l1 as [|k l1 IH]; intros i; cbn; [done|]. case_if; auto.
Qed.

Lemma pool_find_none_app f l1 k i :
  pool_find f l1 i = None -> f k = true -> pool_find f (l1 ++ [k]) i = Some (i + zlen l1).
Proof.
  revert i. induction l1 as [|k1 l1 IH]; intros i; cbn [pool_find app].
  - intros _ ->. change (zlen (@nil BCConst)) with 0. by rewrite Z.add_0_r.
  - case_if; [done|]. intros H Hk. rewrite (IH (i + 1)) by done. rewrite zlen_cons.
    f_equal. lia.
Qed.

Lemma pool_reserve_spec r c :
  pool_of (pool_reserve r c).1 = pool_of c /\
  ((pool_reserve r c).2 = false -> c_ok (pool_reserve r c).1 = false).
Proof. unfold pool_reserve. by repeat case_if. Qed.

Lemma cstr_idem s : cstr (cstr s) = cstr s.
Proof.
  induction s as [|b s IH]; [done|]. unfold cstr in *. cbn [strlen].
  destruct (b =? 0) eqn:E; [done|]. cbn [take strlen]. rewrite E. cbn [take]. by rewrite IH.
Qed.

Lemma is_str_const_true s k :
  is_str_const s k = true <-> exists t h, k = PoolString t h /\ cstr t = cstr s.
Proof.
  destruct k; cbn; rewrite ?bool_decide_eq_true; split;
    try (intros (? & ? & ? & ?); congruence); try done. eauto.
Qed.

Lemma pool_add_str_spec r s c c' i :
  pool_add_str r (Some s) c = (c', i) -> c_ok c' = true ->
  pool_find (is_str_const s) (pool_of c') 0 = Some i /\
  (pool_find (is_str_const s) (pool_of c) 0 = None /\ pool_extends c c' /\ i <= 65535 \/
   pool_find (is_str_const s) (pool_of c) 0 = Some i /\ pool_of c' = pool_of c).
Proof.
  unfold pool_add_str. destruct (c_ok c) eqn:Hc; [|cbn; intros; simplify_eq; congruence].
  cbn [negb]. destruct (pool_reserve_spec r c) as (Hp & Hf).
  destruct (pool_reserve r c) as [c1 ok1]. cbn [fst snd] in *.
  destruct ok1; cbn [negb]; [|intros; simplify_eq; rewrite Hf in *; done].
  change (default [] (Some s)) with s. rewrite Hp.
  destruct (pool_find (is_str_const s) (pool_of c) 0) as [j|] eqn:E.
  { intros ? ?; simplify_eq. rewrite Hp, E. auto. }
  unfold pool_push. cbv zeta. unfold pool_of in Hp at 1. rewrite Hp.
  destruct (r (zlen (cstr s) + 1)); cbn [negb]; [|by intros; simplify_eq].
  destruct (Z.gtb_spec (zlen (pool_of c)) 65535); [by intros; simplify_eq|].
  intros ? Hok; simplify_eq. split; [|left; split_and!; [done| |lia]].
  - unfold pool_of. cbn. change (p_pool (c_p c)) with (pool_of c).
    rewrite (pool_find_none_app _ _ _ _ E), Z.add_0_l; [done|].
    apply is_str_const_true. do 2 eexists. split; [done|]. apply cstr_idem.
  - eexists. unfold pool_of. cbn. done.
Qed.

Lemma is_str_const_ext s s' k : cstr s = cstr s' -> is_str_const s k = is_str_const s' k.
Proof. intros E. destruct k; cbn; try done. by rewrite E. Qed.

Lemma pool_find_ext f g l i : (forall k, f k = g k) -> pool_find f l i = pool_find g l i.
Proof.
  intros E. revert i. induction l as [|k l IH]; intros i; [done|]. cbn. by rewrite E, IH.
Qed.

(** ** Properties *)

(** C18: the emitter implements the instruction stream the compiler asks for.
    Whatever reallocations do, if the compilation is still alive the code is
    exactly the encoding of the requested instructions with each [LOAD_PROP];
    [ADD] pair fused; no operand byte is ever taken for an opcode.  With memory
    available an in-range instruction never stops the compilation. *)
Theorem emit_all_encodes (realloc_ok : Z -> alloc_result) (p : BCProgram)
    (l : list instr) :
  p_code p = [] -> Forall source_ok l ->
  let c := emit_all realloc_ok l (comp_init p) in
  (c_ok c = true -> code_of c = encode (fuse l)) /\
  ((forall k, realloc_ok k = true) -> c_ok c = true).
Proof.
  intros Hp Hl. cbv zeta. split.
  - intros H. destruct (emit_all_tracked realloc_ok l [] (comp_init p)) as [_ T];
      [by apply comp_init_tracked|done|done|]. by rewrite (tr_code _ _ T).
  - intros Hr. by apply emit_all_alive.
Qed.

Definition empty_program : BCProgram :=
  {| p_code := []; p_code_cap := 0; p_pool := []; p_pool_cap := 0; p_max_stack := 0;
     p_node_refs := 0; p_compiled := 0; p_prog_id := 1; p_ref_count := 1 |}.

(** [s += o.p] style code, where an operand byte equals the opcode of [LOAD_PROP]. *)
Definition sample_source : list instr :=
  [Instr BC_LOAD_LOCAL [1]; Instr BC_LOAD_PROP [2; 72]; Instr BC_ADD [];
   Instr BC_CALL_METHOD [72; 2]; Instr BC_ADD []; Instr BC_RETURN []].

Lemma sample_source_ok : Forall source_ok sample_source.
Proof.
  repeat (apply Forall_cons_2 || apply Forall_nil_2); (split; [|done]);
    vm_compute; intuition discriminate.
Qed.

Lemma emit_all_encodes_witness :
  Forall source_ok sample_source /\
  c_ok (emit_all (fun _ => true) sample_source (comp_init empty_program)) = true /\
  code_of (emit_all (fun _ => true) sample_source (comp_init empty_program))
    = [17; 1; 0; 73; 2; 0; 72; 0; 63; 72; 0; 2; 0; 26; 66].
Proof.
  split; [exact sample_source_ok|].
  destruct (emit_all_encodes (fun _ => true) empty_program sample_source
              eq_refl sample_source_ok) as [H1 H2].
  specialize (H2 (fun _ => eq_refl)). split; [exact H2|].
  exact (eq_trans (H1 H2) eq_refl).
Defined.

(** C30: a forward jump reaches its label.  After emitting [pre], a jump with a
    placeholder, [body], and patching the jump to the current end, the code is
    the encoding of the jump with the byte length of the encoded body as its
    operand: the jump lands right after the body, and no other byte changed. *)
Theorem emit_forward_encodes (realloc_ok : Z -> alloc_result) (p : BCProgram)
    (pre body : list instr) (op : BCOpcode) :
  p_code p = [] -> bc_info_operands op = 2 -> Forall source_ok pre ->
  Forall source_ok body -> zlen (encode (fuse body)) < 2 ^ 31 ->
  (forall k, realloc_ok k = true) ->
  code_of (emit_forward realloc_ok pre op body p) =
    encode (fuse pre ++ Instr op [zlen (encode (fuse body))] :: fuse body).
Proof.
  intros. destruct (emit_forward_state realloc_ok pre op body p) as [_ T]; [done..|].
  by rewrite (tr_code _ _ T), rev_app_distr, rev_involutive; cbn [rev];
    rewrite rev_involutive, <- app_assoc.
Qed.

Lemma emit_forward_encodes_witness :
  Forall source_ok sample_source /\
  code_of (emit_forward (fun _ => true) [Instr BC_LOAD_LOCAL [3]] BC_JUMP_IF_FALSE
             sample_source empty_program)
    = [17; 3; 0; 55; 15; 0; 0; 0; 17; 1; 0; 73; 2; 0; 72; 0; 63; 72; 0; 2; 0; 26; 66].
Proof.
  split; [exact sample_source_ok|].
  refine (eq_trans (emit_forward_encodes (fun _ => true) empty_program
    [Instr BC_LOAD_LOCAL [3]] sample_source BC_JUMP_IF_FALSE eq_refl eq_refl _
    sample_source_ok eq_refl (fun _ => eq_refl)) eq_refl).
  repeat (apply Forall_cons_2 || apply Forall_nil_2); (split; [|done]);
    vm_compute; intuition discriminate.
Defined.

(** the fusion ignores jump targets.  When the code of a jump's body ends in
    [LOAD_PROP], the jump is patched to the end and an [ADD] follows (the shape
    of [x + (c ? y : o.p)]), the [ADD] is fused into the body: the jump still
    goes to the end of the code, where no addition is left for the jumping
    path. *)
Lemma fusion_across_label (realloc_ok : Z -> alloc_result) (p : BCProgram)
    (pre : list instr) (op : BCOpcode) (slot pool : Z) :
  p_code p = [] -> bc_info_operands op = 2 -> Forall source_ok pre ->
  (forall k, realloc_ok k = true) -> 0 <= slot <= 65535 -> 0 <= pool <= 65535 ->
  let c := emit_forward realloc_ok pre op [Instr BC_LOAD_PROP [slot; pool]] p in
  let c' := emit_instr realloc_ok (Instr BC_ADD []) c in
  code_of c' = encode (fuse pre ++ [Instr op [5]; Instr BC_LOAD_PROP_ADD [slot; pool]]) /\
  here c' = zlen (encode (fuse pre)) + 5 + 5.
Proof.
  intros Hp Hop Hpre Hr Hs Hpl. cbv zeta.
  assert (Forall source_ok [Instr BC_LOAD_PROP [slot; pool]]) as Hb.
  { apply Forall_cons_2; [|apply Forall_nil_2]. split; [|done].
    unfold instr_ok. cbn [i_op i_args args_ok]. auto. }
  destruct (emit_forward_state realloc_ok pre op [Instr BC_LOAD_PROP [slot; pool]] p)
    as [Hok T]; [done..|].
  set (c := emit_forward _ _ _ _ _) in *.
  assert (source_ok (Instr BC_ADD [])) as Hadd by done.
  destruct (emit_instr_tracked realloc_ok _ _ _ T Hadd) as [_ T2];
    [by apply emit_instr_alive|].
  change (fuse [Instr BC_LOAD_PROP [slot; pool]]) with [Instr BC_LOAD_PROP [slot; pool]] in T2.
  cbn [rev app] in T2. rewrite fuse_step_fused in T2 by done.
  assert (code_of (emit_instr realloc_ok (Instr BC_ADD []) c)
    = encode (fuse pre ++ [Instr op [5]; Instr BC_LOAD_PROP_ADD [slot; pool]])) as E.
  { rewrite (tr_code _ _ T2). cbn [rev]. by rewrite rev_involutive, <- app_assoc. }
  split; [done|]. unfold here. rewrite E, encode_app, zlen_app, !encode_cons, encode_jump by done.
  by rewrite <- Z.add_assoc.
Qed.

Lemma fusion_across_label_witness :
  let c := emit_forward (fun _ => true) [Instr BC_PUSH_INT32 [1]] BC_JUMP
             [Instr BC_LOAD_PROP [2; 0]] empty_program in
  code_of (emit_instr (fun _ => true) (Instr BC_ADD []) c)
    = [7; 1; 0; 0; 0; 54; 5; 0; 0; 0; 73; 2; 0; 0; 0].
Proof.
  destruct (fusion_across_label (fun _ => true) empty_program [Instr BC_PUSH_INT32 [1]]
    BC_JUMP 2 0 eq_refl eq_refl) as [H _]; [|done|lia|lia|exact (eq_trans H eq_refl)].
  repeat (apply Forall_cons_2 || apply Forall_nil_2); (split; [|done]);
    vm_compute; intuition discriminate.
Defined.

(** The constant pool interns strings.  A successful [pool_add_str] returns
    the index of a string constant equal to its argument, an index every
    instruction can encode; no existing index changes meaning; and a later
    request for the same string, after any further additions, returns the same
    index and adds nothing. *)
Theorem pool_add_str_interns (r r' : Z -> alloc_result) (c c' c2 c3 : BCComp)
    (s s' : list Z) (i j : Z) :
  zlen (pool_of c) <= 65536 ->
  pool_add_str r (Some s) c = (c', i) -> c_ok c' = true ->
  pool_extends c c' /\ 0 <= i <= 65535 /\
  (exists t h, pool_of c' !! Z.to_nat i = Some (PoolString t h) /\ cstr t = cstr s) /\
  (pool_extends c' c2 -> cstr s' = cstr s ->
   pool_add_str r' (Some s') c2 = (c3, j) -> c_ok c3 = true ->
   j = i /\ pool_of c3 = pool_of c2).
Proof.
  intros Hlen H Hok. destruct (pool_add_str_spec _ _ _ _ _ H Hok) as [Hf Hcase].
  pose proof (pool_find_spec (is_str_const s) (pool_of c') 0) as Hs. rewrite Hf in Hs.
  destruct Hs as (k & Hi & Hk & Hkf & _). rewrite Z.sub_0_r in Hk.
  split_and!.
  - destruct Hcase as [(_ & ? & _)|[_ E]]; [done|]. exists []. by rewrite app_nil_r.
  - done.
  - destruct Hcase as [(_ & _ & ?)|[_ E]]; [done|].
    apply lookup_lt_Some in Hk. rewrite E in Hk. unfold zlen in Hlen. lia.
  - apply is_str_const_true in Hkf as (t & h & -> & ?). eauto.
  - intros [l El] Es H2 Hok2. destruct (pool_add_str_spec _ _ _ _ _ H2 Hok2) as [_ Hc2].
    rewrite (pool_find_ext _ (is_str_const s) (pool_of c2)) in Hc2
      by (intros; by apply is_str_const_ext).
    rewrite El, (pool_find_app _ _ _ _ _ Hf) in Hc2.
    destruct Hc2 as [(? & _)|[? ?]]; [done|]. split; [congruence|]. by rewrite El.
Qed.

Lemma pool_add_str_interns_witness :
  let '(c1, _) := pool_add_str (fun _ => true) (Some [97]) (comp_init empty_program) in
  let '(c2, i) := pool_add_str (fun _ => true) (Some [98; 99]) c1 in
  let '(c3, j) := pool_add_str (fun _ => true) (Some [98; 99; 0; 7]) c2 in
  i = 1 /\ j = 1 /\ pool_of c3 = pool_of c2.
Proof.
  set (c1 := (pool_add_str (fun _ => true) (Some [97]) (comp_init empty_program)).1).
  set (r2 := pool_add_str (fun _ => true) (Some [98; 99]) c1).
  set (r3 := pool_add_str (fun _ => true) (Some [98; 99; 0; 7]) r2.1).
  destruct (pool_add_str_interns (fun _ => true) (fun _ => true) c1 r2.1 r2.1 r3.1
    [98; 99] [98; 99; 0; 7] r2.2 r3.2) as (_ & _ & _ & H); [vm_compute; discriminate|
    reflexivity|reflexivity|].
  destruct H as [H1 H2]; [by exists []; rewrite app_nil_r|reflexivity..|].
  split; [reflexivity|]. split; [exact H1|exact H2].
Defined.
