(* ===== verification/BcDisasm.v ===== *)
(** The disassembler, [bc_disassemble] of [src/src/engine/lr_bytecode_disasm.c].

    A listing is a list of [dis_line]s, one per decoded instruction, with the
    operands as they are read; [line_text] is the [snprintf] of a line and
    [bc_disassemble] the accumulation into the growing output buffer.

    The theorems: on the code the emitter produces the listing is exactly the
    instructions that were emitted, at their offsets; after a fused
    instruction, for which [bc_info] has no entry, the disassembler continues
    inside its operands. *)

From stdpp Require Import base list strings pretty.
From Stdlib Require Import ZArith Lia.
From S2P Require Import Prelude.
From S2P Require Import BcProgram.
From S2P Require Import BcEmit.

(** ** Decoding *)

Inductive dis_line :=
  | Dis0 (start : Z) (name : string)
  | Dis1 (start : Z) (name : string) (a : Z)
  | Dis2 (start : Z) (name : string) (a target : Z)
  | Dis3 (start : Z) (name : string) (a b : Z)
  | Dis4 (start : Z) (name : string) (a kind : Z)
  | Dis5 (start : Z) (name : string) (slot imm offset target : Z).

Definition bc_name_of_byte (b : Z) : string :=
  match op_of_byte b with Some op => bc_info_name op | None => "?" end.

Definition get_u16 (b : list Z) : Z := Z.lor (at_ b 0) (Z.shiftl (at_ b 1) 8).
Definition get_i32 (b : list Z) : Z := i32 (get_u32 b).

(** [pc + a], an [int]. *)
Definition jump_target (pc a : Z) : option Z :=
  if (- 2 ^ 31 <=? pc + a) && (pc + a <? 2 ^ 31) then Some (pc + a) else None.

(** One iteration at [pc]: the line and the next [pc]; [None] is undefined
    behaviour, when an operand lies beyond [code_len] or the printed target
    overflows. *)
Definition dis_step (code : list Z) (pc : Z) : option (dis_line * Z) :=
  let op := at_ code pc in
  let name := bc_name_of_byte op in
  let operands := bc_operands_of_byte op in
  let rest := drop (Z.to_nat (pc + 1)) code in
  if zlen rest <? operands_total_len operands - 1 then None
  else if operands =? 1 then Some (Dis1 pc name (get_u16 rest), pc + 3)
  else if operands =? 2 then
    target ← jump_target (pc + 5) (get_i32 rest);
    Some (Dis2 pc name (get_i32 rest) target, pc + 5)
  else if operands =? 3 then
    Some (Dis3 pc name (get_u16 rest) (get_u16 (drop 2 rest)), pc + 5)
  else if operands =? 4 then Some (Dis4 pc name (get_u16 rest) (at_ rest 2), pc + 4)
  else if operands =? 5 then
    target ← jump_target (pc + 11) (get_i32 (drop 6 rest));
    Some (Dis5 pc name (get_u16 rest) (get_i32 (drop 2 rest)) (get_i32 (drop 6 rest)) target,
          pc + 11)
  else Some (Dis0 pc name, pc + 1).

(** All lines, or those before the undefined behaviour. *)
Inductive dis_result :=
  | DisDone (lines : list dis_line)
  | DisUndef (lines : list dis_line).

Definition dis_cons (d : dis_line) (r : dis_result) : dis_result :=
  match r with
  | DisDone l => DisDone (d :: l)
  | DisUndef l => DisUndef (d :: l)
  end.

(** [while (pc < code_len)]; every step advances [pc]. *)
Fixpoint dis_loop (fuel : nat) (code : list Z) (pc : Z) : dis_result :=
  if pc <? zlen code then
    match fuel with
    | O => DisUndef []
    | S fuel' =>
        match dis_step code pc with
        | None => DisUndef []
        | Some (d, pc') => dis_cons d (dis_loop fuel' code pc')
        end
    end
  else DisDone [].

Definition dis_lines (code : list Z) : dis_result := dis_loop (length code) code 0.

(** ** Text *)

(** [%05d] of a non-negative number, [%-20s]. *)
Fixpoint chars (n : nat) (c : string) : string :=
  match n with O => EmptyString | S n' => (c +:+ chars n' c)%string end.

Definition pad5 (z : Z) : string :=
  let s := pretty z in (chars (5 - String.length s) "0" +:+ s)%string.

Definition pad20 (s : string) : string := (s +:+ chars (20 - String.length s) " ")%string.

Definition newline : string := String (Ascii.ascii_of_nat 10) EmptyString.

Definition line_text (d : dis_line) : string :=
  (match d with
   | Dis0 s n => pad5 s +:+ "  " +:+ n
   | Dis1 s n a => pad5 s +:+ "  " +:+ pad20 n +:+ " " +:+ pretty a
   | Dis2 s n a t => pad5 s +:+ "  " +:+ pad20 n +:+ " " +:+ pretty a +:+ " (→"
                     +:+ pretty t +:+ ")"
   | Dis3 s n a b => pad5 s +:+ "  " +:+ pad20 n +:+ " " +:+ pretty a +:+ ", " +:+ pretty b
   | Dis4 s n a k => pad5 s +:+ "  " +:+ pad20 n +:+ " " +:+ pretty a +:+ ", kind="
                     +:+ pretty k
   | Dis5 s n a i o t => pad5 s +:+ "  " +:+ pad20 n +:+ " slot=" +:+ pretty a +:+ ", imm="
                         +:+ pretty i +:+ ", offset=" +:+ pretty o +:+ " (→"
                         +:+ pretty t +:+ ")"
   end +:+ newline)%string.

(** [while (len + n + 1 > cap) cap *= 2]; a line is at most 255 bytes, so one
    doubling is enough and the fuel never runs out. *)
Fixpoint grow_cap (fuel : nat) (need cap : Z) : Z :=
  match fuel with
  | O => cap
  | S fuel' => if need >? cap then grow_cap fuel' need (cap * 2) else cap
  end.

(** The output buffer, and whether all lines are in it: a failed [realloc] ends
    the listing early. *)
Fixpoint dis_append (realloc_ok : Z -> alloc_result) (cap : Z) (out : string)
    (lines : list dis_line) : string * bool :=
  match lines with
  | [] => (out, true)
  | d :: lines' =>
      let need := Z.of_nat (String.length out) + Z.of_nat (String.length (line_text d)) + 1 in
      if need >? cap then
        let cap' := grow_cap 64 need cap in
        if realloc_ok cap' then dis_append realloc_ok cap' (out +:+ line_text d)%string lines'
        else (out, false)
      else dis_append realloc_ok cap (out +:+ line_text d)%string lines'
  end.

(** A string, NULL, or undefined behaviour. *)
Inductive dis_output :=
  | DisText (text : string)
  | DisNull
  | DisBroken.

Definition bc_disassemble (malloc_ok : alloc_result) (realloc_ok : Z -> alloc_result)
    (p : BCProgram) : dis_output :=
  if (p_code_cap p =? 0) || negb malloc_ok then DisNull
  else match dis_lines (p_code p) with
       | DisDone lines => DisText (dis_append realloc_ok 4096 "" lines).1
       | DisUndef lines =>
           match dis_append realloc_ok 4096 "" lines with
           | (_, true) => DisBroken
           | (out, false) => DisText out
           end
       end.

(** ** The listing of an instruction list *)

Definition line_of (start : Z) (i : instr) : dis_line :=
  let name := bc_info_name (i_op i) in
  match i_args i with
  | [a] => if operand_layout (i_op i) =? 1 then Dis1 start name a
           else Dis2 start name a (start + 5 + a)
  | [a; b] => if operand_layout (i_op i) =? 3 then Dis3 start name a b
              else Dis4 start name a b
  | [a; b; d] => Dis5 start name a b d (start + 11 + d)
  | _ => Dis0 start name
  end.

(** The printed target is an [int]. *)
Definition target_ok (d : dis_line) : Prop :=
  match d with
  | Dis2 _ _ _ t | Dis5 _ _ _ _ _ t => - 2 ^ 31 <= t < 2 ^ 31
  | _ => True
  end.

Fixpoint listing (start : Z) (l : list instr) : list dis_line :=
  match l with
  | [] => []
  | i :: l' => line_of start i :: listing (start + zlen (encode_instr i)) l'
  end.

Lemma get_u16_le_bytes a rest :
  0 <= a <= 65535 -> get_u16 (le_bytes 2 a ++ rest) = a.
Proof.
  intros Ha. unfold get_u16. cbn [le_bytes app].
  change (at_ (u8 a :: ?l) 0) with (u8 a).
  change (at_ (u8 a :: u8 (Z.shiftr a 8) :: ?l) 1) with (u8 (Z.shiftr a 8)).
  rewrite lor_shiftl_add by (try apply u8_range; lia).
  rewrite Z.shiftr_div_pow2 by lia. unfold u8. change (2 ^ 8) with 256.
  rewrite (Z.mod_small (a / 256)) by divlia. divlia.
Qed.

Lemma get_i32_le_bytes v rest :
  - 2 ^ 31 <= v < 2 ^ 31 -> get_i32 (le_bytes 4 v ++ rest) = v.
Proof.
  intros Hv. unfold get_i32. rewrite <- put_u32_le, get_put_u32, i32_u32. by apply i32_small.
Qed.

Lemma drop_zlen {A} (l1 l2 : list A) : drop (Z.to_nat (zlen l1)) (l1 ++ l2) = l2.
Proof. unfold zlen. by rewrite Nat2Z.id, drop_app_length. Qed.

Lemma at_zlen (l1 : list Z) x l2 : at_ (l1 ++ x :: l2) (zlen l1) = x.
Proof.
  unfold at_, zlen. rewrite Nat2Z.id, lookup_total_app_r by lia. by rewrite Nat.sub_diag.
Qed.

(** The bytes of an opcode at the end of a prefix. *)
Lemma dis_op_at pre op rest :
  at_ (pre ++ op_byte op :: rest) (zlen pre) = op_byte op /\
  bc_operands_of_byte (op_byte op) = bc_info_operands op /\
  bc_name_of_byte (op_byte op) = bc_info_name op /\
  drop (Z.to_nat (zlen pre + 1)) (pre ++ op_byte op :: rest) = rest.
Proof.
  unfold bc_operands_of_byte, bc_name_of_byte. rewrite op_of_op_byte.
  split_and!; [apply at_zlen|done|done|].
  replace (zlen pre + 1) with (zlen (pre ++ [op_byte op])) by (rewrite zlen_app; done).
  change (op_byte op :: rest) with ([op_byte op] ++ rest). rewrite app_assoc.
  apply drop_zlen.
Qed.

Lemma jump_target_ok pc a : - 2 ^ 31 <= pc + a < 2 ^ 31 -> jump_target pc a = Some (pc + a).
Proof.
  intros H. unfold jump_target.
  destruct (Z.leb_spec (- 2 ^ 31) (pc + a)), (Z.ltb_spec (pc + a) (2 ^ 31)); try lia. done.
Qed.

Lemma dis_step_instr pre i post :
  source_ok i -> target_ok (line_of (zlen pre) i) ->
  dis_step (pre ++ encode_instr i ++ post) (zlen pre) =
    Some (line_of (zlen pre) i, zlen pre + zlen (encode_instr i)).
Proof.
  intros [Hi Hop] Ht. rewrite (zlen_encode_instr i Hi). destruct i as [op args].
  unfold instr_ok, encode_instr, line_of in *. cbn [i_op i_args app] in *.
  set (y := operand_layout op) in *. set (args_bytes := encode_args y args).
  destruct (dis_op_at pre op (args_bytes ++ post)) as (E1 & E2 & E3 & E4).
  unfold dis_step. rewrite E1, E2, E3, E4, (info_layout op Hop). fold y.
  assert (0 <= zlen post) as Hpost by apply zlen_nonneg.
  assert (zlen (args_bytes ++ post) <? operands_total_len y - 1 = false) as ->.
  { apply Z.ltb_ge. rewrite zlen_app.
    pose proof (zlen_encode_instr (Instr op args) Hi) as Hz.
    unfold encode_instr in Hz. cbn [i_op i_args] in Hz. rewrite zlen_cons in Hz.
    fold y args_bytes in Hz. lia. }
  unfold args_bytes.
  destruct args as [|a [|b [|d [|e l]]]]; cbn [args_ok] in Hi; [| | | |done].
  - by rewrite Hi.
  - destruct Hi as [[-> Ha]|[-> Ha]]; cbn [Z.eqb Pos.eqb encode_args operands_total_len].
    + by rewrite get_u16_le_bytes.
    + rewrite get_i32_le_bytes, jump_target_ok by done. done.
  - destruct Hi as [Ha [[-> Hb]|[-> Hb]]]; cbn [Z.eqb Pos.eqb encode_args operands_total_len];
      rewrite <- app_assoc, get_u16_le_bytes by done.
    + change (drop 2 (le_bytes 2 a ++ ?l)) with l. by rewrite get_u16_le_bytes.
    + done.
  - destruct Hi as (-> & Ha & Hb & Hd). cbn [Z.eqb Pos.eqb encode_args operands_total_len].
    rewrite <- !app_assoc, get_u16_le_bytes by done.
    change (drop 2 (le_bytes 2 a ++ ?l)) with l.
    change (drop 6 (le_bytes 2 a ++ le_bytes 4 b ++ ?l)) with l.
    rewrite !get_i32_le_bytes, jump_target_ok by done. done.
Qed.

Lemma dis_loop_listing l pre fuel :
  Forall source_ok l -> Forall target_ok (listing (zlen pre) l) ->
  (length (encode l) <= fuel)%nat ->
  dis_loop fuel (pre ++ encode l) (zlen pre) = DisDone (listing (zlen pre) l).
Proof.
  intros Hl. revert pre fuel. induction Hl as [|i l Hi Hl IH]; intros pre fuel Ht Hf.
  - cbn [encode map concat listing]. rewrite app_nil_r.
    destruct fuel; cbn [dis_loop]; by rewrite Z.ltb_irrefl.
  - rewrite encode_cons in *. pose proof (zlen_encode_pos i) as Hpos.
    cbn [listing] in Ht. apply Forall_cons in Ht as [Hti Ht].
    rewrite length_app in Hf. unfold zlen in Hpos.
    destruct fuel as [|fuel]; [lia|]. cbn [dis_loop listing].
    assert (zlen pre <? zlen (pre ++ encode_instr i ++ encode l) = true) as ->.
    { apply Z.ltb_lt. rewrite !zlen_app. unfold zlen. lia. }
    rewrite dis_step_instr by done.
    rewrite <- zlen_app in *. rewrite app_assoc, IH by (done || lia). done.
Qed.

Lemma dis_append_spec r cap out lines :
  (forall k, r k = true) ->
  dis_append r cap out lines = (foldl (fun s d => s +:+ line_text d)%string out lines, true).
Proof.
  intros Hr. revert cap out. induction lines as [|d lines IH]; intros cap out; [done|].
  cbn [dis_append foldl]. rewrite Hr. case_if; apply IH.
Qed.

(** ** Properties *)

(** C24: the disassembler inverts the emitter on unfused code.  For any list of
    in-range instructions none of which is the fused opcode, and for which the
    sums printed as jump targets do not overflow an [int], [bc_disassemble], with
    memory available, prints one line per instruction, in order, each at its byte
    offset, with its mnemonic, its operand values and its jump target. *)
Theorem bc_disassemble_encode (p : BCProgram) (l : list instr)
    (realloc_ok : Z -> alloc_result) :
  p_code_cap p <> 0 -> p_code p = encode l -> zlen (encode l) < 2 ^ 31 ->
  Forall source_ok l -> Forall target_ok (listing 0 l) ->
  (forall k, realloc_ok k = true) ->
  bc_disassemble true realloc_ok p =
    DisText (foldl (fun s d => s +:+ line_text d)%string ""%string (listing 0 l)).
Proof.
  intros Hc Hp _ Hl Ht Hr. unfold bc_disassemble. rewrite Hp.
  destruct (Z.eqb_spec (p_code_cap p) 0); [done|]. cbn [orb negb].
  unfold dis_lines. rewrite (dis_loop_listing l [] _ Hl Ht) by done.
  by rewrite dis_append_spec.
Qed.

Definition sample_loop : list instr :=
  [Instr BC_PUSH_INT32 [0]; Instr BC_STORE_LOCAL [1];
   Instr BC_JUMP_IF_LOCAL_LT_IMM [1; 10; -11]; Instr BC_STOP []].

Lemma bc_disassemble_encode_witness :
  bc_disassemble true (fun _ => true)
    (set_code (encode sample_loop) 256 empty_program) =
  DisText ("00000  PUSH_INT32           0 (→5)" +:+ newline +:+
        "00005  STORE_LOCAL          1" +:+ newline +:+
        "00008  JUMP_IF_LOCAL_LT_IMM slot=1, imm=10, offset=-11 (→8)" +:+ newline +:+
        "00019  STOP" +:+ newline)%string.
Proof.
  refine (eq_trans (bc_disassemble_encode (set_code (encode sample_loop) 256 empty_program)
    sample_loop (fun _ => true) _ eq_refl _ _ _ (fun _ => eq_refl)) _).
  - discriminate.
  - reflexivity.
  - repeat (apply Forall_cons_2 || apply Forall_nil_2); (split; [|done]);
      vm_compute; intuition discriminate.
  - repeat (apply Forall_cons_2 || apply Forall_nil_2); vm_compute; intuition discriminate.
  - vm_compute. reflexivity.
Defined.

(** [PUSH_INT32] has the operand layout of a jump: its constant is added to the
    offset as well, and a large one makes the [int] overflow. *)
Lemma disassemble_large_constant (v : Z) :
  2 ^ 31 - 5 <= v < 2 ^ 31 ->
  bc_disassemble true (fun _ => true)
    (set_code (encode [Instr BC_PUSH_INT32 [v]]) 256 empty_program) = DisBroken.
Proof.
  intros Hv. unfold bc_disassemble, dis_lines. cbn [p_code set_code p_code_cap].
  change (encode [Instr BC_PUSH_INT32 [v]]) with (op_byte BC_PUSH_INT32 :: le_bytes 4 v ++ []).
  cbn [Z.eqb orb negb app]. change (length (op_byte BC_PUSH_INT32 :: _)) with 5%nat.
  cbn [dis_loop]. change (0 <? zlen (op_byte BC_PUSH_INT32 :: le_bytes 4 v ++ [])) with true.
  unfold dis_step. change (at_ (op_byte BC_PUSH_INT32 :: _) 0) with (op_byte BC_PUSH_INT32).
  change (bc_operands_of_byte (op_byte BC_PUSH_INT32)) with 2.
  change (drop (Z.to_nat (0 + 1)) (op_byte BC_PUSH_INT32 :: ?l)) with l.
  rewrite get_i32_le_bytes by lia. change (zlen (le_bytes 4 v ++ []) <? _) with false.
  cbn [Z.eqb Pos.eqb]. unfold jump_target.
  destruct (Z.ltb_spec (0 + 5 + v) (2 ^ 31)); [lia|]. by rewrite andb_false_r.
Qed.

(** After a fused instruction the disassembler loses the instruction
    boundary: [bc_info] has no entry for [LOAD_PROP_ADD], so it is listed as an
    unknown one-byte instruction and decoding resumes at its first operand
    byte, listed as an instruction of its own, instead of five bytes further. *)
Theorem bc_disassemble_fused_desync (slot pool : Z) (l : list instr) :
  0 <= slot < 256 -> bc_operands_of_byte slot = 0 ->
  exists d r,
    dis_lines (encode (Instr BC_LOAD_PROP_ADD [slot; pool] :: l))
      = dis_cons (Dis0 0 "?") (dis_cons d r) /\
    d = Dis0 1 (bc_name_of_byte slot).
Proof.
  intros Hs Hops. unfold dis_lines. rewrite encode_cons.
  change (encode_instr (Instr BC_LOAD_PROP_ADD [slot; pool]))
    with (op_byte BC_LOAD_PROP_ADD :: u8 slot :: u8 (Z.shiftr slot 8) :: le_bytes 2 pool).
  rewrite u8_small by lia. cbn [app].
  set (rest := u8 (Z.shiftr slot 8) :: le_bytes 2 pool ++ encode l).
  assert (0 <= zlen rest) as Hr by apply zlen_nonneg.
  change (length (op_byte BC_LOAD_PROP_ADD :: slot :: rest)) with (S (S (length rest))).
  assert (forall k, k < 2 -> k <? zlen (op_byte BC_LOAD_PROP_ADD :: slot :: rest) = true)
    as Hlt by (intros; apply Z.ltb_lt; rewrite !zlen_cons; lia).
  cbn [dis_loop]. rewrite !Hlt by lia. unfold dis_step.
  change (at_ (op_byte BC_LOAD_PROP_ADD :: slot :: rest) 0) with (op_byte BC_LOAD_PROP_ADD).
  change (bc_operands_of_byte (op_byte BC_LOAD_PROP_ADD)) with 0.
  change (drop (Z.to_nat (0 + 1)) (op_byte BC_LOAD_PROP_ADD :: slot :: rest)) with (slot :: rest).
  cbn [operands_total_len Z.eqb]. rewrite zlen_cons.
  destruct (Z.ltb_spec (1 + zlen rest) (1 - 1)); [lia|].
  rewrite Hlt by lia. change (0 + 1) with 1.
  change (at_ (op_byte BC_LOAD_PROP_ADD :: slot :: rest) 1) with slot. rewrite Hops.
  change (drop (Z.to_nat (1 + 1)) (op_byte BC_LOAD_PROP_ADD :: slot :: rest)) with rest.
  cbn [Z.eqb]. destruct (Z.ltb_spec (zlen rest) (1 - 1)); [lia|]. eauto.
Qed.

Lemma bc_disassemble_fused_desync_witness :
  exists d r,
    dis_lines (encode [Instr BC_LOAD_PROP_ADD [66; 3]; Instr BC_RETURN []])
      = dis_cons (Dis0 0 "?") (dis_cons d r) /\ d = Dis0 1 "RETURN".
Proof. apply (bc_disassemble_fused_desync 66 3 [Instr BC_RETURN []]); [lia|reflexivity]. Defined.
