(* ===== verification/Gc.v ===== *)
(** The garbage-collection scheduler, [src/src/lr_gc.c] and [lr_gc.h].

    [GC] is the [LR_GCContext]: configuration, statistics, the nursery's list of
    bump-pointer blocks, and the state machine of the incremental cycle.  The
    engine's own collector ([lr_gc_run]) appears as the count of its runs, the
    monotonic clock as a function from the number of the reading to its value
    ([lr_gc_now_ns] is the next reading), [malloc] and [calloc] as outcomes, and
    the address of a block as a function [addr] of its number.
    [size_t] counters wrap at 64 bits.  Printing is not modelled.

    The theorems: nursery allocations never overlap; the statistics account for
    every pause; an incremental cycle ends when a sweep step covers the
    nursery, and never ends when it does not; blocks emptied by a collection
    are not used again. *)

From stdpp Require Import base list strings.
From Stdlib Require Import ZArith Lia.
From S2P Require Import Prelude.

(** ** Data *)

Record LR_GCConfig := GCConfig {
  generational_enabled : bool;
  nursery_size : Z;
  promotion_age : Z;
  minor_gc_interval_ms : Z;
  incremental_enabled : bool;
  pause_target_ns : Z;
  mark_step_size : Z;
  sweep_step_size : Z;
  gc_time_ratio : f64;
  major_gc_interval_ms : Z;
  allocation_threshold : Z;
  idle_gc_enabled : bool;
  idle_gc_step_ms : Z;
  stress_mode : bool
}.

Definition lr_gc_config_default : LR_GCConfig := {|
  generational_enabled := true;
  nursery_size := 4 * 1024 * 1024;
  promotion_age := 3;
  minor_gc_interval_ms := 10;
  incremental_enabled := true;
  pause_target_ns := 5000000;
  mark_step_size := 1024;
  sweep_step_size := 2048;
  gc_time_ratio := f64_div (f64_of_Z 5) (f64_of_Z 100);
  major_gc_interval_ms := 5000;
  allocation_threshold := 256 * 1024;
  idle_gc_enabled := true;
  idle_gc_step_ms := 2;
  stress_mode := false
|}.

(** The statistics, with one updater per field. *)
Record LR_GCStats := GCStats {
  minor_gc_count : Z;
  major_gc_count : Z;
  full_gc_count : Z;
  total_gc_time_ns : Z;
  last_gc_time_ns : Z;
  max_gc_time_ns : Z;
  total_mark_time_ns : Z;
  total_sweep_time_ns : Z;
  incremental_steps : Z;
  idle_gc_steps : Z;
  nursery_bytes_allocated : Z;
  nursery_bytes_freed : Z;
  promoted_bytes : Z;
  swept_bytes : Z;
  nursery_current_size : Z;
  nursery_peak_size : Z;
  pause_histogram : list Z
}.

Definition upd_minor_gc_count (h : Z -> Z) (r : LR_GCStats) : LR_GCStats :=
  GCStats (h (minor_gc_count r)) (major_gc_count r) (full_gc_count r)
    (total_gc_time_ns r) (last_gc_time_ns r) (max_gc_time_ns r) (total_mark_time_ns
    r) (total_sweep_time_ns r) (incremental_steps r) (idle_gc_steps r)
    (nursery_bytes_allocated r) (nursery_bytes_freed r) (promoted_bytes r)
    (swept_bytes r) (nursery_current_size r) (nursery_peak_size r) (pause_histogram
    r).

Definition upd_major_gc_count (h : Z -> Z) (r : LR_GCStats) : LR_GCStats :=
  GCStats (minor_gc_count r) (h (major_gc_count r)) (full_gc_count r)
    (total_gc_time_ns r) (last_gc_time_ns r) (max_gc_time_ns r) (total_mark_time_ns
    r) (total_sweep_time_ns r) (incremental_steps r) (idle_gc_steps r)
    (nursery_bytes_allocated r) (nursery_bytes_freed r) (promoted_bytes r)
    (swept_bytes r) (nursery_current_size r) (nursery_peak_size r) (pause_histogram
    r).

Definition upd_full_gc_count (h : Z -> Z) (r : LR_GCStats) : LR_GCStats :=
  GCStats (minor_gc_count r) (major_gc_count r) (h (full_gc_count r))
    (total_gc_time_ns r) (last_gc_time_ns r) (max_gc_time_ns r) (total_mark_time_ns
    r) (total_sweep_time_ns r) (incremental_steps r) (idle_gc_steps r)
    (nursery_bytes_allocated r) (nursery_bytes_freed r) (promoted_bytes r)
    (swept_bytes r) (nursery_current_size r) (nursery_peak_size r) (pause_histogram
    r).

Definition upd_total_gc_time_ns (h : Z -> Z) (r : LR_GCStats) : LR_GCStats :=
  GCStats (minor_gc_count r) (major_gc_count r) (full_gc_count r) (h
    (total_gc_time_ns r)) (last_gc_time_ns r) (max_gc_time_ns r) (total_mark_time_ns
    r) (total_sweep_time_ns r) (incremental_steps r) (idle_gc_steps r)
    (nursery_bytes_allocated r) (nursery_bytes_freed r) (promoted_bytes r)
    (swept_bytes r) (nursery_current_size r) (nursery_peak_size r) (pause_histogram
    r).

Definition upd_last_gc_time_ns (h : Z -> Z) (r : LR_GCStats) : LR_GCStats :=
  GCStats (minor_gc_count r) (major_gc_count r) (full_gc_count r) (total_gc_time_ns
    r) (h (last_gc_time_ns r)) (max_gc_time_ns r) (total_mark_time_ns r)
    (total_sweep_time_ns r) (incremental_steps r) (idle_gc_steps r)
    (nursery_bytes_allocated r) (nursery_bytes_freed r) (promoted_bytes r)
    (swept_bytes r) (nursery_current_size r) (nursery_peak_size r) (pause_histogram
    r).

Definition upd_max_gc_time_ns (h : Z -> Z) (r : LR_GCStats) : LR_GCStats :=
  GCStats (minor_gc_count r) (major_gc_count r) (full_gc_count r) (total_gc_time_ns
    r) (last_gc_time_ns r) (h (max_gc_time_ns r)) (total_mark_time_ns r)
    (total_sweep_time_ns r) (incremental_steps r) (idle_gc_steps r)
    (nursery_bytes_allocated r) (nursery_bytes_freed r) (promoted_bytes r)
    (swept_bytes r) (nursery_current_size r) (nursery_peak_size r) (pause_histogram
    r).

Definition upd_total_mark_time_ns (h : Z -> Z) (r : LR_GCStats) : LR_GCStats :=
  GCStats (minor_gc_count r) (major_gc_count r) (full_gc_count r) (total_gc_time_ns
    r) (last_gc_time_ns r) (max_gc_time_ns r) (h (total_mark_time_ns r))
    (total_sweep_time_ns r) (incremental_steps r) (idle_gc_steps r)
    (nursery_bytes_allocated r) (nursery_bytes_freed r) (promoted_bytes r)
    (swept_bytes r) (nursery_current_size r) (nursery_peak_size r) (pause_histogram
    r).

Definition upd_total_sweep_time_ns (h : Z -> Z) (r : LR_GCStats) : LR_GCStats :=
  GCStats (minor_gc_count r) (major_gc_count r) (full_gc_count r) (total_gc_time_ns
    r) (last_gc_time_ns r) (max_gc_time_ns r) (total_mark_time_ns r) (h
    (total_sweep_time_ns r)) (incremental_steps r) (idle_gc_steps r)
    (nursery_bytes_allocated r) (nursery_bytes_freed r) (promoted_bytes r)
    (swept_bytes r) (nursery_current_size r) (nursery_peak_size r) (pause_histogram
    r).

Definition upd_incremental_steps (h : Z -> Z) (r : LR_GCStats) : LR_GCStats :=
  GCStats (minor_gc_count r) (major_gc_count r) (full_gc_count r) (total_gc_time_ns
    r) (last_gc_time_ns r) (max_gc_time_ns r) (total_mark_time_ns r)
    (total_sweep_time_ns r) (h (incremental_steps r)) (idle_gc_steps r)
    (nursery_bytes_allocated r) (nursery_bytes_freed r) (promoted_bytes r)
    (swept_bytes r) (nursery_current_size r) (nursery_peak_size r) (pause_histogram
    r).

Definition upd_idle_gc_steps (h : Z -> Z) (r : LR_GCStats) : LR_GCStats :=
  GCStats (minor_gc_count r) (major_gc_count r) (full_gc_count r) (total_gc_time_ns
    r) (last_gc_time_ns r) (max_gc_time_ns r) (total_mark_time_ns r)
    (total_sweep_time_ns r) (incremental_steps r) (h (idle_gc_steps r))
    (nursery_bytes_allocated r) (nursery_bytes_freed r) (promoted_bytes r)
    (swept_bytes r) (nursery_current_size r) (nursery_peak_size r) (pause_histogram
    r).

Definition upd_nursery_bytes_allocated (h : Z -> Z) (r : LR_GCStats) : LR_GCStats :=
  GCStats (minor_gc_count r) (major_gc_count r) (full_gc_count r) (total_gc_time_ns
    r) (last_gc_time_ns r) (max_gc_time_ns r) (total_mark_time_ns r)
    (total_sweep_time_ns r) (incremental_steps r) (idle_gc_steps r) (h
    (nursery_bytes_allocated r)) (nursery_bytes_freed r) (promoted_bytes r)
    (swept_bytes r) (nursery_current_size r) (nursery_peak_size r) (pause_histogram
    r).

Definition upd_nursery_bytes_freed (h : Z -> Z) (r : LR_GCStats) : LR_GCStats :=
  GCStats (minor_gc_count r) (major_gc_count r) (full_gc_count r) (total_gc_time_ns
    r) (last_gc_time_ns r) (max_gc_time_ns r) (total_mark_time_ns r)
    (total_sweep_time_ns r) (incremental_steps r) (idle_gc_steps r)
    (nursery_bytes_allocated r) (h (nursery_bytes_freed r)) (promoted_bytes r)
    (swept_bytes r) (nursery_current_size r) (nursery_peak_size r) (pause_histogram
    r).

Definition upd_promoted_bytes (h : Z -> Z) (r : LR_GCStats) : LR_GCStats :=
  GCStats (minor_gc_count r) (major_gc_count r) (full_gc_count r) (total_gc_time_ns
    r) (last_gc_time_ns r) (max_gc_time_ns r) (total_mark_time_ns r)
    (total_sweep_time_ns r) (incremental_steps r) (idle_gc_steps r)
    (nursery_bytes_allocated r) (nursery_bytes_freed r) (h (promoted_bytes r))
    (swept_bytes r) (nursery_current_size r) (nursery_peak_size r) (pause_histogram
    r).

Definition upd_swept_bytes (h : Z -> Z) (r : LR_GCStats) : LR_GCStats :=
  GCStats (minor_gc_count r) (major_gc_count r) (full_gc_count r) (total_gc_time_ns
    r) (last_gc_time_ns r) (max_gc_time_ns r) (total_mark_time_ns r)
    (total_sweep_time_ns r) (incremental_steps r) (idle_gc_steps r)
    (nursery_bytes_allocated r) (nursery_bytes_freed r) (promoted_bytes r) (h
    (swept_bytes r)) (nursery_current_size r) (nursery_peak_size r) (pause_histogram
    r).

Definition upd_nursery_current_size (h : Z -> Z) (r : LR_GCStats) : LR_GCStats :=
  GCStats (minor_gc_count r) (major_gc_count r) (full_gc_count r) (total_gc_time_ns
    r) (last_gc_time_ns r) (max_gc_time_ns r) (total_mark_time_ns r)
    (total_sweep_time_ns r) (incremental_steps r) (idle_gc_steps r)
    (nursery_bytes_allocated r) (nursery_bytes_freed r) (promoted_bytes r)
    (swept_bytes r) (h (nursery_current_size r)) (nursery_peak_size r)
    (pause_histogram r).

Definition upd_nursery_peak_size (h : Z -> Z) (r : LR_GCStats) : LR_GCStats :=
  GCStats (minor_gc_count r) (major_gc_count r) (full_gc_count r) (total_gc_time_ns
    r) (last_gc_time_ns r) (max_gc_time_ns r) (total_mark_time_ns r)
    (total_sweep_time_ns r) (incremental_steps r) (idle_gc_steps r)
    (nursery_bytes_allocated r) (nursery_bytes_freed r) (promoted_bytes r)
    (swept_bytes r) (nursery_current_size r) (h (nursery_peak_size r))
    (pause_histogram r).

Definition upd_pause_histogram (h : list Z -> list Z) (r : LR_GCStats) : LR_GCStats :=
  GCStats (minor_gc_count r) (major_gc_count r) (full_gc_count r) (total_gc_time_ns
    r) (last_gc_time_ns r) (max_gc_time_ns r) (total_mark_time_ns r)
    (total_sweep_time_ns r) (incremental_steps r) (idle_gc_steps r)
    (nursery_bytes_allocated r) (nursery_bytes_freed r) (promoted_bytes r)
    (swept_bytes r) (nursery_current_size r) (nursery_peak_size r) (h
    (pause_histogram r)).

(** A nursery block: [b_top] and [b_size] are offsets from its base. *)
Record LR_NurseryBlock := NurseryBlock { b_id : nat; b_top : Z; b_size : Z }.

Inductive LR_GCPhase :=
  | PHASE_IDLE | PHASE_MARK_ROOTS | PHASE_MARK | PHASE_REMARK | PHASE_SWEEP | PHASE_COMPLETE.

(** The context.  [has_runtime] is [gc->runtime && gc->runtime->lr_rt],
    [engine_runs] the number of [lr_gc_run]s, [clock_reads] the number of clock
    readings, [last_major_gc_time] the function-static of [lr_gc_before_alloc].
    [next_id] names the next block. *)
Record GC := MkGC {
  config : LR_GCConfig;
  stats : LR_GCStats;
  nursery_blocks : list LR_NurseryBlock;
  nursery_current : option nat;
  nursery_age : Z;
  phase : LR_GCPhase;
  phase_in_progress : bool;
  mark_worklist : list Z;
  mark_entries : Z;
  mark_entries_done : Z;
  bytes_since_last_gc : Z;
  last_gc_check_time : Z;
  has_runtime : bool;
  engine_runs : Z;
  clock_reads : nat;
  last_major_gc_time : Z;
  next_id : nat
}.

Definition upd_config (h : LR_GCConfig -> LR_GCConfig) (r : GC) : GC :=
  MkGC (h (config r)) (stats r) (nursery_blocks r) (nursery_current r) (nursery_age
    r) (phase r) (phase_in_progress r) (mark_worklist r) (mark_entries r)
    (mark_entries_done r) (bytes_since_last_gc r) (last_gc_check_time r)
    (has_runtime r) (engine_runs r) (clock_reads r) (last_major_gc_time r) (next_id
    r).

Definition upd_stats (h : LR_GCStats -> LR_GCStats) (r : GC) : GC :=
  MkGC (config r) (h (stats r)) (nursery_blocks r) (nursery_current r) (nursery_age
    r) (phase r) (phase_in_progress r) (mark_worklist r) (mark_entries r)
    (mark_entries_done r) (bytes_since_last_gc r) (last_gc_check_time r)
    (has_runtime r) (engine_runs r) (clock_reads r) (last_major_gc_time r) (next_id
    r).

Definition upd_nursery_blocks (h : list LR_NurseryBlock -> list LR_NurseryBlock) (r : GC) : GC :=
  MkGC (config r) (stats r) (h (nursery_blocks r)) (nursery_current r) (nursery_age
    r) (phase r) (phase_in_progress r) (mark_worklist r) (mark_entries r)
    (mark_entries_done r) (bytes_since_last_gc r) (last_gc_check_time r)
    (has_runtime r) (engine_runs r) (clock_reads r) (last_major_gc_time r) (next_id
    r).

Definition upd_nursery_current (h : option nat -> option nat) (r : GC) : GC :=
  MkGC (config r) (stats r) (nursery_blocks r) (h (nursery_current r)) (nursery_age
    r) (phase r) (phase_in_progress r) (mark_worklist r) (mark_entries r)
    (mark_entries_done r) (bytes_since_last_gc r) (last_gc_check_time r)
    (has_runtime r) (engine_runs r) (clock_reads r) (last_major_gc_time r) (next_id
    r).

Definition upd_nursery_age (h : Z -> Z) (r : GC) : GC :=
  MkGC (config r) (stats r) (nursery_blocks r) (nursery_current r) (h (nursery_age
    r)) (phase r) (phase_in_progress r) (mark_worklist r) (mark_entries r)
    (mark_entries_done r) (bytes_since_last_gc r) (last_gc_check_time r)
    (has_runtime r) (engine_runs r) (clock_reads r) (last_major_gc_time r) (next_id
    r).

Definition upd_phase (h : LR_GCPhase -> LR_GCPhase) (r : GC) : GC :=
  MkGC (config r) (stats r) (nursery_blocks r) (nursery_current r) (nursery_age r)
    (h (phase r)) (phase_in_progress r) (mark_worklist r) (mark_entries r)
    (mark_entries_done r) (bytes_since_last_gc r) (last_gc_check_time r)
    (has_runtime r) (engine_runs r) (clock_reads r) (last_major_gc_time r) (next_id
    r).

Definition upd_phase_in_progress (h : bool -> bool) (r : GC) : GC :=
  MkGC (config r) (stats r) (nursery_blocks r) (nursery_current r) (nursery_age r)
    (phase r) (h (phase_in_progress r)) (mark_worklist r) (mark_entries r)
    (mark_entries_done r) (bytes_since_last_gc r) (last_gc_check_time r)
    (has_runtime r) (engine_runs r) (clock_reads r) (last_major_gc_time r) (next_id
    r).

Definition upd_mark_worklist (h : list Z -> list Z) (r : GC) : GC :=
  MkGC (config r) (stats r) (nursery_blocks r) (nursery_current r) (nursery_age r)
    (phase r) (phase_in_progress r) (h (mark_worklist r)) (mark_entries r)
    (mark_entries_done r) (bytes_since_last_gc r) (last_gc_check_time r)
    (has_runtime r) (engine_runs r) (clock_reads r) (last_major_gc_time r) (next_id
    r).

Definition upd_mark_entries (h : Z -> Z) (r : GC) : GC :=
  MkGC (config r) (stats r) (nursery_blocks r) (nursery_current r) (nursery_age r)
    (phase r) (phase_in_progress r) (mark_worklist r) (h (mark_entries r))
    (mark_entries_done r) (bytes_since_last_gc r) (last_gc_check_time r)
    (has_runtime r) (engine_runs r) (clock_reads r) (last_major_gc_time r) (next_id
    r).

Definition upd_mark_entries_done (h : Z -> Z) (r : GC) : GC :=
  MkGC (config r) (stats r) (nursery_blocks r) (nursery_current r) (nursery_age r)
    (phase r) (phase_in_progress r) (mark_worklist r) (mark_entries r) (h
    (mark_entries_done r)) (bytes_since_last_gc r) (last_gc_check_time r)
    (has_runtime r) (engine_runs r) (clock_reads r) (last_major_gc_time r) (next_id
    r).

Definition upd_bytes_since_last_gc (h : Z -> Z) (r : GC) : GC :=
  MkGC (config r) (stats r) (nursery_blocks r) (nursery_current r) (nursery_age r)
    (phase r) (phase_in_progress r) (mark_worklist r) (mark_entries r)
    (mark_entries_done r) (h (bytes_since_last_gc r)) (last_gc_check_time r)
    (has_runtime r) (engine_runs r) (clock_reads r) (last_major_gc_time r) (next_id
    r).

Definition upd_last_gc_check_time (h : Z -> Z) (r : GC) : GC :=
  MkGC (config r) (stats r) (nursery_blocks r) (nursery_current r) (nursery_age r)
    (phase r) (phase_in_progress r) (mark_worklist r) (mark_entries r)
    (mark_entries_done r) (bytes_since_last_gc r) (h (last_gc_check_time r))
    (has_runtime r) (engine_runs r) (clock_reads r) (last_major_gc_time r) (next_id
    r).

Definition upd_has_runtime (h : bool -> bool) (r : GC) : GC :=
  MkGC (config r) (stats r) (nursery_blocks r) (nursery_current r) (nursery_age r)
    (phase r) (phase_in_progress r) (mark_worklist r) (mark_entries r)
    (mark_entries_done r) (bytes_since_last_gc r) (last_gc_check_time r) (h
    (has_runtime r)) (engine_runs r) (clock_reads r) (last_major_gc_time r) (next_id
    r).

Definition upd_engine_runs (h : Z -> Z) (r : GC) : GC :=
  MkGC (config r) (stats r) (nursery_blocks r) (nursery_current r) (nursery_age r)
    (phase r) (phase_in_progress r) (mark_worklist r) (mark_entries r)
    (mark_entries_done r) (bytes_since_last_gc r) (last_gc_check_time r)
    (has_runtime r) (h (engine_runs r)) (clock_reads r) (last_major_gc_time r)
    (next_id r).

Definition upd_clock_reads (h : nat -> nat) (r : GC) : GC :=
  MkGC (config r) (stats r) (nursery_blocks r) (nursery_current r) (nursery_age r)
    (phase r) (phase_in_progress r) (mark_worklist r) (mark_entries r)
    (mark_entries_done r) (bytes_since_last_gc r) (last_gc_check_time r)
    (has_runtime r) (engine_runs r) (h (clock_reads r)) (last_major_gc_time r)
    (next_id r).

Definition upd_last_major_gc_time (h : Z -> Z) (r : GC) : GC :=
  MkGC (config r) (stats r) (nursery_blocks r) (nursery_current r) (nursery_age r)
    (phase r) (phase_in_progress r) (mark_worklist r) (mark_entries r)
    (mark_entries_done r) (bytes_since_last_gc r) (last_gc_check_time r)
    (has_runtime r) (engine_runs r) (clock_reads r) (h (last_major_gc_time r))
    (next_id r).

Definition upd_next_id (h : nat -> nat) (r : GC) : GC :=
  MkGC (config r) (stats r) (nursery_blocks r) (nursery_current r) (nursery_age r)
    (phase r) (phase_in_progress r) (mark_worklist r) (mark_entries r)
    (mark_entries_done r) (bytes_since_last_gc r) (last_gc_check_time r)
    (has_runtime r) (engine_runs r) (clock_reads r) (last_major_gc_time r) (h
    (next_id r)).

Definition zero_stats : LR_GCStats :=
  GCStats 0 0 0 0 0 0 0 0 0 0 0 0 0 0 0 0 (replicate 10 0).

(** [last_major] is the value the function-static has when the context is made. *)
Definition lr_gc_init (runtime : bool) (last_major : Z) : GC :=
  MkGC lr_gc_config_default zero_stats [] None 0 PHASE_IDLE false [] 0 0 0 0
       runtime 0 0 last_major 0.

Definition lr_gc_configure (cfg : option LR_GCConfig) (gc : GC) : GC :=
  match cfg with None => gc | Some c => upd_config (fun _ => c) gc end.

(** Counter updates. *)
Definition add_stat (upd : (Z -> Z) -> LR_GCStats -> LR_GCStats) (n : Z) (gc : GC) : GC :=
  upd_stats (upd (fun x => x + n)) gc.

Definition add_size (upd : (Z -> Z) -> LR_GCStats -> LR_GCStats) (n : Z) (gc : GC) : GC :=
  upd_stats (upd (fun x => u64 (x + n))) gc.

(** ** Nursery *)

(** Where an allocation lies: block and offset. *)
Record region := Region { r_block : nat; r_off : Z; r_size : Z }.

(** [(size + 7) & ~7UL] *)
Definition align8 (size : Z) : Z := Z.land (u64 (size + 7)) (2 ^ 64 - 8).

(** The statistics of a nursery allocation. *)
Definition count_nursery (size : Z) (gc : GC) : GC :=
  let gc1 := add_size upd_nursery_current_size size
               (add_size upd_nursery_bytes_allocated size gc) in
  let cur := nursery_current_size (stats gc1) in
  if cur >? nursery_peak_size (stats gc1)
  then upd_stats (upd_nursery_peak_size (fun _ => cur)) gc1 else gc1.

Definition find_block (id : nat) (l : list LR_NurseryBlock) : option LR_NurseryBlock :=
  snd <$> list_find (fun b => b_id b = id) l.

(** [top += size], an address of 64 bits. *)
Definition bump (addr : nat -> Z) (id : nat) (size : Z) (l : list LR_NurseryBlock)
    : list LR_NurseryBlock :=
  map (fun b => if decide (b_id b = id)
                then NurseryBlock (b_id b) (u64 (addr id + b_top b + size) - addr id) (b_size b)
                else b) l.

(** The current block, when [top + size <= end]; the addresses may wrap. *)
Definition room (addr : nat -> Z) (size : Z) (gc : GC) : option LR_NurseryBlock :=
  match nursery_current gc with
  | None => None
  | Some id =>
      match find_block id (nursery_blocks gc) with
      | None => None
      | Some b =>
          if u64 (addr id + b_top b + size) <=? u64 (addr id + b_size b) then Some b else None
      end
  end.

Definition lr_gc_nursery_block_new (calloc_ok : alloc_result) (malloc_ok : Z -> alloc_result)
    (id : nat) (size : Z) : option LR_NurseryBlock :=
  if negb calloc_ok then None
  else if negb (malloc_ok size) then None
  else Some (NurseryBlock id 0 size).

(** The allocation from a new block. *)
Definition nursery_grow (calloc_ok : alloc_result) (malloc_ok : Z -> alloc_result)
    (size : Z) (gc : GC) : option region * GC :=
  let ns := nursery_size (config gc) in
  let block_size := if size >? ns then size else ns in
  match lr_gc_nursery_block_new calloc_ok malloc_ok (next_id gc) block_size with
  | None => (None, gc)
  | Some b =>
      (Some (Region (b_id b) 0 size),
       count_nursery size
         (upd_next_id S
            (upd_nursery_current (fun _ => Some (b_id b))
               (upd_nursery_blocks
                  (fun l => NurseryBlock (b_id b) (b_top b + size) (b_size b) :: l) gc))))
  end.

Definition lr_gc_nursery_alloc (addr : nat -> Z) (calloc_ok : alloc_result) (malloc_ok : Z -> alloc_result)
    (size : Z) (gc : GC) : option region * GC :=
  if negb (generational_enabled (config gc)) then (None, gc)
  else
    let size := align8 size in
    match room addr size gc with
    | Some b =>
        (Some (Region (b_id b) (b_top b) size),
         count_nursery size (upd_nursery_blocks (bump addr (b_id b) size) gc))
    | None => nursery_grow calloc_ok malloc_ok size gc
    end.

Definition lr_gc_track_allocation (bytes : Z) (gc : GC) : GC :=
  upd_bytes_since_last_gc (fun b => u64 (b + bytes)) gc.

(** ** Pauses *)

Definition pause_bucket (pause_ms : Z) : nat :=
  if pause_ms <? 1 then 0 else if pause_ms <? 2 then 1 else if pause_ms <? 5 then 2
  else if pause_ms <? 10 then 3 else if pause_ms <? 20 then 4 else if pause_ms <? 50 then 5
  else if pause_ms <? 100 then 6 else if pause_ms <? 200 then 7
  else if pause_ms <? 500 then 8 else 9.

Definition lr_gc_record_pause (pause_ns : Z) (gc : GC) : GC :=
  let pause_ms := Z.quot pause_ns 1000000 in
  let s1 := upd_last_gc_time_ns (fun _ => pause_ns) (stats gc) in
  let s2 := upd_total_gc_time_ns (fun t => t + pause_ns) s1 in
  let s3 := if pause_ns >? max_gc_time_ns s2
            then upd_max_gc_time_ns (fun _ => pause_ns) s2 else s2 in
  let s4 := upd_pause_histogram
              (fun h => alter (fun n => n + 1) (pause_bucket pause_ms) h) s3 in
  upd_stats (fun _ => s4) gc.

(** [if (gc->runtime && gc->runtime->lr_rt) lr_gc_run(...)] *)
Definition engine_gc (gc : GC) : GC :=
  if has_runtime gc then upd_engine_runs (fun n => n + 1) gc else gc.

(** [b_top] of every block goes back to 0, its bytes count as freed. *)
Definition clear_nursery (gc : GC) : GC :=
  let used := map b_top (nursery_blocks gc) in
  let gc1 := fold_left (fun g u => add_size upd_nursery_bytes_freed u g) used gc in
  let gc2 := upd_nursery_blocks
               (map (fun b => NurseryBlock (b_id b) 0 (b_size b))) gc1 in
  upd_stats (upd_nursery_current_size (fun _ => 0)) gc2.

Section Clock.

(** The value of each reading of the monotonic clock. *)
Variable clock : nat -> Z.

(** [lr_gc_now_ns()] *)
Definition lr_gc_now_ns (gc : GC) : Z * GC :=
  (clock (clock_reads gc), upd_clock_reads S gc).

(** ** Collections *)

Definition lr_gc_minor (gc : GC) : GC :=
  let '(start, gc) := lr_gc_now_ns gc in
  let gc := add_stat upd_minor_gc_count 1 gc in
  let gc := engine_gc gc in
  let gc := clear_nursery gc in
  let gc := upd_nursery_age (fun a => a + 1) gc in
  let gc :=
    if nursery_age gc >=? promotion_age (config gc) then
      let s := stats gc in
      upd_nursery_age (fun _ => 0)
        (add_size upd_promoted_bytes
           (u64 (nursery_bytes_allocated s - nursery_bytes_freed s)) gc)
    else gc in
  let gc := upd_bytes_since_last_gc (fun _ => 0) gc in
  let '(now, gc) := lr_gc_now_ns gc in
  lr_gc_record_pause (now - start) gc.

Definition lr_gc_full (gc : GC) : GC :=
  let '(start, gc) := lr_gc_now_ns gc in
  let gc := add_stat upd_full_gc_count 1 gc in
  let gc := engine_gc gc in
  let gc := clear_nursery gc in
  let gc := upd_nursery_age (fun _ => 0) gc in
  let gc := upd_bytes_since_last_gc (fun _ => 0) gc in
  let '(now, gc) := lr_gc_now_ns gc in
  lr_gc_record_pause (now - start) gc.

(** ** The incremental cycle *)

Definition lr_gc_incremental_start (gc : GC) : GC :=
  upd_mark_worklist (fun _ => [])
    (upd_mark_entries_done (fun _ => 0)
       (upd_mark_entries (fun _ => 0)
          (upd_phase_in_progress (fun _ => true)
             (upd_phase (fun _ => PHASE_MARK_ROOTS) gc)))).

(** The statistics reading at the end of a phase. *)
Definition charge (upd : (Z -> Z) -> LR_GCStats -> LR_GCStats) (start : Z) (gc : GC) : GC :=
  let '(now, gc) := lr_gc_now_ns gc in add_stat upd (now - start) gc.

(** One step; the boolean is the [int] result.  The C code also clears
    [sweep_cursor] and [sweep_generation], which nothing reads. *)
Definition lr_gc_incremental_step (gc : GC) : bool * GC :=
  if negb (phase_in_progress gc) then (false, gc)
  else
    let '(start, gc) := lr_gc_now_ns gc in
    match phase gc with
    | PHASE_IDLE => (false, upd_phase_in_progress (fun _ => false) gc)
    | PHASE_MARK_ROOTS =>
        let gc := engine_gc gc in
        let gc := upd_mark_entries_done (fun _ => mark_entries gc) gc in
        let gc := upd_phase (fun _ => PHASE_MARK) gc in
        (true, charge upd_total_mark_time_ns start gc)
    | PHASE_MARK =>
        let processed := Z.min (zlen (mark_worklist gc))
                               (Z.max 0 (mark_step_size (config gc))) in
        let gc := upd_mark_entries_done (fun d => d + processed) gc in
        let gc := if mark_entries_done gc >=? mark_entries gc
                  then upd_phase (fun _ => PHASE_SWEEP) gc else gc in
        (true, charge upd_total_mark_time_ns start gc)
    | PHASE_REMARK => (true, upd_phase (fun _ => PHASE_SWEEP) gc)
    | PHASE_SWEEP =>
        let n := Z.to_nat (sweep_step_size (config gc)) in
        let swept := take n (nursery_blocks gc) in
        let gc := fold_left (fun g b => add_size upd_swept_bytes (b_top b) g) swept gc in
        let gc := match drop n (nursery_blocks gc) with
                  | [] => upd_phase (fun _ => PHASE_COMPLETE) gc
                  | _ => gc
                  end in
        (true, charge upd_total_sweep_time_ns start gc)
    | PHASE_COMPLETE =>
        (false, upd_phase_in_progress (fun _ => false) (upd_phase (fun _ => PHASE_IDLE) gc))
    end.

(** The stepping loop of [lr_gc_major]: steps until the cycle is done ([inl])
    or the pause target is reached ([inr], with the elapsed time).  [None]: the
    fuel ran out. *)
Fixpoint major_loop (fuel : nat) (step_start steps : Z) (gc : GC)
    : option ((Z * GC) + (Z * Z * GC)) :=
  match fuel with
  | O => None
  | S fuel' =>
      let '(more, gc) := lr_gc_incremental_step gc in
      if negb more then Some (inl (steps, gc))
      else
        let steps := steps + 1 in
        let '(now, gc) := lr_gc_now_ns gc in
        if now - step_start >=? pause_target_ns (config gc)
        then Some (inr (steps, now - step_start, gc))
        else major_loop fuel' step_start steps gc
  end.

Definition finish_major (start : Z) (gc : GC) : GC :=
  let gc := upd_bytes_since_last_gc (fun _ => 0) gc in
  let '(now, gc) := lr_gc_now_ns gc in
  lr_gc_record_pause (now - start) gc.

Definition lr_gc_major (fuel : nat) (gc : GC) : option GC :=
  let '(start, gc) := lr_gc_now_ns gc in
  let gc := add_stat upd_major_gc_count 1 gc in
  let gc := lr_gc_minor gc in
  if incremental_enabled (config gc) then
    let gc := lr_gc_incremental_start gc in
    let '(step_start, gc) := lr_gc_now_ns gc in
    match major_loop fuel step_start 0 gc with
    | None => None
    | Some (inr (steps, elapsed, gc)) =>
        let gc := add_stat upd_incremental_steps steps gc in
        let gc := add_stat upd_total_mark_time_ns elapsed gc in
        let '(now, gc) := lr_gc_now_ns gc in
        Some (lr_gc_record_pause (now - start) gc)
    | Some (inl (steps, gc)) =>
        Some (finish_major start (add_stat upd_incremental_steps steps gc))
    end
  else Some (finish_major start (engine_gc gc)).

(** ** Idle work and hooks *)

Fixpoint idle_loop (fuel : nat) (deadline : Z) (gc : GC) : option GC :=
  match fuel with
  | O => None
  | S fuel' =>
      let '(more, gc) := lr_gc_incremental_step gc in
      if negb more then Some gc
      else
        let gc := add_stat upd_idle_gc_steps 1 gc in
        let '(now, gc) := lr_gc_now_ns gc in
        if now >=? deadline then Some gc else idle_loop fuel' deadline gc
  end.

Definition lr_gc_idle_work (fuel : nat) (gc : GC) : option GC :=
  if negb (idle_gc_enabled (config gc)) then Some gc
  else
    let '(now, gc) := lr_gc_now_ns gc in
    if phase_in_progress gc then
      idle_loop fuel (now + idle_gc_step_ms (config gc) * 1000000) gc
    else
      let elapsed := now - last_gc_check_time gc in
      if (elapsed >=? major_gc_interval_ms (config gc) * 1000000)
         && (bytes_since_last_gc gc >? 0)
      then upd_last_gc_check_time (fun _ => now) <$> lr_gc_major fuel gc
      else Some gc.

Definition lr_gc_before_alloc (fuel : nat) (gc : GC) : option GC :=
  if stress_mode (config gc) then Some (lr_gc_full gc)
  else
    let gc := if phase_in_progress gc then (lr_gc_incremental_step gc).2 else gc in
    if bytes_since_last_gc gc >=? allocation_threshold (config gc) then
      let '(now, gc) := lr_gc_now_ns gc in
      if now - last_gc_check_time gc >=? minor_gc_interval_ms (config gc) * 1000000 then
        let gc := upd_last_gc_check_time (fun _ => now) (lr_gc_minor gc) in
        if now - last_major_gc_time gc >=? major_gc_interval_ms (config gc) * 1000000 then
          (fun gc => upd_last_major_gc_time (fun _ => now) gc) <$>
          (if incremental_enabled (config gc)
           then Some (lr_gc_incremental_step (lr_gc_incremental_start gc)).2
           else lr_gc_major fuel gc)
        else Some gc
      else Some gc
    else Some gc.

Definition lr_gc_after_alloc (bytes : Z) (gc : GC) : GC :=
  count_nursery bytes (lr_gc_track_allocation bytes gc).

End Clock.

Definition lr_gc_phase_name (gc : GC) : string :=
  match phase gc with
  | PHASE_IDLE => "idle" | PHASE_MARK_ROOTS => "mark-roots" | PHASE_MARK => "mark"
  | PHASE_REMARK => "remark" | PHASE_SWEEP => "sweep" | PHASE_COMPLETE => "complete"
  end%string.

Definition lr_gc_get_stats (gc : GC) : LR_GCStats := stats gc.
Definition lr_gc_ctx_reset_stats (gc : GC) : GC := upd_stats (fun _ => zero_stats) gc.

(** ** Operations as steps *)

Inductive gc_op :=
  | OpConfigure (cfg : option LR_GCConfig)
  | OpAlloc (calloc_ok : alloc_result) (malloc_ok : Z -> alloc_result) (size : Z)
  | OpTrack (bytes : Z) | OpMinor | OpMajor | OpFull | OpStart | OpStep | OpIdle
  | OpBeforeAlloc | OpAfterAlloc (bytes : Z) | OpReset.

Definition gc_exec (addr clock : nat -> Z) (fuel : nat) (op : gc_op) (gc : GC) : option GC :=
  match op with
  | OpConfigure c => Some (lr_gc_configure c gc)
  | OpAlloc c m s => Some (lr_gc_nursery_alloc addr c m s gc).2
  | OpTrack n => Some (lr_gc_track_allocation n gc)
  | OpMinor => Some (lr_gc_minor clock gc)
  | OpMajor => lr_gc_major clock fuel gc
  | OpFull => Some (lr_gc_full clock gc)
  | OpStart => Some (lr_gc_incremental_start gc)
  | OpStep => Some (lr_gc_incremental_step clock gc).2
  | OpIdle => lr_gc_idle_work clock fuel gc
  | OpBeforeAlloc => lr_gc_before_alloc clock fuel gc
  | OpAfterAlloc n => Some (lr_gc_after_alloc n gc)
  | OpReset => Some (lr_gc_ctx_reset_stats gc)
  end.

(** States of a context from [lr_gc_init] on, by operations of a kind, and by any. *)
Inductive reachable_by (P : gc_op -> Prop) (addr clock : nat -> Z) : GC -> Prop :=
  | reach_init runtime last_major : reachable_by P addr clock (lr_gc_init runtime last_major)
  | reach_step fuel op gc gc' :
      reachable_by P addr clock gc -> P op -> gc_exec addr clock fuel op gc = Some gc' ->
      reachable_by P addr clock gc'.

Definition reachable : (nat -> Z) -> (nat -> Z) -> GC -> Prop := reachable_by (fun _ => True).

(** An invariant that the primitive updates keep is kept by every operation:
    the collections are sequences of these primitives. *)
Record gc_invariant (P : gc_op -> Prop) (addr clock : nat -> Z) (I : GC -> Prop) : Prop := {
  inv_configure c gc : I gc -> I (lr_gc_configure c gc);
  inv_alloc c m s gc :
    P (OpAlloc c m s) -> I gc -> I (lr_gc_nursery_alloc addr c m s gc).2;
  inv_track n gc : I gc -> I (lr_gc_track_allocation n gc);
  inv_minor gc : I gc -> I (lr_gc_minor clock gc);
  inv_full gc : I gc -> I (lr_gc_full clock gc);
  inv_start gc : I gc -> I (lr_gc_incremental_start gc);
  inv_step gc : I gc -> I (lr_gc_incremental_step clock gc).2;
  inv_after n gc : I gc -> I (lr_gc_after_alloc n gc);
  inv_reset gc : I gc -> I (lr_gc_ctx_reset_stats gc);
  inv_major fuel gc gc' : I gc -> lr_gc_major clock fuel gc = Some gc' -> I gc';
  inv_read gc : I gc -> I (upd_clock_reads S gc);
  inv_idle_steps gc : I gc -> I (add_stat upd_idle_gc_steps 1 gc);
  inv_check t gc : I gc -> I (upd_last_gc_check_time (fun _ => t) gc);
  inv_last_major t gc : I gc -> I (upd_last_major_gc_time (fun _ => t) gc)
}.

#[local] Opaque lr_gc_minor lr_gc_full lr_gc_incremental_step lr_gc_incremental_start
  lr_gc_major lr_gc_nursery_alloc lr_gc_after_alloc lr_gc_init.

Lemma idle_loop_inv P addr clock I fuel deadline gc gc' :
  gc_invariant P addr clock I -> I gc -> idle_loop clock fuel deadline gc = Some gc' -> I gc'.
Proof.
  intros HI. revert gc. induction fuel as [|fuel IH]; intros gc Hg E; [done|].
  cbn [idle_loop] in E.
  destruct (lr_gc_incremental_step clock gc) as [more g1] eqn:Es.
  assert (I g1) as H1 by (pose proof (inv_step _ _ _ _ HI gc Hg) as H; by rewrite Es in H).
  destruct more; cbn [negb] in E; [|by simplify_eq].
  unfold lr_gc_now_ns in E. cbv zeta in E. case_if_in E; [simplify_eq|eapply IH; [|done]];
    by apply (inv_read _ _ _ _ HI), (inv_idle_steps _ _ _ _ HI).
Qed.

Lemma reachable_inv P addr clock I gc :
  gc_invariant P addr clock I -> (forall r lm, I (lr_gc_init r lm)) ->
  reachable_by P addr clock gc -> I gc.
Proof.
  intros HI H0. induction 1 as [r lm|fuel op gc gc' _ IH HP E]; [done|].
  destruct op; cbn [gc_exec] in E; try (apply (inj Some) in E as <-; by apply HI).
  - by eapply (inv_major _ _ _ _ HI).
  - unfold lr_gc_idle_work, lr_gc_now_ns in E. cbv zeta in E.
    case_if_in E; [by simplify_eq|]. pose proof (inv_read _ _ _ _ HI gc IH) as Hr.
    case_if_in E; [by eapply idle_loop_inv|]. case_if_in E; [|by simplify_eq].
    apply fmap_Some in E as (g & E & ->). apply (inv_check _ _ _ _ HI).
    by eapply (inv_major _ _ _ _ HI).
  - unfold lr_gc_before_alloc, lr_gc_now_ns in E. cbv zeta in E.
    case_if_in E; [apply (inj Some) in E as <-; by apply HI|].
    set (g1 := if phase_in_progress gc then _ else _) in E.
    assert (I g1) as H1 by (unfold g1; case_if; [by apply HI|done]).
    case_if_in E; [|by simplify_eq].
    pose proof (inv_read _ _ _ _ HI g1 H1) as H2. case_if_in E; [|by simplify_eq].
    set (g2 := upd_last_gc_check_time _ _) in E.
    assert (I g2) as H3 by (by apply (inv_check _ _ _ _ HI), (inv_minor _ _ _ _ HI)).
    case_if_in E; [|by simplify_eq]. apply fmap_Some in E as (g & E & ->).
    apply (inv_last_major _ _ _ _ HI). case_if_in E; [|by eapply (inv_major _ _ _ _ HI)].
    apply (inj Some) in E as <-. by apply (inv_step _ _ _ _ HI), (inv_start _ _ _ _ HI).
Qed.

#[local] Transparent lr_gc_minor lr_gc_full lr_gc_incremental_step lr_gc_incremental_start
  lr_gc_major lr_gc_nursery_alloc lr_gc_after_alloc lr_gc_init.

Lemma major_loop_inv clock (I : GC -> Prop) fuel start steps gc res :
  (forall g, I g -> I (lr_gc_incremental_step clock g).2) ->
  (forall g, I g -> I (upd_clock_reads S g)) -> I gc ->
  major_loop clock fuel start steps gc = Some res ->
  match res with inl (_, g) => I g | inr (_, _, g) => I g end.
Proof.
  intros Hs Hr. revert steps gc. induction fuel as [|fuel IH]; intros steps gc Hg E; [done|].
  cbn [major_loop] in E. specialize (Hs gc Hg).
  destruct (lr_gc_incremental_step clock gc) as [more g1]. cbn [snd] in Hs.
  destruct more; cbn [negb] in E; [|by apply (inj Some) in E as <-].
  unfold lr_gc_now_ns in E. cbv zeta in E. case_if_in E.
  - apply (inj Some) in E as <-. auto.
  - eapply IH; [|done]. auto.
Qed.

Create Rewrite HintDb gc_nview.

(** ** The nursery *)

(** The part of a context the allocator works on. *)
Definition nview (gc : GC) : list LR_NurseryBlock * nat := (nursery_blocks gc, next_id gc).

Definition block_ok (n : nat) (b : LR_NurseryBlock) : Prop :=
  0 <= b_top b <= b_size b /\ b_size b < 2 ^ 62 /\ b_top b mod 8 = 0 /\ (b_id b < n)%nat.

Definition nursery_ok (v : list LR_NurseryBlock * nat) : Prop :=
  Forall (block_ok v.2) v.1 /\ NoDup (map b_id v.1).

Definition reset_block (b : LR_NurseryBlock) : LR_NurseryBlock :=
  NurseryBlock (b_id b) 0 (b_size b).

Lemma fold_add_size_nview {A} upd (f : A -> Z) (l : list A) gc :
  nview (fold_left (fun g x => add_size upd (f x) g) l gc) = nview gc.
Proof. revert gc. induction l as [|x l IH]; intros gc; [done|]. cbn. by rewrite IH. Qed.

Lemma count_nursery_nview n gc : nview (count_nursery n gc) = nview gc.
Proof. unfold count_nursery. by case_if. Qed.

Lemma engine_gc_nview gc : nview (engine_gc gc) = nview gc.
Proof. unfold engine_gc. by case_if. Qed.

Lemma clear_nursery_nview gc :
  nview (clear_nursery gc) = (map reset_block (nursery_blocks gc), next_id gc).
Proof.
  unfold clear_nursery. pose proof (fold_add_size_nview upd_nursery_bytes_freed id
    (map b_top (nursery_blocks gc)) gc) as E. cbv [id] in E.
  unfold nview in *. cbn. by injection E as -> ->.
Qed.

Lemma minor_nview clock gc :
  nview (lr_gc_minor clock gc) = (map reset_block (nursery_blocks gc), next_id gc).
Proof.
  unfold lr_gc_minor, lr_gc_now_ns. cbv zeta.
  change (nview (lr_gc_record_pause ?p (upd_clock_reads S (upd_bytes_since_last_gc ?h ?g))))
    with (nview g).
  set (g1 := engine_gc _).
  assert (nview (clear_nursery g1) = (map reset_block (nursery_blocks gc), next_id gc)) as E.
  { rewrite clear_nursery_nview. unfold g1, engine_gc. by case_if. }
  by case_if.
Qed.

Lemma full_nview clock gc :
  nview (lr_gc_full clock gc) = (map reset_block (nursery_blocks gc), next_id gc).
Proof.
  unfold lr_gc_full, lr_gc_now_ns. cbv zeta.
  change (nview (lr_gc_record_pause ?p (upd_clock_reads S (upd_bytes_since_last_gc ?h
    (upd_nursery_age ?k ?g))))) with (nview g).
  rewrite clear_nursery_nview. unfold engine_gc. by case_if.
Qed.

Lemma step_nview clock gc : nview (lr_gc_incremental_step clock gc).2 = nview gc.
Proof.
  unfold lr_gc_incremental_step, lr_gc_now_ns, charge. cbv zeta. case_if; [done|].
  destruct (phase _); cbn [snd]; try done.
  - unfold lr_gc_now_ns. cbv zeta. unfold engine_gc. by case_if.
  - unfold lr_gc_now_ns. cbv zeta. by case_if.
  - unfold lr_gc_now_ns. cbv zeta.
    change (nview (add_stat ?u ?n (upd_clock_reads S ?g))) with (nview g).
    destruct (drop _ _); [change (nview (upd_phase ?h ?g)) with (nview g)|];
      by rewrite fold_add_size_nview.
Qed.

Lemma nursery_ok_reset bs n : nursery_ok (bs, n) -> nursery_ok (map reset_block bs, n).
Proof.
  intros [Hb Hn]. split; cbn [fst snd] in *.
  - apply Forall_map. eapply Forall_impl; [exact Hb|]. intros b (? & ? & ? & ?).
    unfold block_ok. cbn. split_and!; [lia|lia|lia|done|done].
  - by rewrite map_map.
Qed.

Lemma align8_spec s :
  0 <= align8 s /\ align8 s mod 8 = 0 /\ (0 <= s <= 2 ^ 64 - 8 -> s <= align8 s <= s + 7).
Proof.
  unfold align8. pose proof (Z.mod_pos_bound (s + 7) (2 ^ 64) ltac:(lia)) as Hr.
  fold (u64 (s + 7)) in Hr. set (x := u64 (s + 7)) in *.
  assert (Z.land x (2 ^ 64 - 8) = 8 * (x / 8)) as ->.
  { change (2 ^ 64 - 8) with (Z.ldiff (Z.ones 64) (Z.ones 3)).
    rewrite Z.ldiff_land, Z.land_assoc, Z.land_ones, Z.mod_small by lia.
    rewrite <- Z.ldiff_land, Z.ldiff_ones_r by lia.
    rewrite Z.shiftr_div_pow2, Z.shiftl_mul_pow2 by lia. change (2 ^ 3) with 8. lia. }
  split_and!; [divlia|divlia|]. intros Hs. unfold x, u64. rewrite Z.mod_small by lia. divlia.
Qed.

(** Blocks lie low in the address space, and no more is asked for or got than fits
    there. *)
Definition low_addresses (addr : nat -> Z) : Prop := forall id, 0 <= addr id < 2 ^ 62.

Definition small_request (malloc_ok : Z -> alloc_result) (s : Z) : Prop :=
  (forall n, malloc_ok n = true -> n < 2 ^ 62) /\ 0 <= s < 2 ^ 62 - 8.

Definition small_op (op : gc_op) : Prop :=
  match op with OpAlloc _ m s => small_request m s | _ => True end.

Definition disjoint_regions (r1 r2 : region) : Prop :=
  r_block r1 <> r_block r2 \/ r_off r1 + r_size r1 <= r_off r2 \/
  r_off r2 + r_size r2 <= r_off r1.

(** Space an allocation may still hand out. *)
Definition unused (v : list LR_NurseryBlock * nat) (r : region) : Prop :=
  (v.2 <= r_block r)%nat \/
  exists b, b ∈ v.1 /\ b_id b = r_block r /\ b_top b <= r_off r.

(** A region handed out, inside its block. *)
Definition allocated (v : list LR_NurseryBlock * nat) (r : region) : Prop :=
  0 <= r_off r /\ r_off r mod 8 = 0 /\
  exists b, b ∈ v.1 /\ b_id b = r_block r /\ r_off r + r_size r <= b_top b <= b_size b.

(** What one allocation does to the nursery. *)
Record alloc_effect (v v' : list LR_NurseryBlock * nat) (r : region) : Prop := {
  ae_ok : nursery_ok v';
  ae_unused : unused v r;
  ae_allocated : allocated v' r;
  ae_keep r' : allocated v r' -> allocated v' r';
  ae_disjoint r' : allocated v r' -> disjoint_regions r' r
}.

Lemma find_block_spec id bs b :
  find_block id bs = Some b -> b ∈ bs /\ b_id b = id.
Proof.
  unfold find_block. intros H. apply fmap_Some in H as ([i b'] & H & ->).
  apply list_find_Some in H as (H & ? & _). split; [|done].
  by eapply list_elem_of_lookup_2.
Qed.

Lemma bump_ids addr id n bs : map b_id (bump addr id n bs) = map b_id bs.
Proof. unfold bump. rewrite map_map. apply map_ext. intros b. by case_decide. Qed.

Lemma bumped (addr : nat -> Z) id top n :
  0 <= addr id + top + n < 2 ^ 64 -> u64 (addr id + top + n) - addr id = top + n.
Proof. intros H. rewrite u64_small by done. lia. Qed.

Lemma elem_of_bump addr id n bs b :
  b ∈ bs ->
  NurseryBlock (b_id b)
    (if decide (b_id b = id) then u64 (addr id + b_top b + n) - addr id else b_top b)
    (b_size b) ∈ bump addr id n bs.
Proof.
  intros H. unfold bump. apply list_elem_of_In, in_map_iff. exists b. split.
  - case_decide; [done|by destruct b].
  - by apply list_elem_of_In.
Qed.

Lemma nodup_block bs b1 b2 :
  NoDup (map b_id bs) -> b1 ∈ bs -> b2 ∈ bs -> b_id b1 = b_id b2 -> b1 = b2.
Proof.
  induction bs as [|b bs IH]; intros Hn H1 H2 E; [by apply not_elem_of_nil in H1|].
  cbn in Hn. apply NoDup_cons in Hn as [Hnot Hn].
  assert (forall x, x ∈ bs -> b_id x <> b_id b) as Hne.
  { intros x Hx Ex. apply Hnot, list_elem_of_In, in_map_iff. exists x.
    split; [done|by apply list_elem_of_In]. }
  apply elem_of_cons in H1 as [->|H1], H2 as [->|H2]; [done| | |by apply IH];
    exfalso; by eapply Hne.
Qed.

Lemma alloc_bump addr bs n b size :
  low_addresses addr ->
  nursery_ok (bs, n) -> b ∈ bs -> b_top b + size <= b_size b -> 0 <= size -> size mod 8 = 0 ->
  alloc_effect (bs, n) (bump addr (b_id b) size bs, n) (Region (b_id b) (b_top b) size).
Proof.
  intros Hlow [Hok Hnd] Hb Hroom Hsz Hal. cbn [fst snd] in *.
  rewrite Forall_forall in Hok. pose proof (Hok b Hb) as (Hb1 & Hb2 & Hb3 & Hb4).
  pose proof (bumped addr (b_id b) (b_top b) size ltac:(specialize (Hlow (b_id b)); lia)) as Eb.
  split; cbn [fst snd].
  - split; cbn [fst snd]; [|by rewrite bump_ids].
    unfold bump. apply Forall_map, Forall_forall. intros b' Hb'.
    pose proof (Hok b' Hb') as (? & ? & ?). case_decide as E; [|done].
    assert (b' = b) as -> by (by eapply nodup_block). unfold block_ok. cbn. rewrite Eb.
    split_and!; [lia|lia|lia| |done]. rewrite Z.add_mod, Hb3, Hal by lia. done.
  - right. exists b. split_and!; [done|done|cbn; lia].
  - split_and!; cbn; [lia|done|]. eexists. split; [by apply (elem_of_bump addr (b_id b) size)|].
    cbn. rewrite decide_True by done. split; [done|lia].
  - intros r' (? & ? & b' & Hb' & ? & ?). split_and!; [done|done|].
    eexists. split; [by apply (elem_of_bump addr (b_id b) size)|]. cbn. split; [done|].
    case_decide as E; [|lia]. assert (b' = b) as -> by (by eapply nodup_block). lia.
  - intros r' (? & ? & b' & Hb' & Hid & ?). unfold disjoint_regions. cbn.
    destruct (decide (r_block r' = b_id b)) as [E|]; [|by left]. right. left.
    assert (b' = b) as -> by (eapply nodup_block; [done..|congruence]). lia.
Qed.

Lemma alloc_new_block bs n size bsize :
  nursery_ok (bs, n) -> 0 <= size <= bsize -> bsize < 2 ^ 62 -> size mod 8 = 0 ->
  alloc_effect (bs, n) (NurseryBlock n (0 + size) bsize :: bs, S n) (Region n 0 size).
Proof.
  intros [Hok Hnd] Hsz Hbs Hal. cbn [fst snd] in *. split; cbn [fst snd].
  - split; cbn [fst snd].
    + apply Forall_cons. split; [unfold block_ok; cbn; split_and!; [lia|lia|lia|done|lia]|].
      eapply Forall_impl; [exact Hok|]. intros b (? & ? & ? & ?). unfold block_ok.
      split_and!; lia.
    + cbn. apply NoDup_cons. split; [|done]. intros Hin.
      apply list_elem_of_In, in_map_iff in Hin as (b & E & Hb).
      rewrite Forall_forall in Hok. apply list_elem_of_In in Hb.
      destruct (Hok b Hb) as (_ & _ & _ & ?). lia.
  - left. cbn. lia.
  - split_and!; cbn; [lia|done|]. eexists. split; [by left|]. cbn. split; [done|lia].
  - intros r' (? & ? & b' & Hb' & ? & ?). split_and!; [done|done|].
    exists b'. split_and!; [by right|done|lia..].
  - intros r' (? & ? & b' & Hb' & Hid & ?). left. cbn. rewrite <- Hid.
    rewrite Forall_forall in Hok. destruct (Hok b' Hb') as (_ & _ & _ & ?). lia.
Qed.

Lemma nursery_grow_effect c m size gc :
  (forall n, m n = true -> n < 2 ^ 62) ->
  nursery_ok (nview gc) -> 0 <= size -> size mod 8 = 0 ->
  match nursery_grow c m size gc with
  | (None, gc') => gc' = gc
  | (Some r, gc') => alloc_effect (nview gc) (nview gc') r /\ r_size r = size
  end.
Proof.
  intros Hm Hok H0 H8. unfold nursery_grow, lr_gc_nursery_block_new.
  set (bsize := if size >? nursery_size (config gc) then _ else _).
  assert (size <= bsize)
    by (unfold bsize; destruct (Z.gtb_spec size (nursery_size (config gc))); lia).
  destruct (negb c); [done|]. destruct (m bsize) eqn:Em; [|done]. apply Hm in Em. cbn [negb].
  rewrite count_nursery_nview. split; [|done]. by apply alloc_new_block.
Qed.

Lemma room_spec addr size gc b :
  low_addresses addr -> nursery_ok (nview gc) -> 0 <= size < 2 ^ 62 ->
  room addr size gc = Some b -> b ∈ nursery_blocks gc /\ b_top b + size <= b_size b.
Proof.
  intros Hlow [Hok _] Hsz. unfold room. destruct (nursery_current gc) as [id|]; [|done].
  destruct (find_block id (nursery_blocks gc)) as [b'|] eqn:E; [|done].
  apply find_block_spec in E as [Hb _]. rewrite Forall_forall in Hok.
  destruct (Hok b' Hb) as (? & ? & _). specialize (Hlow id). rewrite !u64_small by lia.
  destruct (Z.leb_spec (addr id + b_top b' + size) (addr id + b_size b')); [|done].
  intros. simplify_eq. split; [done|lia].
Qed.

Lemma nursery_alloc_effect addr c m s gc :
  low_addresses addr -> small_request m s -> nursery_ok (nview gc) ->
  match lr_gc_nursery_alloc addr c m s gc with
  | (None, gc') => gc' = gc
  | (Some r, gc') => alloc_effect (nview gc) (nview gc') r /\ r_size r = align8 s
  end.
Proof.
  intros Hlow [Hm Hs] Hok. unfold lr_gc_nursery_alloc. case_if; [done|].
  destruct (align8_spec s) as (H0 & H8 & Hr). specialize (Hr ltac:(lia)).
  destruct (room addr (align8 s) gc) as [b|] eqn:E; [|by apply nursery_grow_effect].
  apply room_spec in E as [Hb Hroom]; [|done..|lia]. rewrite count_nursery_nview.
  split; [|done]. by apply alloc_bump.
Qed.

(** ** Invariant: the nursery stays well formed *)

#[local] Opaque lr_gc_minor lr_gc_full lr_gc_incremental_step lr_gc_incremental_start.

(** The end of [lr_gc_major], without the clock plumbing. *)
Lemma record_pause_nview p gc : nview (lr_gc_record_pause p gc) = nview gc.
Proof. done. Qed.

Lemma add_stat_nview upd n gc : nview (add_stat upd n gc) = nview gc.
Proof. done. Qed.

Lemma read_nview gc : nview (upd_clock_reads S gc) = nview gc.
Proof. done. Qed.

Lemma finish_major_nview clock start gc : nview (finish_major clock start gc) = nview gc.
Proof. done. Qed.

Lemma start_nview gc : nview (lr_gc_incremental_start gc) = nview gc.
Proof. done. Qed.

#[export] Hint Rewrite record_pause_nview add_stat_nview read_nview finish_major_nview
  start_nview engine_gc_nview step_nview count_nursery_nview minor_nview full_nview : gc_nview.

Lemma nursery_major clock fuel gc gc' :
  nursery_ok (nview gc) -> lr_gc_major clock fuel gc = Some gc' -> nursery_ok (nview gc').
Proof.
  intros H E. unfold lr_gc_major in E.
  destruct (lr_gc_now_ns clock gc) as [start g0] eqn:E0.
  set (g := lr_gc_minor clock (add_stat upd_major_gc_count 1 g0)) in E.
  assert (nursery_ok (nview g)) as Hg.
  { unfold g. rewrite minor_nview. apply (inj2 pair) in E0 as [_ <-]. by apply nursery_ok_reset. }
  clearbody g. destruct (incremental_enabled (config g)).
  - destruct (lr_gc_now_ns clock (lr_gc_incremental_start g)) as [t g1] eqn:E1.
    assert (nursery_ok (nview g1)) as H1.
    { apply (inj2 pair) in E1 as [_ <-]. by autorewrite with gc_nview. }
    destruct (major_loop clock fuel t 0 g1) as [res|] eqn:El; [|done].
    apply (major_loop_inv clock (fun gc => nursery_ok (nview gc))) in El;
      [|intros; by rewrite step_nview|intros; by rewrite read_nview|exact H1].
    destruct res as [[steps g']|[[steps el] g']].
    + apply (inj Some) in E as <-. by autorewrite with gc_nview.
    + destruct (lr_gc_now_ns clock _) as [t2 g2] eqn:E2 in E.
      apply (inj Some) in E as <-. rewrite record_pause_nview.
      apply (inj2 pair) in E2 as [_ <-]. by autorewrite with gc_nview.
  - apply (inj Some) in E as <-. by autorewrite with gc_nview.
Qed.

Lemma nursery_invariant addr clock :
  low_addresses addr ->
  gc_invariant small_op addr clock (fun gc => nursery_ok (nview gc)).
Proof.
  intros Hlow. split; try done.
  - by intros [c|] gc.
  - intros c m s gc Hs H. pose proof (nursery_alloc_effect addr c m s gc Hlow Hs H) as He.
    destruct (lr_gc_nursery_alloc addr c m s gc) as [[r|] gc']; [|by subst]. apply He.
  - intros gc H. rewrite minor_nview. by apply nursery_ok_reset.
  - intros gc H. rewrite full_nview. by apply nursery_ok_reset.
  - intros gc H. by rewrite step_nview.
  - intros n gc H. unfold lr_gc_after_alloc. by rewrite count_nursery_nview.
  - apply nursery_major.
Qed.

#[local] Transparent lr_gc_minor lr_gc_full lr_gc_incremental_step lr_gc_incremental_start.

Lemma reachable_nursery addr clock gc :
  low_addresses addr -> reachable_by small_op addr clock gc -> nursery_ok (nview gc).
Proof.
  intros Hlow H. apply (reachable_inv small_op addr clock (fun gc => nursery_ok (nview gc)));
    [by apply nursery_invariant| |done].
  intros. split; [by apply Forall_nil|apply NoDup_nil_2].
Qed.

(** A sequence of allocation requests; each region comes with the size asked for. *)
Fixpoint alloc_all (addr : nat -> Z) (reqs : list (alloc_result * (Z -> alloc_result) * Z))
    (gc : GC) : list (Z * region) * GC :=
  match reqs with
  | [] => ([], gc)
  | (c, m, s) :: reqs' =>
      let '(r, gc) := lr_gc_nursery_alloc addr c m s gc in
      let '(rs, gc) := alloc_all addr reqs' gc in
      (match r with Some r => (s, r) :: rs | None => rs end, gc)
  end.

Lemma alloc_all_spec addr reqs gc rs gc' :
  low_addresses addr -> Forall (fun q => small_request q.1.2 q.2) reqs ->
  nursery_ok (nview gc) -> alloc_all addr reqs gc = (rs, gc') ->
  (forall r, allocated (nview gc) r -> allocated (nview gc') r /\
     Forall (fun x => disjoint_regions r x.2) rs) /\
  Forall (fun x => allocated (nview gc') x.2 /\ r_size x.2 = align8 x.1 /\ x.1 <= r_size x.2) rs /\
  ForallOrdPairs (fun x y => disjoint_regions x.2 y.2) rs.
Proof.
  intros Hlow. revert gc rs. induction reqs as [|[[c m] s] reqs IH]; intros gc rs Hall Hok E; cbn in E.
  { simplify_eq. split_and!; [by intros r Hr; split|by apply Forall_nil|constructor]. }
  apply Forall_cons in Hall as [Hs Hall]. cbn in Hs.
  pose proof (nursery_alloc_effect addr c m s gc Hlow Hs Hok) as He.
  destruct (lr_gc_nursery_alloc addr c m s gc) as [[r|] g1].
  - destruct He as [[Hok1 Hu Ha Hk Hd] Hsz].
    destruct (alloc_all addr reqs g1) as [rs1 g2] eqn:E1. simplify_eq.
    destruct (IH g1 rs1 Hall Hok1 E1) as (I1 & I2 & I3). destruct (I1 r Ha) as [Har Hdr].
    split_and!.
    + intros r' Hr'. destruct (I1 r' (Hk r' Hr')) as [? ?]. split; [done|].
      apply Forall_cons. split; [by apply Hd|done].
    + apply Forall_cons. split; [|done]. cbn. split_and!; [done|done|].
      rewrite Hsz. apply (align8_spec s). destruct Hs as [_ ?]. lia.
    + by constructor.
  - subst g1. destruct (alloc_all addr reqs gc) as [rs1 g2] eqn:E1. simplify_eq. by apply IH.
Qed.

(** ** Invariant: the statistics account for every pause *)

Definition sum (l : list Z) : Z := foldr Z.add 0 l.

(** The histogram holds [d] pauses more than collections were counted. *)
Definition acct (d : Z) (s : LR_GCStats) : Prop :=
  length (pause_histogram s) = 10%nat /\
  sum (pause_histogram s) = minor_gc_count s + major_gc_count s + full_gc_count s + d /\
  0 <= nursery_peak_size s /\ nursery_current_size s <= nursery_peak_size s.

Lemma sum_alter i (l : list Z) :
  (i < length l)%nat -> sum (alter (fun n => n + 1) i l) = sum l + 1.
Proof.
  revert i. induction l as [|x l IH]; intros [|i] H; cbn [length] in H; try lia.
  - change (x + 1 + sum l = x + sum l + 1). lia.
  - change (x + sum (alter (fun n => n + 1) i l) = x + sum l + 1). rewrite IH by lia. lia.
Qed.

Lemma pause_bucket_lt ms : (pause_bucket ms < 10)%nat.
Proof. unfold pause_bucket. repeat case_if; lia. Qed.

Lemma acct_record d p gc :
  acct d (stats gc) -> acct (d + 1) (stats (lr_gc_record_pause p gc)).
Proof.
  destruct gc as [cfg s]. intros (Hl & Hs & Hp & Hc). unfold lr_gc_record_pause.
  cbn [stats upd_stats] in *. set (s2 := upd_total_gc_time_ns _ _).
  assert (acct d (if p >? max_gc_time_ns s2 then upd_max_gc_time_ns (fun _ => p) s2 else s2))
    as Hm by (case_if; done).
  revert Hm. generalize (if p >? max_gc_time_ns s2 then upd_max_gc_time_ns (fun _ => p) s2
    else s2) as s3. intros s3 (Hl3 & Hs3 & Hp3 & Hc3). unfold acct.
  cbn [pause_histogram upd_pause_histogram minor_gc_count major_gc_count full_gc_count
       nursery_peak_size nursery_current_size]. rewrite length_alter, sum_alter.
  - split_and!; [done|lia|done|done].
  - rewrite Hl3. apply pause_bucket_lt.
Qed.

(** A statistics update outside the pause books. *)
Definition neutral (upd : (Z -> Z) -> LR_GCStats -> LR_GCStats) : Prop :=
  forall d f s, acct d s -> acct d (upd f s).

#[local] Hint Extern 0 (neutral _) => (by intros ? ? ?) : core.

Lemma acct_neutral d upd f gc :
  neutral upd -> acct d (stats gc) -> acct d (stats (upd_stats (upd f) gc)).
Proof. destruct gc. cbn [stats upd_stats]. auto. Qed.

Lemma acct_fold d upd {A} (f : A -> Z) (l : list A) gc :
  neutral upd -> acct d (stats gc) ->
  acct d (stats (fold_left (fun g x => add_size upd (f x) g) l gc)).
Proof.
  intros Hu. revert gc. induction l as [|x l IH]; intros gc H; [done|]. cbn [fold_left].
  by apply IH, acct_neutral.
Qed.

Lemma acct_clear d gc : acct d (stats gc) -> acct d (stats (clear_nursery gc)).
Proof.
  intros H. unfold clear_nursery. apply (acct_fold d upd_nursery_bytes_freed id
    (map b_top (nursery_blocks gc))) in H; [|done]. cbv [id] in H. revert H.
  generalize (fold_left (fun g x => add_size upd_nursery_bytes_freed x g)
    (map b_top (nursery_blocks gc)) gc) as g.
  intros [cfg s] (? & ? & ? & ?). unfold acct. cbn in *. by split_and!.
Qed.

Lemma acct_engine d gc : acct d (stats gc) -> acct d (stats (engine_gc gc)).
Proof. unfold engine_gc. by case_if. Qed.

Lemma acct_count d gc n : acct d (stats gc) -> acct d (stats (count_nursery n gc)).
Proof.
  destruct gc as [cfg s]. intros (? & ? & ? & ?). unfold count_nursery, acct. cbn in *.
  pose proof (Z.mod_pos_bound (nursery_current_size s + n) (2 ^ 64)) as Hb.
  unfold u64. case_if; cbn; to_prop; split_and!; try done; lia.
Qed.

Lemma acct_counter d gc upd :
  (upd = upd_minor_gc_count \/ upd = upd_major_gc_count \/ upd = upd_full_gc_count) ->
  acct d (stats gc) -> acct (d - 1) (stats (add_stat upd 1 gc)).
Proof.
  destruct gc as [cfg s]. intros Hu (? & ? & ? & ?).
  destruct Hu as [-> | [-> | ->]]; unfold acct; cbn in *; fold (sum (pause_histogram s));
    split_and!; try done; lia.
Qed.

Lemma acct_read d clock gc x :
  lr_gc_now_ns clock gc = x -> acct d (stats gc) -> acct d (stats x.2).
Proof. by intros <-. Qed.

Lemma acct_minor d clock gc : acct d (stats gc) -> acct d (stats (lr_gc_minor clock gc)).
Proof.
  intros H. unfold lr_gc_minor. destruct (lr_gc_now_ns clock gc) as [start g0] eqn:E0.
  apply (acct_read _ _ _ _ E0) in H. cbn [snd] in H. clear E0.
  apply (acct_counter _ _ upd_minor_gc_count) in H; [|auto].
  apply acct_engine, acct_clear in H. cbv zeta. set (g1 := clear_nursery _) in *.
  clearbody g1. match goal with |- context [if ?b then ?x else ?y] =>
    set (g2 := if b then x else y); assert (acct (d - 1) (stats g2)) as H2 end.
  { unfold g2. case_if; [|done]. by apply (acct_neutral _ upd_promoted_bytes). }
  clearbody g2. destruct (lr_gc_now_ns clock _) as [now g3] eqn:E3.
  replace d with (d - 1 + 1) by lia. apply acct_record.
  exact (acct_read (d - 1) _ _ _ E3 H2).
Qed.

Lemma acct_full d clock gc : acct d (stats gc) -> acct d (stats (lr_gc_full clock gc)).
Proof.
  intros H. unfold lr_gc_full. destruct (lr_gc_now_ns clock gc) as [start g0] eqn:E0.
  apply (acct_read _ _ _ _ E0) in H. cbn [snd] in H. clear E0.
  apply (acct_counter _ _ upd_full_gc_count) in H; [|auto].
  apply acct_engine, acct_clear in H. cbv zeta. set (g1 := clear_nursery _) in *.
  clearbody g1. destruct (lr_gc_now_ns clock _) as [now g3] eqn:E3.
  replace d with (d - 1 + 1) by lia. apply acct_record.
  exact (acct_read (d - 1) _ _ _ E3 H).
Qed.

Lemma acct_charge d clock upd start gc :
  neutral upd -> acct d (stats gc) -> acct d (stats (charge clock upd start gc)).
Proof.
  intros Hu H. unfold charge. destruct (lr_gc_now_ns clock gc) as [now g] eqn:E.
  apply (acct_read _ _ _ _ E) in H. by apply acct_neutral.
Qed.

Lemma acct_step d clock gc :
  acct d (stats gc) -> acct d (stats (lr_gc_incremental_step clock gc).2).
Proof.
  intros H. unfold lr_gc_incremental_step. case_if; [done|].
  destruct (lr_gc_now_ns clock gc) as [start g0] eqn:E0.
  apply (acct_read _ _ _ _ E0) in H. cbn [snd] in H. clear E0.
  destruct (phase g0); cbn [snd]; try done.
  - apply acct_charge; [done|]. by apply acct_engine.
  - apply acct_charge; [done|]. by case_if.
  - apply acct_charge; [done|].
    apply (acct_fold d upd_swept_bytes b_top (take (Z.to_nat (sweep_step_size (config g0)))
      (nursery_blocks g0))) in H; [|done]. by destruct (drop _ _).
Qed.

Lemma acct_add_stat d upd n gc :
  neutral upd -> acct d (stats gc) -> acct d (stats (add_stat upd n gc)).
Proof. apply acct_neutral. Qed.

Lemma acct_start d gc : acct d (stats gc) -> acct d (stats (lr_gc_incremental_start gc)).
Proof. by destruct gc. Qed.

Lemma acct_finish d clock start gc :
  acct d (stats gc) -> acct (d + 1) (stats (finish_major clock start gc)).
Proof.
  intros H. unfold finish_major.
  assert (acct d (stats (upd_bytes_since_last_gc (fun _ => 0) gc))) as H1 by (by destruct gc).
  revert H1. generalize (upd_bytes_since_last_gc (fun _ => 0) gc) as g. intros g H1.
  destruct (lr_gc_now_ns clock g) as [t g2] eqn:E2. apply acct_record.
  exact (acct_read _ _ _ _ E2 H1).
Qed.

#[local] Opaque lr_gc_minor lr_gc_full lr_gc_incremental_step lr_gc_incremental_start.

Lemma acct_major d clock fuel gc gc' :
  acct d (stats gc) -> lr_gc_major clock fuel gc = Some gc' -> acct d (stats gc').
Proof.
  intros H E. unfold lr_gc_major in E.
  destruct (lr_gc_now_ns clock gc) as [start g0] eqn:E0.
  apply (acct_read _ _ _ _ E0) in H. cbn [snd] in H. clear E0.
  apply (acct_counter _ _ upd_major_gc_count) in H; [|auto].
  apply (acct_minor _ clock) in H.
  revert H E. generalize (lr_gc_minor clock (add_stat upd_major_gc_count 1 g0)) as g.
  intros g H E. replace d with (d - 1 + 1) by lia.
  destruct (incremental_enabled (config g)).
  - apply acct_start in H. revert H E. generalize (lr_gc_incremental_start g) as g1.
    intros g1 H E. destruct (lr_gc_now_ns clock g1) as [t g2] eqn:E1.
    apply (acct_read _ _ _ _ E1) in H. cbn [snd] in H. clear E1.
    destruct (major_loop clock fuel t 0 g2) as [res|] eqn:El; [|done].
    apply (major_loop_inv clock (fun gc => acct (d - 1) (stats gc))) in El;
      [|intros; by apply acct_step|intros ? ?; by apply (acct_read _ clock _ _ eq_refl)|exact H].
    destruct res as [[steps g']|[[steps el] g']].
    + apply (inj Some) in E as <-. apply acct_finish. by apply acct_add_stat.
    + apply (acct_add_stat _ upd_incremental_steps steps) in El; [|done].
      apply (acct_add_stat _ upd_total_mark_time_ns el) in El; [|done].
      revert El E. generalize (add_stat upd_total_mark_time_ns el
        (add_stat upd_incremental_steps steps g')) as g3. intros g3 H3 E.
      destruct (lr_gc_now_ns clock g3) as [t2 g4] eqn:E2.
      apply (inj Some) in E as <-. apply acct_record. exact (acct_read _ _ _ _ E2 H3).
  - apply (inj Some) in E as <-. by apply acct_finish, acct_engine.
Qed.

Lemma pause_invariant P addr clock : gc_invariant P addr clock (fun gc => acct 0 (stats gc)).
Proof.
  split.
  - by intros [c|] gc H; destruct gc.
  - intros c m n gc _ H. unfold lr_gc_nursery_alloc, nursery_grow. case_if; [done|].
    destruct (room _ _ gc); [by apply acct_count; destruct gc|].
    destruct (lr_gc_nursery_block_new _ _ _ _); [by apply acct_count; destruct gc|done].
  - by intros n [].
  - intros. by apply acct_minor.
  - intros. by apply acct_full.
  - intros. by apply acct_start.
  - intros. by apply acct_step.
  - intros n gc H. by apply acct_count; destruct gc.
  - intros gc _. done.
  - intros. by eapply acct_major.
  - by intros [].
  - intros. by apply acct_add_stat.
  - by intros t [].
  - by intros t [].
Qed.

#[local] Transparent lr_gc_minor lr_gc_full lr_gc_incremental_step lr_gc_incremental_start.

(** ** The incremental cycle *)

Lemma fold_add_size_upd {A} upd (f : A -> Z) (l : list A) gc :
  exists h, fold_left (fun g x => add_size upd (f x) g) l gc = upd_stats h gc.
Proof.
  revert gc. induction l as [|x l IH]; intros gc; cbn [fold_left].
  - exists id. by destruct gc.
  - destruct (IH (add_size upd (f x) gc)) as [h ->].
    exists (fun s => h (upd (fun y => u64 (y + f x)) s)). by destruct gc.
Qed.

(** What the state machine depends on. *)
Definition cview (gc : GC) : LR_GCPhase * bool * list LR_NurseryBlock * LR_GCConfig :=
  (phase gc, phase_in_progress gc, nursery_blocks gc, config gc).

(** [n] steps, with their results. *)
Fixpoint run_steps (clock : nat -> Z) (n : nat) (gc : GC) : list bool * GC :=
  match n with
  | O => ([], gc)
  | S n' =>
      let '(r, gc) := lr_gc_incremental_step clock gc in
      let '(rs, gc) := run_steps clock n' gc in
      (r :: rs, gc)
  end.

Lemma step_mark_roots clock gc :
  phase_in_progress gc = true -> phase gc = PHASE_MARK_ROOTS ->
  exists gc', lr_gc_incremental_step clock gc = (true, gc') /\
    cview gc' = (PHASE_MARK, true, nursery_blocks gc, config gc) /\
    mark_entries_done gc' = mark_entries gc'.
Proof.
  intros Hp Hph. destruct gc. cbn in Hp, Hph. subst. unfold lr_gc_incremental_step.
  cbn [negb phase_in_progress lr_gc_now_ns phase upd_clock_reads]. eexists. split; [done|].
  unfold engine_gc, charge. cbn. by case_if.
Qed.

Lemma step_mark clock gc :
  phase_in_progress gc = true -> phase gc = PHASE_MARK ->
  mark_entries_done gc = mark_entries gc ->
  exists gc', lr_gc_incremental_step clock gc = (true, gc') /\
    cview gc' = (PHASE_SWEEP, true, nursery_blocks gc, config gc).
Proof.
  intros Hp Hph Hm. destruct gc. cbn in Hp, Hph, Hm. subst. unfold lr_gc_incremental_step.
  cbn [negb phase_in_progress lr_gc_now_ns phase upd_clock_reads]. eexists. split; [done|].
  set (pr := Z.min _ _). assert (0 <= pr).
  { unfold pr. match goal with |- context [zlen ?l] => pose proof (zlen_nonneg l) end. lia. }
  unfold charge. cbn. destruct (Z.geb_spec (mark_entries0 + pr) mark_entries0); [done|lia].
Qed.

Lemma step_sweep clock gc :
  phase_in_progress gc = true -> phase gc = PHASE_SWEEP ->
  exists gc', lr_gc_incremental_step clock gc = (true, gc') /\
    cview gc' = (if bool_decide (drop (Z.to_nat (sweep_step_size (config gc)))
                                      (nursery_blocks gc) = [])
                 then PHASE_COMPLETE else PHASE_SWEEP, true, nursery_blocks gc, config gc).
Proof.
  intros Hp Hph. destruct gc as [cfg s bs]. cbn in Hp, Hph. subst. unfold lr_gc_incremental_step.
  cbn [negb phase_in_progress lr_gc_now_ns phase upd_clock_reads config nursery_blocks].
  eexists. split; [done|].
  match goal with |- context [fold_left ?f ?l ?g] =>
    destruct (fold_add_size_upd upd_swept_bytes b_top l g) as [h ->] end.
  unfold charge, lr_gc_now_ns. cbn [nursery_blocks upd_stats upd_clock_reads].
  by destruct (drop _ bs).
Qed.

Lemma step_complete clock gc :
  phase_in_progress gc = true -> phase gc = PHASE_COMPLETE ->
  exists gc', lr_gc_incremental_step clock gc = (false, gc') /\
    cview gc' = (PHASE_IDLE, false, nursery_blocks gc, config gc).
Proof.
  intros Hp Hph. destruct gc. cbn in Hp, Hph. subst. unfold lr_gc_incremental_step.
  cbn [negb phase_in_progress lr_gc_now_ns phase upd_clock_reads]. by eexists.
Qed.

(** A started cycle, up to its first sweep step. *)
Lemma start_mark clock gc :
  exists g1 g2,
    lr_gc_incremental_step clock (lr_gc_incremental_start gc) = (true, g1) /\
    lr_gc_incremental_step clock g1 = (true, g2) /\
    phase g1 = PHASE_MARK /\
    cview g2 = (PHASE_SWEEP, true, nursery_blocks gc, config gc).
Proof.
  destruct (step_mark_roots clock (lr_gc_incremental_start gc)) as (g1 & E1 & V1 & M1);
    [by destruct gc..|].
  unfold cview in V1. injection V1 as P1 I1 B1 C1.
  destruct (step_mark clock g1 I1 P1 M1) as (g2 & E2 & V2).
  exists g1, g2. split_and!; [done|done|done|].
  rewrite V2, B1, C1. by destruct gc.
Qed.

Lemma cycle_steps clock gc :
  zlen (nursery_blocks gc) <= sweep_step_size (config gc) ->
  exists g1 g2 g3 g4,
    lr_gc_incremental_step clock (lr_gc_incremental_start gc) = (true, g1) /\
    lr_gc_incremental_step clock g1 = (true, g2) /\
    lr_gc_incremental_step clock g2 = (true, g3) /\
    lr_gc_incremental_step clock g3 = (false, g4) /\
    cview g4 = (PHASE_IDLE, false, nursery_blocks gc, config gc).
Proof.
  intros Hlen. destruct (start_mark clock gc) as (g1 & g2 & E1 & E2 & _ & V2).
  unfold cview in V2. injection V2 as P2 I2 B2 C2.
  destruct (step_sweep clock g2 I2 P2) as (g3 & E3 & V3).
  rewrite B2, C2, bool_decide_true in V3
    by (apply drop_ge; unfold zlen in Hlen; lia).
  unfold cview in V3. injection V3 as P3 I3 B3 C3.
  destruct (step_complete clock g3 I3 P3) as (g4 & E4 & V4).
  exists g1, g2, g3, g4. split_and!; try done. by rewrite V4, B3, C3.
Qed.

(** A sweep that does not cover the nursery in one step starts over for ever. *)
Lemma sweep_stuck clock n gc :
  phase gc = PHASE_SWEEP -> phase_in_progress gc = true ->
  sweep_step_size (config gc) < zlen (nursery_blocks gc) -> nursery_blocks gc <> [] ->
  (run_steps clock n gc).1 = replicate n true /\
  phase (run_steps clock n gc).2 = PHASE_SWEEP /\
  phase_in_progress (run_steps clock n gc).2 = true.
Proof.
  revert gc. induction n as [|n IH]; intros gc Hp Hi Hs Hne; [done|].
  destruct (step_sweep clock gc Hi Hp) as (g & E & V). cbn [run_steps replicate]. rewrite E.
  rewrite bool_decide_false in V.
  2: { intros Hd. apply (f_equal length) in Hd. rewrite length_drop in Hd. unfold zlen in Hs.
       destruct (nursery_blocks gc); [done|]. cbn [length] in *. lia. }
  unfold cview in V. injection V as P I B C.
  destruct (IH g) as (H1 & H2 & H3); [done|done|by rewrite B, C|by rewrite B|].
  destruct (run_steps clock n g) as [rs g']. cbn [fst snd] in *. by rewrite H1.
Qed.

(** ** Rounds of two allocations and a collection *)

Section rounds.
Context (addr clock : nat -> Z).

(** An allocation, with memory for every block that fits the address space. *)
Definition alloc_ok (s : Z) (gc : GC) : GC :=
  (lr_gc_nursery_alloc addr true (fun n => n <? 2 ^ 62) s gc).2.

Definition round (s : Z) (gc : GC) : GC := lr_gc_minor clock (alloc_ok s (alloc_ok s gc)).

Fixpoint rounds (s : Z) (n : nat) (gc : GC) : GC :=
  match n with O => gc | S n' => rounds s n' (round s gc) end.

End rounds.

(** The allocator's view, with the current block and the configuration. *)
Definition aview (gc : GC) : list LR_NurseryBlock * option nat * nat * LR_GCConfig :=
  (nursery_blocks gc, nursery_current gc, next_id gc, config gc).

Lemma count_nursery_aview n gc : aview (count_nursery n gc) = aview gc.
Proof. unfold count_nursery. by case_if. Qed.

Lemma clear_nursery_aview gc :
  aview (clear_nursery gc) =
    (map reset_block (nursery_blocks gc), nursery_current gc, next_id gc, config gc).
Proof.
  unfold clear_nursery.
  destruct (fold_add_size_upd upd_nursery_bytes_freed id (map b_top (nursery_blocks gc)) gc)
    as [h E]. cbv [id] in E. rewrite E. by destruct gc.
Qed.

Lemma minor_aview clock gc :
  aview (lr_gc_minor clock gc) =
    (map reset_block (nursery_blocks gc), nursery_current gc, next_id gc, config gc).
Proof.
  unfold lr_gc_minor, lr_gc_now_ns. cbv zeta.
  change (aview (lr_gc_record_pause ?p (upd_clock_reads S (upd_bytes_since_last_gc ?h ?g))))
    with (aview g).
  set (g1 := engine_gc _).
  assert (aview (clear_nursery g1) =
    (map reset_block (nursery_blocks gc), nursery_current gc, next_id gc, config gc)) as E.
  { rewrite clear_nursery_aview. unfold g1, engine_gc. by case_if. }
  by case_if.
Qed.

(** The current block is the head of the list, empty blocks below it. *)
Definition fresh_nursery (ns : Z) (k : nat) (gc : GC) : Prop :=
  generational_enabled (config gc) = true /\ nursery_size (config gc) = ns /\
  exists b bs, nursery_blocks gc = b :: bs /\ nursery_current gc = Some (b_id b) /\
    length bs = k /\ (forall x, x ∈ b :: bs -> (b_id x < next_id gc)%nat) /\
    Forall (fun x => b_top x = 0 /\ b_size x = ns) (b :: bs) /\
    NoDup (map b_id (b :: bs)).

Lemma bump_head addr b bs n :
  NoDup (map b_id (b :: bs)) -> 0 <= addr (b_id b) + b_top b + n < 2 ^ 64 ->
  bump addr (b_id b) n (b :: bs) = NurseryBlock (b_id b) (b_top b + n) (b_size b) :: bs.
Proof.
  intros Hn Hw. cbn [map] in Hn. apply NoDup_cons in Hn as [Hnot _].
  unfold bump. cbn [map]. rewrite decide_True, bumped by done. f_equal.
  rewrite <- (map_id bs) at 2. apply map_ext_in. intros x Hx. rewrite decide_False; [done|].
  intros E. apply Hnot, list_elem_of_In, in_map_iff. eauto.
Qed.

Section low.
Context (addr : nat -> Z) (Hlow : low_addresses addr).

Lemma alloc_in_head s gc b bs :
  generational_enabled (config gc) = true -> align8 s = s ->
  nursery_blocks gc = b :: bs -> nursery_current gc = Some (b_id b) ->
  NoDup (map b_id (b :: bs)) -> 0 <= b_top b -> 0 <= s ->
  b_top b + s <= b_size b < 2 ^ 62 ->
  aview (alloc_ok addr s gc) =
    (NurseryBlock (b_id b) (b_top b + s) (b_size b) :: bs, Some (b_id b), next_id gc, config gc).
Proof using Hlow.
  intros Hg Ha Hb Hc Hn Ht H0 Hroom. pose proof (Hlow (b_id b)). unfold alloc_ok, lr_gc_nursery_alloc. rewrite Hg, Ha.
  cbn [negb]. unfold room. rewrite Hc, Hb. unfold find_block. cbn [list_find].
  rewrite decide_True by done. cbn [fmap option_fmap option_map snd].
  rewrite !u64_small by lia.
  destruct (Z.leb_spec (addr (b_id b) + b_top b + s) (addr (b_id b) + b_size b)); [|lia].
  cbn [snd]. rewrite count_nursery_aview, <- (bump_head addr) by (done || lia). rewrite <- Hb, <- Hc. by destruct gc.
Qed.

Lemma alloc_grows s ns gc :
  generational_enabled (config gc) = true -> nursery_size (config gc) = ns ->
  align8 s = s -> s <= ns < 2 ^ 62 -> room addr s gc = None ->
  aview (alloc_ok addr s gc) =
    (NurseryBlock (next_id gc) (0 + s) ns :: nursery_blocks gc, Some (next_id gc),
     S (next_id gc), config gc).
Proof.
  intros Hg Hns Ha [Hs Hns62] Hr. unfold alloc_ok, lr_gc_nursery_alloc. rewrite Hg, Ha, Hr.
  cbn [negb]. unfold nursery_grow, lr_gc_nursery_block_new. rewrite Hns. cbn [negb].
  destruct (Z.gtb_spec s ns); [lia|]. destruct (Z.ltb_spec ns (2 ^ 62)); [|lia].
  cbn [negb snd]. rewrite count_nursery_aview. by destruct gc.
Qed.

Lemma round_grows clock s ns k gc :
  align8 s = s -> 0 < s <= ns -> ns < 2 ^ 62 -> ns < 2 * s -> fresh_nursery ns k gc ->
  fresh_nursery ns (S k) (round addr clock s gc).
Proof using Hlow.
  intros Ha Hs H62 H2 (Hg & Hns & b & bs & Hb & Hc & Hk & Hid & Hall & Hnd).
  pose proof (Forall_inv Hall) as [Ht Hz].
  pose proof (alloc_in_head s gc b bs Hg Ha Hb Hc Hnd ltac:(lia) ltac:(lia) ltac:(lia)) as V1.
  unfold round. revert V1. generalize (alloc_ok addr s gc) as g1. intros g1 V1.
  unfold aview in V1. injection V1 as B1 C1 N1 F1.
  assert (room addr s g1 = None) as Hr.
  { unfold room. rewrite C1, B1. unfold find_block. cbn [list_find].
    rewrite decide_True by done. cbn [fmap option_fmap option_map snd b_top b_size].
    pose proof (Hlow (b_id b)). rewrite !u64_small by lia.
    destruct (Z.leb_spec (addr (b_id b) + (b_top b + s) + s) (addr (b_id b) + b_size b));
      [lia|done]. }
  pose proof (alloc_grows s ns g1 ltac:(by rewrite F1) ltac:(by rewrite F1) Ha ltac:(lia) Hr)
    as V2. pose proof (minor_aview clock (alloc_ok addr s g1)) as V3.
  revert V2 V3. generalize (lr_gc_minor clock (alloc_ok addr s g1)) as g3.
  generalize (alloc_ok addr s g1) as g2. intros g2 g3 V2 V3.
  unfold aview in V2, V3. injection V2 as B2 C2 N2 F2. injection V3 as B3 C3 N3 F3.
  unfold fresh_nursery.
  rewrite F3, F2, F1. split_and!; [done|done|]. rewrite B3, B2, B1, C3, C2, N3, N2, N1.
  exists (NurseryBlock (next_id gc) 0 ns), (NurseryBlock (b_id b) 0 (b_size b) :: map reset_block bs).
  split; [done|]. cbn [b_id b_top b_size].
  assert (map b_id (map reset_block bs) = map b_id bs) as Emap by (by rewrite map_map).
  split_and!; [done|cbn [length]; by rewrite length_map, Hk| | |].
  - intros x Hx. apply elem_of_cons in Hx as [->|Hx]; [cbn; lia|].
    apply elem_of_cons in Hx as [->|Hx].
    + cbn. pose proof (Hid b ltac:(by left)). lia.
    + apply list_elem_of_In, in_map_iff in Hx as (y & <- & Hy). apply list_elem_of_In in Hy.
      pose proof (Hid y ltac:(by right)). cbn. lia.
  - apply Forall_cons_2; [done|]. apply Forall_cons_2; [done|]. apply Forall_map.
    apply Forall_inv_tail in Hall. eapply Forall_impl; [exact Hall|]. by intros x [_ ?].
  - change (NoDup (next_id gc :: b_id b :: map b_id (map reset_block bs))). rewrite Emap.
    apply NoDup_cons. split; [|done]. intros Hin.
    assert (exists x, x ∈ b :: bs /\ b_id x = next_id gc) as (x & Hx & Ex).
    { apply elem_of_cons in Hin as [->|Hin]; [exists b; split; [by left|done]|].
      apply list_elem_of_In, in_map_iff in Hin as (x & Ex & Hx).
      exists x. split; [right; by apply list_elem_of_In|done]. }
    pose proof (Hid x Hx). lia.
Qed.

Lemma rounds_grow clock s ns n k gc :
  align8 s = s -> 0 < s <= ns -> ns < 2 ^ 62 -> ns < 2 * s -> fresh_nursery ns k gc ->
  fresh_nursery ns (n + k) (rounds addr clock s n gc).
Proof using Hlow.
  intros Ha Hs H62 H2. revert k gc. induction n as [|n IH]; intros k gc H; [done|].
  cbn [rounds]. replace (S n + k)%nat with (n + S k)%nat by lia.
  apply IH. by apply (round_grows clock s ns).
Qed.

End low.

(** Steps a phase of a cycle has still to make. *)
Definition steps_left (p : LR_GCPhase) : nat :=
  match p with
  | PHASE_MARK_ROOTS => 4 | PHASE_MARK => 3 | PHASE_SWEEP => 2 | _ => 1
  end.

Lemma major_loop_from clock t fuel gc n :
  phase_in_progress gc = true -> phase gc <> PHASE_IDLE -> phase gc <> PHASE_REMARK ->
  (phase gc = PHASE_MARK -> mark_entries_done gc = mark_entries gc) ->
  zlen (nursery_blocks gc) <= sweep_step_size (config gc) ->
  (steps_left (phase gc) <= fuel)%nat ->
  exists r, major_loop clock fuel t n gc = Some r.
Proof.
  revert gc n. induction fuel as [|fuel IH]; intros gc n Hi Hn1 Hn2 Hm Hl Hf.
  { destruct (phase gc); cbn in Hf; lia. }
  cbn [major_loop]. unfold lr_gc_now_ns.
  destruct (phase gc) eqn:Hp; try done; cbn [steps_left] in Hf.
  - destruct (step_mark_roots clock gc Hi Hp) as (g & -> & V & M).
    cbn [negb]. cbv zeta. case_if; [eauto|]. destruct g. cbn in *. injection V as -> -> -> ->.
    apply IH; cbn; try done; lia.
  - destruct (step_mark clock gc Hi Hp (Hm eq_refl)) as (g & -> & V).
    cbn [negb]. cbv zeta. case_if; [eauto|]. destruct g. cbn in *. injection V as -> -> -> ->.
    apply IH; cbn; try done; lia.
  - destruct (step_sweep clock gc Hi Hp) as (g & -> & V).
    rewrite bool_decide_true in V by (apply drop_ge; unfold zlen in Hl; lia).
    cbn [negb]. cbv zeta. case_if; [eauto|]. destruct g. cbn in *. injection V as -> -> -> ->.
    apply IH; cbn; try done; lia.
  - destruct (step_complete clock gc Hi Hp) as (g & -> & _). cbn [negb]. eauto.
Qed.

Lemma major_returns clock fuel gc :
  zlen (nursery_blocks gc) <= sweep_step_size (config gc) -> (4 <= fuel)%nat ->
  exists gc', lr_gc_major clock fuel gc = Some gc'.
Proof.
  intros Hl Hf. unfold lr_gc_major. destruct (lr_gc_now_ns clock gc) as [start g0] eqn:E0.
  assert (aview g0 = aview gc) as V0 by (by apply (inj2 pair) in E0 as [_ <-]).
  clear E0. pose proof (minor_aview clock (add_stat upd_major_gc_count 1 g0)) as V.
  revert V. generalize (lr_gc_minor clock (add_stat upd_major_gc_count 1 g0)) as g.
  intros g V. destruct (incremental_enabled (config g)); [|eauto].
  destruct (lr_gc_now_ns clock (lr_gc_incremental_start g)) as [t g1] eqn:E1.
  destruct (major_loop_from clock t fuel g1 0) as [[[k g2]|[[k e] g2]] ->]; eauto;
    apply (inj2 pair) in E1 as [_ <-]; try (by destruct g).
  - destruct g. cbn in *. injection V as -> _ _ ->. injection V0 as -> _ _ ->.
    unfold zlen in *. by rewrite length_map.
Qed.

(** ** Properties *)

(** C23: nursery allocations never overlap.  As long as the blocks lie in the
    lower quarter of the address space and no request, then or before, is larger
    than that, so that the test [top + size <= end] on addresses does not wrap:
    from any state a context can reach, the regions a sequence of
    [lr_gc_nursery_alloc] calls returns are 8-byte aligned, at least as long as
    asked for, inside their block, and pairwise disjoint. *)
Theorem nursery_alloc_disjoint (addr clock : nat -> Z) (gc gc' : GC)
    (reqs : list (alloc_result * (Z -> alloc_result) * Z)) (rs : list (Z * region)) :
  low_addresses addr -> reachable_by small_op addr clock gc ->
  Forall (fun q => small_request q.1.2 q.2) reqs -> alloc_all addr reqs gc = (rs, gc') ->
  ForallOrdPairs (fun x y => disjoint_regions x.2 y.2) rs /\
  Forall (fun '(s, r) => allocated (nview gc') r /\ s <= r_size r) rs.
Proof.
  intros Hlow Hr Hq E. destruct (alloc_all_spec addr reqs gc rs gc') as (_ & H2 & H3);
    [done|done|by eapply reachable_nursery|done|].
  split; [done|]. eapply Forall_impl; [exact H2|]. intros [s r] (Ha & _ & Hs). done.
Qed.

(** The bound on requests is needed: 16 bytes below the end of the address space are
    a "size" with which the sum wraps, and the current block is handed out. *)
Lemma room_wraps addr b gc :
  nursery_blocks gc = [b] -> nursery_current gc = Some (b_id b) ->
  16 <= addr (b_id b) + b_top b < 2 ^ 64 -> 0 <= b_top b ->
  addr (b_id b) + b_top b <= addr (b_id b) + b_size b < 2 ^ 64 ->
  room addr (2 ^ 64 - 16) gc = Some b.
Proof.
  intros Hb Hc Ha Ht He. unfold room. rewrite Hc, Hb. unfold find_block. cbn [list_find].
  rewrite decide_True by done. cbn [fmap option_fmap option_map snd].
  rewrite (u64_small (addr _ + b_size b)) by lia.
  replace (addr (b_id b) + b_top b + (2 ^ 64 - 16))
    with (addr (b_id b) + b_top b - 16 + 1 * 2 ^ 64) by lia.
  unfold u64. rewrite Z.mod_add, Z.mod_small by lia.
  by destruct (Z.leb_spec (addr (b_id b) + b_top b - 16) (addr (b_id b) + b_size b)); [|lia].
Qed.

Definition sample_config : LR_GCConfig :=
  GCConfig true 64 3 10 true 5000000 1024 1 (f64_of_Z 0) 5000 1024 true 2 false.

Definition sample_addr (id : nat) : Z := 4096 * (Z.of_nat id + 1).

Definition sample_malloc (n : Z) : alloc_result := n <? 2 ^ 62.

Definition sample_gc : GC :=
  lr_gc_minor (fun n => Z.of_nat n)
    (alloc_ok sample_addr 40 (lr_gc_configure (Some sample_config) (lr_gc_init true 0))).

Lemma sample_request s : 0 <= s < 2 ^ 62 - 8 -> small_request sample_malloc s.
Proof. intros Hs. split; [|done]. intros n Hn. by apply Z.ltb_lt. Qed.

Lemma sample_gc_reachable P :
  P OpMinor -> P (OpAlloc true sample_malloc 40) -> P (OpConfigure (Some sample_config)) ->
  reachable_by P sample_addr (fun n => Z.of_nat n) sample_gc.
Proof.
  intros H1 H2 H3. unfold sample_gc, alloc_ok.
  eapply (reach_step _ _ _ 0 OpMinor); [|done|reflexivity].
  eapply (reach_step _ _ _ 0 (OpAlloc true sample_malloc 40)); [|done|reflexivity].
  eapply (reach_step _ _ _ 0 (OpConfigure (Some sample_config))); [|done|reflexivity].
  apply reach_init.
Qed.

Lemma nursery_alloc_disjoint_witness :
  let addr := fun id => sample_addr (id `mod` 1024) in
  let reqs := [(true, sample_malloc, 13); (true, sample_malloc, 40);
               (true, sample_malloc, 100)] in
  let gc := alloc_ok addr 40 (lr_gc_configure (Some sample_config) (lr_gc_init true 0)) in
  low_addresses addr /\ Forall (fun q => small_request q.1.2 q.2) reqs /\
  (alloc_all addr reqs gc).1
    = [(13, Region 0 40 16); (40, Region 1 0 40); (100, Region 2 0 104)] /\
  ForallOrdPairs (fun x y => disjoint_regions x.2 y.2) (alloc_all addr reqs gc).1.
Proof.
  cbv zeta. set (addr := fun id => sample_addr (id `mod` 1024)). set (reqs := _ :: _).
  assert (low_addresses addr) as Hlow.
  { intros id. unfold addr, sample_addr. pose proof (Nat.mod_upper_bound id 1024). lia. }
  assert (Forall (fun q => small_request q.1.2 q.2) reqs) as Hq
    by (repeat (apply Forall_cons_2 || apply Forall_nil_2); apply sample_request; cbn; lia).
  set (gc := alloc_ok addr 40 _).
  assert (reachable_by small_op addr (fun n => Z.of_nat n) gc) as Hr.
  { unfold gc, alloc_ok.
    eapply (reach_step _ _ _ 0 (OpAlloc true sample_malloc 40));
      [|by apply sample_request|reflexivity].
    eapply (reach_step _ _ _ 0 (OpConfigure (Some sample_config))); [|done|reflexivity].
    apply reach_init. }
  split_and!; [done|done|vm_compute; reflexivity|].
  exact (proj1 (nursery_alloc_disjoint addr (fun n => Z.of_nat n) gc _ reqs _
    Hlow Hr Hq (surjective_pairing _))).
Defined.

(** C19: the statistics account for every pause.  In any reachable state the
    pause histogram holds exactly one entry per counted minor, major and full
    collection (a major collection that yields early included), and the nursery
    high-water mark is never below the current size. *)
Theorem gc_pause_accounting (addr clock : nat -> Z) (gc : GC) :
  reachable addr clock gc ->
  let s := stats gc in
  sum (pause_histogram s) = minor_gc_count s + major_gc_count s + full_gc_count s /\
  nursery_current_size s <= nursery_peak_size s.
Proof.
  intros H. apply (reachable_inv _ addr clock (fun gc => acct 0 (stats gc))) in H.
  - destruct H as (_ & Hs & _ & Hp). split; [lia|done].
  - apply pause_invariant.
  - intros r lm. done.
Qed.

Lemma gc_pause_accounting_witness :
  reachable sample_addr (fun n => Z.of_nat n) sample_gc /\
  sum (pause_histogram (stats sample_gc)) = 1 /\
  sum (pause_histogram (stats sample_gc)) = minor_gc_count (stats sample_gc) +
    major_gc_count (stats sample_gc) + full_gc_count (stats sample_gc).
Proof.
  assert (reachable sample_addr (fun n => Z.of_nat n) sample_gc) as H
    by (by apply sample_gc_reachable).
  split; [exact H|]. split; [vm_compute; reflexivity|].
  apply (gc_pause_accounting sample_addr (fun n => Z.of_nat n) sample_gc H).
Defined.

(** C31: an incremental cycle completes.  When one sweep step covers the nursery
    blocks, a started cycle is done after exactly four steps, whatever the
    mark step size: three report more work and the fourth completion, with the
    phase back to idle; and [lr_gc_major] returns (four steps of fuel are
    enough). *)
Theorem incremental_cycle_completes (clock : nat -> Z) (gc : GC) (fuel : nat) :
  zlen (nursery_blocks gc) <= sweep_step_size (config gc) -> (4 <= fuel)%nat ->
  (run_steps clock 4 (lr_gc_incremental_start gc)).1 = [true; true; true; false] /\
  phase (run_steps clock 4 (lr_gc_incremental_start gc)).2 = PHASE_IDLE /\
  phase_in_progress (run_steps clock 4 (lr_gc_incremental_start gc)).2 = false /\
  exists gc', lr_gc_major clock fuel gc = Some gc'.
Proof.
  intros Hl Hf. destruct (cycle_steps clock gc Hl)
    as (g1 & g2 & g3 & g4 & E1 & E2 & E3 & E4 & V).
  cbn [run_steps]. rewrite E1, E2, E3, E4. cbn [fst snd]. unfold cview in V.
  injection V as P I _ _. split_and!; [done..|]. by apply major_returns.
Qed.

Lemma incremental_cycle_completes_witness :
  zlen (nursery_blocks sample_gc) <= sweep_step_size (config sample_gc) /\
  (run_steps (fun n => Z.of_nat n) 4 (lr_gc_incremental_start sample_gc)).1
    = [true; true; true; false].
Proof.
  split; [vm_compute; discriminate|].
  apply (incremental_cycle_completes (fun n => Z.of_nat n) sample_gc 4);
    [vm_compute; discriminate|lia].
Defined.

(** an incremental cycle with more nursery blocks than [sweep_step_size]
    never completes: every sweep step starts again at the first block
    ([sweep_cursor] is never used), so each later step reports more work and
    the collector never gets back to idle. *)
Lemma incremental_cycle_stuck (clock : nat -> Z) (gc : GC) (n : nat) :
  sweep_step_size (config gc) < zlen (nursery_blocks gc) -> nursery_blocks gc <> [] ->
  (run_steps clock n (lr_gc_incremental_start gc)).1 = replicate n true /\
  phase_in_progress (run_steps clock n (lr_gc_incremental_start gc)).2 = true.
Proof.
  intros Hl Hne. destruct (start_mark clock gc) as (g1 & g2 & E1 & E2 & _ & V).
  unfold cview in V. injection V as P I B C.
  destruct n as [|[|n]]; cbn [run_steps].
  - split; [done|]. by destruct gc.
  - rewrite E1. split; [done|]. cbn [snd].
    unfold lr_gc_incremental_step in E2. by destruct (phase_in_progress g1).
  - rewrite E1, E2. destruct (sweep_stuck clock n g2 P I) as (H1 & _ & H3);
      [by rewrite B, C|by rewrite B|].
    destruct (run_steps clock n g2) as [rs g']. cbn [fst snd replicate] in *. by rewrite H1.
Qed.

Lemma incremental_cycle_stuck_witness :
  let gc := alloc_ok sample_addr 40 (alloc_ok sample_addr 40 sample_gc) in
  sweep_step_size (config gc) < zlen (nursery_blocks gc) /\
  phase_in_progress (run_steps (fun n => Z.of_nat n) 50 (lr_gc_incremental_start gc)).2 = true.
Proof.
  cbv zeta. split; [vm_compute; reflexivity|].
  apply (incremental_cycle_stuck (fun n => Z.of_nat n)
    (alloc_ok sample_addr 40 (alloc_ok sample_addr 40 sample_gc)) 50);
    [vm_compute; reflexivity|vm_compute; discriminate].
Defined.

(** Blocks emptied by a collection are not used again.  The allocator only
    tries the current block, so a workload that fills two half-blocks between
    collections gets a new block in every round: after [n] rounds there are
    [n + 1] blocks, all of them empty. *)
Theorem nursery_blocks_leak (addr clock : nat -> Z) (cfg : LR_GCConfig) (runtime : bool)
    (last_major s : Z) (n : nat) :
  low_addresses addr -> generational_enabled cfg = true -> align8 s = s -> 0 < s <= nursery_size cfg ->
  nursery_size cfg < 2 ^ 62 -> nursery_size cfg < 2 * s ->
  let gc := rounds addr clock s n (lr_gc_minor clock
              (alloc_ok addr s (lr_gc_configure (Some cfg) (lr_gc_init runtime last_major)))) in
  length (nursery_blocks gc) = S n /\
  Forall (fun b => b_top b = 0 /\ b_size b = nursery_size cfg) (nursery_blocks gc).
Proof.
  intros Hlow Hg Ha Hs H62 H2. cbv zeta. set (g0 := lr_gc_configure _ _).
  pose proof (alloc_grows addr s (nursery_size cfg) g0 Hg eq_refl Ha ltac:(lia) eq_refl) as V.
  pose proof (minor_aview clock (alloc_ok addr s g0)) as V1.
  assert (fresh_nursery (nursery_size cfg) 0 (lr_gc_minor clock (alloc_ok addr s g0))) as H0.
  { revert V V1. generalize (lr_gc_minor clock (alloc_ok addr s g0)) as g2.
    generalize (alloc_ok addr s g0) as g1. intros g1 g2 V V1. unfold aview in V, V1.
    injection V as B C N F. injection V1 as B1 C1 N1 F1. unfold fresh_nursery.
    rewrite F1, F. split_and!; [done|done|]. rewrite B1, B, C1, C, N1, N.
    exists (NurseryBlock 0 0 (nursery_size cfg)), []. split_and!; try done.
    - intros x Hx. apply list_elem_of_singleton in Hx as ->. cbn. lia.
    - by apply Forall_cons_2; [|apply Forall_nil_2].
    - apply NoDup_singleton. }
  destruct (rounds_grow addr Hlow clock s (nursery_size cfg) n 0 _ Ha Hs H62 H2 H0)
    as (_ & _ & b & bs & -> & _ & Hk & _ & Hall & _).
  split; [cbn; lia|done].
Qed.

Lemma nursery_blocks_leak_witness :
  length (nursery_blocks (rounds (fun _ => 0) (fun _ => 0) 40 7 (lr_gc_minor (fun _ => 0)
    (alloc_ok (fun _ => 0) 40 (lr_gc_configure (Some sample_config) (lr_gc_init true 0)))))) = 8%nat.
Proof.
  apply (nursery_blocks_leak (fun _ => 0) (fun _ => 0) sample_config true 0 40 7); vm_compute; intuition discriminate.
Defined.
