(* ===== verification/F64.v ===== *)
(** Doubles on integers: below 2^53 the conversion from integers is exact, and
    addition, subtraction and comparison of converted integers are those of
    the integers.  The integer fast paths of the virtual machine rest on
    this. *)

From stdpp Require Import base list.
From Stdlib Require Import ZArith Lia SpecFloat.
From S2P Require Import Prelude.

Abbreviation round53 := (binary_round 53 1024).
Abbreviation normalize53 := (binary_normalize 53 1024).

(** ** Equality *)

Definition isnan (d : f64) : bool := match d with S754_nan => true | _ => false end.

(** A representative of the class of [==]: the two zeros are equal. *)
Definition f64_class (d : f64) : f64 :=
  match d with S754_zero _ => S754_zero false | _ => d end.

Lemma SFeqb_finite s m e s' m' e' :
  SFeqb (S754_finite s m e) (S754_finite s' m' e') = true <->
  S754_finite s m e = S754_finite s' m' e'.
Proof.
  unfold SFeqb. cbn. change (Pos.compare_cont Eq m m') with (Pos.compare m m').
  destruct s, s'; cbn; try (split; congruence);
    (destruct (Z.compare_spec e e'); [|split; [done|intros H'; injection H'; lia]..]);
    (destruct (Pos.compare_spec m m'); cbn; [|split; [done|intros H'; injection H'; lia]..]);
    subst; done.
Qed.

Lemma SFeqb_class x y :
  SFeqb x y = true <-> isnan x = false /\ f64_class x = f64_class y.
Proof.
  destruct x as [s| s| |s m e], y as [s'| s'| |s' m' e'];
    try (rewrite SFeqb_finite; cbn; intuition congruence);
    unfold SFeqb; cbn; try destruct s; try destruct s'; cbn; intuition congruence.
Qed.

Lemma isnan_class x : isnan x = true <-> f64_class x = S754_nan.
Proof. destruct x; cbn; intuition congruence. Qed.

(** ** Shifts of the rounding functions *)

Lemma digits2_log2 p : Z.pos (digits2_pos p) = Z.log2 (Z.pos p) + 1.
Proof.
  destruct p; cbn; try lia; change (digits2_pos p) with (Pos.size p); lia.
Qed.

Lemma iter_pos_nat {A} (f : A -> A) n x : iter_pos f n x = Nat.iter (Pos.to_nat n) f x.
Proof.
  revert x. induction n as [n IH|n IH|]; intros x; cbn [iter_pos].
  - rewrite !IH, Pos2Nat.inj_xI. replace (S (2 * Pos.to_nat n)) with (Pos.to_nat n + S (Pos.to_nat n))%nat by lia.
    rewrite Nat.iter_add, Nat.iter_succ_r. done.
  - rewrite !IH, Pos2Nat.inj_xO. replace (2 * Pos.to_nat n)%nat with (Pos.to_nat n + Pos.to_nat n)%nat by lia.
    by rewrite Nat.iter_add.
  - done.
Qed.

(** Shifting out zeros. *)
Lemma shr_1_double m : 0 < m -> shr_1 {| shr_m := 2 * m; shr_r := false; shr_s := false |}
  = {| shr_m := m; shr_r := false; shr_s := false |}.
Proof. by destruct m. Qed.

Lemma shr_exact m n e : 0 < m -> 0 <= n ->
  shr {| shr_m := m * 2 ^ n; shr_r := false; shr_s := false |} e n
  = ({| shr_m := m; shr_r := false; shr_s := false |}, e + n).
Proof.
  intros Hm Hn. unfold shr. destruct n as [|p|p]; [by rewrite Z.mul_1_r, Z.add_0_r| |lia].
  f_equal. rewrite iter_pos_nat, <- (positive_nat_Z p). generalize (Pos.to_nat p) as k. intros k.
  induction k as [|k IH]; [by rewrite Z.mul_1_r|].
  rewrite Nat.iter_succ_r, <- IH. f_equal.
  replace (m * 2 ^ Z.of_nat (S k)) with (2 * (m * 2 ^ Z.of_nat k))
    by (rewrite Nat2Z.inj_succ, Z.pow_succ_r by lia; lia).
  apply shr_1_double. nia.
Qed.

Lemma iter_xO p d : Z.pos (Pos.iter xO p d) = Z.pos p * 2 ^ Z.pos d.
Proof.
  induction d as [|d IH] using Pos.peano_ind; [cbn; lia|].
  rewrite Pos.iter_succ, Pos2Z.inj_succ, Z.pow_succ_r by lia.
  change (Z.pos (Pos.iter xO p d)~0) with (2 * Z.pos (Pos.iter xO p d)). lia.
Qed.

Lemma shl_align_value p e e' :
  e' <= e -> Z.pos (shl_align p e e').1 = Z.pos p * 2 ^ (e - e').
Proof.
  intros H. unfold shl_align. destruct (e' - e) as [|d|d] eqn:E; cbn [fst].
  - replace (e - e') with 0 by lia. lia.
  - lia.
  - rewrite iter_xO. do 2 f_equal. lia.
Qed.

(** ** Exact values round to themselves *)

Lemma fexp_53 e : -1074 <= e -> fexp 53 1024 (53 + e) = e.
Proof. unfold fexp, emin. lia. Qed.

Lemma log2_shift m n : 0 < m -> 0 <= n -> Z.log2 (m * 2 ^ n) = Z.log2 m + n.
Proof. intros. rewrite <- Z.shiftl_mul_pow2, Z.log2_shiftl by lia. lia. Qed.

Lemma zdigits2_log2 m : 0 < m -> Zdigits2 m = Z.log2 m + 1.
Proof. destruct m; [lia| |lia]. intros _. apply digits2_log2. Qed.

Lemma round_aux_exact s M E n :
  0 < M -> Z.log2 M = 52 -> -1074 <= E <= 971 -> 0 <= n ->
  binary_round_aux 53 1024 s (M * 2 ^ n) (E - n) loc_Exact = S754_finite s (Z.to_pos M) E.
Proof.
  intros HM Hlog HE Hn. unfold binary_round_aux, shr_fexp. cbn [shr_record_of_loc].
  rewrite (zdigits2_log2 (M * 2 ^ n)), log2_shift, Hlog by nia.
  replace (52 + n + 1 + (E - n)) with (53 + E) by lia. rewrite fexp_53 by lia.
  replace (E - (E - n)) with n by lia. rewrite shr_exact by lia.
  cbn [shr_m loc_of_shr_record round_nearest_even shr_record_of_loc].
  replace (E - n + n) with E by lia. rewrite zdigits2_log2, Hlog by lia.
  replace (52 + 1 + E) with (53 + E) by lia. rewrite fexp_53, Z.sub_diag by lia. cbn [shr shr_m].
  destruct M as [|M|M]; [lia| |lia]. cbn [Z.to_pos].
  destruct (Z.leb_spec E (1024 - 53)); [done|lia].
Qed.

(** [p * 2 ^ e = M * 2 ^ E], with [M] of 53 bits. *)
Definition same_value (p e M E : Z) : Prop :=
  e <= E /\ p = M * 2 ^ (E - e) \/ E <= e /\ M = p * 2 ^ (e - E).

Lemma round_exact s p e M E :
  0 < M -> Z.log2 M = 52 -> -1074 <= E <= 971 -> same_value (Z.pos p) e M E ->
  round53 s p e = S754_finite s (Z.to_pos M) E.
Proof.
  intros HM Hlog HE Hv. unfold binary_round. rewrite digits2_log2.
  assert (Z.log2 (Z.pos p) + e = 52 + E) as Hl.
  { destruct Hv as [[Hle ->]|[Hle Hv]]; [rewrite log2_shift by lia; lia|].
    rewrite Hv, log2_shift in Hlog by lia. lia. }
  replace (Z.log2 (Z.pos p) + 1 + e) with (53 + E) by lia. rewrite fexp_53 by lia.
  destruct Hv as [[Hle Hv]|[Hle Hv]].
  - replace (shl_align p e E) with (p, e).
    + rewrite Hv. replace e with (E - (E - e)) at 2 by lia. apply round_aux_exact; lia.
    + unfold shl_align. by destruct (E - e) eqn:?; [| |lia].
  - pose proof (shl_align_value p e E Hle) as Hs.
    assert ((shl_align p e E).2 = E) as He
      by (unfold shl_align; destruct (E - e) eqn:?; cbn [snd]; lia).
    destruct (shl_align p e E) as [q e']. cbn [fst snd] in *. subst e'. rewrite Hs, <- Hv.
    pose proof (round_aux_exact s M E 0 HM Hlog HE ltac:(lia)) as H.
    by rewrite Z.mul_1_r, Z.sub_0_r in H.
Qed.

(** ** Integers *)

Definition small_int (z : Z) : Prop := Z.abs z < 2 ^ 53.

(** The 53-bit mantissa and exponent of an integer. *)
Definition int_mantissa (z : Z) : Z := Z.abs z * 2 ^ (52 - Z.log2 (Z.abs z)).
Definition int_exponent (z : Z) : Z := Z.log2 (Z.abs z) - 52.

Lemma int_form z :
  small_int z -> z <> 0 ->
  0 < int_mantissa z /\ Z.log2 (int_mantissa z) = 52 /\ -52 <= int_exponent z <= 0 /\
  int_mantissa z = Z.abs z * 2 ^ (- int_exponent z).
Proof.
  intros Hs Hz. unfold small_int, int_mantissa, int_exponent in *.
  assert (0 <= Z.log2 (Z.abs z) <= 52) as Hl.
  { split; [apply Z.log2_nonneg|]. apply Z.lt_succ_r. apply Z.log2_lt_pow2; [lia|exact Hs]. }
  split_and!; [|rewrite log2_shift by lia; lia|lia|lia|f_equal; f_equal; lia].
  apply Z.mul_pos_pos; [lia|]. apply Z.pow_pos_nonneg; lia.
Qed.

(** An integer given with an exponent that is not positive. *)
Lemma normalize_int z e :
  small_int z -> z <> 0 -> e <= 0 ->
  normalize53 (z * 2 ^ (- e)) e false
  = S754_finite (z <? 0) (Z.to_pos (int_mantissa z)) (int_exponent z).
Proof.
  intros Hs Hz He. destruct (int_form z Hs Hz) as (H1 & H2 & H3 & H4).
  assert (0 < 2 ^ (- e)) as Hp by (apply Z.pow_pos_nonneg; lia).
  assert (same_value (Z.abs z * 2 ^ (- e)) e (int_mantissa z) (int_exponent z)) as Hv.
  { destruct (Z.le_ge_cases e (int_exponent z)); [left|right]; (split; [lia|]); rewrite H4.
    - rewrite <- Z.mul_assoc, <- Z.pow_add_r by lia. do 2 f_equal. lia.
    - rewrite <- Z.mul_assoc, <- Z.pow_add_r by lia. do 2 f_equal. lia. }
  destruct z as [|z|z]; [done| |]; cbn [Z.ltb Z.compare];
    [change (Z.abs (Z.pos z)) with (Z.pos z) in Hv|change (Z.abs (Z.neg z)) with (Z.pos z) in Hv].
  - destruct (Z.pos z * 2 ^ (- e)) as [|p|p] eqn:E; [lia| |lia].
    cbn [binary_normalize]. apply round_exact; [done|done|lia|exact Hv].
  - replace (Z.neg z * 2 ^ (- e)) with (- (Z.pos z * 2 ^ (- e))) by lia.
    destruct (Z.pos z * 2 ^ (- e)) as [|p|p] eqn:E; [lia| |lia].
    cbn [Z.opp binary_normalize]. apply round_exact; [done|done|lia|exact Hv].
Qed.

Lemma f64_of_int z :
  small_int z -> z <> 0 ->
  f64_of_Z z = S754_finite (z <? 0) (Z.to_pos (int_mantissa z)) (int_exponent z).
Proof.
  intros Hs Hz. unfold f64_of_Z. rewrite <- (normalize_int z 0 Hs Hz) by lia.
  by rewrite Z.mul_1_r.
Qed.

(** The signed mantissa aligned to a smaller exponent. *)
Lemma aligned_int z e :
  small_int z -> z <> 0 -> e <= int_exponent z ->
  cond_Zopp (z <? 0) (Z.pos (shl_align (Z.to_pos (int_mantissa z)) (int_exponent z) e).1)
  = z * 2 ^ (- e).
Proof.
  intros Hs Hz He. destruct (int_form z Hs Hz) as (H1 & H2 & H3 & H4).
  rewrite shl_align_value, Z2Pos.id, H4 by lia.
  rewrite <- Z.mul_assoc, <- Z.pow_add_r by lia.
  replace (- int_exponent z + (int_exponent z - e)) with (- e) by lia.
  destruct z; [done| |]; cbn [Z.ltb Z.compare cond_Zopp Z.abs]; lia.
Qed.

Lemma f64_of_Z_zero z : f64_of_Z z = S754_zero false -> small_int z -> z = 0.
Proof.
  intros H Hs. destruct (Z.eq_dec z 0) as [|Hz]; [done|]. by rewrite f64_of_int in H.
Qed.

(** Sum and difference, both through [f]. *)
Lemma add_ints f x y :
  small_int x -> small_int y -> small_int (f x y) -> x <> 0 -> y <> 0 ->
  (forall a b c, f (a * c) (b * c) = f a b * c) ->
  let ez := Z.min (int_exponent x) (int_exponent y) in
  normalize53
    (f (cond_Zopp (x <? 0) (Z.pos (shl_align (Z.to_pos (int_mantissa x)) (int_exponent x) ez).1))
       (cond_Zopp (y <? 0) (Z.pos (shl_align (Z.to_pos (int_mantissa y)) (int_exponent y) ez).1)))
    ez false = f64_of_Z (f x y).
Proof.
  intros Hx Hy Hs Hx0 Hy0 Hf ez. unfold ez. rewrite !aligned_int by (done || lia). rewrite Hf.
  destruct (int_form x Hx Hx0) as (_ & _ & ? & _).
  destruct (int_form y Hy Hy0) as (_ & _ & ? & _).
  destruct (Z.eq_dec (f x y) 0) as [->|Hz]; [by rewrite Z.mul_0_l|].
  rewrite normalize_int by (done || lia). by rewrite f64_of_int.
Qed.

Lemma f64_add_int x y :
  small_int x -> small_int y -> small_int (x + y) ->
  f64_add (f64_of_Z x) (f64_of_Z y) = f64_of_Z (x + y).
Proof.
  intros Hx Hy Hs. unfold f64_add.
  destruct (Z.eq_dec x 0) as [->|Hx0], (Z.eq_dec y 0) as [->|Hy0]; [done| | |].
  - rewrite Z.add_0_l, (f64_of_int y) by done. reflexivity.
  - rewrite Z.add_0_r, (f64_of_int x) by done. reflexivity.
  - rewrite (f64_of_int x), (f64_of_int y) by done. cbn [SFadd].
    apply (add_ints Z.add); try done. intros; lia.
Qed.

Lemma f64_sub_int x y :
  small_int x -> small_int y -> small_int (x - y) ->
  f64_sub (f64_of_Z x) (f64_of_Z y) = f64_of_Z (x - y).
Proof.
  intros Hx Hy Hs. unfold f64_sub.
  destruct (Z.eq_dec x 0) as [->|Hx0], (Z.eq_dec y 0) as [->|Hy0]; [done| | |].
  - rewrite (f64_of_int y) by done. cbn [f64_of_Z binary_normalize SFsub].
    rewrite f64_of_int by (done || lia). unfold int_mantissa, int_exponent.
    rewrite Z.sub_0_l, Z.abs_opp. f_equal. destruct y; done.
  - rewrite Z.sub_0_r, (f64_of_int x) by done. reflexivity.
  - rewrite (f64_of_int x), (f64_of_int y) by done. cbn [SFsub].
    apply (add_ints Z.sub); try done. intros; lia.
Qed.

(** Comparison *)

Lemma int_mantissa_compare x y :
  small_int x -> small_int y -> 0 < x -> 0 < y ->
  match int_exponent x ?= int_exponent y with
  | Eq => int_mantissa x ?= int_mantissa y
  | c => c
  end = (x ?= y).
Proof.
  intros Hx Hy Hx0 Hy0. unfold int_exponent, int_mantissa. rewrite !Z.abs_eq by lia.
  destruct (Z.compare_spec (Z.log2 x - 52) (Z.log2 y - 52)) as [E|E|E].
  - replace (Z.log2 y) with (Z.log2 x) by lia.
    pose proof (Z.log2_le_mono x (2 ^ 53 - 1) ltac:(unfold small_int in Hx; lia)) as Hl.
    change (Z.log2 (2 ^ 53 - 1)) with 52 in Hl.
    rewrite !(Z.mul_comm _ (2 ^ _)). symmetry. apply Zmult_compare_compat_l.
    pose proof (Z.pow_pos_nonneg 2 (52 - Z.log2 x) ltac:(lia) ltac:(lia)). lia.
  - symmetry. apply Z.compare_lt_iff, Z.log2_lt_cancel. lia.
  - symmetry. apply Z.compare_gt_iff, Z.log2_lt_cancel. lia.
Qed.

Lemma f64_compare_int x y :
  small_int x -> small_int y -> SFcompare (f64_of_Z x) (f64_of_Z y) = Some (x ?= y).
Proof.
  intros Hx Hy.
  destruct (Z.eq_dec x 0) as [->|Hx0], (Z.eq_dec y 0) as [->|Hy0]; [done| | |].
  - rewrite (f64_of_int y) by done. by destruct y.
  - rewrite (f64_of_int x) by done. by destruct x.
  - rewrite (f64_of_int x), (f64_of_int y) by done. cbn [SFcompare]. f_equal.
    destruct (int_form x Hx Hx0) as (H1 & _). destruct (int_form y Hy Hy0) as (H2 & _).
    change (Pos.compare_cont Eq) with Pos.compare.
    assert ((Z.to_pos (int_mantissa x) ?= Z.to_pos (int_mantissa y))%positive
      = (int_mantissa x ?= int_mantissa y)) as -> by (rewrite Z2Pos.inj_compare by lia; done).
    destruct x as [|x|x], y as [|y|y]; try done; cbn [Z.ltb Z.compare].
    + pose proof (int_mantissa_compare (Z.pos x) (Z.pos y)) as H.
      change (Z.pos x ?= Z.pos y) with (x ?= y)%positive in H.
      rewrite <- H by done. by destruct (int_exponent _ ?= int_exponent _).
    + pose proof (int_mantissa_compare (Z.pos x) (Z.pos y)) as H.
      change (int_mantissa (Z.neg x)) with (int_mantissa (Z.pos x)).
      change (int_mantissa (Z.neg y)) with (int_mantissa (Z.pos y)).
      change (int_exponent (Z.neg x)) with (int_exponent (Z.pos x)).
      change (int_exponent (Z.neg y)) with (int_exponent (Z.pos y)).
      change (Pos.compare_cont Eq x y) with (x ?= y)%positive.
      change (Z.pos x ?= Z.pos y) with (x ?= y)%positive in H.
      rewrite <- H by done. by destruct (int_exponent _ ?= int_exponent _).
Qed.

Lemma f64_ltb_int x y : small_int x -> small_int y -> f64_ltb (f64_of_Z x) (f64_of_Z y) = (x <? y).
Proof. intros. unfold f64_ltb, SFltb. rewrite f64_compare_int by done. by unfold Z.ltb. Qed.
Lemma f64_leb_int x y : small_int x -> small_int y -> f64_leb (f64_of_Z x) (f64_of_Z y) = (x <=? y).
Proof. intros. unfold f64_leb, SFleb. rewrite f64_compare_int by done. by unfold Z.leb. Qed.
Lemma f64_eqb_int x y : small_int x -> small_int y -> f64_eqb (f64_of_Z x) (f64_of_Z y) = (x =? y).
Proof.
  intros. unfold f64_eqb, SFeqb. rewrite f64_compare_int by done.
  rewrite Z.eqb_compare. done.
Qed.
