(* ===== verification/Values.v ===== *)
(** JavaScript values as the C code holds them ([LRValue] of
    [src/src/engine/lr_engine.h]), the key comparison and hash of the [Map] and
    [Set] tables (the same functions in [src/src/lr_map.c] and
    [src/src/lr_set.c]), and open-addressing probe sequences.

    A heap value is an address, except a string, which is its bytes: the tables
    compare and hash strings by content.  A double is its 64-bit pattern. *)

From stdpp Require Import base list.
From Stdlib Require Import ZArith Lia SpecFloat.
From S2P Require Import Prelude.
From S2P Require Import F64.

(** ** Values *)

Inductive LRValue :=
  | VUndefined
  | VNull
  | VBool (b : bool)
  | VInt32 (i : Z)
  | VFloat64 (bits : Z)
  | VString (s : list Z)
  | VObject (ptr : Z)
  | VSymbol (ptr : Z)
  | VException.

(** [lr_dup_value]: a reference count for strings and objects, but a fresh copy
    of the description, at address [fresh], for a symbol. *)
Definition lr_dup_value (fresh : Z) (v : LRValue) : LRValue :=
  match v with VSymbol _ => VSymbol fresh | _ => v end.

Definition same_value_zero (a b : LRValue) : bool :=
  match a, b with
  | VUndefined, VUndefined => true
  | VNull, VNull => true
  | VBool x, VBool y => Bool.eqb x y
  | VInt32 x, VInt32 y => x =? y
  | VFloat64 x, VFloat64 y =>
      let x := f64_of_bits x in
      let y := f64_of_bits y in
      if isnan x && isnan y then true else f64_eqb x y
  | VString x, VString y => bool_decide (x = y)
  | VObject x, VObject y => x =? y
  | VSymbol x, VSymbol y => x =? y
  | _, _ => false
  end.

(** [hash = hash * 33 + b] over bytes, in [uint32_t]. *)
Definition djb2 (hash : Z) (bs : list Z) : Z :=
  fold_left (fun h b => u32 (h * 33 + b)) bs hash.

Definition hash_value (v : LRValue) : Z :=
  let hash :=
    match v with
    | VUndefined => djb2 5381 [0]
    | VNull => djb2 5381 [1]
    | VBool b => djb2 5381 [if b then 2 else 3]
    | VInt32 i => djb2 5381 (le_bytes 4 (u32 i))
    | VFloat64 bits => djb2 5381 (le_bytes 8 bits)
    | VString s => djb2 5381 s
    | VObject p | VSymbol p => djb2 5381 (le_bytes 8 p)
    | VException => 5381
    end in
  Z.land hash 2147483647.

(** The test of a slot against a key: the keys the code identifies. *)
Definition key_eq (a b : LRValue) : bool :=
  (hash_value a =? hash_value b) && same_value_zero a b.

(** *** Equality of keys *)

(** A representative of a value's class under SameValueZero. *)
Inductive key_class :=
  | KValue (v : LRValue)
  | KNumber (d : f64).

Definition class_of (v : LRValue) : key_class :=
  match v with VFloat64 bits => KNumber (f64_class (f64_of_bits bits)) | _ => KValue v end.

Definition usable (v : LRValue) : bool :=
  match v with VException => false | _ => true end.

(** SameValueZero is equality of classes, except that [VException] is equal to
    nothing. *)
Lemma same_value_zero_class a b :
  same_value_zero a b = true <-> usable a = true /\ class_of a = class_of b.
Proof.
  destruct a, b; cbn; try intuition congruence.
  - rewrite eqb_true_iff. intuition congruence.
  - rewrite Z.eqb_eq. intuition congruence.
  - pose proof (isnan_class (f64_of_bits bits)) as Hx.
    pose proof (isnan_class (f64_of_bits bits0)) as Hy.
    pose proof (SFeqb_class (f64_of_bits bits) (f64_of_bits bits0)) as He.
    unfold f64_eqb. revert Hx Hy He. generalize (f64_of_bits bits) (f64_of_bits bits0).
    intros x y Hx Hy He. destruct (isnan x) eqn:Ex, (isnan y) eqn:Ey; cbn.
    + intuition congruence.
    + split; [intros H; apply He in H as [? _]; congruence|]. intros [_ E].
      injection E as E. rewrite E in Hx. destruct Hx as [Hx _], Hy as [_ Hy].
      discriminate (Hy (Hx eq_refl)).
    + rewrite He. intuition congruence.
    + rewrite He. intuition congruence.
  - rewrite bool_decide_eq_true. intuition congruence.
  - rewrite Z.eqb_eq. intuition congruence.
  - rewrite Z.eqb_eq. intuition congruence.
Qed.

Lemma key_eq_spec a b :
  key_eq a b = true <->
  hash_value a = hash_value b /\ usable a = true /\ class_of a = class_of b.
Proof. unfold key_eq. by rewrite andb_true_iff, Z.eqb_eq, same_value_zero_class. Qed.

Lemma usable_class a b : class_of a = class_of b -> usable a = usable b.
Proof. by destruct a, b; cbn; try congruence. Qed.

Lemma key_eq_refl a : usable a = true -> key_eq a a = true.
Proof. intros. by apply key_eq_spec. Qed.

Lemma key_eq_sym a b : key_eq a b = key_eq b a.
Proof.
  apply eq_true_iff_eq. rewrite !key_eq_spec.
  split; intros (? & ? & E); split_and!; try done; pose proof (usable_class _ _ E); congruence.
Qed.

Lemma key_eq_trans a b c : key_eq a b = true -> key_eq a c = key_eq b c.
Proof.
  rewrite key_eq_spec. intros (E1 & E2 & E3). apply eq_true_iff_eq. rewrite !key_eq_spec.
  pose proof (usable_class _ _ E3). split; intros (? & ? & ?); split_and!; congruence.
Qed.

Lemma hash_value_range v : 0 <= hash_value v < 2 ^ 31.
Proof.
  unfold hash_value. change 2147483647 with (Z.ones 31). rewrite Z.land_ones by lia.
  apply Z.mod_pos_bound. lia.
Qed.

(** A value the tables can find again: not a symbol, not an exception. *)
Definition plain_value (v : LRValue) : bool :=
  match v with VSymbol _ | VException => false | _ => true end.

Lemma lr_dup_plain fresh v : plain_value v = true -> lr_dup_value fresh v = v.
Proof. by destruct v. Qed.

(** *** SameValueZero

    The comparison of keys the language asks for: numbers by value, whatever their
    representation, NaN equal to itself and the zeros to each other. *)

(** The number a value is. *)
Definition js_number (v : LRValue) : option f64 :=
  match v with
  | VInt32 i => Some (f64_of_Z i)
  | VFloat64 bits => Some (f64_of_bits bits)
  | _ => None
  end.

Definition SameValueZero (a b : LRValue) : bool :=
  match js_number a, js_number b with
  | Some x, Some y => isnan x && isnan y || f64_eqb x y
  | Some _, None | None, Some _ => false
  | None, None =>
      match a, b with
      | VUndefined, VUndefined | VNull, VNull => true
      | VBool x, VBool y => Bool.eqb x y
      | VString x, VString y => bool_decide (x = y)
      | VObject x, VObject y | VSymbol x, VSymbol y => x =? y
      | _, _ => false
      end
  end.

(** The bits of the NaN that [NAN] is. *)
Definition canonical_nan : Z := 9221120237041090560.

(** Numbers in one representation: an integer of 32 bits as [VInt32], so that no
    double is one, a zero included, and one NaN. *)
Definition canonical (v : LRValue) : Prop :=
  match v with
  | VInt32 i => - 2 ^ 31 <= i < 2 ^ 31
  | VFloat64 bits =>
      0 <= bits < 2 ^ 64 /\
      (isnan (f64_of_bits bits) = true -> bits = canonical_nan) /\
      (forall i, - 2 ^ 31 <= i < 2 ^ 31 -> f64_eqb (f64_of_bits bits) (f64_of_Z i) = false)
  | _ => True
  end.

(** Sign, exponent and mantissa make up the pattern. *)
Lemma bits_fields b :
  0 <= b < 2 ^ 64 ->
  b = 2 ^ 63 * Z.b2z (Z.testbit b 63) + 2 ^ 52 * Z.land (Z.shiftr b 52) 2047
      + Z.land b (2 ^ 52 - 1) /\
  0 <= Z.land (Z.shiftr b 52) 2047 < 2048 /\ 0 <= Z.land b (2 ^ 52 - 1) < 2 ^ 52.
Proof.
  intros Hb. change (2 ^ 52 - 1) with (Z.ones 52). change 2047 with (Z.ones 11).
  rewrite !Z.land_ones, Z.shiftr_div_pow2, Z.testbit_spec' by lia.
  change (2 ^ 11) with 2048. divlia.
Qed.

Lemma f64_of_bits_inj x y :
  0 <= x < 2 ^ 64 -> 0 <= y < 2 ^ 64 -> isnan (f64_of_bits x) = false ->
  f64_of_bits x = f64_of_bits y -> x = y.
Proof.
  intros Hx Hy. destruct (bits_fields x Hx) as (Ex & Hex & Hmx).
  destruct (bits_fields y Hy) as (Ey & Hey & Hmy). unfold f64_of_bits. revert Ex Ey Hex Hey Hmx Hmy.
  generalize (Z.testbit x 63) (Z.testbit y 63) (Z.land (Z.shiftr x 52) 2047)
    (Z.land (Z.shiftr y 52) 2047) (Z.land x (2 ^ 52 - 1)) (Z.land y (2 ^ 52 - 1)).
  intros s s' e e' m m' Ex Ey Hex Hey Hmx Hmy.
  destruct (Z.eqb_spec e 2047), (Z.eqb_spec e' 2047), (Z.eqb_spec m 0), (Z.eqb_spec m' 0),
    (Z.eqb_spec e 0), (Z.eqb_spec e' 0); try lia; cbn [isnan]; try discriminate;
    destruct m as [|q|q], m' as [|q'|q']; try lia; cbn [Z.add]; intros _ [=]; subst; lia.
Qed.

Lemma canonical_class x y :
  canonical (VFloat64 x) -> canonical (VFloat64 y) ->
  f64_class (f64_of_bits x) = f64_class (f64_of_bits y) -> x = y.
Proof.
  intros (Hx & Nx & Ix) (Hy & Ny & _) E.
  destruct (isnan (f64_of_bits x)) eqn:En.
  { rewrite Nx by done. symmetry. apply Ny, isnan_class. rewrite <- E. by apply isnan_class. }
  apply f64_of_bits_inj; try done. specialize (Ix 0 ltac:(lia)). unfold f64_eqb in Ix. cbn in Ix.
  destruct (f64_of_bits x), (f64_of_bits y); cbn in *; congruence.
Qed.

Lemma f64_eqb_sym x y : f64_eqb x y = f64_eqb y x.
Proof.
  apply eq_true_iff_eq. unfold f64_eqb. rewrite !SFeqb_class.
  split; intros [H1 H2]; (split; [|done]); apply not_true_is_false; intros H3%isnan_class;
    apply not_true_iff_false in H1; apply H1, isnan_class; congruence.
Qed.

Lemma f64_of_Z_not_nan i : - 2 ^ 31 <= i < 2 ^ 31 -> isnan (f64_of_Z i) = false.
Proof.
  intros Hi. assert (f64_eqb (f64_of_Z i) (f64_of_Z i) = true) as H
    by (rewrite f64_eqb_int by (unfold small_int; lia); apply Z.eqb_refl).
  unfold f64_eqb in H. by apply SFeqb_class in H as [? _].
Qed.

Lemma key_eq_floats x y :
  canonical (VFloat64 x) -> canonical (VFloat64 y) ->
  key_eq (VFloat64 x) (VFloat64 y) = SameValueZero (VFloat64 x) (VFloat64 y).
Proof.
  intros Ha Hb. unfold key_eq.
  assert (same_value_zero (VFloat64 x) (VFloat64 y) = SameValueZero (VFloat64 x) (VFloat64 y)) as <-.
  { cbn [same_value_zero SameValueZero js_number]. by destruct (_ && _). }
  destruct (same_value_zero _ _) eqn:E; [|apply andb_false_r].
  apply same_value_zero_class in E as [_ E]. unfold class_of in E.
  assert (f64_class (f64_of_bits x) = f64_class (f64_of_bits y)) as E'.
  { revert E. generalize (f64_class (f64_of_bits x)) (f64_class (f64_of_bits y)). congruence. }
  by rewrite (canonical_class x y Ha Hb E'), Z.eqb_refl.
Qed.

(** On canonical values the code compares as the language asks: equal values have
    equal hashes, and no two representations of a number meet. *)
Lemma key_eq_SameValueZero a b : canonical a -> canonical b -> key_eq a b = SameValueZero a b.
Proof.
  intros Ha Hb. destruct a as [| |x|i|x|s|p|p|], b as [| |y|j|y|t|q|q|];
    lazymatch goal with
    | |- key_eq (VFloat64 _) (VFloat64 _) = _ => apply key_eq_floats; assumption
    | _ => unfold key_eq; cbn [same_value_zero SameValueZero js_number];
        rewrite ?andb_false_r, ?Z.eqb_refl, ?andb_true_l; lazymatch goal with |- ?b = ?b => exact eq_refl | _ => idtac end
    end.
  - destruct x, y; done.
  - cbn [canonical] in *. rewrite f64_of_Z_not_nan, f64_eqb_int by (unfold small_int; lia).
    cbn [andb orb]. destruct (Z.eqb_spec i j) as [->|]; [by rewrite Z.eqb_refl|apply andb_false_r].
  - cbn [canonical] in *. destruct Hb as (_ & _ & Hb). rewrite f64_eqb_sym, Hb by done.
    by rewrite f64_of_Z_not_nan.
  - cbn [canonical] in *. destruct Ha as (_ & _ & Ha). rewrite Ha by done.
    by rewrite f64_of_Z_not_nan, andb_false_r.
  - destruct (bool_decide_reflect (s = t)) as [->|]; [by rewrite Z.eqb_refl|apply andb_false_r].
  - destruct (Z.eqb_spec p q) as [->|]; [by rewrite Z.eqb_refl|apply andb_false_r].
  - destruct (Z.eqb_spec p q) as [->|]; [by rewrite Z.eqb_refl|apply andb_false_r].
Qed.

(** What the code takes for different keys: [0.0] and [-0.0], [1] and [1.0], and two
    NaNs of different bits. *)
Lemma key_eq_not_SameValueZero :
  (SameValueZero (VFloat64 0) (VFloat64 (2 ^ 63)) = true /\ key_eq (VFloat64 0) (VFloat64 (2 ^ 63)) = false) /\
  (SameValueZero (VInt32 1) (VFloat64 4607182418800017408) = true /\
   key_eq (VInt32 1) (VFloat64 4607182418800017408) = false) /\
  (SameValueZero (VFloat64 canonical_nan) (VFloat64 (canonical_nan + 1)) = true /\
   key_eq (VFloat64 canonical_nan) (VFloat64 (canonical_nan + 1)) = false).
Proof. vm_compute. repeat split. Qed.

(** [1.5] is canonical. *)
Lemma canonical_one_and_a_half : canonical (VFloat64 4609434218613702656).
Proof.
  split; [lia|]. split; [intros H; discriminate H|]. intros i Hi. apply not_true_is_false.
  unfold f64_eqb. rewrite SFeqb_class. intros [_ E].
  destruct (Z.eq_dec i 0) as [->|]; [discriminate E|].
  assert (small_int i) as Hs by (unfold small_int; lia).
  destruct (int_form i Hs) as (H1 & H2 & H3 & H4); [done|].
  rewrite f64_of_int in E by done.
  change (S754_finite false 6755399441055744 (-52)
    = S754_finite (i <? 0) (Z.to_pos (int_mantissa i)) (int_exponent i)) in E.
  injection E as _ Em Ee. apply (f_equal Z.pos) in Em. rewrite Z2Pos.id in Em by done.
  rewrite <- Em, <- Ee in H4. change (2 ^ (- -52)) with 4503599627370496 in H4. lia.
Qed.

(** ** Probe sequences

    A table of [cap = 2 ^ k] slots; the [d]-th probe of hash [h] is
    [(h + d) & (cap - 1)]. *)

(** The largest power of two an [int32_t] holds. *)
Definition max_capacity : Z := 2 ^ 30.

(** [capacity * 2] of an [int32_t], which wraps at [max_capacity]. *)
Definition doubled (cap : Z) : Z := i32 (cap * 2).

Lemma pow2_small k : 0 <= k -> 2 ^ k <= max_capacity -> 2 ^ k <> max_capacity -> 2 ^ (k + 1) <= max_capacity.
Proof.
  intros Hk Hle Hne. unfold max_capacity in *. apply Z.pow_le_mono_r; [lia|].
  destruct (Z.le_gt_cases k 29); [lia|]. exfalso. apply Hne.
  replace k with 30; [done|]. apply Z.le_antisymm; [lia|]. by apply (Z.pow_le_mono_r_iff 2).
Qed.

Lemma doubled_pow2 k :
  0 <= k -> 2 ^ k <= max_capacity -> 2 ^ k <> max_capacity -> doubled (2 ^ k) = 2 ^ (k + 1).
Proof.
  intros Hk Hle Hne. pose proof (pow2_small k Hk Hle Hne) as H. unfold doubled, max_capacity in *.
  pose proof (Z.pow_pos_nonneg 2 k). rewrite Z.pow_add_r in * by lia. rewrite i32_small; lia.
Qed.

Definition next_slot (cap idx : Z) : Z := Z.land (idx + 1) (cap - 1).
Definition home_slot (cap hash : Z) : Z := Z.land hash (cap - 1).
Definition probe (cap h d : Z) : Z := (h + d) mod cap.

Section Sequence.

Context (cap k : Z) (Hk : 0 <= k) (Hcap : cap = 2 ^ k).

Lemma cap_pos : 0 < cap.
Proof. subst cap. apply Z.pow_pos_nonneg; lia. Qed.

Lemma land_cap x : Z.land x (cap - 1) = x mod cap.
Proof.
  rewrite Hcap. replace (2 ^ k - 1) with (Z.ones k) by (rewrite Z.ones_equiv; lia).
  by rewrite Z.land_ones.
Qed.

Lemma home_probe h : home_slot cap h = probe cap h 0.
Proof. unfold home_slot, probe. by rewrite land_cap, Z.add_0_r. Qed.

Lemma next_probe h d : next_slot cap (probe cap h d) = probe cap h (d + 1).
Proof.
  pose proof cap_pos. unfold next_slot, probe. rewrite land_cap.
  rewrite Z.add_mod_idemp_l by lia. f_equal. lia.
Qed.

Lemma probe_range h d : 0 <= probe cap h d < cap.
Proof. pose proof cap_pos. apply Z.mod_pos_bound. lia. Qed.

(** Every slot is probed within [cap] steps. *)
Lemma probe_cover h j : 0 <= j < cap -> exists d, 0 <= d < cap /\ probe cap h d = j.
Proof.
  intros Hj. pose proof cap_pos. exists ((j - h) mod cap).
  split; [apply Z.mod_pos_bound; lia|]. unfold probe.
  rewrite Z.add_mod_idemp_r by lia. replace (h + (j - h)) with j by lia.
  by apply Z.mod_small.
Qed.

Lemma probe_inj h d1 d2 :
  0 <= d1 < cap -> 0 <= d2 < cap -> probe cap h d1 = probe cap h d2 -> d1 = d2.
Proof.
  intros H1 H2 E. pose proof cap_pos. unfold probe in E.
  assert ((d1 - d2) mod cap = 0) as E0.
  { replace (d1 - d2) with ((h + d1) - (h + d2)) by lia.
    by rewrite Zminus_mod, E, Z.sub_diag. }
  apply Z.mod_divide in E0 as [q E0]; [|lia]. assert (q = 0) by nia. lia.
Qed.

End Sequence.

Section Probe.

Context {A : Type} (cap : Z) (es : list A).

Definition slot (j : Z) : option A := es !! Z.to_nat j.

(** [for (i = 0; i < capacity; i++, idx = next)]: the first slot that satisfies
    [p]. *)
Fixpoint scan (p : A -> bool) (n : nat) (idx : Z) : option Z :=
  match n with
  | O => None
  | S n' =>
      match slot idx with
      | Some e => if p e then Some idx else scan p n' (next_slot cap idx)
      | None => None
      end
  end.

Context (k : Z) (Hk : 0 <= k) (Hcap : cap = 2 ^ k) (Hlen : zlen es = cap).

Lemma slot_some j : 0 <= j < cap -> exists e, slot j = Some e.
Proof.
  clear Hk Hcap. intros Hj. unfold slot. destruct (es !! Z.to_nat j) eqn:E; [eauto|].
  apply lookup_ge_None in E. unfold zlen in Hlen. lia.
Qed.

Lemma scan_spec p n h d :
  match scan p n (probe cap h d) with
  | Some j => exists d' e, d <= d' < d + Z.of_nat n /\ j = probe cap h d' /\
                slot j = Some e /\ p e = true /\
                forall d'' e', d <= d'' < d' -> slot (probe cap h d'') = Some e' -> p e' = false
  | None => forall d' e, d <= d' < d + Z.of_nat n -> slot (probe cap h d') = Some e -> p e = false
  end.
Proof.
  revert d. induction n as [|n IH]; intros d; cbn [scan]; [intros; lia|].
  destruct (slot_some (probe cap h d) (probe_range cap k Hk Hcap h d)) as [e He]. rewrite He.
  destruct (p e) eqn:Ep.
  - exists d, e. split_and!; try done; lia.
  - specialize (IH (d + 1)). rewrite <- (next_probe cap k Hk Hcap) in IH.
    destruct (scan p n (next_slot cap (probe cap h d))) as [j|].
    + destruct IH as (d' & e' & ? & -> & ? & ? & Hb). exists d', e'. split_and!; try done; try lia.
      intros d'' e'' Hd Hs. destruct (decide (d'' = d)) as [->|]; [congruence|].
      eapply Hb; [|done]. lia.
    + intros d' e' Hd Hs. destruct (decide (d' = d)) as [->|]; [congruence|].
      eapply IH; [|done]. lia.
Qed.

(** A whole-table scan finds a satisfying slot exactly when there is one. *)
Lemma scan_all p h :
  match scan p (Z.to_nat cap) (home_slot cap h) with
  | Some j => 0 <= j < cap /\ exists e, slot j = Some e /\ p e = true
  | None => forall j e, 0 <= j < cap -> slot j = Some e -> p e = false
  end.
Proof.
  rewrite (home_probe cap k Hk Hcap). pose proof (scan_spec p (Z.to_nat cap) h 0) as H.
  pose proof (cap_pos cap k Hk Hcap).
  destruct (scan _ _ _) as [j|].
  - destruct H as (d & e & _ & -> & ? & ? & _). split; [by eapply probe_range|]. eauto.
  - intros j e Hj He. destruct (probe_cover cap k Hk Hcap h j Hj) as (d & Hd & <-). eapply H; [|done]. lia.
Qed.

End Probe.
