(* ===== verification/MapTable.v ===== *)
(** [Map]: the open-addressing hash table of [src/src/lr_map.c] and its
    prototype methods.

    [LRMapData] is the table.  A Map object is its opaque table and its [size]
    data property; the methods take a [receiver], what [this] is, and return a
    [js_result].  [lr_dup_value] and [lr_free_value] only count references,
    except for symbols, which are copied: [fresh_key] and [fresh_value] are the
    addresses of the copies.  Building iterator and result objects is not
    modelled: an iterator is its data, a step its result.

    The theorems: on keys that are canonical and not symbols [set] and [delete]
    implement an update of the function [map_get] under SameValueZero, with
    [count] the number of keys; and what goes wrong: a table whose free slots
    are all tombstones refuses new keys, symbols are lost as keys, and the two
    zeros, or an integer and the double of its value, are different keys. *)

From stdpp Require Import base list.
From Stdlib Require Import ZArith Lia.
From S2P Require Import Prelude.
From S2P Require Import Values.

(** ** The table *)

Record LRMapEntry := MapEntry {
  e_key : LRValue;
  e_value : LRValue;
  e_hash : Z;
  e_alive : bool
}.

Record LRMapData := MapData {
  m_entries : list LRMapEntry;
  m_count : Z;
  m_capacity : Z;
  m_iter_count : Z
}.

Definition MAP_INITIAL_CAPACITY : Z := 16.
Definition MAP_TOMBSTONE_HASH : Z := - 2 ^ 31.

(** A [calloc]ed entry. *)
Definition empty_entry : LRMapEntry := MapEntry VUndefined VUndefined 0 false.

Definition map_data_new (calloc_ok calloc_ok2 : alloc_result) : option LRMapData :=
  if negb calloc_ok then None
  else if negb calloc_ok2 then None
  else Some (MapData (replicate (Z.to_nat MAP_INITIAL_CAPACITY) empty_entry)
                     0 MAP_INITIAL_CAPACITY 0).

(** [while (md->entries[idx].alive) idx = next;], at most [fuel] times. *)
Fixpoint free_slot (fuel : nat) (cap : Z) (es : list LRMapEntry) (idx : Z) : option Z :=
  match fuel with
  | O => None
  | S fuel' =>
      match slot es idx with
      | Some e => if e_alive e then free_slot fuel' cap es (next_slot cap idx) else Some idx
      | None => None
      end
  end.

(** The rehashing loop: the new entries and count.  [None]: no free slot. *)
Fixpoint rehash (new_capacity : Z) (old es : list LRMapEntry) (count : Z)
    : option (list LRMapEntry * Z) :=
  match old with
  | [] => Some (es, count)
  | e :: old' =>
      if e_alive e then
        match free_slot (Z.to_nat new_capacity) new_capacity es
                        (home_slot new_capacity (e_hash e)) with
        | None => None
        | Some idx => rehash new_capacity old' (<[Z.to_nat idx := e]> es) (count + 1)
        end
      else rehash new_capacity old' es count
  end.

Inductive resize_result := ResizeDone (md : LRMapData) | ResizeNoMemory | ResizeLoops.

(** [calloc] refuses a negative capacity, a [size_t] above [2 ^ 63]. *)
Definition map_data_resize (calloc_ok : alloc_result) (md : LRMapData) (new_capacity : Z)
    : resize_result :=
  if negb calloc_ok || (new_capacity <? 0) then ResizeNoMemory
  else match rehash new_capacity (m_entries md)
               (replicate (Z.to_nat new_capacity) empty_entry) 0 with
       | None => ResizeLoops
       | Some (es, count) => ResizeDone (MapData es count new_capacity (m_iter_count md))
       end.

Definition is_tombstone (e : LRMapEntry) : bool :=
  (e_hash e =? MAP_TOMBSTONE_HASH) && negb (e_alive e).

(** An entry of [key], whose hash is [hash]. *)
Definition entry_matches (hash : Z) (key : LRValue) (e : LRMapEntry) : bool :=
  e_alive e && (e_hash e =? hash) && same_value_zero (e_key e) key.

Inductive set_position := SetUpdate (idx : Z) | SetInsert (idx : Z) | SetFull.

(** The loop of [map_data_set]: where the key goes. *)
Fixpoint set_scan (n : nat) (cap : Z) (es : list LRMapEntry) (hash : Z) (key : LRValue)
    (idx tombstone : Z) : set_position :=
  match n with
  | O => SetFull
  | S n' =>
      match slot es idx with
      | None => SetFull
      | Some e =>
          if is_tombstone e then
            set_scan n' cap es hash key (next_slot cap idx)
                     (if tombstone <? 0 then idx else tombstone)
          else if negb (e_alive e) then
            SetInsert (if tombstone <? 0 then idx else tombstone)
          else if (e_hash e =? hash) && same_value_zero (e_key e) key then SetUpdate idx
          else set_scan n' cap es hash key (next_slot cap idx) tombstone
      end
  end.

(** [(double)(count + 1) / (double)capacity > 0.75]; the quotient by a power of
    two is exact. *)
Definition over_load (md : LRMapData) : bool := 4 * (m_count md + 1) >? 3 * m_capacity md.

Inductive set_result := SetOk (md : LRMapData) | SetFailed (md : LRMapData) | SetLoops.

(** [map_data_set] after the load check. *)
Definition map_insert (fresh_key fresh_value : Z) (md : LRMapData) (key value : LRValue)
    : set_result :=
  let hash := hash_value key in
  match set_scan (Z.to_nat (m_capacity md)) (m_capacity md) (m_entries md) hash key
                 (home_slot (m_capacity md) hash) (-1) with
  | SetInsert idx =>
      SetOk (MapData
        (<[Z.to_nat idx := MapEntry (lr_dup_value fresh_key key)
                                    (lr_dup_value fresh_value value) hash true]>
           (m_entries md))
        (m_count md + 1) (m_capacity md) (i32 (m_iter_count md + 1)))
  | SetUpdate idx =>
      SetOk (MapData
        (alter (fun e => MapEntry (e_key e) (lr_dup_value fresh_value value)
                                  (e_hash e) (e_alive e)) (Z.to_nat idx) (m_entries md))
        (m_count md) (m_capacity md) (m_iter_count md))
  | SetFull => SetFailed md
  end.

Definition map_data_set (calloc_ok : alloc_result) (fresh_key fresh_value : Z)
    (md : LRMapData) (key value : LRValue) : set_result :=
  if over_load md then
    match map_data_resize calloc_ok md (doubled (m_capacity md)) with
    | ResizeDone md => map_insert fresh_key fresh_value md key value
    | ResizeNoMemory => SetFailed md
    | ResizeLoops => SetLoops
    end
  else map_insert fresh_key fresh_value md key value.

(** The search loop shared by [get], [has] and [delete]. *)
Definition map_find (md : LRMapData) (key : LRValue) : option Z :=
  let hash := hash_value key in
  scan (m_capacity md) (m_entries md) (entry_matches hash key)
       (Z.to_nat (m_capacity md)) (home_slot (m_capacity md) hash).

(** The value found, without the [lr_dup_value] of the return. *)
Definition map_get (md : LRMapData) (key : LRValue) : option LRValue :=
  match map_find md key with
  | Some idx => e_value <$> slot (m_entries md) idx
  | None => None
  end.

Definition map_delete (md : LRMapData) (key : LRValue) : bool * LRMapData :=
  match map_find md key with
  | Some idx =>
      (true, MapData (<[Z.to_nat idx := MapEntry VUndefined VUndefined MAP_TOMBSTONE_HASH false]>
                        (m_entries md))
                     (m_count md - 1) (m_capacity md) (i32 (m_iter_count md + 1)))
  | None => (false, md)
  end.

Definition map_clear (md : LRMapData) : LRMapData :=
  MapData (map (fun e => if e_alive e then MapEntry VUndefined VUndefined (e_hash e) false
                         else e) (m_entries md))
          0 (m_capacity md) (i32 (m_iter_count md + 1)).

(** ** Iteration *)

Inductive iter_kind := IterKeys | IterValues | IterEntries.

Inductive iter_value := ItKey (k : LRValue) | ItValue (v : LRValue) | ItEntry (k v : LRValue).

Record LRMapIterator := MapIterator { it_index : Z; it_kind : iter_kind; it_iter_count : Z }.

Definition create_map_iterator (md : LRMapData) (kind : iter_kind) : LRMapIterator :=
  MapIterator 0 kind (m_iter_count md).

Definition iter_pick (kind : iter_kind) (e : LRMapEntry) : iter_value :=
  match kind with
  | IterKeys => ItKey (e_key e)
  | IterValues => ItValue (e_value e)
  | IterEntries => ItEntry (e_key e) (e_value e)
  end.

(** [while (it->index < md->capacity)]: the first live entry from [index]. *)
Fixpoint iter_scan (es : list LRMapEntry) (index : Z) (kind : iter_kind)
    : option iter_value * Z :=
  match es with
  | [] => (None, index)
  | e :: es' => if e_alive e then (Some (iter_pick kind e), index + 1)
                else iter_scan es' (index + 1) kind
  end.

(** One call of [next()]: the value, [None] for [done]. *)
Definition js_map_iterator_next (md : LRMapData) (it : LRMapIterator)
    : option iter_value * LRMapIterator :=
  let '(v, index) := iter_scan (drop (Z.to_nat (it_index it)) (m_entries md))
                               (it_index it) (it_kind it) in
  (v, MapIterator index (it_kind it) (it_iter_count it)).

(** The arguments of [forEach]'s callback calls when the callback leaves the map
    alone. *)
Definition js_map_forEach_args (md : LRMapData) : list (LRValue * LRValue) :=
  map (fun e => (e_value e, e_key e)) (filter (fun e => e_alive e = true) (m_entries md)).

(** ** Methods *)

Record MapObject := MkMapObject { mo_data : LRMapData; mo_size : Z }.

Inductive receiver := RNotObject | RNoData | RMap (m : MapObject).

Inductive js_result :=
  | JThrow                    (* a TypeError *)
  | JThis
  | JUndefined
  | JBool (b : bool)
  | JValue (v : LRValue)
  | JNumber (n : Z).

Definition map_sync_size (md : LRMapData) : MapObject := MkMapObject md (m_count md).

(** [argc > i ? argv[i] : undefined] *)
Definition arg (argv : list LRValue) (i : nat) : LRValue := default VUndefined (argv !! i).

(** [None]: the call does not return. *)
Definition js_map_set (calloc_ok : alloc_result) (fresh_key fresh_value : Z) (this : receiver)
    (argv : list LRValue) : option (js_result * receiver) :=
  match this with
  | RNotObject | RNoData => Some (JThrow, this)
  | RMap m =>
      match map_data_set calloc_ok fresh_key fresh_value (mo_data m) (arg argv 0) (arg argv 1) with
      | SetOk md | SetFailed md => Some (JThis, RMap (map_sync_size md))
      | SetLoops => None
      end
  end.

Definition js_map_get (fresh : Z) (this : receiver) (argv : list LRValue) : js_result :=
  match this with
  | RNotObject => JThrow
  | RNoData => JUndefined
  | RMap m =>
      match map_get (mo_data m) (arg argv 0) with
      | Some v => JValue (lr_dup_value fresh v)
      | None => JUndefined
      end
  end.

Definition js_map_has (this : receiver) (argv : list LRValue) : js_result :=
  match this with
  | RNotObject => JThrow
  | RNoData => JBool false
  | RMap m => JBool (match map_find (mo_data m) (arg argv 0) with
                     | Some _ => true | None => false end)
  end.

Definition js_map_delete (this : receiver) (argv : list LRValue) : js_result * receiver :=
  match this with
  | RNotObject => (JThrow, this)
  | RNoData => (JBool false, this)
  | RMap m =>
      let '(found, md) := map_delete (mo_data m) (arg argv 0) in
      (JBool found, if found then RMap (map_sync_size md) else this)
  end.

Definition js_map_clear (this : receiver) : js_result * receiver :=
  match this with
  | RNotObject => (JThrow, this)
  | RNoData => (JUndefined, this)
  | RMap m => (JUndefined, RMap (map_sync_size (map_clear (mo_data m))))
  end.

Definition js_map_get_size (this : receiver) : js_result :=
  match this with
  | RNotObject => JThrow
  | RNoData => JNumber 0
  | RMap m => JNumber (m_count (mo_data m))
  end.

(** The constructor on an array of items; an item that is not an object
    ([None]) is skipped, the result of [map_data_set] ignored.  Item [i]'s
    allocations are [calloc_ok i], its symbol copies [fresh i]. *)
Fixpoint map_populate (calloc_ok : nat -> alloc_result) (fresh : nat -> Z * Z) (i : nat)
    (items : list (option (LRValue * LRValue))) (md : LRMapData) : option LRMapData :=
  match items with
  | [] => Some md
  | None :: items' => map_populate calloc_ok fresh (S i) items' md
  | Some (k, v) :: items' =>
      match map_data_set (calloc_ok i) (fresh i).1 (fresh i).2 md k v with
      | SetOk md | SetFailed md => map_populate calloc_ok fresh (S i) items' md
      | SetLoops => None
      end
  end.

Definition js_map_constructor (calloc_md calloc_entries : alloc_result)
    (calloc_ok : nat -> alloc_result) (fresh : nat -> Z * Z)
    (items : list (option (LRValue * LRValue))) : option MapObject :=
  match map_data_new calloc_md calloc_entries with
  | None => None
  | Some md => map_sync_size <$> map_populate calloc_ok fresh 0 items md
  end.

(** ** Well-formed tables *)

(** A slot that ends a probe: never used, or emptied by [clear]. *)
Definition is_fresh (e : LRMapEntry) : bool := negb (e_alive e) && negb (is_tombstone e).

Fixpoint alive_count (es : list LRMapEntry) : Z :=
  match es with
  | [] => 0
  | e :: es' => (if e_alive e then 1 else 0) + alive_count es'
  end.

Record table_ok (cap : Z) (es : list LRMapEntry) : Prop := {
  t_len : zlen es = cap;
  t_key e : e ∈ es -> e_alive e = true ->
    e_hash e = hash_value (e_key e) /\ plain_value (e_key e) = true;
  t_path d e d' : 0 <= d' < d -> d < cap -> e_alive e = true ->
    slot es (probe cap (e_hash e) d) = Some e ->
    exists e', slot es (probe cap (e_hash e) d') = Some e' /\ is_fresh e' = false;
  t_uniq i j a b : 0 <= i < cap -> 0 <= j < cap -> slot es i = Some a -> slot es j = Some b ->
    e_alive a = true -> e_alive b = true -> key_eq (e_key a) (e_key b) = true -> i = j
}.

Record map_ok (md : LRMapData) : Prop := {
  mo_cap : exists k, 0 <= k /\ m_capacity md = 2 ^ k;
  mo_table : table_ok (m_capacity md) (m_entries md);
  mo_count : m_count md = alive_count (m_entries md);
  mo_small : m_capacity md <= max_capacity
}.

Lemma alive_count_nonneg es : 0 <= alive_count es.
Proof. induction es as [|e es IH]; cbn; [done|]. case_if; lia. Qed.

Lemma alive_count_insert es i e e0 :
  es !! i = Some e0 ->
  alive_count (<[i := e]> es)
    = alive_count es - (if e_alive e0 then 1 else 0) + (if e_alive e then 1 else 0).
Proof.
  revert i. induction es as [|x es IH]; intros [|i] H; [done|done| |].
  - injection H as ->. cbn. lia.
  - cbn [lookup list_lookup] in H. change (<[S i := e]> (x :: es)) with (x :: <[i := e]> es).
    cbn [alive_count]. rewrite (IH i H). lia.
Qed.

Lemma alive_count_replicate n : alive_count (replicate n empty_entry) = 0.
Proof. by induction n. Qed.

Lemma alive_count_dead es :
  alive_count es < zlen es -> exists j e, 0 <= j < zlen es /\ slot es j = Some e /\ e_alive e = false.
Proof.
  induction es as [|e es IH]; [by cbn|]. rewrite zlen_cons. cbn [alive_count].
  destruct (e_alive e) eqn:E; intros H.
  - destruct IH as (j & e' & Hj & Hs & He); [lia|]. exists (j + 1), e'.
    split_and!; [lia|lia| |done]. unfold slot in *.
    replace (Z.to_nat (j + 1)) with (S (Z.to_nat j)) by lia. done.
  - exists 0, e. pose proof (zlen_nonneg es). split_and!; [lia|lia|done|done].
Qed.

Lemma free_slot_scan fuel cap es idx :
  free_slot fuel cap es idx = scan cap es (fun e => negb (e_alive e)) fuel idx.
Proof.
  revert idx. induction fuel as [|n IH]; intros idx; [done|]. cbn.
  destruct (slot es idx) as [e|]; [|done]. by destruct (e_alive e); cbn.
Qed.

Lemma slot_elem (es : list LRMapEntry) j e : slot es j = Some e -> e ∈ es.
Proof. apply list_elem_of_lookup_2. Qed.

Lemma elem_slot (es : list LRMapEntry) e : e ∈ es -> exists j, 0 <= j < zlen es /\ slot es j = Some e.
Proof.
  intros H. apply list_elem_of_lookup_1 in H as [i Hi]. exists (Z.of_nat i).
  pose proof (lookup_lt_Some _ _ _ Hi). unfold slot, zlen. rewrite Nat2Z.id.
  split; [lia|done].
Qed.

Lemma slot_insert (es : list LRMapEntry) i j e :
  0 <= i < zlen es -> 0 <= j < zlen es ->
  slot (<[Z.to_nat i := e]> es) j = if i =? j then Some e else slot es j.
Proof.
  intros Hi Hj. unfold slot. unfold zlen in *. destruct (Z.eqb_spec i j) as [->|].
  - apply list_lookup_insert_eq. lia.
  - apply list_lookup_insert_ne. lia.
Qed.

Lemma zlen_insert (es : list LRMapEntry) i e : zlen (<[i := e]> es) = zlen es.
Proof. unfold zlen. by rewrite length_insert. Qed.

(** Putting a new live entry in a free slot, all slots before it on its probe
    path being in use. *)
Lemma table_insert k cap es e d e0 :
  0 <= k -> cap = 2 ^ k -> table_ok cap es ->
  e_alive e = true -> e_hash e = hash_value (e_key e) -> plain_value (e_key e) = true ->
  0 <= d < cap -> slot es (probe cap (e_hash e) d) = Some e0 -> e_alive e0 = false ->
  (forall d' e', 0 <= d' < d -> slot es (probe cap (e_hash e) d') = Some e' ->
     is_fresh e' = false) ->
  (forall a, a ∈ es -> e_alive a = true -> key_eq (e_key a) (e_key e) = false) ->
  table_ok cap (<[Z.to_nat (probe cap (e_hash e) d) := e]> es).
Proof.
  intros Hk Hcap [Hlen Hkey Hpath Huniq] Hal Hh Hp Hd Hs0 Hdead Hbefore Hnew.
  set (i := probe cap (e_hash e) d) in *.
  assert (0 <= i < cap) as Hi by (eapply probe_range; done).
  assert (forall h x, 0 <= probe cap h x < cap) as Hr by (intros; eapply probe_range; done).
  assert (forall j, 0 <= j < cap ->
    slot (<[Z.to_nat i := e]> es) j = if i =? j then Some e else slot es j) as Hsl
    by (intros; apply slot_insert; lia).
  split.
  - by rewrite zlen_insert.
  - intros a Ha Haa. apply elem_slot in Ha as (j & Hj & Ha). rewrite zlen_insert, Hlen in Hj.
    rewrite Hsl in Ha by done. case_if_in Ha; [simplify_eq; done|].
    apply Hkey; [by eapply slot_elem|done].
  - intros d1 a d' Hd' Hd1 Haa Ha. rewrite Hsl in Ha |- * by done.
    case_if_in Ha; to_prop.
    + apply (inj Some) in Ha as <-.
      assert (d = d1) as <- by (apply (probe_inj cap k Hk Hcap (e_hash e)); [lia|lia|exact Hif]).
      destruct (Z.eqb_spec i (probe cap (e_hash e) d')) as [E|].
      { exists e. unfold is_fresh. by rewrite Hal. }
      destruct (slot_some cap es Hlen (probe cap (e_hash e) d') (Hr _ _)) as [e' He'].
      exists e'. split; [done|]. by eapply Hbefore.
    + destruct (Z.eqb_spec i (probe cap (e_hash a) d')).
      { exists e. unfold is_fresh. by rewrite Hal. }
      by eapply Hpath.
  - intros x y a b Hx Hy Ha Hb Haa Hba E. rewrite Hsl in Ha, Hb by done.
    case_if_in Ha; case_if_in Hb; to_prop; simplify_eq; try done.
    + rewrite key_eq_sym, Hnew in E; [done|by eapply slot_elem|done].
    + rewrite Hnew in E; [done|by eapply slot_elem|done].
    + by eapply Huniq.
Qed.

Lemma elem_insert_alive (es : list LRMapEntry) i e e0 a :
  slot es i = Some e0 -> e_alive e0 = false -> e_alive a = true ->
  a ∈ <[Z.to_nat i := e]> es <-> a = e \/ a ∈ es.
Proof.
  unfold slot. intros Hi H0 Ha. pose proof (lookup_lt_Some _ _ _ Hi) as Hlt. split.
  - intros H. apply list_elem_of_lookup_1 in H as [j Hj].
    destruct (decide (Z.to_nat i = j)) as [<-|].
    + rewrite list_lookup_insert_eq in Hj by done. left. congruence.
    + rewrite list_lookup_insert_ne in Hj by done. right. by eapply list_elem_of_lookup_2.
  - intros [->|H].
    + eapply list_elem_of_lookup_2. by apply list_lookup_insert_eq.
    + apply list_elem_of_lookup_1 in H as [j Hj].
      destruct (decide (Z.to_nat i = j)) as [E|]; [subst j; rewrite Hi in Hj; congruence|].
      eapply list_elem_of_lookup_2. by rewrite list_lookup_insert_ne.
Qed.

(** Linear probing finds a free slot when one is left. *)
Lemma free_slot_spec k cap es h :
  0 <= k -> cap = 2 ^ k -> zlen es = cap -> alive_count es < cap ->
  exists d e0, 0 <= d < cap /\
    free_slot (Z.to_nat cap) cap es (home_slot cap h) = Some (probe cap h d) /\
    slot es (probe cap h d) = Some e0 /\ e_alive e0 = false /\
    forall d' e', 0 <= d' < d -> slot es (probe cap h d') = Some e' -> is_fresh e' = false.
Proof.
  intros Hk Hcap Hlen Hcount. rewrite free_slot_scan, (home_probe cap k Hk Hcap).
  pose proof (scan_spec cap es k Hk Hcap Hlen (fun e => negb (e_alive e)) (Z.to_nat cap) h 0) as H.
  pose proof (cap_pos cap k Hk Hcap).
  destruct (scan _ _ _ _ _) as [j|].
  - destruct H as (d & e & Hd & -> & Hs & Hp & Hb). exists d, e.
    apply negb_true_iff in Hp. split_and!; try done; try lia.
    intros d' e' Hd' He'. unfold is_fresh. specialize (Hb d' e' Hd' He').
    apply negb_false_iff in Hb. by rewrite Hb.
  - destruct (alive_count_dead es) as (j & e & Hj & Hs & He); [lia|].
    destruct (probe_cover cap k Hk Hcap h j) as (d & Hd & <-); [lia|].
    specialize (H d e ltac:(lia) Hs). rewrite He in H. done.
Qed.

Lemma rehash_spec k nc old es count :
  0 <= k -> nc = 2 ^ k -> table_ok nc es -> alive_count es + alive_count old <= nc ->
  (forall e, e ∈ old -> e_alive e = true ->
     e_hash e = hash_value (e_key e) /\ plain_value (e_key e) = true) ->
  (forall i j a b, old !! i = Some a -> old !! j = Some b -> e_alive a = true ->
     e_alive b = true -> key_eq (e_key a) (e_key b) = true -> i = j) ->
  (forall a b, a ∈ es -> b ∈ old -> e_alive a = true -> e_alive b = true ->
     key_eq (e_key a) (e_key b) = false) ->
  exists es', rehash nc old es count = Some (es', count + alive_count old) /\
    table_ok nc es' /\ alive_count es' = alive_count es + alive_count old /\
    forall e, e_alive e = true -> (e ∈ es' <-> e ∈ es \/ e ∈ old).
Proof.
  intros Hk Hnc. revert es count. induction old as [|x old IH];
    intros es count Hes Hc Hkey Huniq Hcross; cbn [rehash alive_count] in *.
  - exists es. rewrite !Z.add_0_r. split_and!; try done.
    intros e _. split; [auto|]. intros [?|H]; [done|by apply not_elem_of_nil in H].
  - assert (forall e, e ∈ old -> e_alive e = true ->
      e_hash e = hash_value (e_key e) /\ plain_value (e_key e) = true) as Hkey'
      by (intros e He; apply Hkey; by right).
    assert (forall i j a b, old !! i = Some a -> old !! j = Some b -> e_alive a = true ->
      e_alive b = true -> key_eq (e_key a) (e_key b) = true -> i = j) as Huniq'.
    { intros i j a b Hi Hj ? ? ?. assert (S i = S j); [|lia]. by eapply Huniq. }
    destruct (e_alive x) eqn:Hx.
    + destruct (Hkey x ltac:(by left) Hx) as [Hh Hp].
      pose proof (alive_count_nonneg old).
      destruct (free_slot_spec k nc es (e_hash x) Hk Hnc (t_len _ _ Hes) ltac:(lia))
        as (d & e0 & Hd & -> & Hs & Hdead & Hb).
      pose proof (table_insert k nc es x d e0 Hk Hnc Hes Hx Hh Hp Hd Hs Hdead Hb) as Hins.
      assert (forall a, a ∈ es -> e_alive a = true -> key_eq (e_key a) (e_key x) = false)
        as Hnew by (intros; apply Hcross; by try left).
      specialize (Hins Hnew).
      assert (alive_count (<[Z.to_nat (probe nc (e_hash x) d) := x]> es) = alive_count es + 1)
        as Hac by (rewrite (alive_count_insert _ _ _ _ Hs), Hdead, Hx; lia).
      destruct (IH (<[Z.to_nat (probe nc (e_hash x) d) := x]> es) (count + 1))
        as (es' & -> & Hok & Hac' & Hel); [done|lia|done|done| |].
      { intros a b Ha Hbo Haa Hba. apply (elem_insert_alive _ _ _ e0) in Ha as [->|Ha]; try done.
        - destruct (key_eq (e_key x) (e_key b)) eqn:E; [|done]. exfalso.
          apply list_elem_of_lookup_1 in Hbo as [j Hj].
          assert (0%nat = S j) by (by eapply Huniq). lia.
        - apply Hcross; try done. by right. }
      exists es'. split_and!; [do 2 f_equal; lia|done|lia|].
      intros e He. rewrite Hel, (elem_insert_alive _ _ _ e0) by done.
      rewrite elem_of_cons. intuition.
    + destruct (IH es count) as (es' & -> & Hok & Hac & Hel); try done.
      { intros a b Ha Hbo. apply Hcross; [done|by right]. }
      exists es'. split_and!; [done|done|done|].
      intros e He. rewrite Hel, elem_of_cons by done. intuition congruence.
Qed.

(** ** Lookups *)

Lemma entry_matches_key (e : LRMapEntry) key :
  e_alive e = true -> e_hash e = hash_value (e_key e) ->
  entry_matches (hash_value key) key e = key_eq (e_key e) key.
Proof. intros Ha Hh. unfold entry_matches, key_eq. by rewrite Ha, Hh. Qed.

Lemma map_find_spec md key :
  map_ok md ->
  match map_find md key with
  | Some j => 0 <= j < m_capacity md /\ exists e, slot (m_entries md) j = Some e /\
                e_alive e = true /\ key_eq (e_key e) key = true
  | None => forall e, e ∈ m_entries md -> e_alive e = true -> key_eq (e_key e) key = false
  end.
Proof.
  intros [[k [Hk Hcap]] Ht _ _]. unfold map_find.
  pose proof (scan_all _ _ k Hk Hcap (t_len _ _ Ht) (entry_matches (hash_value key) key)
    (hash_value key)) as H.
  destruct (scan _ _ _ _ _) as [j|].
  - destruct H as (Hj & e & Hs & Hm). split; [done|]. exists e.
    assert (e_alive e = true) as Ha by (unfold entry_matches in Hm; by destruct (e_alive e)).
    split_and!; [done|done|]. destruct (t_key _ _ Ht e) as [Hh _]; [by eapply slot_elem|done|].
    by rewrite <- (entry_matches_key e key Ha Hh).
  - intros e He Ha. destruct (t_key _ _ Ht e He Ha) as [Hh _].
    rewrite <- (entry_matches_key e key Ha Hh).
    apply elem_slot in He as (j & Hj & Hs). rewrite (t_len _ _ Ht) in Hj. by eapply H.
Qed.

(** [map_get] by membership. *)
Lemma map_get_some md e key :
  map_ok md -> e ∈ m_entries md -> e_alive e = true -> key_eq (e_key e) key = true ->
  map_get md key = Some (e_value e).
Proof.
  intros Hok He Ha Hk. pose proof (map_find_spec md key Hok) as H. unfold map_get.
  destruct (map_find md key) as [j|]; [|rewrite H in Hk; done].
  destruct H as (Hj & e' & Hs & Ha' & Hk').
  apply elem_slot in He as (i & Hi & Hs'). destruct Hok as [_ Ht _].
  rewrite (t_len _ _ Ht) in Hi.
  assert (i = j) as ->.
  { eapply (t_uniq _ _ Ht); try done. rewrite (key_eq_sym _ (e_key e')) in *.
    by rewrite (key_eq_trans (e_key e') key (e_key e) Hk'), key_eq_sym. }
  by rewrite Hs' in Hs |- *.
Qed.

Lemma map_get_none md key :
  map_ok md -> (forall e, e ∈ m_entries md -> e_alive e = true -> key_eq (e_key e) key = false) ->
  map_get md key = None.
Proof.
  intros Hok Hn. pose proof (map_find_spec md key Hok) as H. unfold map_get.
  destruct (map_find md key) as [j|]; [|done].
  destruct H as (Hj & e & Hs & Ha & Hk). rewrite Hn in Hk; [done|by eapply slot_elem|done].
Qed.

Lemma map_get_cases md key :
  map_ok md ->
  (exists e, e ∈ m_entries md /\ e_alive e = true /\ key_eq (e_key e) key = true /\
     map_get md key = Some (e_value e)) \/
  ((forall e, e ∈ m_entries md -> e_alive e = true -> key_eq (e_key e) key = false) /\
   map_get md key = None).
Proof.
  intros Hok. pose proof (map_find_spec md key Hok) as H.
  destruct (map_find md key) as [j|] eqn:E.
  - left. destruct H as (Hj & e & Hs & Ha & Hk). exists e.
    split_and!; [by eapply slot_elem|done|done|]. apply map_get_some; try done. by eapply slot_elem.
  - right. split; [done|]. by apply map_get_none.
Qed.

(** ** Insertion *)

(** Slots a scan may pass. *)
Definition passed (cap : Z) (es : list LRMapEntry) (hash : Z) (key : LRValue) (d : Z) : Prop :=
  forall d' e', 0 <= d' < d -> slot es (probe cap hash d') = Some e' ->
    is_fresh e' = false /\ entry_matches hash key e' = false.

Lemma passed_S cap es hash key d e :
  passed cap es hash key d -> slot es (probe cap hash d) = Some e ->
  is_fresh e = false -> entry_matches hash key e = false -> passed cap es hash key (d + 1).
Proof.
  intros Hp Hs Hf Hm d' e' Hd He. destruct (decide (d' = d)) as [->|]; [|apply (Hp d'); [lia|done]].
  rewrite Hs in He. by injection He as <-.
Qed.

Lemma set_scan_spec k cap es hash key n d tomb :
  0 <= k -> cap = 2 ^ k -> zlen es = cap -> 0 <= d -> passed cap es hash key d ->
  (tomb = -1 \/ exists dt e, 0 <= dt < d /\ tomb = probe cap hash dt /\
                  slot es tomb = Some e /\ e_alive e = false) ->
  match set_scan n cap es hash key (probe cap hash d) tomb with
  | SetUpdate j => 0 <= j < cap /\ exists e, slot es j = Some e /\ e_alive e = true /\
      entry_matches hash key e = true
  | SetInsert j => exists dj df e0 ef, 0 <= dj <= df /\ df < d + Z.of_nat n /\
      j = probe cap hash dj /\ slot es j = Some e0 /\ e_alive e0 = false /\
      slot es (probe cap hash df) = Some ef /\ is_fresh ef = true /\
      passed cap es hash key df
  | SetFull => passed cap es hash key (d + Z.of_nat n)
  end.
Proof.
  intros Hk Hcap Hlen. revert d tomb. induction n as [|n IH]; intros d tomb Hd Hp Ht.
  { cbn [set_scan]. replace (d + Z.of_nat 0) with d by lia. done. }
  cbn [set_scan].
  destruct (slot_some cap es Hlen (probe cap hash d)) as [e He]; [by apply (probe_range cap k Hk Hcap)|].
  rewrite He, (next_probe cap k Hk Hcap).
  replace (d + Z.of_nat (S n)) with (d + 1 + Z.of_nat n) by lia.
  destruct (is_tombstone e) eqn:Etb.
  - assert (e_alive e = false) as Ha
      by (unfold is_tombstone in Etb; destruct (e_alive e); [|done]; by rewrite andb_false_r in Etb).
    apply IH; [lia| |].
    + apply (passed_S _ _ _ _ _ e); try done.
      * unfold is_fresh. by rewrite Etb, andb_false_r.
      * unfold entry_matches. by rewrite Ha.
    + right. destruct (Z.ltb_spec tomb 0) as [Hneg|Hpos].
      * exists d, e. split_and!; try done; lia.
      * destruct Ht as [->|(dt & et & ? & ? & ? & ?)]; [lia|]. exists dt, et.
        split_and!; try done; lia.
  - destruct (e_alive e) eqn:Ha; cbn [negb].
    + case_if.
      * split; [by apply (probe_range cap k Hk Hcap)|]. exists e. split_and!; [done|done|].
        unfold entry_matches. by rewrite Ha.
      * apply IH; [lia| |].
        -- apply (passed_S _ _ _ _ _ e); try done.
           ++ unfold is_fresh. by rewrite Ha.
           ++ unfold entry_matches. by rewrite Ha.
        -- destruct Ht as [->|(dt & et & ? & ? & ? & ?)]; [by left|right].
           exists dt, et. split_and!; try done; lia.
    + assert (is_fresh e = true) as Hf by (unfold is_fresh; by rewrite Ha, Etb).
      destruct (Z.ltb_spec tomb 0) as [Hneg|Hpos].
      * exists d, d, e, e. split_and!; try done; lia.
      * destruct Ht as [->|(dt & et & ? & -> & ? & ?)]; [lia|].
        exists dt, d, et, e. split_and!; try done; lia.
Qed.

(** A live entry with the key sits before the first fresh slot of its path. *)
Lemma passed_absent k cap es key df :
  0 <= k -> cap = 2 ^ k -> table_ok cap es -> 0 <= df ->
  passed cap es (hash_value key) key df ->
  (cap <= df \/ exists ef, slot es (probe cap (hash_value key) df) = Some ef /\ is_fresh ef = true) ->
  forall e, e ∈ es -> e_alive e = true -> key_eq (e_key e) key = false.
Proof.
  intros Hk Hcap Ht Hdf Hp Hend e He Ha. destruct (t_key _ _ Ht e He Ha) as [Hh _].
  rewrite <- (entry_matches_key e key Ha Hh).
  destruct (entry_matches (hash_value key) key e) eqn:Em; [|done]. exfalso.
  assert (e_hash e = hash_value key) as Ehash.
  { unfold entry_matches in Em. rewrite Ha in Em. cbn [andb] in Em.
    apply andb_prop in Em as [Em _]. by apply Z.eqb_eq in Em. }
  apply elem_slot in He as (j & Hj & Hs). rewrite (t_len _ _ Ht) in Hj.
  destruct (probe_cover cap k Hk Hcap (hash_value key) j Hj) as (de & Hde & <-).
  destruct (decide (de < df)) as [Hlt|Hge].
  { destruct (Hp de e) as [_ Hm]; [lia|done|congruence]. }
  destruct Hend as [|(ef & Hef & Hf)]; [lia|].
  destruct (decide (de = df)) as [->|].
  - rewrite Hs in Hef. injection Hef as <-. unfold is_fresh in Hf. by rewrite Ha in Hf.
  - destruct (t_path _ _ Ht de e df) as (e' & He' & Hf'); [lia|lia|done|by rewrite Ehash|].
    rewrite Ehash, Hef in He'. injection He' as <-. congruence.
Qed.

Lemma plain_usable v : plain_value v = true -> usable v = true.
Proof. by destruct v. Qed.

(** Replacing the value of a live entry. *)
Lemma slot_alter (f : LRMapEntry -> LRMapEntry) es i j :
  0 <= i -> 0 <= j ->
  slot (alter f (Z.to_nat i) es) j = if i =? j then f <$> slot es j else slot es j.
Proof.
  intros Hi Hj. unfold slot. destruct (Z.eqb_spec i j) as [->|].
  - by rewrite list_lookup_alter_eq.
  - rewrite list_lookup_alter_ne by lia. done.
Qed.

(** Two tables with the same shape: same keys, hashes and states per slot. *)
Lemma table_same_shape cap es es' :
  table_ok cap es -> zlen es' = cap ->
  (forall j e', 0 <= j < cap -> slot es' j = Some e' -> exists e, slot es j = Some e /\
     e_key e = e_key e' /\ e_hash e = e_hash e' /\ e_alive e = e_alive e') ->
  table_ok cap es'.
Proof.
  intros [Hlen Hkey Hpath Huniq] Hlen' Hsh. split; [done| | |].
  - intros e He Ha. apply elem_slot in He as (j & Hj & Hs). rewrite Hlen' in Hj.
    destruct (Hsh j e Hj Hs) as (e0 & Hs0 & E1 & E2 & E3).
    rewrite <- E1, <- E2. apply Hkey; [by eapply slot_elem|congruence].
  - intros d e d' Hd' Hd Ha Hs.
    destruct (decide (0 < cap)) as [Hc|]; [|lia].
    assert (forall x, 0 <= probe cap (e_hash e) x < cap) as Hr
      by (intros; apply Z.mod_pos_bound; lia).
    destruct (Hsh _ e (Hr d) Hs) as (e0 & Hs0 & E1 & E2 & E3).
    rewrite <- E2 in *.
    destruct (slot_some cap es' Hlen' (probe cap (e_hash e0) d') (Hr d')) as [x Hx].
    destruct (Hsh _ x (Hr d') Hx) as (x0 & Hx0 & F1 & F2 & F3).
    destruct (Hpath d e0 d' Hd' Hd) as (y & Hy & Hf); [congruence|done|].
    rewrite Hx0 in Hy. injection Hy as <-. exists x. split; [done|].
    unfold is_fresh, is_tombstone in *. by rewrite <- F2, <- F3.
  - intros i j a b Hi Hj Ha Hb Haa Hba E.
    destruct (Hsh i a Hi Ha) as (a0 & ? & E1 & _ & E3).
    destruct (Hsh j b Hj Hb) as (b0 & ? & F1 & _ & F3).
    eapply Huniq; [done..|congruence|congruence|]. by rewrite E1, F1.
Qed.

Lemma map_update_ok fv md key value j e :
  map_ok md -> 0 <= j < m_capacity md -> slot (m_entries md) j = Some e ->
  e_alive e = true -> key_eq (e_key e) key = true ->
  let md' := MapData (alter (fun e => MapEntry (e_key e) (lr_dup_value fv value) (e_hash e)
                (e_alive e)) (Z.to_nat j) (m_entries md))
              (m_count md) (m_capacity md) (m_iter_count md) in
  map_ok md' /\
  forall k', map_get md' k' =
    if key_eq key k' then Some (lr_dup_value fv value) else map_get md k'.
Proof.
  intros Hok Hj Hs Ha Hke. cbv zeta. set (f := fun e => MapEntry _ _ _ _).
  set (md' := MapData _ _ _ _). pose proof Hok as [Hcap Ht Hc Hsm].
  assert (forall i x, 0 <= i < m_capacity md -> slot (m_entries md') i = Some x ->
    exists x0, slot (m_entries md) i = Some x0 /\ x = (if j =? i then f x0 else x0)) as Hsl.
  { intros i x Hi Hx. unfold md' in Hx. cbn [m_entries] in Hx.
    rewrite slot_alter in Hx by lia. destruct (j =? i); [|by eauto].
    apply fmap_Some in Hx as (x0 & ? & ->). eauto. }
  assert (map_ok md') as Hok'.
  { split; [done| | |done].
    - apply (table_same_shape _ (m_entries md)); [done| |].
      + unfold zlen. cbn [md' m_entries m_capacity]. rewrite length_alter. apply (t_len _ _ Ht).
      + intros i x Hi Hx. destruct (Hsl i x Hi Hx) as (x0 & ? & ->). exists x0.
        by destruct (j =? i).
    - cbn [md' m_entries m_count]. rewrite Hc. unfold slot in Hs.
      assert (alter f (Z.to_nat j) (m_entries md) = <[Z.to_nat j := f e]> (m_entries md)) as ->.
      { apply list_eq. intros i. destruct (decide (Z.to_nat j = i)) as [<-|].
        - rewrite list_lookup_alter_eq, Hs, list_lookup_insert_eq; [done|].
          by apply lookup_lt_Some in Hs.
        - by rewrite list_lookup_alter_ne, list_lookup_insert_ne. }
      rewrite (alive_count_insert _ _ _ _ Hs). cbn. lia. }
  split; [done|]. intros k'. destruct (key_eq key k') eqn:Ek.
  - assert (f e ∈ m_entries md') as Hin.
    { apply (slot_elem _ j). cbn [md' m_entries]. rewrite slot_alter by lia.
      by rewrite Z.eqb_refl, Hs. }
    rewrite (map_get_some md' (f e) k'); [done|done|done|done|].
    cbn [f e_key]. by rewrite (key_eq_trans _ _ _ Hke).
  - destruct (map_get_cases md k' Hok) as [(x & Hx & Hax & Hkx & ->)|[Hn ->]].
    + apply elem_slot in Hx as (i & Hi & Hx). rewrite (t_len _ _ Ht) in Hi.
      assert (j <> i) as Hne.
      { intros ->. rewrite Hs in Hx. injection Hx as <-.
        rewrite (key_eq_trans _ _ _ Hke) in Hkx. congruence. }
      apply map_get_some; try done. apply (slot_elem _ i). cbn [md' m_entries].
      rewrite slot_alter by lia. by destruct (Z.eqb_spec j i).
    + apply map_get_none; [done|]. intros x Hx Hax.
      apply elem_slot in Hx as (i & Hi & Hx). rewrite (t_len _ _ (mo_table _ Hok')) in Hi.
      destruct (Hsl i x Hi Hx) as (x0 & Hx0 & ->).
      assert (e_alive x0 = true) by (by destruct (j =? i)).
      assert (key_eq (e_key x0) k' = false) by (apply Hn; [by eapply slot_elem|done]).
      by destruct (j =? i).
Qed.

Lemma map_insert_new_ok fk fv md key value d e0 :
  map_ok md -> plain_value key = true -> 0 <= d < m_capacity md ->
  slot (m_entries md) (probe (m_capacity md) (hash_value key) d) = Some e0 ->
  e_alive e0 = false ->
  (forall d' e', 0 <= d' < d ->
     slot (m_entries md) (probe (m_capacity md) (hash_value key) d') = Some e' ->
     is_fresh e' = false) ->
  (forall a, a ∈ m_entries md -> e_alive a = true -> key_eq (e_key a) key = false) ->
  let md' := MapData (<[Z.to_nat (probe (m_capacity md) (hash_value key) d) :=
                MapEntry (lr_dup_value fk key) (lr_dup_value fv value) (hash_value key) true]>
                (m_entries md))
              (m_count md + 1) (m_capacity md) (i32 (m_iter_count md + 1)) in
  map_ok md' /\
  forall k', map_get md' k' =
    if key_eq key k' then Some (lr_dup_value fv value) else map_get md k'.
Proof.
  intros Hok Hp Hd Hs Hdead Hb Hnew. cbv zeta. rewrite (lr_dup_plain fk key Hp).
  set (e := MapEntry key (lr_dup_value fv value) (hash_value key) true).
  set (md' := MapData _ _ _ _). pose proof Hok as [[k [Hk Hcap]] Ht Hc Hsm].
  assert (map_ok md') as Hok'.
  { split; [by exists k| | |done].
    - apply (table_insert k _ _ e d e0); done.
    - cbn [md' m_entries m_count]. rewrite Hc. unfold slot in Hs.
      rewrite (alive_count_insert _ _ _ _ Hs), Hdead. cbn. lia. }
  assert (forall a, e_alive a = true -> (a ∈ m_entries md' <-> a = e \/ a ∈ m_entries md))
    as Hel by (intros; by apply (elem_insert_alive _ _ _ e0)).
  split; [done|]. intros k'. destruct (key_eq key k') eqn:Ek.
  - rewrite (map_get_some md' e k'); try done. apply Hel; [done|by left].
  - destruct (map_get_cases md k' Hok) as [(x & Hx & Hax & Hkx & ->)|[Hn ->]].
    + apply map_get_some; try done. apply Hel; [done|by right].
    + apply map_get_none; [done|]. intros x Hx Hax.
      destruct (proj1 (Hel x Hax) Hx) as [->|Hx']; [done|by apply Hn].
Qed.

(** What one [map_data_set] promises. *)
Definition set_promise (md : LRMapData) (key value : LRValue) (md' : LRMapData) : Prop :=
  map_ok md' /\
  (forall k', map_get md' k' = if key_eq key k' then Some value else map_get md k') /\
  m_count md' = m_count md + match map_get md key with Some _ => 0 | None => 1 end.

Lemma map_insert_spec fk fv md key value :
  map_ok md -> plain_value key = true ->
  match map_insert fk fv md key value with
  | SetOk md' => set_promise md key (lr_dup_value fv value) md'
  | SetFailed md' => md' = md /\ map_get md key = None /\
      forall j e, 0 <= j < m_capacity md -> slot (m_entries md) j = Some e -> is_fresh e = false
  | SetLoops => False
  end.
Proof.
  intros Hok Hp. pose proof Hok as [[k [Hk Hcap]] Ht Hc Hsm]. unfold map_insert.
  rewrite (home_probe _ k Hk Hcap).
  pose proof (set_scan_spec k _ (m_entries md) (hash_value key) key (Z.to_nat (m_capacity md))
    0 (-1) Hk Hcap (t_len _ _ Ht) ltac:(lia)) as H.
  pose proof (cap_pos _ k Hk Hcap) as Hpos.
  destruct (set_scan _ _ _ _ _ _ _) as [j|j|].
  - destruct H as (Hj & e & Hs & Ha & Hm); [intros ? ?; lia|by left|].
    assert (key_eq (e_key e) key = true) as Hke.
    { destruct (t_key _ _ Ht e) as [Hh _]; [by eapply slot_elem|done|].
      by rewrite <- (entry_matches_key e key Ha Hh). }
    destruct (map_update_ok fv md key value j e Hok Hj Hs Ha Hke) as [H1 H2].
    split_and!; [done|done|]. cbn [m_count].
    rewrite (map_get_some md e key); [lia|done|by eapply slot_elem|done|done].
  - destruct H as (dj & df & e0 & ef & Hdj & Hdf & -> & Hs & Hdead & Hef & Hf & Hpass);
      [intros ? ?; lia|by left|].
    assert (forall e, e ∈ m_entries md -> e_alive e = true -> key_eq (e_key e) key = false)
      as Hnew by (eapply (passed_absent k _ _ key df Hk Hcap Ht); [lia|done|eauto]).
    destruct (map_insert_new_ok fk fv md key value dj e0 Hok Hp) as [H1 H2]; try done; [lia| |].
    { intros d' e' Hd' He'. eapply (Hpass d'); [lia|done]. }
    split_and!; [done|done|]. cbn [m_count]. by rewrite (map_get_none md key Hok Hnew).
  - specialize (H ltac:(intros ? ?; lia) ltac:(by left)).
    replace (0 + Z.of_nat (Z.to_nat (m_capacity md))) with (m_capacity md) in H by lia.
    split_and!; [done| |].
    + apply map_get_none; [done|].
      apply (passed_absent k _ _ key (m_capacity md) Hk Hcap Ht); [lia|done|by left].
    + intros j e Hj Hs. destruct (probe_cover _ k Hk Hcap (hash_value key) j Hj) as (d & Hd & <-).
      eapply (H d); [lia|done].
Qed.

(** ** Growing the table *)

Lemma alive_count_le es : alive_count es <= zlen es.
Proof. induction es as [|e es IH]; [done|]. rewrite zlen_cons. cbn. case_if; lia. Qed.

Lemma table_ok_empty k cap :
  0 <= k -> cap = 2 ^ k -> table_ok cap (replicate (Z.to_nat cap) empty_entry).
Proof.
  intros Hk Hcap. pose proof (cap_pos cap k Hk Hcap).
  assert (forall e, e ∈ replicate (Z.to_nat cap) empty_entry -> e_alive e = false) as Hd.
  { intros e He. apply elem_of_replicate in He as [-> _]. done. }
  split.
  - rewrite zlen_replicate. lia.
  - intros e He. rewrite Hd by done. done.
  - intros d e d' _ _ Ha Hs. apply slot_elem, Hd in Hs. congruence.
  - intros i j a b _ _ Ha _ Haa. apply slot_elem, Hd in Ha. congruence.
Qed.

Definition dead_fresh (e : LRMapEntry) : Prop := e_alive e = false -> is_fresh e = true.

Lemma rehash_dead_fresh nc old es count es' c :
  Forall dead_fresh es -> rehash nc old es count = Some (es', c) -> Forall dead_fresh es'.
Proof.
  revert es count. induction old as [|x old IH]; intros es count Hes H; cbn [rehash] in H.
  { by simplify_eq. }
  destruct (e_alive x) eqn:Hx; [|by eapply IH].
  destruct (free_slot _ _ _ _); [|done]. eapply IH; [|done].
  apply Forall_insert; [done|]. intros H'. congruence.
Qed.

Lemma map_resize_max c md :
  m_capacity md = max_capacity -> map_data_resize c md (doubled (m_capacity md)) = ResizeNoMemory.
Proof. intros ->. by destruct c. Qed.

Lemma map_resize_spec md :
  map_ok md -> m_capacity md <> max_capacity ->
  exists md', map_data_resize true md (doubled (m_capacity md)) = ResizeDone md' /\
    map_ok md' /\ (forall key, map_get md' key = map_get md key) /\
    m_count md' = m_count md /\ m_capacity md' = m_capacity md * 2 /\
    Forall dead_fresh (m_entries md').
Proof.
  intros Hok Hne. pose proof Hok as [[k [Hk Hcap]] Ht Hc Hsm].
  set (nc := doubled (m_capacity md)).
  assert (nc = 2 ^ (k + 1) /\ 2 ^ (k + 1) <= max_capacity) as [Hnc Hsmall].
  { unfold nc. rewrite Hcap in *. split; [by apply doubled_pow2|by apply pow2_small]. }
  assert (nc = m_capacity md * 2) as Hnc2 by (rewrite Hnc, Hcap, Z.pow_add_r by lia; lia).
  pose proof (cap_pos _ k Hk Hcap) as Hpos.
  pose proof (alive_count_le (m_entries md)) as Hle. rewrite (t_len _ _ Ht) in Hle.
  destruct (rehash_spec (k + 1) nc (m_entries md) (replicate (Z.to_nat nc) empty_entry) 0)
    as (es' & E & Hok' & Hac & Hel).
  - lia.
  - done.
  - apply (table_ok_empty (k + 1)); [lia|done].
  - rewrite alive_count_replicate. lia.
  - apply (t_key _ _ Ht).
  - intros i j a b Hi Hj Haa Hba Eq.
    assert (Z.of_nat i = Z.of_nat j); [|lia].
    pose proof (lookup_lt_Some _ _ _ Hi). pose proof (lookup_lt_Some _ _ _ Hj).
    pose proof (t_len _ _ Ht) as Hl. unfold zlen in Hl.
    apply (t_uniq _ _ Ht _ _ a b); try done; try lia; unfold slot; by rewrite Nat2Z.id.
  - intros a b Ha. apply elem_of_replicate in Ha as [-> _]. done.
  - rewrite alive_count_replicate in Hac.
    exists (MapData es' (0 + alive_count (m_entries md)) nc (m_iter_count md)).
    assert (map_ok (MapData es' (0 + alive_count (m_entries md)) nc (m_iter_count md))) as Hmo.
    { split; [exists (k + 1); split; [lia|done]|done|cbn; lia|cbn; lia]. }
    assert (forall e, e_alive e = true -> (e ∈ es' <-> e ∈ m_entries md)) as Hel'.
    { intros e He. rewrite Hel by done. split; [|auto]. intros [H|H]; [|done].
      apply elem_of_replicate in H as [-> _]. done. }
    split_and!.
    + unfold map_data_resize. rewrite (proj2 (Z.ltb_ge nc 0)) by lia. cbn [negb orb]. by rewrite E.
    + done.
    + intros key. destruct (map_get_cases md key Hok) as [(x & Hx & Hax & Hkx & ->)|[Hn ->]].
      * apply map_get_some; try done. by apply Hel'.
      * apply map_get_none; [done|]. intros x Hx Hax. apply Hn; [by apply Hel'|done].
    + cbn. lia.
    + done.
    + eapply rehash_dead_fresh; [|exact E]. apply Forall_forall. intros e He.
      apply elem_of_replicate in He as [-> _]. done.
Qed.

(** ** Deletion and clearing *)

Lemma map_delete_spec md key :
  map_ok md ->
  let '(found, md') := map_delete md key in
  map_ok md' /\ found = (match map_get md key with Some _ => true | None => false end) /\
  (forall k', map_get md' k' = if key_eq key k' then None else map_get md k') /\
  m_count md' = m_count md - (if found then 1 else 0).
Proof.
  intros Hok. pose proof Hok as [[k [Hk Hcap]] Ht Hc Hsm].
  pose proof (map_find_spec md key Hok) as Hf. unfold map_delete.
  destruct (map_find md key) as [j|] eqn:Ef.
  - destruct Hf as (Hj & e & Hs & Ha & Hke).
    set (t := MapEntry VUndefined VUndefined MAP_TOMBSTONE_HASH false).
    set (md' := MapData _ _ _ _).
    assert (forall i, 0 <= i < m_capacity md ->
      slot (m_entries md') i = if j =? i then Some t else slot (m_entries md) i) as Hsl.
    { intros i Hi. cbn [md' m_entries].
      apply slot_insert; by rewrite (t_len _ _ Ht). }
    assert (zlen (m_entries md') = m_capacity md) as Hlen'
      by (cbn [md' m_entries]; rewrite zlen_insert; apply (t_len _ _ Ht)).
    assert (forall x, x ∈ m_entries md' -> e_alive x = true ->
      exists i, 0 <= i < m_capacity md /\ i <> j /\ slot (m_entries md) i = Some x) as Hin.
    { intros x Hx Hax. apply elem_slot in Hx as (i & Hi & Hx). rewrite Hlen' in Hi.
      rewrite Hsl in Hx by done. destruct (Z.eqb_spec j i) as [->|]; [simplify_eq; done|].
      eauto. }
    assert (map_ok md') as Hok'.
    { split; [by exists k| | |done].
      - split; [done| | |].
        + intros x Hx Hax. destruct (Hin x Hx Hax) as (i & Hi & _ & Hxi).
          apply (t_key _ _ Ht); [by eapply slot_elem|done].
        + intros d x d' Hd' Hd Hax Hx. change (m_capacity md') with (m_capacity md) in *.
          rewrite Hsl in Hx by (by apply (probe_range _ k Hk Hcap)).
          destruct (j =? _); [simplify_eq; done|].
          destruct (t_path _ _ Ht d x d' Hd' Hd Hax Hx) as (y & Hy & Hfy).
          rewrite Hsl by (by apply (probe_range _ k Hk Hcap)).
          destruct (j =? _); [by exists t|eauto].
        + intros i1 i2 a b H1 H2 Ha1 Hb1 Haa Hba. change (m_capacity md') with (m_capacity md) in *.
          rewrite Hsl in Ha1, Hb1 by done.
          destruct (j =? i1); [simplify_eq; done|]. destruct (j =? i2); [simplify_eq; done|].
          by apply (t_uniq _ _ Ht).
      - cbn [md' m_entries m_count]. rewrite Hc. unfold slot in Hs.
        rewrite (alive_count_insert _ _ _ _ Hs), Ha. cbn. lia. }
    assert (map_get md key = Some (e_value e)) as ->
      by (apply map_get_some; try done; by eapply slot_elem).
    split_and!; [done|done| |cbn; lia].
    intros k'. destruct (map_get_cases md k' Hok) as [(x & Hx & Hax & Hkx & E)|[Hn E]]; rewrite E.
    + destruct (key_eq key k') eqn:Ek.
      * apply map_get_none; [done|]. intros y Hy Hay.
        destruct (Hin y Hy Hay) as (i & Hi & Hne & Hyi).
        destruct (key_eq (e_key y) k') eqn:Ey; [|done]. exfalso. apply Hne.
        eapply (t_uniq _ _ Ht); try done.
        rewrite (key_eq_trans _ _ _ Ey), key_eq_sym, (key_eq_trans _ _ _ Hke). done.
      * apply map_get_some; try done. apply elem_slot in Hx as (i & Hi & Hx).
        rewrite (t_len _ _ Ht) in Hi. apply (slot_elem _ i). rewrite Hsl by done.
        destruct (Z.eqb_spec j i) as [->|]; [|done].
        rewrite Hs in Hx. simplify_eq. rewrite (key_eq_trans _ _ _ Hke) in Hkx. congruence.
    + replace (if key_eq key k' then None else None) with (@None LRValue) by (by case_if).
      apply map_get_none; [done|]. intros y Hy Hay.
      destruct (Hin y Hy Hay) as (i & Hi & _ & Hyi). apply Hn; [by eapply slot_elem|done].
  - assert (map_get md key = None) as Eg by (by apply map_get_none).
    rewrite Eg. split_and!; [done|done| |lia].
    intros k'. destruct (key_eq key k') eqn:Ek; [|done].
    apply map_get_none; [done|]. intros x Hx Hax.
    rewrite key_eq_sym, <- (key_eq_trans _ _ _ Ek), key_eq_sym. by apply Hf.
Qed.

Lemma map_clear_spec md :
  map_ok md ->
  map_ok (map_clear md) /\ (forall key, map_get (map_clear md) key = None) /\
  m_count (map_clear md) = 0.
Proof.
  intros [[k [Hk Hcap]] Ht Hc Hsm].
  assert (forall e, e ∈ m_entries (map_clear md) -> e_alive e = false) as Hd.
  { intros e He. cbn [map_clear m_entries] in He.
    apply list_elem_of_In, in_map_iff in He as (x & <- & _). by destruct (e_alive x) eqn:E. }
  assert (map_ok (map_clear md)) as Hok.
  { split; [by exists k| | |done].
    - split.
      + cbn [map_clear m_entries m_capacity]. unfold zlen. rewrite length_map. apply (t_len _ _ Ht).
      + intros e He. rewrite Hd by done. done.
      + intros d e d' _ _ Ha Hs. apply slot_elem, Hd in Hs. congruence.
      + intros i j a b _ _ Ha _ Haa. apply slot_elem, Hd in Ha. congruence.
    - cbn [map_clear m_entries m_count]. clear. induction (m_entries md) as [|e es IH]; [done|].
      cbn. destruct (e_alive e) eqn:E; cbn; [|rewrite E]; lia. }
  split_and!; [done| |done]. intros key. apply map_get_none; [done|].
  intros e He Ha. apply Hd in He. congruence.
Qed.

Lemma map_data_new_ok md : map_data_new true true = Some md -> map_ok md /\ m_count md = 0 /\
  forall key, map_get md key = None.
Proof.
  intros E. apply (inj Some) in E as <-.
  set (md := MapData _ _ _ _).
  assert (map_ok md) as Hok.
  { split; [by exists 4|apply (table_ok_empty 4); done|done|done]. }
  split_and!; [done|done|]. intros key. apply map_get_none; [done|].
  intros e He. apply elem_of_replicate in He as [-> _]. done.
Qed.

Lemma alive_count_lt_fresh es :
  Forall dead_fresh es -> alive_count es < zlen es ->
  exists j e, 0 <= j < zlen es /\ slot es j = Some e /\ is_fresh e = true.
Proof.
  intros Hf Hc. destruct (alive_count_dead es Hc) as (j & e & Hj & Hs & Ha).
  exists j, e. split_and!; [lia|lia|done|]. rewrite Forall_forall in Hf.
  apply (Hf e); [by eapply slot_elem|done].
Qed.

(** No slot is left that a probe may stop at. *)
Definition no_fresh_slot (md : LRMapData) : Prop :=
  forall j e, 0 <= j < m_capacity md -> slot (m_entries md) j = Some e -> is_fresh e = false.

Lemma set_promise_get md md1 key value md' :
  (forall k, map_get md1 k = map_get md k) -> m_count md1 = m_count md ->
  set_promise md1 key value md' -> set_promise md key value md'.
Proof.
  intros Hg Hc (H1 & H2 & H3). split_and!; [done| |by rewrite H3, Hg, Hc].
  intros k'. by rewrite H2, Hg.
Qed.

(** *** A history of operations and its specification *)

Inductive map_op :=
  | MSet (key value : LRValue)
  | MDelete (key : LRValue)
  | MClear.

(** The specification: a function from keys to values, the keys compared as the
    language says. *)
Definition spec_op (op : map_op) (f : LRValue -> option LRValue) : LRValue -> option LRValue :=
  match op with
  | MSet key value => fun k => if SameValueZero key k then Some value else f k
  | MDelete key => fun k => if SameValueZero key k then None else f k
  | MClear => fun _ => None
  end.

(** [None]: a [set] that failed. *)
Definition exec_op (op : map_op) (md : LRMapData) : option LRMapData :=
  match op with
  | MSet key value =>
      match map_data_set true 0 0 md key value with SetOk md' => Some md' | _ => None end
  | MDelete key => Some (map_delete md key).2
  | MClear => Some (map_clear md)
  end.

Fixpoint exec_ops (ops : list map_op) (md : LRMapData) : option LRMapData :=
  match ops with
  | [] => Some md
  | op :: ops' =>
      match exec_op op md with None => None | Some md' => exec_ops ops' md' end
  end.

Definition plain_op (op : map_op) : Prop :=
  match op with
  | MSet key value => plain_value key = true /\ canonical key /\ plain_value value = true
  | MDelete key => canonical key
  | MClear => True
  end.

Lemma map_data_set_promise c fk fv md key value :
  map_ok md -> plain_value key = true ->
  match map_data_set c fk fv md key value with
  | SetOk md' => set_promise md key (lr_dup_value fv value) md'
  | SetFailed md' => md' = md /\
      (over_load md = true /\ (c = false \/ m_capacity md = max_capacity) \/
       over_load md = false /\ map_get md key = None /\ no_fresh_slot md)
  | SetLoops => False
  end.
Proof.
  intros Hok Hp. unfold map_data_set. destruct (over_load md) eqn:Eo.
  - destruct c; [|by cbn; auto].
    destruct (Z.eq_dec (m_capacity md) max_capacity) as [Hm|Hm]; [by rewrite map_resize_max; auto|].
    destruct (map_resize_spec md Hok Hm) as (md1 & -> & Hok1 & Hg & Hc & Hcap & Hfr).
    pose proof (map_insert_spec fk fv md1 key value Hok1 Hp) as Hi.
    destruct (map_insert fk fv md1 key value) as [md'|md'|]; [by eapply set_promise_get| |done].
    destruct Hi as (_ & _ & Hn). exfalso.
    pose proof Hok as [[k [Hk Hc0]] Ht Hcount Hsm]. pose proof (cap_pos _ k Hk Hc0).
    pose proof (alive_count_le (m_entries md)) as Hle. rewrite (t_len _ _ Ht) in Hle.
    destruct (alive_count_lt_fresh (m_entries md1) Hfr) as (j & e & Hj & Hs & Hf).
    { rewrite <- (mo_count _ Hok1), Hc, (t_len _ _ (mo_table _ Hok1)), Hcap. lia. }
    rewrite (t_len _ _ (mo_table _ Hok1)) in Hj. specialize (Hn j e Hj Hs). congruence.
  - pose proof (map_insert_spec fk fv md key value Hok Hp) as Hi.
    destruct (map_insert fk fv md key value) as [md'|md'|]; [done| |done].
    destruct Hi as (-> & H1 & H2). auto.
Qed.

Lemma exec_ops_spec ops md f :
  map_ok md -> (forall k, canonical k -> map_get md k = f k) -> Forall plain_op ops ->
  match exec_ops ops md with
  | Some md' => map_ok md' /\
      forall k, canonical k -> map_get md' k = fold_left (fun g op => spec_op op g) ops f k
  | None => True
  end.
Proof.
  intros Hok Hf Hall. revert md f Hok Hf.
  induction Hall as [|op ops Hop Hall IH]; intros md f Hok Hf; cbn [exec_ops fold_left]; [done|].
  destruct op as [key value|key|]; cbn [exec_op plain_op] in *.
  - destruct Hop as (Hk & Hck & Hv). pose proof (map_data_set_promise true 0 0 md key value Hok Hk) as H.
    destruct (map_data_set true 0 0 md key value) as [md'|md'|]; [|done|done].
    destruct H as (H1 & H2 & _). apply IH; [done|]. intros k Hkc. cbn [spec_op].
    by rewrite H2, lr_dup_plain, Hf, key_eq_SameValueZero.
  - pose proof (map_delete_spec md key Hok) as H. destruct (map_delete md key) as [found md'].
    destruct H as (H1 & _ & H2 & _). apply IH; [done|]. intros k Hkc. cbn [spec_op].
    by rewrite H2, Hf, key_eq_SameValueZero.
  - destruct (map_clear_spec md Hok) as (H1 & H2 & _). apply IH; [done|]. intros k _. apply H2.
Qed.

(** *** Symbols *)

Definition lacks_symbol (p : Z) (e : LRMapEntry) : Prop := e_key e <> VSymbol p.

Lemma scan_sound {A} cap (es : list A) p n idx j :
  scan cap es p n idx = Some j -> exists e, slot es j = Some e /\ p e = true.
Proof.
  revert idx. induction n as [|n IH]; intros idx; cbn; [done|].
  destruct (slot es idx) as [e|] eqn:E; [|done]. destruct (p e) eqn:Ep; [|apply IH].
  intros. simplify_eq. eauto.
Qed.

Lemma lacks_symbol_get p md :
  Forall (lacks_symbol p) (m_entries md) -> map_get md (VSymbol p) = None.
Proof.
  intros H. unfold map_get. destruct (map_find md (VSymbol p)) as [j|] eqn:E; [|done].
  apply scan_sound in E as (e & Hs & Hm). exfalso.
  rewrite Forall_forall in H. apply (H e); [by eapply slot_elem|].
  unfold entry_matches in Hm. apply andb_prop in Hm as [_ Hm].
  destruct (e_key e); try done. cbn in Hm. apply Z.eqb_eq in Hm. by subst.
Qed.

Lemma rehash_lacks p nc old es count es' c :
  Forall (lacks_symbol p) es -> Forall (lacks_symbol p) old ->
  rehash nc old es count = Some (es', c) -> Forall (lacks_symbol p) es'.
Proof.
  intros Hes Hold. revert es count Hes.
  induction Hold as [|x old Hx Hold IH]; intros es count Hes H; cbn [rehash] in H.
  { by simplify_eq. }
  destruct (e_alive x); [|by eapply IH].
  destruct (free_slot _ _ _ _); [|done]. eapply IH; [|done]. by apply Forall_insert.
Qed.

Lemma map_insert_lacks p fk fv md value md' :
  fk <> p -> Forall (lacks_symbol p) (m_entries md) ->
  map_insert fk fv md (VSymbol p) value = SetOk md' -> Forall (lacks_symbol p) (m_entries md').
Proof.
  intros Hfk H. unfold map_insert.
  destruct (set_scan _ _ _ _ _ _ _); intros E; simplify_eq; cbn [m_entries].
  - apply Forall_alter; [done|]. intros x Hx Hl. exact Hl.
  - apply Forall_insert; [done|]. unfold lacks_symbol. cbn. congruence.
Qed.

(** ** Properties *)

(** C32: [Map.prototype.set].  On a well-formed table and a canonical key that is
    not a symbol, [map_data_set] returns; when it succeeds the table stays well
    formed, [get] answers the value for the keys SameValueZero to the key and
    what it did for every other canonical key, and [count] grows by one exactly
    for a new key.  It fails, leaving the table alone, only if it must grow and
    memory is refused or the capacity is the largest of an [int32_t], or if the
    key is new and no slot is free of tombstones. *)
Theorem map_data_set_spec (calloc_ok : alloc_result) (fresh_key fresh_value : Z)
    (md : LRMapData) (key value : LRValue) :
  map_ok md -> plain_value key = true -> canonical key ->
  match map_data_set calloc_ok fresh_key fresh_value md key value with
  | SetOk md' =>
      map_ok md' /\
      (forall k, canonical k -> map_get md' k =
         if SameValueZero key k then Some (lr_dup_value fresh_value value) else map_get md k) /\
      m_count md' = m_count md + match map_get md key with Some _ => 0 | None => 1 end
  | SetFailed md' =>
      md' = md /\
      (over_load md = true /\ (calloc_ok = false \/ m_capacity md = max_capacity) \/
       over_load md = false /\ map_get md key = None /\ no_fresh_slot md)
  | SetLoops => False
  end.
Proof.
  intros Hok Hp Hc. pose proof (map_data_set_promise calloc_ok fresh_key fresh_value md key value Hok Hp) as H.
  destruct (map_data_set _ _ _ _ _ _); [|done..]. destruct H as (H1 & H2 & H3).
  split_and!; [done| |done]. intros k Hk. by rewrite H2, key_eq_SameValueZero.
Qed.

Definition new_table : LRMapData := MapData (replicate 16 empty_entry) 0 16 0.

Definition sample_history : list map_op :=
  [MSet (VInt32 1) (VBool true); MSet (VString [97]) VNull; MDelete (VInt32 1);
   MSet (VInt32 17) (VInt32 5)].

Definition sample_map : LRMapData :=
  match exec_ops sample_history new_table with Some md => md | None => new_table end.

Lemma sample_map_eq : exec_ops sample_history new_table = Some sample_map.
Proof. vm_compute. reflexivity. Qed.

Lemma sample_map_ok : map_ok sample_map.
Proof.
  destruct (map_data_new_ok new_table eq_refl) as (H1 & _ & H2).
  pose proof (exec_ops_spec sample_history new_table (fun _ => None) H1 (fun k _ => H2 k)) as H.
  rewrite sample_map_eq in H. apply H.
  repeat (apply Forall_cons_2 || apply Forall_nil_2); done.
Qed.

Lemma map_data_set_spec_witness :
  map_ok sample_map /\
  exists md', map_data_set true 0 0 sample_map (VInt32 1) (VString [98]) = SetOk md' /\
    m_count md' = 3 /\ map_get md' (VInt32 1) = Some (VString [98]).
Proof.
  split; [exact sample_map_ok|].
  assert (exists md', map_data_set true 0 0 sample_map (VInt32 1) (VString [98]) = SetOk md')
    as [md' E] by (eexists; vm_compute; reflexivity).
  exists md'. split; [exact E|].
  assert (canonical (VInt32 1)) as Hk by (cbn [canonical]; lia).
  pose proof (map_data_set_spec true 0 0 sample_map (VInt32 1) (VString [98]) sample_map_ok
    eq_refl Hk) as H.
  rewrite E in H. destruct H as (_ & H2 & H3). split.
  - rewrite H3. vm_compute. reflexivity.
  - rewrite H2 by exact Hk. vm_compute. reflexivity.
Defined.

(** C3: a Map implements a function from keys to values, the keys compared by
    SameValueZero.  Running any history of [set], [delete] and [clear] on a new
    Map, with canonical keys and no symbol as key or value, as long as no [set]
    fails, [get] answers for every canonical key what the functional
    specification of the history says.  ([key_eq_not_SameValueZero] has keys
    that are not canonical, [-0.0] and [1.0], which the code tells from [0] and
    [1].) *)
Theorem map_refines_spec (ops : list map_op) (md md' : LRMapData) :
  map_data_new true true = Some md -> Forall plain_op ops ->
  exec_ops ops md = Some md' ->
  map_ok md' /\
  forall key, canonical key ->
    map_get md' key = fold_left (fun f op => spec_op op f) ops (fun _ => None) key.
Proof.
  intros Hn Hp E. destruct (map_data_new_ok md Hn) as (H1 & _ & H2).
  pose proof (exec_ops_spec ops md (fun _ => None) H1 (fun k _ => H2 k) Hp) as H. by rewrite E in H.
Qed.

(** Four keys with the same home slot, around deletions, and the key [1.5]. *)
Definition sample_ops : list map_op :=
  [MSet (VFloat64 4609434218613702656) VNull; MSet (VInt32 0) (VInt32 10); MSet (VInt32 16) (VInt32 11); MSet (VInt32 32) (VInt32 12);
   MDelete (VInt32 16); MSet (VInt32 48) (VInt32 13); MSet (VInt32 32) (VInt32 14)].

Definition sample_result : LRMapData :=
  match exec_ops sample_ops new_table with Some md => md | None => new_table end.

Lemma map_refines_spec_witness :
  exec_ops sample_ops new_table = Some sample_result /\
  map_get sample_result (VInt32 32) = Some (VInt32 14) /\
  map_get sample_result (VFloat64 4609434218613702656) = Some VNull /\
  map_get sample_result (VInt32 16) = None.
Proof.
  assert (exec_ops sample_ops new_table = Some sample_result) as E
    by (vm_compute; reflexivity).
  split; [exact E|].
  destruct (map_refines_spec sample_ops new_table sample_result eq_refl) as [_ H].
  - repeat (apply Forall_cons_2 || apply Forall_nil_2); cbn [plain_op]; split_and?;
      first [exact canonical_one_and_a_half | cbn [canonical]; lia | reflexivity].
  - exact E.
  - rewrite !H by first [exact canonical_one_and_a_half | cbn [canonical]; lia].
    split_and!; vm_compute; reflexivity.
Defined.

(** The history that adds and removes the keys 0 to 15, one at a time. *)
Definition churn : list map_op :=
  flat_map (fun i => [MSet (VInt32 (Z.of_nat i)) VNull; MDelete (VInt32 (Z.of_nat i))]) (seq 0 16).

(** An empty Map can refuse every new key.  [delete] leaves tombstones that
    the load factor does not count and [map_data_set] fills a tombstone only
    after it meets a never-used slot: after adding and removing sixteen keys
    that cover the table, [set] of a new key returns the Map as usual, but the
    key is not in it and [size] stays 0. *)
Lemma map_set_lost (value : LRValue) :
  match exec_ops churn new_table with
  | Some md =>
      m_count md = 0 /\
      match js_map_set true 0 0 (RMap (map_sync_size md)) [VInt32 16; value] with
      | Some (r, this) => r = JThis /\ js_map_get 0 this [VInt32 16] = JUndefined /\
                          js_map_get_size this = JNumber 0
      | None => False
      end
  | None => False
  end.
Proof. vm_compute. repeat split. Qed.

(** [0.0] and [-0.0] are two keys, and so are [1] and [1.0]: the hash is of the
    representation. *)
Lemma map_zero_keys (value : LRValue) :
  match exec_ops [MSet (VFloat64 0) value; MSet (VInt32 1) value] new_table with
  | Some md => SameValueZero (VFloat64 0) (VFloat64 (2 ^ 63)) = true /\
               map_get md (VFloat64 (2 ^ 63)) = None /\
               SameValueZero (VInt32 1) (VFloat64 4607182418800017408) = true /\
               map_get md (VFloat64 4607182418800017408) = None
  | None => False
  end.
Proof. vm_compute. repeat split. Qed.

(** A symbol is lost as a key.  [lr_dup_value] stores a copy of the symbol at
    a new address while lookups compare addresses: if the Map has no entry for
    the symbol, then after a successful [set] it still has none, so [get] finds
    nothing and the next [set] adds a second entry. *)
Theorem map_symbol_key_lost (calloc_ok : alloc_result) (fresh_key fresh_value p : Z)
    (md md' : LRMapData) (value : LRValue) :
  Forall (lacks_symbol p) (m_entries md) -> fresh_key <> p ->
  map_data_set calloc_ok fresh_key fresh_value md (VSymbol p) value = SetOk md' ->
  map_get md' (VSymbol p) = None /\ Forall (lacks_symbol p) (m_entries md').
Proof.
  intros H Hne E. assert (Forall (lacks_symbol p) (m_entries md')) as H';
    [|split; [by apply lacks_symbol_get|done]].
  unfold map_data_set, map_data_resize in E. destruct (over_load md); [|by eapply map_insert_lacks].
  destruct (negb calloc_ok || _); [done|]. destruct (rehash _ _ _ _) as [[es c]|] eqn:Er; [|done].
  apply (rehash_lacks p) in Er; [|apply Forall_replicate; done|done].
  by eapply map_insert_lacks in E.
Qed.

Lemma map_symbol_key_lost_witness :
  exists md', map_data_set true 4096 0 new_table
                (VSymbol 64) (VInt32 1) = SetOk md' /\
    m_count md' = 1 /\ map_get md' (VSymbol 64) = None.
Proof.
  eexists. split; [vm_compute; reflexivity|]. split; [reflexivity|].
  eapply (map_symbol_key_lost true 4096 0 64 new_table _
    (VInt32 1)); [|discriminate|vm_compute; reflexivity].
  repeat (apply Forall_cons_2 || apply Forall_nil_2); discriminate.
Defined.
