(* ===== verification/SetTable.v ===== *)
(** [Set]: the open-addressing hash table of [src/src/lr_set.c] and its
    prototype methods.

    Same layout as the Map's table, with one difference that matters: [add]
    takes the first slot that is not live, tombstone or not, without looking
    further for the value.  The comparison and the hash are those of
    [Values.v].

    The theorems: [add] returns, makes a canonical value a member and changes
    nothing else, values compared by SameValueZero; [clear] empties the set; and what goes wrong: after a deletion on its
    probe path a value can be added twice, and one [delete] does not remove
    it. *)

From stdpp Require Import base list.
From Stdlib Require Import ZArith Lia.
From S2P Require Import Prelude.
From S2P Require Import Values.

(** ** The table *)

Record LRSetEntry := SetEntry { s_value : LRValue; s_hash : Z; s_alive : bool }.

Record LRSetData := SetData {
  s_entries : list LRSetEntry;
  s_count : Z;
  s_capacity : Z;
  s_iter_count : Z
}.

(** The file's own copies of the Map's comparison and hash. *)
Definition set_same_value_zero : LRValue -> LRValue -> bool := same_value_zero.
Definition set_hash_value : LRValue -> Z := hash_value.

Definition SET_INITIAL_CAPACITY : Z := 16.

Definition empty_set_entry : LRSetEntry := SetEntry VUndefined 0 false.

Definition set_data_new (calloc_ok calloc_ok2 : alloc_result) : option LRSetData :=
  if negb calloc_ok then None
  else if negb calloc_ok2 then None
  else Some (SetData (replicate (Z.to_nat SET_INITIAL_CAPACITY) empty_set_entry)
                     0 SET_INITIAL_CAPACITY 0).

(** [while (sd->entries[idx].alive) idx = next;], at most [fuel] times. *)
Fixpoint set_free_slot (fuel : nat) (cap : Z) (es : list LRSetEntry) (idx : Z) : option Z :=
  match fuel with
  | O => None
  | S fuel' =>
      match slot es idx with
      | Some e => if s_alive e then set_free_slot fuel' cap es (next_slot cap idx) else Some idx
      | None => None
      end
  end.

Fixpoint set_rehash (new_capacity : Z) (old es : list LRSetEntry) (count : Z)
    : option (list LRSetEntry * Z) :=
  match old with
  | [] => Some (es, count)
  | e :: old' =>
      if s_alive e then
        match set_free_slot (Z.to_nat new_capacity) new_capacity es
                            (home_slot new_capacity (s_hash e)) with
        | None => None
        | Some idx => set_rehash new_capacity old' (<[Z.to_nat idx := e]> es) (count + 1)
        end
      else set_rehash new_capacity old' es count
  end.

Inductive set_outcome := AddDone (sd : LRSetData) | AddNoMemory (sd : LRSetData) | AddLoops.

(** [AddLoops]: a probe found no free slot.  [calloc] refuses a negative capacity,
    a [size_t] above [2 ^ 63]. *)
Definition set_data_resize (calloc_ok : alloc_result) (sd : LRSetData) (new_capacity : Z)
    : set_outcome :=
  if negb calloc_ok || (new_capacity <? 0) then AddNoMemory sd
  else match set_rehash new_capacity (s_entries sd)
               (replicate (Z.to_nat new_capacity) empty_set_entry) 0 with
       | None => AddLoops
       | Some (es, count) => AddDone (SetData es count new_capacity (s_iter_count sd))
       end.

(** The test of a live slot against the value. *)
Definition set_matches (hash : Z) (value : LRValue) (e : LRSetEntry) : bool :=
  (s_hash e =? hash) && set_same_value_zero (s_value e) value.

(** [while (1)]: the slot to fill ([inl]) or the slot that holds the value
    ([inr]), after at most [fuel] probes. *)
Fixpoint add_scan (fuel : nat) (cap : Z) (es : list LRSetEntry) (hash : Z) (value : LRValue)
    (idx : Z) : option (Z + Z) :=
  match fuel with
  | O => None
  | S fuel' =>
      match slot es idx with
      | None => None
      | Some e =>
          if negb (s_alive e) then Some (inl idx)
          else if set_matches hash value e then Some (inr idx)
          else add_scan fuel' cap es hash value (next_slot cap idx)
      end
  end.

Definition set_over_load (sd : LRSetData) : bool := 4 * (s_count sd + 1) >? 3 * s_capacity sd.

Definition set_insert (fresh : Z) (sd : LRSetData) (value : LRValue) : set_outcome :=
  let hash := set_hash_value value in
  match add_scan (Z.to_nat (s_capacity sd)) (s_capacity sd) (s_entries sd) hash value
                 (home_slot (s_capacity sd) hash) with
  | None => AddLoops
  | Some (inr _) => AddDone sd
  | Some (inl idx) =>
      AddDone (SetData
        (<[Z.to_nat idx := SetEntry (lr_dup_value fresh value) hash true]> (s_entries sd))
        (s_count sd + 1) (s_capacity sd) (i32 (s_iter_count sd + 1)))
  end.

Definition set_data_add (calloc_ok : alloc_result) (fresh : Z) (sd : LRSetData)
    (value : LRValue) : set_outcome :=
  if set_over_load sd then
    match set_data_resize calloc_ok sd (doubled (s_capacity sd)) with
    | AddDone sd => set_insert fresh sd value
    | other => other
    end
  else set_insert fresh sd value.

(** The search loop shared by [has] and [delete]. *)
Definition set_find (sd : LRSetData) (value : LRValue) : option Z :=
  let hash := set_hash_value value in
  scan (s_capacity sd) (s_entries sd) (fun e => s_alive e && set_matches hash value e)
       (Z.to_nat (s_capacity sd)) (home_slot (s_capacity sd) hash).

Definition set_has (sd : LRSetData) (value : LRValue) : bool :=
  match set_find sd value with Some _ => true | None => false end.

(** The hash of a deleted entry is kept. *)
Definition set_delete (sd : LRSetData) (value : LRValue) : bool * LRSetData :=
  match set_find sd value with
  | Some idx =>
      (true, SetData (alter (fun e => SetEntry VUndefined (s_hash e) false) (Z.to_nat idx)
                            (s_entries sd))
                     (s_count sd - 1) (s_capacity sd) (i32 (s_iter_count sd + 1)))
  | None => (false, sd)
  end.

Definition set_clear (sd : LRSetData) : LRSetData :=
  SetData (map (fun e => if s_alive e then SetEntry VUndefined (s_hash e) false else e)
               (s_entries sd))
          0 (s_capacity sd) (i32 (s_iter_count sd + 1)).

(** ** Iteration *)

Inductive set_iter_value := SItem (v : LRValue) | SPair (v w : LRValue).

Record LRSetIterator := SetIterator { si_index : Z; si_entries : bool; si_iter_count : Z }.

Definition create_set_iterator (sd : LRSetData) (entries : bool) : LRSetIterator :=
  SetIterator 0 entries (s_iter_count sd).

Fixpoint set_iter_scan (es : list LRSetEntry) (index : Z) (entries : bool)
    : option set_iter_value * Z :=
  match es with
  | [] => (None, index)
  | e :: es' =>
      if s_alive e then
        (Some (if entries then SPair (s_value e) (s_value e) else SItem (s_value e)), index + 1)
      else set_iter_scan es' (index + 1) entries
  end.

Definition js_set_iterator_next (sd : LRSetData) (it : LRSetIterator)
    : option set_iter_value * LRSetIterator :=
  let '(v, index) := set_iter_scan (drop (Z.to_nat (si_index it)) (s_entries sd))
                                   (si_index it) (si_entries it) in
  (v, SetIterator index (si_entries it) (si_iter_count it)).

Definition js_set_forEach_args (sd : LRSetData) : list (LRValue * LRValue) :=
  map (fun e => (s_value e, s_value e)) (filter (fun e => s_alive e = true) (s_entries sd)).

(** ** Methods *)

Record SetObject := MkSetObject { so_data : LRSetData; so_size : Z }.

Inductive set_receiver := SNotObject | SNoData | SSet (s : SetObject).

Inductive set_js_result := SThrow | SThis | SUndefined | SBool (b : bool) | SNumber (n : Z).

Definition set_sync_size (sd : LRSetData) : SetObject := MkSetObject sd (s_count sd).

Definition js_set_add (calloc_ok : alloc_result) (fresh : Z) (this : set_receiver)
    (value : LRValue) : option (set_js_result * set_receiver) :=
  match this with
  | SNotObject | SNoData => Some (SThrow, this)
  | SSet s =>
      match set_data_add calloc_ok fresh (so_data s) value with
      | AddDone sd | AddNoMemory sd => Some (SThis, SSet (set_sync_size sd))
      | AddLoops => None
      end
  end.

Definition js_set_has (this : set_receiver) (value : LRValue) : set_js_result :=
  match this with
  | SNotObject => SThrow
  | SNoData => SBool false
  | SSet s => SBool (set_has (so_data s) value)
  end.

Definition js_set_delete (this : set_receiver) (value : LRValue)
    : set_js_result * set_receiver :=
  match this with
  | SNotObject => (SThrow, this)
  | SNoData => (SBool false, this)
  | SSet s =>
      let '(found, sd) := set_delete (so_data s) value in
      (SBool found, if found then SSet (set_sync_size sd) else this)
  end.

Definition js_set_clear (this : set_receiver) : set_js_result * set_receiver :=
  match this with
  | SNotObject => (SThrow, this)
  | SNoData => (SUndefined, this)
  | SSet s => (SUndefined, SSet (set_sync_size (set_clear (so_data s))))
  end.

Definition js_set_get_size (this : set_receiver) : set_js_result :=
  match this with
  | SNotObject => SThrow
  | SNoData => SNumber 0
  | SSet s => SNumber (s_count (so_data s))
  end.

(** The constructor on an array. *)
Fixpoint set_populate (calloc_ok : nat -> alloc_result) (fresh : nat -> Z) (i : nat)
    (items : list LRValue) (sd : LRSetData) : option LRSetData :=
  match items with
  | [] => Some sd
  | v :: items' =>
      match set_data_add (calloc_ok i) (fresh i) sd v with
      | AddDone sd | AddNoMemory sd => set_populate calloc_ok fresh (S i) items' sd
      | AddLoops => None
      end
  end.

Definition js_set_constructor (calloc_sd calloc_entries : alloc_result)
    (calloc_ok : nat -> alloc_result) (fresh : nat -> Z) (items : list LRValue)
    : option SetObject :=
  match set_data_new calloc_sd calloc_entries with
  | None => None
  | Some sd => set_sync_size <$> set_populate calloc_ok fresh 0 items sd
  end.

(** ** Well-formed tables *)

(** Live slots. *)
Fixpoint live_count (es : list LRSetEntry) : Z :=
  match es with
  | [] => 0
  | e :: es' => (if s_alive e then 1 else 0) + live_count es'
  end.

Record set_ok (sd : LRSetData) : Prop := {
  so_cap : exists k, 0 <= k /\ s_capacity sd = 2 ^ k;
  so_len : zlen (s_entries sd) = s_capacity sd;
  so_count : s_count sd = live_count (s_entries sd);
  so_small : s_capacity sd <= max_capacity
}.

(** No live entry lies behind a free slot of its probe path; [delete] breaks
    this. *)
Definition tight (cap : Z) (es : list LRSetEntry) : Prop :=
  forall d e d', 0 <= d' < d -> d < cap -> s_alive e = true ->
    slot es (probe cap (s_hash e) d) = Some e ->
    exists e', slot es (probe cap (s_hash e) d') = Some e' /\ s_alive e' = true.

(** A value is found when a live entry matches it. *)
Definition holds (value : LRValue) (e : LRSetEntry) : bool :=
  s_alive e && set_matches (set_hash_value value) value e.

Lemma holds_alive value e : holds value e = true -> s_alive e = true.
Proof. unfold holds. by destruct (s_alive e). Qed.

Lemma live_count_bounds es : 0 <= live_count es <= zlen es.
Proof. induction es as [|e es IH]; [done|]. rewrite zlen_cons. cbn. case_if; lia. Qed.

Lemma live_count_insert es i e e0 :
  es !! i = Some e0 ->
  live_count (<[i := e]> es)
    = live_count es - (if s_alive e0 then 1 else 0) + (if s_alive e then 1 else 0).
Proof.
  revert i. induction es as [|x es IH]; intros [|i] H; [done|done| |].
  - injection H as ->. cbn. lia.
  - change (<[S i := e]> (x :: es)) with (x :: <[i := e]> es).
    cbn [live_count]. rewrite (IH i H). lia.
Qed.

Lemma live_count_replicate n : live_count (replicate n empty_set_entry) = 0.
Proof. by induction n. Qed.

Lemma existsb_insert {A} (p : A -> bool) es i e e0 :
  es !! i = Some e0 -> p e0 = false -> existsb p (<[i := e]> es) = p e || existsb p es.
Proof.
  revert i. induction es as [|x es IH]; intros [|i] H H0; [done|done| |].
  - injection H as ->. cbn. by rewrite H0.
  - change (<[S i := e]> (x :: es)) with (x :: <[i := e]> es).
    cbn [existsb]. rewrite (IH i H H0). by destruct (p x), (p e).
Qed.

Lemma existsb_replicate {A} (p : A -> bool) n e : p e = false -> existsb p (replicate n e) = false.
Proof. intros H. induction n; cbn; [done|]. by rewrite H. Qed.

Lemma existsb_slot {A} (p : A -> bool) (es : list A) :
  existsb p es = true <-> exists j e, 0 <= j < zlen es /\ slot es j = Some e /\ p e = true.
Proof.
  rewrite existsb_exists. unfold slot, zlen. split.
  - intros (e & He%list_elem_of_In & Hp). apply list_elem_of_lookup_1 in He as [i Hi].
    pose proof (lookup_lt_Some _ _ _ Hi). exists (Z.of_nat i), e. rewrite Nat2Z.id.
    split_and!; [lia|lia|done|done].
  - intros (j & e & _ & Hs & Hp). exists e. split; [|done].
    apply list_elem_of_In. by eapply list_elem_of_lookup_2.
Qed.

Lemma set_has_existsb sd value :
  set_ok sd -> set_has sd value = existsb (holds value) (s_entries sd).
Proof.
  intros [[k [Hk Hcap]] Hlen _ _]. unfold set_has, set_find.
  pose proof (scan_all _ _ k Hk Hcap Hlen (holds value) (set_hash_value value)) as H.
  unfold holds in H |- * at 1. destruct (scan _ _ _ _ _) as [j|]; symmetry.
  - destruct H as (Hj & e & Hs & Hp). apply existsb_slot. exists j, e. rewrite Hlen. done.
  - apply not_true_is_false. rewrite existsb_slot. intros (j & e & Hj & Hs & Hp).
    rewrite Hlen in Hj. specialize (H j e Hj Hs). unfold holds in Hp. congruence.
Qed.

(** ** Probing *)

Section Probing.

Context (cap k : Z) (Hk : 0 <= k) (Hcap : cap = 2 ^ k).

Lemma dead_slot es h :
  zlen es = cap -> live_count es < cap ->
  exists d e, 0 <= d < cap /\ slot es (probe cap h d) = Some e /\ s_alive e = false.
Proof.
  intros Hlen Hc. assert (exists j e, 0 <= j < zlen es /\ slot es j = Some e /\ s_alive e = false)
    as (j & e & Hj & Hs & He).
  { clear Hcap. rewrite <- Hlen in Hc. clear Hlen.
    induction es as [|x es IH]; [by cbn in Hc|]. rewrite zlen_cons in *. cbn [live_count] in Hc.
    pose proof (zlen_nonneg es). destruct (s_alive x) eqn:E.
    - destruct IH as (j & e & Hj & Hs & He); [lia|]. exists (j + 1), e. split; [lia|].
      split; [|done]. unfold slot in *. by replace (Z.to_nat (j + 1)) with (S (Z.to_nat j)) by lia.
    - exists 0, x. split_and!; [lia|lia|done|done]. }
  destruct (probe_cover cap k Hk Hcap h j) as (d & Hd & <-); [lia|]. eauto.
Qed.

Lemma set_free_slot_scan fuel es idx :
  set_free_slot fuel cap es idx = scan cap es (fun e => negb (s_alive e)) fuel idx.
Proof.
  revert idx. induction fuel as [|n IH]; intros idx; [done|]. cbn.
  destruct (slot es idx) as [e|]; [|done]. by destruct (s_alive e); cbn.
Qed.

(** [add]'s loop stops at the first slot that is free or holds the value. *)
Lemma add_scan_scan fuel es hash value idx :
  add_scan fuel cap es hash value idx
  = (fun j => match slot es j with
              | Some e => if s_alive e then inr j else inl j
              | None => inl j
              end)
    <$> scan cap es (fun e => negb (s_alive e) || set_matches hash value e) fuel idx.
Proof.
  revert idx. induction fuel as [|n IH]; intros idx; [done|]. cbn.
  destruct (slot es idx) as [e|] eqn:E; [|done].
  destruct (s_alive e) eqn:Ea; cbn; [|by rewrite E, Ea].
  destruct (set_matches hash value e); cbn; [by rewrite E, Ea|apply IH].
Qed.

(** The first free slot of a probe path. *)
Lemma set_free_slot_spec es h :
  zlen es = cap -> live_count es < cap ->
  exists d e0, 0 <= d < cap /\
    set_free_slot (Z.to_nat cap) cap es (home_slot cap h) = Some (probe cap h d) /\
    slot es (probe cap h d) = Some e0 /\ s_alive e0 = false /\
    forall d' e', 0 <= d' < d -> slot es (probe cap h d') = Some e' -> s_alive e' = true.
Proof.
  intros Hlen Hc. rewrite set_free_slot_scan, (home_probe cap k Hk Hcap).
  pose proof (scan_spec cap es k Hk Hcap Hlen (fun e => negb (s_alive e)) (Z.to_nat cap) h 0) as H.
  destruct (dead_slot es h Hlen Hc) as (d0 & e & Hd & Hs & He).
  destruct (scan _ _ _ _ _) as [j|]; [|specialize (H d0 e ltac:(lia) Hs); by rewrite He in H].
  destruct H as (d & e' & Hd' & -> & Hs' & Hp & Hb). exists d, e'.
  apply negb_true_iff in Hp. split_and!; try done; try lia.
  intros d' x Hx Hsx. apply negb_false_iff. by eapply Hb.
Qed.

Lemma add_scan_spec es hash value :
  zlen es = cap -> live_count es < cap ->
  match add_scan (Z.to_nat cap) cap es hash value (home_slot cap hash) with
  | Some (inl j) => exists d e, 0 <= d < cap /\ j = probe cap hash d /\ slot es j = Some e /\
      s_alive e = false /\
      forall d' e', 0 <= d' < d -> slot es (probe cap hash d') = Some e' ->
        s_alive e' = true /\ set_matches hash value e' = false
  | Some (inr j) => exists e, 0 <= j < cap /\ slot es j = Some e /\ s_alive e = true /\
      set_matches hash value e = true
  | None => False
  end.
Proof.
  intros Hlen Hc. rewrite add_scan_scan, (home_probe cap k Hk Hcap).
  set (p := fun e : LRSetEntry => negb (s_alive e) || set_matches hash value e).
  pose proof (scan_spec cap es k Hk Hcap Hlen p (Z.to_nat cap) hash 0) as H.
  destruct (dead_slot es hash Hlen Hc) as (d0 & e & Hd & Hs & He).
  destruct (scan _ _ _ _ _) as [j|]; cbn.
  - destruct H as (d & e' & Hd' & -> & Hs' & Hp & Hb). rewrite Hs'. unfold p in Hp, Hb.
    destruct (s_alive e') eqn:Ea; cbn in Hp.
    + exists e'. pose proof (probe_range cap k Hk Hcap hash d). done.
    + exists d, e'. split_and!; try done; try lia. intros d' x Hx Hsx.
      specialize (Hb d' x Hx Hsx). apply orb_false_elim in Hb as [H1 H2].
      by apply negb_false_iff in H1.
  - specialize (H d0 e ltac:(lia) Hs). unfold p in H. by rewrite He in H.
Qed.

Lemma slot_insert_set (es : list LRSetEntry) i j e :
  0 <= i < zlen es -> 0 <= j < zlen es ->
  slot (<[Z.to_nat i := e]> es) j = if i =? j then Some e else slot es j.
Proof.
  intros Hi Hj. unfold slot. unfold zlen in *. destruct (Z.eqb_spec i j) as [->|].
  - apply list_lookup_insert_eq. lia.
  - apply list_lookup_insert_ne. lia.
Qed.

Lemma tight_insert es e d e0 :
  zlen es = cap -> tight cap es -> s_alive e = true -> 0 <= d < cap ->
  slot es (probe cap (s_hash e) d) = Some e0 -> s_alive e0 = false ->
  (forall d' e', 0 <= d' < d -> slot es (probe cap (s_hash e) d') = Some e' -> s_alive e' = true) ->
  tight cap (<[Z.to_nat (probe cap (s_hash e) d) := e]> es).
Proof.
  intros Hlen Ht Ha Hd Hs0 H0 Hb. set (i := probe cap (s_hash e) d) in *.
  assert (forall h x, 0 <= probe cap h x < cap) as Hr by (intros; by eapply probe_range).
  assert (forall j, 0 <= j < cap ->
    slot (<[Z.to_nat i := e]> es) j = if i =? j then Some e else slot es j) as Hsl.
  { intros. apply slot_insert_set; rewrite Hlen; [apply Hr|done]. }
  intros d1 a d' Hd' Hd1 Haa Hs. rewrite Hsl in Hs |- * by done.
  destruct (Z.eqb_spec i (probe cap (s_hash a) d')) as [_|Hne]; [by exists e|].
  case_if_in Hs; to_prop; [|by eapply Ht].
  apply (inj Some) in Hs as <-.
  assert (d = d1) as <- by (apply (probe_inj cap k Hk Hcap (s_hash e)); [lia|lia|exact Hif]).
  destruct (slot_some cap es Hlen (probe cap (s_hash e) d') (Hr _ _)) as [e' He'].
  exists e'. split; [done|]. by eapply Hb.
Qed.

Lemma set_rehash_spec old es count :
  zlen es = cap -> live_count es + live_count old <= cap ->
  exists es', set_rehash cap old es count = Some (es', count + live_count old) /\
    zlen es' = cap /\ live_count es' = live_count es + live_count old /\
    (forall w, existsb (holds w) es' = existsb (holds w) es || existsb (holds w) old) /\
    (tight cap es -> tight cap es').
Proof.
  revert es count. induction old as [|x old IH]; intros es count Hlen Hc;
    cbn [set_rehash live_count existsb] in *.
  { exists es. rewrite !Z.add_0_r. split_and!; try done. intros w. by rewrite orb_false_r. }
  destruct (s_alive x) eqn:Hx.
  - pose proof (live_count_bounds old).
    destruct (set_free_slot_spec es (s_hash x) Hlen ltac:(lia))
      as (d & e0 & Hd & -> & Hs & Hdead & Hb).
    set (es1 := <[Z.to_nat (probe cap (s_hash x) d) := x]> es).
    assert (live_count es1 = live_count es + 1) as Hc1
      by (unfold es1; rewrite (live_count_insert _ _ _ _ Hs), Hdead, Hx; lia).
    assert (zlen es1 = cap) as Hl1 by (unfold es1, zlen; by rewrite length_insert).
    destruct (IH es1 (count + 1)) as (es' & -> & H1 & H2 & H3 & H4); [done|lia|].
    exists es'. split_and!; [do 2 f_equal; lia|done|lia| |].
    + intros w. rewrite H3. unfold es1. rewrite (existsb_insert _ _ _ _ _ Hs).
      * by destruct (holds w x), (existsb (holds w) es).
      * unfold holds. by rewrite Hdead.
    + intros Ht. apply H4. by eapply tight_insert.
  - destruct (IH es count) as (es' & -> & H1 & H2 & H3 & H4); [done|lia|].
    exists es'. split_and!; [done|done|lia| |done].
    intros w. rewrite H3. unfold holds at 4. by rewrite Hx.
Qed.

End Probing.

(** ** [add] *)

Lemma holds_stored fresh v w :
  plain_value v = true -> holds w (SetEntry (lr_dup_value fresh v) (set_hash_value v) true) = key_eq v w.
Proof.
  intros Hv. unfold holds, set_matches. cbn [s_alive s_hash s_value andb].
  rewrite (lr_dup_plain _ _ Hv). reflexivity.
Qed.

(** What [add] does on a set that has a free slot. *)
Lemma set_insert_spec fresh sd value :
  set_ok sd -> live_count (s_entries sd) < s_capacity sd -> plain_value value = true ->
  exists sd', set_insert fresh sd value = AddDone sd' /\ set_ok sd' /\
    (forall w, set_has sd' w = key_eq value w || set_has sd w) /\
    (tight (s_capacity sd) (s_entries sd) -> tight (s_capacity sd') (s_entries sd') /\
       s_count sd' = s_count sd + (if set_has sd value then 0 else 1)).
Proof.
  intros Hok Hc Hp. pose proof Hok as [[k [Hk Hcap]] Hlen Hcount Hsm].
  assert (usable value = true) as Hu by (by destruct value).
  set (h := set_hash_value value). unfold set_insert. fold h.
  pose proof (add_scan_spec _ k Hk Hcap (s_entries sd) h value Hlen Hc) as Hs.
  destruct (add_scan _ _ _ _ _ _) as [[j|j]|]; [| |done].
  - destruct Hs as (d & e0 & Hd & -> & Hs & Hdead & Hb).
    set (e := SetEntry (lr_dup_value fresh value) h true).
    set (sd' := SetData _ _ _ _). exists sd'.
    assert (set_ok sd') as Hok'.
    { split; [by exists k| | |done]; cbn [sd' s_entries s_capacity s_count].
      - unfold zlen in *. by rewrite length_insert.
      - rewrite (live_count_insert _ _ _ _ Hs), Hdead. cbn [e s_alive]. lia. }
    split_and!; [done|done| |].
    + intros w. rewrite !set_has_existsb by done. cbn [sd' s_entries].
      rewrite (existsb_insert _ _ _ _ _ Hs) by (unfold holds; by rewrite Hdead).
      unfold e, h. by rewrite holds_stored.
    + intros Ht. split.
      * apply (tight_insert _ k Hk Hcap _ e d e0); try done. intros d' e' Hd' He'. by eapply Hb.
      * enough (set_has sd value = false) as -> by (cbn; lia).
        rewrite set_has_existsb by done. apply not_true_is_false. rewrite existsb_slot.
        intros (i & x & Hi & Hsx & Hx). rewrite Hlen in Hi. pose proof (holds_alive _ _ Hx) as Hax.
        unfold holds in Hx. rewrite Hax in Hx. cbn [andb] in Hx. fold h in Hx.
        assert (s_hash x = h) as Hxh
          by (unfold set_matches in Hx; apply andb_prop in Hx as [Hx _]; by to_prop).
        destruct (probe_cover _ k Hk Hcap h i Hi) as (dx & Hdx & <-).
        destruct (Z.lt_trichotomy dx d) as [Hlt|[->|Hgt]].
        -- destruct (Hb dx x) as [_ ?]; [lia|done|congruence].
        -- congruence.
        -- destruct (Ht dx x d) as (y & Hy & Hay); [lia|lia|done|by rewrite Hxh|].
           rewrite Hxh, Hs in Hy. congruence.
  - destruct Hs as (e & Hj & Hs & Ha & Hm). exists sd.
    assert (holds value e = true) as Hh by (unfold holds; by rewrite Ha).
    assert (set_has sd value = true) as Hhas.
    { rewrite set_has_existsb by done. apply existsb_slot. exists j, e. by rewrite Hlen. }
    split_and!; [done|done| |intros Ht; rewrite Hhas; split; [done|lia]].
    intros w. destruct (key_eq value w) eqn:E; [|done]. cbn.
    rewrite set_has_existsb by done. apply existsb_slot. exists j, e.
    rewrite Hlen. split_and!; try lia; [done|].
    unfold holds, set_matches in *. rewrite Ha in *. cbn [andb] in *.
    unfold set_same_value_zero, set_hash_value in *.
    apply andb_prop in Hm as [Hm1 Hm2]. unfold h, set_hash_value in Hm1.
    apply key_eq_spec in E as (E1 & E2 & E3).
    apply same_value_zero_class in Hm2 as [Hm2 Hm3].
    rewrite <- E1, Hm1. cbn. apply same_value_zero_class. split; [done|congruence].
Qed.

Lemma set_resize_max c sd :
  s_capacity sd = max_capacity -> set_data_resize c sd (doubled (s_capacity sd)) = AddNoMemory sd.
Proof. intros ->. by destruct c. Qed.

Lemma set_resize_spec sd :
  set_ok sd -> s_capacity sd <> max_capacity ->
  exists sd', set_data_resize true sd (doubled (s_capacity sd)) = AddDone sd' /\ set_ok sd' /\
    live_count (s_entries sd') < s_capacity sd' /\
    (forall w, set_has sd' w = set_has sd w) /\
    tight (s_capacity sd') (s_entries sd') /\ s_count sd' = s_count sd.
Proof.
  intros Hok Hne. pose proof Hok as [[k [Hk Hcap]] Hlen Hcount Hsm].
  pose proof (cap_pos _ k Hk Hcap). pose proof (live_count_bounds (s_entries sd)).
  set (nc := doubled (s_capacity sd)).
  assert (nc = 2 ^ (k + 1) /\ 2 ^ (k + 1) <= max_capacity) as [Hnc Hsmall].
  { unfold nc. rewrite Hcap in *. split; [by apply doubled_pow2|by apply pow2_small]. }
  assert (nc = s_capacity sd * 2) as Hnc2 by (rewrite Hnc, Hcap, Z.pow_add_r by lia; lia).
  assert (zlen (replicate (Z.to_nat nc) empty_set_entry) = nc) as Hl
    by (unfold zlen; rewrite length_replicate; lia).
  destruct (set_rehash_spec nc (k + 1) ltac:(lia) Hnc (s_entries sd)
    (replicate (Z.to_nat nc) empty_set_entry) 0 Hl) as (es' & E & H1 & H2 & H3 & H4).
  { rewrite live_count_replicate. lia. }
  rewrite live_count_replicate in H2. unfold set_data_resize.
  rewrite (proj2 (Z.ltb_ge nc 0)) by lia. cbn [negb orb]. rewrite E.
  eexists. split; [reflexivity|]. cbn [s_entries s_capacity s_count].
  assert (set_ok (SetData es' (0 + live_count (s_entries sd)) nc (s_iter_count sd))) as Hok'.
  { split; [exists (k + 1); split; [lia|done]|done|cbn; lia|cbn; lia]. }
  split_and!; [done|lia| | |lia].
  - intros w. rewrite !set_has_existsb by done. cbn [s_entries]. rewrite H3.
    by rewrite existsb_replicate.
  - apply H4. intros d e d' _ _ Ha Hs. apply list_elem_of_lookup_2 in Hs.
    apply elem_of_replicate in Hs as [-> _]. done.
Qed.

Lemma set_clear_spec sd :
  set_ok sd ->
  set_ok (set_clear sd) /\ (forall w, set_has (set_clear sd) w = false) /\
  tight (s_capacity sd) (s_entries (set_clear sd)) /\ s_count (set_clear sd) = 0.
Proof.
  intros [[k [Hk Hcap]] Hlen Hcount Hsm].
  assert (Forall (fun e => s_alive e = false) (s_entries (set_clear sd))) as Hd.
  { apply Forall_forall. intros e He. cbn [set_clear s_entries] in He.
    apply list_elem_of_In, in_map_iff in He as (x & <- & _). by destruct (s_alive x) eqn:E. }
  assert (set_ok (set_clear sd)) as Hok.
  { split; [by exists k| | |done].
    - cbn [set_clear s_entries s_capacity]. unfold zlen. rewrite length_map. done.
    - change (s_count (set_clear sd)) with 0. revert Hd. generalize (s_entries (set_clear sd)).
      induction 1 as [|e es He _ IH]; [done|]. cbn. rewrite He. lia. }
  split_and!; [done| | |done].
  - intros w. rewrite set_has_existsb by done. apply not_true_is_false. rewrite existsb_exists.
    intros (e & He%list_elem_of_In & Hw%holds_alive). rewrite Forall_forall in Hd.
    specialize (Hd e He). cbn in Hd. congruence.
  - intros d e d' _ _ Ha Hs%list_elem_of_lookup_2. rewrite Forall_forall in Hd.
    specialize (Hd e Hs). cbn in Hd. congruence.
Qed.

Lemma set_add_spec calloc_ok fresh sd value :
  set_ok sd -> plain_value value = true ->
  match set_data_add calloc_ok fresh sd value with
  | AddDone sd' => set_ok sd' /\ (forall w, set_has sd' w = key_eq value w || set_has sd w) /\
      (tight (s_capacity sd) (s_entries sd) -> tight (s_capacity sd') (s_entries sd') /\
         s_count sd' = s_count sd + (if set_has sd value then 0 else 1))
  | AddNoMemory sd' => sd' = sd /\ set_over_load sd = true /\
      (calloc_ok = false \/ s_capacity sd = max_capacity)
  | AddLoops => False
  end.
Proof.
  intros Hok Hp. unfold set_data_add. destruct (set_over_load sd) eqn:Ho.
  - destruct calloc_ok; [|by cbn; auto].
    destruct (Z.eq_dec (s_capacity sd) max_capacity) as [Hm|Hm]; [by rewrite set_resize_max; auto|].
    destruct (set_resize_spec sd Hok Hm) as (sd1 & -> & Hok1 & Hc1 & Hh1 & Ht1 & Hn1).
    destruct (set_insert_spec fresh sd1 value Hok1 Hc1 Hp) as (sd' & -> & Hok' & Hh' & Ht').
    split_and!; [done|intros w; by rewrite Hh', Hh1|].
    intros _. rewrite <- Hh1, <- Hn1. by apply Ht'.
  - assert (live_count (s_entries sd) < s_capacity sd) as Hc.
    { unfold set_over_load in Ho. rewrite <- (so_count _ Hok). pose proof Hok as [[k [Hk Hcap]] _ _ _].
      pose proof (cap_pos _ k Hk Hcap). rewrite Z.gtb_ltb in Ho. to_prop. lia. }
    destruct (set_insert_spec fresh sd value Hok Hc Hp) as (sd' & -> & Hok' & Hh' & Ht').
    done.
Qed.

Lemma set_data_new_ok sd :
  set_data_new true true = Some sd ->
  set_ok sd /\ tight (s_capacity sd) (s_entries sd) /\ s_count sd = 0 /\
  forall w, set_has sd w = false.
Proof.
  intros E. apply (inj Some) in E as <-. set (sd := SetData _ _ _ _).
  assert (set_ok sd) as Hok by (split; [by exists 4|done|done|done]).
  split_and!; [done| |done|].
  - intros d e d' _ _ Ha Hs%list_elem_of_lookup_2. apply elem_of_replicate in Hs as [-> _]. done.
  - intros w. rewrite set_has_existsb by done. by apply existsb_replicate.
Qed.

(** *** Histories without [delete] *)

Inductive set_op := SAdd (value : LRValue) | SClear.

(** The specification: the distinct values under SameValueZero, newest first. *)
Definition set_spec_op (op : set_op) (l : list LRValue) : list LRValue :=
  match op with
  | SAdd v => if existsb (fun x => SameValueZero x v) l then l else v :: l
  | SClear => []
  end.

(** The methods, memory being available. *)
Definition exec_set_op (op : set_op) (this : set_receiver) : option set_receiver :=
  match op with
  | SAdd v => snd <$> js_set_add true 0 this v
  | SClear => Some (js_set_clear this).2
  end.

Fixpoint exec_set_ops (ops : list set_op) (this : set_receiver) : option set_receiver :=
  match ops with
  | [] => Some this
  | op :: ops' =>
      match exec_set_op op this with None => None | Some this' => exec_set_ops ops' this' end
  end.

Definition plain_set_op (op : set_op) : Prop :=
  match op with SAdd v => plain_value v = true /\ canonical v | SClear => True end.

(** The set holds exactly the values of [l]. *)
Definition set_is (sd : LRSetData) (l : list LRValue) : Prop :=
  set_ok sd /\ tight (s_capacity sd) (s_entries sd) /\ s_count sd = zlen l /\ Forall canonical l /\
  forall w, set_has sd w = existsb (fun x => key_eq x w) l.

Lemma existsb_SameValueZero l w :
  Forall canonical l -> canonical w ->
  existsb (fun x => key_eq x w) l = existsb (fun x => SameValueZero x w) l.
Proof. induction 1 as [|x l Hx _ IH]; intros Hw; [done|]. cbn. by rewrite key_eq_SameValueZero, IH. Qed.

(** The load factor is not reached at the largest capacity. *)
Lemma exec_set_op_spec op sd size l :
  set_is sd l -> plain_set_op op -> zlen l < 2 ^ 29 ->
  exists sd', exec_set_op op (SSet (MkSetObject sd size)) = Some (SSet (set_sync_size sd')) /\
    set_is sd' (set_spec_op op l).
Proof.
  intros (Hok & Ht & Hn & Hl & Hh) Hp Hlt. destruct op as [v|]; cbn [exec_set_op set_spec_op].
  - destruct Hp as [Hp Hv]. pose proof (set_add_spec true 0 sd v Hok Hp) as H.
    unfold js_set_add. cbn [so_data].
    destruct (set_data_add true 0 sd v) as [sd'|sd'|]; [| |done].
    2: { destruct H as (_ & Ho & [?|Hc]); [done|]. unfold set_over_load, max_capacity in *.
         rewrite Z.gtb_ltb in Ho. to_prop. lia. }
    destruct H as (Hok' & Hh' & H). destruct (H Ht) as [Ht' Hn']. exists sd'.
    split; [done|]. unfold set_is. rewrite Hn', Hh, Hn, <- existsb_SameValueZero by done.
    destruct (existsb (fun x => key_eq x v) l) eqn:E.
    + split_and!; [done|done|lia|done|]. intros w. rewrite Hh', Hh.
      destruct (key_eq v w) eqn:Ev; [|done]. symmetry. apply existsb_exists.
      apply existsb_exists in E as (x & Hx & Exv). exists x. split; [done|].
      by rewrite (key_eq_trans _ _ _ Exv).
    + rewrite zlen_cons. split_and!; [done|done|lia|by constructor|]. intros w. by rewrite Hh', Hh.
  - destruct (set_clear_spec sd Hok) as (H1 & H2 & H3 & H4). exists (set_clear sd).
    split; [done|]. by split_and!.
Qed.

Lemma set_spec_op_length op l : zlen (set_spec_op op l) <= zlen l + 1.
Proof.
  pose proof (zlen_nonneg l). destruct op as [v|]; cbn [set_spec_op]; [|by change (zlen (@nil LRValue)) with 0; lia].
  case_if; [lia|]. rewrite zlen_cons. lia.
Qed.

Lemma exec_set_ops_spec ops sd size l :
  set_is sd l -> Forall plain_set_op ops -> zlen l + zlen ops <= 2 ^ 29 ->
  exists sd' size', exec_set_ops ops (SSet (MkSetObject sd size)) = Some (SSet (MkSetObject sd' size')) /\
    set_is sd' (fold_left (fun l op => set_spec_op op l) ops l).
Proof.
  intros Hi Hp. revert sd size l Hi.
  induction Hp as [|op ops Hop Hp IH]; intros sd size l Hi Hlt; cbn [exec_set_ops fold_left]; [eauto|].
  rewrite zlen_cons in Hlt. pose proof (zlen_nonneg ops). pose proof (set_spec_op_length op l).
  destruct (exec_set_op_spec op sd size l Hi Hop ltac:(lia)) as (sd' & -> & Hi').
  apply IH; [done|lia].
Qed.

(** ** Properties *)

(** C33: [Set.prototype.add] on a well-formed table, tombstones included, and a
    canonical value other than a symbol: the probe always stops, the table stays
    well formed, the values SameValueZero to the value are then members and
    every other canonical value is a member exactly if it was.  On a table that
    no [delete] has touched, the count grows by one exactly for a new value.
    The only failure is a table that must grow when memory is refused or the
    capacity is the largest of an [int32_t], and it leaves the set alone. *)
Theorem set_data_add_spec (calloc_ok : alloc_result) (fresh : Z) (sd : LRSetData) (value : LRValue) :
  set_ok sd -> plain_value value = true -> canonical value ->
  match set_data_add calloc_ok fresh sd value with
  | AddDone sd' =>
      set_ok sd' /\
      (forall w, canonical w -> set_has sd' w = SameValueZero value w || set_has sd w) /\
      (tight (s_capacity sd) (s_entries sd) ->
         tight (s_capacity sd') (s_entries sd') /\
         s_count sd' = s_count sd + (if set_has sd value then 0 else 1))
  | AddNoMemory sd' => sd' = sd /\ set_over_load sd = true /\
      (calloc_ok = false \/ s_capacity sd = max_capacity)
  | AddLoops => False
  end.
Proof.
  intros Hok Hp Hc. pose proof (set_add_spec calloc_ok fresh sd value Hok Hp) as H.
  destruct (set_data_add _ _ _ _); [|done..]. destruct H as (H1 & H2 & H3).
  split_and!; [done| |done]. intros w Hw. by rewrite H2, key_eq_SameValueZero.
Qed.

Definition new_set : LRSetData :=
  SetData (replicate 16 empty_set_entry) 0 16 0.

Lemma set_data_add_spec_witness :
  set_ok new_set /\
  exists sd', set_data_add true 0 new_set (VString [97]) = AddDone sd' /\
    set_has sd' (VString [97]) = true /\ set_has sd' VNull = false /\ s_count sd' = 1.
Proof.
  destruct (set_data_new_ok new_set eq_refl) as (Hok & Ht & Hn & Hh).
  split; [exact Hok|].
  assert (exists sd', set_data_add true 0 new_set (VString [97]) = AddDone sd') as [sd' E]
    by (eexists; vm_compute; reflexivity).
  exists sd'. split; [exact E|].
  pose proof (set_data_add_spec true 0 new_set (VString [97]) Hok eq_refl I) as H.
  rewrite E in H. destruct H as (_ & H & H'). rewrite !H by exact I. split_and!.
  - vm_compute. reflexivity.
  - vm_compute. reflexivity.
  - destruct (H' Ht) as [_ ->]. vm_compute. reflexivity.
Defined.

(** C22: without [delete], a Set implements a finite set under SameValueZero.
    With memory available, every history of at most [2 ^ 29] calls of [add] and
    [clear], of canonical values other than symbols, on a new Set runs to the
    end; then [has] answers for a canonical value whether it is SameValueZero to
    one of the specification's list of distinct values, and [size] is the
    length of the list. *)
Theorem set_refines_spec (ops : list set_op) (sd : LRSetData) :
  set_data_new true true = Some sd -> Forall plain_set_op ops -> zlen ops <= 2 ^ 29 ->
  let l := fold_left (fun l op => set_spec_op op l) ops [] in
  exists this, exec_set_ops ops (SSet (set_sync_size sd)) = Some this /\
    (forall w, canonical w -> js_set_has this w = SBool (existsb (fun x => SameValueZero x w) l)) /\
    js_set_get_size this = SNumber (zlen l).
Proof.
  intros Hn Hp Hlt. destruct (set_data_new_ok sd Hn) as (H1 & H2 & H3 & H4).
  destruct (exec_set_ops_spec ops sd (s_count sd) [] ltac:(by split_and!) Hp Hlt)
    as (sd' & size' & E & (_ & _ & Hc & Hl & Hh)).
  eexists. split; [exact E|]. cbn [js_set_has js_set_get_size so_data].
  split; [intros w Hw; by rewrite Hh, existsb_SameValueZero|by rewrite Hc].
Qed.

(** Values on one probe path, one of them twice, across a [clear]. *)
Definition sample_set_ops : list set_op :=
  [SAdd (VInt32 5); SClear; SAdd (VInt32 0); SAdd (VInt32 16); SAdd (VInt32 0); SAdd (VInt32 32)].

Lemma set_refines_spec_witness :
  exists this, exec_set_ops sample_set_ops (SSet (set_sync_size new_set)) = Some this /\
    js_set_get_size this = SNumber 3 /\ js_set_has this (VInt32 16) = SBool true /\
    js_set_has this (VInt32 5) = SBool false.
Proof.
  destruct (set_refines_spec sample_set_ops new_set eq_refl) as (this & E & Hh & Hs).
  - repeat (apply Forall_cons_2 || apply Forall_nil_2); exact I || (split; [reflexivity|cbn [canonical]; lia]).
  - vm_compute. discriminate.
  - exists this. rewrite !Hh, Hs by (cbn [canonical]; lia). split_and!; [exact E| | |]; vm_compute; reflexivity.
Defined.

(** A Set can hold a value twice.  [add] fills the first free slot it meets:
    once [delete] has freed a slot in front of the value, adding the value again
    stores a second copy.  After adding 0 and 16, deleting 0 and adding 16
    again, [size] is 2, and after deleting 16 the Set still has it. *)
Lemma set_add_duplicates (fresh : Z) :
  let step r v := match js_set_add true fresh r v with Some (_, r') => r' | None => SNoData end in
  let start := SSet (set_sync_size new_set) in
  let before := step (js_set_delete (step (step start (VInt32 0)) (VInt32 16)) (VInt32 0)).2 (VInt32 16) in
  js_set_get_size before = SNumber 2 /\
  (js_set_delete before (VInt32 16)).1 = SBool true /\
  js_set_has (js_set_delete before (VInt32 16)).2 (VInt32 16) = SBool true.
Proof. vm_compute. repeat split. Qed.
