(* ===== verification/LexText.v ===== *)
(** Text handling of the lexer ([src/src/engine/lr_lexer.c]): character classes,
    the C library's number conversions on the buffers the lexer builds, the
    keyword table, and the decoding of string escapes.

    A source text is a [list Z] of bytes.  The theorems: the decoder never
    writes more bytes than it reads, it inverts the printer of string
    literals, and what [\u{...}] becomes above U+FFFF. *)

From stdpp Require Import base list strings.
From Stdlib Require Import ZArith Lia SpecFloat Ascii.
From S2P Require Import Prelude.

(** ** Characters *)

Definition ch (a : ascii) : Z := Z.of_nat (nat_of_ascii a).

(** The bytes of a C string literal. *)
Fixpoint chars_of (s : string) : list Z :=
  match s with
  | EmptyString => []
  | String a s' => ch a :: chars_of s'
  end.

Definition isdigit (c : Z) : bool := (48 <=? c) && (c <=? 57).
Definition isalpha (c : Z) : bool := (65 <=? c) && (c <=? 90) || (97 <=? c) && (c <=? 122).
Definition isalnum (c : Z) : bool := isalpha c || isdigit c.
Definition isspace (c : Z) : bool := (c =? 32) || (9 <=? c) && (c <=? 13).

Definition is_js_ident_start (c : Z) : bool :=
  isalpha c || (c =? ch "_") || (c =? ch "$") || (128 <=? c).
Definition is_js_ident_continue (c : Z) : bool :=
  isalnum c || (c =? ch "_") || (c =? ch "$") || (128 <=? c).
Definition is_hex_char (c : Z) : bool :=
  isdigit c || (ch "a" <=? c) && (c <=? ch "f") || (ch "A" <=? c) && (c <=? ch "F").
Definition is_octal_char (c : Z) : bool := (ch "0" <=? c) && (c <=? ch "7").
Definition is_binary_char (c : Z) : bool := (c =? ch "0") || (c =? ch "1").
Definition is_line_terminator (c : Z) : bool := (c =? 10) || (c =? 13).

(** ** [strtol], [strtoul], [strtoll], [strtod] *)

(** The value of a digit in any base up to 36. *)
Definition digit_value (c : Z) : Z :=
  if isdigit c then c - 48
  else if (97 <=? c) && (c <=? 122) then c - 87
  else if (65 <=? c) && (c <=? 90) then c - 55
  else 99.

(** The longest run of digits, and what is left. *)
Fixpoint parse_digits (base acc : Z) (s : list Z) : Z * list Z :=
  match s with
  | [] => (acc, [])
  | c :: s' =>
      if digit_value c <? base then parse_digits base (acc * base + digit_value c) s'
      else (acc, s)
  end.

Fixpoint skip_space (s : list Z) : list Z :=
  match s with
  | c :: s' => if isspace c then skip_space s' else s
  | [] => []
  end.

Definition parse_sign (s : list Z) : bool * list Z :=
  match s with
  | c :: s' => if c =? ch "-" then (true, s') else if c =? ch "+" then (false, s') else (false, s)
  | [] => (false, [])
  end.

(** The base, and the text after a [0x] that a hexadecimal digit follows. *)
Definition parse_prefix (base : Z) (s : list Z) : Z * list Z :=
  let hex := match s with
             | a :: b :: c :: _ => (a =? ch "0") && ((b =? ch "x") || (b =? ch "X")) && is_hex_char c
             | _ => false
             end in
  if ((base =? 16) || (base =? 0)) && hex then (16, drop 2 s)
  else if base =? 0 then
    ((match s with a :: _ => if a =? ch "0" then 8 else 10 | [] => 10 end), s)
  else (base, s).

(** The number at the start of the text, before the function clamps it. *)
Definition strto (base : Z) (s : list Z) : Z :=
  let '(neg, s1) := parse_sign (skip_space s) in
  let '(b, s2) := parse_prefix base s1 in
  let v := (parse_digits b 0 s2).1 in
  if neg then - v else v.

Definition strtoll (base : Z) (s : list Z) : Z :=
  Z.max (- 2 ^ 63) (Z.min (2 ^ 63 - 1) (strto base s)).

Definition strtoul (base : Z) (s : list Z) : Z :=
  let v := strto base s in if Z.abs v >? 2 ^ 64 - 1 then 2 ^ 64 - 1 else u64 v.

(** The double nearest to [m * 10 ^ e]. *)
Definition f64_of_decimal (m e : Z) : f64 :=
  if m =? 0 then S754_zero false
  else if 0 <=? e then f64_of_Z (m * 10 ^ e)
  else let '(q, e2, l) := SFdiv_core_binary 53 1024 m 0 (10 ^ (- e)) 0 in
       binary_round_aux 53 1024 false q e2 l.

(** The exponent part: [e], an optional sign and at least one digit. *)
Definition parse_exponent (s : list Z) : Z :=
  match s with
  | c :: s1 =>
      if (c =? ch "e") || (c =? ch "E") then
        let '(neg, s2) := parse_sign s1 in
        let v := (parse_digits 10 0 s2).1 in
        if neg then - v else v
      else 0
  | [] => 0
  end.

(** [strtod] on a text that starts with a digit and is not hexadecimal. *)
Definition strtod (s : list Z) : f64 :=
  let '(m, s1) := parse_digits 10 0 s in
  match s1 with
  | c :: s2 =>
      if c =? ch "." then
        let '(m', s3) := parse_digits 10 m s2 in
        f64_of_decimal m' (parse_exponent s3 - (zlen s2 - zlen s3))
      else f64_of_decimal m (parse_exponent s1)
  | [] => f64_of_decimal m 0
  end.

(** ** Token types and keywords *)

Inductive LRTokType :=
  | TOK_EOF
  | TOK_NUMBER | TOK_BIGINT_LIT | TOK_STRING | TOK_IDENTIFIER | TOK_REGEXP
  | TOK_BOOL_LIT | TOK_NULL_LIT | TOK_UNDEFINED_LIT
  | TOK_LPAREN | TOK_RPAREN | TOK_LBRACKET | TOK_RBRACKET
  | TOK_LBRACE | TOK_RBRACE | TOK_DOT | TOK_SEMICOLON
  | TOK_COMMA | TOK_COLON | TOK_ARROW | TOK_ELLIPSIS
  | TOK_ASSIGN | TOK_PLUS_ASSIGN | TOK_MINUS_ASSIGN | TOK_MUL_ASSIGN | TOK_DIV_ASSIGN
  | TOK_MOD_ASSIGN | TOK_POW_ASSIGN | TOK_AND_ASSIGN | TOK_OR_ASSIGN | TOK_XOR_ASSIGN
  | TOK_SHIFT_LEFT_ASSIGN | TOK_SHIFT_RIGHT_ASSIGN | TOK_USHIFT_RIGHT_ASSIGN
  | TOK_AND_AND_ASSIGN | TOK_OR_OR_ASSIGN | TOK_NULLISH_ASSIGN
  | TOK_EQ | TOK_NEQ | TOK_STRICT_EQ | TOK_STRICT_NEQ
  | TOK_LT | TOK_GT | TOK_LE | TOK_GE
  | TOK_PLUS | TOK_MINUS | TOK_MUL | TOK_DIV | TOK_MOD | TOK_POW
  | TOK_INC | TOK_DEC
  | TOK_AND | TOK_OR | TOK_NOT | TOK_BIT_AND | TOK_BIT_OR | TOK_BIT_XOR | TOK_BIT_NOT
  | TOK_AND_AND | TOK_OR_OR | TOK_NULLISH
  | TOK_SHIFT_LEFT | TOK_SHIFT_RIGHT | TOK_USHIFT_RIGHT
  | TOK_QUESTION | TOK_QUESTION_DOT
  | TOK_TEMPLATE | TOK_TEMPLATE_END
  | TOK_LET | TOK_CONST | TOK_VAR | TOK_FUNCTION | TOK_IF | TOK_ELSE
  | TOK_FOR | TOK_WHILE | TOK_DO | TOK_SWITCH | TOK_CASE | TOK_DEFAULT
  | TOK_BREAK | TOK_CONTINUE | TOK_RETURN | TOK_THROW | TOK_TRY | TOK_CATCH | TOK_FINALLY
  | TOK_NEW | TOK_THIS | TOK_TYPEOF | TOK_DELETE | TOK_VOID
  | TOK_CLASS | TOK_EXTENDS | TOK_SUPER
  | TOK_IMPORT | TOK_EXPORT | TOK_FROM | TOK_AS
  | TOK_IN | TOK_INSTANCEOF | TOK_OF
  | TOK_ASYNC | TOK_AWAIT | TOK_YIELD
  | TOK_STATIC | TOK_GET | TOK_SET
  | TOK_PRIVATE_NAME
  | TOK_DEBUGGER
  | TOK_ERROR.

(** [token_type_name] *)
Definition token_type_name (type : LRTokType) : string :=
  match type with
  | TOK_EOF => "EOF" | TOK_NUMBER => "number" | TOK_STRING => "string"
  | TOK_IDENTIFIER => "identifier" | TOK_REGEXP => "regexp" | TOK_BOOL_LIT => "boolean literal"
  | TOK_NULL_LIT => "null" | TOK_UNDEFINED_LIT => "undefined" | TOK_LPAREN => "'('"
  | TOK_RPAREN => "')'" | TOK_LBRACKET => "'['" | TOK_RBRACKET => "']'" | TOK_LBRACE => "'{'"
  | TOK_RBRACE => "'}'" | TOK_DOT => "'.'" | TOK_SEMICOLON => "';'" | TOK_COMMA => "','"
  | TOK_COLON => "':'" | TOK_ARROW => "'=>'" | TOK_ELLIPSIS => "'...'" | TOK_ASSIGN => "'='"
  | TOK_PLUS_ASSIGN => "'+='" | TOK_MINUS_ASSIGN => "'-='" | TOK_MUL_ASSIGN => "'*='"
  | TOK_DIV_ASSIGN => "'/='" | TOK_MOD_ASSIGN => "'%='" | TOK_POW_ASSIGN => "'**='"
  | TOK_EQ => "'=='" | TOK_NEQ => "'!='" | TOK_STRICT_EQ => "'==='" | TOK_STRICT_NEQ => "'!=='"
  | TOK_LT => "'<'" | TOK_GT => "'>'" | TOK_LE => "'<='" | TOK_GE => "'>='" | TOK_PLUS => "'+'"
  | TOK_MINUS => "'-'" | TOK_MUL => "'*'" | TOK_DIV => "'/'" | TOK_MOD => "'%'"
  | TOK_POW => "'**'" | TOK_INC => "'++'" | TOK_DEC => "'--'" | TOK_AND => "'&'"
  | TOK_OR => "'|'" | TOK_NOT => "'!'" | TOK_BIT_AND => "'&'" | TOK_BIT_OR => "'|'"
  | TOK_BIT_XOR => "'^'" | TOK_BIT_NOT => "'~'" | TOK_AND_AND => "'&&'" | TOK_OR_OR => "'||'"
  | TOK_NULLISH => "'??'" | TOK_QUESTION => "'?'" | TOK_QUESTION_DOT => "'?.'"
  | TOK_TEMPLATE => "template literal" | TOK_TEMPLATE_END => "end of template"
  | TOK_LET => "'let'" | TOK_CONST => "'const'" | TOK_VAR => "'var'"
  | TOK_FUNCTION => "'function'" | TOK_IF => "'if'" | TOK_ELSE => "'else'" | TOK_FOR => "'for'"
  | TOK_WHILE => "'while'" | TOK_DO => "'do'" | TOK_SWITCH => "'switch'" | TOK_CASE => "'case'"
  | TOK_DEFAULT => "'default'" | TOK_BREAK => "'break'" | TOK_CONTINUE => "'continue'"
  | TOK_RETURN => "'return'" | TOK_THROW => "'throw'" | TOK_TRY => "'try'"
  | TOK_CATCH => "'catch'" | TOK_FINALLY => "'finally'" | TOK_NEW => "'new'"
  | TOK_THIS => "'this'" | TOK_TYPEOF => "'typeof'" | TOK_DELETE => "'delete'"
  | TOK_VOID => "'void'" | TOK_CLASS => "'class'" | TOK_EXTENDS => "'extends'"
  | TOK_SUPER => "'super'" | TOK_IMPORT => "'import'" | TOK_EXPORT => "'export'"
  | TOK_FROM => "'from'" | TOK_AS => "'as'" | TOK_IN => "'in'"
  | TOK_INSTANCEOF => "'instanceof'" | TOK_OF => "'of'" | TOK_ASYNC => "'async'"
  | TOK_AWAIT => "'await'" | TOK_YIELD => "'yield'" | TOK_STATIC => "'static'"
  | TOK_GET => "'get'" | TOK_SET => "'set'" | TOK_DEBUGGER => "'debugger'"
  | TOK_ERROR => "error"
  | _ => "unknown"
  end%string.

(** The [case]s of [lookup_keyword]'s switch on the first character, each with
    its comparisons in order. *)
Definition keywords : list (Z * list (string * LRTokType)) :=
  [(ch "a", [("as", TOK_AS); ("async", TOK_ASYNC); ("await", TOK_AWAIT)]);
   (ch "b", [("break", TOK_BREAK)]);
   (ch "c", [("case", TOK_CASE); ("catch", TOK_CATCH); ("class", TOK_CLASS);
          ("continue", TOK_CONTINUE); ("const", TOK_CONST)]);
   (ch "d", [("do", TOK_DO); ("default", TOK_DEFAULT); ("delete", TOK_DELETE);
          ("debugger", TOK_DEBUGGER)]);
   (ch "e", [("else", TOK_ELSE); ("extends", TOK_EXTENDS); ("export", TOK_EXPORT)]);
   (ch "f", [("for", TOK_FOR); ("false", TOK_BOOL_LIT); ("function", TOK_FUNCTION);
          ("finally", TOK_FINALLY); ("from", TOK_FROM)]);
   (ch "g", [("get", TOK_GET)]);
   (ch "i", [("if", TOK_IF); ("in", TOK_IN); ("import", TOK_IMPORT);
          ("instanceof", TOK_INSTANCEOF)]);
   (ch "l", [("let", TOK_LET)]);
   (ch "n", [("null", TOK_NULL_LIT); ("new", TOK_NEW)]);
   (ch "o", [("of", TOK_OF)]);
   (ch "r", [("return", TOK_RETURN)]);
   (ch "s", [("super", TOK_SUPER); ("switch", TOK_SWITCH); ("static", TOK_STATIC);
          ("set", TOK_SET)]);
   (ch "t", [("true", TOK_BOOL_LIT); ("this", TOK_THIS); ("typeof", TOK_TYPEOF);
          ("try", TOK_TRY); ("throw", TOK_THROW)]);
   (ch "u", [("undefined", TOK_UNDEFINED_LIT)]);
   (ch "v", [("var", TOK_VAR); ("void", TOK_VOID)]);
   (ch "w", [("while", TOK_WHILE)]);
   (ch "y", [("yield", TOK_YIELD)])]%string.

(** [len == n && memcmp(str, word, n) == 0], for the words of one case. *)
Fixpoint match_words (words : list (string * LRTokType)) (str : list Z) : LRTokType :=
  match words with
  | [] => TOK_IDENTIFIER
  | (w, t) :: words' => if bool_decide (str = chars_of w) then t else match_words words' str
  end.

Fixpoint switch_first (cases : list (Z * list (string * LRTokType))) (c : Z) (str : list Z)
    : LRTokType :=
  match cases with
  | [] => TOK_IDENTIFIER
  | (a, words) :: cases' => if c =? a then match_words words str else switch_first cases' c str
  end.

Definition lookup_keyword (str : list Z) : LRTokType :=
  match str with
  | [] => TOK_IDENTIFIER
  | c :: _ => switch_first keywords c str
  end.

(** ** Escapes *)

(** A [char] taken as [signed char]. *)
Definition s8 (c : Z) : Z := to_signed 8 c.

(** The cases that produce one fixed character. *)
Definition simple_escape (e : Z) : option Z :=
  if e =? ch "n" then Some 10
  else if e =? ch "t" then Some 9
  else if e =? ch "r" then Some 13
  else if e =? ch "b" then Some 8
  else if e =? ch "f" then Some 12
  else if e =? ch "v" then Some 11
  else if e =? ch "0" then Some 0
  else if e =? 92 then Some 92
  else if e =? 39 then Some 39
  else if e =? 34 then Some 34
  else if e =? 96 then Some 96
  else None.

(** The three-way encoding of a code point. *)
Definition put_code_point (cp : Z) : list Z :=
  if cp <? 128 then [u8 cp]
  else if cp <? 2048 then
    [u8 (Z.lor 192 (Z.shiftr cp 6)); u8 (Z.lor 128 (Z.land cp 63))]
  else
    [u8 (Z.lor 224 (Z.shiftr cp 12)); u8 (Z.lor 128 (Z.land (Z.shiftr cp 6) 63));
     u8 (Z.lor 128 (Z.land cp 63))].

(** The digit expression of the [\u{...}] loop; it does not check its digits. *)
Definition brace_digit (c : Z) : Z :=
  let c := s8 c in
  if ch "a" <=? c then c - 97 + 10
  else if ch "A" <=? c then c - 65 + 10
  else c - 48.

(** [while (i < len && start[i] != '}')]: the code point and the text after the
    brace. *)
Fixpoint brace_code_point (cp : Z) (s : list Z) : Z * list Z :=
  match s with
  | [] => (cp, [])
  | c :: s' =>
      if c =? ch "}" then (cp, s')
      else brace_code_point (u64 (cp * 16 + brace_digit c)) s'
  end.

(** [case 'x'], on the text after the [x]. *)
Definition escape_x (r : list Z) : list Z * list Z :=
  match r with
  | h1 :: h2 :: r' =>
      if is_hex_char h1 && is_hex_char h2 then ([u8 (strtoul 16 [h1; h2])], r')
      else ([ch "x"], r)
  | _ => ([ch "x"], r)
  end.

(** [case 'u'], on the text after the [u]. *)
Definition escape_u (r : list Z) : list Z * list Z :=
  if zlen r <? 4 then ([ch "u"], r)
  else if at_ r 0 =? ch "{" then
    let '(cp, r') := brace_code_point 0 (drop 1 r) in (put_code_point cp, r')
  else (put_code_point (strtoul 16 (take 4 r)), drop 4 r).

(** The [switch] on the character [e] after a backslash, [r] being what
    follows it: the bytes written and the text not yet read. *)
Definition escape (e : Z) (r : list Z) : list Z * list Z :=
  match simple_escape e with
  | Some b => ([b], r)
  | None =>
      if e =? ch "x" then escape_x r
      else if e =? ch "u" then escape_u r
      else if e =? 13 then
        ([], match r with c :: r' => if c =? 10 then r' else r | [] => r end)
      else if e =? 10 then ([], r)
      else ([e], r)
  end.

(** One iteration on [c], [s] being the text after it. *)
Definition unescape_step (c : Z) (s : list Z) : list Z * list Z :=
  match s with
  | e :: r => if c =? 92 then escape e r else ([c], s)
  | [] => ([c], [])
  end.

Fixpoint unescape_loop (fuel : nat) (s : list Z) : list Z :=
  match fuel, s with
  | S fuel', c :: s' =>
      let '(out, r) := unescape_step c s' in out ++ unescape_loop fuel' r
  | _, _ => []
  end.

(** Every iteration reads at least one byte. *)
Definition unescape (s : list Z) : list Z := unescape_loop (length s) s.

Definition unescape_string (malloc_ok : alloc_result) (s : list Z) : option (list Z) :=
  if malloc_ok then Some (unescape s) else None.

(** ** The decoder reads at least what it writes *)

(** Replace the characters of the code by their values. *)
Ltac chars :=
  repeat match goal with
  | |- context [ch ?a] => let v := eval vm_compute in (ch a) in change (ch a) with v
  | H : context [ch ?a] |- _ => let v := eval vm_compute in (ch a) in change (ch a) with v in H
  end.

Lemma put_code_point_length cp : 1 <= zlen (put_code_point cp) <= 3.
Proof. unfold put_code_point. repeat case_if; unfold zlen; cbn [length]; lia. Qed.

Lemma brace_code_point_rest s cp :
  s <> [] -> zlen (brace_code_point cp s).2 < zlen s.
Proof.
  revert cp. induction s as [|c s IH]; intros cp Hs; [done|]. cbn [brace_code_point].
  rewrite zlen_cons. case_if; cbn [snd]; [lia|].
  destruct s as [|c' s]; [by cbn|]. specialize (IH (u64 (cp * 16 + brace_digit c)) ltac:(done)). lia.
Qed.

Lemma zlen_drop {A} (n : Z) (l : list A) : 0 <= n <= zlen l -> zlen (drop (Z.to_nat n) l) = zlen l - n.
Proof. unfold zlen. rewrite length_drop. lia. Qed.

Lemma escape_length e r :
  zlen (escape e r).2 <= zlen r /\ zlen (escape e r).1 + zlen (escape e r).2 <= 2 + zlen r.
Proof.
  unfold escape. destruct (simple_escape e) as [b|]; [cbn [fst snd]; autorewrite with lr_len; lia|]. case_if; [|case_if; [|case_if; [|case_if]]].
  - unfold escape_x. destruct r as [|h1 [|h2 r]]; try (cbn [fst snd]; autorewrite with lr_len; lia).
    case_if; cbn [fst snd]; autorewrite with lr_len; lia.
  - unfold escape_u. case_if; to_prop; [cbn [fst snd]; autorewrite with lr_len; lia|]. case_if.
    + destruct r as [|x [|y r]]; [by cbn in *|by cbn in *|].
      change (drop 1 (x :: y :: r)) with (y :: r).
      pose proof (brace_code_point_rest (y :: r) 0 ltac:(done)) as Hr.
      destruct (brace_code_point 0 (y :: r)) as [cp r']. cbn [fst snd] in *.
      pose proof (put_code_point_length cp). autorewrite with lr_len in *. lia.
    + pose proof (put_code_point_length (strtoul 16 (take 4 r))). cbn [fst snd].
      pose proof (zlen_drop 4 r ltac:(lia)) as Hd. change (Z.to_nat 4) with 4%nat in Hd. lia.
  - destruct r as [|x r]; [by cbn|]. case_if; cbn [fst snd]; autorewrite with lr_len; lia.
  - cbn [fst snd]; autorewrite with lr_len; lia.
  - cbn [fst snd]; autorewrite with lr_len; lia.
Qed.

Lemma unescape_step_length c s :
  zlen (unescape_step c s).2 <= zlen s /\
  zlen (unescape_step c s).1 + zlen (unescape_step c s).2 <= 1 + zlen s.
Proof.
  unfold unescape_step. destruct s as [|e r]; [by cbn|]. case_if; [|cbn [fst snd]; autorewrite with lr_len; lia].
  pose proof (escape_length e r). autorewrite with lr_len. lia.
Qed.

Lemma unescape_loop_fuel n s : (length s <= n)%nat -> unescape_loop n s = unescape s.
Proof.
  unfold unescape. remember (length s) as m eqn:Em. revert n s Em.
  induction m as [m IH] using lt_wf_ind. intros n s Em Hn.
  destruct s as [|c s]; [by subst; destruct n|]. cbn [length] in Em. subst m.
  destruct n as [|n]; [lia|]. cbn [unescape_loop].
  pose proof (unescape_step_length c s) as [Hl _]. destruct (unescape_step c s) as [o r].
  cbn [snd] in Hl. unfold zlen in Hl. f_equal.
  rewrite (IH (length r)) by lia. symmetry. apply (IH (length r)); lia.
Qed.

Lemma unescape_cons c s :
  unescape (c :: s) = (unescape_step c s).1 ++ unescape (unescape_step c s).2.
Proof.
  unfold unescape at 1. cbn [length unescape_loop].
  pose proof (unescape_step_length c s) as [Hl _]. destruct (unescape_step c s) as [o r].
  cbn [fst snd] in *. unfold zlen in Hl. by rewrite unescape_loop_fuel by lia.
Qed.

(** The decoded text fits the buffer of [len + 1] bytes. *)
Lemma unescape_fits s : zlen (unescape s) <= zlen s.
Proof.
  remember (length s) as m eqn:Em. revert s Em.
  induction m as [m IH] using lt_wf_ind. intros [|c s] Em; [done|].
  rewrite unescape_cons. pose proof (unescape_step_length c s) as [H1 H2].
  destruct (unescape_step c s) as [o r]. cbn [fst snd] in *.
  assert (zlen (unescape r) <= zlen r) as H.
  { eapply IH; [|reflexivity]. unfold zlen in H1. cbn [length] in Em. lia. }
  autorewrite with lr_len. lia.
Qed.

(** ** Printing a string literal *)

Definition quote_char (c : Z) : list Z :=
  if c =? 92 then [92; 92]
  else if c =? 34 then [92; 34]
  else if c =? 39 then [92; 39]
  else if c =? 10 then [92; ch "n"]
  else if c =? 13 then [92; ch "r"]
  else [c].

Definition quote_text (s : list Z) : list Z := concat (map quote_char s).

Lemma unescape_quote_char c s : unescape (quote_char c ++ s) = c :: unescape s.
Proof.
  unfold quote_char. repeat case_if; to_prop; subst;
    cbn [app]; rewrite unescape_cons; try reflexivity.
  unfold unescape_step. destruct s as [|e r]; [done|].
  destruct (Z.eqb_spec c 92); [done|]. done.
Qed.

Lemma unescape_quote_text s : unescape (quote_text s) = s.
Proof.
  induction s as [|c s IH]; [done|]. unfold quote_text. cbn [map concat].
  rewrite unescape_quote_char. by f_equal.
Qed.

(** ** Unicode escapes *)

(** UTF-8. *)
Definition utf8 (cp : Z) : list Z :=
  if cp <? 128 then [cp]
  else if cp <? 2048 then [192 + cp / 64; 128 + cp mod 64]
  else if cp <? 65536 then [224 + cp / 4096; 128 + cp / 64 mod 64; 128 + cp mod 64]
  else [240 + cp / 262144; 128 + cp / 4096 mod 64; 128 + cp / 64 mod 64; 128 + cp mod 64].

Lemma lor_low k a x : 0 <= k -> 0 <= x < 2 ^ k -> Z.lor (a * 2 ^ k) x = a * 2 ^ k + x.
Proof.
  intros Hk Hx. rewrite Z.lor_comm, <- Z.shiftl_mul_pow2 by lia.
  rewrite lor_shiftl_add by lia. rewrite Z.shiftl_mul_pow2 by lia. lia.
Qed.

Lemma land_63 x : Z.land x 63 = x mod 64.
Proof. change 63 with (Z.ones 6). by rewrite Z.land_ones. Qed.

Lemma put_code_point_utf8 cp : 0 <= cp < 65536 -> put_code_point cp = utf8 cp.
Proof.
  intros H. unfold put_code_point, utf8. rewrite !land_63, !Z.shiftr_div_pow2 by lia.
  change (2 ^ 6) with 64. change (2 ^ 12) with 4096.
  pose proof (Z.mod_pos_bound cp 64 ltac:(lia)). pose proof (Z.mod_pos_bound (cp / 64) 64 ltac:(lia)).
  case_if; to_prop; [by rewrite u8_small by lia|].
  change 128 with (2 * 2 ^ 6). change 224 with (7 * 2 ^ 5).
  case_if; to_prop.
  - change 192 with (3 * 2 ^ 6). rewrite !lor_low by (try lia; divlia).
    rewrite !u8_small by divlia. done.
  - replace (cp <? 65536) with true by (symmetry; apply Z.ltb_lt; lia).
    rewrite !lor_low by (try lia; divlia). rewrite !u8_small by divlia. done.
Qed.

(** The text of a digit. *)
Definition hex_digit (d : Z) : Z := if d <? 10 then 48 + d else 87 + d.

Definition digit_ok (d : Z) : Prop := 0 <= d < 16.

(** The value of a digit string, most significant first. *)
Definition hex_value (ds : list Z) : Z := fold_left (fun v d => v * 16 + d) ds 0.

Lemma brace_digit_hex d : digit_ok d -> brace_digit (hex_digit d) = d.
Proof.
  intros H. unfold digit_ok in H. assert (d ∈ seqZ 0 16) as Hin by (apply elem_of_seqZ; lia).
  revert Hin. clear H. assert (Forall (fun d => brace_digit (hex_digit d) = d) (seqZ 0 16)) as H.
  { by repeat constructor. }
  rewrite Forall_forall in H. apply H.
Qed.

Lemma fold_hex_mono ds v : Forall digit_ok ds -> 0 <= v -> v <= fold_left (fun v d => v * 16 + d) ds v.
Proof.
  intros Hd. revert v. induction Hd as [|d ds Hd _ IH]; intros v Hv; cbn [fold_left]; [done|].
  unfold digit_ok in Hd. specialize (IH (v * 16 + d) ltac:(lia)). lia.
Qed.

Lemma brace_code_point_hex ds cp rest :
  Forall digit_ok ds -> 0 <= cp -> fold_left (fun v d => v * 16 + d) ds cp < 2 ^ 64 ->
  brace_code_point cp (map hex_digit ds ++ ch "}" :: rest)
  = (fold_left (fun v d => v * 16 + d) ds cp, rest).
Proof.
  intros Hds. revert cp. induction Hds as [|d ds Hd Hds IH]; intros cp Hcp Hv;
    cbn [map app fold_left brace_code_point] in *; [done|].
  pose proof Hd as Hd'. unfold digit_ok in Hd'.
  pose proof (fold_hex_mono ds (cp * 16 + d) Hds ltac:(lia)).
  destruct (Z.eqb_spec (hex_digit d) (ch "}")) as [E|_].
  { unfold hex_digit in E. chars. destruct (d <? 10) eqn:?; to_prop; lia. }
  rewrite brace_digit_hex by done. unfold u64. rewrite Z.mod_small by lia. by apply IH; [lia|].
Qed.

(** ** Properties *)

(** [\u{...}] escapes.  With at least two digits, or anything after the
    escape, a code point below 2^16 becomes its UTF-8 bytes; one from 2^16 up is
    encoded in three bytes where UTF-8 takes four.  With one digit at the end of
    the literal the escape is not recognised: the text after the backslash is
    kept. *)
Lemma unescape_code_point (ds rest : list Z) :
  Forall digit_ok ds -> 1 <= zlen ds -> hex_value ds < 2 ^ 21 ->
  let text := [92; ch "u"; ch "{"] ++ map hex_digit ds ++ [ch "}"] ++ rest in
  (2 <= zlen ds + zlen rest -> unescape text = put_code_point (hex_value ds) ++ unescape rest) /\
  (hex_value ds < 65536 -> put_code_point (hex_value ds) = utf8 (hex_value ds)) /\
  (65536 <= hex_value ds ->
     zlen (put_code_point (hex_value ds)) = 3 /\ zlen (utf8 (hex_value ds)) = 4) /\
  (zlen ds = 1 -> rest = [] -> unescape text = ch "u" :: unescape (drop 2 text)).
Proof.
  intros Hds Hlen Hv text.
  assert (0 <= hex_value ds) as H0 by (apply fold_hex_mono; [done|lia]).
  assert (zlen (ch "{" :: map hex_digit ds ++ [ch "}"] ++ rest) = 2 + zlen ds + zlen rest) as Hl.
  { unfold zlen. cbn [length]. rewrite !length_app, length_map. cbn [length]. lia. }
  split_and!.
  - intros H2. unfold text. cbn [app]. rewrite unescape_cons. cbn [unescape_step].
    change (92 =? 92) with true. cbv iota. unfold escape.
    change (simple_escape (ch "u")) with (@None Z). cbv iota.
    change (ch "u" =? ch "x") with false. change (ch "u" =? ch "u") with true. cbv iota.
    unfold escape_u. change (map hex_digit ds ++ ch "}" :: rest) with (map hex_digit ds ++ [ch "}"] ++ rest).
    destruct (Z.ltb_spec (zlen (ch "{" :: map hex_digit ds ++ [ch "}"] ++ rest)) 4) as [?|_]; [lia|].
    change (at_ (ch "{" :: map hex_digit ds ++ [ch "}"] ++ rest) 0 =? ch "{") with true. cbv iota.
    change (drop 1 (ch "{" :: map hex_digit ds ++ [ch "}"] ++ rest)) with (map hex_digit ds ++ ch "}" :: rest).
    rewrite brace_code_point_hex by (done || (unfold hex_value in Hv; lia)). done.
  - intros H. apply put_code_point_utf8. lia.
  - intros H. unfold put_code_point, utf8.
    repeat match goal with |- context [hex_value ds <? ?n] =>
      replace (hex_value ds <? n) with false by (symmetry; apply Z.ltb_ge; lia) end. done.
  - intros E1 ->. unfold text. cbn [app]. rewrite unescape_cons. cbn [unescape_step].
    change (92 =? 92) with true. cbv iota. unfold escape.
    change (simple_escape (ch "u")) with (@None Z). cbv iota.
    change (ch "u" =? ch "x") with false. change (ch "u" =? ch "u") with true. cbv iota.
    unfold escape_u. change (map hex_digit ds ++ [ch "}"]) with (map hex_digit ds ++ [ch "}"] ++ []).
    destruct (Z.ltb_spec (zlen (ch "{" :: map hex_digit ds ++ [ch "}"] ++ [])) 4) as [_|Hge]; [|rewrite Hl, zlen_nil in Hge; lia].
    done.
Qed.

(** [\u{1f600}] and a final [\u{9}]. *)
Lemma unescape_code_point_witness :
  unescape (chars_of "\u{1f600}") = [255; 152; 128] /\ utf8 128512 = [240; 159; 152; 128] /\
  unescape (chars_of "\u{9}") = chars_of "u{9}".
Proof.
  split_and!.
  - destruct (unescape_code_point [1; 15; 6; 0; 0] []) as [H _].
    + repeat constructor; unfold digit_ok; lia.
    + vm_compute. discriminate.
    + reflexivity.
    + etransitivity; [apply H; vm_compute; discriminate|reflexivity].
  - reflexivity.
  - destruct (unescape_code_point [9] []) as (_ & _ & _ & H).
    + repeat constructor; unfold digit_ok; lia.
    + vm_compute. discriminate.
    + reflexivity.
    + etransitivity; [apply H; reflexivity|reflexivity].
Defined.
