(* ===== verification/Lexer.v ===== *)
(** The lexer ([src/src/engine/lr_lexer.c]): its state and every function that
    moves it, from [lexer_advance] to [lexer_next].

    A loop of the code is [loop body]: [body] says whether the iteration ends
    the loop ([inl]) or goes on ([inr]).  The fuel is the number of bytes left
    plus one; every iteration that goes on reads at least one, so the fuel is
    never used up, which is part of what the theorems show: [lexer_next]
    returns on every state, a token that is not the end of the input makes
    progress, the tokens tile the source, and line and column are those of the
    position. *)

From stdpp Require Import base list strings.
From Stdlib Require Import ZArith Lia SpecFloat Ascii.
From S2P Require Import Prelude.
From S2P Require Import LexText.

(** ** Tokens and state *)

Inductive token_start :=
  | AtSource (pos : Z)
  | AtMessage (msg : string)
  | NullStart.

(** [t_bigint] is [None] where the code leaves the field unset. *)
Record Token := MkToken {
  t_type : LRTokType;
  t_start : token_start;
  t_len : Z;
  t_num_val : f64;
  t_bigint_val : option Z;
  t_str_val : option (list Z);
  t_line : Z;
  t_col : Z
}.

(** A token cleared by [memset]. *)
Definition zero_token : Token :=
  MkToken TOK_EOF NullStart 0 (S754_zero false) (Some 0) None 0 0.

Record Lexer := MkLexer {
  src : list Z;
  pos : Z;
  line : Z;
  col : Z;
  current : Token;
  peek : Token;
  has_peek : bool;
  allow_regexp : bool;
  in_template : bool
}.

Definition src_len (lex : Lexer) : Z := zlen (src lex).

Definition moved (p l c : Z) (lex : Lexer) : Lexer :=
  MkLexer (src lex) p l c (current lex) (peek lex) (has_peek lex) (allow_regexp lex)
          (in_template lex).
Definition set_allow_regexp (b : bool) (lex : Lexer) : Lexer :=
  MkLexer (src lex) (pos lex) (line lex) (col lex) (current lex) (peek lex) (has_peek lex) b
          (in_template lex).
Definition set_in_template (b : bool) (lex : Lexer) : Lexer :=
  MkLexer (src lex) (pos lex) (line lex) (col lex) (current lex) (peek lex) (has_peek lex)
          (allow_regexp lex) b.
Definition set_peek (has : bool) (t : Token) (lex : Lexer) : Lexer :=
  MkLexer (src lex) (pos lex) (line lex) (col lex) (current lex) t has (allow_regexp lex)
          (in_template lex).

(** ** Reading *)

(** [lex->pos < lex->src_len] *)
Definition more (lex : Lexer) : bool := pos lex <? src_len lex.

Definition lexer_peek_char (lex : Lexer) : Z :=
  if pos lex >=? src_len lex then 0 else at_ (src lex) (pos lex).

Definition lexer_peek_char_next (lex : Lexer) : Z :=
  if pos lex + 1 >=? src_len lex then 0 else at_ (src lex) (pos lex + 1).

(** [lex->pos + k < lex->src_len && lex->src[lex->pos + k] == c] *)
Definition char_at (k c : Z) (lex : Lexer) : bool :=
  (pos lex + k <? src_len lex) && (at_ (src lex) (pos lex + k) =? c).

(** The character returned is never used. *)
Definition lexer_advance (lex : Lexer) : Lexer :=
  if pos lex >=? src_len lex then lex
  else
    let c := at_ (src lex) (pos lex) in
    if c =? 10 then moved (pos lex + 1) (line lex + 1) 1 lex
    else if c =? 13 then
      if char_at 1 10 lex then moved (pos lex + 2) (line lex + 1) 1 lex
      else moved (pos lex + 1) (line lex + 1) 1 lex
    else moved (pos lex + 1) (line lex) (col lex + 1) lex.

Fixpoint advance_by (n : nat) (lex : Lexer) : Lexer :=
  match n with O => lex | S n' => advance_by n' (lexer_advance lex) end.

(** ** Loops *)

Fixpoint loop {St A} (body : St -> A + St) (fuel : nat) (st : St) : option A :=
  match fuel with
  | O => None
  | S fuel' => match body st with inl a => Some a | inr st' => loop body fuel' st' end
  end.

(** One iteration more than the bytes left. *)
Definition budget (lex : Lexer) : nat := S (Z.to_nat (src_len lex - pos lex)).

(** [while (p(lex)) lexer_advance(lex);] *)
Definition advance_while (p : Lexer -> bool) (lex : Lexer) : option Lexer :=
  loop (fun l => if p l then inr (lexer_advance l) else inl l) (budget lex) lex.

(** [advance_while] on the current character. *)
Definition skip_chars (p : Z -> bool) : Lexer -> option Lexer :=
  advance_while (fun l => p (lexer_peek_char l)).

(** ** White space and comments *)

Definition line_comment : Lexer -> option Lexer :=
  advance_while (fun l => more l && negb (is_line_terminator (lexer_peek_char l))).

Definition block_comment (lex : Lexer) : option Lexer :=
  let lex := advance_by 2 lex in
  loop (fun l =>
    if negb (more l) then inl l
    else if (lexer_peek_char l =? ch "*") && (lexer_peek_char_next l =? ch "/")
         then inl (advance_by 2 l)
    else inr (lexer_advance l)) (budget lex) lex.

Definition is_blank (c : Z) : bool := (c =? 32) || (c =? 9) || (c =? 10) || (c =? 13).

(** The body of the loop; [None]: an inner loop did not end. *)
Definition whitespace_body (l : Lexer) : option Lexer + Lexer :=
  let c := lexer_peek_char l in
  if c =? 0 then inl (Some l)
  else if is_blank c then inr (lexer_advance l)
  else if (c =? ch "/") && (lexer_peek_char_next l =? ch "/") then
    match line_comment l with Some l' => inr l' | None => inl None end
  else if (c =? ch "/") && (lexer_peek_char_next l =? ch "*") then
    match block_comment l with Some l' => inr l' | None => inl None end
  else inl (Some l).

Definition lexer_skip_whitespace (lex : Lexer) : option Lexer :=
  match loop whitespace_body (budget lex) lex with Some r => r | None => None end.

(** ** Token construction *)

(** The [switch] of [make_token_from] on the type; [None] leaves the flag. *)
Definition regexp_after (type : LRTokType) : option bool :=
  match type with
  | TOK_NUMBER | TOK_STRING | TOK_IDENTIFIER | TOK_REGEXP
  | TOK_BOOL_LIT | TOK_NULL_LIT | TOK_UNDEFINED_LIT
  | TOK_RPAREN | TOK_RBRACKET | TOK_RBRACE
  | TOK_INC | TOK_DEC | TOK_TEMPLATE_END | TOK_THIS | TOK_SUPER | TOK_PRIVATE_NAME
  | TOK_GET | TOK_SET | TOK_STATIC | TOK_OF | TOK_FROM | TOK_AS | TOK_ASYNC => Some false
  | TOK_EOF | TOK_ERROR => None
  | _ => Some true
  end.

Definition make_token_from (type : LRTokType) (start_pos : Z) (lex : Lexer) : Token * Lexer :=
  (MkToken type (AtSource start_pos) (pos lex - start_pos) (S754_zero false) None None
           (line lex) (col lex),
   match regexp_after type with Some b => set_allow_regexp b lex | None => lex end).

Definition make_error (msg : string) (lex : Lexer) : Token * Lexer :=
  (MkToken TOK_ERROR (AtMessage msg) (Z.of_nat (String.length msg)) (S754_zero false) None None
           (line lex) (col lex), lex).

(** The error tokens built on [make_token_from], with the length the code
    writes. *)
Definition error_token (msg : string) (len start : Z) (lex : Lexer) : Token * Lexer :=
  let '(t, lex) := make_token_from TOK_ERROR start lex in
  (MkToken TOK_ERROR (AtMessage msg) len (t_num_val t) (t_bigint_val t) (t_str_val t)
           (t_line t) (t_col t), lex).

Definition with_num (v : f64) (t : Token) : Token :=
  MkToken (t_type t) (t_start t) (t_len t) v (t_bigint_val t) (t_str_val t) (t_line t) (t_col t).
Definition with_bigint (v : Z) (t : Token) : Token :=
  MkToken (t_type t) (t_start t) (t_len t) (t_num_val t) (Some v) (t_str_val t) (t_line t) (t_col t).
Definition with_str (s : option (list Z)) (t : Token) : Token :=
  MkToken (t_type t) (t_start t) (t_len t) (t_num_val t) (t_bigint_val t) s (t_line t) (t_col t).

(** The text from [start] to the current position. *)
Definition text_from (start : Z) (lex : Lexer) : list Z := slice start (pos lex - start) (src lex).

(** ** Numbers *)

Inductive radix := Hex | Octal | Binary | Decimal.

Definition prefix_radix (lex : Lexer) : radix :=
  if (lexer_peek_char lex =? ch "0") && (pos lex + 1 <? src_len lex) then
    let next := at_ (src lex) (pos lex + 1) in
    if (next =? ch "x") || (next =? ch "X") then Hex
    else if (next =? ch "o") || (next =? ch "O") then Octal
    else if (next =? ch "b") || (next =? ch "B") then Binary
    else Decimal
  else Decimal.

(** A digit, or a separator before a digit. *)
Definition at_digit (l : Lexer) : bool :=
  isdigit (lexer_peek_char l) ||
  (lexer_peek_char l =? ch "_") && isdigit (lexer_peek_char_next l).

Definition lex_fraction (lex : Lexer) : option Lexer :=
  if (lexer_peek_char lex =? ch ".") && negb (lexer_peek_char_next lex =? ch ".")
     && negb (is_js_ident_start (lexer_peek_char_next lex))
  then advance_while at_digit (lexer_advance lex)
  else Some lex.

Definition lex_exponent (lex : Lexer) : option Lexer :=
  if (lexer_peek_char lex =? ch "e") || (lexer_peek_char lex =? ch "E") then
    let lex := lexer_advance lex in
    let lex := if (lexer_peek_char lex =? ch "+") || (lexer_peek_char lex =? ch "-")
               then lexer_advance lex else lex in
    advance_while at_digit lex
  else Some lex.

(** The extent of the literal, up to [done:]; the flag is [is_bigint]. *)
Definition scan_number (lex : Lexer) : option (radix * bool * Lexer) :=
  match prefix_radix lex with
  | Hex => (fun l => (Hex, false, l)) <$>
      skip_chars (fun c => is_hex_char c || (c =? ch "_")) (advance_by 2 lex)
  | Octal => (fun l => (Octal, false, l)) <$>
      skip_chars (fun c => is_octal_char c || (c =? ch "_")) (advance_by 2 lex)
  | Binary => (fun l => (Binary, false, l)) <$>
      skip_chars (fun c => is_binary_char c || (c =? ch "_")) (advance_by 2 lex)
  | Decimal =>
      l ← advance_while at_digit lex; l ← lex_fraction l; l ← lex_exponent l;
      Some (if lexer_peek_char l =? ch "n" then (Decimal, true, lexer_advance l)
            else (Decimal, false, l))
  end.

Definition strip_separators (s : list Z) : list Z := filter (fun c => c <> ch "_") s.

(** [if (is_bigint && j > 0 && buf[j-1] == 'n') buf[--j] = 0] *)
Definition strip_suffix (is_bigint : bool) (buf : list Z) : list Z :=
  if is_bigint && bool_decide (last buf = Some (ch "n")) then removelast buf else buf.

Definition lex_number (malloc_ok : alloc_result) (lex : Lexer) : option (Token * Lexer) :=
  let start := pos lex in
  '(r, is_bigint, lex) ← scan_number lex;
  if negb malloc_ok then Some (make_error "out of memory" lex)
  else
    let buf := strip_suffix is_bigint (strip_separators (text_from start lex)) in
    let '(t, lex) := make_token_from (if is_bigint then TOK_BIGINT_LIT else TOK_NUMBER) start lex in
    Some (if is_bigint then with_bigint (strtoll 0 buf) t
          else match r with
               | Hex => with_num (f64_of_Z (strtoll 16 buf)) t
               | Octal => with_num (f64_of_Z (strtoll 8 (drop 2 buf))) t
               | Binary => with_num (f64_of_Z (strtoll 2 (drop 2 buf))) t
               | Decimal => with_num (strtod buf) t
               end, lex).

(** ** Strings *)

Definition unterminated_string (start : Z) : Lexer -> Token * Lexer :=
  error_token "unterminated string literal" 26 start.

Definition lex_string_body (malloc_ok : alloc_result) (quote start content_start : Z) (lex : Lexer)
    : (Token * Lexer) + Lexer :=
  if negb (more lex) then inl (unterminated_string start lex)
  else
    let c := lexer_peek_char lex in
    if c =? quote then
      let decoded := unescape_string malloc_ok (text_from content_start lex) in
      let '(t, lex) := make_token_from TOK_STRING start (lexer_advance lex) in
      inl (with_str decoded t, lex)
    else
      let lex1 := if c =? 92 then lexer_advance lex else lex in
      if (c =? 92) && more lex1 && (lexer_peek_char lex1 =? 13) then
        let lex2 := lexer_advance lex1 in
        inr (if lexer_peek_char lex2 =? 10 then lexer_advance lex2 else lex2)
      else if is_line_terminator c then inl (unterminated_string start lex1)
      else inr (lexer_advance lex1).

Definition lex_string (malloc_ok : alloc_result) (quote : Z) (lex : Lexer) : option (Token * Lexer) :=
  let start := pos lex in
  let lex := lexer_advance lex in
  loop (lex_string_body malloc_ok quote start (pos lex)) (budget lex) lex.

(** ** Templates *)

Definition lex_template_body (malloc_ok : alloc_result) (start body_start : Z) (lex : Lexer)
    : (Token * Lexer) + Lexer :=
  if negb (more lex) then inl (error_token "unterminated template literal" 28 start lex)
  else
    let c := lexer_peek_char lex in
    if c =? 96 then
      let text := text_from body_start lex in
      let '(t, lex) := make_token_from TOK_TEMPLATE_END start
                         (set_in_template false (lexer_advance lex)) in
      inl (with_str (if malloc_ok then Some text else None) t, lex)
    else if (c =? ch "$") && (lexer_peek_char_next lex =? ch "{") then
      let text := text_from body_start lex in
      let '(t, lex) := make_token_from TOK_TEMPLATE start (advance_by 2 lex) in
      inl (with_str (if malloc_ok then Some text else None) t, lex)
    else if c =? 92 then
      let lex1 := lexer_advance lex in
      inr (if more lex1 then lexer_advance lex1 else lex1)
    else inr (lexer_advance lex).

Definition lex_template (malloc_ok : alloc_result) (lex : Lexer) : option (Token * Lexer) :=
  let start := pos lex in
  let opening := (lexer_peek_char lex =? 96) && negb (in_template lex) in
  let lex := if opening then set_in_template true (lexer_advance lex) else lex in
  loop (lex_template_body malloc_ok start (pos lex)) (budget lex) lex.

(** ** Regular expressions *)

(** [inl None]: the literal ended, at its [/] or at the end of the text. *)
Definition lex_regexp_body (start : Z) (st : Lexer * bool)
    : (option (Token * Lexer) * Lexer) + (Lexer * bool) :=
  let '(lex, in_class) := st in
  if negb (more lex) then inl (None, lex)
  else
    let c := lexer_peek_char lex in
    if c =? 92 then
      let lex1 := lexer_advance lex in
      inr (if more lex1 then lexer_advance lex1 else lex1, in_class)
    else if c =? ch "[" then inr (lexer_advance lex, true)
    else if c =? ch "]" then inr (lexer_advance lex, false)
    else if (c =? ch "/") && negb in_class then inl (None, lexer_advance lex)
    else if is_line_terminator c then
      inl (Some (error_token "unterminated regular expression" 30 start lex), lex)
    else inr (lexer_advance lex, in_class).

Definition lex_regexp (lex : Lexer) : option (Token * Lexer) :=
  let start := pos lex in
  let lex := lexer_advance lex in
  match loop (lex_regexp_body start) (budget lex) (lex, false) with
  | None => None
  | Some (Some r, _) => Some r
  | Some (None, lex) =>
      lex ← advance_while (fun l => more l && is_js_ident_continue (lexer_peek_char l)
                                    && negb (lexer_peek_char l =? 92)) lex;
      Some (make_token_from TOK_REGEXP start lex)
  end.

(** ** Punctuators and operators *)

(** [n] calls of [lexer_advance], the assignment to [allow_regexp], and the
    token. *)
Definition punct (n : nat) (regexp : bool) (type : LRTokType) (start : Z) (lex : Lexer)
    : Token * Lexer :=
  make_token_from type start (set_allow_regexp regexp (advance_by n lex)).

(** The [switch] on the character [c]; [/] only when it is not a regular
    expression. *)
Definition lex_punct (c start : Z) (lex : Lexer) : Token * Lexer :=
  let next := lexer_peek_char_next lex in
  let p n b t := punct n b t start lex in
  if c =? ch "(" then p 1%nat true TOK_LPAREN
  else if c =? ch ")" then p 1%nat false TOK_RPAREN
  else if c =? ch "[" then p 1%nat true TOK_LBRACKET
  else if c =? ch "]" then p 1%nat false TOK_RBRACKET
  else if c =? ch "{" then p 1%nat true TOK_LBRACE
  else if c =? ch "}" then p 1%nat false TOK_RBRACE
  else if c =? ch ";" then p 1%nat true TOK_SEMICOLON
  else if c =? ch "," then p 1%nat true TOK_COMMA
  else if c =? ch ":" then p 1%nat true TOK_COLON
  else if c =? ch "?" then
    if next =? ch "?" then
      if lexer_peek_char (advance_by 2 lex) =? ch "=" then p 3%nat true TOK_NULLISH_ASSIGN
      else p 2%nat true TOK_NULLISH
    else if next =? ch "." then p 2%nat true TOK_QUESTION_DOT
    else p 1%nat true TOK_QUESTION
  else if c =? ch "~" then p 1%nat false TOK_BIT_NOT
  else if c =? ch "." then
    if (next =? ch ".") && char_at 2 (ch ".") lex then p 3%nat true TOK_ELLIPSIS
    else p 1%nat false TOK_DOT
  else if c =? ch "+" then
    if next =? ch "+" then p 2%nat false TOK_INC
    else if next =? ch "=" then p 2%nat true TOK_PLUS_ASSIGN
    else p 1%nat false TOK_PLUS
  else if c =? ch "-" then
    if next =? ch "-" then p 2%nat false TOK_DEC
    else if next =? ch "=" then p 2%nat true TOK_MINUS_ASSIGN
    else p 1%nat false TOK_MINUS
  else if c =? ch "*" then
    if next =? ch "*" then
      if char_at 2 (ch "=") lex then p 3%nat true TOK_POW_ASSIGN else p 2%nat false TOK_POW
    else if next =? ch "=" then p 2%nat true TOK_MUL_ASSIGN
    else p 1%nat false TOK_MUL
  else if c =? ch "%" then
    if next =? ch "=" then p 2%nat true TOK_MOD_ASSIGN else p 1%nat false TOK_MOD
  else if c =? ch "=" then
    if next =? ch "=" then
      if char_at 2 (ch "=") lex then p 3%nat false TOK_STRICT_EQ else p 2%nat false TOK_EQ
    else if next =? ch ">" then p 2%nat false TOK_ARROW
    else p 1%nat true TOK_ASSIGN
  else if c =? ch "!" then
    if next =? ch "=" then
      if char_at 2 (ch "=") lex then p 3%nat false TOK_STRICT_NEQ else p 2%nat false TOK_NEQ
    else p 1%nat false TOK_NOT
  else if c =? ch "<" then
    if next =? ch "<" then
      if char_at 2 (ch "=") lex then p 3%nat true TOK_SHIFT_LEFT_ASSIGN
      else p 2%nat false TOK_SHIFT_LEFT
    else if next =? ch "=" then p 2%nat false TOK_LE
    else p 1%nat false TOK_LT
  else if c =? ch ">" then
    if next =? ch ">" then
      if char_at 2 (ch ">") lex then
        if char_at 3 (ch "=") lex then p 4%nat true TOK_USHIFT_RIGHT_ASSIGN
        else p 3%nat false TOK_USHIFT_RIGHT
      else if char_at 2 (ch "=") lex then p 3%nat true TOK_SHIFT_RIGHT_ASSIGN
      else p 2%nat false TOK_SHIFT_RIGHT
    else if next =? ch "=" then p 2%nat false TOK_GE
    else p 1%nat false TOK_GT
  else if c =? ch "&" then
    if next =? ch "&" then
      if char_at 2 (ch "=") lex then p 3%nat true TOK_AND_AND_ASSIGN
      else p 2%nat false TOK_AND_AND
    else if next =? ch "=" then p 2%nat true TOK_AND_ASSIGN
    else p 1%nat false TOK_BIT_AND
  else if c =? ch "|" then
    if next =? ch "|" then
      if char_at 2 (ch "=") lex then p 3%nat true TOK_OR_OR_ASSIGN
      else p 2%nat false TOK_OR_OR
    else if next =? ch "=" then p 2%nat true TOK_OR_ASSIGN
    else p 1%nat false TOK_BIT_OR
  else if c =? ch "^" then
    if next =? ch "=" then p 2%nat true TOK_XOR_ASSIGN else p 1%nat false TOK_BIT_XOR
  else if c =? ch "/" then
    if next =? ch "=" then p 2%nat true TOK_DIV_ASSIGN else p 1%nat false TOK_DIV
  else make_error "unexpected character" (lexer_advance lex).

(** ** The tokenizer *)

Definition eof_token (lex : Lexer) : Token :=
  MkToken TOK_EOF (AtSource (src_len lex)) 0 (S754_zero false) None None (line lex) (col lex).

Definition lex_private_name (start : Z) (lex : Lexer) : option (Token * Lexer) :=
  lex ← skip_chars is_js_ident_continue (lexer_advance lex);
  Some (make_token_from TOK_PRIVATE_NAME start (set_allow_regexp false lex)).

Definition lex_identifier (start : Z) (lex : Lexer) : option (Token * Lexer) :=
  lex ← skip_chars is_js_ident_continue (lexer_advance lex);
  let '(t, lex1) := make_token_from (lookup_keyword (text_from start lex)) start lex in
  Some (match t_type t with
        | TOK_BOOL_LIT => with_num (f64_of_Z (if at_ (src lex) start =? ch "t" then 1 else 0)) t
        | _ => t
        end, lex1).

(** A token from a position that is neither white space nor the end. *)
Definition lex_token (malloc_ok : alloc_result) (lex : Lexer) : option (Token * Lexer) :=
  let c := lexer_peek_char lex in
  let start := pos lex in
  if c =? ch "#" then lex_private_name start lex
  else if is_js_ident_start c then lex_identifier start lex
  else if isdigit c then
    '(t, lex) ← lex_number malloc_ok lex; Some (t, set_allow_regexp false lex)
  else if (c =? 34) || (c =? 39) then lex_string malloc_ok c lex
  else if c =? 96 then lex_template malloc_ok (set_allow_regexp true lex)
  else if (c =? ch "/") && allow_regexp lex then lex_regexp lex
  else Some (lex_punct c start lex).

(** [malloc_ok]: the outcome of the allocation the token may need. *)
Definition lexer_next (malloc_ok : alloc_result) (lex : Lexer) : option (Token * Lexer) :=
  if has_peek lex then Some (peek lex, set_peek false zero_token lex)
  else
    lex ← lexer_skip_whitespace lex;
    if pos lex >=? src_len lex then Some (eof_token lex, lex) else lex_token malloc_ok lex.

Definition lexer_init (text : list Z) : Lexer :=
  MkLexer text 0 1 1 zero_token zero_token false true false.

Definition lexer_peek (malloc_ok : alloc_result) (lex : Lexer) : option (Token * Lexer) :=
  if has_peek lex then Some (peek lex, lex)
  else '(t, lex) ← lexer_next malloc_ok lex; Some (t, set_peek true t lex).

Definition lexer_skip (malloc_ok : alloc_result) (lex : Lexer) : option Lexer :=
  snd <$> lexer_next malloc_ok lex.

Definition lexer_reset_peek (lex : Lexer) : Lexer := set_peek false (peek lex) lex.

Definition lexer_template_next (malloc_ok : alloc_result) (lex : Lexer) : option (Token * Lexer) :=
  lex_template malloc_ok lex.

Definition token_free_data (t : Token) : Token := with_str None t.

(** The tokens up to and including the end of the input, all allocations
    succeeding; [None]: more than [n] of them. *)
Fixpoint tokens (n : nat) (lex : Lexer) : option (list Token * Lexer) :=
  match n with
  | O => None
  | S n' =>
      match lexer_next true lex with
      | None => None
      | Some (t, lex1) =>
          match t_type t with
          | TOK_EOF => Some ([t], lex1)
          | _ => '(ts, lex2) ← tokens n' lex1; Some (t :: ts, lex2)
          end
      end
  end.

(** ** Positions *)

(** Line and column after a character; the flag says the last one was a
    carriage return. *)
Definition line_col_step (st : Z * Z * bool) (c : Z) : Z * Z * bool :=
  let '(l, k, cr) := st in
  if c =? 10 then ((if cr then l else l + 1), 1, false)
  else if c =? 13 then (l + 1, 1, true)
  else (l, k + 1, false).

(** Line and column at the end of a text. *)
Definition line_col (s : list Z) : Z * Z * bool := fold_left line_col_step s (1, 1, false).

(** The state is at a position of its text. *)
Definition pos_ok (l : Lexer) : Prop := 0 <= pos l <= src_len l.

(** It is not between a carriage return and its line feed, and knows the line
    and column. *)
Definition line_ok (l : Lexer) : Prop :=
  exists cr, line_col (take (Z.to_nat (pos l)) (src l)) = (line l, col l, cr) /\
    (cr = true -> pos l < src_len l -> at_ (src l) (pos l) <> 10).

(** What every function of the lexer keeps. *)
Record reaches (l l' : Lexer) : Prop := {
  r_src : src l' = src l;
  r_peek : has_peek l' = has_peek l;
  r_pos : pos l <= pos l';
  r_ok : pos_ok l -> pos_ok l';
  r_line : pos_ok l -> line_ok l -> line_ok l'
}.

#[export] Instance reaches_refl : Reflexive reaches.
Proof. by split. Qed.

#[export] Instance reaches_trans : Transitive reaches.
Proof.
  intros a b c [] []. split; [congruence|congruence|lia|auto|auto].
Qed.

Lemma line_col_snoc s c : line_col (s ++ [c]) = line_col_step (line_col s) c.
Proof. unfold line_col. by rewrite fold_left_app. Qed.

Lemma more_pos l : more l = true <-> pos l < src_len l.
Proof. apply Z.ltb_lt. Qed.

(** What one step forward does at a character. *)
Lemma advance_cases l :
  (pos l >= src_len l /\ lexer_advance l = l) \/
  (pos l < src_len l /\ (exists n k c, lexer_advance l = moved n k c l) /\
   src (lexer_advance l) = src l /\
   let c := at_ (src l) (pos l) in
   (c = 10 /\ pos (lexer_advance l) = pos l + 1 /\ line (lexer_advance l) = line l + 1 /\
      col (lexer_advance l) = 1) \/
   (pos l < src_len l /\ c = 13 /\ line (lexer_advance l) = line l + 1 /\ col (lexer_advance l) = 1 /\
      (char_at 1 10 l = true /\ pos (lexer_advance l) = pos l + 2 \/
       char_at 1 10 l = false /\ pos (lexer_advance l) = pos l + 1)) \/
   (is_line_terminator c = false /\ pos (lexer_advance l) = pos l + 1 /\
      line (lexer_advance l) = line l /\ col (lexer_advance l) = col l + 1)).
Proof.
  unfold lexer_advance, is_line_terminator. rewrite Z.geb_leb.
  destruct (Z.leb_spec (src_len l) (pos l)); [left; split; [lia|done]|right].
  split; [lia|]. cbv zeta.
  destruct (Z.eqb_spec (at_ (src l) (pos l)) 10) as [->|];
    [split_and!; [by eauto|done|by left]|].
  destruct (Z.eqb_spec (at_ (src l) (pos l)) 13) as [->|].
  - destruct (char_at 1 10 l); (split_and!; [by eauto|done|]); right; left; split_and!; auto.
  - split_and!; [by eauto|done|]. right. right. done.
Qed.

Lemma advance_pos l : pos_ok l -> pos l < src_len l -> pos l < pos (lexer_advance l) <= src_len l.
Proof.
  intros _ H. destruct (advance_cases l) as [[? _]|(_ & _ & _ & [(_ & -> & _)|[(_ & _ & _ & _ & Hc)|(_ & -> & _)]])];
    [lia|lia| |lia].
  destruct Hc as [[Hc ->]|[_ ->]]; [|lia]. unfold char_at in Hc. to_prop. lia.
Qed.

Lemma advance_ok l : pos_ok l -> pos_ok (lexer_advance l).
Proof.
  intros Hok. destruct (advance_cases l) as [[_ ->]|(Hlt & _ & Hsrc & _)]; [done|].
  pose proof (advance_pos l Hok Hlt). unfold pos_ok, src_len in *. rewrite Hsrc. lia.
Qed.

Lemma advance_line l : pos_ok l -> line_ok l -> line_ok (lexer_advance l).
Proof.
  intros Hp (cr & Hlc & Hcr). pose proof Hp as Hp0. unfold pos_ok in Hp0.
  destruct (advance_cases l) as [[_ ->]|(Hlt & _ & Hsrc & Hc)]; [by exists cr|]. unfold line_ok.
  cbv zeta in Hc.
  assert (forall q, pos l = q -> take (Z.to_nat (q + 1)) (src l)
    = take (Z.to_nat (pos l)) (src l) ++ [at_ (src l) (pos l)]) as Htake
    by (intros q <-; rewrite take_snoc_at by (unfold src_len in *; lia); done).
  destruct Hc as [(Hc & Hq & Hl & Hk)|[(_ & Hc & Hl & Hk & Hq)|(Hc & Hq & Hl & Hk)]].
  - exists false. rewrite Hsrc, Hq, Htake, line_col_snoc, Hlc, Hl, Hk, Hc by done.
    split; [|done]. destruct cr; [|done]. exfalso. by apply Hcr.
  - rewrite Hsrc. destruct Hq as [[Hn Hq]|[Hn Hq]].
    + unfold char_at in Hn. apply andb_prop in Hn as [H1%Z.ltb_lt H2%Z.eqb_eq].
      exists false. split; [|done]. rewrite Hq. replace (pos l + 2) with (pos l + 1 + 1) by lia.
      rewrite <- take_snoc_at by (unfold src_len in *; lia).
      rewrite line_col_snoc, Htake, line_col_snoc, Hlc, Hc, H2, Hl, Hk by done. done.
    + exists true. rewrite Hq, Htake, line_col_snoc, Hlc, Hc, Hl, Hk by done. split; [done|].
      intros _ H Hten. unfold char_at, src_len in *. rewrite Hsrc in H.
      apply andb_false_iff in Hn as [Hn|Hn]; to_prop; lia.
  - unfold is_line_terminator in Hc. apply orb_false_elim in Hc as [H1 H2].
    exists false. rewrite Hsrc, Hq, Htake, line_col_snoc, Hlc, Hl, Hk by done.
    unfold line_col_step. by rewrite H1, H2.
Qed.

Lemma advance_reaches l : reaches l (lexer_advance l).
Proof.
  split; [| | |apply advance_ok|apply advance_line].
  - destruct (advance_cases l) as [[_ ->]|(_ & _ & -> & _)]; done.
  - destruct (advance_cases l) as [[_ ->]|(_ & (? & ? & ? & ->) & _)]; done.
  - destruct (advance_cases l) as [[_ ->]|(_ & _ & _ & [(_ & -> & _)|[(_ & _ & _ & _ & [[_ ->]|[_ ->]])|(_ & -> & _)]])]; lia.
Qed.

Lemma advance_by_reaches n l : reaches l (advance_by n l).
Proof.
  revert l. induction n as [|n IH]; intros l; [reflexivity|]. cbn.
  etransitivity; [apply advance_reaches|apply IH].
Qed.

Lemma set_allow_regexp_reaches b l : reaches l (set_allow_regexp b l).
Proof. by split. Qed.
Lemma set_in_template_reaches b l : reaches l (set_in_template b l).
Proof. by split. Qed.

#[export] Hint Resolve advance_reaches advance_by_reaches set_allow_regexp_reaches
  set_in_template_reaches : lr.

(** ** Loops end *)

Lemma loop_more {St A} (body : St -> A + St) k f st a :
  loop body k st = Some a -> (k <= f)%nat -> loop body f st = Some a.
Proof.
  revert f st. induction k as [|k IH]; intros [|f] st H Hle; [done|done|lia|].
  cbn [loop] in *. destruct (body st); [done|]. apply IH; [done|lia].
Qed.

(** A loop whose iterations read at least one byte ends within its budget. *)
Lemma loop_ends {St A} (view : St -> Lexer) (body : St -> A + St) (Inv : St -> Prop) (Q : A -> Prop)
    st :
  (forall s, Inv s -> pos_ok (view s)) ->
  (forall s, Inv s -> match body s with
                      | inl a => Q a
                      | inr s' => Inv s' /\ src (view s') = src (view s) /\ pos (view s) < pos (view s')
                      end) ->
  Inv st -> exists a, loop body (budget (view st)) st = Some a /\ Q a.
Proof.
  intros Hok Hbody. unfold budget. remember (Z.to_nat (src_len (view st) - pos (view st))) as n eqn:En.
  revert st En. induction n as [n IH] using lt_wf_ind. intros st En Hi.
  pose proof (Hbody st Hi) as Hb. cbn [loop]. destruct (body st) as [a|st']; [eauto|].
  destruct Hb as (Hi' & Hs & Hlt). pose proof (Hok _ Hi') as Hp. unfold pos_ok in Hp.
  set (m := Z.to_nat (src_len (view st') - pos (view st'))).
  assert (m < n)%nat as Hm by (unfold m, src_len in *; rewrite Hs in *; lia).
  destruct (IH m Hm st' eq_refl Hi') as (a & E & Ha). exists a. split; [|done].
  eapply loop_more; [exact E|lia].
Qed.

Lemma advance_while_ends p (Q : Lexer -> Prop) l0 :
  pos_ok l0 -> (forall l, p l = true -> more l = true) -> Q l0 ->
  (forall l, reaches l0 l -> pos_ok l -> p l = true -> Q l -> Q (lexer_advance l)) ->
  exists l, advance_while p l0 = Some l /\ reaches l0 l /\ p l = false /\ Q l.
Proof.
  intros Hok Hp H0 Hstep.
  destruct (loop_ends id (fun l => if p l then inr (lexer_advance l) else inl l)
    (fun l => reaches l0 l /\ pos_ok l /\ Q l)
    (fun l => reaches l0 l /\ p l = false /\ Q l) l0) as (l & E & H).
  - intros s (_ & H & _). exact H.
  - intros s (Hr & Hs & HQ). unfold id. destruct (p s) eqn:E; [|done].
    pose proof (advance_pos s Hs (proj1 (more_pos s) (Hp s E))).
    split_and!; [|by apply advance_ok|by apply Hstep|by apply advance_reaches|lia].
    etransitivity; [exact Hr|apply advance_reaches].
  - split_and!; [reflexivity|done|done].
  - exists l. by split.
Qed.

Lemma peek_char_more c l : lexer_peek_char l = c -> c <> 0 -> more l = true.
Proof.
  unfold lexer_peek_char, more. rewrite Z.geb_leb.
  destruct (Z.leb_spec (src_len l) (pos l)); [congruence|]. intros _ _. by apply Z.ltb_lt.
Qed.

Lemma peek_char_at l : more l = true -> lexer_peek_char l = at_ (src l) (pos l).
Proof.
  intros H%more_pos. unfold lexer_peek_char. rewrite Z.geb_leb.
  by destruct (Z.leb_spec (src_len l) (pos l)); [lia|].
Qed.

Lemma peek_next_more c l :
  lexer_peek_char_next l = c -> c <> 0 -> pos l + 1 < src_len l /\ at_ (src l) (pos l + 1) = c.
Proof.
  unfold lexer_peek_char_next. rewrite Z.geb_leb.
  destruct (Z.leb_spec (src_len l) (pos l + 1)); [congruence|]. auto.
Qed.

Lemma skip_chars_ends p l0 :
  pos_ok l0 -> p 0 = false ->
  exists l, skip_chars p l0 = Some l /\ reaches l0 l /\ p (lexer_peek_char l) = false.
Proof.
  intros Hok Hp. destruct (advance_while_ends (fun l => p (lexer_peek_char l)) (fun _ => True) l0 Hok)
    as (l & E & Hr & Hf & _); [|done|done|by exists l].
  intros l H. eapply peek_char_more; [reflexivity|]. intros E. rewrite E in H. congruence.
Qed.

(** ** White space *)

(** From [p] to [q] the text is white space and whole comments; the last
    comment may be cut by the end of the text. *)
Inductive trivia (s : list Z) : Z -> Z -> Prop :=
  | trivia_done p : trivia s p p
  | trivia_blank p q :
      p < zlen s -> is_blank (at_ s p) = true -> trivia s (p + 1) q -> trivia s p q
  | trivia_line p m q :
      at_ s p = ch "/" -> at_ s (p + 1) = ch "/" -> p + 2 <= m <= zlen s ->
      (forall i, p + 2 <= i < m -> is_line_terminator (at_ s i) = false) ->
      (m = zlen s \/ is_line_terminator (at_ s m) = true) ->
      trivia s m q -> trivia s p q
  | trivia_block p m q :
      at_ s p = ch "/" -> at_ s (p + 1) = ch "*" -> p + 2 <= m -> m + 1 < zlen s ->
      (forall i, p + 2 <= i < m -> ~ (at_ s i = ch "*" /\ at_ s (i + 1) = ch "/")) ->
      at_ s m = ch "*" -> at_ s (m + 1) = ch "/" ->
      trivia s (m + 2) q -> trivia s p q
  | trivia_open p :
      at_ s p = ch "/" -> at_ s (p + 1) = ch "*" -> p + 2 <= zlen s ->
      (forall i, p + 2 <= i -> i + 1 < zlen s ->
         ~ (at_ s i = ch "*" /\ at_ s (i + 1) = ch "/")) ->
      trivia s p (zlen s).

(** One step forward over a character that is no line terminator. *)
Lemma advance_plain l :
  more l = true -> is_line_terminator (lexer_peek_char l) = false ->
  lexer_advance l = moved (pos l + 1) (line l) (col l + 1) l.
Proof.
  intros Hm Hc. rewrite peek_char_at in Hc by done. apply more_pos in Hm.
  unfold lexer_advance, is_line_terminator in *. rewrite Z.geb_leb.
  destruct (Z.leb_spec (src_len l) (pos l)); [lia|]. cbv zeta.
  apply orb_false_elim in Hc as [-> ->]. done.
Qed.

(** Two steps over two such characters. *)
Lemma advance_two c d l :
  lexer_peek_char l = c -> lexer_peek_char_next l = d -> c <> 0 -> d <> 0 ->
  is_line_terminator c = false -> is_line_terminator d = false ->
  pos (advance_by 2 l) = pos l + 2 /\ at_ (src l) (pos l) = c /\ at_ (src l) (pos l + 1) = d /\
  pos l + 1 < src_len l.
Proof.
  intros Hc Hd Hc0 Hd0 Hct Hdt. pose proof (peek_char_more _ _ Hc Hc0) as Hm.
  pose proof (peek_next_more _ _ Hd Hd0) as [Hlt Hat].
  cbn [advance_by]. rewrite (advance_plain l) by (by rewrite ?Hc).
  rewrite advance_plain.
  - cbn. rewrite peek_char_at in Hc by done. split_and!; [lia|done|done|done].
  - apply more_pos. done.
  - rewrite peek_char_at by (by apply more_pos). cbn. by rewrite Hat.
Qed.

(** The second character of a step over a line break is a line feed. *)
Lemma advance_skips l i :
  pos l < i < pos (lexer_advance l) -> at_ (src l) i = 10 /\ at_ (src l) (pos l) = 13.
Proof.
  destruct (advance_cases l) as [[_ ->]|(_ & _ & _ & [(_ & -> & _)|[(_ & Hc & _ & _ & [[Hn ->]|[_ ->]])|(_ & -> & _)]])];
    try lia. intros H. unfold char_at in Hn. apply andb_prop in Hn as [_ Hn%Z.eqb_eq].
  by replace i with (pos l + 1) by lia.
Qed.

Lemma line_comment_ends l0 :
  pos_ok l0 ->
  exists l, line_comment l0 = Some l /\ reaches l0 l /\
    (forall i, pos l0 <= i < pos l -> is_line_terminator (at_ (src l0) i) = false) /\
    (pos l = src_len l0 \/ is_line_terminator (at_ (src l0) (pos l)) = true).
Proof.
  intros Hok. destruct (advance_while_ends
    (fun l => more l && negb (is_line_terminator (lexer_peek_char l)))
    (fun l => forall i, pos l0 <= i < pos l -> is_line_terminator (at_ (src l0) i) = false) l0 Hok)
    as (l & E & Hr & Hp & HQ).
  - intros l H. by apply andb_prop in H as [H _].
  - intros i Hi. lia.
  - intros l Hr Hl Hp HQ i Hi. apply andb_prop in Hp as [Hm Hc%negb_true_iff].
    rewrite (advance_plain l Hm Hc) in Hi. cbn [moved pos] in Hi.
    destruct (decide (i < pos l)); [apply HQ; lia|]. replace i with (pos l) by lia.
    rewrite <- (r_src _ _ Hr), <- peek_char_at; done.
  - exists l. split_and!; try done. destruct (more l) eqn:Hm.
    + right. cbn [andb] in Hp. apply negb_false_iff in Hp. rewrite <- (r_src _ _ Hr).
      by rewrite <- peek_char_at.
    + left. pose proof (r_ok _ _ Hr Hok) as Hp'. unfold pos_ok in Hp'. unfold more in Hm. apply Z.ltb_ge in Hm.
      unfold src_len in *. rewrite (r_src _ _ Hr) in *. lia.
Qed.

Lemma block_comment_ends l :
  pos_ok l -> lexer_peek_char l = ch "/" -> lexer_peek_char_next l = ch "*" ->
  exists l', block_comment l = Some l' /\ reaches l l' /\ pos l < pos l' /\
    forall q, trivia (src l) (pos l') q -> trivia (src l) (pos l) q.
Proof.
  intros Hok Hc Hd. destruct (advance_two _ _ l Hc Hd) as (Hp & H1 & H2 & Hlen); try done.
  set (l0 := advance_by 2 l) in *.
  pose proof (advance_by_reaches 2 l) as Hr0. fold l0 in Hr0. pose proof (r_ok _ _ Hr0 Hok) as Hok0.
  set (none_before := fun q : Z => forall i, pos l0 <= i < q -> i + 1 < zlen (src l) ->
    ~ (at_ (src l) i = ch "*" /\ at_ (src l) (i + 1) = ch "/")).
  unfold block_comment. fold l0.
  match goal with |- context [loop ?b _ _] => set (body := b) end.
  destruct (loop_ends id body
    (fun s => reaches l0 s /\ pos_ok s /\ none_before (pos s))
    (fun s => reaches l0 s /\
       forall q, trivia (src l) (pos s) q -> trivia (src l) (pos l) q) l0) as (l' & E & Hr & HQ).
  - intros s (_ & H & _). exact H.
  - intros s (Hr & Hs & Hn). unfold id, body.
    assert (src s = src l) as Hsrc by (rewrite (r_src _ _ Hr); apply (r_src _ _ Hr0)).
    pose proof (r_pos _ _ Hr) as Hps.
    destruct (more s) eqn:Hm; cbn [negb].
    + destruct ((lexer_peek_char s =? ch "*") && (lexer_peek_char_next s =? ch "/")) eqn:Ec.
      * apply andb_prop in Ec as [E1%Z.eqb_eq E2%Z.eqb_eq].
        destruct (advance_two _ _ s E1 E2) as (Hp2 & Ha & Hb & Hl2); try done.
        split; [etransitivity; [exact Hr|apply advance_by_reaches]|].
        intros q Hq. rewrite Hp2 in Hq. unfold src_len in Hl2. rewrite Hsrc in *.
        apply (trivia_block _ _ (pos s)); try done; try lia.
        intros i Hi. apply Hn; lia.
      * pose proof Hm as Hm'. apply more_pos in Hm'.
        pose proof (advance_pos s Hs Hm'). split_and!.
        -- etransitivity; [exact Hr|apply advance_reaches].
        -- by apply advance_ok.
        -- intros i Hi Hi2 [Ha Hb]. destruct (Z.lt_trichotomy i (pos s)) as [Hlt|[->|Hgt]].
           ++ apply (Hn i); [lia|done|done].
           ++ unfold lexer_peek_char_next, src_len in Ec. rewrite peek_char_at, Hsrc in Ec by done.
              rewrite Z.geb_leb in Ec. destruct (Z.leb_spec (zlen (src l)) (pos s + 1)); [lia|].
              rewrite Ha, Hb in Ec. done.
           ++ rewrite <- Hsrc in Ha. destruct (advance_skips s i) as [Hten _]; [lia|].
              rewrite Hten in Ha. done.
        -- apply advance_reaches.
        -- lia.
    + split; [done|]. intros q Hq. pose proof Hs as Hps'. unfold pos_ok in Hps'.
      apply Z.ltb_ge in Hm. unfold src_len in *. rewrite Hsrc in *.
      assert (pos s = zlen (src l)) as Es by lia. rewrite Es in Hq, Hn.
      assert (q = zlen (src l)) as ->.
      { clear -Hq Hlen Hps'. inversion Hq; subst; try lia. }
      apply trivia_open; try done; [lia|]. intros i Hi Hi2. apply Hn; lia.
  - split_and!; [reflexivity|done|]. intros i Hi. lia.
  - exists l'. split_and!; [done|by etransitivity| |done].
    pose proof (r_pos _ _ Hr). lia.
Qed.

Lemma skip_whitespace_ends l0 :
  pos_ok l0 ->
  exists l, lexer_skip_whitespace l0 = Some l /\ reaches l0 l /\
    trivia (src l0) (pos l0) (pos l) /\
    (pos l < src_len l0 -> is_blank (at_ (src l0) (pos l)) = false /\
       ~ (at_ (src l0) (pos l) = ch "/" /\ lexer_peek_char_next l = ch "/")).
Proof.
  intros Hok. unfold lexer_skip_whitespace.
  destruct (loop_ends id whitespace_body
    (fun s => reaches l0 s /\ pos_ok s /\
       forall q, trivia (src l0) (pos s) q -> trivia (src l0) (pos l0) q)
    (fun r => exists l, r = Some l /\ reaches l0 l /\ trivia (src l0) (pos l0) (pos l) /\
       (pos l < src_len l0 -> is_blank (at_ (src l0) (pos l)) = false /\
          ~ (at_ (src l0) (pos l) = ch "/" /\ lexer_peek_char_next l = ch "/"))) l0)
    as (r & E & l & -> & H); [by intros s (_ & H & _)| |by split_and!|].
  2: { exists l. unfold id in E. by rewrite E. }
  intros s (Hr & Hs & Ht). unfold id, whitespace_body. pose proof (r_src _ _ Hr) as Hsrc.
  destruct (Z.eqb_spec (lexer_peek_char s) 0) as [E0|E0].
  { exists s. split_and!; try done; [apply Ht; constructor|].
    intros Hlt. assert (more s = true) as Hm by (apply more_pos; unfold src_len in *; by rewrite Hsrc).
    rewrite peek_char_at, Hsrc in E0 by done. rewrite E0. split; [done|]. by intros [? _]. }
  pose proof (peek_char_more _ s eq_refl E0) as Hm. pose proof Hm as Hlt. apply more_pos in Hlt.
  pose proof (peek_char_at s Hm) as Hpk. rewrite Hsrc in Hpk.
  destruct (is_blank (lexer_peek_char s)) eqn:Eb.
  { pose proof (advance_pos s Hs Hlt).
    split_and!; [etransitivity; [exact Hr|apply advance_reaches]|by apply advance_ok| |apply advance_reaches|lia].
    intros q Hq. apply Ht. unfold src_len in Hlt. rewrite Hsrc in Hlt. rewrite Hpk in Eb.
    apply trivia_blank; [done|done|].
    destruct (Z.eq_dec (pos (lexer_advance s)) (pos s + 1)) as [<-|Hne]; [done|].
    destruct (advance_skips s (pos s + 1)) as [Hten _]; [lia|]. rewrite Hsrc in Hten.
    assert (pos (lexer_advance s) = pos s + 2) as Hp2.
    { destruct (advance_cases s) as [[_ Ea]|(_ & _ & _ & [(_ & ? & _)|[(_ & _ & _ & _ & [[_ ?]|[_ ?]])|(_ & ? & _)]])];
        try lia. rewrite Ea in *. lia. }
    apply trivia_blank; [|by rewrite Hten|by replace (pos s + 1 + 1) with (pos (lexer_advance s)) by lia].
    unfold src_len in *. rewrite Hsrc in *. lia. }
  destruct ((lexer_peek_char s =? ch "/") && (lexer_peek_char_next s =? ch "/")) eqn:E2.
  { apply andb_prop in E2 as [E2%Z.eqb_eq E3%Z.eqb_eq].
    destruct (advance_two _ _ s E2 E3) as (_ & Ha & Hb & Hl2); try done.
    destruct (line_comment_ends s Hs) as (s' & -> & Hr' & Hn & Hend).
    assert (pos s + 2 <= pos s') as Hge.
    { pose proof (r_pos _ _ Hr'). unfold src_len in *.
      destruct (Z.lt_ge_cases (pos s') (pos s + 2)); [|lia].
      destruct Hend as [Hend|Hend]; [lia|].
      assert (pos s' = pos s \/ pos s' = pos s + 1) as [Ep|Ep] by lia;
        rewrite Ep, ?Ha, ?Hb in Hend; done. }
    pose proof (r_ok _ _ Hr' Hs) as Hok'. pose proof Hok' as Hp'. unfold pos_ok in Hp'.
    split_and!; [by etransitivity|done| |apply (r_src _ _ Hr')|lia].
    intros q Hq. apply Ht. unfold src_len in *. rewrite (r_src _ _ Hr'), Hsrc in *.
    apply (trivia_line _ _ (pos s')); try done; [lia|]. intros i Hi. apply Hn. lia. }
  destruct ((lexer_peek_char s =? ch "/") && (lexer_peek_char_next s =? ch "*")) eqn:E3.
  { apply andb_prop in E3 as [E3%Z.eqb_eq E4%Z.eqb_eq].
    destruct (block_comment_ends s Hs E3 E4) as (s' & -> & Hr' & Hlt' & HQ).
    split_and!; [by etransitivity|by apply (r_ok _ _ Hr')| |apply (r_src _ _ Hr')|done].
    intros q Hq. apply Ht. rewrite <- Hsrc in *. by apply HQ. }
  exists s. split_and!; [done|done|apply Ht; constructor|]. intros _. rewrite Hpk in *.
  split; [done|]. intros [Ha Hb]. rewrite Ha, Hb in E2. done.
Qed.

(** ** Every token function makes a token *)

(** A token read from state [l], leaving state [l']: it is not the end of the
    input, and unless it is an error it is the text between the positions. *)
Definition token_ok (l : Lexer) (r : Token * Lexer) : Prop :=
  reaches l r.2 /\ pos l < pos r.2 /\ t_type r.1 <> TOK_EOF /\
  t_line r.1 = line r.2 /\ t_col r.1 = col r.2 /\
  (t_type r.1 = TOK_ERROR \/
   t_start r.1 = AtSource (pos l) /\ t_len r.1 = pos r.2 - pos l).

Lemma make_token_ok type l0 l :
  reaches l0 l -> pos l0 < pos l -> type <> TOK_EOF ->
  token_ok l0 (make_token_from type (pos l0) l).
Proof.
  intros Hr Hp Ht. unfold token_ok, make_token_from.
  assert (forall o, let l' := match o with Some b => set_allow_regexp b l | None => l end in
    reaches l l' /\ pos l' = pos l /\ line l' = line l /\ col l' = col l) as H
    by (intros [b|]; split_and!; auto with lr; reflexivity).
  destruct (H (regexp_after type)) as (H1 & H2 & H3 & H4). cbn [fst snd t_type t_start t_len t_line t_col].
  split_and!; [by etransitivity|lia|done|done|done|]. right. split; [done|lia].
Qed.

Lemma error_token_ok msg len l0 l :
  reaches l0 l -> pos l0 < pos l -> token_ok l0 (error_token msg len (pos l0) l).
Proof.
  intros Hr Hp. destruct (make_token_ok TOK_ERROR l0 l Hr Hp) as (H1 & H2 & H3 & H4 & H5 & _); [done|].
  unfold error_token. destruct (make_token_from TOK_ERROR (pos l0) l) as [t l'] eqn:E.
  cbn [fst snd] in *. split_and!; try done. by left.
Qed.

Lemma with_ok l t l' t' :
  token_ok l (t, l') -> t_type t' = t_type t -> t_start t' = t_start t -> t_len t' = t_len t ->
  t_line t' = t_line t -> t_col t' = t_col t -> token_ok l (t', l').
Proof. unfold token_ok. cbn [fst snd]. intros H -> -> -> -> ->. exact H. Qed.

Lemma advance_strict l : pos_ok l -> more l = true -> pos l < pos (lexer_advance l).
Proof. intros Hok Hm%more_pos. by apply advance_pos. Qed.

(** [lex_number] *)

Lemma scan_number_ok l0 :
  pos_ok l0 -> isdigit (lexer_peek_char l0) = true ->
  exists r b l, scan_number l0 = Some (r, b, l) /\ reaches l0 l /\ pos l0 < pos l.
Proof.
  intros Hok Hd.
  assert (more l0 = true) as Hm.
  { eapply peek_char_more; [reflexivity|]. intros E. by rewrite E in Hd. }
  pose proof (advance_strict l0 Hok Hm) as Hlt.
  pose proof (advance_by_reaches 2 l0) as Hr2.
  assert (pos l0 < pos (advance_by 2 l0)) as Hlt2.
  { cbn [advance_by]. pose proof (r_pos _ _ (advance_reaches (lexer_advance l0))). lia. }
  assert (forall p r, p 0 = false -> exists l,
    (fun l => (r : radix, false, l)) <$> skip_chars p (advance_by 2 l0) = Some (r, false, l) /\
    reaches l0 l /\ pos l0 < pos l) as Hpre.
  { intros p r Hp. destruct (skip_chars_ends p (advance_by 2 l0) (r_ok _ _ Hr2 Hok) Hp)
      as (l & -> & Hr & _). exists l. pose proof (r_pos _ _ Hr).
    split_and!; [done|by etransitivity|lia]. }
  assert (forall l, at_digit l = true -> more l = true) as Hdm.
  { intros l H. unfold at_digit in H. eapply peek_char_more; [reflexivity|]. intros E. by rewrite E in H. }
  assert (forall l, pos_ok l -> exists l', advance_while at_digit l = Some l' /\ reaches l l' /\
            at_digit l' = false) as Hdig.
  { intros l Hl. destruct (advance_while_ends at_digit (fun _ => True) l Hl Hdm) as (l' & ? & ? & ? & _);
      [done|done|by exists l']. }
  unfold scan_number. destruct (prefix_radix l0).
  - destruct (Hpre (fun c => is_hex_char c || (c =? ch "_")) Hex) as (l & -> & H); [done|]. eauto.
  - destruct (Hpre (fun c => is_octal_char c || (c =? ch "_")) Octal) as (l & -> & H); [done|]. eauto.
  - destruct (Hpre (fun c => is_binary_char c || (c =? ch "_")) Binary) as (l & -> & H); [done|]. eauto.
  - destruct (Hdig l0 Hok) as (l1 & -> & Hr1 & Hf1). pose proof (r_ok _ _ Hr1 Hok) as Hok1.
    assert (pos l0 < pos l1) as Hp1.
    { pose proof (r_pos _ _ Hr1). destruct (Z.eq_dec (pos l0) (pos l1)) as [E|]; [|lia].
      unfold at_digit in Hf1. apply orb_false_elim in Hf1 as [Hf1 _].
      unfold lexer_peek_char, src_len in Hd, Hf1. rewrite (r_src _ _ Hr1), <- E in Hf1. congruence. }
    assert (exists l2, lex_fraction l1 = Some l2 /\ reaches l1 l2) as (l2 & E2 & Hr12).
    { unfold lex_fraction. destruct (_ && _ && _); [|by eexists].
      destruct (Hdig (lexer_advance l1) (advance_ok _ Hok1)) as (l2 & -> & Hr & _).
      exists l2. split; [done|]. etransitivity; [apply advance_reaches|done]. }
    pose proof (r_ok _ _ Hr12 Hok1) as Hok2.
    assert (exists l3, lex_exponent l2 = Some l3 /\ reaches l2 l3) as (l3 & E3 & Hr3).
    { unfold lex_exponent. destruct (_ || _); [|by eexists]. cbv zeta.
      match goal with |- context [advance_while at_digit ?x] => set (lx := x) end.
      assert (reaches l2 lx) as Hrx.
      { unfold lx. case_if; [etransitivity; apply advance_reaches|apply advance_reaches]. }
      destruct (Hdig lx (r_ok _ _ Hrx Hok2)) as (l3 & -> & Hr & _).
      exists l3. split; [done|by etransitivity]. }
    cbn. rewrite E2. cbn. rewrite E3. cbn.
    assert (reaches l0 l3) as Hr03 by (do 2 (etransitivity; [eassumption|]); done).
    pose proof (r_pos _ _ Hr12). pose proof (r_pos _ _ Hr3).
    case_if; do 3 eexists; split_and!; try reflexivity.
    + etransitivity; [exact Hr03|apply advance_reaches].
    + pose proof (r_pos _ _ (advance_reaches l3)). lia.
    + done.
    + lia.
Qed.

Lemma lex_number_ok m l0 :
  pos_ok l0 -> isdigit (lexer_peek_char l0) = true ->
  exists r, lex_number m l0 = Some r /\ token_ok l0 r.
Proof.
  intros Hok Hd. destruct (scan_number_ok l0 Hok Hd) as (r & b & l & E & Hr & Hp).
  unfold lex_number. cbv zeta. rewrite E. cbn [mbind option_bind]. destruct m; cbn [negb].
  - set (ty := if b then TOK_BIGINT_LIT else TOK_NUMBER).
    assert (token_ok l0 (make_token_from ty (pos l0) l)) as H
      by (apply make_token_ok; [done|done|by destruct b]).
    destruct (make_token_from ty (pos l0) l) as [t l']. eexists. split; [reflexivity|].
    eapply with_ok; [exact H|..]; destruct b, r; reflexivity.
  - eexists. split; [reflexivity|]. split_and!; try done. by left.
Qed.

(** [lex_string] *)

Lemma lex_string_ok m q l0 :
  pos_ok l0 -> more l0 = true -> exists r, lex_string m q l0 = Some r /\ token_ok l0 r.
Proof.
  intros Hok Hm. pose proof (advance_strict l0 Hok Hm) as Hlt.
  unfold lex_string. cbv zeta. set (start := lexer_advance l0) in *.
  destruct (loop_ends id (lex_string_body m q (pos l0) (pos start))
    (fun s => reaches start s /\ pos_ok s) (token_ok l0) start) as (r & E & H).
  - intros s [_ H]. exact H.
  - intros s [Hr Hs]. unfold id, lex_string_body.
    assert (reaches l0 s) as Hr0 by (etransitivity; [apply advance_reaches|exact Hr]).
    pose proof (r_pos _ _ Hr) as Hp. destruct (more s) eqn:Hms; cbn [negb].
    2: { apply error_token_ok; [done|lia]. }
    pose proof (advance_strict s Hs Hms) as Hlts. pose proof (advance_reaches s) as Hrs.
    destruct (lexer_peek_char s =? q).
    { assert (token_ok l0 (make_token_from TOK_STRING (pos l0) (lexer_advance s))) as H
        by (apply make_token_ok; [by etransitivity|lia|done]).
      destruct (make_token_from _ _ _) as [t l']. by eapply with_ok. }
    set (l1 := if lexer_peek_char s =? 92 then lexer_advance s else s).
    assert (reaches s l1) as Hr1 by (unfold l1; case_if; [done|reflexivity]).
    pose proof (r_pos _ _ Hr1) as Hp1. pose proof (r_ok _ _ Hr1 Hs) as Hok1.
    destruct ((lexer_peek_char s =? 92) && more l1 && (lexer_peek_char l1 =? 13)) eqn:Ec.
    { apply andb_prop in Ec as [Ec _]. apply andb_prop in Ec as [_ Hm1].
      pose proof (advance_strict l1 Hok1 Hm1).
      set (l2 := if _ =? 10 then _ else _).
      assert (reaches (lexer_advance l1) l2) as Hr2 by (unfold l2; case_if; auto with lr; reflexivity).
      assert (reaches s l2) as Hr3
        by (etransitivity; [exact Hr1|etransitivity; [apply advance_reaches|exact Hr2]]).
      pose proof (r_pos _ _ Hr2).
      split_and!; [by etransitivity|by apply (r_ok _ _ Hr3)|apply (r_src _ _ Hr3)|lia]. }
    destruct (is_line_terminator (lexer_peek_char s)).
    { apply error_token_ok; [by etransitivity|lia]. }
    assert (reaches s (lexer_advance l1)) as Hr2 by (etransitivity; [exact Hr1|apply advance_reaches]).
    assert (pos s < pos (lexer_advance l1)) as Hlt2.
    { unfold l1. case_if; [|lia]. pose proof (r_pos _ _ (advance_reaches (lexer_advance s))). lia. }
    split_and!; [by etransitivity|by apply (r_ok _ _ Hr2)|apply (r_src _ _ Hr2)|done].
  - split; [reflexivity|by apply advance_ok].
  - exists r. by split.
Qed.

(** [lex_template] *)

Lemma lex_template_ok m l0 :
  pos_ok l0 -> more l0 = true -> exists r, lex_template m l0 = Some r /\ token_ok l0 r.
Proof.
  intros Hok Hm. pose proof (advance_strict l0 Hok Hm) as Hlt.
  unfold lex_template. cbv zeta.
  set (start := if _ && _ then _ else _). set (b := pos start).
  assert (reaches l0 start) as Hr0.
  { unfold start. case_if; [|reflexivity]. etransitivity; [apply advance_reaches|apply set_in_template_reaches]. }
  assert (pos l0 < pos start \/ start = l0) as Hst.
  { unfold start. case_if; [left; exact Hlt|by right]. }
  clearbody start.
  destruct (loop_ends id (lex_template_body m (pos l0) b)
    (fun s => reaches start s /\ pos_ok s) (token_ok l0) start) as (r & E & H).
  - intros s [_ H]. exact H.
  - intros s [Hr Hs]. unfold id, lex_template_body.
    assert (reaches l0 s) as Hrl by (by etransitivity).
    pose proof (r_pos _ _ Hr) as Hp. destruct (more s) eqn:Hms; cbn [negb].
    2: { apply error_token_ok; [done|]. apply Z.ltb_ge in Hms. apply more_pos in Hm.
         unfold src_len in *. rewrite (r_src _ _ Hrl) in Hms. lia. }
    pose proof (advance_strict s Hs Hms) as Hlts. pose proof (advance_reaches s) as Hrs.
    assert (pos l0 <= pos s) as Hps by (apply (r_pos _ _ Hrl)).
    destruct (lexer_peek_char s =? 96).
    { assert (token_ok l0 (make_token_from TOK_TEMPLATE_END (pos l0)
        (set_in_template false (lexer_advance s)))) as H.
      { apply make_token_ok; [|cbn; lia|done]. etransitivity; [exact Hrl|].
        etransitivity; [exact Hrs|apply set_in_template_reaches]. }
      destruct (make_token_from _ _ _) as [t l']. by eapply with_ok. }
    destruct ((lexer_peek_char s =? ch "$") && (lexer_peek_char_next s =? ch "{")).
    { assert (token_ok l0 (make_token_from TOK_TEMPLATE (pos l0) (advance_by 2 s))) as H.
      { apply make_token_ok; [etransitivity; [exact Hrl|apply advance_by_reaches]| |done].
        cbn [advance_by]. pose proof (r_pos _ _ (advance_reaches (lexer_advance s))). lia. }
      destruct (make_token_from _ _ _) as [t l']. by eapply with_ok. }
    destruct (lexer_peek_char s =? 92).
    { set (l1 := if more (lexer_advance s) then _ else _).
      assert (reaches (lexer_advance s) l1) as Hr1 by (unfold l1; case_if; auto with lr; reflexivity).
      assert (reaches s l1) as Hr2 by (by etransitivity).
      pose proof (r_pos _ _ Hr1).
      split_and!; [by etransitivity|by apply (r_ok _ _ Hr2)|apply (r_src _ _ Hr2)|lia]. }
    split_and!; [by etransitivity|by apply advance_ok|apply (r_src _ _ Hrs)|done].
  - split; [reflexivity|by apply (r_ok _ _ Hr0)].
  - exists r. by split.
Qed.

(** [lex_regexp] *)

Lemma lex_regexp_ok l0 :
  pos_ok l0 -> more l0 = true -> exists r, lex_regexp l0 = Some r /\ token_ok l0 r.
Proof.
  intros Hok Hm. pose proof (advance_strict l0 Hok Hm) as Hlt.
  unfold lex_regexp. cbv zeta. set (start := lexer_advance l0) in *.
  destruct (loop_ends fst (lex_regexp_body (pos l0))
    (fun s => reaches start s.1 /\ pos_ok s.1)
    (fun r => match r.1 with Some t => token_ok l0 t | None => reaches start r.2 end)
    (start, false)) as (r & E & H).
  - intros s [_ H]. exact H.
  - intros [s c] [Hr Hs]. cbn [fst] in Hr, Hs. unfold lex_regexp_body.
    assert (reaches l0 s) as Hr0 by (etransitivity; [apply advance_reaches|exact Hr]).
    pose proof (r_pos _ _ Hr) as Hp. destruct (more s) eqn:Hms; cbn [negb]; [|exact Hr].
    pose proof (advance_strict s Hs Hms) as Hlts. pose proof (advance_reaches s) as Hrs.
    assert (forall c', (reaches start (lexer_advance s, c' : bool).1 /\ pos_ok (lexer_advance s, c').1) /\
      src (lexer_advance s, c').1 = src s /\ pos s < pos (lexer_advance s, c').1) as Hgo.
    { intros c'. cbn [fst]. split_and!; [by etransitivity|by apply advance_ok|apply (r_src _ _ Hrs)|done]. }
    destruct (lexer_peek_char s =? 92).
    { set (l1 := if more (lexer_advance s) then _ else _).
      assert (reaches (lexer_advance s) l1) as Hr1 by (unfold l1; case_if; auto with lr; reflexivity).
      assert (reaches s l1) as Hr2 by (by etransitivity).
      pose proof (r_pos _ _ Hr1). cbn [fst].
      split_and!; [by etransitivity|by apply (r_ok _ _ Hr2)|apply (r_src _ _ Hr2)|lia]. }
    destruct (lexer_peek_char s =? ch "["); [apply Hgo|].
    destruct (lexer_peek_char s =? ch "]"); [apply Hgo|].
    destruct ((lexer_peek_char s =? ch "/") && negb c); [cbn; by etransitivity|].
    destruct (is_line_terminator (lexer_peek_char s)); [|apply Hgo].
    cbn [fst]. apply error_token_ok; [done|lia].
  - split; [reflexivity|by apply advance_ok].
  - change (budget (start, false).1) with (budget start) in E. rewrite E.
    destruct r as [[t|] l]; cbn [fst snd] in H; [by exists t|].
    assert (reaches l0 l) as Hr by (etransitivity; [apply advance_reaches|exact H]).
    match goal with |- context [advance_while ?p l] => set (fl := p) end.
    destruct (advance_while_ends fl (fun _ => True) l (r_ok _ _ Hr Hok)) as (l' & -> & Hr' & _); [|done|done|].
    { intros x Hx. unfold fl in Hx. apply andb_prop in Hx as [Hx _]. by apply andb_prop in Hx as [Hx _]. }
    cbn. eexists. split; [reflexivity|]. apply make_token_ok; [by etransitivity| |done].
    pose proof (r_pos _ _ H). pose proof (r_pos _ _ Hr'). lia.
Qed.

(** Identifiers, private names and punctuators *)

Lemma lookup_keyword_cases (P : LRTokType -> Prop) str :
  P TOK_IDENTIFIER -> Forall (fun '(_, ws) => Forall (fun wt : string * LRTokType => P wt.2) ws) keywords ->
  P (lookup_keyword str).
Proof.
  intros Hi Hk. unfold lookup_keyword. destruct str as [|c s]; [done|].
  generalize (c :: s) as str. intros str. induction Hk as [|[a ws] ks Hw Hk IH]; [done|].
  cbn [switch_first]. case_if; [|done]. clear -Hi Hw. induction Hw as [|[w t] ws Ht Hw IH]; [done|].
  cbn [match_words]. case_if; [exact Ht|done].
Qed.

(** Every keyword's type decides whether a regular expression may follow. *)
Lemma lookup_keyword_plain str : exists b, regexp_after (lookup_keyword str) = Some b.
Proof.
  apply (lookup_keyword_cases (fun t => exists b, regexp_after t = Some b)); [by eexists|].
  repeat constructor; eexists; reflexivity.
Qed.

Lemma lookup_keyword_not_eof str : lookup_keyword str <> TOK_EOF.
Proof. destruct (lookup_keyword_plain str) as [b H]. intros E. by rewrite E in H. Qed.

Lemma skip_ident_ok l0 :
  pos_ok l0 -> more l0 = true ->
  exists l, skip_chars is_js_ident_continue (lexer_advance l0) = Some l /\ reaches l0 l /\
    pos l0 < pos l.
Proof.
  intros Hok Hm. destruct (skip_chars_ends is_js_ident_continue (lexer_advance l0))
    as (l & E & Hr & _); [by apply advance_ok|done|].
  pose proof (advance_strict l0 Hok Hm). pose proof (r_pos _ _ Hr).
  exists l. split_and!; [done| |lia]. etransitivity; [apply advance_reaches|done].
Qed.

Lemma lex_identifier_ok l0 :
  pos_ok l0 -> more l0 = true -> exists r, lex_identifier (pos l0) l0 = Some r /\ token_ok l0 r.
Proof.
  intros Hok Hm. destruct (skip_ident_ok l0 Hok Hm) as (l & E & Hr & Hp).
  unfold lex_identifier. rewrite E. cbn [mbind option_bind].
  pose proof (make_token_ok (lookup_keyword (text_from (pos l0) l)) l0 l Hr Hp
    (lookup_keyword_not_eof _)) as H.
  destruct (make_token_from _ _ _) as [t l']. eexists. split; [reflexivity|].
  eapply with_ok; [exact H|..]; destruct (t_type t) eqn:Et; cbn; congruence.
Qed.

Lemma lex_private_name_ok l0 :
  pos_ok l0 -> more l0 = true -> exists r, lex_private_name (pos l0) l0 = Some r /\ token_ok l0 r.
Proof.
  intros Hok Hm. destruct (skip_ident_ok l0 Hok Hm) as (l & E & Hr & Hp).
  unfold lex_private_name. rewrite E. eexists. split; [reflexivity|].
  apply make_token_ok; [|done|done]. etransitivity; [exact Hr|apply set_allow_regexp_reaches].
Qed.

Lemma punct_ok n b ty l0 :
  pos_ok l0 -> more l0 = true -> ty <> TOK_EOF -> token_ok l0 (punct (S n) b ty (pos l0) l0).
Proof.
  intros Hok Hm Ht. apply make_token_ok; [|cbn [set_allow_regexp pos advance_by]|done].
  - etransitivity; [apply advance_by_reaches|apply set_allow_regexp_reaches].
  - pose proof (advance_strict l0 Hok Hm).
    pose proof (r_pos _ _ (advance_by_reaches n (lexer_advance l0))). lia.
Qed.

Lemma lex_punct_ok c l0 :
  pos_ok l0 -> more l0 = true -> token_ok l0 (lex_punct c (pos l0) l0).
Proof.
  intros Hok Hm. unfold lex_punct. cbv zeta.
  repeat match goal with
  | |- token_ok _ (if ?b then _ else _) => destruct b
  | |- token_ok _ (punct _ _ _ _ _) => apply punct_ok; [exact Hok|exact Hm|discriminate]
  end.
  split_and!; [apply advance_reaches|by apply advance_strict|done|done|done|by left].
Qed.

Lemma lex_token_ok m l0 :
  pos_ok l0 -> more l0 = true -> exists r, lex_token m l0 = Some r /\ token_ok l0 r.
Proof.
  intros Hok Hm. unfold lex_token. cbv zeta.
  case_if; [by apply lex_private_name_ok|]. case_if; [by apply lex_identifier_ok|].
  destruct (isdigit (lexer_peek_char l0)) eqn:Hd.
  { destruct (lex_number_ok m l0 Hok Hd) as ([t l] & -> & H). eexists. split; [reflexivity|].
    destruct H as (H1 & H2 & H3). split; [|split; [exact H2|exact H3]].
    etransitivity; [exact H1|apply set_allow_regexp_reaches]. }
  case_if; [by apply lex_string_ok|]. case_if.
  { destruct (lex_template_ok m (set_allow_regexp true l0)) as (r & -> & H); [done|done|].
    exists r. split; [done|]. destruct H as (H1 & H2). split; [|exact H2].
    etransitivity; [apply (set_allow_regexp_reaches true)|exact H1]. }
  case_if; [by apply lex_regexp_ok|]. eexists. split; [reflexivity|]. by apply lex_punct_ok.
Qed.

(** One call of [lexer_next] with no token held back. *)
Lemma lexer_next_ok m l0 :
  pos_ok l0 -> has_peek l0 = false ->
  exists t l start, lexer_next m l0 = Some (t, l) /\ reaches l0 l /\
    trivia (src l0) (pos l0) start /\ pos l0 <= start /\ t_line t = line l /\ t_col t = col l /\
    (t_type t = TOK_EOF /\ start = src_len l0 /\ pos l = start /\ t_len t = 0 /\
       t_start t = AtSource start \/
     t_type t <> TOK_EOF /\ start < pos l /\
     (t_type t = TOK_ERROR \/ t_start t = AtSource start /\ t_len t = pos l - start)).
Proof.
  intros Hok Hpk. unfold lexer_next. rewrite Hpk.
  destruct (skip_whitespace_ends l0 Hok) as (l1 & -> & Hr & Ht & _). cbn [mbind option_bind].
  pose proof (r_ok _ _ Hr Hok) as Hok1. pose proof (r_pos _ _ Hr) as Hp1. rewrite Z.geb_leb.
  destruct (Z.leb_spec (src_len l1) (pos l1)) as [Hle|Hlt].
  - exists (eof_token l1), l1, (pos l1). split_and!; try done. left.
    pose proof Hok1 as Hp2. unfold eof_token, pos_ok, src_len in *. cbn [t_type t_len t_start] in *.
    rewrite (r_src _ _ Hr) in *. split_and!; [done|lia|done|done|f_equal; lia].
  - destruct (lex_token_ok m l1 Hok1) as ([t l] & -> & H); [by apply more_pos|].
    destruct H as (H1 & H2 & H3 & H4 & H5 & H6). cbn [fst snd] in *.
    exists t, l, (pos l1). split_and!; try done; [by etransitivity|]. by right.
Qed.

Lemma lexer_init_ok text : pos_ok (lexer_init text).
Proof.
  unfold pos_ok, src_len. cbn [lexer_init pos src]. pose proof (zlen_nonneg text). lia.
Qed.

Lemma lexer_init_line text : line_ok (lexer_init text).
Proof. by exists false. Qed.

Lemma tokens_end l0 n :
  pos_ok l0 -> has_peek l0 = false -> (Z.to_nat (src_len l0 - pos l0) < n)%nat ->
  exists ts l, tokens n l0 = Some (ts, l) /\ reaches l0 l /\ pos l = src_len l0 /\
    (length ts <= S (Z.to_nat (src_len l0 - pos l0)))%nat.
Proof.
  revert l0. induction n as [|n IH]; intros l0 Hok Hpk Hn; [lia|]. cbn [tokens].
  destruct (lexer_next_ok true l0 Hok Hpk) as (t & l & st & -> & Hr & _ & Hst & _ & _ & [H|H]).
  - destruct H as (-> & -> & Hp & _). exists [t], l.
    split_and!; [done|done|done|cbn; lia].
  - destruct H as (Ht & Hlt & _). pose proof (r_ok _ _ Hr Hok) as Hok'.
    pose proof Hok' as Hp'. unfold pos_ok, src_len in *. rewrite (r_src _ _ Hr) in Hp'.
    destruct (IH l) as (ts & l' & E & H1 & H2 & H3);
      [done|by rewrite (r_peek _ _ Hr)|rewrite (r_src _ _ Hr); lia|].
    rewrite (r_src _ _ Hr) in H2, H3. exists (t :: ts), l'. rewrite E.
    split_and!; [by destruct (t_type t)|by etransitivity|done|cbn [length]; lia].
Qed.

(** ** Properties *)

(** C25: every call of [lexer_next] returns.  From a state at a valid position
    with no token held back, it skips white space and whole comments only, then
    makes a token: the end-of-input token exactly at the end of the text, or a
    token of at least one byte that ends where the lexer stands; unless it is
    an error the token's text starts right after the white space.  The new
    state is again at a valid position; its line and column count the line
    breaks (a carriage return with its line feed once) before it, if they did
    at the start, and the token carries them. *)
Theorem lexer_next_spec (malloc_ok : alloc_result) (lex : Lexer) :
  pos_ok lex -> has_peek lex = false ->
  exists t lex' start,
    lexer_next malloc_ok lex = Some (t, lex') /\
    src lex' = src lex /\ pos_ok lex' /\ (line_ok lex -> line_ok lex') /\ has_peek lex' = false /\
    trivia (src lex) (pos lex) start /\ t_line t = line lex' /\ t_col t = col lex' /\
    (t_type t = TOK_EOF /\ start = src_len lex /\ pos lex' = start /\ t_len t = 0 /\
       t_start t = AtSource start \/
     t_type t <> TOK_EOF /\ pos lex <= start < pos lex' /\
     (t_type t = TOK_ERROR \/ t_start t = AtSource start /\ t_len t = pos lex' - start)).
Proof.
  intros Hok Hpk. destruct (lexer_next_ok malloc_ok lex Hok Hpk)
    as (t & l & st & E & Hr & Ht & Hst & Hl & Hc & H).
  exists t, l, st. split_and!; try done; [apply Hr|by apply (r_ok _ _ Hr)|by apply (r_line _ _ Hr)|by rewrite (r_peek _ _ Hr)|].
  destruct H as [H|(H1 & H2 & H3)]; [by left|right]. split_and!; [done|done|done|done].
Qed.

Definition sample_text : list Z := chars_of "a /* b */ != 'c'; // d".

Lemma lexer_next_spec_witness :
  pos_ok (lexer_init sample_text) /\
  exists t lex', lexer_next true (lexer_init sample_text) = Some (t, lex') /\
    t_type t = TOK_IDENTIFIER /\ line_ok lex'.
Proof.
  split; [apply lexer_init_ok|].
  destruct (lexer_next_spec true (lexer_init sample_text) (lexer_init_ok _) eq_refl)
    as (t & l & st & E & _ & _ & H & _). exists t, l. split; [exact E|].
  split; [|exact (H (lexer_init_line _))].
  assert (option_map (fun r => t_type r.1) (lexer_next true (lexer_init sample_text))
    = Some TOK_IDENTIFIER) as Ht by (vm_compute; reflexivity).
  rewrite E in Ht. cbn in Ht. by apply (inj Some) in Ht.
Defined.

(** C34: the lexer terminates.  On every text, calling [lexer_next] at most once
    per byte and once more reaches the end-of-input token, at the end of the
    text. *)
Theorem tokens_terminate (text : list Z) :
  exists ts lex, tokens (S (length text)) (lexer_init text) = Some (ts, lex) /\
    pos lex = zlen text /\ (length ts <= S (length text))%nat /\ line_ok lex.
Proof.
  destruct (tokens_end (lexer_init text) (S (length text)) (lexer_init_ok text) eq_refl)
    as (ts & l & E & H1 & H2 & H3).
  - unfold src_len, zlen. cbn [lexer_init pos src]. lia.
  - exists ts, l. split_and!; try done.
    2: by apply (r_line _ _ H1); [apply lexer_init_ok|apply lexer_init_line].
    unfold src_len, zlen in H3. cbn [lexer_init pos src] in H3. lia.
Qed.
