(* ===== verification/LexerPrint.v ===== *)
(** Printing and reading back: the lexer of [Lexer.v] on known text.

    A state is described by the text that is left ([at_text]); a run of the
    lexer over known characters is a [forward] step.  The theorem: a sequence of
    words, integers, strings and punctuators, printed with a blank before each,
    is read as the same sequence of tokens. *)

From stdpp Require Import base list strings.
From Stdlib Require Import ZArith Lia SpecFloat Ascii.
From S2P Require Import Prelude.
From S2P Require Import LexText.
From S2P Require Import Lexer.

(** ** Reading known text *)

(** The text from the position on. *)
Definition at_text (l : Lexer) (s : list Z) : Prop :=
  pos_ok l /\ drop (Z.to_nat (pos l)) (src l) = s.

Lemma at_text_len l s : at_text l s -> src_len l = pos l + zlen s.
Proof. intros [Hp <-]. unfold pos_ok, src_len, zlen in *. rewrite length_drop. lia. Qed.

Lemma at_text_app l w s : at_text l (w ++ s) -> drop (Z.to_nat (pos l + zlen w)) (src l) = s.
Proof.
  intros [Hp Hd]. unfold pos_ok in Hp. replace (Z.to_nat (pos l + zlen w)) with (Z.to_nat (pos l) + length w)%nat
    by (unfold zlen; lia).
  by rewrite <- drop_drop, Hd, drop_app_length.
Qed.

Lemma at_text_nth l w c s : at_text l (w ++ c :: s) -> at_ (src l) (pos l + zlen w) = c.
Proof.
  intros H. apply at_text_app in H. unfold at_. rewrite list_lookup_total_alt.
  rewrite <- (Nat.add_0_r (Z.to_nat _)), <- lookup_drop, H. done.
Qed.

Lemma at_text_peek l c s : at_text l (c :: s) -> lexer_peek_char l = c.
Proof.
  intros H. rewrite peek_char_at.
  - pose proof (at_text_nth l [] c s H) as E. by rewrite zlen_nil, Z.add_0_r in E.
  - apply more_pos. pose proof (at_text_len _ _ H). rewrite zlen_cons in *.
    pose proof (zlen_nonneg s). lia.
Qed.

Lemma at_text_next l c d s : at_text l (c :: d :: s) -> lexer_peek_char_next l = d.
Proof.
  intros H. unfold lexer_peek_char_next. pose proof (at_text_len _ _ H) as Hl.
  rewrite !zlen_cons in Hl. pose proof (zlen_nonneg s). rewrite Z.geb_leb.
  destruct (Z.leb_spec (src_len l) (pos l + 1)); [lia|]. apply (at_text_nth l [c] d s H).
Qed.

Lemma at_text_char l w c k d s :
  at_text l (w ++ c :: s) -> k = zlen w -> char_at k d l = (c =? d).
Proof.
  intros H ->. unfold char_at. rewrite (at_text_nth _ _ _ _ H).
  pose proof (at_text_len _ _ H) as Hl. rewrite zlen_app, zlen_cons in Hl.
  pose proof (zlen_nonneg s). by destruct (Z.ltb_spec (pos l + zlen w) (src_len l)); [|lia].
Qed.

Lemma at_text_more l c s : at_text l (c :: s) -> more l = true.
Proof.
  intros H. apply more_pos. pose proof (at_text_len _ _ H). rewrite zlen_cons in *.
  pose proof (zlen_nonneg s). lia.
Qed.

(** [l'] is [l] after [n] characters none of which ends a line; only the flags
    of the lexer may differ. *)
Definition forward (n : Z) (l l' : Lexer) : Prop :=
  reaches l l' /\ pos l' = pos l + n.

Lemma forward_text w l l' s : at_text l (w ++ s) -> forward (zlen w) l l' -> at_text l' s.
Proof.
  intros H [Hr Hp]. split; [by apply (r_ok _ _ Hr), (proj1 H)|].
  rewrite (r_src _ _ Hr), Hp. by apply at_text_app.
Qed.

Lemma forward_advance c l s :
  at_text l (c :: s) -> is_line_terminator c = false ->
  forward 1 l (lexer_advance l) /\ at_text (lexer_advance l) s.
Proof.
  intros H Hc. assert (forward 1 l (lexer_advance l)) as Hf.
  { split; [apply advance_reaches|]. rewrite advance_plain; [done|by eapply at_text_more|].
    by erewrite at_text_peek. }
  split; [done|]. apply (forward_text [c] l); done.
Qed.

Lemma forward_trans m n a b c : forward m a b -> forward n b c -> forward (m + n) a c.
Proof. intros [H1 H2] [H3 H4]. split; [by etransitivity|lia]. Qed.

Lemma forward_advance_by w l s :
  at_text l (w ++ s) -> forallb (fun c => negb (is_line_terminator c)) w = true ->
  forward (zlen w) l (advance_by (length w) l).
Proof.
  revert l. induction w as [|c w IH]; intros l H Hw;
    [split; [reflexivity|cbn [advance_by length]; rewrite zlen_nil; lia]|].
  cbn [forallb] in Hw. apply andb_prop in Hw as [Hc%negb_true_iff Hw]. cbn [length advance_by].
  destruct (forward_advance c l (w ++ s) H Hc) as [H1 H2].
  rewrite zlen_cons. eapply forward_trans; [exact H1|]. by apply IH.
Qed.

Lemma text_from_forward w l l' s :
  at_text l (w ++ s) -> forward (zlen w) l l' -> text_from (pos l) l' = w.
Proof.
  intros [_ H] [Hr Hp]. unfold text_from, slice. rewrite (r_src _ _ Hr), Hp, H.
  replace (Z.to_nat (pos l + zlen w - pos l)) with (length w) by (unfold zlen; lia).
  apply take_app_length.
Qed.

(** A loop may be unrolled. *)
Lemma advance_while_unroll p l :
  pos_ok l -> (forall l, p l = true -> more l = true) ->
  advance_while p l = if p l then advance_while p (lexer_advance l) else Some l.
Proof.
  intros Hok Hp. destruct (p l) eqn:E; [|unfold advance_while, budget; cbn [loop]; by rewrite E].
  destruct (advance_while_ends p (fun _ => True) l Hok Hp) as (l' & E1 & _); [done|done|].
  destruct (advance_while_ends p (fun _ => True) (lexer_advance l)) as (l2 & E2 & _);
    [by apply advance_ok|done|done|done|].
  rewrite E2, E1. f_equal. unfold advance_while in E1, E2. unfold budget in E1. cbn [loop] in E1.
  rewrite E in E1.
  eapply loop_more with (f := (budget (lexer_advance l) + budget l)%nat) in E2; [|lia].
  eapply loop_more with (f := (budget (lexer_advance l) + budget l)%nat) in E1; [|unfold budget; lia].
  congruence.
Qed.

(** A run of characters that satisfy [p], read to its end. *)
Lemma advance_while_run p q l w s :
  at_text l (w ++ s) -> (forall l, p l = true -> more l = true) ->
  (forall l c r, at_text l (c :: r) -> p l = q c r) ->
  (forall c w2 w1, w = w1 ++ c :: w2 -> q c (w2 ++ s) = true /\ is_line_terminator c = false) ->
  match s with c :: r => q c r = false | [] => True end ->
  exists l', advance_while p l = Some l' /\ forward (zlen w) l l'.
Proof.
  intros H Hm Hq. revert l H. induction w as [|c w IH]; intros l H Hw Hend.
  - exists l. rewrite advance_while_unroll by (done || apply H).
    replace (p l) with false; [split; [done|split; [reflexivity|rewrite zlen_nil; lia]]|].
    destruct s as [|c s]; [|symmetry; by rewrite (Hq _ _ _ H)].
    symmetry. apply not_true_is_false. intros E. apply Hm, more_pos in E.
    pose proof (at_text_len _ _ H) as Hl. cbn [app] in Hl. rewrite zlen_nil in Hl. lia.
  - change ((c :: w) ++ s) with (c :: w ++ s) in H.
    destruct (Hw c w [] eq_refl) as [Hc Hct].
    destruct (forward_advance c l (w ++ s) H Hct) as [H1 H2].
    destruct (IH _ H2) as (l' & E & Hf); [|done|].
    { intros d w2 w1 ->. by apply (Hw d w2 (c :: w1)). }
    exists l'. rewrite zlen_cons. split; [|by eapply forward_trans].
    rewrite advance_while_unroll by (done || apply H). by rewrite (Hq _ _ _ H), Hc.
Qed.

Lemma skip_chars_run p l w s :
  at_text l (w ++ s) -> p 0 = false ->
  forallb (fun c => p c && negb (is_line_terminator c)) w = true ->
  match s with c :: _ => p c = false | [] => True end ->
  exists l', skip_chars p l = Some l' /\ forward (zlen w) l l'.
Proof.
  intros H Hp Hw Hend. apply (advance_while_run _ (fun c _ => p c) l w s H).
  - intros x Hx. eapply peek_char_more; [reflexivity|]. intros E. rewrite E in Hx. congruence.
  - intros x c r Hx. by erewrite at_text_peek.
  - intros c w2 w1 ->. rewrite forallb_app in Hw. apply andb_prop in Hw as [_ Hw].
    cbn [forallb] in Hw. apply andb_prop in Hw as [Hw _]. by apply andb_prop in Hw as [? ?%negb_true_iff].
  - done.
Qed.

(** ** Printed tokens

    What a printer of JavaScript writes: words, decimal integers, quoted
    strings and punctuators, each after a blank. *)

Definition punct_texts : list (string * LRTokType) :=
  [("(", TOK_LPAREN); (")", TOK_RPAREN); ("[", TOK_LBRACKET); ("]", TOK_RBRACKET);
   ("{", TOK_LBRACE); ("}", TOK_RBRACE); (".", TOK_DOT); (";", TOK_SEMICOLON);
   (",", TOK_COMMA); (":", TOK_COLON); ("=>", TOK_ARROW); ("...", TOK_ELLIPSIS);
   ("=", TOK_ASSIGN); ("+=", TOK_PLUS_ASSIGN); ("-=", TOK_MINUS_ASSIGN);
   ("*=", TOK_MUL_ASSIGN); ("/=", TOK_DIV_ASSIGN); ("%=", TOK_MOD_ASSIGN);
   ("**=", TOK_POW_ASSIGN); ("&=", TOK_AND_ASSIGN); ("|=", TOK_OR_ASSIGN);
   ("^=", TOK_XOR_ASSIGN); ("<<=", TOK_SHIFT_LEFT_ASSIGN); (">>=", TOK_SHIFT_RIGHT_ASSIGN);
   (">>>=", TOK_USHIFT_RIGHT_ASSIGN); ("&&=", TOK_AND_AND_ASSIGN); ("||=", TOK_OR_OR_ASSIGN);
   ("??=", TOK_NULLISH_ASSIGN); ("==", TOK_EQ); ("!=", TOK_NEQ); ("===", TOK_STRICT_EQ);
   ("!==", TOK_STRICT_NEQ); ("<", TOK_LT); (">", TOK_GT); ("<=", TOK_LE); (">=", TOK_GE);
   ("+", TOK_PLUS); ("-", TOK_MINUS); ("*", TOK_MUL); ("/", TOK_DIV); ("%", TOK_MOD);
   ("**", TOK_POW); ("++", TOK_INC); ("--", TOK_DEC); ("!", TOK_NOT); ("&", TOK_BIT_AND);
   ("|", TOK_BIT_OR); ("^", TOK_BIT_XOR); ("~", TOK_BIT_NOT); ("&&", TOK_AND_AND);
   ("||", TOK_OR_OR); ("??", TOK_NULLISH); ("<<", TOK_SHIFT_LEFT); (">>", TOK_SHIFT_RIGHT);
   (">>>", TOK_USHIFT_RIGHT); ("?", TOK_QUESTION); ("?.", TOK_QUESTION_DOT)]%string.

Inductive item :=
  | Word (w : list Z)
  | Int (ds : list Z)
  | Str (quote : Z) (s : list Z)
  | Punct (text : string) (type : LRTokType).

Definition item_text (it : item) : list Z :=
  match it with
  | Word w => w
  | Int ds => map (fun d => 48 + d) ds
  | Str q s => q :: quote_text s ++ [q]
  | Punct text _ => chars_of text
  end.

Definition item_type (it : item) : LRTokType :=
  match it with
  | Word w => lookup_keyword w
  | Int _ => TOK_NUMBER
  | Str _ _ => TOK_STRING
  | Punct _ type => type
  end.

Definition dec_value (ds : list Z) : Z := fold_left (fun v d => v * 10 + d) ds 0.

(** [re]: a regular expression may start here. *)
Definition item_ok (re : bool) (it : item) : Prop :=
  match it with
  | Word w => match w with
              | c :: w' => is_js_ident_start c = true /\ forallb is_js_ident_continue w' = true
              | [] => False
              end
  | Int ds => ds <> [] /\ Forall (fun d => 0 <= d < 10) ds
  | Str q _ => q = 34 \/ q = 39
  | Punct text type => (text, type) ∈ punct_texts /\
      (re = true -> type <> TOK_DIV /\ type <> TOK_DIV_ASSIGN)
  end.

(** The token type decides what a [/] after it means. *)
Fixpoint items_ok (re : bool) (its : list item) : Prop :=
  match its with
  | [] => True
  | it :: its' => item_ok re it /\ items_ok (default re (regexp_after (item_type it))) its'
  end.

Definition print_items (its : list item) : list Z :=
  concat (map (fun it => 32 :: item_text it) its) ++ [32].

(** The token is the item's. *)
Definition shows (it : item) (t : Token) : Prop :=
  t_type t = item_type it /\ t_len t = zlen (item_text it) /\
  match it with
  | Word w => lookup_keyword w = TOK_BOOL_LIT ->
      t_num_val t = f64_of_Z (if at_ w 0 =? ch "t" then 1 else 0)
  | Int ds => t_num_val t = f64_of_Z (dec_value ds)
  | Str _ s => t_str_val t = Some s
  | Punct _ _ => True
  end.

(** *** Reading one item *)

(** From [l], at the item followed by a blank, [lex_token] reads the item. *)
Definition lexes (it : item) (l : Lexer) : Prop :=
  exists t l', lex_token true l = Some (t, l') /\ forward (zlen (item_text it)) l l' /\
    shows it t /\ Some (allow_regexp l') = regexp_after (item_type it).

Lemma made type w l l' s :
  at_text l (w ++ s) -> forward (zlen w) l l' ->
  let r := make_token_from type (pos l) l' in
  forward (zlen w) l r.2 /\ t_type r.1 = type /\ t_len r.1 = zlen w /\
  forall b, regexp_after type = Some b -> allow_regexp r.2 = b.
Proof.
  intros H Hf. unfold make_token_from. cbn [fst snd t_type t_len].
  split_and!; [|done|destruct Hf; lia|].
  - destruct (regexp_after type) as [b|]; [|done]. destruct Hf as [H1 H2].
    split; [|exact H2]. etransitivity; [exact H1|apply set_allow_regexp_reaches].
  - intros b ->. done.
Qed.

Lemma ident_not_terminator c : is_js_ident_continue c = true -> is_line_terminator c = false.
Proof.
  unfold is_js_ident_continue, isalnum, isalpha, isdigit, is_line_terminator. chars.
  intros H. apply not_true_is_false. intros E. apply orb_true_iff in E as [E%Z.eqb_eq|E%Z.eqb_eq]; by subst c.
Qed.

Lemma ident_start_continue c : is_js_ident_start c = true -> is_js_ident_continue c = true.
Proof. unfold is_js_ident_start, is_js_ident_continue, isalnum. destruct (isalpha c); [done|]. cbn.
  intros H. by destruct (isdigit c).
Qed.

Lemma lexes_word re w l s :
  item_ok re (Word w) -> at_text l (w ++ 32 :: s) -> lexes (Word w) l.
Proof.
  intros Hok H. destruct w as [|c w]; [done|]. destruct Hok as [Hc Hw].
  change ((c :: w) ++ 32 :: s) with (c :: w ++ 32 :: s) in H.
  pose proof (at_text_peek _ _ _ H) as Hpk.
  destruct (forward_advance c l _ H) as [Hf1 H1];
    [by apply ident_not_terminator, ident_start_continue|].
  destruct (skip_chars_run is_js_ident_continue _ _ _ H1) as (l2 & E & Hf2); [done| |done|].
  { apply forallb_forall. intros x Hx. rewrite forallb_forall in Hw. specialize (Hw x Hx).
    rewrite Hw. cbn. by rewrite ident_not_terminator. }
  assert (forward (zlen (c :: w)) l l2) as Hf by (rewrite zlen_cons; by eapply forward_trans).
  unfold lexes, lex_token. rewrite Hpk. cbv zeta.
  destruct (Z.eqb_spec c (ch "#")) as [->|_]; [done|]. rewrite Hc.
  unfold lex_identifier. rewrite E. cbn [mbind option_bind].
  rewrite (text_from_forward (c :: w) l l2 (32 :: s) H Hf).
  destruct (lookup_keyword_plain (c :: w)) as [b Hb].
  destruct (made (lookup_keyword (c :: w)) (c :: w) l l2 (32 :: s) H Hf) as (M1 & M2 & M3 & M4).
  destruct (make_token_from _ _ _) as [t l']. cbn [fst snd] in *.
  do 2 eexists. split; [reflexivity|]. split; [exact M1|]. unfold shows. cbn [item_type item_text].
  split_and!; [rewrite <- M2; destruct (t_type t) eqn:Et; cbn [with_num t_type]; congruence
    |by destruct (t_type t)| |].
  - intros Hty. rewrite M2, Hty. cbn [with_num t_num_val].
    pose proof (at_text_nth l [] c _ H) as Ec. rewrite zlen_nil, Z.add_0_r in Ec.
    by rewrite (r_src _ _ (proj1 Hf)), Ec.
  - by rewrite Hb, (M4 b).
Qed.

Lemma at_text_next_hd l c s : at_text l (c :: s) -> lexer_peek_char_next l = default 0 (head s).
Proof.
  destruct s as [|d s]; intros H; [|by apply (at_text_next l c d s)].
  pose proof (at_text_len _ _ H) as Hl. rewrite zlen_cons, zlen_nil in Hl.
  unfold lexer_peek_char_next. rewrite Z.geb_leb.
  by destruct (Z.leb_spec (src_len l) (pos l + 1)); [|lia].
Qed.

Lemma digit_chars ds :
  Forall (fun d => 0 <= d < 10) ds ->
  Forall (fun c => isdigit c = true /\ is_line_terminator c = false /\ c <> ch "_")
         (map (fun d => 48 + d) ds).
Proof.
  intros H. induction H as [|d ds Hd _ IH]; [constructor|]. constructor; [|done].
  unfold isdigit, is_line_terminator. chars. split_and!; [|apply orb_false_intro|]; try lia.
Qed.

Lemma parse_digits_dec ds acc s :
  Forall (fun d => 0 <= d < 10) ds ->
  match s with c :: _ => 10 <= digit_value c | [] => True end ->
  parse_digits 10 acc (map (fun d => 48 + d) ds ++ s)
  = (fold_left (fun v d => v * 10 + d) ds acc, s).
Proof.
  intros H Hs. revert acc. induction H as [|d ds Hd _ IH]; intros acc; cbn [map app parse_digits fold_left].
  - destruct s as [|c s]; [done|]. cbn [parse_digits]. by destruct (Z.ltb_spec (digit_value c) 10); [lia|].
  - assert (digit_value (48 + d) = d) as ->.
    { unfold digit_value, isdigit. replace ((48 <=? 48 + d) && (48 + d <=? 57)) with true by lia. lia. }
    replace (d <? 10) with true by lia. apply IH.
Qed.

Lemma strtod_dec ds :
  Forall (fun d => 0 <= d < 10) ds -> strtod (map (fun d => 48 + d) ds) = f64_of_Z (dec_value ds).
Proof.
  intros H. unfold strtod. rewrite <- (app_nil_r (map _ ds)), parse_digits_dec by done.
  unfold f64_of_decimal. fold (dec_value ds). destruct (Z.eqb_spec (dec_value ds) 0) as [->|]; [done|].
  change (0 <=? 0) with true. cbv iota. by rewrite Z.pow_0_r, Z.mul_1_r.
Qed.

Lemma at_digit_more l : at_digit l = true -> more l = true.
Proof.
  intros H. unfold at_digit in H. eapply peek_char_more; [reflexivity|]. intros E. by rewrite E in H.
Qed.

Lemma filter_id {A} (P : A -> Prop) `{!forall x, Decision (P x)} (l : list A) :
  Forall P l -> filter P l = l.
Proof.
  intros Hl. induction Hl as [|x l Hx _ IH]; [done|]. rewrite filter_cons_True by done. by f_equal.
Qed.

Lemma lexes_int re ds l s :
  item_ok re (Int ds) -> at_text l (item_text (Int ds) ++ 32 :: s) -> lexes (Int ds) l.
Proof.
  intros [Hne Hds] H. cbn [item_text] in H. set (w := map (fun d => 48 + d) ds) in *.
  pose proof (digit_chars ds Hds) as Hw. fold w in Hw. rewrite Forall_forall in Hw.
  destruct ds as [|d ds]; [done|].
  assert (w = 48 + d :: map (fun d => 48 + d) ds) as Ew by done.
  assert (0 <= d < 10) as Hd by (by inversion Hds).
  assert (at_text l (48 + d :: map (fun d => 48 + d) ds ++ 32 :: s)) as H' by exact H.
  pose proof (at_text_peek _ _ _ H') as Hpk. pose proof (at_text_next_hd _ _ _ H') as Hnx.
  destruct (advance_while_run at_digit
    (fun c r => isdigit c || (c =? ch "_") && isdigit (default 0 (head r))) l w (32 :: s) H at_digit_more)
    as (l1 & E1 & Hf).
  { intros x c r Hx. unfold at_digit. by rewrite (at_text_peek _ _ _ Hx), (at_text_next_hd _ _ _ Hx). }
  { intros c w2 w1 Ec. destruct (Hw c) as (Hc & Hlt & _); [rewrite Ec; apply elem_of_app; right; left|].
    by rewrite Hc. }
  { done. }
  pose proof (forward_text w l l1 (32 :: s) H Hf) as H1. pose proof (at_text_peek _ _ _ H1) as Hpk1.
  unfold lexes, lex_token. rewrite Hpk. cbv zeta.
  replace (48 + d =? ch "#") with false by (chars; lia).
  replace (is_js_ident_start (48 + d)) with false
    by (unfold is_js_ident_start, isalpha; chars; lia).
  replace (isdigit (48 + d)) with true by (unfold isdigit; lia).
  assert (prefix_radix l = Decimal) as Er.
  { unfold prefix_radix. destruct (_ && _) eqn:E; [|done]. cbv zeta.
    apply andb_prop in E as [_ E%Z.ltb_lt].
    assert (isdigit (at_ (src l) (pos l + 1)) = true \/ at_ (src l) (pos l + 1) = 32) as Hn.
    { unfold lexer_peek_char_next in Hnx. rewrite Z.geb_leb in Hnx.
      destruct (Z.leb_spec (src_len l) (pos l + 1)); [lia|]. rewrite Hnx.
      destruct ds as [|d2 ds]; [by right|left]. cbn [map head app default from_option id].
      apply (Hw (48 + d2)). rewrite Ew. right. left. }
    revert Hn. generalize (at_ (src l) (pos l + 1)). clear. intros c [Hc|Hc]; [|by subst c].
    unfold isdigit in Hc. chars. repeat (case_if; [exfalso; lia|]). done. }
  unfold lex_number, scan_number. cbv zeta. rewrite Er, E1. cbn [mbind option_bind].
  unfold lex_fraction. rewrite Hpk1. change (32 =? ch ".") with false. cbn [andb mbind option_bind].
  unfold lex_exponent. rewrite Hpk1. change ((32 =? ch "e") || (32 =? ch "E")) with false.
  cbn [mbind option_bind]. rewrite Hpk1. change (32 =? ch "n") with false. cbn [negb].
  rewrite (text_from_forward w l l1 (32 :: s) H Hf).
  assert (strip_suffix false (strip_separators w) = w) as ->.
  { unfold strip_separators, strip_suffix. cbn [andb]. apply filter_id, Forall_forall.
    intros c Hc. by apply Hw. }
  destruct (made TOK_NUMBER w l l1 (32 :: s) H Hf) as (M1 & M2 & M3 & M4).
  destruct (make_token_from _ _ _) as [t l']. cbn [fst snd] in *. do 2 eexists. split; [reflexivity|].
  split; [destruct M1 as [M1 Mp]; split; [|exact Mp]; etransitivity; [exact M1|apply set_allow_regexp_reaches]|].
  split; [|done]. split_and!; [done|done|]. cbn [with_num t_num_val]. by apply strtod_dec.
Qed.

(** *** Strings *)

Lemma loop_step {St A} (view : St -> Lexer) (body : St -> A + St) st st' a :
  body st = inr st' -> src (view st') = src (view st) -> pos (view st) < pos (view st') ->
  pos_ok (view st') -> loop body (budget (view st')) st' = Some a ->
  loop body (budget (view st)) st = Some a.
Proof.
  intros Hb Hs Hp Hp' E. unfold pos_ok in Hp'. unfold budget at 1. cbn [loop]. rewrite Hb.
  eapply loop_more; [exact E|]. unfold budget, src_len in *. rewrite Hs in *. lia.
Qed.

Lemma loop_stop {St A} (view : St -> Lexer) (body : St -> A + St) st a :
  body st = inl a -> loop body (budget (view st)) st = Some a.
Proof. intros Hb. unfold budget. cbn [loop]. by rewrite Hb. Qed.

(** The characters [quote_char] writes. *)
Lemma quote_char_cases c :
  (exists e, quote_char c = [92; e] /\ is_line_terminator e = false) \/
  (quote_char c = [c] /\ is_line_terminator c = false /\ c <> 92 /\ c <> 34 /\ c <> 39).
Proof.
  unfold quote_char, is_line_terminator.
  repeat match goal with |- context [if ?x =? ?y then _ else _] =>
    destruct (Z.eqb_spec x y); [left; eexists; split; reflexivity|] end.
  right. by split_and!.
Qed.

Lemma lex_string_body_quote q start body_start c l s :
  q = 34 \/ q = 39 -> at_text l (quote_char c ++ s) ->
  exists l', lex_string_body true q start body_start l = inr l' /\
    forward (zlen (quote_char c)) l l'.
Proof.
  intros Hq H. unfold lex_string_body.
  destruct (quote_char_cases c) as [(e & E & He)|(E & Hc & H1 & H2 & H3)]; rewrite E in H |- *;
    cbn [app] in H; rewrite (at_text_more _ _ _ H), (at_text_peek _ _ _ H); cbn [negb]; cbv zeta.
  - replace (92 =? q) with false by lia. change (92 =? 92) with true. cbv iota.
    destruct (forward_advance 92 l _ H eq_refl) as [Hf1 Ht1].
    rewrite (at_text_more _ _ _ Ht1), (at_text_peek _ _ _ Ht1).
    assert ((e =? 13) = false) as ->
      by (unfold is_line_terminator in He; by apply orb_false_elim in He as [_ ?]).
    cbn [andb]. change (is_line_terminator 92) with false. cbv iota.
    destruct (forward_advance e _ _ Ht1 He) as [Hf2 _].
    eexists. split; [reflexivity|]. change (zlen [92; e]) with (1 + 1). by eapply forward_trans.
  - replace (c =? q) with false by lia. replace (c =? 92) with false by lia. cbn [andb]. rewrite Hc.
    destruct (forward_advance c l _ H Hc) as [Hf _]. by eexists.
Qed.

Lemma lex_string_loop q start body_start txt l s :
  q = 34 \/ q = 39 -> at_text l (quote_text txt ++ q :: s) ->
  exists l', loop (lex_string_body true q start body_start) (budget l) l
      = Some (with_str (Some (unescape (text_from body_start l')))
                       (make_token_from TOK_STRING start (lexer_advance l')).1,
              (make_token_from TOK_STRING start (lexer_advance l')).2) /\
    forward (zlen (quote_text txt)) l l'.
Proof.
  intros Hq. revert l. induction txt as [|c txt IH]; intros l H.
  - exists l. split; [|split; [reflexivity|unfold quote_text; cbn [map concat]; rewrite zlen_nil; lia]].
    apply (loop_stop id). unfold lex_string_body. cbn [quote_text map concat app] in H.
    rewrite (at_text_more _ _ _ H), (at_text_peek _ _ _ H). cbn [negb]. cbv zeta.
    by rewrite Z.eqb_refl.
  - unfold quote_text in *. cbn [map concat] in *. rewrite <- app_assoc in H.
    destruct (lex_string_body_quote q start body_start c l _ Hq H) as (l1 & E1 & Hf1).
    pose proof (forward_text _ _ _ _ H Hf1) as H1.
    destruct (IH l1 H1) as (l' & E & Hf). exists l'.
    split; [|rewrite zlen_app; by eapply forward_trans].
    eapply (loop_step id); [exact E1|apply Hf1| |apply H1|exact E].
    destruct Hf1 as [_ Hp]. unfold id. rewrite Hp.
    destruct (quote_char_cases c) as [(? & -> & _)|(-> & _)]; rewrite ?zlen_cons, zlen_nil; lia.
Qed.

Lemma lexes_str re q txt l s :
  item_ok re (Str q txt) -> at_text l (item_text (Str q txt) ++ 32 :: s) -> lexes (Str q txt) l.
Proof.
  intros Hq H. cbn [item_text item_ok] in *.
  assert (at_text l (q :: quote_text txt ++ q :: 32 :: s)) as H'
    by (cbn [app] in H; by rewrite <- app_assoc in H).
  assert (is_line_terminator q = false) as Hqt by (by destruct Hq as [-> | ->]).
  pose proof (at_text_peek _ _ _ H') as Hpk.
  destruct (forward_advance q l _ H' Hqt) as [Hf1 H1].
  destruct (lex_string_loop q (pos l) (pos (lexer_advance l)) txt _ (32 :: s) Hq H1) as (l2 & E & Hf2).
  pose proof (forward_text _ _ _ _ H1 Hf2) as H2.
  destruct (forward_advance q l2 _ H2 Hqt) as [Hf3 _].
  assert (forward (zlen (q :: quote_text txt ++ [q])) l (lexer_advance l2)) as Hf.
  { rewrite zlen_cons, zlen_app. eapply forward_trans; [exact Hf1|]. by eapply forward_trans. }
  unfold lexes, lex_token. rewrite Hpk. cbv zeta.
  replace (q =? ch "#") with false by (by destruct Hq as [-> | ->]).
  replace (is_js_ident_start q) with false by (by destruct Hq as [-> | ->]).
  replace (isdigit q) with false by (by destruct Hq as [-> | ->]).
  replace ((q =? 34) || (q =? 39)) with true by lia.
  unfold lex_string. cbv zeta. rewrite E.
  rewrite (text_from_forward _ _ _ _ H1 Hf2), unescape_quote_text.
  destruct (made TOK_STRING _ l _ (32 :: s) H Hf) as (M1 & M2 & M3 & M4).
  destruct (make_token_from _ _ _) as [t l']. cbn [fst snd] in *. do 2 eexists.
  split; [reflexivity|]. split; [exact M1|]. split; [by split_and!|]. by rewrite (M4 false).
Qed.

(** *** Punctuators *)

Definition punct_lexes (e : string * LRTokType) : Prop :=
  forall l s, at_text l (chars_of e.1 ++ 32 :: s) ->
  (e.2 = TOK_DIV \/ e.2 = TOK_DIV_ASSIGN -> allow_regexp l = false) ->
  exists b, lex_token true l = Some (punct (length (chars_of e.1)) b e.2 (pos l) l).

(** Evaluate the comparisons of two constants in the goal. *)
Ltac eval_chars :=
  repeat match goal with
  | |- context [Z.pos ?a =? ?b] => let v := eval vm_compute in (Z.pos a =? b) in
      change (Z.pos a =? b) with v
  | |- context [is_js_ident_start ?a] =>
      let v := eval vm_compute in (is_js_ident_start a) in change (is_js_ident_start a) with v
  | |- context [isdigit ?a] => let v := eval vm_compute in (isdigit a) in change (isdigit a) with v
  end; cbn [andb orb negb]; cbv iota.

(** One entry of the table: read the characters it is made of. *)
Ltac punct_entry :=
  let l := fresh "l" in let s := fresh "s" in let H := fresh "H" in let Hre := fresh "Hre" in
  intros l s H Hre; cbn [fst snd chars_of app] in H, Hre |- *; chars;
  let Hp := fresh "Hp" in let Hn := fresh "Hn" in
  pose proof (at_text_peek _ _ _ H) as Hp; pose proof (at_text_next _ _ _ _ H) as Hn;
  unfold lex_token, lex_punct; cbv zeta; rewrite ?Hp, ?Hn;
  try (rewrite (Hre (or_introl eq_refl)) || rewrite (Hre (or_intror eq_refl)));
  rewrite ?andb_false_r; eval_chars;
  try (let H2 := fresh "H2" in
       match type of H with at_text _ (?a :: ?b :: ?c :: ?r) =>
         assert (lexer_peek_char (advance_by 2 l) = c) as H2
           by (apply (at_text_peek _ c r), (forward_text [a; b] l);
               [exact H|apply (forward_advance_by [a; b] l (c :: r)); [exact H|reflexivity]]);
         rewrite ?H2; rewrite ?(at_text_char l [a; b] c 2 _ r H eq_refl) end);
  try (match type of H with at_text _ (?a :: ?b :: ?c :: ?d :: ?r) =>
         rewrite ?(at_text_char l [a; b; c] d 3 _ r H eq_refl) end);
  eval_chars; eexists; reflexivity.

Lemma punct_texts_lex : Forall punct_lexes punct_texts.
Proof.
  unfold punct_texts. repeat (apply Forall_cons_2; [punct_entry|]). apply Forall_nil_2.
Qed.

Lemma punct_texts_plain :
  Forall (fun e => forallb (fun c => negb (is_line_terminator c)) (chars_of e.1) = true /\
                   regexp_after e.2 <> None) punct_texts.
Proof. repeat (apply Forall_cons_2; [split; [reflexivity|discriminate]|]). apply Forall_nil_2. Qed.

Lemma lexes_punct re txt ty l s :
  item_ok re (Punct txt ty) -> allow_regexp l = re ->
  at_text l (item_text (Punct txt ty) ++ 32 :: s) -> lexes (Punct txt ty) l.
Proof.
  intros [Hin Hre] Hl H. cbn [item_text] in H.
  pose proof punct_texts_lex as Hlex. rewrite Forall_forall in Hlex.
  pose proof punct_texts_plain as Hpl. rewrite Forall_forall in Hpl.
  destruct (Hlex _ Hin l s H) as [b E].
  { cbn [snd]. intros Hd. destruct (allow_regexp l); [|done]. subst re. by destruct Hre, Hd. }
  destruct (Hpl _ Hin) as [Hpt Hpr]. cbn [fst snd] in *.
  unfold lexes. rewrite E. unfold punct.
  pose proof (forward_advance_by _ _ _ H Hpt) as [Hf1 Hf2].
  destruct (made ty _ l (set_allow_regexp b (advance_by (length (chars_of txt)) l)) (32 :: s) H) as (M1 & M2 & M3 & M4).
  { split; [etransitivity; [exact Hf1|apply set_allow_regexp_reaches]|exact Hf2]. }
  destruct (make_token_from _ _ _) as [t l']. cbn [fst snd] in *. do 2 eexists.
  split; [reflexivity|]. split; [exact M1|]. split; [by split_and!|]. cbn [item_type].
  destruct (regexp_after ty) as [b'|]; [|done]. by rewrite (M4 b').
Qed.

(** *** A whole text *)

Lemma lexes_item re it l s :
  item_ok re it -> allow_regexp l = re -> at_text l (item_text it ++ 32 :: s) -> lexes it l.
Proof.
  intros Hok Hl H. destruct it.
  - by eapply lexes_word.
  - by eapply lexes_int.
  - by eapply lexes_str.
  - by eapply lexes_punct.
Qed.

Lemma digits_not_blank ds : Forall (fun d => 0 <= d < 10) ds ->
  match map (fun d => 48 + d) ds with
  | c :: _ => c <> 0 /\ is_blank c = false /\ c <> ch "/"
  | [] => True
  end.
Proof. intros H. destruct H as [|d ds Hd _]; [done|]. unfold is_blank. chars. cbn [map]. lia. Qed.

(** No item starts like white space or a comment. *)
Lemma item_first re it :
  item_ok re it ->
  exists c r, item_text it = c :: r /\ c <> 0 /\ is_blank c = false /\
    forall s, (c =? ch "/") = true ->
      match r ++ 32 :: s with d :: _ => d <> ch "/" /\ d <> ch "*" | [] => False end.
Proof.
  destruct it as [w|ds|q txt|txt ty]; cbn [item_ok item_text]; intros H.
  - destruct w as [|c w]; [done|]. destruct H as [H _]. exists c, w. unfold is_blank.
    unfold is_js_ident_start, isalpha in H. chars. split_and!; [done|lia|lia|]. intros s E. lia.
  - destruct H as [Hne H]. apply digits_not_blank in H.
    destruct (map _ ds) as [|c r] eqn:E; [by destruct ds|]. destruct H as (H1 & H2 & H3).
    exists c, r. split_and!; try done. intros s Ec. lia.
  - exists q, (quote_text txt ++ [q]). unfold is_blank. chars.
    split_and!; [done|lia|lia|]. intros s E. lia.
  - destruct H as [H _]. revert H. generalize txt ty. clear.
    intros txt ty H. change txt with (fst (txt, ty)). revert H. generalize (txt, ty).
    apply Forall_forall. unfold punct_texts.
    repeat (apply Forall_cons_2; [do 2 eexists; split; [reflexivity|]; split; [discriminate|];
      split; [reflexivity|]; intros s E; first [discriminate E|split; discriminate]|]).
    apply Forall_nil_2.
Qed.

(** One blank is skipped. *)
Lemma skip_one_blank l s :
  at_text l (32 :: s) ->
  match s with
  | [] => True
  | c :: r => c <> 0 /\ is_blank c = false /\
      ((c =? ch "/") = true -> match r with d :: _ => d <> ch "/" /\ d <> ch "*" | [] => False end)
  end ->
  lexer_skip_whitespace l = Some (lexer_advance l).
Proof.
  intros H Hs. destruct (forward_advance 32 l s H eq_refl) as [Hf H1].
  unfold lexer_skip_whitespace.
  assert (loop whitespace_body (budget (lexer_advance l)) (lexer_advance l)
          = Some (Some (lexer_advance l))) as E.
  { apply (loop_stop id). unfold whitespace_body. cbv zeta. destruct s as [|c r].
    - replace (lexer_peek_char (lexer_advance l)) with 0; [done|].
      unfold lexer_peek_char. pose proof (at_text_len _ _ H1) as Hl. rewrite zlen_nil in Hl.
      rewrite Z.geb_leb. by destruct (Z.leb_spec (src_len (lexer_advance l)) (pos (lexer_advance l))); [|lia].
    - rewrite (at_text_peek _ _ _ H1). destruct Hs as (H0 & Hb & Hc).
      destruct (Z.eqb_spec c 0); [done|]. rewrite Hb.
      destruct (c =? ch "/") eqn:Ec; [|done]. specialize (Hc eq_refl). destruct r as [|d r]; [done|].
      rewrite (at_text_next _ _ _ _ H1). destruct Hc as [Hd1 Hd2].
      destruct (Z.eqb_spec d (ch "/")); [done|]. by destruct (Z.eqb_spec d (ch "*")). }
  change (budget l) with (budget (id l)).
  rewrite (loop_step id whitespace_body l (lexer_advance l) (Some (lexer_advance l))); try done.
  - unfold whitespace_body. cbv zeta. by rewrite (at_text_peek _ _ _ H).
  - apply (r_src _ _ (proj1 Hf)).
  - destruct Hf as [_ Hp]. unfold id. lia.
  - apply H1.
Qed.

Lemma advance_flags l :
  allow_regexp (lexer_advance l) = allow_regexp l /\ has_peek (lexer_advance l) = has_peek l.
Proof. destruct (advance_cases l) as [[_ ->]|(_ & (? & ? & ? & ->) & _)]; done. Qed.

Lemma tokens_cons n l t l1 :
  lexer_next true l = Some (t, l1) -> t_type t <> TOK_EOF ->
  tokens (S n) l = ('(ts, l2) ← tokens n l1; Some (t :: ts, l2)).
Proof. intros E Ht. cbn [tokens]. rewrite E. by destruct (t_type t). Qed.

Lemma tokens_print its l :
  items_ok (allow_regexp l) its -> has_peek l = false -> at_text l (print_items its) ->
  exists ts e l', tokens (S (length its)) l = Some (ts ++ [e], l') /\ Forall2 shows its ts /\
    t_type e = TOK_EOF /\ pos l' = src_len l.
Proof.
  revert l. induction its as [|it its IH]; intros l Hok Hpk H.
  - exists [], (eof_token (lexer_advance l)), (lexer_advance l).
    cbn [tokens length app]. unfold lexer_next. rewrite Hpk, (skip_one_blank l [] H I).
    cbn [mbind option_bind]. destruct (forward_advance 32 l [] H eq_refl) as [Hf H1].
    pose proof (at_text_len _ _ H1) as Hl. rewrite zlen_nil in Hl. rewrite Z.geb_leb.
    destruct (Z.leb_spec (src_len (lexer_advance l)) (pos (lexer_advance l))); [|lia].
    split_and!; [done|constructor|done|]. unfold src_len in *.
    rewrite (r_src _ _ (proj1 Hf)) in Hl. lia.
  - destruct Hok as [Hit Hok]. unfold print_items in H. cbn [map concat] in H.
    rewrite <- app_assoc in H. fold (print_items its) in H.
    assert (exists s, print_items its = 32 :: s) as [s Es].
    { unfold print_items. destruct its; cbn [map concat app]; by eexists. }
    change (at_text l (32 :: item_text it ++ print_items its)) in H.
    destruct (forward_advance 32 l _ H eq_refl) as [Hf H1]. destruct (advance_flags l) as [Hre Hpk1].
    destruct (item_first _ it Hit) as (c & r & Ec & Hc0 & Hcb & Hcs).
    assert (more (lexer_advance l) = true) as Hm by (rewrite Ec in H1; by eapply at_text_more).
    apply more_pos in Hm. rewrite Es in H1.
    destruct (lexes_item _ it (lexer_advance l) s Hit Hre H1) as (t & l1 & Ht & Hf1 & Hsh & Hre1).
    assert (lexer_next true l = Some (t, l1)) as En.
    { unfold lexer_next. rewrite Hpk, (skip_one_blank l _ H).
      - cbn [mbind option_bind]. rewrite Z.geb_leb.
        by destruct (Z.leb_spec (src_len (lexer_advance l)) (pos (lexer_advance l))); [lia|].
      - rewrite Es, Ec. cbn [app]. split_and!; [done|done|]. intros Hs. apply (Hcs s Hs). }
    pose proof (forward_text _ _ _ _ H1 Hf1) as H2. rewrite <- Es in H2.
    rewrite <- Hre1 in Hok. cbn [default from_option id] in Hok.
    destruct (IH l1 Hok) as (ts & e & l' & E & Hall & He & Hp); [|exact H2|].
    { rewrite (r_peek _ _ (proj1 Hf1)), Hpk1. exact Hpk. }
    exists (t :: ts), e, l'. destruct Hsh as (Hty & Hlen & Hv). cbn [length].
    rewrite (tokens_cons _ _ _ _ En), E.
    2: { rewrite Hty. intros Eo. by rewrite Eo in Hre1. }
    split_and!; [done|by constructor|done|].
    rewrite Hp. unfold src_len. rewrite (r_src _ _ (proj1 Hf1)), (r_src _ _ (proj1 Hf)). done.
Qed.

(** ** Properties *)

(** C5: printed tokens are read back.  Any sequence of words, decimal integers,
    quoted strings and punctuators, each after a blank, is read as the same
    sequence: a word has the type of its keyword or identifier, an integer the
    nearest double, a string its bytes, a punctuator its type; a division sign
    must follow a token that ends an expression. *)
Theorem lexer_reads_printed (its : list item) :
  items_ok true its ->
  exists ts e lex,
    tokens (S (length its)) (lexer_init (print_items its)) = Some (ts ++ [e], lex) /\
    Forall2 shows its ts /\ t_type e = TOK_EOF.
Proof.
  intros Hok. destruct (tokens_print its (lexer_init (print_items its)) Hok eq_refl)
    as (ts & e & l & E & H1 & H2 & _); [split; [apply lexer_init_ok|done]|].
  by exists ts, e, l.
Qed.

(** [ let x = 123 / "it's" ] *)
Definition sample_items : list item :=
  [Word (chars_of "let"); Word (chars_of "x"); Punct "=" TOK_ASSIGN; Int [1; 2; 3];
   Punct "/" TOK_DIV; Str 34 (chars_of "it's")].

Lemma lexer_reads_printed_witness :
  items_ok true sample_items /\
  exists ts e lex,
    tokens 7 (lexer_init (print_items sample_items)) = Some (ts ++ [e], lex) /\
    Forall2 shows sample_items ts.
Proof.
  assert (items_ok true sample_items) as Hok.
  { cbn [items_ok sample_items]. split_and!; try done.
    - split; [|done]. unfold punct_texts. by repeat (try (left; reflexivity); right).
    - split; [discriminate|]. repeat (apply Forall_cons_2; [lia|]). apply Forall_nil_2.
    - split; [|discriminate]. unfold punct_texts. by repeat (try (left; reflexivity); right).
    - by left. }
  split; [exact Hok|]. destruct (lexer_reads_printed sample_items Hok) as (ts & e & l & E & H & _).
  exists ts, e, l. by split.
Defined.
