(* ===== verification/NumText.v ===== *)
(** Numbers and text in the C library, as the value operations of the engine
    use them: truncation to an integer, [fmod], [strtod] with its end pointer,
    and [printf]'s [%.17g].  The library is modelled from its documented
    behaviour, in the default rounding mode and the C locale. *)

From stdpp Require Import base list strings.
From Stdlib Require Import ZArith Lia SpecFloat Ascii.
From S2P Require Import Prelude.
From S2P Require Import LexText.
From S2P Require Import F64.

Open Scope Z_scope.

(** ** Doubles *)

Definition isinf (d : f64) : bool := match d with S754_infinity _ => true | _ => false end.
Definition signbit (d : f64) : bool :=
  match d with
  | S754_zero s | S754_infinity s | S754_finite s _ _ => s
  | S754_nan => false
  end.

(** The integer part of a finite double; [None] for an infinity or a NaN. *)
Definition trunc (d : f64) : option Z :=
  match d with
  | S754_zero _ => Some 0
  | S754_finite s m e =>
      let a := if 0 <=? e then Z.pos m * 2 ^ e else Z.pos m / 2 ^ (- e) in
      Some (if s then - a else a)
  | _ => None
  end.

(** The remainder is computed exactly and has the sign of the dividend. *)
Definition fmod (x y : f64) : f64 :=
  match x, y with
  | S754_nan, _ | _, S754_nan | S754_infinity _, _ | _, S754_zero _ => S754_nan
  | S754_zero _, _ | _, S754_infinity _ => x
  | S754_finite sx mx ex, S754_finite _ my ey =>
      let e := Z.min ex ey in
      match (Z.pos mx * 2 ^ (ex - e)) mod (Z.pos my * 2 ^ (ey - e)) with
      | Z.pos r => binary_round 53 1024 sx r e
      | _ => S754_zero sx
      end
  end.

(** ** [strtod] *)

Definition lower (c : Z) : Z := if (65 <=? c) && (c <=? 90) then c + 32 else c.

(** The text after a word, in any case. *)
Fixpoint after_word (w s : list Z) : option (list Z) :=
  match w, s with
  | [], _ => Some s
  | c :: w', d :: s' => if c =? lower d then after_word w' s' else None
  | _ :: _, [] => None
  end.

(** An exponent part: the mark, an optional sign, digits. *)
Definition exponent_part (mark : Z) (s : list Z) : Z * list Z :=
  match s with
  | c :: s1 =>
      if lower c =? mark then
        let '(neg, s2) := parse_sign s1 in
        let '(v, s3) := parse_digits 10 0 s2 in
        if zlen s3 =? zlen s2 then (0, s) else ((if neg then - v else v), s3)
      else (0, s)
  | [] => (0, [])
  end.

(** A digit sequence with an optional point: the digits as a number, how many
    follow the point, and the rest; [None] without a digit. *)
Definition mantissa_part (base : Z) (s : list Z) : option (Z * Z * list Z) :=
  let '(m, s1) := parse_digits base 0 s in
  match s1 with
  | c :: s2 =>
      if c =? ch "." then
        let '(m', s3) := parse_digits base m s2 in
        if (zlen s1 =? zlen s) && (zlen s3 =? zlen s2) then None
        else Some (m', zlen s2 - zlen s3, s3)
      else if zlen s1 =? zlen s then None else Some (m, 0, s1)
  | [] => if zlen s =? 0 then None else Some (m, 0, [])
  end.

(** [nan] may carry a parenthesized sequence of alphanumeric characters. *)
Fixpoint nan_tail (s : list Z) : option (list Z) :=
  match s with
  | c :: s' =>
      if c =? ch ")" then Some s'
      else if isalnum c || (c =? ch "_") then nan_tail s' else None
  | [] => None
  end.

Definition after_nan (s : list Z) : list Z :=
  match s with
  | c :: s' => if c =? ch "(" then default s (nan_tail s') else s
  | [] => []
  end.

Definition decimal_number (s : list Z) : option (f64 * list Z) :=
  match mantissa_part 10 s with
  | Some (m, frac, s1) =>
      let '(e, s2) := exponent_part (ch "e") s1 in Some (f64_of_decimal m (e - frac), s2)
  | None => None
  end.

Definition hex_number (s : list Z) : option (f64 * list Z) :=
  match mantissa_part 16 s with
  | Some (m, frac, s1) =>
      let '(e, s2) := exponent_part (ch "p") s1 in
      Some (binary_normalize 53 1024 m (e - 4 * frac) false, s2)
  | None => None
  end.

Definition unsigned_number (s : list Z) : option (f64 * list Z) :=
  match after_word (chars_of "infinity") s with
  | Some r => Some (S754_infinity false, r)
  | None =>
  match after_word (chars_of "inf") s with
  | Some r => Some (S754_infinity false, r)
  | None =>
  match after_word (chars_of "nan") s with
  | Some r => Some (S754_nan, after_nan r)
  | None =>
  match after_word (chars_of "0x") s with
  | Some r => match hex_number r with Some x => Some x | None => decimal_number s end
  | None => decimal_number s
  end end end end.

(** The number at the start of the text and the text after it; [None] when
    [strtod] sets its end pointer to the start. *)
Definition strtod_end (s : list Z) : option (f64 * list Z) :=
  let '(neg, s1) := parse_sign (skip_space s) in
  match unsigned_number s1 with
  | Some (d, r) => Some ((if neg then SFopp d else d), r)
  | None => None
  end.

(** ** [printf] *)

(** The decimal digits of [n], least significant first; [fuel] bounds them. *)
Fixpoint rev_digits (fuel : nat) (n : Z) : list Z :=
  match fuel with
  | O => []
  | S fuel' => if n <=? 0 then [] else (48 + n mod 10) :: rev_digits fuel' (n / 10)
  end.

(** The loop [while (un > 0) tmp[--pos] = '0' + un % 10] on a 32-bit value has
    at most ten iterations, one on a 64-bit value at most twenty. *)
Definition print_nat (n : Z) : list Z :=
  if n =? 0 then [48] else rev (rev_digits 20 n).

Definition print_int (n : Z) : list Z :=
  if n <? 0 then 45 :: print_nat (- n) else print_nat n.

(** [num / den] rounded to an integer, ties to even. *)
Definition round_div (num den : Z) : Z :=
  let q := num / den in
  let r := num mod den in
  if 2 * r <? den then q else if den <? 2 * r then q + 1
  else if Z.even q then q else q + 1.

(** The decimal exponent [x] of [num / den]: [10^x <= num/den < 10^(x+1)]. *)
Fixpoint exp10_up (fuel : nat) (x num den : Z) : Z :=
  match fuel with
  | O => x
  | S fuel' => if num <? 10 * den then x else exp10_up fuel' (x + 1) num (10 * den)
  end.
Fixpoint exp10_down (fuel : nat) (x num den : Z) : Z :=
  match fuel with
  | O => x
  | S fuel' => if den <=? num then x else exp10_down fuel' (x - 1) (10 * num) den
  end.
Definition exp10 (num den : Z) : Z :=
  if den <=? num then exp10_up 400 0 num den else exp10_down 400 0 num den.

(** The 17 significant digits and the exponent of [%.16e]. *)
Definition digits17 (num den : Z) : Z * Z :=
  let x := exp10 num den in
  let d := if 0 <=? 16 - x then round_div (num * 10 ^ (16 - x)) den
           else round_div num (den * 10 ^ (x - 16)) in
  if d =? 10 ^ 17 then (10 ^ 16, x + 1) else (d, x).

Fixpoint drop_zeros (s : list Z) : list Z :=
  match s with
  | c :: s' => if c =? 48 then drop_zeros s' else s
  | [] => []
  end.
Definition strip_zeros (s : list Z) : list Z := rev (drop_zeros (rev s)).

(** [%g] removes trailing zeros, and the point with them. *)
Definition with_point (int frac : list Z) : list Z :=
  match strip_zeros frac with
  | [] => int
  | f => int ++ ch "." :: f
  end.

Definition two_digits (n : Z) : list Z := [48 + n / 10; 48 + n mod 10].
Definition print_exponent (x : Z) : list Z :=
  ch "e" :: (if x <? 0 then ch "-" else ch "+") ::
    (if Z.abs x <? 100 then two_digits (Z.abs x) else print_nat (Z.abs x)).

(** [%.17g] of a finite double. *)
Definition print_g17 (d : f64) : list Z :=
  let sign := if signbit d then [45] else [] in
  match d with
  | S754_finite _ m e =>
      let '(num, den) := if 0 <=? e then (Z.pos m * 2 ^ e, 1) else (Z.pos m, 2 ^ (- e)) in
      let '(ds, x) := digits17 num den in
      let s := print_nat ds in
      sign ++
      (if (-4 <=? x) && (x <? 17) then
         if 0 <=? x then with_point (take (Z.to_nat (x + 1)) s) (drop (Z.to_nat (x + 1)) s)
         else with_point [48] (replicate (Z.to_nat (- x - 1)) 48 ++ s)
       else with_point (take 1 s) (drop 1 s) ++ print_exponent x)
  | _ => sign ++ [48]
  end.

(** ** Lemmas *)

Lemma rev_digits_digit fuel n : 0 <= n -> Forall (fun c => isdigit c = true) (rev_digits fuel n).
Proof.
  revert n. induction fuel as [|fuel IH]; intros n Hn; cbn [rev_digits]; [constructor|].
  case_if; [constructor|]. constructor; [|apply IH; divlia].
  unfold isdigit. pose proof (Z.mod_pos_bound n 10). lia.
Qed.

Lemma print_nat_digit n : 0 <= n -> Forall (fun c => isdigit c = true) (print_nat n).
Proof.
  intros Hn. unfold print_nat. case_if; [repeat constructor|].
  by apply Forall_rev, rev_digits_digit.
Qed.

Lemma digit_value_digit c : isdigit c = true -> digit_value c = c - 48.
Proof. intros H. unfold digit_value. by rewrite H. Qed.

Lemma parse_digits_app acc s t :
  Forall (fun c => isdigit c = true) s ->
  match t with c :: _ => 10 <= digit_value c | [] => True end ->
  parse_digits 10 acc (s ++ t) = (fold_left (fun v c => v * 10 + (c - 48)) s acc, t).
Proof.
  intros Hs Ht. revert acc. induction Hs as [|c s Hc _ IH]; intros acc; cbn [app parse_digits fold_left].
  - destruct t as [|c t]; [done|]. cbn [parse_digits].
    by destruct (Z.ltb_spec (digit_value c) 10); [lia|].
  - rewrite digit_value_digit by done. unfold isdigit in Hc. to_prop.
    destruct (Z.ltb_spec (c - 48) 10); [apply IH|lia].
Qed.

(** The digits of a number that the fuel covers read back as the number. *)
Lemma rev_digits_value fuel n :
  0 <= n < 10 ^ Z.of_nat fuel ->
  fold_left (fun v c => v * 10 + (c - 48)) (rev (rev_digits fuel n)) 0 = n.
Proof.
  revert n. induction fuel as [|fuel IH]; intros n Hn; cbn [rev_digits].
  - change (10 ^ Z.of_nat 0) with 1 in Hn. cbn. lia.
  - rewrite Nat2Z.inj_succ, Z.pow_succ_r in Hn by lia.
    destruct (Z.leb_spec n 0); [cbn; lia|]. cbn [rev].
    rewrite fold_left_app, IH by divlia. cbn [fold_left]. divlia.
Qed.

Lemma print_nat_value n :
  0 <= n < 10 ^ 20 -> fold_left (fun v c => v * 10 + (c - 48)) (print_nat n) 0 = n.
Proof.
  intros Hn. unfold print_nat. destruct (Z.eqb_spec n 0) as [->|]; [done|].
  by apply rev_digits_value.
Qed.

Lemma print_nat_cons n : 0 <= n -> exists c s, print_nat n = c :: s /\ isdigit c = true.
Proof.
  intros Hn. pose proof (print_nat_digit n Hn) as H.
  destruct (print_nat n) as [|c s] eqn:E; [|by apply Forall_inv in H; eauto].
  unfold print_nat in E. destruct (Z.eqb_spec n 0); [done|].
  apply (f_equal (@rev Z)) in E. rewrite rev_involutive in E. cbn [rev rev_digits] in E.
  by destruct (Z.leb_spec n 0); [lia|].
Qed.

(** [fmod] of converted integers is C's [%] on them, but a zero remainder
    keeps the sign of the dividend. *)
Lemma fmod_int x y :
  small_int x -> small_int y -> x <> 0 -> y <> 0 ->
  fmod (f64_of_Z x) (f64_of_Z y)
  = if Z.rem x y =? 0 then S754_zero (x <? 0) else f64_of_Z (Z.rem x y).
Proof.
  intros Hx Hy Hx0 Hy0. rewrite (f64_of_int x), (f64_of_int y) by done. cbn [fmod].
  destruct (int_form x Hx Hx0) as (Hmx & _ & Hex & Ex).
  destruct (int_form y Hy Hy0) as (Hmy & _ & Hey & Ey).
  set (e := Z.min (int_exponent x) (int_exponent y)).
  rewrite !Z2Pos.id, Ex, Ey by done. rewrite <- !Z.mul_assoc, <- !Z.pow_add_r by lia.
  replace (- int_exponent x + (int_exponent x - e)) with (- e) by lia.
  replace (- int_exponent y + (int_exponent y - e)) with (- e) by lia.
  pose proof (Z.pow_pos_nonneg 2 (- e) ltac:(lia) ltac:(lia)) as Hp.
  rewrite Zmult_mod_distr_r.
  rewrite (Z.rem_mod x y) by done.
  pose proof (Z.mod_pos_bound (Z.abs x) (Z.abs y) ltac:(lia)) as Hr.
  set (r := Z.abs x mod Z.abs y) in *.
  destruct (Z.eqb_spec (Z.sgn x * r) 0) as [E|E].
  - by replace r with 0 by (destruct x; lia).
  - assert (small_int (Z.sgn x * r)) as Hs by (unfold small_int in *; destruct x; lia).
    rewrite (f64_of_int _ Hs E), <- (normalize_int _ e Hs E) by lia.
    destruct (r * 2 ^ (- e)) as [|p|p] eqn:Ep; [nia| |nia].
    destruct x as [|x|x]; [done| |]; cbn [Z.sgn Z.ltb Z.compare] in *.
    + replace (1 * r * 2 ^ (- e)) with (Z.pos p) by lia. done.
    + replace (-1 * r * 2 ^ (- e)) with (Z.neg p) by lia. done.
Qed.

Lemma rev_digits_head fuel n :
  0 < n < 10 ^ Z.of_nat fuel ->
  exists c s, rev (rev_digits fuel n) = c :: s /\ c <> 48.
Proof.
  revert n. induction fuel as [|fuel IH]; intros n Hn; [cbn in Hn; lia|].
  rewrite Nat2Z.inj_succ, Z.pow_succ_r in Hn by lia. cbn [rev_digits].
  destruct (Z.leb_spec n 0); [lia|]. cbn [rev].
  destruct (Z.lt_ge_cases n 10) as [Hs|Hs].
  - exists (48 + n mod 10), []. rewrite Z.div_small, Z.mod_small by lia.
    split; [by destruct fuel|lia].
  - destruct (IH (n / 10)) as (c & s & E & Hc); [divlia|]. exists c, (s ++ [48 + n mod 10]).
    by rewrite E.
Qed.

(** A printed natural number: its digits, the first of them zero for 0 only. *)
Lemma print_nat_shape n :
  0 <= n < 10 ^ 20 ->
  exists c s, print_nat n = c :: s /\ Forall (fun c => isdigit c = true) (c :: s) /\
    (c = 48 -> n = 0 /\ s = []).
Proof.
  intros Hn. destruct (print_nat_cons n) as (c & s & E & _); [lia|]. exists c, s.
  split_and!; [done|rewrite <- E; apply print_nat_digit; lia|]. intros ->.
  unfold print_nat in E. destruct (Z.eqb_spec n 0) as [->|Hz]; [by injection E as <-|].
  destruct (rev_digits_head 20 n) as (c' & s' & E' & Hc'); [lia|]. congruence.
Qed.

Lemma digit_not_word c s w :
  isdigit c = true -> Forall (fun d => isalpha d = true) w -> w <> [] -> after_word w (c :: s) = None.
Proof.
  intros Hc Hw Hne. destruct w as [|d w]; [done|]. apply Forall_inv in Hw. cbn [after_word].
  unfold isdigit, isalpha, lower in *. replace ((65 <=? c) && (c <=? 90)) with false by lia.
  by destruct (Z.eqb_spec d c); [lia|].
Qed.

Lemma digits_not_hex c s :
  Forall (fun c => isdigit c = true) (c :: s) -> after_word (chars_of "0x") (c :: s) = None.
Proof.
  intros H. change (chars_of "0x") with [48; 120]. cbn [after_word]. case_if; [|done].
  destruct s as [|d s]; [done|]. apply Forall_inv_tail, Forall_inv in H.
  unfold isdigit, lower in *. cbn [after_word]. replace ((65 <=? d) && (d <=? 90)) with false by lia.
  by destruct (Z.eqb_spec 120 d); [lia|].
Qed.

Lemma unsigned_number_nat n :
  0 <= n < 10 ^ 20 -> unsigned_number (print_nat n) = Some (f64_of_decimal n 0, []).
Proof.
  intros Hn. destruct (print_nat_shape n Hn) as (c & s & E & Hd & _).
  pose proof (Forall_inv Hd) as Hc. unfold unsigned_number. rewrite E.
  rewrite !digit_not_word by (first [done|repeat constructor]). rewrite digits_not_hex by done.
  unfold decimal_number, mantissa_part. rewrite <- (app_nil_r (c :: s)) at 1.
  rewrite (parse_digits_app 0 (c :: s) []) by done. rewrite <- E, (print_nat_value n Hn).
  rewrite E. done.
Qed.

Lemma f64_of_decimal_int n : 0 <= n -> f64_of_decimal n 0 = f64_of_Z n.
Proof.
  intros Hn. unfold f64_of_decimal. destruct (Z.eqb_spec n 0) as [->|]; [done|].
  change (0 <=? 0) with true. cbv iota. by rewrite Z.pow_0_r, Z.mul_1_r.
Qed.

Lemma f64_opp_int n : small_int n -> 0 < n -> SFopp (f64_of_Z n) = f64_of_Z (- n).
Proof.
  intros Hs Hn. rewrite !f64_of_int by (unfold small_int in *; lia).
  unfold int_mantissa, int_exponent. rewrite Z.abs_opp.
  destruct (Z.ltb_spec n 0), (Z.ltb_spec (- n) 0); try lia. done.
Qed.

Lemma digit_not_space c : isdigit c = true -> isspace c = false.
Proof. unfold isdigit, isspace. lia. Qed.

Lemma strtod_int n :
  small_int n -> strtod_end (print_int n) = Some (f64_of_Z n, []).
Proof.
  intros Hn. unfold small_int in Hn. unfold print_int, strtod_end.
  destruct (Z.ltb_spec n 0) as [Hneg|Hpos].
  - change (skip_space (45 :: print_nat (- n))) with (45 :: print_nat (- n)).
    change (parse_sign (45 :: print_nat (- n))) with (true, print_nat (- n)). cbv iota beta.
    rewrite unsigned_number_nat, f64_of_decimal_int, f64_opp_int, Z.opp_involutive
      by (unfold small_int; lia). done.
  - destruct (print_nat_shape n) as (c & s & E & Hd & _); [lia|]. apply Forall_inv in Hd.
    assert (parse_sign (skip_space (print_nat n)) = (false, print_nat n)) as ->.
    { rewrite E. cbn [skip_space]. rewrite digit_not_space by done. cbn [parse_sign].
      unfold isdigit in Hd. to_prop.
      by destruct (Z.eqb_spec c (ch "-")) as [->|]; [done|];
        destruct (Z.eqb_spec c (ch "+")) as [->|]. }
    by rewrite unsigned_number_nat, f64_of_decimal_int by lia.
Qed.

(** [strtol(s, NULL, 0)] *)
Lemma strto_int n : Z.abs n < 10 ^ 20 -> strto 0 (print_int n) = n.
Proof.
  intros Hn. unfold print_int, strto.
  assert (forall k, 0 <= k < 10 ^ 20 ->
    (let '(b, s2) := parse_prefix 0 (print_nat k) in (parse_digits b 0 s2).1) = k) as H.
  { intros k Hk. destruct (print_nat_shape k Hk) as (c & s & E & Hd & Hz).
    assert (parse_prefix 0 (print_nat k) = (if c =? 48 then 8 else 10, print_nat k)) as ->.
    { rewrite E. unfold parse_prefix. change (0 =? 0) with true. rewrite orb_true_r. cbn [andb].
      destruct (Z.eqb_spec c 48) as [->|Hc]; [by destruct (Hz eq_refl) as [_ ->]|].
      destruct (Z.eqb_spec c (ch "0")) as [|_]; [done|]. by destruct s as [|? [|? ?]]. }
    destruct (Z.eqb_spec c 48) as [->|Hc]; [by destruct (Hz eq_refl) as [-> _]|].
    rewrite <- (app_nil_r (print_nat k)), parse_digits_app by (first [done|apply print_nat_digit; lia]).
    apply (print_nat_value k Hk). }
  destruct (Z.ltb_spec n 0) as [Hneg|Hpos].
  - change (parse_sign (skip_space (45 :: print_nat (- n)))) with (true, print_nat (- n)).
    specialize (H (- n) ltac:(lia)). cbv iota beta.
    destruct (parse_prefix 0 (print_nat (- n))) as [b s2]. rewrite H. lia.
  - destruct (print_nat_shape n) as (c & s & E & Hd & _); [lia|]. apply Forall_inv in Hd.
    assert (parse_sign (skip_space (print_nat n)) = (false, print_nat n)) as ->.
    { rewrite E. cbn [skip_space]. rewrite digit_not_space by done. cbn [parse_sign].
      unfold isdigit in Hd. to_prop.
      by destruct (Z.eqb_spec c (ch "-")) as [->|]; [done|];
        destruct (Z.eqb_spec c (ch "+")) as [->|]. }
    specialize (H n ltac:(lia)). by destruct (parse_prefix 0 (print_nat n)) as [b s2].
Qed.
