(* ===== verification/Base64.v ===== *)
(** [btoa] and [atob] ([src/src/lr_encoding.c]).

    The argument is a list of bytes, which the code reads as a C string: up to its
    first NUL ([cstr]).  Reading the byte behind it gives the terminator, reading
    further is [None].  The output buffers have the size the code computes;
    writing beyond them is [None] too.  Allocations succeed. *)

From stdpp Require Import base list.
From Stdlib Require Import ZArith Lia.
From S2P Require Import Prelude.
From S2P Require Import BcProgram.
From S2P Require Import LexText.

(** [A-Z a-z 0-9 + /] *)
Definition base64_table : list Z :=
  seqZ 65 26 ++ seqZ 97 26 ++ seqZ 48 10 ++ [43; 47].

(** The entries of the table that are not given are 0. *)
Definition decode_table (c : Z) : Z :=
  if (65 <=? c) && (c <=? 90) then c - 65
  else if (97 <=? c) && (c <=? 122) then c - 71
  else if (48 <=? c) && (c <=? 57) then c + 4
  else if c =? 43 then 62
  else if c =? 47 then 63
  else 0.

Definition eq_sign : Z := 61.

Definition table (i : Z) : Z := default 0 (base64_table !! Z.to_nat i).

(** [out[j++] = (char)c] in a buffer of [out_len] bytes. *)
Definition put (out_len : Z) (c : Z) (out : list Z) : option (list Z) :=
  if Z.of_nat (length out) <? out_len then Some (out ++ [u8 c]) else None.

(** [out[j] = 0] *)
Definition terminate (out_len : Z) (out : list Z) : option (list Z) :=
  if Z.of_nat (length out) <? out_len then Some out else None.

(** [input[k]] *)
Definition char_at (input : list Z) (k : nat) : option Z :=
  if (k =? length input)%nat then Some 0 else input !! k.

(** [for (size_t i = 0; i < len; i += 3)], from [input + i] on. *)
Fixpoint btoa_loop (fuel : nat) (out_len : Z) (input out : list Z) : option (list Z) :=
  match fuel, input with
  | S fuel', _ :: _ =>
      let remaining := i32 (Z.of_nat (length input)) in
      x0 ← char_at input 0;
      x1 ← (if 1 <? remaining then char_at input 1 else Some 0);
      x2 ← (if 2 <? remaining then char_at input 2 else Some 0);
      let triple := Z.lor (Z.lor (Z.shiftl x0 16) (Z.shiftl x1 8)) x2 in
      out ← put out_len (table (Z.land (Z.shiftr triple 18) 63)) out;
      out ← put out_len (table (Z.land (Z.shiftr triple 12) 63)) out;
      out ← put out_len
              (if 1 <? remaining then table (Z.land (Z.shiftr triple 6) 63) else eq_sign) out;
      out ← put out_len (if 2 <? remaining then table (Z.land triple 63) else eq_sign) out;
      btoa_loop fuel' out_len (drop 3 input) out
  | _, _ => terminate out_len out
  end.

Definition lr_btoa (input : list Z) : option (list Z) :=
  let input := cstr input in
  btoa_loop (length input) ((Z.of_nat (length input) + 2) / 3 * 4 + 1) input [].

(** [for (size_t i = 0; i < len; i += 4)], and [out[j] = 0]. *)
Fixpoint atob_loop (fuel : nat) (out_len : Z) (input out : list Z) : option (list Z) :=
  match fuel, input with
  | S fuel', _ :: _ =>
      x0 ← char_at input 0;
      x1 ← char_at input 1;
      x2 ← char_at input 2;
      x3 ← char_at input 3;
      let a := decode_table x0 in
      let b := decode_table x1 in
      let c := if x2 =? eq_sign then 0 else decode_table x2 in
      let d := if x3 =? eq_sign then 0 else decode_table x3 in
      out ← put out_len (Z.lor (Z.shiftl a 2) (Z.shiftr b 4)) out;
      out ← (if x2 =? eq_sign then Some out else put out_len (Z.lor (Z.shiftl b 4) (Z.shiftr c 2)) out);
      out ← (if x3 =? eq_sign then Some out else put out_len (Z.lor (Z.shiftl c 6) d) out);
      atob_loop fuel' out_len (drop 4 input) out
  | _, _ => terminate out_len out
  end.

Definition lr_atob (input : list Z) : option (list Z) :=
  let input := cstr input in
  atob_loop (length input) (Z.of_nat (length input) / 4 * 3 + 1) input [].

(** ** Digits *)

Definition is_byte (c : Z) : Prop := 0 <= c < 256.

Lemma table_digit i : 0 <= i < 64 ->
  decode_table (table i) = i /\ table i <> eq_sign.
Proof.
  intros Hi. assert (forallb (fun k => (decode_table (table k) =? k) && negb (table k =? eq_sign)) (seqZ 0 64) = true)
    as H by reflexivity.
  rewrite forallb_forall in H. specialize (H i). rewrite <- list_elem_of_In, elem_of_seqZ in H.
  specialize (H ltac:(lia)). to_prop. lia.
Qed.

Lemma digit_range x k : 0 <= Z.land (Z.shiftr x k) 63 < 64.
Proof. rewrite land_63. apply Z.mod_pos_bound. lia. Qed.

(** The three bytes of four digits. *)
Definition byte0 (i0 i1 : Z) : Z := u8 (Z.lor (Z.shiftl i0 2) (Z.shiftr i1 4)).
Definition byte1 (i1 i2 : Z) : Z := u8 (Z.lor (Z.shiftl i1 4) (Z.shiftr i2 2)).
Definition byte2 (i2 i3 : Z) : Z := u8 (Z.lor (Z.shiftl i2 6) i3).

Lemma triple_digits a b c : is_byte a -> is_byte b -> is_byte c ->
  let t := Z.lor (Z.lor (Z.shiftl a 16) (Z.shiftl b 8)) c in
  let d k := Z.land (Z.shiftr t k) 63 in
  byte0 (d 18) (d 12) = a /\ byte1 (d 12) (d 6) = b /\ byte2 (d 6) (d 0) = c.
Proof.
  intros Ha Hb Hc t d. unfold is_byte in *.
  assert (t = a * 65536 + b * 256 + c) as Ht.
  { unfold t. rewrite !Z.shiftl_mul_pow2 by lia.
    rewrite (lor_low 16 a (b * 2 ^ 8)) by lia.
    replace (a * 2 ^ 16 + b * 2 ^ 8) with ((a * 256 + b) * 2 ^ 8) by lia. rewrite lor_low by lia. lia. }
  clearbody t. subst t.
  assert (forall k, 0 <= k -> d k = (a * 65536 + b * 256 + c) / 2 ^ k mod 64) as Hd
    by (intros k Hk; unfold d; by rewrite land_63, Z.shiftr_div_pow2).
  unfold byte0, byte1, byte2, u8.
  rewrite !Hd by lia. clear Hd d. rewrite !Z.shiftl_mul_pow2, !Z.shiftr_div_pow2 by lia.
  rewrite !lor_low by (lia || (Z.to_euclidean_division_equations; lia)).
  repeat split; Z.to_euclidean_division_equations; lia.
Qed.

(** Digit number [k / 6] from the right of a triple. *)
Definition digit (a b c k : Z) : Z :=
  Z.land (Z.shiftr (Z.lor (Z.lor (Z.shiftl a 16) (Z.shiftl b 8)) c) k) 63.

Lemma digit_table a b c k : decode_table (table (digit a b c k)) = digit a b c k /\ (table (digit a b c k) =? eq_sign) = false.
Proof.
  destruct (table_digit (digit a b c k)) as [H1 H2]; [apply digit_range|]. split; [done|]. by apply Z.eqb_neq.
Qed.

(** The text of Base64. *)
Fixpoint base64 (input : list Z) : list Z :=
  match input with
  | a :: b :: c :: rest =>
      [table (digit a b c 18); table (digit a b c 12); table (digit a b c 6);
       table (digit a b c 0)] ++ base64 rest
  | [a; b] =>
      [table (digit a b 0 18); table (digit a b 0 12); table (digit a b 0 6); eq_sign]
  | [a] => [table (digit a 0 0 18); table (digit a 0 0 12); eq_sign; eq_sign]
  | [] => []
  end.

Lemma u8_table i : 0 <= i < 64 -> u8 (table i) = table i /\ table i <> 0.
Proof.
  intros Hi. assert (forallb (fun k => (u8 (table k) =? table k) && negb (table k =? 0)) (seqZ 0 64)
    = true) as H by reflexivity.
  rewrite forallb_forall in H. specialize (H i). rewrite <- list_elem_of_In, elem_of_seqZ in H.
  specialize (H ltac:(lia)). to_prop. lia.
Qed.

Lemma u8_digit a b c k : u8 (table (digit a b c k)) = table (digit a b c k).
Proof. apply u8_table, digit_range. Qed.

Lemma put_ok out_len c out : Z.of_nat (length out) < out_len -> put out_len c out = Some (out ++ [u8 c]).
Proof. intros H. unfold put. by rewrite (proj2 (Z.ltb_lt _ _) H). Qed.

(** The buffer has room. *)
Ltac room := rewrite ?length_app; cbn [length app] in *; Z.to_euclidean_division_equations; lia.

(** Four characters are decoded. *)
Lemma atob_four f out_len x0 x1 x2 x3 rest out : Z.of_nat (length out) + 3 <= out_len ->
  atob_loop (S f) out_len (x0 :: x1 :: x2 :: x3 :: rest) out
    = atob_loop f out_len rest
        (out ++ [byte0 (decode_table x0) (decode_table x1)]
         ++ (if x2 =? eq_sign then [] else [byte1 (decode_table x1) (decode_table x2)])
         ++ (if x3 =? eq_sign then [] else
               [byte2 (if x2 =? eq_sign then 0 else decode_table x2) (decode_table x3)])).
Proof.
  intros Hl. cbn [atob_loop]. unfold char_at. cbn [length Nat.eqb lookup list_lookup].
  cbn [mbind option_bind]. cbv zeta. fold (byte0 (decode_table x0) (decode_table x1)).
  rewrite (put_ok _ _ out) by lia. cbn [mbind option_bind].
  destruct (x2 =? eq_sign); [|rewrite put_ok by (rewrite length_app; cbn; lia)]; cbn [mbind option_bind];
    (destruct (x3 =? eq_sign); [|rewrite put_ok by (rewrite !length_app; cbn; lia)]); cbn [mbind option_bind drop];
    by rewrite <- ?app_assoc.
Qed.

(** Four characters are written. *)
Lemma put_four out_len c0 c1 c2 c3 out (k : list Z -> option (list Z)) :
  Z.of_nat (length out) + 4 <= out_len ->
  (out ← put out_len c0 out; out ← put out_len c1 out; out ← put out_len c2 out;
   out ← put out_len c3 out; k out) = k (out ++ [u8 c0; u8 c1; u8 c2; u8 c3]).
Proof.
  intros Hl. rewrite (put_ok _ c0) by lia. cbn [mbind option_bind].
  rewrite (put_ok _ c1) by room. cbn [mbind option_bind].
  rewrite (put_ok _ c2) by room. cbn [mbind option_bind].
  rewrite (put_ok _ c3) by room. cbn [mbind option_bind]. by rewrite <- !app_assoc.
Qed.

Lemma terminate_ok out_len out : Z.of_nat (length out) < out_len -> terminate out_len out = Some out.
Proof. intros H. unfold terminate. by rewrite (proj2 (Z.ltb_lt _ _) H). Qed.

(** [btoa] writes that text, inside its buffer. *)
Lemma btoa_loop_base64 n input :
  (length input <= n)%nat -> Z.of_nat (length input) < 2 ^ 31 ->
  forall f out_len out, (length input <= f)%nat ->
  Z.of_nat (length out) + 4 * ((Z.of_nat (length input) + 2) / 3) < out_len ->
  btoa_loop f out_len input out = Some (out ++ base64 input).
Proof.
  revert input. induction n as [|n IH]; intros input Hn Hi f out_len out Hf Hl.
  { destruct input; [|cbn in Hn; lia]. destruct f; cbn [btoa_loop base64];
      by rewrite terminate_ok, app_nil_r by room. }
  destruct input as [|a [|b [|c rest]]]; (destruct f as [|f]; [try (cbn in Hf; lia)|]);
    cbn [btoa_loop base64]; cbv zeta; try (by rewrite terminate_ok, app_nil_r by room).
  - change (Z.of_nat (length [a])) with 1 in *. change (1 <? i32 1) with false.
    change (2 <? i32 1) with false. change (char_at [a] 0) with (Some a).
    cbn [mbind option_bind]. rewrite put_four by room. cbn [drop].
    change (Z.land (Z.shiftr ?t 18) 63) with (digit a 0 0 18).
    change (Z.land (Z.shiftr ?t 12) 63) with (digit a 0 0 12). rewrite !u8_digit.
    change (u8 eq_sign) with eq_sign. destruct f; cbn [btoa_loop]; by rewrite terminate_ok by room.
  - change (Z.of_nat (length [a; b])) with 2 in *. change (1 <? i32 2) with true.
    change (2 <? i32 2) with false. change (char_at [a; b] 0) with (Some a).
    change (char_at [a; b] 1) with (Some b).
    cbn [mbind option_bind]. rewrite put_four by room. cbn [drop].
    change (Z.land (Z.shiftr ?t 18) 63) with (digit a b 0 18).
    change (Z.land (Z.shiftr ?t 12) 63) with (digit a b 0 12).
    change (Z.land (Z.shiftr ?t 6) 63) with (digit a b 0 6). rewrite !u8_digit.
    change (u8 eq_sign) with eq_sign. destruct f; cbn [btoa_loop]; by rewrite terminate_ok by room.
  - rewrite i32_small by lia.
    rewrite !(proj2 (Z.ltb_lt _ _)) by (cbn [length]; lia). unfold char_at.
    cbn [length Nat.eqb lookup list_lookup mbind option_bind]. cbn [length] in *.
    assert ((Z.of_nat (S (S (S (length rest)))) + 2) / 3 = (Z.of_nat (length rest) + 2) / 3 + 1) as Hdiv
      by (rewrite <- Z.div_add by lia; f_equal; lia).
    rewrite Hdiv in Hl. pose proof (Z.div_pos (Z.of_nat (length rest) + 2) 3 ltac:(lia) ltac:(lia)).
    rewrite put_four by lia. cbn [drop]. rewrite drop_0.
    rewrite IH by (rewrite ?length_app; cbn [length]; lia).
    rewrite <- app_assoc. cbn [app]. unfold digit. rewrite Z.shiftr_0_r.
    fold (digit a b c 18) (digit a b c 12) (digit a b c 6). rewrite !u8_digit.
    pose proof (u8_digit a b c 0) as E0. unfold digit in E0. rewrite Z.shiftr_0_r in E0.
    by rewrite E0.
Qed.

Lemma atob_end f out_len out : Z.of_nat (length out) < out_len -> atob_loop f out_len [] out = Some out.
Proof. intros H. destruct f; cbn [atob_loop]; by apply terminate_ok. Qed.

Lemma atob_base64 n input : (length input <= n)%nat -> Forall is_byte input ->
  forall g out_len out, (length input <= g)%nat ->
  Z.of_nat (length out) + 3 * ((Z.of_nat (length input) + 2) / 3) < out_len ->
  atob_loop g out_len (base64 input) out = Some (out ++ input).
Proof.
  revert input. induction n as [|n IH]; intros input Hn Hb g out_len out Hg Hl.
  { destruct input; [|cbn in Hn; lia]. cbn [base64]. by rewrite atob_end, app_nil_r by room. }
  destruct input as [|a [|b [|c rest]]]; cbn [base64].
  - by rewrite atob_end, app_nil_r by room.
  - destruct g; [cbn in Hg; lia|]. apply Forall_cons in Hb as [Ha _].
    rewrite atob_four by room. rewrite !(proj1 (digit_table _ _ _ _)).
    destruct (triple_digits a 0 0) as (H0 & _ & _); [done|split; lia|split; lia|].
    rewrite Z.eqb_refl. cbn [app]. unfold digit. cbv zeta in H0. rewrite H0.
    rewrite atob_end; [done|room].
  - destruct g; [cbn in Hg; lia|]. apply Forall_cons in Hb as [Ha Hb]. apply Forall_cons in Hb as [Hb _].
    rewrite atob_four by room. rewrite !(proj1 (digit_table _ _ _ _)), (proj2 (digit_table _ _ _ _)).
    destruct (triple_digits a b 0) as (H0 & H1 & _); [done|done|split; lia|].
    rewrite Z.eqb_refl. cbn [app]. unfold digit. cbv zeta in H0, H1. rewrite H0, H1.
    rewrite atob_end; [done|room].
  - destruct g; [cbn in Hg; lia|]. cbn [length] in *.
    apply Forall_cons in Hb as [Ha Hb]. apply Forall_cons in Hb as [Hb Hc]. apply Forall_cons in Hc as [Hc Hr].
    assert ((Z.of_nat (S (S (S (length rest)))) + 2) / 3 = (Z.of_nat (length rest) + 2) / 3 + 1) as Hdiv
      by (rewrite <- Z.div_add by lia; f_equal; lia).
    rewrite Hdiv in Hl. pose proof (Z.div_pos (Z.of_nat (length rest) + 2) 3 ltac:(lia) ltac:(lia)).
    cbn [app]. rewrite atob_four by lia.
    rewrite !(proj1 (digit_table _ _ _ _)), !(proj2 (digit_table _ _ _ _)).
    destruct (triple_digits a b c Ha Hb Hc) as (H0 & H1 & H2). unfold digit. cbv zeta in H0, H1, H2.
    rewrite H0, H1, H2. rewrite IH; [by rewrite <- !app_assoc|lia|done|lia|].
    rewrite !length_app. cbn [length]. lia.
Qed.

Lemma base64_length n input : (length input <= n)%nat ->
  Z.of_nat (length (base64 input)) = 4 * ((Z.of_nat (length input) + 2) / 3).
Proof.
  revert input. induction n as [|n IH]; intros [|a [|b [|c rest]]] Hn; cbn [length] in *; try lia;
    try done.
  cbn [base64 app length]. rewrite !Nat2Z.inj_succ, IH by lia.
  replace (Z.succ (Z.succ (Z.succ (Z.of_nat (length rest)))) + 2)
    with (Z.of_nat (length rest) + 2 + 1 * 3) by lia.
  rewrite Z.div_add by lia. lia.
Qed.

Lemma base64_nonzero n input : (length input <= n)%nat -> Forall (fun c => c <> 0) (base64 input).
Proof.
  assert (forall a b c k, table (digit a b c k) <> 0) as Hd
    by (intros; apply u8_table, digit_range).
  revert input. induction n as [|n IH]; intros [|a [|b [|c rest]]] Hn; cbn [length] in *; try lia;
    cbn [base64 app]; repeat (apply Forall_cons_2; [done|]); try apply Forall_nil_2.
  apply IH. lia.
Qed.

(** ** Theorems *)

(** C15: [atob] takes back what [btoa] wrote.  On every byte string [btoa] reads
    the bytes before the first NUL; when these are fewer than 2^31, the range of
    [remaining], it writes their Base64 text, and [atob] of that text gives those
    bytes back, both inside their buffers, the terminator included. *)
Theorem atob_btoa (input : list Z) :
  Forall is_byte input -> Z.of_nat (length (cstr input)) < 2 ^ 31 ->
  exists text, lr_btoa input = Some text /\ lr_atob text = Some (cstr input).
Proof.
  intros Hb Hl. exists (base64 (cstr input)). unfold lr_btoa, lr_atob. cbv zeta.
  rewrite (cstr_nonzero (base64 _)) by by eapply base64_nonzero.
  rewrite (base64_length _ (cstr input) (le_n _)).
  set (k := (Z.of_nat (length (cstr input)) + 2) / 3).
  assert (Z.of_nat (length (cstr input)) <= 3 * k) by (unfold k; Z.to_euclidean_division_equations; lia).
  split; [rewrite (btoa_loop_base64 (length (cstr input))); [done|lia|done|lia|cbn [length]; lia]|].
  pose proof (base64_length _ (cstr input) (le_n _)) as Hlen.
  rewrite (atob_base64 (length (cstr input))); [done|lia| |fold k in Hlen; lia|].
  - unfold cstr. by apply Forall_take.
  - rewrite (Z.mul_comm 4), Z.div_mul by lia. fold k. cbn [length]. lia.
Qed.

(** A string whose length is no multiple of four makes [atob] read behind the
    terminator, or write behind its buffer. *)
Lemma atob_overflows x0 x1 x2 :
  x0 <> 0 -> x1 <> 0 -> x2 <> 0 ->
  lr_atob [x0] = None /\ lr_atob [x0; x1] = None /\ lr_atob [x0; x1; x2] = None.
Proof.
  intros H0 H1 H2. unfold lr_atob. cbv zeta.
  rewrite !cstr_nonzero by (repeat apply Forall_cons_2; done || apply Forall_nil_2).
  split; [done|]. split; [done|]. cbn -[Z.lor Z.shiftl Z.shiftr decode_table Z.eqb put].
  change (0 =? eq_sign) with false. cbn [put length]. unfold put at 1. cbn [length Z.ltb]. cbn.
  destruct (x2 =? eq_sign); done.
Qed.

Lemma atob_btoa_witness :
  Forall is_byte [104; 105; 33; 255; 0; 7] /\
  lr_btoa [104; 105; 33; 255; 0; 7] = Some [97; 71; 107; 104; 47; 119; 61; 61] /\
  exists text, lr_btoa [104; 105; 33; 255; 0; 7] = Some text /\
    lr_atob text = Some (cstr [104; 105; 33; 255; 0; 7]).
Proof.
  split; [repeat constructor; by compute|]. split; [reflexivity|].
  apply (atob_btoa [104; 105; 33; 255; 0; 7]); [repeat constructor; by compute|cbn; lia].
Defined.
