(* ===== verification/Promise.v ===== *)
(** Promises and the job queue: [src/src/lr_promise.c], the queue of
    [src/src/engine/lr_engine.c], and the two places of
    [src/src/engine/lr_interp.c] that make and await promises.

    Promises, arrays and the records of [Promise.all] live in a store, addressed
    by number in order of creation, so that aliasing is the code's.  A C function
    object with its captured data is a constructor of [func].  A call that may
    run any other function takes the call as an argument, and [lr_call] ties the
    knot; its fuel bounds the nesting of calls.  Functions of the script are
    programs over the same operations ([script]), [await] among them, which runs
    the jobs of the queue inside the call that awaits; what they return is what
    [lr_call] of them returns.  [ran] is a ghost: the log of the jobs whose
    functions have been called, which nothing reads.  Allocations succeed, reference counts are left
    out, and the built-in prototypes are not changed by the script. *)

From stdpp Require Import base list strings.
From Stdlib Require Import ZArith Lia.
From S2P Require Import Prelude.

(** ** Values *)

Inductive value :=
  | Undefined
  | Exception                       (* LR_VALUE_EXCEPTION *)
  | Prim (n : Z)                    (* a primitive of the script *)
  | Text (s : string)               (* a string made here *)
  | TypeError (msg : string)        (* an error object made here *)
  | PromiseObj (p : nat)
  | ArrayObj (a : nat)
  | Entry (status : string) (v : value)   (* {status, value} or {status, reason} *)
  | Obj (o : nat)                   (* any other object of the script *)
  | Func (f : func)
with func :=
  | F_user (id : nat)
  | F_resolve (p : nat)             (* promise_resolve_func *)
  | F_reject (p : nat)
  | F_identity
  | F_thrower
  | F_finally (is_fulfill : bool) (on_finally : value)
  | F_all_fulfill (pad index : nat) (resolve : value)
  | F_all_reject (pad : nat)
  | F_then
  | F_catch
  | F_finally_method
  | F_static_resolve
  | F_static_reject
  | F_all
  | F_race
  | F_all_settled
  | F_any.

Inductive PromiseState := PENDING | FULFILLED | REJECTED.

Record LRPromiseReaction := MkReaction {
  r_handler : value;
  r_resolve : value;
  r_reject : value;
  r_promise : value
}.

(** [has_proto]: the object has been given [Promise.prototype]. *)
Record LRPromiseData := MkPromise {
  p_state : PromiseState;
  p_result : value;
  p_has_handler : bool;
  p_fulfill : list LRPromiseReaction;
  p_reject : list LRPromiseReaction;
  p_proto : bool
}.

Record PromiseAllData := MkAll {
  a_remaining : Z;
  a_total : nat;
  a_result_arr : nat;
  a_reject_fn : value;
  a_rejected : bool
}.

(** A function in the queue: [promiseFulfillReaction] or [promiseRejectReaction]
    with the [JobData] it captures, which nothing else refers to, or a function of
    the script. *)
Inductive job :=
  | JobData (handler v resolve reject : value)
  | JobFunc (f : value).

Record State := MkState {
  promises : list LRPromiseData;
  arrays : list (list value);
  alls : list PromiseAllData;
  jobs : list job;                 (* rt->job_list *)
  exc : value;                     (* ctx->current_exception *)
  ran : list job                   (* the jobs run so far, oldest first *)
}.

Definition is_exception (v : value) : bool := match v with Exception => true | _ => false end.
Definition is_function (v : value) : bool := match v with Func _ => true | _ => false end.
Definition is_object (v : value) : bool :=
  match v with
  | TypeError _ | PromiseObj _ | ArrayObj _ | Entry _ _ | Obj _ | Func _ => true
  | _ => false
  end.
Definition is_pending (pd : LRPromiseData) : bool :=
  match p_state pd with PENDING => true | _ => false end.

(** [argv[i]], undefined when there are not so many. *)
Definition arg (i : nat) (args : list value) : value := default Undefined (args !! i).

(** ** Steps *)

Definition M (A : Type) : Type := State -> option (A * State).

#[export] Instance M_ret : MRet M := fun A a s => Some (a, s).
#[export] Instance M_bind : MBind M := fun A B f m s =>
  match m s with Some (a, s') => f a s' | None => None end.

Definition gets {A} (f : State -> A) : M A := fun s => Some (f s, s).
Definition modify (f : State -> State) : M unit := fun s => Some (tt, f s).

Definition with_promises (ps : list LRPromiseData) (s : State) : State :=
  MkState ps (arrays s) (alls s) (jobs s) (exc s) (ran s).
Definition with_arrays (l : list (list value)) (s : State) : State :=
  MkState (promises s) l (alls s) (jobs s) (exc s) (ran s).
Definition with_alls (l : list PromiseAllData) (s : State) : State :=
  MkState (promises s) (arrays s) l (jobs s) (exc s) (ran s).
Definition with_jobs (l : list job) (s : State) : State :=
  MkState (promises s) (arrays s) (alls s) l (exc s) (ran s).
Definition with_exc (v : value) (s : State) : State :=
  MkState (promises s) (arrays s) (alls s) (jobs s) v (ran s).
Definition log_job (j : job) (s : State) : State :=
  MkState (promises s) (arrays s) (alls s) (jobs s) (exc s) (ran s ++ [j]).

Definition get_promise (p : nat) : M (option LRPromiseData) := gets (fun s => promises s !! p).
Definition alter_promise (f : LRPromiseData -> LRPromiseData) (p : nat) : M unit :=
  modify (fun s => with_promises (alter f p (promises s)) s).

Definition lr_throw_type_error (msg : string) : M value :=
  modify (with_exc (TypeError msg));; mret Exception.
Definition lr_get_exception : M value := gets exc.

(** *** The job queue *)

Definition lr_is_job_pending : M bool := gets (fun s => negb (bool_decide (jobs s = []))).
Definition lr_enqueue_job (f : job) : M unit := modify (fun s => with_jobs (jobs s ++ [f]) s).

(** *** Promises *)

Definition lr_new_promise (proto : bool) : M nat := fun s =>
  Some (length (promises s),
        with_promises (promises s ++ [MkPromise PENDING Undefined false [] [] proto]) s).

Definition set_state (st : PromiseState) (v : value) (pd : LRPromiseData) : LRPromiseData :=
  MkPromise st v (p_has_handler pd) (p_fulfill pd) (p_reject pd) (p_proto pd).
Definition clear_reactions (pd : LRPromiseData) : LRPromiseData :=
  MkPromise (p_state pd) (p_result pd) (p_has_handler pd) [] [] (p_proto pd).
Definition mark_handled (pd : LRPromiseData) : LRPromiseData :=
  MkPromise (p_state pd) (p_result pd) true (p_fulfill pd) (p_reject pd) (p_proto pd).
Definition add_reactions (f r : LRPromiseReaction) (pd : LRPromiseData) : LRPromiseData :=
  MkPromise (p_state pd) (p_result pd) (p_has_handler pd) (p_fulfill pd ++ [f])
    (p_reject pd ++ [r]) (p_proto pd).

(** The job function of a reaction, with the data it captures. *)
Definition job_of (v : value) (r : LRPromiseReaction) : job :=
  JobData (r_handler r) v (r_resolve r) (r_reject r).

Definition lr_promise_trigger_reaction (r : LRPromiseReaction) (v : value) : M unit :=
  lr_enqueue_job (job_of v r).

Fixpoint trigger_all (rs : list LRPromiseReaction) (v : value) : M unit :=
  match rs with
  | [] => mret tt
  | r :: rs' => lr_promise_trigger_reaction r v;; trigger_all rs' v
  end.

(** The part behind the label [trigger]. *)
Definition trigger (p : nat) : M unit :=
  o ← get_promise p;
  match o with
  | None => mret tt
  | Some pd =>
      trigger_all (match p_state pd with FULFILLED => p_fulfill pd | _ => p_reject pd end)
        (p_result pd);;
      alter_promise clear_reactions p
  end.

Definition lr_promise_reject_internal (p : nat) (reason : value) : M unit :=
  o ← get_promise p;
  match o with
  | Some pd =>
      if is_pending pd then alter_promise (set_state REJECTED reason) p;; trigger p else mret tt
  | None => mret tt
  end.

(** ** Functions of the script *)

(** Programs over the operations a function of the script has. *)
Inductive script :=
  | Ret (v : value)
  | Throwing (v : value) (k : script)          (* ctx->current_exception = v *)
  | Call (f this : value) (args : list value) (k : value -> script)
  | New (executor : value) (k : value -> script)       (* new Promise(executor) *)
  | Async (thrown : option value) (result : value) (k : value -> script)
      (* an async function came to its end *)
  | Micro (f : value) (k : value -> script)    (* queueMicrotask(f) *)
  | Await (v : value) (k : value + value -> script).   (* [inr]: [await] throws *)

Section promise.
(** The bodies of the script's functions; the property [then] of an object that
    is no promise; the items of an object used as an array. *)
Context (user : nat -> value -> list value -> script).
Context (then_prop : value -> value).
Context (array_like : value -> list value).

(** [lr_get_property_str(value, "then")] *)
Definition get_then (v : value) : M value :=
  match v with
  | PromiseObj p =>
      o ← get_promise p;
      mret (match o with Some pd => if p_proto pd then Func F_then else Undefined | None => Undefined end)
  | _ => mret (then_prop v)
  end.

Section bodies.
(** [lr_call(ctx, func, this_val, argc, argv)] *)
Context (call : value -> value -> list value -> M value).

Definition lr_promise_resolve_internal (p : nat) (v : value) : M unit :=
  o ← get_promise p;
  match o with
  | None => mret tt
  | Some pd =>
      if negb (is_pending pd) then mret tt
      else if match v with PromiseObj q => (q =? p)%nat | _ => false end then
        alter_promise (set_state REJECTED (Text "Chaining cycle detected for promise")) p;;
        trigger p
      else
        then_val ← (if is_object v then get_then v else mret Undefined);
        if is_function then_val then
          r ← call then_val v [Func (F_resolve p); Func (F_reject p)];
          if is_exception r then
            alter_promise (set_state REJECTED r) p;; trigger p
          else mret tt
        else
          alter_promise (set_state FULFILLED v) p;; trigger p
  end.

Definition js_promise_constructor (executor : value) : M value :=
  p ← lr_new_promise true;
  if negb (is_function executor) then
    lr_throw_type_error "Promise resolver undefined is not a function"
  else
    r ← call executor Undefined [Func (F_resolve p); Func (F_reject p)];
    (if is_exception r then lr_promise_reject_internal p r else mret tt);;
    mret (PromiseObj p).

Definition js_promise_then (this : value) (args : list value) : M value :=
  match this with
  | PromiseObj q =>
      let on_fulfilled := if is_function (arg 0 args) then arg 0 args else Func F_identity in
      let on_rejected := if is_function (arg 1 args) then arg 1 args else Func F_thrower in
      d ← lr_new_promise true;
      let fulfill_reaction :=
        MkReaction on_fulfilled (Func (F_resolve d)) (Func (F_reject d)) (PromiseObj d) in
      let reject_reaction :=
        MkReaction on_rejected (Func (F_resolve d)) (Func (F_reject d)) (PromiseObj d) in
      o ← get_promise q;
      match o with
      | None => mret Undefined
      | Some pd =>
          alter_promise mark_handled q;;
          match p_state pd with
          | PENDING => alter_promise (add_reactions fulfill_reaction reject_reaction) q
          | FULFILLED => lr_promise_trigger_reaction fulfill_reaction (p_result pd)
          | REJECTED => lr_promise_trigger_reaction reject_reaction (p_result pd)
          end;;
          mret (PromiseObj d)
      end
  | _ => lr_throw_type_error "Method Promise.prototype.then called on incompatible receiver"
  end.

Definition js_promise_catch (this : value) (args : list value) : M value :=
  match this with
  | PromiseObj _ => js_promise_then this [Undefined; arg 0 args]
  | _ => lr_throw_type_error "Method Promise.prototype.catch called on incompatible receiver"
  end.

Definition finally_wrapper (is_fulfill : bool) (on_finally : value) (args : list value) : M value :=
  r ← call on_finally Undefined [];
  if is_exception r then lr_get_exception
  else if is_fulfill then mret (arg 0 args)
  else lr_throw_type_error "finally rejected".

Definition js_promise_finally (this : value) (args : list value) : M value :=
  match this with
  | PromiseObj _ =>
      let on_finally := arg 0 args in
      if negb (is_function on_finally) then js_promise_then this args
      else js_promise_then this [Func (F_finally true on_finally); Func (F_finally false on_finally)]
  | _ => lr_throw_type_error "Method Promise.prototype.finally called on incompatible receiver"
  end.

(** [job_fulfill_reaction] and [job_reject_reaction]. *)
Definition job_reaction (handler v resolve reject : value) : M value :=
  r ← call handler Undefined [v];
  (if is_exception r then e ← lr_get_exception; call reject Undefined [e]
   else call resolve Undefined [r]);;
  mret Undefined.

(** *** Static methods *)

(** A promise settled from the start. *)
Definition settled_promise (st : PromiseState) (v : value) : M value :=
  p ← lr_new_promise true;
  alter_promise (set_state st v) p;;
  mret (PromiseObj p).

Definition js_promise_resolve (args : list value) : M value :=
  match arg 0 args with
  | PromiseObj p => mret (PromiseObj p)
  | v => settled_promise FULFILLED v
  end.

Definition js_promise_reject (args : list value) : M value :=
  settled_promise REJECTED (arg 0 args).

Definition lr_new_array (items : list value) : M nat := fun s =>
  Some (length (arrays s), with_arrays (arrays s ++ [items]) s).

Definition get_array (a : nat) : M (list value) := gets (fun s => default [] (arrays s !! a)).
Definition get_item (a i : nat) : M value := l ← get_array a; mret (default Undefined (l !! i)).
Definition alter_array (f : list value -> list value) (a : nat) : M unit :=
  modify (fun s => with_arrays (alter f a (arrays s)) s).

(** An element written; an array grows as needed. *)
Definition set_item (i : nat) (v : value) (l : list value) : list value :=
  <[i := v]> (l ++ replicate (S i - length l) Undefined).

(** "Convert iterable to array" *)
Definition to_array (iterable : value) : M nat :=
  match iterable with
  | ArrayObj a => mret a
  | v => lr_new_array (if is_object v then array_like v else [])
  end.

Definition get_all (pad : nat) : M (option PromiseAllData) := gets (fun s => alls s !! pad).
Definition alter_all (f : PromiseAllData -> PromiseAllData) (pad : nat) : M unit :=
  modify (fun s => with_alls (alter f pad (alls s)) s).
Definition new_all (d : PromiseAllData) : M nat := fun s =>
  Some (length (alls s), with_alls (alls s ++ [d]) s).

Definition promise_all_fulfill (pad index : nat) (resolve : value) (args : list value) : M value :=
  o ← get_all pad;
  match o with
  | None => mret Undefined
  | Some pd =>
      if a_rejected pd then mret Undefined
      else
        alter_array (set_item index (arg 0 args)) (a_result_arr pd);;
        let remaining := a_remaining pd - 1 in
        alter_all (fun pd => MkAll remaining (a_total pd) (a_result_arr pd) (a_reject_fn pd)
                                   (a_rejected pd)) pad;;
        if remaining <=? 0 then
          alter_array (resize (a_total pd) Undefined) (a_result_arr pd);;
          call resolve Undefined [ArrayObj (a_result_arr pd)];;
          mret Undefined
        else mret Undefined
  end.

Definition promise_all_reject (pad : nat) (args : list value) : M value :=
  o ← get_all pad;
  match o with
  | None => mret Undefined
  | Some pd =>
      if a_rejected pd then mret Undefined
      else
        alter_all (fun pd => MkAll (a_remaining pd) (a_total pd) (a_result_arr pd) (a_reject_fn pd)
                                   true) pad;;
        call (a_reject_fn pd) Undefined [arg 0 args];;
        mret Undefined
  end.

(** One element of [Promise.all]. *)
Definition all_item (arr pad : nat) (resolve : value) (i : nat) : M unit :=
  item ← get_item arr i;
  prom_item ← (match item with
               | PromiseObj q => mret (PromiseObj q)
               | _ => call (Func F_static_resolve) Undefined [item]
               end);
  then_val ← get_then prom_item;
  if is_function then_val then
    call then_val prom_item [Func (F_all_fulfill pad i resolve); Func (F_all_reject pad)];;
    mret tt
  else mret tt.

Fixpoint each_item (f : nat -> M unit) (i n : nat) : M unit :=
  match n with
  | O => mret tt
  | S n' => f i;; each_item f (S i) n'
  end.

Definition js_promise_all (args : list value) : M value :=
  p ← lr_new_promise true;
  arr ← to_array (arg 0 args);
  items ← get_array arr;
  let total := length items in
  if (total =? 0)%nat then
    lr_promise_resolve_internal p (ArrayObj arr);;
    mret (PromiseObj p)
  else
    pad ← new_all (MkAll (Z.of_nat total) total arr (Func (F_reject p)) false);
    each_item (all_item arr pad (Func (F_resolve p))) 0 total;;
    mret (PromiseObj p).

Definition js_promise_race (args : list value) : M value :=
  p ← lr_new_promise false;
  arr ← to_array (arg 0 args);
  items ← get_array arr;
  match items with
  | [] => mret (PromiseObj p)
  | first :: _ => lr_promise_resolve_internal p first;; mret (PromiseObj p)
  end.

(** The entry of an element as it is now. *)
Definition settled_entry (item : value) : M value :=
  match item with
  | PromiseObj q =>
      o ← get_promise q;
      mret (match o with
            | Some (MkPromise FULFILLED v _ _ _ _) => Entry "fulfilled" v
            | Some (MkPromise REJECTED v _ _ _ _) => Entry "rejected" v
            | _ => Entry "fulfilled" Undefined
            end)
  | v => mret (Entry "fulfilled" v)
  end.

Fixpoint settled_entries (items : list value) : M (list value) :=
  match items with
  | [] => mret []
  | item :: items' => e ← settled_entry item; es ← settled_entries items'; mret (e :: es)
  end.

Definition js_promise_all_settled (args : list value) : M value :=
  p ← lr_new_promise false;
  arr ← to_array (arg 0 args);
  items ← get_array arr;
  match items with
  | [] => lr_promise_resolve_internal p (ArrayObj arr);; mret (PromiseObj p)
  | _ =>
      es ← settled_entries items;
      res ← lr_new_array es;
      lr_promise_resolve_internal p (ArrayObj res);;
      mret (PromiseObj p)
  end.

(** The first element that is fulfilled now, or is no promise. *)
Fixpoint any_item (items : list value) : M (option value) :=
  match items with
  | [] => mret None
  | PromiseObj q :: items' =>
      o ← get_promise q;
      match o with
      | Some (MkPromise FULFILLED v _ _ _ _) => mret (Some v)
      | _ => any_item items'
      end
  | v :: _ => mret (Some v)
  end.

Definition js_promise_any (args : list value) : M value :=
  p ← lr_new_promise false;
  arr ← to_array (arg 0 args);
  items ← get_array arr;
  found ← any_item items;
  match found with
  | Some v => lr_promise_resolve_internal p v
  | None => lr_promise_reject_internal p (Text "All promises were rejected")
  end;;
  mret (PromiseObj p).

(** *** Async functions *)

(** The outcome of an [async] function, wrapped in a promise. *)
Definition async_outcome (thrown : option value) (result : value) : M value :=
  p ← lr_new_promise true;
  match thrown with
  | Some reason => lr_promise_reject_internal p reason
  | None => lr_promise_resolve_internal p result
  end;;
  mret (PromiseObj p).

Definition lr_queueMicrotask (args : list value) : M value :=
  if negb (is_function (arg 0 args)) then
    lr_throw_type_error "queueMicrotask: argument must be a function"
  else lr_enqueue_job (JobFunc (arg 0 args));; mret Undefined.

(** *** Running jobs *)

(** The call of the function of a job. *)
Definition run_job (j : job) : M value :=
  modify (log_job j);;
  match j with
  | JobData handler v resolve reject => job_reaction handler v resolve reject
  | JobFunc f => call f Undefined []
  end.

Definition lr_execute_pending_job : M unit :=
  js ← gets jobs;
  match js with
  | [] => mret tt
  | job :: js' => modify (with_jobs js');; run_job job;; mret tt
  end.

(** [while (lr_is_job_pending(rt) && job_count < limit)] *)
Fixpoint run_jobs (limit : nat) : M unit :=
  match limit with
  | O => mret tt
  | S limit' =>
      b ← lr_is_job_pending;
      if (b : bool) then lr_execute_pending_job;; run_jobs limit' else mret tt
  end.

(** [int guard = 100000] *)
Definition await_guard : nat := Z.to_nat 100000.

(** [eval_await]'s loop: at most [guard] jobs, until the promise is settled. *)
Fixpoint await_loop (guard p : nat) : M unit :=
  o ← get_promise p;
  match guard, o with
  | S guard', Some pd =>
      if is_pending pd then
        b ← lr_is_job_pending;
        if (b : bool) then lr_execute_pending_job;; await_loop guard' p else mret tt
      else mret tt
  | _, _ => mret tt
  end.

(** [inr]: the exception to throw.  A foreign thenable is its own value. *)
Definition eval_await (v : value) : M (value + value) :=
  match v with
  | PromiseObj p =>
      await_loop await_guard p;;
      o ← get_promise p;
      mret (match o with
            | Some pd => match p_state pd with REJECTED => inr (p_result pd) | _ => inl (p_result pd) end
            | None => inl Undefined
            end)
  | _ => mret (inl v)
  end.

Fixpoint run_script (sc : script) : M value :=
  match sc with
  | Ret v => mret v
  | Throwing v k => modify (with_exc v);; run_script k
  | Call f this args k => r ← call f this args; run_script (k r)
  | New executor k => r ← js_promise_constructor executor; run_script (k r)
  | Async thrown result k => r ← async_outcome thrown result; run_script (k r)
  | Micro f k => r ← lr_queueMicrotask [f]; run_script (k r)
  | Await v k => r ← eval_await v; run_script (k r)
  end.

(** The C function behind a function object. *)
Definition call_func (f : func) (this : value) (args : list value) : M value :=
  match f with
  | F_user id => run_script (user id this args)
  | F_resolve p => lr_promise_resolve_internal p (arg 0 args);; mret Undefined
  | F_reject p => lr_promise_reject_internal p (arg 0 args);; mret Undefined
  | F_identity => mret (arg 0 args)
  | F_thrower => lr_throw_type_error "rejected"
  | F_finally is_fulfill on_finally => finally_wrapper is_fulfill on_finally args
  | F_all_fulfill pad index resolve => promise_all_fulfill pad index resolve args
  | F_all_reject pad => promise_all_reject pad args
  | F_then => js_promise_then this args
  | F_catch => js_promise_catch this args
  | F_finally_method => js_promise_finally this args
  | F_static_resolve => js_promise_resolve args
  | F_static_reject => js_promise_reject args
  | F_all => js_promise_all args
  | F_race => js_promise_race args
  | F_all_settled => js_promise_all_settled args
  | F_any => js_promise_any args
  end.

End bodies.

Fixpoint lr_call (fuel : nat) (f this : value) (args : list value) : M value :=
  match fuel with
  | O => fun _ => None
  | S fuel' =>
      match f with
      | Func f => call_func (lr_call fuel') f this args
      | v => mret (if is_object v then Undefined else Exception)
      end
  end.

End promise.
