(* ===== verification/PromiseOk.v ===== *)
(** The promises as a transition system, and what follows for every script.

    [step] is the specification: a promise is made, settled once, given a reaction
    by [then]; a settled promise's reactions go to the end of the queue in the
    order of their registration; the job at the front of the queue is run.  Every
    function of [Promise] is a sequence of steps ([lr_call_steps]), whatever the
    script does and awaits; the properties of a run are invariants of [step], by
    induction on the sequence. *)

From stdpp Require Import base list strings relations.
From Stdlib Require Import ZArith Lia.
From S2P Require Import Prelude.
From S2P Require Import Promise.

(** ** Transitions *)

Definition fresh (proto : bool) : LRPromiseData := MkPromise PENDING Undefined false [] [] proto.

Definition reaction (d : nat) (handler : value) : LRPromiseReaction :=
  MkReaction handler (Func (F_resolve d)) (Func (F_reject d)) (PromiseObj d).

Definition reactions_of (st : PromiseState) (pd : LRPromiseData) : list LRPromiseReaction :=
  match st with FULFILLED => p_fulfill pd | _ => p_reject pd end.

(** The state after promise [p] has been settled. *)
Definition settled (p : nat) (st : PromiseState) (v : value) (pd : LRPromiseData) (s : State) : State :=
  with_jobs (jobs s ++ map (job_of v) (reactions_of st pd))
    (with_promises (alter (clear_reactions ∘ set_state st v) p (promises s)) s).

(** The state when the job [j] at the front of the queue is run. *)
Definition taken (j : job) (js : list job) (s : State) : State := log_job j (with_jobs js s).

(** The state after [then] of promise [q] has made promise [d]. *)
Definition chained (q d : nat) (pd : LRPromiseData) (h1 h2 : value) (s : State) : State :=
  let made := promises s ++ [fresh true] in
  match p_state pd with
  | PENDING =>
      with_promises (alter (add_reactions (reaction d h1) (reaction d h2) ∘ mark_handled) q made) s
  | FULFILLED =>
      with_jobs (jobs s ++ [job_of (p_result pd) (reaction d h1)])
        (with_promises (alter mark_handled q made) s)
  | REJECTED =>
      with_jobs (jobs s ++ [job_of (p_result pd) (reaction d h2)])
        (with_promises (alter mark_handled q made) s)
  end.

Section transitions.
(** There are objects with a [then] of the script's own. *)
Context (thenables : Prop).

Inductive step (s : State) : State -> Prop :=
  | step_other a l e : step s (MkState (promises s) a l (jobs s) e (ran s))
  | step_new proto : step s (with_promises (promises s ++ [fresh proto]) s)
  | step_settle p pd st v :
      promises s !! p = Some pd -> is_pending pd = true -> st <> PENDING ->
      step s (settled p st v pd s)
  | step_resettle p pd :      (* a thenable that settles the promise and then throws *)
      promises s !! p = Some pd -> is_pending pd = false -> thenables ->
      step s (settled p REJECTED Exception pd s)
  | step_then q pd h1 h2 :
      (promises s ++ [fresh true]) !! q = Some pd ->
      step s (chained q (length (promises s)) pd h1 h2 s)
  | step_micro f : step s (with_jobs (jobs s ++ [JobFunc f]) s)
  | step_job j js : jobs s = j :: js -> step s (taken j js s).

Definition steps : State -> State -> Prop := rtc step.

(** A computation that only takes such steps. *)
Definition moves {A} (m : M A) : Prop := forall s a s', m s = Some (a, s') -> steps s s'.

Lemma moves_ret {A} (a : A) : moves (mret a).
Proof. intros s b s' H. injection H as _ ->. apply rtc_refl. Qed.

Lemma moves_bind {A B} (m : M A) (f : A -> M B) :
  moves m -> (forall a, moves (f a)) -> moves (m ≫= f).
Proof.
  intros Hm Hf s b s' H. unfold mbind, M_bind in H. destruct (m s) as [[a s1]|] eqn:E; [|done].
  etrans; [by eapply Hm|by eapply Hf].
Qed.

Lemma moves_gets {A} (f : State -> A) : moves (gets f).
Proof. intros s a s' H. injection H as _ ->. apply rtc_refl. Qed.

Lemma moves_modify f : (forall s, step s (f s)) -> moves (modify f).
Proof. intros H s a s' E. injection E as _ <-. by apply rtc_once. Qed.

Lemma with_promises_id s : with_promises (promises s) s = s.
Proof. by destruct s. Qed.

Lemma step_arrays s l : step s (with_arrays l s).
Proof. apply step_other. Qed.
Lemma step_alls s l : step s (with_alls l s).
Proof. apply step_other. Qed.
Lemma step_exc s v : step s (with_exc v s).
Proof. apply step_other. Qed.

Lemma moves_throw msg : moves (lr_throw_type_error msg).
Proof. apply moves_bind; [apply moves_modify; intros; apply step_exc|intros; apply moves_ret]. Qed.

Lemma moves_new proto : moves (lr_new_promise proto).
Proof. intros s a s' H. injection H as _ <-. apply rtc_once, step_new. Qed.

Lemma moves_new_array l : moves (lr_new_array l).
Proof. intros s a s' H. injection H as _ <-. apply rtc_once, step_other. Qed.

Lemma moves_new_all d : moves (new_all d).
Proof. intros s a s' H. injection H as _ <-. apply rtc_once, step_other. Qed.

(** *** Settling *)

Lemma trigger_all_eq rs v s :
  trigger_all rs v s = Some (tt, with_jobs (jobs s ++ map (job_of v) rs) s).
Proof.
  revert s. induction rs as [|r rs IH]; intros s; cbn [trigger_all map].
  - rewrite app_nil_r. by destruct s.
  - unfold mbind, M_bind. cbn. rewrite IH. cbn. by rewrite <- app_assoc.
Qed.

Lemma alter_missing {A} (f : A -> A) i (l : list A) : l !! i = None -> alter f i l = l.
Proof. revert i. induction l as [|x l IH]; intros [|i] H; try done. cbn. f_equal. by apply IH. Qed.

(** Setting the state, then the label [trigger]. *)
Lemma settle_eq p st v s :
  st <> PENDING ->
  (alter_promise (set_state st v) p;; trigger p) s
    = Some (tt, match promises s !! p with Some pd => settled p st v pd s | None => s end).
Proof.
  intros Hst. unfold trigger, alter_promise, get_promise, mbind, M_bind, modify, gets.
  cbn [promises with_promises]. destruct (promises s !! p) as [pd|] eqn:E.
  - rewrite list_lookup_alter_eq, E. cbn [fmap option_fmap option_map].
    rewrite trigger_all_eq. unfold settled, with_jobs, with_promises. cbn.
    rewrite list_alter_alter_eq. by destruct st.
  - rewrite list_lookup_alter_eq, E. cbn. by rewrite alter_missing, with_promises_id.
Qed.

Lemma settle_steps p st v s a s' pd :
  st <> PENDING -> promises s !! p = Some pd ->
  is_pending pd = true \/ thenables /\ st = REJECTED /\ v = Exception ->
  (alter_promise (set_state st v) p;; trigger p) s = Some (a, s') -> steps s s'.
Proof.
  intros Hst E Hp H. rewrite settle_eq, E in H by done. injection H as _ <-. apply rtc_once.
  destruct (is_pending pd) eqn:Ep; [by apply step_settle|].
  destruct Hp as [?|(? & -> & ->)]; [congruence|]. by apply step_resettle.
Qed.

Lemma reject_eq p reason s :
  lr_promise_reject_internal p reason s
    = Some (tt, match promises s !! p with
                | Some pd => if is_pending pd then settled p REJECTED reason pd s else s
                | None => s
                end).
Proof.
  unfold lr_promise_reject_internal. unfold mbind at 1, M_bind at 1, get_promise at 1, gets at 1.
  cbv beta iota. destruct (promises s !! p) as [pd|] eqn:E; [|done].
  destruct (is_pending pd); [|done]. rewrite settle_eq by done. by rewrite E.
Qed.

Lemma moves_reject p reason : moves (lr_promise_reject_internal p reason).
Proof.
  intros s a s' H. rewrite reject_eq in H. injection H as _ <-.
  destruct (promises s !! p) as [pd|] eqn:E; [|apply rtc_refl].
  destruct (is_pending pd) eqn:Ep; [|apply rtc_refl]. by apply rtc_once, step_settle.
Qed.

(** [then] is one step. *)
Lemma then_eq q args s :
  js_promise_then (PromiseObj q) args s =
    match (promises s ++ [fresh true]) !! q with
    | None => Some (Undefined, with_promises (promises s ++ [fresh true]) s)
    | Some pd =>
        Some (PromiseObj (length (promises s)),
          chained q (length (promises s)) pd
            (if is_function (arg 0 args) then arg 0 args else Func F_identity)
            (if is_function (arg 1 args) then arg 1 args else Func F_thrower) s)
    end.
Proof.
  unfold js_promise_then, lr_new_promise, get_promise, gets, mbind, M_bind. cbn [promises with_promises].
  fold (fresh true). destruct ((promises s ++ [fresh true]) !! q) as [pd|] eqn:E; [|done].
  unfold chained. destruct (p_state pd); cbn; try done.
  unfold with_promises. cbn. by rewrite list_alter_alter_eq.
Qed.

Lemma moves_then this args : moves (js_promise_then this args).
Proof.
  destruct this; try apply moves_throw. intros s a s' H. rewrite then_eq in H.
  destruct ((promises s ++ [fresh true]) !! p) as [pd|] eqn:E; injection H as _ <-;
    apply rtc_once; [by apply step_then|apply step_new].
Qed.

Lemma then_no_exception q args s r s' :
  js_promise_then (PromiseObj q) args s = Some (r, s') -> r <> Exception.
Proof. rewrite then_eq. destruct (_ !! q); intros H; by injection H as <- _. Qed.
End transitions.

Create HintDb promise.
#[export] Hint Resolve moves_ret moves_gets moves_throw moves_new moves_new_array moves_new_all
  moves_reject moves_then : promise.

(** A sequence of computations that take steps. *)
Ltac moving :=
  repeat match goal with
  | |- moves _ _ => solve [auto with promise]
  | |- moves _ (_ ≫= _) => apply moves_bind; [|intros ?]
  | |- moves _ (modify _) =>
      apply moves_modify; intros; first [apply step_arrays|apply step_alls|apply step_exc|apply step_micro]
  | |- moves _ (match ?x with _ => _ end) => destruct x
  end.

(** ** Every function takes steps only *)

Section calls.
Context (user : nat -> value -> list value -> script).
Context (then_prop : value -> value).
Context (array_like : value -> list value).

(** Some object of the script has a [then] of its own. *)
Definition custom_thenables : Prop := exists v, is_function (then_prop v) = true.

Section bodies.
Context (call : value -> value -> list value -> M value).
Context (Hcall : forall f this args, moves custom_thenables (call f this args)).
Context (Hthen : forall q args s r s',
  call (Func F_then) (PromiseObj q) args s = Some (r, s') -> r <> Exception).

Lemma get_then_same v s : exists t, get_then then_prop v s = Some (t, s) /\
  (is_function t = true -> custom_thenables \/ exists q, v = PromiseObj q /\ t = Func F_then).
Proof using.
  destruct v as [| | | | |p| | | |]; cbn [get_then];
    try (eexists; split; [reflexivity|]; intros Hf; left; exact (ex_intro _ _ Hf)).
  unfold get_promise, gets, mbind, M_bind.
  destruct (promises s !! p) as [pd|]; [destruct (p_proto pd)|]; eexists; (split; [done|]); eauto; done.
Qed.

Lemma moves_resolve p v : moves custom_thenables (lr_promise_resolve_internal then_prop call p v).
Proof using Hcall Hthen.
  intros s a s' H. unfold lr_promise_resolve_internal, get_promise, gets in H.
  unfold mbind at 1, M_bind at 1 in H. destruct (promises s !! p) as [pd|] eqn:E; [|by eapply (moves_ret _ tt)].
  destruct (is_pending pd) eqn:Ep; [cbn [negb] in H|by eapply (moves_ret _ tt)].
  destruct (match v with PromiseObj q => (q =? p)%nat | _ => false end);
    [solve [eapply (settle_steps _ p REJECTED); eauto; done]|].
  assert (exists t, (if is_object v then get_then then_prop v else mret Undefined) s = Some (t, s) /\
    (is_function t = true -> custom_thenables \/ exists q, v = PromiseObj q /\ t = Func F_then))
    as (t & Et & Ht) by (destruct (is_object v); [apply get_then_same|by exists Undefined]).
  unfold mbind at 1, M_bind at 1 in H. rewrite Et in H.
  destruct (is_function t) eqn:Ef; [|solve [eapply (settle_steps _ p FULFILLED); eauto; done]].
  unfold mbind at 1, M_bind at 1 in H.
  destruct (call t v _ s) as [[r s1]|] eqn:Ec; [|done]. pose proof (Hcall _ _ _ _ _ _ Ec).
  etrans; [done|]. destruct r; try by eapply (moves_ret _ tt).
  cbn [is_exception] in H. destruct (promises s1 !! p) as [pd1|] eqn:E1.
  - eapply (settle_steps _ p REJECTED Exception s1); eauto.
    destruct (Ht eq_refl) as [?|(q & -> & ->)]; [auto|]. by destruct (Hthen _ _ _ _ _ Ec).
  - rewrite settle_eq, E1 in H by done. injection H as _ <-. apply rtc_refl.
Qed.
#[local] Hint Resolve moves_resolve : promise.

Lemma moves_construct executor : moves custom_thenables (js_promise_constructor call executor).
Proof using Hcall. unfold js_promise_constructor. moving. Qed.

Lemma moves_catch this args : moves custom_thenables (js_promise_catch this args).
Proof using. destruct this; unfold js_promise_catch; moving. Qed.

Lemma moves_finally this args : moves custom_thenables (js_promise_finally this args).
Proof using. destruct this; unfold js_promise_finally; cbv zeta; moving. Qed.

Lemma moves_finally_wrapper b f args : moves custom_thenables (finally_wrapper call b f args).
Proof using Hcall. unfold finally_wrapper, lr_get_exception. moving. Qed.

(** A promise made and settled at once. *)
Lemma moves_settled st v : st <> PENDING -> moves custom_thenables (settled_promise st v).
Proof using.
  intros Hst s a s' H. unfold settled_promise, lr_new_promise, mbind, M_bind in H. cbn in H.
  injection H as _ <-. set (s1 := with_promises (promises s ++ [fresh true]) s).
  assert (promises s1 !! length (promises s) = Some (fresh true)) as E
    by (cbn; by rewrite lookup_app_r, Nat.sub_diag).
  apply rtc_l with s1; [apply step_new|]. apply rtc_once.
  pose proof (step_settle custom_thenables s1 _ _ st v E eq_refl Hst) as Hs.
  unfold settled in Hs. replace (reactions_of st (fresh true)) with (@nil LRPromiseReaction) in Hs
    by (by destruct st). cbn in Hs. rewrite app_nil_r in Hs.
  unfold s1, with_promises, with_jobs in *. cbn in *.
  erewrite list_alter_ext; [exact Hs| |done]. intros x Hx.
  rewrite lookup_app_r, Nat.sub_diag in Hx by done. by injection Hx as <-.
Qed.

Lemma moves_static_resolve args : moves custom_thenables (js_promise_resolve args).
Proof using. unfold js_promise_resolve. destruct (arg 0 args); first [apply moves_ret|by apply moves_settled]. Qed.

Lemma moves_static_reject args : moves custom_thenables (js_promise_reject args).
Proof using. by apply moves_settled. Qed.

Lemma moves_all_fulfill pad i resolve args : moves custom_thenables (promise_all_fulfill call pad i resolve args).
Proof using Hcall. unfold promise_all_fulfill, get_all, alter_array, alter_all. cbv zeta. moving. Qed.

Lemma moves_all_reject pad args : moves custom_thenables (promise_all_reject call pad args).
Proof using Hcall. unfold promise_all_reject, get_all, alter_all. moving. Qed.

Lemma moves_get_then v : moves custom_thenables (get_then then_prop v).
Proof using.
  intros s a s' H. destruct (get_then_same v s) as (t & E & _). rewrite E in H.
  injection H as _ <-. apply rtc_refl.
Qed.
#[local] Hint Resolve moves_get_then : promise.

Lemma moves_to_array v : moves custom_thenables (to_array array_like v).
Proof using. unfold to_array. moving. Qed.
#[local] Hint Resolve moves_to_array : promise.

Lemma moves_all_item arr pad resolve i : moves custom_thenables (all_item then_prop call arr pad resolve i).
Proof using Hcall. unfold all_item, get_item, get_array. moving. Qed.

Lemma moves_each f i n : (forall i, moves custom_thenables (f i)) -> moves custom_thenables (each_item f i n).
Proof using. intros Hf. revert i. induction n; intros i; cbn [each_item]; moving. Qed.

Lemma moves_all args : moves custom_thenables (js_promise_all then_prop array_like call args).
Proof using Hcall Hthen.
  unfold js_promise_all, get_array. cbv zeta. moving. apply moves_each. intros. apply moves_all_item.
Qed.

Lemma moves_race args : moves custom_thenables (js_promise_race then_prop array_like call args).
Proof using Hcall Hthen. unfold js_promise_race, get_array. moving. Qed.

Lemma moves_entries items : moves custom_thenables (settled_entries items).
Proof using.
  induction items as [|item items IH]; cbn [settled_entries]; [apply moves_ret|].
  apply moves_bind; [unfold settled_entry, get_promise; moving|]. intros. moving.
Qed.
#[local] Hint Resolve moves_entries : promise.

Lemma moves_all_settled args : moves custom_thenables (js_promise_all_settled then_prop array_like call args).
Proof using Hcall Hthen. unfold js_promise_all_settled, get_array. moving. Qed.

Lemma moves_any_item items : moves custom_thenables (any_item items).
Proof using.
  induction items as [|item items IH]; cbn [any_item]; [apply moves_ret|].
  destruct item; unfold get_promise; moving.
Qed.
#[local] Hint Resolve moves_any_item : promise.

Lemma moves_any args : moves custom_thenables (js_promise_any then_prop array_like call args).
Proof using Hcall Hthen. unfold js_promise_any, get_array. moving. Qed.

Lemma moves_async thrown result : moves custom_thenables (async_outcome then_prop call thrown result).
Proof using Hcall Hthen. unfold async_outcome. moving. Qed.

Lemma moves_micro args : moves custom_thenables (lr_queueMicrotask args).
Proof using. unfold lr_queueMicrotask, lr_enqueue_job. moving. Qed.

(** The call of a job's function, after the log. *)
Lemma moves_body j :
  moves custom_thenables
    (match j with
     | JobData h v rs rj => job_reaction call h v rs rj
     | JobFunc f => call f Undefined []
     end;; mret tt).
Proof using Hcall. destruct j; unfold job_reaction, lr_get_exception; moving. Qed.

(** A job is taken from the queue and run. *)
Lemma execute_steps s a s' j js :
  jobs s = j :: js -> lr_execute_pending_job call s = Some (a, s') ->
  steps custom_thenables (taken j js s) s'.
Proof using Hcall.
  intros Hj H. unfold lr_execute_pending_job, gets in H. unfold mbind at 1, M_bind at 1 in H.
  rewrite Hj in H. by eapply (moves_body j).
Qed.

Lemma execute_none s a s' : jobs s = [] -> lr_execute_pending_job call s = Some (a, s') -> s' = s.
Proof using.
  intros Hj H. unfold lr_execute_pending_job, gets in H. unfold mbind at 1, M_bind at 1 in H.
  rewrite Hj in H. by injection H as _ <-.
Qed.

Lemma moves_execute : moves custom_thenables (lr_execute_pending_job call).
Proof using Hcall.
  intros s a s' H. destruct (jobs s) as [|j js] eqn:Hj; [by rewrite (execute_none s a s')|].
  apply rtc_l with (taken j js s); [by apply step_job|]. by eapply execute_steps.
Qed.
#[local] Hint Resolve moves_execute : promise.

Lemma moves_run limit : moves custom_thenables (run_jobs call limit).
Proof using Hcall. induction limit; cbn [run_jobs]; unfold lr_is_job_pending; moving. Qed.

Lemma moves_await_loop guard p : moves custom_thenables (await_loop call guard p).
Proof using Hcall.
  induction guard; cbn [await_loop]; unfold get_promise, lr_is_job_pending; moving.
Qed.
#[local] Hint Resolve moves_await_loop : promise.

Lemma moves_await v : moves custom_thenables (eval_await call v).
Proof using Hcall. unfold eval_await. generalize await_guard. intros guard. unfold get_promise. moving. Qed.

#[local] Hint Resolve moves_construct moves_async moves_micro moves_await : promise.

Lemma moves_script sc : moves custom_thenables (run_script then_prop call sc).
Proof using Hcall Hthen.
  induction sc as [v|v k IH|f this args k IH|executor k IH|thrown result k IH|f k IH|v k IH]; cbn [run_script]; moving.
Qed.

#[local] Hint Resolve moves_catch moves_finally moves_finally_wrapper moves_static_resolve
  moves_static_reject moves_all_fulfill moves_all_reject moves_all moves_race moves_all_settled
  moves_any moves_script : promise.

Lemma moves_func f this args : moves custom_thenables (call_func user then_prop array_like call f this args).
Proof using Hcall Hthen. destruct f; cbn [call_func]; moving. Qed.
End bodies.

Lemma then_calls n q args s r s' :
  lr_call user then_prop array_like n (Func F_then) (PromiseObj q) args s = Some (r, s') -> r <> Exception.
Proof. destruct n; [done|]. apply then_no_exception. Qed.

(** Whatever is called with whatever arguments, the promises and the queue change
    by steps of the specification only. *)
Lemma lr_call_steps n f this args : moves custom_thenables (lr_call user then_prop array_like n f this args).
Proof.
  revert f this args. induction n as [|n IH]; intros f this args; [by intros s a s' H|].
  cbn [lr_call]. destruct f; try apply moves_ret. apply moves_func; [done|apply then_calls].
Qed.
End calls.
