(* ===== verification/PromiseProps.v ===== *)
(** What a script can rely on: a settled promise keeps its state and its value,
    a reaction given to [then] is run exactly once, and the queue is served in the
    order of its filling.  Each is an invariant of the transitions of [PromiseOk],
    and so holds of calls that await, which run jobs of their own; the functions
    of [Promise] inherit it by [lr_call_steps]. *)

From stdpp Require Import base list strings relations.
From Stdlib Require Import ZArith Lia.
From S2P Require Import Prelude.
From S2P Require Import Promise.
From S2P Require Import PromiseOk.

(** ** Reactions that are owed *)

Definition count {A} (f : A -> bool) (l : list A) : nat := sum_list_with (fun x => Nat.b2n (f x)) l.

(** The reaction, or the job, that resolves promise [d]. *)
Definition capability (d : nat) (resolve : value) : bool :=
  match resolve with Func (F_resolve e) => (e =? d)%nat | _ => false end.
Definition serves (d : nat) (r : LRPromiseReaction) : bool := capability d (r_resolve r).
Definition job_serves (d : nat) (j : job) : bool :=
  match j with JobData _ _ resolve _ => capability d resolve | JobFunc _ => false end.

Definition waiting (d : nat) (pd : LRPromiseData) : nat := count (serves d) (p_fulfill pd).

(** How often promise [d] is still to be settled by a reaction: the reactions
    that wait in promises and the jobs in the queue. *)
Definition owed (d : nat) (s : State) : nat :=
  (sum_list_with (waiting d) (promises s) + count (job_serves d) (jobs s))%nat.

(** How often a reaction of promise [d] has been run. *)
Definition runs (d : nat) (s : State) : nat := count (job_serves d) (ran s).

(** The two lists of a promise serve the same promises; a settled promise has
    none. *)
Definition good (pd : LRPromiseData) : Prop :=
  map r_resolve (p_fulfill pd) = map r_resolve (p_reject pd) /\
  (is_pending pd = false -> p_fulfill pd = []).

Record wf (s : State) : Prop := MkWf {
  wf_good : Forall good (promises s);
  wf_once : forall d, (owed d s + runs d s <= 1)%nat;
  wf_made : forall d, (length (promises s) <= d)%nat -> (owed d s + runs d s = 0)%nat
}.

Definition start : State := MkState [] [] [] [] Undefined [].

Lemma wf_start : wf start.
Proof. split; [constructor| |]; intros; unfold owed, runs; cbn; lia. Qed.

Lemma sum_list_alter {A} (f : A -> nat) g i x (l : list A) :
  l !! i = Some x -> (sum_list_with f (alter g i l) + f x = sum_list_with f l + f (g x))%nat.
Proof.
  revert i. induction l as [|y l IH]; intros [|i] H; try done.
  - injection H as ->. cbn. lia.
  - specialize (IH i H). change (alter g (S i) (y :: l)) with (y :: alter g i l).
    cbn [sum_list_with]. lia.
Qed.

Lemma count_app {A} (f : A -> bool) l k : count f (l ++ k) = (count f l + count f k)%nat.
Proof. apply sum_list_with_app. Qed.

Lemma count_cons {A} (f : A -> bool) x l : count f (x :: l) = (Nat.b2n (f x) + count f l)%nat.
Proof. done. Qed.

Lemma waiting_add d e h1 h2 pd :
  waiting d (add_reactions (reaction e h1) (reaction e h2) (mark_handled pd))
    = (waiting d pd + Nat.b2n (e =? d)%nat)%nat.
Proof. unfold waiting. cbn [p_fulfill add_reactions mark_handled]. rewrite count_app, count_cons. cbn. lia. Qed.

Lemma sum_waiting_new d ps proto :
  sum_list_with (waiting d) (ps ++ [fresh proto]) = sum_list_with (waiting d) ps.
Proof. rewrite sum_list_with_app. cbn. lia. Qed.

Lemma count_jobs d v rs : count (job_serves d) (map (job_of v) rs) = count (serves d) rs.
Proof. induction rs as [|r rs IH]; [done|]. unfold count in *. cbn. by rewrite IH. Qed.

Lemma count_resolve d rs :
  count (serves d) rs = count (capability d) (map r_resolve rs).
Proof. induction rs as [|r rs IH]; [done|]. unfold count in *. cbn. by rewrite IH. Qed.

Lemma good_reactions pd st d : good pd -> count (serves d) (reactions_of st pd) = waiting d pd.
Proof.
  intros [H _]. unfold waiting. rewrite (count_resolve d (p_fulfill pd)), H.
  destruct st; cbn [reactions_of]; by rewrite !count_resolve, ?H.
Qed.

Lemma good_fresh proto : good (fresh proto).
Proof. done. Qed.

Lemma good_mark pd : good pd -> good (mark_handled pd).
Proof. done. Qed.

Lemma good_add pd d h1 h2 :
  p_state pd = PENDING -> good pd -> good (add_reactions (reaction d h1) (reaction d h2) (mark_handled pd)).
Proof.
  intros Hp [H _]. split; cbn; [by rewrite !map_app, H|]. unfold is_pending. cbn. by rewrite Hp.
Qed.

Lemma Forall_alter_at {A} (P : A -> Prop) f i (l : list A) :
  Forall P l -> (forall x, l !! i = Some x -> P x -> P (f x)) -> Forall P (alter f i l).
Proof. intros H Hf. by apply Forall_alter. Qed.

Lemma made_good s : Forall good (promises s) -> Forall good (promises s ++ [fresh true]).
Proof. intros H. apply Forall_app. split; [done|]. by repeat constructor. Qed.

Lemma owed_settled d p pd st v s :
  promises s !! p = Some pd -> good pd -> owed d (settled p st v pd s) = owed d s.
Proof.
  intros E Hp. unfold owed, settled. cbn [promises jobs with_jobs with_promises].
  pose proof (sum_list_alter (waiting d) (clear_reactions ∘ set_state st v) _ _ _ E) as Hs.
  change (waiting d ((clear_reactions ∘ set_state st v) pd)) with 0%nat in Hs.
  rewrite count_app, count_jobs, good_reactions by done. lia.
Qed.

Lemma owed_chained d q pd h1 h2 s :
  (promises s ++ [fresh true]) !! q = Some pd ->
  owed d (chained q (length (promises s)) pd h1 h2 s)
    = (owed d s + Nat.b2n (length (promises s) =? d)%nat)%nat.
Proof.
  intros E. unfold owed, chained. rewrite <- (sum_waiting_new d (promises s) true).
  destruct (p_state pd); cbn [promises jobs with_jobs with_promises].
  - pose proof (sum_list_alter (waiting d) (add_reactions (reaction (length (promises s)) h1)
      (reaction (length (promises s)) h2) ∘ mark_handled) _ _ _ E) as Hs.
    cbn [compose] in Hs. rewrite waiting_add in Hs. lia.
  - pose proof (sum_list_alter (waiting d) mark_handled _ _ _ E) as Hs.
    change (waiting d (mark_handled pd)) with (waiting d pd) in Hs.
    rewrite count_app, count_cons. cbn. lia.
  - pose proof (sum_list_alter (waiting d) mark_handled _ _ _ E) as Hs.
    change (waiting d (mark_handled pd)) with (waiting d pd) in Hs.
    rewrite count_app, count_cons. cbn. lia.
Qed.

Lemma count_some {A} (f : A -> nat) l : sum_list_with f l <> 0%nat -> exists x, x ∈ l /\ f x <> 0%nat.
Proof.
  induction l as [|x l IH]; cbn; [done|]. intros H.
  destruct (decide (f x = 0%nat)) as [E|E]; [|exists x; split; [left|done]].
  destruct IH as (y & Hy & Hf); [lia|]. exists y. by split; [right|].
Qed.

Lemma count_serves d rs : count (serves d) rs <> 0%nat -> exists r, r ∈ rs /\ serves d r = true.
Proof.
  intros H. destruct (count_some _ _ H) as (r & Hr & Hs). exists r. split; [done|].
  by destruct (serves d r).
Qed.

Lemma waiting_none d pd : p_fulfill pd = [] -> waiting d pd = 0%nat.
Proof. intros H. unfold waiting. by rewrite H. Qed.

(** ** One step *)

Section step.
Context (thenables : Prop).

Lemma step_length s s' : step thenables s s' -> (length (promises s) <= length (promises s'))%nat.
Proof.
  destruct 1 as [| | | |q pd h1 h2 E| |]; cbn; rewrite ?length_alter, ?length_app; try lia.
  unfold chained. destruct (p_state pd); cbn; rewrite length_alter, length_app; lia.
Qed.

(** The jobs that have been run, then those in the queue: the order in which they
    were queued. *)
Definition history (s : State) : list job := ran s ++ jobs s.

(** Jobs are queued at the end and run from the front. *)
Definition extends (s s' : State) : Prop :=
  (exists taken, ran s' = ran s ++ taken) /\ exists queued, history s' = history s ++ queued.

#[export] Instance extends_preorder : PreOrder extends.
Proof.
  split.
  - intros s. split; exists []; by rewrite app_nil_r.
  - intros s1 s2 s3 [[t1 E1] [q1 F1]] [[t2 E2] [q2 F2]]. split.
    + exists (t1 ++ t2). by rewrite E2, E1, app_assoc.
    + exists (q1 ++ q2). by rewrite F2, F1, app_assoc.
Qed.

Lemma step_extends s s' : step thenables s s' -> extends s s'.
Proof.
  unfold extends, history. intros H. split.
  - destruct H; try (unfold chained; destruct (p_state pd)); cbn;
      try (exists []; by rewrite app_nil_r). eauto.
  - destruct H; try (unfold chained; destruct (p_state pd)); cbn;
      rewrite ?app_assoc; eauto; exists []; rewrite app_nil_r; try done.
    by rewrite <- app_assoc, H.
Qed.

Lemma step_good s s' : step thenables s s' -> Forall good (promises s) -> Forall good (promises s').
Proof.
  intros Hs H. destruct Hs as [| |p pd st v E Ep Hst|p pd E Ep|q pd h1 h2 E| |]; try done.
  - apply Forall_app. split; [done|]. by repeat constructor.
  - by apply Forall_alter.
  - by apply Forall_alter.
  - apply made_good in H. unfold chained.
    destruct (p_state pd) eqn:Es; cbn; (apply Forall_alter; [done|]); try done.
    intros x Hx. rewrite E in Hx. injection Hx as <-. by apply good_add.
Qed.

(** [then] makes one debt, for the promise it makes; running a job pays it;
    nothing else changes a debt. *)
Lemma step_owed d s s' :
  step thenables s s' -> Forall good (promises s) ->
  (owed d s' + runs d s' = owed d s + runs d s)%nat \/
  (d = length (promises s) /\ (owed d s' + runs d s' = S (owed d s + runs d s))%nat /\
   (length (promises s) < length (promises s'))%nat).
Proof.
  intros H Hg. destruct H as [| |p pd st v E Ep Hst|p pd E Ep|q pd h1 h2 E| |j js Hj].
  - by left.
  - left. unfold owed. cbn [promises jobs with_promises]. by rewrite sum_waiting_new.
  - left. rewrite owed_settled by (done || by eapply Forall_lookup_1). done.
  - left. rewrite owed_settled by (done || by eapply Forall_lookup_1). done.
  - rewrite (owed_chained d q pd h1 h2 s E).
    replace (runs d (chained q (length (promises s)) pd h1 h2 s)) with (runs d s)
      by (unfold chained; by destruct (p_state pd)).
    destruct (Nat.eqb_spec (length (promises s)) d) as [Hd|Hd]; cbn; [right|left; lia].
    split; [done|]. split; [lia|]. unfold chained.
    destruct (p_state pd); cbn [promises with_promises with_jobs]; rewrite length_alter, length_app; cbn; lia.
  - left. unfold owed, runs. cbn [promises jobs ran with_jobs]. rewrite count_app. cbn. lia.
  - left. unfold owed, runs. cbn [taken log_job promises jobs ran with_jobs].
    rewrite Hj, count_app, !count_cons. change (count (job_serves d) []) with 0%nat. lia.
Qed.

Lemma step_wf s s' : step thenables s s' -> wf s -> wf s'.
Proof.
  intros H [Hg Ho Hm]. pose proof (step_length _ _ H) as Hl. split; [by eapply step_good| |].
  - intros d. specialize (Ho d). destruct (step_owed d _ _ H Hg) as [->|(-> & -> & _)]; [done|].
    by rewrite Hm.
  - intros d Hd. destruct (step_owed d _ _ H Hg) as [->|(-> & _ & ?)]; [apply Hm|]; lia.
Qed.

(** A settled promise keeps its state and its result. *)
Lemma step_kept p pd s s' :
  ~ thenables -> step thenables s s' -> promises s !! p = Some pd -> is_pending pd = false ->
  exists pd', promises s' !! p = Some pd' /\ is_pending pd' = false /\
              p_state pd' = p_state pd /\ p_result pd' = p_result pd.
Proof.
  intros Hn H E Ep.
  assert (forall f, (forall x, is_pending (f x) = is_pending x /\ p_state (f x) = p_state x /\ p_result (f x) = p_result x) ->
    forall q, exists pd', alter f q (promises s ++ [fresh true]) !! p = Some pd' /\ is_pending pd' = false /\
      p_state pd' = p_state pd /\ p_result pd' = p_result pd) as Ha.
  { intros f Hf q. pose proof (lookup_app_l_Some _ [fresh true] _ _ E) as Ea.
    destruct (decide (q = p)) as [->|Hq].
    - rewrite list_lookup_alter_eq, Ea. eexists. split; [done|]. by destruct (Hf pd) as (-> & -> & ->).
    - rewrite list_lookup_alter_ne by done. eauto. }
  destruct H as [| |q qd st v Eq Eqp Hst|q qd Eq Eqp Ht|q qd h1 h2 Eq| |]; cbn; eauto.
  - rewrite (lookup_app_l_Some _ _ _ _ E). eauto.
  - rewrite list_lookup_alter_ne by congruence. eauto.
  - done.
  - unfold chained. destruct (p_state qd) eqn:Es; cbn; try by apply Ha.
Qed.
End step.

(** ** Sequences of steps *)

Section sequences.
Context (thenables : Prop).

Lemma steps_wf s s' : steps thenables s s' -> wf s -> wf s'.
Proof. induction 1; [done|]. intros. by eapply IHrtc, step_wf. Qed.

Lemma steps_length s s' : steps thenables s s' -> (length (promises s) <= length (promises s'))%nat.
Proof. induction 1 as [|s s1 s2 H _ IH]; [done|]. pose proof (step_length _ _ _ H). lia. Qed.

Lemma steps_extends s s' : steps thenables s s' -> extends s s'.
Proof. induction 1 as [|s s1 s2 H _ IH]; [done|]. etrans; [by eapply step_extends|done]. Qed.

(** What is owed and what has been run, together, do not change; what has been run
    only grows. *)
Lemma steps_due d s s' :
  steps thenables s s' -> wf s -> (d < length (promises s))%nat ->
  (owed d s' + runs d s' = owed d s + runs d s)%nat /\ (runs d s <= runs d s')%nat.
Proof.
  intros H Hw Hd. split.
  - induction H as [|s s1 s2 H _ IH]; [done|].
    rewrite IH; [|by eapply step_wf|pose proof (step_length _ _ _ H); lia].
    destruct (step_owed _ d _ _ H (wf_good _ Hw)) as [?|(? & _)]; [done|lia].
  - destruct (steps_extends _ _ H) as [[t E] _]. unfold runs. rewrite E, count_app. lia.
Qed.

(** [p] is in [s] as settled as [pd], and with the same result. *)
Definition kept (p : nat) (pd : LRPromiseData) (s : State) : Prop :=
  exists pd', promises s !! p = Some pd' /\ is_pending pd' = false /\
              p_state pd' = p_state pd /\ p_result pd' = p_result pd.

Lemma steps_kept p pd s s' : ~ thenables -> steps thenables s s' -> kept p pd s -> kept p pd s'.
Proof.
  intros Hn. induction 1 as [|s s1 s2 H _ IH]; [done|]. intros (pd1 & E & Ep & E1 & E2). apply IH.
  destruct (step_kept thenables p pd1 s s1 Hn H E Ep) as (pd' & ? & ? & ? & ?).
  exists pd'. repeat split; congruence.
Qed.

(** In a promise, and in a job, the reactions of [d] have the handlers [h1] and
    [h2]. *)
Definition handled_by (d : nat) (h1 h2 : value) (pd : LRPromiseData) : Prop :=
  Forall (fun r => serves d r = true -> r_handler r = h1) (p_fulfill pd) /\
  Forall (fun r => serves d r = true -> r_handler r = h2) (p_reject pd).
Definition job_handled_by (d : nat) (h1 h2 : value) (j : job) : Prop :=
  match j with
  | JobData h _ resolve _ => capability d resolve = true -> h = h1 \/ h = h2
  | JobFunc _ => True
  end.
Definition handlers (d : nat) (h1 h2 : value) (s : State) : Prop :=
  Forall (handled_by d h1 h2) (promises s) /\ Forall (job_handled_by d h1 h2) (history s).

Lemma handlers_none d h1 h2 s :
  Forall good (promises s) -> (owed d s + runs d s = 0)%nat -> handlers d h1 h2 s.
Proof.
  intros Hg H. unfold owed, runs in H.
  assert (forall l : list job, count (job_serves d) l = 0%nat -> Forall (job_handled_by d h1 h2) l) as Hj.
  { induction l as [|j l IH]; intros Hl; constructor; rewrite count_cons in Hl; [|apply IH; lia].
    destruct j as [h v rs rj|f]; [|done]. intros Hc. cbn in Hl. rewrite Hc in Hl. cbn in Hl. lia. }
  assert (forall l h, count (serves d) l = 0%nat -> Forall (fun r => serves d r = true -> r_handler r = h) l) as Hr.
  { intros l h. induction l as [|r l IH]; intros Hl; constructor; rewrite count_cons in Hl; [|apply IH; lia].
    intros Hc. rewrite Hc in Hl. cbn in Hl. lia. }
  split; [|apply Forall_app; split; apply Hj; lia].
  apply Forall_lookup. intros q pd Hq. pose proof (Forall_lookup_1 _ _ _ _ Hg Hq) as [Hm _].
  assert (waiting d pd = 0%nat) as Hw.
  { destruct (decide (waiting d pd = 0%nat)) as [|Hne]; [done|]. exfalso.
    pose proof (sum_list_alter (waiting d) clear_reactions _ _ _ Hq). cbn in *. lia. }
  unfold waiting in Hw. split; apply Hr; [done|]. by rewrite count_resolve, <- Hm, <- count_resolve.
Qed.

Lemma handled_by_fresh d h1 h2 proto : handled_by d h1 h2 (fresh proto).
Proof. by split. Qed.

Lemma handlers_chained d h1 h2 q e pd g1 g2 s :
  (promises s ++ [fresh true]) !! q = Some pd -> handlers d h1 h2 s ->
  (e = d -> g1 = h1 /\ g2 = h2) -> handlers d h1 h2 (chained q e pd g1 g2 s).
Proof.
  intros E [Hp Hj] He.
  assert (Forall (handled_by d h1 h2) (promises s ++ [fresh true])) as Hm
    by (apply Forall_app; split; [done|]; constructor; [apply handled_by_fresh|done]).
  assert (forall r h g, r = reaction e g -> (e = d -> g = h) -> serves d r = true -> r_handler r = h) as Hr.
  { intros r h g -> Hg Hs. cbn in *. apply Hg. by apply Nat.eqb_eq. }
  unfold chained. destruct (p_state pd); split; cbn [promises with_promises with_jobs];
    try (apply Forall_alter; [done|]; intros x Hx Hh; try done).
  - destruct Hh as [H1 H2]. split; cbn; apply Forall_app; (split; [done|]); constructor; try done;
      eapply Hr; try done; naive_solver.
  - done.
  - unfold history. cbn. rewrite app_assoc. apply Forall_app. split; [done|]. constructor; [|done].
    cbn. intros Hc%Nat.eqb_eq. left. naive_solver.
  - unfold history. cbn. rewrite app_assoc. apply Forall_app. split; [done|]. constructor; [|done].
    cbn. intros Hc%Nat.eqb_eq. right. naive_solver.
Qed.

Lemma handlers_settled d h1 h2 p pd st v s :
  promises s !! p = Some pd -> handlers d h1 h2 s -> handlers d h1 h2 (settled p st v pd s).
Proof.
  intros E [Hp Hj]. pose proof (Forall_lookup_1 _ _ _ _ Hp E) as [H1 H2]. split.
  - cbn. apply Forall_alter; [done|]. intros x Hx _. by split.
  - unfold history, settled. cbn. rewrite app_assoc. apply Forall_app. split; [done|].
    apply Forall_map.
    assert (Forall (fun r => serves d r = true -> r_handler r = h1 \/ r_handler r = h2) (reactions_of st pd)) as Hr.
    { destruct st; cbn; (eapply Forall_impl; [eassumption|]); naive_solver. }
    eapply Forall_impl; [exact Hr|]. intros r Hr' Hc. by apply Hr'.
Qed.

Lemma step_handlers d h1 h2 s s' :
  step thenables s s' -> (d < length (promises s))%nat -> handlers d h1 h2 s -> handlers d h1 h2 s'.
Proof.
  intros H Hd Hh. pose proof Hh as [Hp Hj].
  destruct H as [| |p pd st v E Ep Hst|p pd E Ep|q pd g1 g2 E| |j js Hjs].
  - done.
  - split; [|done]. cbn. apply Forall_app. split; [done|]. constructor; [apply handled_by_fresh|done].
  - by apply handlers_settled.
  - by apply handlers_settled.
  - apply handlers_chained; [done|done|]. intros <-. lia.
  - split; [done|]. unfold history. cbn. rewrite app_assoc. apply Forall_app. split; [done|].
    by constructor.
  - split; [done|]. unfold history in *. cbn. rewrite Hjs in Hj. by rewrite <- app_assoc.
Qed.

Lemma steps_handlers d h1 h2 s s' :
  steps thenables s s' -> (d < length (promises s))%nat -> handlers d h1 h2 s -> handlers d h1 h2 s'.
Proof.
  induction 1 as [|s s1 s2 H _ IH]; [done|]. intros Hd Hh.
  apply IH; [pose proof (step_length _ _ _ H); lia|]. by eapply step_handlers.
Qed.
End sequences.

(** A promise that is owed a reaction waits in both lists of a pending promise when
    the queue is empty. *)
Lemma owed_waits s d h1 h2 :
  wf s -> handlers d h1 h2 s -> jobs s = [] -> owed d s <> 0%nat ->
  exists q pd, promises s !! q = Some pd /\ is_pending pd = true /\
    (exists r, r ∈ p_fulfill pd /\ serves d r = true /\ r_handler r = h1) /\
    (exists r, r ∈ p_reject pd /\ serves d r = true /\ r_handler r = h2).
Proof.
  intros [Hg _ _] [Hh _] Hj Ho. unfold owed in Ho. rewrite Hj in Ho.
  destruct (count_some (waiting d) (promises s)) as (pd & Hin & Hpd); [cbn in Ho; lia|].
  apply list_elem_of_lookup_1 in Hin as [q Hq]. exists q, pd. split; [done|].
  pose proof (Forall_lookup_1 _ _ _ _ Hg Hq) as [Hmap Hpend].
  pose proof (Forall_lookup_1 _ _ _ _ Hh Hq) as [H1 H2]. rewrite Forall_forall in H1, H2.
  split; [destruct (is_pending pd) eqn:Ep; [done|]; by rewrite (waiting_none d pd) in Hpd by auto|].
  split.
  - destruct (count_serves d (p_fulfill pd)) as (r & Hr & Hs); [done|]. exists r. auto.
  - destruct (count_serves d (p_reject pd)) as (r & Hr & Hs).
    { by rewrite count_resolve, <- Hmap, <- count_resolve. }
    exists r. auto.
Qed.

(** A reaction that has been run is in the log. *)
Lemma runs_logged s d h1 h2 :
  handlers d h1 h2 s -> runs d s <> 0%nat ->
  exists h v rj, JobData h v (Func (F_resolve d)) rj ∈ ran s /\ (h = h1 \/ h = h2).
Proof.
  intros [_ Hh] Hr. destruct (count_some _ _ Hr) as (j & Hj & Hs).
  rewrite Forall_forall in Hh. specialize (Hh j ltac:(unfold history; set_solver)).
  destruct j as [h v rs rj|f]; [|done]. cbn in Hs, Hh.
  destruct rs as [| | | | | | | | |[]]; try done. cbn in Hs.
  destruct (Nat.eqb_spec p d) as [->|]; [|done]. exists h, v, rj. split; [done|].
  apply Hh. cbn. apply Nat.eqb_refl.
Qed.

(** ** Theorems *)

Section theorems.
Context (user : nat -> value -> list value -> script).
Context (then_prop : value -> value).
Context (array_like : value -> list value).

#[local] Notation call := (lr_call user then_prop array_like).
#[local] Notation run n := (run_jobs (call n)).
#[local] Notation transitions := (steps (custom_thenables then_prop)).

Lemma call_steps n f this args s r s' : call n f this args s = Some (r, s') -> transitions s s'.
Proof. apply lr_call_steps. Qed.

Lemma run_steps n limit s r s' : run n limit s = Some (r, s') -> transitions s s'.
Proof. apply moves_run, lr_call_steps. Qed.

Lemma job_steps n s r s' j js :
  jobs s = j :: js -> lr_execute_pending_job (call n) s = Some (r, s') -> transitions (taken j js s) s'.
Proof. apply execute_steps, lr_call_steps. Qed.

Lemma await_steps n v s r s' : eval_await (call n) v s = Some (r, s') -> transitions s s'.
Proof. apply moves_await, lr_call_steps. Qed.

(** C9: The event loop refines its specification: whatever functions the script
    consists of and wherever they await, a call, a run of the queue and an [await]
    change promises and the queue only by the transitions -- make a promise, settle
    a pending one and queue its reactions in the order of their registration, chain
    with [then], queue a microtask, run the job at the front of the queue. *)
Theorem event_loop_refines n :
  (forall f this args s r s', call n f this args s = Some (r, s') -> transitions s s') /\
  (forall limit s r s', run n limit s = Some (r, s') -> transitions s s') /\
  (forall v s r s', eval_await (call n) v s = Some (r, s') -> transitions s s').
Proof.
  split_and!; intros *; [apply call_steps|apply run_steps|apply await_steps].
Qed.

(** C37: A settled promise keeps its state and its value, whatever is called with
    its resolving functions and whatever jobs run, when no object of the script has
    a [then] method of its own. *)
Theorem settled_promise_kept n p pd s :
  (forall v, is_function (then_prop v) = false) ->
  promises s !! p = Some pd -> is_pending pd = false ->
  (forall f this args r s', call n f this args s = Some (r, s') -> kept p pd s') /\
  (forall limit r s', run n limit s = Some (r, s') -> kept p pd s').
Proof.
  intros Hn E Ep.
  assert (~ custom_thenables then_prop) as Ht by (intros [v Hv]; by rewrite Hn in Hv).
  assert (kept p pd s) as Hk by by exists pd.
  split; intros; eapply (steps_kept _ p pd s); try done; [by eapply call_steps|by eapply run_steps].
Qed.

(** The debts of the promises of [s] are kept, or paid by running the reaction:
    owed and run together, never more than one each. *)
Definition debts_kept (s s' : State) : Prop :=
  wf s' /\ forall d, (d < length (promises s))%nat ->
    (owed d s' + runs d s' = owed d s + runs d s)%nat /\
    (owed d s' + runs d s' <= 1)%nat /\ (runs d s <= runs d s')%nat.

Lemma steps_debts s s' : wf s -> transitions s s' -> debts_kept s s'.
Proof.
  intros Hw H. assert (wf s') as Hw' by by eapply steps_wf. split; [done|]. intros d Hd.
  destruct (steps_due _ d _ _ H Hw Hd) as [H1 H2]. split_and!; [done|apply Hw'|done].
Qed.

(** C10: Every reaction is run at most once and is never dropped: through any call,
    run of the queue and [await], nested as they may be, the times a promise is
    owed a reaction and the times its reaction has been run add up to the same
    number, at most one.  Running the job at the front runs its reaction. *)
Theorem reaction_runs_once n s :
  wf s ->
  (forall f this args r s', call n f this args s = Some (r, s') -> debts_kept s s') /\
  (forall limit r s', run n limit s = Some (r, s') -> debts_kept s s') /\
  (forall v r s', eval_await (call n) v s = Some (r, s') -> debts_kept s s') /\
  (forall j js d r s', jobs s = j :: js -> lr_execute_pending_job (call n) s = Some (r, s') ->
     job_serves d j = true -> owed d s = 1%nat /\ owed d s' = 0%nat /\ runs d s' = 1%nat).
Proof.
  intros Hw. split_and!.
  - intros. by eapply steps_debts, call_steps.
  - intros. by eapply steps_debts, run_steps.
  - intros. by eapply steps_debts, await_steps.
  - intros j js d r s' Hj H Hs. pose proof (job_steps _ _ _ _ _ _ Hj H) as Ht.
    pose proof (wf_once _ Hw d) as Ho. pose proof (wf_made _ Hw d) as Hm.
    assert (wf (taken j js s)) as Hw1 by (eapply (step_wf (custom_thenables then_prop)); [by apply step_job|done]).
    assert (owed d s = S (owed d (taken j js s)) /\ runs d (taken j js s) = S (runs d s)) as [H1 H2].
    { unfold owed, runs. cbn [taken log_job promises jobs ran with_jobs].
      rewrite Hj, count_app, !count_cons, Hs. cbn [Nat.b2n]. change (count (job_serves d) []) with 0%nat. lia. }
    assert (d < length (promises s))%nat as Hd by lia.
    destruct (steps_due _ d _ _ Ht Hw1 Hd). lia.
Qed.

(** C38: A reaction given to [then] is not lost.  [then] of a promise makes a new
    promise that is owed one reaction; after any run of the queue either that
    reaction has been run, once, with the handler [then] was given for one of the
    two outcomes, or it is still owed -- and if the queue is empty, it waits with
    its two handlers in both lists of a pending promise. *)
Theorem then_reaction_not_lost n q args s d s1 :
  wf s -> js_promise_then (PromiseObj q) args s = Some (PromiseObj d, s1) ->
  let h1 := if is_function (arg 0 args) then arg 0 args else Func F_identity in
  let h2 := if is_function (arg 1 args) then arg 1 args else Func F_thrower in
  owed d s1 = 1%nat /\ runs d s1 = 0%nat /\
  forall limit r s2, run n limit s1 = Some (r, s2) ->
    (runs d s2 = 1%nat /\ owed d s2 = 0%nat /\
     exists h v rj, JobData h v (Func (F_resolve d)) rj ∈ ran s2 /\ (h = h1 \/ h = h2)) \/
    (runs d s2 = 0%nat /\ owed d s2 = 1%nat /\
     (jobs s2 = [] -> exists q' pd, promises s2 !! q' = Some pd /\ is_pending pd = true /\
       (exists r, r ∈ p_fulfill pd /\ serves d r = true /\ r_handler r = h1) /\
       (exists r, r ∈ p_reject pd /\ serves d r = true /\ r_handler r = h2))).
Proof.
  intros Hw Ht h1 h2. rewrite then_eq in Ht. destruct (_ !! q) as [pd|] eqn:E; [|done].
  injection Ht as <- <-. fold h1 h2. set (d := length (promises s)).
  set (s1 := chained q d pd h1 h2 s).
  pose proof (step_then (custom_thenables then_prop) s q pd h1 h2 E) as Hs.
  fold d s1 in Hs. pose proof (step_wf _ _ _ Hs Hw) as Hw1.
  assert (d < length (promises s1))%nat as Hd.
  { unfold s1, chained. destruct (p_state pd); cbn; rewrite length_alter, length_app; cbn; lia. }
  pose proof (wf_made _ Hw d ltac:(done)) as H0.
  assert (handlers d h1 h2 s1) as Hh
    by (apply handlers_chained; [done|apply handlers_none; [apply Hw|done]|done]).
  assert (owed d s1 = 1%nat) as Ho.
  { unfold s1, d. rewrite owed_chained, Nat.eqb_refl by done. fold d. cbn [Nat.b2n]. lia. }
  assert (runs d s1 = 0%nat) as Hr.
  { replace (runs d s1) with (runs d s) by (unfold s1, chained; by destruct (p_state pd)). lia. }
  split_and!; [done|done|]. intros limit r s2 H. pose proof (run_steps _ _ _ _ _ H) as H12.
  pose proof (steps_handlers _ d h1 h2 _ _ H12 Hd Hh) as Hh2.
  destruct (steps_due _ d _ _ H12 Hw1 Hd) as [Hdue _].
  destruct (decide (runs d s2 = 0%nat)) as [Hz|Hz]; [right|left].
  - split_and!; [done|lia|]. intros Hj. apply owed_waits; [by eapply steps_wf|done|done|lia].
  - split_and!; [lia|lia|]. by apply runs_logged.
Qed.

(** Jobs are run first in, first out: those in the queue of [s] and those [queued]
    later, in this order, are those [taken] and those in the queue of [s']. *)
Definition in_order (s s' : State) (taken : list job) : Prop :=
  ran s' = ran s ++ taken /\ exists queued, jobs s ++ queued = taken ++ jobs s'.

Lemma steps_in_order s s' : transitions s s' -> exists taken, in_order s s' taken.
Proof.
  intros H. destruct (steps_extends _ _ _ H) as [[t E] [q F]]. exists t. split; [done|].
  exists q. unfold history in F. rewrite E, <- !app_assoc in F. symmetry. by apply app_inv_head in F.
Qed.

Lemma run_empty n limit s r s' : jobs s = [] -> run n limit s = Some (r, s') -> s' = s.
Proof.
  intros Hj H. destruct limit; cbn [run_jobs] in H; [by injection H|].
  unfold mbind at 1, M_bind at 1, lr_is_job_pending, gets in H. rewrite Hj in H. by injection H.
Qed.

(** [run_jobs] runs as many jobs as it is told, or all there are. *)
Lemma run_count n limit s r s' :
  run n limit s = Some (r, s') -> jobs s' = [] \/ (length (ran s) + limit <= length (ran s'))%nat.
Proof.
  revert s. induction limit as [|limit IH]; intros s H.
  - injection H as _ <-. right. lia.
  - destruct (jobs s) as [|j js] eqn:Hj; [left; by rewrite (run_empty n (S limit) s r s')|].
    cbn [run_jobs] in H. unfold mbind at 1, M_bind at 1, lr_is_job_pending, gets in H.
    rewrite Hj in H. cbn [bool_decide negb] in H.
    rewrite bool_decide_eq_false_2 in H by discriminate. cbn [negb] in H.
    unfold mbind, M_bind in H. destruct (lr_execute_pending_job (call n) s) as [[b s1]|] eqn:E; [|done].
    destruct (IH s1 H) as [|Hl]; [by left|right].
    destruct (steps_extends _ _ _ (job_steps _ _ _ _ _ _ Hj E)) as [[t Ht] _].
    apply (f_equal length) in Ht. cbn in Ht. rewrite !length_app in Ht. cbn in Ht. lia.
Qed.

(** C39: Jobs run in the order in which they were queued, in every call, however
    deep in it the functions that await run jobs, and in every run of the queue,
    which runs at least [limit] of them or all there are. *)
Theorem jobs_run_in_order n s :
  (forall f this args r s', call n f this args s = Some (r, s') -> exists taken, in_order s s' taken) /\
  (forall limit r s', run n limit s = Some (r, s') ->
     exists taken, in_order s s' taken /\ (jobs s' = [] \/ (limit <= length taken)%nat)).
Proof.
  split; [intros; by eapply steps_in_order, call_steps|]. intros limit r s' H.
  destruct (steps_in_order _ _ (run_steps _ _ _ _ _ H)) as [t Ht]. exists t. split; [done|].
  destruct (run_count _ _ _ _ _ H) as [|Hl]; [by left|right].
  destruct Ht as [E _]. apply (f_equal length) in E. rewrite length_app in E. lia.
Qed.

(** The result of [await] of a settled promise is there at once: no job runs. *)
Lemma await_settled n p pd s :
  promises s !! p = Some pd -> is_pending pd = false ->
  eval_await (call n) (PromiseObj p) s
    = Some (match p_state pd with REJECTED => inr (p_result pd) | _ => inl (p_result pd) end, s).
Proof.
  intros E Ep. unfold eval_await.
  assert (await_loop (call n) await_guard p s = Some (tt, s)) as Hl.
  { generalize await_guard. intros [|guard]; cbn [await_loop]; unfold get_promise, gets, mbind, M_bind;
      cbv beta iota; rewrite ?E; cbv beta iota; rewrite ?Ep; done. }
  unfold mbind at 1, M_bind at 1. rewrite Hl. unfold get_promise, gets, mbind, M_bind.
  cbv beta iota. by rewrite E.
Qed.

(** The reaction [then] puts in for a missing handler of rejections throws away
    the reason: the new promise is rejected with a [TypeError] of its own. *)
Lemma missing_handler_loses_reason n reason d pd s :
  promises s !! d = Some pd -> is_pending pd = true ->
  exists s', job_reaction (call (S n)) (Func F_thrower) reason (Func (F_resolve d)) (Func (F_reject d)) s
      = Some (Undefined, s') /\
    exists pd', promises s' !! d = Some pd' /\ p_state pd' = REJECTED /\ p_result pd' = TypeError "rejected".
Proof.
  intros E Ep. set (s1 := with_exc (TypeError "rejected") s).
  exists (settled d REJECTED (TypeError "rejected") pd s1). split.
  - pose proof (reject_eq d (TypeError "rejected") s1) as Hr.
    change (promises s1) with (promises s) in Hr. rewrite E, Ep in Hr.
    unfold job_reaction. cbn [lr_call call_func].
    unfold mbind, M_bind. change (lr_throw_type_error "rejected" s) with (Some (Exception, s1)).
    cbv beta iota. cbn [is_exception]. unfold lr_get_exception, gets. cbv beta iota.
    change (arg 0 [exc s1]) with (TypeError "rejected"). by rewrite Hr.
  - cbn. rewrite list_lookup_alter_eq, E. by eexists.
Qed.
End theorems.

(** ** Witnesses *)

(** 2: [new Promise(resolve => resolve(7)).then(() => 8)].  3: the same with an
    executor that settles nothing.  4: [await Promise.resolve(7).then(() => 8)]. *)
Definition demo (id : nat) (this : value) (args : list value) : script :=
  match id with
  | 0%nat => Call (arg 0 args) Undefined [Prim 7] (fun _ => Ret Undefined)
  | 1%nat => Ret (Prim 8)
  | 2%nat => New (Func (F_user 0)) (fun p =>
               Call (Func F_then) p [Func (F_user 1)] (fun _ => Ret Undefined))
  | 3%nat => New (Func (F_user 1)) (fun p =>
               Call (Func F_then) p [Func (F_user 1)] (fun _ => Ret Undefined))
  | 4%nat => Call (Func F_static_resolve) Undefined [Prim 7] (fun p =>
               Call (Func F_then) p [Func (F_user 1)] (fun q =>
                 Await q (fun r => Ret (match r with inl v | inr v => v end))))
  | _ => Ret Undefined
  end.

Definition plain (v : value) : value := Undefined.
Definition no_items (v : value) : list value := [].

(** The state after the script, and a call that has run. *)
Definition after (id : nat) : State :=
  match lr_call demo plain no_items 9 (Func (F_user id)) Undefined [] start with
  | Some (_, s) => s
  | None => start
  end.

Lemma after_wf id :
  is_Some (lr_call demo plain no_items 9 (Func (F_user id)) Undefined [] start) -> wf (after id).
Proof.
  intros [[r s] H]. unfold after. rewrite H. eapply (steps_wf (custom_thenables plain)); [|apply wf_start].
  by eapply lr_call_steps.
Qed.

(** The call that awaits runs the job of the reaction. *)
Lemma event_loop_refines_witness :
  lr_call demo plain no_items 9 (Func (F_user 4)) Undefined [] start = Some (Prim 8, after 4) /\
  ran (after 4) = [JobData (Func (F_user 1)) (Prim 7) (Func (F_resolve 1)) (Func (F_reject 1))] /\
  steps (custom_thenables plain) start (after 4).
Proof.
  assert (lr_call demo plain no_items 9 (Func (F_user 4)) Undefined [] start = Some (Prim 8, after 4)) as E
    by (vm_compute; reflexivity).
  split; [exact E|]. split; [vm_compute; reflexivity|].
  exact (proj1 (event_loop_refines demo plain no_items 9) _ _ _ _ _ _ E).
Defined.

Lemma settled_promise_kept_witness : exists pd,
  promises (after 2) !! 0%nat = Some pd /\ p_state pd = FULFILLED /\ p_result pd = Prim 7 /\
  exists s', lr_call demo plain no_items 9 (Func (F_reject 0)) Undefined [Prim 1] (after 2) = Some (Undefined, s') /\
    kept 0 pd s'.
Proof.
  exists (MkPromise FULFILLED (Prim 7) true [] [] true).
  split; [reflexivity|]. split; [reflexivity|]. split; [reflexivity|].
  exists (after 2). split; [vm_compute; reflexivity|].
  apply (settled_promise_kept demo plain no_items 9 0 (MkPromise FULFILLED (Prim 7) true [] [] true) (after 2)
    (fun _ => eq_refl) eq_refl eq_refl) with (Func (F_reject 0)) Undefined [Prim 1] Undefined.
  vm_compute; reflexivity.
Defined.

(** The call that awaits pays the debt of a promise made before it. *)
Lemma reaction_runs_once_witness :
  owed 1 (after 2) = 1%nat /\
  exists s', eval_await (lr_call demo plain no_items 9) (PromiseObj 1) (after 2) = Some (inl (Prim 8), s') /\
    owed 1 s' = 0%nat /\ runs 1 s' = 1%nat /\ debts_kept (after 2) s'.
Proof.
  split; [reflexivity|].
  assert (exists s', eval_await (lr_call demo plain no_items 9) (PromiseObj 1) (after 2) = Some (inl (Prim 8), s') /\
    owed 1 s' = 0%nat /\ runs 1 s' = 1%nat) as (s' & E & H1 & H2)
    by (eexists; split_and!; vm_compute; reflexivity).
  exists s'. split; [exact E|]. split; [exact H1|]. split; [exact H2|].
  exact (proj1 (proj2 (proj2 (reaction_runs_once demo plain no_items 9 (after 2)
    (after_wf 2 (ex_intro _ _ eq_refl))))) _ _ _ E).
Defined.

(** [then] of the pending promise of 3: the reaction waits. *)
Lemma then_reaction_not_lost_witness :
  exists s1, js_promise_then (PromiseObj 0) [Func (F_user 1)] (after 3) = Some (PromiseObj 2, s1) /\
    owed 2 s1 = 1%nat /\
    exists q' pd, promises s1 !! q' = Some pd /\ is_pending pd = true /\
      exists r, r ∈ p_fulfill pd /\ serves 2 r = true /\ r_handler r = Func (F_user 1).
Proof.
  assert (exists s1, js_promise_then (PromiseObj 0) [Func (F_user 1)] (after 3) = Some (PromiseObj 2, s1)
    /\ jobs s1 = [] /\ runs 2 s1 = 0%nat) as (s1 & E & Hj & Hr)
    by (eexists; split_and!; vm_compute; reflexivity).
  exists s1. split; [exact E|].
  destruct (then_reaction_not_lost demo plain no_items 9 0 [Func (F_user 1)] (after 3) 2 s1
    (after_wf 3 (ex_intro _ _ eq_refl)) E) as (H1 & _ & H).
  split; [exact H1|]. destruct (H 0%nat tt s1 eq_refl) as [(H2 & _)|(_ & _ & H2)]; [congruence|].
  destruct (H2 Hj) as (q' & pd & H3 & H4 & H5 & _). exists q', pd.
  split; [exact H3|]. split; [exact H4|exact H5].
Defined.

Lemma jobs_run_in_order_witness : exists s' taken,
  run_jobs (lr_call demo plain no_items 9) 1 (after 2) = Some (tt, s') /\ in_order (after 2) s' taken.
Proof.
  assert (exists s', run_jobs (lr_call demo plain no_items 9) 1 (after 2) = Some (tt, s')) as [s' E]
    by (eexists; vm_compute; reflexivity).
  destruct (proj2 (jobs_run_in_order demo plain no_items 9 (after 2)) _ _ _ E) as (t & H & _).
  exists s', t. split; [exact E|exact H].
Defined.
