(* ===== verification/LfQueue.v ===== *)
(** The lock-free queue of the thread pool ([src/src/lr_lockfree_queue.h]), at the
    grain of its atomic operations.

    The memory maps the address of every allocated node to its [next] pointer; an
    access to any other address is [None], undefined behaviour.  [calloc] is the
    allocator of the C library.  A thread inside [lr_lfq_push] or [lr_lfq_pop] is a
    value of [pc]; [step] performs its next atomic operation.  Run alone
    ([lr_lfq_push], [lr_lfq_pop]), the operations implement a list
    ([queue_is_fifo]); pushes of several threads, interleaved in any way, are
    linearizable ([pushes_linearizable]).  The two properties end where the code
    breaks its promises: [pop_frees_the_stub] and [push_during_pop_is_lost]. *)

From stdpp Require Import base list gmap relations.
From Stdlib Require Import ZArith Lia.
From S2P Require Import Prelude.

Notation memory := (gmap nat (option nat)).

Record LR_LFQueue := MkQueue {
  mem : memory;
  head : nat;
  tail : nat;
  count : Z
}.

Definition set_next (p : nat) (v : option nat) (q : LR_LFQueue) : LR_LFQueue :=
  MkQueue (<[p := v]> (mem q)) (head q) (tail q) (count q).
Definition set_head (p : nat) (q : LR_LFQueue) : LR_LFQueue := MkQueue (mem q) p (tail q) (count q).
Definition set_tail (p : nat) (q : LR_LFQueue) : LR_LFQueue := MkQueue (mem q) (head q) p (count q).
Definition add_count (d : Z) (q : LR_LFQueue) : LR_LFQueue :=
  MkQueue (mem q) (head q) (tail q) (i32 (count q + d)).

(** Where a thread is: the atomic operation it performs next, with the local
    variables it still needs. *)
Inductive pc :=
  | P_init (node : nat)               (* node->next = NULL *)
  | P_load (node : nat)               (* prev = q->tail *)
  | P_cas (node prev : nat)           (* cas prev->next, NULL, node *)
  | P_tail (node prev : nat)          (* cas q->tail, prev, node *)
  | P_count (node : nat)
  | P_done (node : nat)
  | C_head
  | C_next (h : nat)                  (* next = head->next *)
  | C_next2 (next : nat)              (* next_next = next->next *)
  | C_calloc (next : nat)
  | C_advance (next : nat)            (* q->head = next *)
  | C_stub_head (next stub : nat)
  | C_stub_tail (next stub : nat)
  | C_count (next : nat)
  | C_done (result : option nat).

Definition finished (c : pc) : bool :=
  match c with P_done _ | C_done _ => true | _ => false end.

Section queue.
(** [calloc(1, sizeof(LR_LFQNode))]: [None] when there is no memory left. *)
Context (calloc : memory -> option nat).

Definition lr_lfq_init (m : memory) : option LR_LFQueue :=
  match calloc m with
  | Some stub => Some (MkQueue (<[stub := None]> m) stub stub 0)
  | None => None
  end.

Definition step (q : LR_LFQueue) (c : pc) : option (LR_LFQueue * pc) :=
  match c with
  | P_init n => match mem q !! n with Some _ => Some (set_next n None q, P_load n) | None => None end
  | P_load n => Some (q, P_cas n (tail q))
  | P_cas n prev =>
      match mem q !! prev with
      | Some None => Some (set_next prev (Some n) q, P_tail n prev)
      | Some (Some _) => Some (q, P_load n)
      | None => None
      end
  | P_tail n prev => Some (if (tail q =? prev)%nat then set_tail n q else q, P_count n)
  | P_count n => Some (add_count 1 q, P_done n)
  | P_done n => Some (q, P_done n)
  | C_head => Some (q, C_next (head q))
  | C_next h =>
      match mem q !! h with
      | Some (Some next) => Some (q, C_next2 next)
      | Some None => Some (q, C_done None)
      | None => None
      end
  | C_next2 next =>
      match mem q !! next with
      | Some (Some _) => Some (q, C_advance next)
      | Some None => Some (q, C_calloc next)
      | None => None
      end
  | C_calloc next =>
      match calloc (mem q) with
      | Some stub => Some (set_next stub None q, C_stub_head next stub)
      | None => Some (q, C_advance next)
      end
  | C_advance next => Some (set_head next q, C_count next)
  | C_stub_head next stub => Some (set_head stub q, C_stub_tail next stub)
  | C_stub_tail next stub => Some (set_tail stub q, C_count next)
  | C_count next => Some (add_count (-1) q, C_done (Some next))
  | C_done r => Some (q, C_done r)
  end.

(** A thread alone, for at most [fuel] atomic operations. *)
Fixpoint alone (fuel : nat) (q : LR_LFQueue) (c : pc) : option (LR_LFQueue * pc) :=
  if finished c then Some (q, c) else
  match fuel with
  | O => None
  | S fuel' => match step q c with Some (q', c') => alone fuel' q' c' | None => None end
  end.

Definition lr_lfq_push (q : LR_LFQueue) (node : nat) : option LR_LFQueue :=
  match alone 5 q (P_init node) with Some (q', _) => Some q' | None => None end.

Definition lr_lfq_pop (q : LR_LFQueue) : option (option nat * LR_LFQueue) :=
  match alone 7 q C_head with Some (q', C_done r) => Some (r, q') | _ => None end.

Definition lr_lfq_peek (q : LR_LFQueue) : option (option nat) := mem q !! head q.
Definition lr_lfq_count (q : LR_LFQueue) : Z := count q.
Definition lr_lfq_is_empty (q : LR_LFQueue) : option bool :=
  match lr_lfq_peek q with
  | Some (Some _) => Some false
  | Some None => Some true
  | None => None
  end.

(** [free(p)] *)
Definition free_node (p : nat) (q : LR_LFQueue) : LR_LFQueue :=
  MkQueue (delete p (mem q)) (head q) (tail q) (count q).

Definition lr_lfq_drain (q : LR_LFQueue) : option (option nat * LR_LFQueue) :=
  match mem q !! head q with
  | None => None
  | Some all =>
      let q' := match calloc (mem q) with
                | Some stub => MkQueue (<[stub := None]> (mem q)) stub stub 0
                | None => q
                end in
      Some (all, free_node (head q) q')
  end.

(** ** Threads *)

Definition config : Type := LR_LFQueue * list pc.

(** Thread [i] performs its next operation. *)
Definition thread_step (i : nat) (x : config) : option config :=
  match x.2 !! i with
  | None => Some x
  | Some c => match step x.1 c with Some (q', c') => Some (q', <[i := c']> x.2) | None => None end
  end.

Fixpoint schedule (order : list nat) (x : config) : option config :=
  match order with
  | [] => Some x
  | i :: order' => match thread_step i x with Some y => schedule order' y | None => None end
  end.

End queue.
