(* ===== verification/LfQueueOk.v ===== *)
(** The lock-free queue is a first-in first-out list when its operations do not
    overlap, and for overlapping pushes; what goes wrong otherwise. *)

From stdpp Require Import base list gmap relations.
From Stdlib Require Import ZArith Lia.
From S2P Require Import Prelude.
From S2P Require Import LfQueue.

(** ** Chains of nodes *)

Fixpoint chain (m : memory) (p : nat) (l : list nat) : Prop :=
  match l with
  | [] => m !! p = Some None
  | n :: l' => m !! p = Some (Some n) /\ chain m n l'
  end.

(** The last node of the chain from [p]. *)
Definition end_of (p : nat) (l : list nat) : nat := List.last l p.

Lemma end_of_cons p n l : end_of p (n :: l) = end_of n l.
Proof. unfold end_of. revert p n. induction l as [|x l IH]; intros p n; [done|].
  transitivity (List.last (x :: l) p); [done|]. by rewrite (IH p x), (IH n x).
Qed.

Lemma end_of_snoc p l n : end_of p (l ++ [n]) = n.
Proof. apply List.last_last. Qed.

Lemma end_of_in p l : end_of p l ∈ p :: l.
Proof.
  revert p. induction l as [|n l IH]; intros p; [left|]. rewrite end_of_cons. right. apply IH.
Qed.

Lemma chain_end m p l : chain m p l -> m !! end_of p l = Some None.
Proof.
  revert p. induction l as [|n l IH]; intros p H; [exact H|]. rewrite end_of_cons. destruct H as [_ H]; by apply IH.
Qed.

Lemma chain_other m p l n v : n ∉ p :: l -> chain m p l -> chain (<[n := v]> m) p l.
Proof.
  revert p. induction l as [|x l IH]; intros p Hn H; cbn [chain] in *.
  - by rewrite lookup_insert_ne by set_solver.
  - rewrite lookup_insert_ne by set_solver. destruct H as [Hp H]. split; [done|]. apply IH; [set_solver|done].
Qed.

Lemma chain_snoc m p l n :
  NoDup (p :: l) -> n ∉ p :: l -> m !! n = Some None -> chain m p l ->
  chain (<[end_of p l := Some n]> m) p (l ++ [n]).
Proof.
  revert p. induction l as [|x l IH]; intros p Hd Hn Hm H.
  - unfold end_of. cbn [app chain List.last] in *. rewrite lookup_insert_eq, lookup_insert_ne by set_solver. done.
  - destruct H as [Hp Hc]. rewrite end_of_cons. cbn [app chain].
    apply NoDup_cons in Hd as [Hp' Hd]. split.
    + rewrite lookup_insert_ne; [done|]. intros E. apply Hp'. rewrite <- E. apply end_of_in.
    + apply IH; [done|set_solver|done|done].
Qed.

Lemma chain_alloc m p l x : chain m p l -> x ∈ p :: l -> is_Some (m !! x).
Proof.
  revert p. induction l as [|n l IH]; intros p H Hx; cbn in H.
  - apply list_elem_of_singleton in Hx as ->. by rewrite H.
  - apply elem_of_cons in Hx as [->|Hx]; [by rewrite (proj1 H)|]. eapply IH; [apply H|done].
Qed.

(** Only the end of a chain has no successor. *)
Lemma chain_null m p l x : NoDup (p :: l) -> chain m p l -> x ∈ p :: l -> m !! x = Some None -> x = end_of p l.
Proof.
  revert p. induction l as [|n l IH]; intros p Hd H Hx Hn; cbn in H.
  - by apply list_elem_of_singleton in Hx as ->.
  - rewrite end_of_cons. apply elem_of_cons in Hx as [->|Hx]; [destruct H; congruence|].
    apply NoDup_cons in Hd as [_ Hd]. apply IH; [done|apply H|done|done].
Qed.

Lemma ends_with p l : exists a, p :: l = a ++ [end_of p l].
Proof.
  revert p. induction l as [|n l IH]; intros p; [by exists []|]. rewrite end_of_cons.
  destruct (IH n) as [a ->]. by exists (p :: a).
Qed.

(** The end lies behind no node. *)
Lemma end_is_tail p l a b t x :
  NoDup (p :: l) -> p :: l = a ++ t :: b -> x ∈ a ++ [t] -> x = end_of p l -> b = [] /\ x = t.
Proof.
  intros Hd Hab Hx ->. destruct (ends_with p l) as [a' Ha']. rewrite Ha' in Hab at 1.
  destruct b as [|y b _] using rev_ind; [by apply app_inj_tail in Hab as [_ ->]|]. exfalso.
  change (a ++ t :: b ++ [y]) with (a ++ (t :: b) ++ [y]) in Hab. rewrite app_assoc in Hab.
  apply app_inj_tail in Hab as [-> Hy]. rewrite Ha', Hy in Hd.
  apply NoDup_app in Hd as (_ & Hd & _). apply (Hd y); [|set_solver].
  rewrite <- Hy at 1. set_solver.
Qed.

(** ** One operation at a time *)

(** The queue holds the nodes [l]. *)
Record holds (q : LR_LFQueue) (l : list nat) : Prop := MkHolds {
  h_chain : chain (mem q) (head q) l;
  h_tail : tail q = end_of (head q) l;
  h_nodup : NoDup (head q :: l);
  h_count : count q = i32 (Z.of_nat (length l))
}.

Lemma i32_step a d : i32 (i32 a + d) = i32 (a + d).
Proof.
  rewrite <- (i32_u32 (i32 a + d)), <- (i32_u32 (a + d)). f_equal. unfold u32 at 1 2.
  rewrite Z.add_mod by lia. change (i32 a mod 2 ^ 32) with (u32 (i32 a)). rewrite u32_i32.
  unfold u32. by rewrite <- Z.add_mod by lia.
Qed.

Lemma allocated_insert (m : memory) p v y : is_Some (m !! y) -> is_Some (<[p := v]> m !! y).
Proof.
  intros Hy. destruct (decide (p = y)) as [->|Hp]; [by rewrite lookup_insert_eq|].
  by rewrite lookup_insert_ne.
Qed.

Section alone.
Context (calloc : memory -> option nat).
Context (Hcalloc : forall m s, calloc m = Some s -> m !! s = None).

Lemma init_holds m q : lr_lfq_init calloc m = Some q -> holds q [].
Proof using.
  unfold lr_lfq_init. destruct (calloc m) as [s|]; [|done]. intros H. injection H as <-.
  split; cbn; [by rewrite lookup_insert_eq|done|by apply NoDup_singleton|done].
Qed.

(** A push alone appends its node. *)
Lemma push_holds q l n :
  holds q l -> n ∉ head q :: l -> is_Some (mem q !! n) ->
  exists q', lr_lfq_push calloc q n = Some q' /\ holds q' (l ++ [n]) /\ head q' = head q /\
    forall y, is_Some (mem q !! y) -> is_Some (mem q' !! y).
Proof using.
  intros [Hc Ht Hd Hk] Hn [v Hv].
  set (m1 := <[n := None]> (mem q)). set (p := end_of (head q) l).
  assert (chain m1 (head q) l) as Hc1 by by apply chain_other.
  exists (MkQueue (<[p := Some n]> m1) (head q) n (i32 (count q + 1))). split.
  - unfold lr_lfq_push. cbn [alone finished step]. rewrite Hv. cbn [step alone finished tail set_next mem].
    fold m1. rewrite Ht. fold p. pose proof (chain_end _ _ _ Hc1) as He. fold p in He. rewrite He.
    unfold set_next, set_tail, add_count. cbn. by rewrite Ht, Nat.eqb_refl.
  - split; [|split; [done|intros y Hy; by apply allocated_insert, allocated_insert]].
    split; cbn [mem head tail count].
    + apply chain_snoc; [done|done|unfold m1; by rewrite lookup_insert_eq|done].
    + by rewrite end_of_snoc.
    + change (head q :: l ++ [n]) with ((head q :: l) ++ [n]). apply NoDup_app. split; [done|].
      split; [intros x Hx Hx2%list_elem_of_singleton; by subst|by apply NoDup_singleton].
    + rewrite Hk, i32_step, length_app. cbn. f_equal. lia.
Qed.

Lemma pop_empty q : holds q [] -> lr_lfq_pop calloc q = Some (None, q).
Proof using.
  intros [Hc _ _ _]. unfold lr_lfq_pop. cbn [alone finished step]. cbn in Hc. by rewrite Hc.
Qed.

(** A pop alone takes the first node. *)
Lemma pop_holds q x l :
  holds q (x :: l) -> exists q', lr_lfq_pop calloc q = Some (Some x, q') /\ holds q' l /\
    (head q' = x \/ mem q !! head q' = None) /\
    forall y, is_Some (mem q !! y) -> is_Some (mem q' !! y).
Proof using Hcalloc.
  intros [[Hh Hc] Ht Hd Hk].
  assert (i32 (count q - 1) = i32 (Z.of_nat (length l))) as Hk'
    by (rewrite Hk; change (?a - 1) with (a + -1); rewrite i32_step; f_equal; cbn; lia).
  apply NoDup_cons in Hd as [_ Hd].
  assert (lr_lfq_pop calloc q = Some (Some x, add_count (-1) (set_head x q)) \/
          exists s, l = [] /\ calloc (mem q) = Some s /\
            lr_lfq_pop calloc q = Some (Some x, add_count (-1) (set_tail s (set_head s (set_next s None q))))) as H.
  { unfold lr_lfq_pop. cbn [alone finished step]. rewrite Hh. cbn [alone finished step].
    destruct l as [|y l]; cbn in Hc.
    - rewrite Hc. cbn [alone finished step]. destruct (calloc (mem q)) as [s|] eqn:E; cbn; [right|left; done].
      by exists s.
    - rewrite (proj1 Hc). by left. }
  destruct H as [->|(s & -> & Hs & ->)]; eexists; (split; [reflexivity|]).
  - split; [split; cbn [mem head tail count add_count set_head];
      [done|by rewrite Ht, end_of_cons|done|done]|]. split; [by left|done].
  - cbn [mem head tail count add_count set_head set_tail set_next].
    split; [split; cbn [mem head tail count]; [by apply lookup_insert_eq|done|by apply NoDup_singleton|done]|].
    split; [right; by apply Hcalloc|]. intros y. apply allocated_insert.
Qed.

(** *** Sequences of operations *)

Inductive operation := Push (n : nat) | Pop.

Fixpoint perform (ops : list operation) (q : LR_LFQueue) : option (list (option nat) * LR_LFQueue) :=
  match ops with
  | [] => Some ([], q)
  | Push n :: ops' => match lr_lfq_push calloc q n with Some q' => perform ops' q' | None => None end
  | Pop :: ops' =>
      match lr_lfq_pop calloc q with
      | Some (r, q') =>
          match perform ops' q' with Some (rs, q2) => Some (r :: rs, q2) | None => None end
      | None => None
      end
  end.

(** The same operations on a list. *)
Fixpoint fifo (ops : list operation) (l : list nat) : list (option nat) * list nat :=
  match ops with
  | [] => ([], l)
  | Push n :: ops' => fifo ops' (l ++ [n])
  | Pop :: ops' =>
      match l with
      | [] => let (rs, l2) := fifo ops' [] in (None :: rs, l2)
      | x :: l' => let (rs, l2) := fifo ops' l' in (Some x :: rs, l2)
      end
  end.

Fixpoint pushed (ops : list operation) : list nat :=
  match ops with [] => [] | Push n :: ops' => n :: pushed ops' | Pop :: ops' => pushed ops' end.

Lemma perform_fifo ops q l :
  holds q l -> NoDup (pushed ops) ->
  (forall n, n ∈ pushed ops -> is_Some (mem q !! n) /\ n ∉ head q :: l) ->
  exists q', perform ops q = Some ((fifo ops l).1, q') /\ holds q' (fifo ops l).2.
Proof using Hcalloc.
  revert q l. induction ops as [|[n|] ops IH]; intros q l Hq Hd Hn; cbn [perform fifo pushed] in *.
  - by exists q.
  - apply NoDup_cons in Hd as [Hnew Hd].
    destruct (push_holds q l n Hq) as (q1 & -> & H1 & Hh & Ha); [apply Hn; left|apply Hn; left|].
    apply IH; [done|done|]. intros y Hy. destruct (Hn y) as [Hy1 Hy2]; [by right|].
    split; [by apply Ha|]. rewrite Hh. assert (y <> n) by (intros ->; done). set_solver.
  - destruct l as [|x l].
    + rewrite pop_empty by done. destruct (IH q [] Hq Hd Hn) as (q2 & -> & H2).
      destruct (fifo ops []) as [rs l2]. by exists q2.
    + destruct (pop_holds q x l Hq) as (q1 & -> & H1 & Hh & Ha).
      destruct (IH q1 l H1 Hd) as (q2 & -> & H2); [|by destruct (fifo ops l) as [rs l2]; exists q2].
      intros y Hy. destruct (Hn y Hy) as [[v Hy1] Hy2]. split; [apply Ha; by exists v|].
      apply not_elem_of_cons. split; [|set_solver].
      intros ->. destruct Hh as [Hh|Hh]; [|congruence]. rewrite Hh in Hy2. set_solver.
Qed.
End alone.

(** ** Pushes of several threads *)

Definition producer (c : pc) : option nat :=
  match c with
  | P_init n | P_load n | P_cas n _ | P_tail n _ | P_count n | P_done n => Some n
  | _ => None
  end.

(** The thread's node has been linked: its compare-and-swap has succeeded. *)
Definition linked (c : pc) : bool :=
  match c with P_tail _ _ | P_count _ | P_done _ => true | _ => false end.

(** [q] is queue [l0] behind stub [h] with the nodes [added] of the threads that
    have linked theirs; the tail is at the end, or one node behind it while the
    thread that has linked the last node has still to move it. *)
Record pushing (h : nat) (l0 ns : list nat) (q : LR_LFQueue) (ts : list pc) (added : list nat) : Prop := {
  g_nodes : map producer ts = map Some ns;
  g_head : head q = h;
  g_chain : chain (mem q) h (l0 ++ added);
  g_nodup : NoDup (h :: l0 ++ added);
  g_linked : forall i c n, ts !! i = Some c -> producer c = Some n -> (n ∈ added <-> linked c = true);
  g_added : forall n, n ∈ added -> n ∈ ns;
  g_alloc : forall n, n ∈ ns -> is_Some (mem q !! n);
  g_null : forall i c n, ts !! i = Some c -> c = P_load n \/ (exists prev, c = P_cas n prev) -> mem q !! n = Some None;
  g_tail : exists a b, h :: l0 ++ added = a ++ tail q :: b /\
    (forall i n prev, ts !! i = Some (P_cas n prev) -> prev ∈ a ++ [tail q]) /\
    (forall i n prev, ts !! i = Some (P_tail n prev) -> b = [n] /\ prev = tail q) /\
    (b = [] \/ exists i n, b = [n] /\ ts !! i = Some (P_tail n (tail q)))
}.

Section pushes.
Context (calloc : memory -> option nat).
Context (h : nat) (l0 ns : list nat).
Context (Hdistinct : NoDup ns).
Context (Hnew : forall n, n ∈ ns -> n ∉ h :: l0).

Lemma thread_node q ts added i c :
  pushing h l0 ns q ts added -> ts !! i = Some c -> exists n, producer c = Some n /\ ns !! i = Some n.
Proof using Hdistinct Hnew.
  intros Hp Hi. assert (map producer ts !! i = Some (producer c)) as H by by rewrite list_lookup_fmap, Hi.
  rewrite (g_nodes _ _ _ _ _ _ Hp), list_lookup_fmap in H.
  destruct (ns !! i) as [n|]; [|done]. injection H as H. by exists n.
Qed.

Lemma thread_of_node q ts added :
  pushing h l0 ns q ts added -> forall n, n ∈ ns -> exists i c, ts !! i = Some c /\ producer c = Some n.
Proof using Hdistinct Hnew.
  intros Hp n [i Hi]%list_elem_of_lookup_1. pose proof (f_equal (lookup i) (g_nodes _ _ _ _ _ _ Hp)) as H.
  rewrite !list_lookup_fmap, Hi in H. destruct (ts !! i) as [c|] eqn:E; [|done].
  injection H as H. by exists i, c.
Qed.

(** Two threads have two nodes. *)
Lemma same_thread q ts added i j c d n :
  pushing h l0 ns q ts added -> ts !! i = Some c -> ts !! j = Some d ->
  producer c = Some n -> producer d = Some n -> i = j.
Proof using Hdistinct Hnew.
  intros Hp Hi Hj Hc Hd. destruct (thread_node _ _ _ _ _ Hp Hi) as (n1 & E1 & H1).
  destruct (thread_node _ _ _ _ _ Hp Hj) as (n2 & E2 & H2).
  eapply NoDup_lookup; [done|exact H1|]. congruence.
Qed.

Lemma unlinked_new q ts added i c n :
  pushing h l0 ns q ts added -> ts !! i = Some c -> producer c = Some n -> linked c = false ->
  n ∉ h :: l0 ++ added.
Proof using Hdistinct Hnew.
  intros Hp Hi Hc Hl. destruct (thread_node _ _ _ _ _ Hp Hi) as (n1 & E1 & H1).
  assert (n = n1) as <- by congruence. pose proof (Hnew n (list_elem_of_lookup_2 _ _ _ H1)) as Hn.
  assert (n ∉ added) by (rewrite (g_linked _ _ _ _ _ _ Hp i c n Hi Hc); by rewrite Hl).
  set_solver.
Qed.

Lemma nodes_step ts i c c' :
  ts !! i = Some c -> producer c' = producer c -> map producer (<[i := c']> ts) = map producer ts.
Proof using Hdistinct Hnew.
  intros Hi Hc. rewrite list_fmap_insert, Hc. apply list_insert_id. by rewrite list_lookup_fmap, Hi.
Qed.

(** A step that does not touch the queue, and neither links nor moves the tail. *)
Lemma pushing_local q ts added i c c' :
  pushing h l0 ns q ts added -> ts !! i = Some c -> producer c' = producer c -> linked c' = linked c ->
  (forall n prev, c <> P_tail n prev) ->
  (forall n prev, c' = P_cas n prev -> prev = tail q /\ mem q !! n = Some None) ->
  (forall n, c' = P_load n -> mem q !! n = Some None) ->
  (forall n prev, c' <> P_tail n prev) ->
  pushing h l0 ns q (<[i := c']> ts) added.
Proof using Hdistinct Hnew.
  intros Hp Hi Hprod Hlink Hc Hcas Hload Htl. destruct Hp as [G1 G2 G3 G4 G5 G6 G7 G8 G9]. split; try done.
  - by rewrite (nodes_step ts i c).
  - intros j d n [(<- & -> & _)|[? Hj]]%list_lookup_insert_Some Hd; [|by eapply G5].
    rewrite Hlink. eapply G5; [done|by rewrite <- Hprod].
  - intros j d n [(<- & -> & _)|[? Hj]]%list_lookup_insert_Some Hd; [|by eapply G8].
    destruct Hd as [->|(prev & ->)]; [by apply Hload|by eapply Hcas].
  - destruct G9 as (a & b & Hab & H1 & H2 & H3). exists a, b. split; [done|]. split; [|split].
    + intros j n prev [(<- & E & _)|[? Hj]]%list_lookup_insert_Some; [|by eapply H1].
      destruct (Hcas n prev) as [-> _]; [done|]. set_solver.
    + intros j n prev [(<- & E & _)|[? Hj]]%list_lookup_insert_Some; [by destruct (Htl n prev)|by eapply H2].
    + destruct H3 as [->|(j & n & -> & Hj)]; [by left|right]. exists j, n. split; [done|].
      rewrite list_lookup_insert_ne; [done|]. intros ->. rewrite Hi in Hj. injection Hj as ->. by destruct (Hc n (tail q)).
Qed.

Lemma step_init q ts added i n :
  pushing h l0 ns q ts added -> ts !! i = Some (P_init n) ->
  pushing h l0 ns (set_next n None q) (<[i := P_load n]> ts) added.
Proof using Hdistinct Hnew.
  intros Hp Hi. pose proof (unlinked_new _ _ _ _ _ n Hp Hi eq_refl eq_refl) as Hn.
  assert (pushing h l0 ns (set_next n None q) ts added) as Hp'.
  { destruct Hp as [G1 G2 G3 G4 G5 G6 G7 G8 G9]. split; try done.
    - by apply chain_other.
    - intros m Hm. by apply allocated_insert, G7.
    - intros j c m Hj Hc. cbn. destruct (decide (n = m)) as [->|?]; [by rewrite lookup_insert_eq|].
      rewrite lookup_insert_ne by done. by eapply G8. }
  eapply pushing_local; try done. intros m [= <-]. cbn. by rewrite lookup_insert_eq.
Qed.

Lemma step_link q ts added i n prev :
  pushing h l0 ns q ts added -> ts !! i = Some (P_cas n prev) -> mem q !! prev = Some None ->
  pushing h l0 ns (set_next prev (Some n) q) (<[i := P_tail n prev]> ts) (added ++ [n]).
Proof using Hdistinct Hnew.
  intros Hp Hi Hprev. pose proof (unlinked_new _ _ _ _ _ n Hp Hi eq_refl eq_refl) as Hn.
  pose proof (fun j c m Hj => unlinked_new q ts added j c m Hp Hj) as Hout.
  pose proof (same_thread q ts added i) as Hsame. pose proof Hp as Hp0.
  destruct (thread_node _ _ _ _ _ Hp Hi) as (n1 & E1 & Hns). injection E1 as <-.
  destruct Hp as [G1 G2 G3 G4 G5 G6 G7 G8 G9]. destruct G9 as (a & b & Hab & H1 & H2 & H3).
  assert (prev ∈ a ++ [tail q]) as Hin by by eapply H1.
  assert (prev ∈ h :: l0 ++ added) as Hin' by (rewrite Hab; set_solver).
  pose proof (chain_null _ _ _ _ G4 G3 Hin' Hprev) as Hend.
  assert (b = [] /\ prev = tail q) as [-> Htail] by by eapply (end_is_tail h (l0 ++ added) a b).
  split.
  - by rewrite (nodes_step ts i (P_cas n prev)).
  - done.
  - cbn [mem set_next]. rewrite Hend, app_assoc. apply chain_snoc; [done|done| |done]. by eapply G8; eauto.
  - rewrite app_assoc. change (h :: (l0 ++ added) ++ [n]) with ((h :: l0 ++ added) ++ [n]).
    apply NoDup_app. split; [done|]. split; [|by apply NoDup_singleton].
    intros x Hx ->%list_elem_of_singleton. done.
  - intros j c m [(<- & <- & _)|[Hj Hts]]%list_lookup_insert_Some Hc.
    + injection Hc as <-. split; [done|]. set_solver.
    + rewrite <- (G5 j c m Hts Hc). assert (m <> n); [|set_solver].
      intros ->. apply Hj. by eapply Hsame.
  - intros m [Hm| ->%list_elem_of_singleton]%elem_of_app; [by apply G6|]. by eapply list_elem_of_lookup_2.
  - intros m Hm. by apply allocated_insert, G7.
  - intros j c m [(<- & <- & _)|[Hj Hts]]%list_lookup_insert_Some Hc; [naive_solver|].
    cbn [mem set_next]. rewrite lookup_insert_ne; [by eapply G8|]. intros ->.
    apply (Hout j c m Hts); [by destruct Hc as [->|[? ->]]|by destruct Hc as [->|[? ->]]|done].
  - exists a, [n]. split; [rewrite app_assoc; change (h :: (l0 ++ added) ++ [n]) with ((h :: l0 ++ added) ++ [n]);
      rewrite Hab, <- app_assoc; done|]. cbn [tail set_next]. split; [|split].
    + intros j m p [(<- & E & _)|[Hj Hts]]%list_lookup_insert_Some; [done|by eapply H1].
    + intros j m p [(<- & E & _)|[Hj Hts]]%list_lookup_insert_Some; [by injection E as -> ->|].
      destruct (H2 j m p Hts) as [? _]. done.
    + right. exists i, n. split; [done|]. rewrite list_lookup_insert_eq; [by rewrite Htail|].
      by eapply lookup_lt_Some.
Qed.

Lemma step_tail q ts added i n prev :
  pushing h l0 ns q ts added -> ts !! i = Some (P_tail n prev) ->
  prev = tail q /\ pushing h l0 ns (set_tail n q) (<[i := P_count n]> ts) added.
Proof using Hdistinct Hnew.
  intros Hp Hi. pose proof (same_thread q ts added i) as Hsame. pose proof Hp as Hp0.
  destruct Hp as [G1 G2 G3 G4 G5 G6 G7 G8 G9]. destruct G9 as (a & b & Hab & H1 & H2 & H3).
  destruct (H2 i n prev Hi) as [-> ->]. split; [done|]. split; try done.
  - by rewrite (nodes_step ts i (P_tail n (tail q))).
  - intros j c m [(<- & <- & _)|[Hj Hts]]%list_lookup_insert_Some Hc; [|by eapply G5].
    injection Hc as <-. by eapply (G5 i (P_tail n (tail q))).
  - intros j c m [(<- & <- & _)|[Hj Hts]]%list_lookup_insert_Some Hc; [naive_solver|by eapply G8].
  - exists (a ++ [tail q]), []. split; [cbn [tail set_tail]; by rewrite Hab, <- app_assoc|]. cbn [tail set_tail].
    split; [|split].
    + intros j m p [(<- & E & _)|[Hj Hts]]%list_lookup_insert_Some; [done|].
      pose proof (H1 j m p Hts). set_solver.
    + intros j m p [(<- & E & _)|[Hj Hts]]%list_lookup_insert_Some; [done|].
      destruct (H2 j m p Hts) as [[= <-] ->]. destruct Hj. by eapply Hsame.
    + by left.
Qed.

(** Any thread can perform its next operation, and the queue stays in order. *)
Lemma pushing_step q ts added i c :
  pushing h l0 ns q ts added -> ts !! i = Some c ->
  exists q' c' more, step calloc q c = Some (q', c') /\ pushing h l0 ns q' (<[i := c']> ts) (added ++ more).
Proof using Hdistinct Hnew.
  intros Hp Hi. destruct (thread_node _ _ _ _ _ Hp Hi) as (n & Hc & Hns).
  destruct c as [m|m|m prev|m prev|m|m| | | | | | | | |]; try done; injection Hc as ->.
  - destruct (g_alloc _ _ _ _ _ _ Hp n) as [v Hv]; [by eapply list_elem_of_lookup_2|].
    exists (set_next n None q), (P_load n), []. cbn [step]. rewrite Hv, app_nil_r.
    split; [done|]. by apply step_init.
  - exists q, (P_cas n (tail q)), []. rewrite app_nil_r. split; [done|].
    eapply pushing_local; try done; intros m p [= <- <-]. split; [done|].
    eapply (g_null _ _ _ _ _ _ Hp); eauto.
  - destruct (g_tail _ _ _ _ _ _ Hp) as (a & b & Hab & H1 & _).
    assert (is_Some (mem q !! prev)) as [[v|] Hv].
    { eapply chain_alloc; [apply (g_chain _ _ _ _ _ _ Hp)|]. rewrite Hab. pose proof (H1 _ _ _ Hi). set_solver. }
    + exists q, (P_load n), []. cbn [step]. rewrite Hv, app_nil_r. split; [done|].
      eapply pushing_local; try done. intros m [= <-]. eapply (g_null _ _ _ _ _ _ Hp); eauto.
    + exists (set_next prev (Some n) q), (P_tail n prev), [n]. cbn [step]. rewrite Hv. split; [done|].
      by apply step_link.
  - destruct (step_tail _ _ _ _ _ _ Hp Hi) as [-> Hp']. exists (set_tail n q), (P_count n), [].
    cbn [step]. rewrite Nat.eqb_refl, app_nil_r. done.
  - exists (add_count 1 q), (P_done n), []. rewrite app_nil_r. split; [done|].
    assert (pushing h l0 ns (add_count 1 q) ts added) as Hp' by (destruct Hp; by split).
    eapply pushing_local; done.
  - exists q, (P_done n), []. rewrite app_nil_r. split; [done|]. eapply pushing_local; done.
Qed.

Lemma schedule_pushing order q ts added :
  pushing h l0 ns q ts added ->
  exists q' ts' more, schedule calloc order (q, ts) = Some (q', ts') /\ pushing h l0 ns q' ts' (added ++ more).
Proof using Hdistinct Hnew.
  revert q ts added. induction order as [|i order IH]; intros q ts added Hp; cbn [schedule].
  - exists q, ts, []. by rewrite app_nil_r.
  - unfold thread_step. cbn [fst snd]. destruct (ts !! i) as [c|] eqn:Hi; [|by apply IH].
    destruct (pushing_step _ _ _ _ _ Hp Hi) as (q1 & c1 & more & -> & Hp1).
    destruct (IH _ _ _ Hp1) as (q2 & ts2 & more2 & -> & Hp2). exists q2, ts2, (more ++ more2).
    by rewrite app_assoc.
Qed.

Lemma pushing_start q : holds q l0 -> head q = h -> (forall n, n ∈ ns -> is_Some (mem q !! n)) ->
  pushing h l0 ns q (map P_init ns) [].
Proof using Hdistinct Hnew.
  intros [Hc Ht Hd _] Hh Ha.
  assert (forall i c, map P_init ns !! i = Some c -> exists n, c = P_init n) as Hin.
  { intros i c Hi. rewrite list_lookup_fmap in Hi. destruct (ns !! i); [|done]. injection Hi as <-. eauto. }
  split; rewrite ?app_nil_r; try done; try (by rewrite <- Hh).
  - rewrite map_map. done.
  - intros i c n (m & ->)%Hin Hm. set_solver.
  - set_solver.
  - intros i c n (m & ->)%Hin [?|[? ?]]; done.
  - destruct (ends_with h l0) as [a Ha']. exists a, []. rewrite Ht, Hh. split; [done|].
    split; [|split; [|by left]]; intros i m p (x & Hx)%Hin; done.
Qed.
End pushes.

(** ** Theorems *)

(** C12: Used by one thread at a time, the queue is a first-in first-out list: from
    [lr_lfq_init] on, whatever pushes of distinct nodes and pops follow, no invalid
    address is read and every pop returns what the list returns, as long as the
    nodes that were popped stay allocated. *)
Theorem queue_is_fifo (calloc : memory -> option nat) (m : memory) (q : LR_LFQueue) (ops : list operation) :
  (forall m s, calloc m = Some s -> m !! s = None) ->
  lr_lfq_init calloc m = Some q ->
  NoDup (pushed ops) -> (forall n, n ∈ pushed ops -> is_Some (m !! n)) ->
  exists q', perform calloc ops q = Some ((fifo ops []).1, q') /\ holds q' (fifo ops []).2 /\
    lr_lfq_peek q' = Some (List.hd_error (fifo ops []).2).
Proof.
  intros Hcalloc Hq Hd Ha. pose proof (init_holds calloc m q Hq) as Hh.
  destruct (perform_fifo calloc Hcalloc ops q [] Hh Hd) as (q' & Hp & Hq').
  - intros n Hn. unfold lr_lfq_init in Hq. destruct (calloc m) as [s|] eqn:Es; [|done].
    injection Hq as <-. cbn. split; [by apply allocated_insert, Ha|].
    intros ->%list_elem_of_singleton. destruct (Ha s Hn) as [v Hv]. by rewrite (Hcalloc _ _ Es) in Hv.
  - exists q'. split; [done|]. split; [done|]. destruct Hq' as [Hc _ _ _]. unfold lr_lfq_peek.
    destruct (fifo ops []).2; [done|apply Hc].
Qed.

(** C11: Pushes of several threads are linearizable: however their atomic
    operations interleave, none reads an invalid address, the queue holds what it
    held, followed by the nodes of exactly those threads whose compare-and-swap has
    succeeded, each once; when all are done the tail is in place and all their nodes
    are there. *)
Theorem pushes_linearizable (calloc : memory -> option nat) (q : LR_LFQueue) (l0 ns order : list nat) :
  holds q l0 -> NoDup ns -> (forall n, n ∈ ns -> n ∉ head q :: l0 /\ is_Some (mem q !! n)) ->
  exists q' ts' added, schedule calloc order (q, map P_init ns) = Some (q', ts') /\
    chain (mem q') (head q) (l0 ++ added) /\ head q' = head q /\ NoDup added /\
    (forall i c n, ts' !! i = Some c -> producer c = Some n -> (n ∈ added <-> linked c = true)) /\
    (Forall (fun c => finished c = true) ts' -> tail q' = end_of (head q') (l0 ++ added) /\ added ≡ₚ ns).
Proof.
  intros Hq Hd Hn. assert (forall n, n ∈ ns -> n ∉ head q :: l0) as Hn1 by (intros n Hin; by apply Hn).
  assert (pushing (head q) l0 ns q (map P_init ns) []) as Hp
    by (apply pushing_start; [done|done|done|done|intros n Hin; by apply Hn]).
  destruct (schedule_pushing calloc (head q) l0 ns Hd Hn1 order q _ [] Hp) as (q' & ts' & added & Hs & Hp').
  cbn [app] in Hp'. exists q', ts', added. pose proof (thread_of_node (head q) l0 ns Hd Hn1 _ _ _ Hp') as Hth.
  destruct Hp' as [G1 G2 G3 G4 G5 G6 G7 G8 G9]. split; [done|]. split; [done|]. split; [done|].
  assert (NoDup added) as Hda by (apply NoDup_cons in G4 as [_ G4]; by apply NoDup_app in G4 as (_ & _ & ?)).
  split; [done|]. split; [done|]. intros Hfin. rewrite Forall_lookup in Hfin. split.
  - destruct G9 as (a & b & Hab & _ & _ & [->|(i & n & _ & Hi)]); [|by specialize (Hfin _ _ Hi)].
    destruct (ends_with (head q) (l0 ++ added)) as [a' Ha']. rewrite Ha' in Hab. rewrite G2.
    by apply app_inj_tail in Hab as [_ ->].
  - apply NoDup_Permutation; [done|done|]. intros n. split; [apply G6|]. intros Hin.
    destruct (Hth n Hin) as (i & c & Hi & Hc). apply (G5 i c n Hi Hc).
    specialize (Hfin i c Hi). by destruct c.
Qed.

(** The comment of [lr_lfq_pop] says that the caller may free the node it gets:
    when more nodes follow, that node is the queue's new stub, and the next pop
    reads freed memory. *)
Lemma pop_frees_the_stub (calloc : memory -> option nat) q x y l :
  holds q (x :: y :: l) ->
  exists q', lr_lfq_pop calloc q = Some (Some x, q') /\ lr_lfq_pop calloc (free_node x q') = None.
Proof.
  intros [(Hh & Hx & Hc) Ht Hd Hk]. exists (add_count (-1) (set_head x q)). split.
  - unfold lr_lfq_pop. cbn [alone finished step]. rewrite Hh. cbn [alone finished step]. by rewrite Hx.
  - unfold lr_lfq_pop. cbn [alone finished step]. cbn [mem head free_node add_count set_head].
    by rewrite lookup_delete_eq.
Qed.

(** A thread that has lost the race for the end waits for the winner to move the
    tail: its push does not come to an end while the winner is suspended. *)
Lemma push_waits (calloc : memory -> option nat) q n k :
  mem q !! tail q = Some (Some n) ->
  exists q' c, schedule calloc (replicate k 0%nat) (q, [P_load n]) = Some (q', [c]) /\ finished c = false.
Proof.
  intros Ht. cut (forall c, c = P_load n \/ c = P_cas n (tail q) ->
    exists q' c', schedule calloc (replicate k 0%nat) (q, [c]) = Some (q', [c']) /\ finished c' = false);
    [intros H; apply H; by left|].
  induction k as [|k IH]; intros c [->| ->]; cbn [replicate schedule]; try (by eexists _, _).
  - unfold thread_step. cbn [fst snd lookup list_lookup step]. apply IH. by right.
  - unfold thread_step. cbn [fst snd lookup list_lookup step]. rewrite Ht. apply IH. by left.
Qed.

(** *** A push that is lost, and witnesses *)

Definition first_free (m : memory) : option nat :=
  List.find (fun s => match m !! s with None => true | Some _ => false end) (seq 0 20).

Lemma first_free_free m s : first_free m = Some s -> m !! s = None.
Proof. intros H%List.find_some. destruct H as [_ H]. by destruct (m !! s). Qed.

(** Nodes 1, 2 and 3 of the caller. *)
Definition three_nodes : memory := {[1%nat := None; 2%nat := None; 3%nat := None]}.

Definition one_queued : LR_LFQueue :=
  default (MkQueue ∅ 0 0 0)
    (q ← lr_lfq_init first_free three_nodes; lr_lfq_push first_free q 1).

(** The last node is popped while another is pushed behind it: the consumer has
    read that nothing follows, the push is completed, the consumer puts a new stub.
    The push has returned 0, the queue is empty, and its count is 1. *)
Lemma push_during_pop_is_lost : exists q',
  schedule first_free [1; 1; 1; 0; 0; 0; 0; 0; 1; 1; 1; 1]%nat (one_queued, [P_init 2; C_head])
    = Some (q', [P_done 2; C_done (Some 1%nat)]) /\
  lr_lfq_peek q' = Some None /\ lr_lfq_count q' = 1.
Proof. eexists. split; [vm_compute; reflexivity|]. by split. Qed.

Lemma queue_is_fifo_witness : exists q',
  perform first_free [Push 1; Push 2; Pop; Push 3; Pop; Pop; Pop]
    (default one_queued (lr_lfq_init first_free three_nodes))
    = Some ([Some 1%nat; Some 2%nat; Some 3%nat; None], q') /\ holds q' [] /\ lr_lfq_peek q' = Some None.
Proof.
  apply (queue_is_fifo first_free three_nodes _ [Push 1; Push 2; Pop; Push 3; Pop; Pop; Pop]
    first_free_free); [reflexivity|apply (bool_decide_unpack _); vm_compute; exact I|].
  intros n Hn. apply (bool_decide_unpack _). cbn in Hn.
  repeat (apply elem_of_cons in Hn as [->|Hn]; [vm_compute; exact I|]). by apply not_elem_of_nil in Hn.
Defined.

Lemma pushes_linearizable_witness :
  exists q' ts' added, schedule first_free [0; 1; 0; 1; 0; 1; 1; 0; 1; 1; 1; 0; 1; 1; 1]%nat
      (one_queued, [P_init 2; P_init 3]) = Some (q', ts') /\
    chain (mem q') (head one_queued) ([1%nat] ++ added) /\ head q' = head one_queued /\ NoDup added /\
    (forall i c n, ts' !! i = Some c -> producer c = Some n -> (n ∈ added <-> linked c = true)) /\
    (Forall (fun c => finished c = true) ts' -> tail q' = end_of (head q') ([1%nat] ++ added) /\ added ≡ₚ [2; 3]%nat).
Proof.
  apply (pushes_linearizable first_free one_queued [1%nat] [2; 3]%nat).
  - destruct (init_holds first_free three_nodes _ eq_refl) as [Hc Ht Hd Hk].
    split; [split; reflexivity|reflexivity|apply (bool_decide_unpack _); vm_compute; exact I|reflexivity].
  - apply (bool_decide_unpack _); vm_compute; exact I.
  - intros n Hn. repeat (apply elem_of_cons in Hn as [->|Hn];
      [split; apply (bool_decide_unpack _); vm_compute; exact I|]). by apply not_elem_of_nil in Hn.
Defined.
