(* ===== verification/Scheduler.v ===== *)
(** The task scheduler ([src/src/lr_scheduler.c]): the list of scheduled tasks,
    sorted by the time of the next run, and one pass over it.

    Every operation holds the scheduler's mutex, so it is one step.  The list is
    the chain from [task_head]; [lr_scheduler_process] walks it with a pointer
    [prev] that it does not move when it removes or re-inserts a task, so the chain
    is kept in three parts: up to [prev], between [prev] and the task at hand, and
    from that task on.  The clock is an argument.  Times are [int64_t].  What is
    handed to the thread pool, and which tasks are freed, is recorded in order.
    The waiting loops around [lr_scheduler_process] are not modelled. *)

From stdpp Require Import base list sorting.
From Stdlib Require Import ZArith Lia.
From S2P Require Import Prelude.

Inductive LR_SchedType := LR_SCHED_ONESHOT | LR_SCHED_REPEAT | LR_SCHED_CRON.

Record LR_SchedTask := MkTask {
  id : Z;
  type : LR_SchedType;
  task : nat;
  interval_us : Z;
  next_run_us : Z;
  repeat_count : Z;
  run_count : Z;
  cancelled : bool
}.

Record LR_Scheduler := MkSched {
  task_head : list LR_SchedTask;
  next_task_id : Z;
  tasks_scheduled : Z;
  tasks_executed : Z;
  tasks_dropped : Z;
  submitted : list nat;            (* lr_thread_pool_submit *)
  freed : list nat                 (* lr_task_free *)
}.

Definition lr_scheduler_create : LR_Scheduler := MkSched [] 1 0 0 0 [] [].

Definition with_tasks (l : list LR_SchedTask) (s : LR_Scheduler) : LR_Scheduler :=
  MkSched l (next_task_id s) (tasks_scheduled s) (tasks_executed s) (tasks_dropped s) (submitted s) (freed s).

(** [lr_scheduler_insert_task]: in front of the first task that runs later. *)
Fixpoint insert_task (st : LR_SchedTask) (l : list LR_SchedTask) : list LR_SchedTask :=
  match l with
  | [] => [st]
  | x :: l' => if next_run_us st <? next_run_us x then st :: l else x :: insert_task st l'
  end.

(** A new task; [ok]: [calloc] succeeds. *)
Definition add_task (ok : bool) (type : LR_SchedType) (task : nat) (interval next repeat : Z)
    (s : LR_Scheduler) : Z * LR_Scheduler :=
  if ok then
    (next_task_id s,
     MkSched (insert_task (MkTask (next_task_id s) type task interval next repeat 0 false) (task_head s))
       (i32 (next_task_id s + 1)) (i64 (tasks_scheduled s + 1)) (tasks_executed s) (tasks_dropped s)
       (submitted s) (freed s))
  else (-1, s).

Definition lr_scheduler_schedule (ok : bool) (now : Z) (task : nat) (interval_us repeat_count : Z)
    (s : LR_Scheduler) : Z * LR_Scheduler :=
  add_task ok (if repeat_count =? 0 then LR_SCHED_ONESHOT else LR_SCHED_REPEAT) task interval_us now
    repeat_count s.

Definition lr_scheduler_schedule_delayed (ok : bool) (now : Z) (task : nat) (delay_us : Z)
    (s : LR_Scheduler) : Z * LR_Scheduler :=
  add_task ok LR_SCHED_ONESHOT task 0 (i64 (now + delay_us)) 0 s.

Definition lr_scheduler_schedule_now (ok : bool) (now : Z) (task : nat) (s : LR_Scheduler) : Z * LR_Scheduler :=
  lr_scheduler_schedule_delayed ok now task 0 s.

Definition cancel_task (st : LR_SchedTask) : LR_SchedTask :=
  MkTask (id st) (type st) (task st) (interval_us st) (next_run_us st) (repeat_count st) (run_count st) true.

(** The first task with the number, if any. *)
Fixpoint cancel_first (n : Z) (l : list LR_SchedTask) : option (list LR_SchedTask) :=
  match l with
  | [] => None
  | st :: l' =>
      if id st =? n then Some (cancel_task st :: l')
      else match cancel_first n l' with Some k => Some (st :: k) | None => None end
  end.

Definition lr_scheduler_cancel (n : Z) (s : LR_Scheduler) : Z * LR_Scheduler :=
  match cancel_first n (task_head s) with
  | Some l => (0, with_tasks l s)
  | None => (-1, s)
  end.

(** ** One pass *)

(** The chain while it is walked. *)
Record walk := MkWalk {
  upto : list LR_SchedTask;          (* from task_head to prev *)
  between : list LR_SchedTask;       (* behind prev, in front of st *)
  ahead : list LR_SchedTask          (* from st on *)
}.

Definition chain (w : walk) : list LR_SchedTask := upto w ++ between w ++ ahead w.

(** [lr_scheduler_insert_task] into the chain, behind [prev] or in front of it. *)
Fixpoint insert_until (st : LR_SchedTask) (l : list LR_SchedTask) : option (list LR_SchedTask) :=
  match l with
  | [] => None
  | x :: l' =>
      if next_run_us st <? next_run_us x then Some (st :: l)
      else match insert_until st l' with Some k => Some (x :: k) | None => None end
  end.

Definition insert_walk (st : LR_SchedTask) (w : walk) : walk :=
  match insert_until st (upto w) with
  | Some k => MkWalk k (between w) (ahead w)
  | None =>
      match insert_until st (between w) with
      | Some k => MkWalk (upto w) k (ahead w)
      | None =>
          match ahead w with
          | [] => MkWalk (upto w) (between w ++ [st]) []
          | x :: l =>
              if next_run_us st <? next_run_us x then MkWalk (upto w) (between w ++ [st]) (x :: l)
              else MkWalk (upto w) (between w) (x :: insert_task st l)
          end
      end
  end.

(** [prev->next = st->next], or [task_head = st->next] when there is no [prev]. *)
Definition unlink (w : walk) : walk := MkWalk (upto w) [] (List.tl (ahead w)).

Definition is_repeat (st : LR_SchedTask) : bool := match type st with LR_SCHED_REPEAT => true | _ => false end.

Definition ran (st : LR_SchedTask) : LR_SchedTask :=
  MkTask (id st) (type st) (task st) (interval_us st) (next_run_us st) (repeat_count st)
    (i32 (run_count st + 1)) (cancelled st).

Definition run_at (t : Z) (st : LR_SchedTask) : LR_SchedTask :=
  MkTask (id st) (type st) (task st) (interval_us st) t (repeat_count st) (run_count st) (cancelled st).

Definition drop_task (st : LR_SchedTask) (s : LR_Scheduler) : LR_Scheduler :=
  MkSched (task_head s) (next_task_id s) (tasks_scheduled s) (tasks_executed s)
    (i64 (tasks_dropped s + 1)) (submitted s) (freed s ++ [task st]).

Definition submit (st : LR_SchedTask) (s : LR_Scheduler) : LR_Scheduler :=
  MkSched (task_head s) (next_task_id s) (tasks_scheduled s) (i64 (tasks_executed s + 1))
    (tasks_dropped s) (submitted s ++ [task st]) (freed s).

(** [while (st)]; the result is the number of tasks executed. *)
Fixpoint process_loop (fuel : nat) (now : Z) (w : walk) (executed : Z) (s : LR_Scheduler)
    : option (Z * LR_Scheduler) :=
  match ahead w with
  | [] => Some (executed, with_tasks (chain w) s)
  | st :: rest =>
      match fuel with
      | O => None
      | S fuel' =>
          if cancelled st then process_loop fuel' now (unlink w) executed (drop_task st s)
          else if next_run_us st <=? now then
            let s' := submit st s in
            let st' := ran st in
            if is_repeat st' && ((repeat_count st' <? 0) || (run_count st' <? repeat_count st')) then
              process_loop fuel' now
                (insert_walk (run_at (i64 (now + interval_us st')) st') (unlink w)) (executed + 1) s'
            else process_loop fuel' now (unlink w) (executed + 1) s'
          else process_loop fuel' now (MkWalk (upto w ++ between w ++ [st]) [] rest) executed s
      end
  end.

Definition lr_scheduler_process (fuel : nat) (now : Z) (s : LR_Scheduler) : option (Z * LR_Scheduler) :=
  process_loop fuel now (MkWalk [] [] (task_head s)) 0 s.

Definition lr_scheduler_pending_count (s : LR_Scheduler) : Z :=
  Z.of_nat (length (List.filter (fun st => negb (cancelled st)) (task_head s))).

(** The tasks freed when the scheduler is destroyed. *)
Definition lr_scheduler_destroy (s : LR_Scheduler) : list nat :=
  freed s ++ map task (List.filter (fun st => negb (cancelled st)) (task_head s)).
