(* ===== verification/SchedulerOk.v ===== *)
(** One pass of the scheduler runs the tasks that are due, in the order of their
    times, and puts the repeating ones back; the list stays sorted. *)

From stdpp Require Import base list sorting.
From Stdlib Require Import ZArith Lia.
From S2P Require Import Prelude.
From S2P Require Import Scheduler.

Definition earlier (x y : LR_SchedTask) : Prop := next_run_us x <= next_run_us y.

Definition due (now : Z) (st : LR_SchedTask) : bool := next_run_us st <=? now.

(** The task runs again after this run. *)
Definition again (st : LR_SchedTask) : bool :=
  is_repeat st && ((repeat_count st <? 0) || (i32 (run_count st + 1) <? repeat_count st)).

(** The task as it is put back. *)
Definition next_run (now : Z) (st : LR_SchedTask) : LR_SchedTask := run_at (i64 (now + interval_us st)) (ran st).

(** The specification of a pass. *)
Definition put_back (now : Z) (l later : list LR_SchedTask) : list LR_SchedTask :=
  fold_left (fun acc st => insert_task (next_run now st) acc) (List.filter again l) later.

(** ** Insertion *)

Lemma insert_perm st l : insert_task st l ≡ₚ st :: l.
Proof.
  induction l as [|x l IH]; cbn; [done|]. case_match; [done|]. rewrite IH. by constructor.
Qed.

Lemma insert_sorted st l : StronglySorted earlier l -> StronglySorted earlier (insert_task st l).
Proof.
  induction 1 as [|x l Hl IH Hx]; cbn; [by repeat constructor|].
  destruct (Z.ltb_spec (next_run_us st) (next_run_us x)) as [H|H].
  - constructor; [by constructor|]. constructor; [unfold earlier; lia|].
    eapply Forall_impl; [exact Hx|]. unfold earlier. intros y Hy. lia.
  - constructor; [done|]. rewrite insert_perm. by constructor.
Qed.

Lemma insert_past st l1 l2 :
  Forall (fun x => next_run_us x <= next_run_us st) l1 -> insert_task st (l1 ++ l2) = l1 ++ insert_task st l2.
Proof.
  induction 1 as [|x l1 Hx Hl IH]; cbn; [done|].
  destruct (Z.ltb_spec (next_run_us st) (next_run_us x)); [lia|]. by rewrite IH.
Qed.

Lemma insert_until_eq st l1 l2 :
  insert_task st (l1 ++ l2)
    = match insert_until st l1 with Some k => k ++ l2 | None => l1 ++ insert_task st l2 end.
Proof.
  induction l1 as [|x l1 IH]; [done|]. cbn [app insert_task insert_until].
  destruct (_ <? _); [done|]. rewrite IH. by destruct (insert_until st l1).
Qed.

(** Wherever [prev] is, a task is inserted into the chain. *)
Lemma insert_walk_chain st w : chain (insert_walk st w) = insert_task st (chain w).
Proof.
  unfold chain, insert_walk. rewrite insert_until_eq. destruct (insert_until st (upto w)); [done|].
  rewrite insert_until_eq. destruct (insert_until st (between w)) as [k|]; [done|].
  destruct (ahead w) as [|x l]; cbn; [by rewrite app_nil_r|].
  case_match; cbn; by rewrite <- ?app_assoc.
Qed.

Lemma insert_walk_ahead st l :
  between (insert_walk st (MkWalk [] [] l)) ++ ahead (insert_walk st (MkWalk [] [] l)) = insert_task st l.
Proof. destruct l as [|x l]; cbn; [done|]. by destruct (_ <? _). Qed.

Lemma insert_walk_length st l : (length (ahead (insert_walk st (MkWalk [] [] l))) <= S (length l))%nat.
Proof.
  pose proof (f_equal length (insert_walk_ahead st l)) as H. rewrite insert_perm, length_app in H. cbn [length] in H. lia.
Qed.

(** ** A pass *)

(** Tasks that are not due are passed over. *)
Lemma pass_later now w executed s fuel :
  Forall (fun st => cancelled st = false /\ due now st = false) (ahead w) -> (length (ahead w) <= fuel)%nat ->
  process_loop fuel now w executed s = Some (executed, with_tasks (chain w) s).
Proof.
  destruct w as [u b l]. revert u b fuel. cbn [ahead].
  induction l as [|st l IH]; intros u b fuel Hl Hf; [by destruct fuel|].
  destruct fuel as [|fuel]; [cbn in Hf; lia|]. apply Forall_cons in Hl as [[Hc Hd] Hl].
  cbn [process_loop ahead upto between]. rewrite Hc. unfold due in Hd. rewrite Hd.
  rewrite IH; [|done|cbn in Hf; lia]. unfold chain. cbn. by rewrite <- !app_assoc.
Qed.

(** What a pass hands to the thread pool. *)
Definition ran_all (l : list LR_SchedTask) (s : LR_Scheduler) : LR_Scheduler :=
  fold_left (fun s st => submit st s) l s.

Lemma ran_all_eq l s :
  submitted (ran_all l s) = submitted s ++ map task l /\ freed (ran_all l s) = freed s /\
  tasks_dropped (ran_all l s) = tasks_dropped s /\ next_task_id (ran_all l s) = next_task_id s.
Proof.
  revert s. induction l as [|st l IH]; intros s; cbn; [by rewrite app_nil_r|].
  destruct (IH (submit st s)) as (H1 & H2 & H3 & H4). unfold ran_all in *.
  rewrite H1, H2, H3, H4. cbn. by rewrite <- app_assoc.
Qed.

Lemma with_tasks_submit l st s : with_tasks l (submit st s) = submit st (with_tasks l s).
Proof. done. Qed.

Lemma pass_due now dues later executed s fuel :
  Forall (fun st => cancelled st = false /\ due now st = true /\
    (again st = true -> now < i64 (now + interval_us st))) dues ->
  Forall (fun st => cancelled st = false /\ due now st = false) later ->
  (2 * length dues + length later <= fuel)%nat ->
  process_loop fuel now (MkWalk [] [] (dues ++ later)) executed s
    = Some (executed + Z.of_nat (length dues), with_tasks (put_back now dues later) (ran_all dues s)).
Proof.
  revert later executed s fuel. induction dues as [|st dues IH]; intros later executed s fuel Hd Hl Hf.
  { rewrite pass_later by (cbn in *; done || lia). unfold put_back, ran_all, chain. cbn. by rewrite Z.add_0_r. }
  destruct fuel as [|fuel]; [cbn in Hf; lia|]. apply Forall_cons in Hd as [(Hc & Hdue & Hnext) Hd].
  cbn [app process_loop ahead]. rewrite Hc. unfold due in Hdue. rewrite Hdue.
  change (is_repeat (ran st) && ((repeat_count (ran st) <? 0) || (run_count (ran st) <? repeat_count (ran st))))
    with (again st).
  unfold unlink. cbn [upto ahead List.tl]. unfold put_back. cbn [List.filter].
  replace (executed + Z.of_nat (length (st :: dues))) with (executed + 1 + Z.of_nat (length dues)) by (cbn; lia).
  destruct (again st) eqn:Ea; [|apply IH; [done|done|cbn in Hf; lia]].
  specialize (Hnext eq_refl). cbn [fold_left]. set (st' := next_run now st).
  change (run_at (i64 (now + interval_us (ran st))) (ran st)) with st'.
  assert (cancelled st' = false /\ due now st' = false) as Hst' by (split; [done|unfold due; cbn; lia]).
  assert (Forall (fun x => cancelled x = false /\ due now x = false) (insert_task st' later)) as Hl'
    by (rewrite insert_perm; by constructor).
  assert (length (insert_task st' later) = S (length later)) as Hlen by by rewrite insert_perm.
  destruct dues as [|x dues].
  - rewrite pass_later.
    + unfold ran_all. rewrite insert_walk_chain. cbn. by rewrite Z.add_0_r.
    + rewrite <- (insert_walk_ahead st' later) in Hl'. by apply Forall_app in Hl' as [_ Hl'].
    + pose proof (insert_walk_length st' later) as Hw. cbn [length app] in *. lia.
  - assert (insert_walk st' (MkWalk [] [] ((x :: dues) ++ later)) = MkWalk [] [] ((x :: dues) ++ insert_task st' later)) as ->.
    { assert (Forall (fun y => next_run_us y <= next_run_us st') (x :: dues)) as Hp.
      { eapply Forall_impl; [exact Hd|]. intros y (_ & Hy & _). unfold due in Hy. cbn. lia. }
      rewrite <- (insert_past st' (x :: dues) later Hp). apply Forall_cons in Hp as [Hx _].
      clearbody st'. unfold insert_walk. cbn [upto between ahead insert_until app insert_task].
      destruct (Z.ltb_spec (next_run_us st') (next_run_us x)); [lia|done]. }
    rewrite IH; [done|done|done|]. cbn in Hf |- *. lia.
Qed.

Lemma none_due now l :
  Forall (fun st => due now st = false) l ->
  List.filter (due now) l = [] /\ List.filter (fun st => negb (due now st)) l = l.
Proof.
  induction 1 as [|x l Hx Hl [IH1 IH2]]; [done|]. cbn. rewrite Hx. cbn. by rewrite IH1, IH2.
Qed.

Lemma sorted_split now l :
  StronglySorted earlier l -> l = List.filter (due now) l ++ List.filter (fun st => negb (due now st)) l.
Proof.
  induction 1 as [|x l Hl IH Hx]; [done|]. destruct (due now x) eqn:E.
  - cbn. rewrite E. cbn. by rewrite <- IH.
  - destruct (none_due now (x :: l)) as [-> ->]; [|done]. constructor; [done|].
    eapply Forall_impl; [exact Hx|]. intros y Hy. unfold due, earlier in *. apply Z.leb_gt in E.
    apply Z.leb_gt. lia.
Qed.

Lemma put_back_perm now l later : put_back now l later ≡ₚ map (next_run now) (List.filter again l) ++ later.
Proof.
  unfold put_back. revert later. induction (List.filter again l) as [|st k IH]; intros later; [done|].
  cbn [fold_left map app]. rewrite IH, insert_perm. by rewrite Permutation_middle.
Qed.

(** ** The list stays sorted *)

Definition in_order (s : LR_Scheduler) : Prop := StronglySorted earlier (task_head s).

Lemma add_task_sorted ok ty t iv nx rc s : in_order s -> in_order (add_task ok ty t iv nx rc s).2.
Proof. intros H. unfold add_task. destruct ok; [|done]. by apply insert_sorted. Qed.

Lemma cancel_first_times n l k : cancel_first n l = Some k -> map next_run_us k = map next_run_us l.
Proof.
  revert k. induction l as [|x l IH]; intros k; [done|]. cbn. case_match; [by intros [= <-]|].
  destruct (cancel_first n l) as [m|]; [|done]. intros [= <-]. cbn. by rewrite (IH m).
Qed.

Lemma sorted_times l k : map next_run_us k = map next_run_us l -> StronglySorted earlier l -> StronglySorted earlier k.
Proof.
  revert k. induction l as [|x l IH]; intros [|y k] H; try done. injection H as Hy H.
  intros [Hl Hx]%StronglySorted_cons. apply StronglySorted_cons. split; [|by apply IH].
  apply (Forall_map next_run_us (fun t => next_run_us y <= t)). rewrite H, Hy. by apply Forall_map.
Qed.

Lemma sorted_cut l1 l2 l3 : StronglySorted earlier (l1 ++ l2 ++ l3) -> StronglySorted earlier (l1 ++ l3).
Proof.
  induction l1 as [|x l1 IH]; cbn.
  - by intros ?%StronglySorted_app_1_r.
  - intros [Hl Hx]%StronglySorted_cons. apply StronglySorted_cons. split; [|by apply IH].
    rewrite !Forall_app in *. tauto.
Qed.

Lemma unlink_sorted w : StronglySorted earlier (chain w) -> StronglySorted earlier (chain (unlink w)).
Proof.
  unfold chain, unlink. cbn [upto between ahead app]. intros H.
  destruct (ahead w) as [|x l]; [by apply (sorted_cut _ (between w))|].
  apply (sorted_cut _ (between w ++ [x])). by rewrite <- app_assoc.
Qed.

Lemma process_loop_sorted fuel now w executed s r :
  StronglySorted earlier (chain w) -> process_loop fuel now w executed s = Some r -> in_order r.2.
Proof.
  revert w executed s. induction fuel as [|fuel IH]; intros w executed s Hw H; cbn [process_loop] in H.
  - destruct (ahead w); [|done]. by injection H as <-.
  - destruct (ahead w) as [|st rest] eqn:Ea; [by injection H as <-|].
    pose proof (unlink_sorted w Hw) as Hu. destruct (cancelled st); [by eapply IH|].
    destruct (next_run_us st <=? now).
    + destruct (_ && _); [|by eapply IH]. eapply IH; [|exact H].
      rewrite insert_walk_chain. by apply insert_sorted.
    + eapply IH; [|exact H]. unfold chain in *. cbn [upto between ahead]. rewrite Ea in Hw.
      by rewrite <- !app_assoc.
Qed.

(** ** Theorems *)

(** C13: A pass runs exactly the tasks that are due, in the order of their times,
    and ends: from a sorted list without cancelled tasks, whose repeating tasks have
    a positive interval, each task that is due is handed to the thread pool once;
    those that run again are put back at the time of the pass plus their interval,
    the other due ones leave the list, and the later ones stay. *)
Theorem process_runs_due (now : Z) (s : LR_Scheduler) (fuel : nat) :
  let dues := List.filter (due now) (task_head s) in
  let later := List.filter (fun st => negb (due now st)) (task_head s) in
  in_order s -> Forall (fun st => cancelled st = false) (task_head s) -> 0 <= now ->
  Forall (fun st => again st = true -> 0 < interval_us st /\ now + interval_us st < 2 ^ 63) (task_head s) ->
  (2 * length (task_head s) <= fuel)%nat ->
  exists s', lr_scheduler_process fuel now s = Some (Z.of_nat (length dues), s') /\
    submitted s' = submitted s ++ map task dues /\ freed s' = freed s /\
    task_head s' = put_back now dues later /\
    task_head s' ≡ₚ map (next_run now) (List.filter again dues) ++ later.
Proof.
  intros dues later Ho Hc Hnow Ha Hf. exists (with_tasks (put_back now dues later) (ran_all dues s)).
  destruct (ran_all_eq dues s) as (H1 & H2 & _).
  split; [|split; [exact H1|split; [exact H2|split; [done|apply put_back_perm]]]].
  unfold lr_scheduler_process. rewrite (sorted_split now _ Ho) at 1. fold dues later.
  assert (forall st, In st (task_head s) -> cancelled st = false /\
    (again st = true -> 0 < interval_us st /\ now + interval_us st < 2 ^ 63)) as Hall.
  { intros st Hin. rewrite List.Forall_forall in Hc, Ha. by split; [apply Hc|apply Ha]. }
  apply (pass_due now dues later 0 s fuel).
  - apply List.Forall_forall. intros st [Hin Hd]%List.filter_In. destruct (Hall st Hin) as [Hcs Has].
    split; [done|]. split; [done|]. intros Hag. destruct (Has Hag).
    rewrite i64_small; lia.
  - apply List.Forall_forall. intros st [Hin Hd]%List.filter_In. destruct (Hall st Hin) as [Hcs _].
    split; [done|]. by destruct (due now st).
  - pose proof (f_equal length (sorted_split now _ Ho)) as Hl. rewrite length_app in Hl.
    fold dues later in Hl. lia.
Qed.

(** C14: The list of tasks stays sorted by the time of the next run, whatever is
    scheduled, cancelled or processed, cancelled tasks and stale links included. *)
Theorem tasks_stay_sorted (s : LR_Scheduler) :
  in_order s ->
  (forall ok now task interval repeat, in_order (lr_scheduler_schedule ok now task interval repeat s).2) /\
  (forall ok now task delay, in_order (lr_scheduler_schedule_delayed ok now task delay s).2) /\
  (forall n, in_order (lr_scheduler_cancel n s).2) /\
  (forall fuel now executed s', lr_scheduler_process fuel now s = Some (executed, s') -> in_order s').
Proof.
  intros Hs. split; [|split; [|split]].
  - intros. by apply add_task_sorted.
  - intros. by apply add_task_sorted.
  - intros n. unfold lr_scheduler_cancel. destruct (cancel_first n (task_head s)) as [l|] eqn:E; [|done].
    apply (sorted_times (task_head s)); [by eapply cancel_first_times|done].
  - intros fuel now executed s' H. by apply (process_loop_sorted fuel now (MkWalk [] [] (task_head s)) 0 s _ Hs) in H.
Qed.

(** A repeating task that is put back in front of a cancelled one is lost when the
    cancelled one is removed: [prev] does not see it. *)
Lemma process_loses_task :
  lr_scheduler_process 9 50
    (with_tasks [MkTask 1 LR_SCHED_REPEAT 7 10 5 (-1) 0 false; MkTask 2 LR_SCHED_ONESHOT 8 0 100 0 0 true]
       lr_scheduler_create)
  = Some (1, MkSched [] 1 0 1 1 [7%nat] [8%nat]).
Proof. reflexivity. Qed.

(** Two tasks that repeat for ever at interval 0 are put back behind each other
    within one pass, which does not end. *)
Lemma process_never_ends now s fuel a b executed :
  - 2 ^ 63 <= now < 2 ^ 63 ->
  Forall (fun st => cancelled st = false /\ next_run_us st <= now /\ type st = LR_SCHED_REPEAT /\
                    interval_us st = 0 /\ repeat_count st < 0) [a; b] ->
  process_loop fuel now (MkWalk [] [] [a; b]) executed s = None.
Proof.
  intros Hnow. revert a b executed s. induction fuel as [|fuel IH]; intros a b executed s Hab; [done|].
  apply Forall_cons in Hab as [(Hc & Hn & Ht & Hi & Hr) Hb].
  pose proof Hb as Hb'. apply Forall_cons in Hb' as [(_ & Hn2 & _) _].
  cbn [process_loop ahead]. rewrite Hc. rewrite (proj2 (Z.leb_le _ _) Hn).
  change (is_repeat (ran a)) with (is_repeat a). unfold is_repeat. rewrite Ht.
  change (repeat_count (ran a)) with (repeat_count a). rewrite (proj2 (Z.ltb_lt _ _) Hr).
  cbn [orb andb]. change (interval_us (ran a)) with (interval_us a).
  rewrite Hi, Z.add_0_r, i64_small by done.
  assert (insert_walk (run_at now (ran a)) (unlink (MkWalk [] [] [a; b])) = MkWalk [] [] [b; run_at now (ran a)]) as ->.
  { unfold insert_walk, unlink. cbn [upto between ahead List.tl insert_until insert_task run_at next_run_us].
    by rewrite (proj2 (Z.ltb_ge _ _) Hn2). }
  apply IH. apply Forall_cons in Hb as [Hb _]. repeat constructor; try apply Hb; cbn; try done; lia.
Qed.

(** *** Witnesses *)

(** A one-shot task at 3, a repeating one at 5, another at 100. *)
Definition three_tasks : LR_Scheduler :=
  with_tasks [MkTask 1 LR_SCHED_ONESHOT 7 0 3 0 0 false; MkTask 2 LR_SCHED_REPEAT 8 10 5 (-1) 0 false;
              MkTask 3 LR_SCHED_ONESHOT 9 0 100 0 0 false] lr_scheduler_create.

Lemma three_tasks_sorted : in_order three_tasks.
Proof. repeat constructor; unfold earlier; cbn; lia. Qed.

Lemma process_runs_due_witness : exists s', lr_scheduler_process 6 50 three_tasks = Some (2, s') /\
  submitted s' = [7; 8]%nat /\ freed s' = [] /\
  task_head s' = [MkTask 2 LR_SCHED_REPEAT 8 10 60 (-1) 1 false; MkTask 3 LR_SCHED_ONESHOT 9 0 100 0 0 false] /\
  task_head s' ≡ₚ [MkTask 2 LR_SCHED_REPEAT 8 10 60 (-1) 1 false; MkTask 3 LR_SCHED_ONESHOT 9 0 100 0 0 false].
Proof.
  apply (process_runs_due 50 three_tasks 6 three_tasks_sorted); [by repeat constructor|lia| |cbn; lia].
  repeat constructor; cbn; done.
Defined.

Lemma tasks_stay_sorted_witness :
  in_order three_tasks /\ in_order (lr_scheduler_schedule_delayed true 10 4 30 three_tasks).2 /\
  map id (task_head (lr_scheduler_schedule_delayed true 10 4 30 three_tasks).2) = [1; 2; 1; 3].
Proof.
  split; [apply three_tasks_sorted|]. split; [|reflexivity].
  apply (tasks_stay_sorted three_tasks three_tasks_sorted).
Defined.
