(* ===== verification/Ast.v ===== *)
(** Syntax trees and the state of the parser ([src/src/engine/lr_ast.h] and the
    first part of [src/src/engine/lr_parser.c]): nodes, errors, and the reading
    of tokens.

    A node is a tree: the pool it is allocated from, the interning of its
    strings, and the position that [node->token] repeats are left out, and so is
    the back pointer from a method to its class.  Allocations succeed.  The
    literal nodes the code shares between occurrences differ in that position
    only. *)

From stdpp Require Import base list strings.
From Stdlib Require Import ZArith Lia SpecFloat Ascii.
From S2P Require Import Prelude.
From S2P Require Import BcProgram.
From S2P Require Import LexText.
From S2P Require Import Lexer.

(** ** Token types *)

(** The value of the enumeration. *)
Definition tok_num (type : LRTokType) : Z :=
  match type with
  | TOK_EOF => 0 | TOK_NUMBER => 1 | TOK_BIGINT_LIT => 2 | TOK_STRING => 3
  | TOK_IDENTIFIER => 4 | TOK_REGEXP => 5 | TOK_BOOL_LIT => 6 | TOK_NULL_LIT => 7
  | TOK_UNDEFINED_LIT => 8 | TOK_LPAREN => 9 | TOK_RPAREN => 10 | TOK_LBRACKET => 11
  | TOK_RBRACKET => 12 | TOK_LBRACE => 13 | TOK_RBRACE => 14 | TOK_DOT => 15
  | TOK_SEMICOLON => 16 | TOK_COMMA => 17 | TOK_COLON => 18 | TOK_ARROW => 19
  | TOK_ELLIPSIS => 20 | TOK_ASSIGN => 21 | TOK_PLUS_ASSIGN => 22
  | TOK_MINUS_ASSIGN => 23 | TOK_MUL_ASSIGN => 24 | TOK_DIV_ASSIGN => 25
  | TOK_MOD_ASSIGN => 26 | TOK_POW_ASSIGN => 27 | TOK_AND_ASSIGN => 28
  | TOK_OR_ASSIGN => 29 | TOK_XOR_ASSIGN => 30 | TOK_SHIFT_LEFT_ASSIGN => 31
  | TOK_SHIFT_RIGHT_ASSIGN => 32 | TOK_USHIFT_RIGHT_ASSIGN => 33
  | TOK_AND_AND_ASSIGN => 34 | TOK_OR_OR_ASSIGN => 35 | TOK_NULLISH_ASSIGN => 36
  | TOK_EQ => 37 | TOK_NEQ => 38 | TOK_STRICT_EQ => 39 | TOK_STRICT_NEQ => 40
  | TOK_LT => 41 | TOK_GT => 42 | TOK_LE => 43 | TOK_GE => 44 | TOK_PLUS => 45
  | TOK_MINUS => 46 | TOK_MUL => 47 | TOK_DIV => 48 | TOK_MOD => 49 | TOK_POW => 50
  | TOK_INC => 51 | TOK_DEC => 52 | TOK_AND => 53 | TOK_OR => 54 | TOK_NOT => 55
  | TOK_BIT_AND => 56 | TOK_BIT_OR => 57 | TOK_BIT_XOR => 58 | TOK_BIT_NOT => 59
  | TOK_AND_AND => 60 | TOK_OR_OR => 61 | TOK_NULLISH => 62 | TOK_SHIFT_LEFT => 63
  | TOK_SHIFT_RIGHT => 64 | TOK_USHIFT_RIGHT => 65 | TOK_QUESTION => 66
  | TOK_QUESTION_DOT => 67 | TOK_TEMPLATE => 68 | TOK_TEMPLATE_END => 69
  | TOK_LET => 70 | TOK_CONST => 71 | TOK_VAR => 72 | TOK_FUNCTION => 73 | TOK_IF => 74
  | TOK_ELSE => 75 | TOK_FOR => 76 | TOK_WHILE => 77 | TOK_DO => 78 | TOK_SWITCH => 79
  | TOK_CASE => 80 | TOK_DEFAULT => 81 | TOK_BREAK => 82 | TOK_CONTINUE => 83
  | TOK_RETURN => 84 | TOK_THROW => 85 | TOK_TRY => 86 | TOK_CATCH => 87
  | TOK_FINALLY => 88 | TOK_NEW => 89 | TOK_THIS => 90 | TOK_TYPEOF => 91
  | TOK_DELETE => 92 | TOK_VOID => 93 | TOK_CLASS => 94 | TOK_EXTENDS => 95
  | TOK_SUPER => 96 | TOK_IMPORT => 97 | TOK_EXPORT => 98 | TOK_FROM => 99
  | TOK_AS => 100 | TOK_IN => 101 | TOK_INSTANCEOF => 102 | TOK_OF => 103
  | TOK_ASYNC => 104 | TOK_AWAIT => 105 | TOK_YIELD => 106 | TOK_STATIC => 107
  | TOK_GET => 108 | TOK_SET => 109 | TOK_PRIVATE_NAME => 110 | TOK_DEBUGGER => 111
  | TOK_ERROR => 112
  end.

Definition tok_types : list LRTokType :=
  [TOK_EOF; TOK_NUMBER; TOK_BIGINT_LIT; TOK_STRING; TOK_IDENTIFIER; TOK_REGEXP;
   TOK_BOOL_LIT; TOK_NULL_LIT; TOK_UNDEFINED_LIT; TOK_LPAREN; TOK_RPAREN; TOK_LBRACKET;
   TOK_RBRACKET; TOK_LBRACE; TOK_RBRACE; TOK_DOT; TOK_SEMICOLON; TOK_COMMA; TOK_COLON;
   TOK_ARROW; TOK_ELLIPSIS; TOK_ASSIGN; TOK_PLUS_ASSIGN; TOK_MINUS_ASSIGN;
   TOK_MUL_ASSIGN; TOK_DIV_ASSIGN; TOK_MOD_ASSIGN; TOK_POW_ASSIGN; TOK_AND_ASSIGN;
   TOK_OR_ASSIGN; TOK_XOR_ASSIGN; TOK_SHIFT_LEFT_ASSIGN; TOK_SHIFT_RIGHT_ASSIGN;
   TOK_USHIFT_RIGHT_ASSIGN; TOK_AND_AND_ASSIGN; TOK_OR_OR_ASSIGN; TOK_NULLISH_ASSIGN;
   TOK_EQ; TOK_NEQ; TOK_STRICT_EQ; TOK_STRICT_NEQ; TOK_LT; TOK_GT; TOK_LE; TOK_GE;
   TOK_PLUS; TOK_MINUS; TOK_MUL; TOK_DIV; TOK_MOD; TOK_POW; TOK_INC; TOK_DEC; TOK_AND;
   TOK_OR; TOK_NOT; TOK_BIT_AND; TOK_BIT_OR; TOK_BIT_XOR; TOK_BIT_NOT; TOK_AND_AND;
   TOK_OR_OR; TOK_NULLISH; TOK_SHIFT_LEFT; TOK_SHIFT_RIGHT; TOK_USHIFT_RIGHT;
   TOK_QUESTION; TOK_QUESTION_DOT; TOK_TEMPLATE; TOK_TEMPLATE_END; TOK_LET; TOK_CONST;
   TOK_VAR; TOK_FUNCTION; TOK_IF; TOK_ELSE; TOK_FOR; TOK_WHILE; TOK_DO; TOK_SWITCH;
   TOK_CASE; TOK_DEFAULT; TOK_BREAK; TOK_CONTINUE; TOK_RETURN; TOK_THROW; TOK_TRY;
   TOK_CATCH; TOK_FINALLY; TOK_NEW; TOK_THIS; TOK_TYPEOF; TOK_DELETE; TOK_VOID;
   TOK_CLASS; TOK_EXTENDS; TOK_SUPER; TOK_IMPORT; TOK_EXPORT; TOK_FROM; TOK_AS; TOK_IN;
   TOK_INSTANCEOF; TOK_OF; TOK_ASYNC; TOK_AWAIT; TOK_YIELD; TOK_STATIC; TOK_GET;
   TOK_SET; TOK_PRIVATE_NAME; TOK_DEBUGGER; TOK_ERROR].

Lemma tok_types_lookup a : tok_types !! Z.to_nat (tok_num a) = Some a.
Proof. by destruct a. Qed.

#[export] Instance tok_num_inj : Inj (=) (=) tok_num.
Proof.
  intros a b H. pose proof (tok_types_lookup a) as E. rewrite H, tok_types_lookup in E. congruence.
Qed.

Definition tok_eqb (a b : LRTokType) : bool := tok_num a =? tok_num b.

Lemma tok_eqb_spec a b : reflect (a = b) (tok_eqb a b).
Proof. unfold tok_eqb. destruct (Z.eqb_spec (tok_num a) (tok_num b)); constructor; [by apply (inj tok_num)|congruence]. Qed.

Lemma tok_eqb_refl a : tok_eqb a a = true.
Proof. by destruct (tok_eqb_spec a a). Qed.

(** A keyword, [TOK_LET <= type <= TOK_SET]. *)
Definition is_keyword_tok (type : LRTokType) : bool :=
  (tok_num TOK_LET <=? tok_num type) && (tok_num type <=? tok_num TOK_SET).

Definition is_prop_name_token (type : LRTokType) : bool :=
  match type with
  | TOK_IDENTIFIER | TOK_PRIVATE_NAME | TOK_BOOL_LIT | TOK_NULL_LIT | TOK_UNDEFINED_LIT => true
  | _ => is_keyword_tok type
  end.

Definition is_ctx_ident_tok (type : LRTokType) : bool :=
  match type with
  | TOK_GET | TOK_SET | TOK_STATIC | TOK_OF | TOK_FROM | TOK_AS => true
  | _ => false
  end.

(** A name, or a contextual keyword standing for one. *)
Definition is_name_tok (type : LRTokType) : bool :=
  tok_eqb type TOK_IDENTIFIER || is_ctx_ident_tok type.

(** ** Syntax trees *)

Inductive literal :=
  | LNumber (num : f64)
  | LString (str : list Z)
  | LBool (val : bool)
  | LNull
  | LUndefined
  | LBigInt (val : option Z).      (* [None]: the lexer left it unset *)

(** The flags of a function. *)
Record func_flags := MkFlags {
  is_async : bool;
  is_generator : bool;
  is_static : bool;
  is_getter : bool;
  is_setter : bool
}.

(** [AST_NULL] is a NULL child; a name is [None] where the code keeps NULL. *)
Inductive Node :=
  | AST_NULL
  | AST_PROGRAM (items : list Node)
  | AST_BLOCK (items : list Node)
  | AST_EXPR_STMT (expr : Node)
  | AST_IF (cond body else_body : Node)
  | AST_FOR (init test update body : Node)
  | AST_WHILE (cond body : Node)
  | AST_DO_WHILE (body cond : Node)
  | AST_FOR_IN (each source body : Node)
  | AST_FOR_OF (each source body : Node)
  | AST_SWITCH (test : Node) (cases : list Node)
  | AST_CASE (cond body : Node)
  | AST_DEFAULT (body : Node)
  | AST_BREAK (label : Node)
  | AST_CONTINUE (label : Node)
  | AST_RETURN (arg : Node)
  | AST_THROW (arg : Node)
  | AST_TRY (body catch_body finally_body : Node) (catch_var : option (list Z))
  | AST_LABEL (label stmt : Node)
  | AST_DEBUGGER
  | AST_VAR_DECL (decl_type : LRTokType) (vars : list Node)
  | AST_VAR_DECLARATOR (var init : Node)
  | AST_FUNC_DECL (name : option (list Z)) (params : list Node) (body : Node) (flags : func_flags)
  | AST_FUNC_EXPR (name : option (list Z)) (params : list Node) (body : Node) (flags : func_flags)
      (key_expr : Node)
  | AST_ARROW (params : list Node) (body : Node) (async : bool)
  | AST_CLASS_DECL (name : option (list Z)) (extends : Node) (methods : list Node)
  | AST_IMPORT (specifiers : list Node) (source : Node)
  | AST_IMPORT_SPECIFIER (name : option (list Z)) (local : Node) (is_default : bool)
  | AST_IMPORT_NAMESPACE (local : Node)
  | AST_EXPORT (specifiers : list Node) (source : Node) (is_default : bool)
  | AST_EXPORT_DEFAULT (value : Node)
  | AST_EXPORT_NAMED (name : option (list Z)) (exported : Node)
  | AST_EXPORT_ALL
  | AST_LITERAL (l : literal)
  | AST_IDENTIFIER (name : list Z)
  | AST_THIS
  | AST_SUPER
  | AST_BINARY (op : string) (left right : Node)
  | AST_UNARY (op : string) (prefix : bool) (arg : Node)
  | AST_CONDITIONAL (cond consequent alternate : Node)
  | AST_CALL (callee : Node) (args : list Node)
  | AST_OPTIONAL_CALL (callee : Node) (args : list Node)
  | AST_NEW (callee : Node) (args : list Node)
  | AST_MEMBER (obj prop : Node)
  | AST_COMPUTED_MEMBER (obj prop : Node)
  | AST_OPTIONAL_MEMBER (obj prop : Node)
  | AST_ASSIGN (op : string) (target value : Node)
  | AST_SEQUENCE (exprs : list Node)
  | AST_ARRAY (elements : list Node)
  | AST_OBJECT (props : list Node)
  | AST_PROPERTY (key val : Node) (computed shorthand static : bool)
  | AST_SPREAD (arg : Node)
  | AST_SPREAD_ELEMENT (arg : Node)
  | AST_TEMPLATE (parts : list (option (list Z))) (exprs : list Node)
  | AST_TAGGED_TEMPLATE (tag : Node) (parts : list (option (list Z))) (exprs : list Node)
  | AST_PATTERN (elements : list Node) (is_object : bool)
  | AST_REST (arg : Node)
  | AST_DEFAULT_VALUE (left right : Node)
  | AST_AWAIT (arg : Node)
  | AST_YIELD (arg : Node) (is_delegate : bool).

Definition is_null (n : Node) : bool := match n with AST_NULL => true | _ => false end.

(** A string literal or identifier is interned up to its first NUL byte. *)
Definition ast_literal_string (s : list Z) : Node := AST_LITERAL (LString (cstr s)).
Definition ast_identifier (s : list Z) : Node := AST_IDENTIFIER (cstr s).

(** ** The parser's state *)

Record Parser := MkParser {
  lexer : Lexer;
  has_error : bool;
  error_msg : string;
  error_line : Z;
  error_col : Z
}.

Definition with_lexer (l : Lexer) (p : Parser) : Parser :=
  MkParser l (has_error p) (error_msg p) (error_line p) (error_col p).

Definition clear_error (p : Parser) : Parser :=
  MkParser (lexer p) false (error_msg p) (error_line p) (error_col p).

Definition parser_init (l : Lexer) : Parser := MkParser l false "" 0 0.

Definition parser_get_error (p : Parser) : option (string * Z * Z) :=
  if has_error p then Some (error_msg p, error_line p, error_col p) else None.

(** What a call comes to: a value, the dereference of a NULL pointer, or more
    turns or nested calls than the fuel allows. *)
Inductive outcome (A : Type) :=
  | Done (a : A)
  | Crash
  | OutOfFuel.
Arguments Done {A} a.
Arguments Crash {A}.
Arguments OutOfFuel {A}.

Definition of_option {A} (o : option A) : outcome A :=
  match o with Some a => Done a | None => OutOfFuel end.

(** A parsing step. *)
Definition P (A : Type) : Type := Parser -> outcome (A * Parser).

#[export] Instance P_ret : MRet P := fun A a p => Done (a, p).
#[export] Instance P_bind : MBind P := fun A B f m p =>
  match m p with Done (a, p') => f a p' | Crash => Crash | OutOfFuel => OutOfFuel end.

Definition out_of_fuel {A} : P A := fun _ => OutOfFuel.
Definition crash {A} : P A := fun _ => Crash.

(** Reading and changing the state. *)
Definition getp {A} (f : Parser -> A) : P A := fun p => Done (f p, p).
Definition setp (f : Parser -> Parser) : P unit := fun p => Done (tt, f p).

(** ** Tokens *)

(** A function of the lexer, as a step of the parser. *)
Definition lift {A} (f : Lexer -> option (A * Lexer)) : P A := fun p =>
  match f (lexer p) with Some (a, l) => Done (a, with_lexer l p) | None => OutOfFuel end.

Definition next_token : P Token := lift (lexer_next true).
Definition lpeek : P Token := lift (lexer_peek true).
Definition skip : P unit := lift (fun l => (fun l' => (tt, l')) <$> lexer_skip true l).
Definition template_next : P Token := lift (lexer_template_next true).

(** The characters of a token: the text, or the message of an error. *)
Definition token_chars (text : list Z) (t : Token) : list Z :=
  if 0 <? t_len t then
    match t_start t with
    | AtSource s => slice s (t_len t) text
    | AtMessage m => take (Z.to_nat (t_len t)) (chars_of m)
    | NullStart => []
    end
  else [].

(** The copy of a token's text; [None]: it has none. *)
Definition token_text (t : Token) : P (option (list Z)) := fun p =>
  let s := token_chars (src (lexer p)) t in
  Done (match s with [] => None | _ => Some s end, p).

(** [ast_identifier(parser, name ? name : "")] of the copy. *)
Definition token_ident (t : Token) : P Node :=
  s ← token_text t; mret (ast_identifier (default [] s)).

Definition set_error (msg : string) (l c : Z) (p : Parser) : Parser :=
  if has_error p then p else MkParser (lexer p) true msg l c.

Definition parser_error (msg : string) : P unit :=
  setp (fun p => set_error msg (line (lexer p)) (col (lexer p)) p).
Definition parser_error_token (t : Token) (msg : string) : P unit :=
  setp (set_error msg (t_line t) (t_col t)).

Definition expect_token (type : LRTokType) : P Token :=
  t ← next_token;
  if tok_eqb (t_type t) type then mret t
  else
    parser_error_token t ("expected " ++ token_type_name type ++ " but got "
                                      ++ token_type_name (t_type t))%string;;
    mret t.

Definition match_token (type : LRTokType) : P bool :=
  t ← lpeek;
  if tok_eqb (t_type t) type then skip;; mret true else mret false.

Definition peek_token (type : LRTokType) : P bool :=
  t ← lpeek; mret (tok_eqb (t_type t) type).

(** [peek_token] of one of several types, tried in order. *)
Fixpoint peek_any (types : list LRTokType) : P bool :=
  match types with
  | [] => mret false
  | type :: types' => b ← peek_token type; if (b : bool) then mret true else peek_any types'
  end.

(** *** Going back *)

(** [lex_state_restore] to the state [lex_state_save] copied. *)
Definition lex_state_restore (st : Lexer) (lex : Lexer) : Lexer :=
  MkLexer (src lex) (pos st) (line st) (col st) (current lex) (peek st) (has_peek st)
          (allow_regexp st) (in_template st).

(** [lexer->pos = save; lexer_reset_peek(lexer)]: the line, the column and the
    flags stay. *)
Definition rewind (save : Z) (lex : Lexer) : Lexer :=
  lexer_reset_peek (moved save (line lex) (col lex) lex).

(** [t.start - lexer->src] of a token of the text. *)
Definition start_of (t : Token) : Z :=
  match t_start t with AtSource s => s | _ => 0 end.

(** [lex_state_save], steps that only look, [lex_state_restore]. *)
Definition looking {A} (m : P A) : P A :=
  st ← getp lexer;
  a ← m;
  setp (fun p => with_lexer (lex_state_restore st (lexer p)) p);;
  mret a.

(** *** Loops *)

(** At most [n] turns; a turn says whether the loop ends ([inl]). *)
Fixpoint ploop {St A} (body : St -> P (A + St)) (n : nat) (st : St) : P A :=
  match n with
  | O => out_of_fuel
  | S n' => r ← body st; match r with inl a => mret a | inr st' => ploop body n' st' end
  end.

(** A turn of [while (!parser->has_error && !peek_token(stop) && ..)] around a
    body that may [break]. *)
Definition guarded {St} (stop : list LRTokType) (body : St -> P (St + St)) (st : St) : P (St + St) :=
  e ← getp has_error;
  if (e : bool) then mret (inl st)
  else
    b ← peek_any stop;
    if (b : bool) then mret (inl st) else body st.

(** ** The grammar

    The functions of the parser that call each other, as a record: a function is
    defined from a record that holds the functions it calls, and the last file
    ties the knot.  [g_fuel] bounds the turns of a loop. *)
Record grammar := MkGrammar {
  g_fuel : nat;
  g_expr : Z -> P Node;
  g_primary : P Node;
  g_statement : P Node;
  g_block : P Node;
  g_pattern : P Node;
  g_function : bool -> bool -> bool -> P Node;
  g_class : P Node
}.
