(* ===== verification/AstImage.v ===== *)
(** The image of a syntax tree in the IOME586 archive: the last part of
    [src/src/engine/lr_parser.c] ([ser_*], [lr_ast_serialize], [deser_*],
    [lr_ast_deserialize]), over nodes as [src/src/engine/lr_ast.h] lays them out.

    Here a node is the C structure: its type, the fields of its token that the
    image holds, and the member of the union that is live.  Members of the union
    of one shape (one pointer, two pointers, a pointer and a count) are one
    constructor.  A [double] is its 64-bit pattern and a C string the bytes of
    its buffer.  [SWITCH]'s [fallback] and [CLASS_DECL]'s [body] are always NULL
    and left out.

    The serializer runs on its growing buffer, with [realloc] a parameter; a
    write past the capacity is a [Crash].  The deserializer runs on the bytes
    after the header; a read past them, a copy that does not fit the block it goes
    to and a write through the NULL of a failed allocation are a [Crash].  The
    [malloc]s of the copied strings and of the arrays are a parameter; interning a
    string and allocating a node succeed. *)

From stdpp Require Import base list strings.
From Stdlib Require Import ZArith Lia.
From S2P Require Import Prelude.
From S2P Require Import BcProgram.
From S2P Require Import LexText.
From S2P Require Import Ast.

(** ** Nodes *)

Inductive ASTNodeType :=
  | AST_PROGRAM | AST_BLOCK | AST_EXPR_STMT | AST_IF | AST_FOR | AST_WHILE
  | AST_DO_WHILE | AST_FOR_IN | AST_FOR_OF | AST_SWITCH | AST_CASE | AST_DEFAULT
  | AST_BREAK | AST_CONTINUE | AST_RETURN | AST_THROW | AST_TRY | AST_CATCH
  | AST_LABEL | AST_WITH | AST_DEBUGGER | AST_VAR_DECL | AST_VAR_DECLARATOR
  | AST_FUNC_DECL | AST_FUNC_EXPR | AST_ARROW | AST_CLASS_DECL | AST_CLASS_BODY
  | AST_IMPORT | AST_EXPORT | AST_EXPORT_DEFAULT | AST_EXPORT_NAMED
  | AST_IMPORT_SPECIFIER | AST_LITERAL | AST_IDENTIFIER | AST_THIS | AST_SUPER
  | AST_BINARY | AST_UNARY | AST_CONDITIONAL | AST_CALL | AST_NEW | AST_MEMBER
  | AST_COMPUTED_MEMBER | AST_OPTIONAL_CALL | AST_OPTIONAL_MEMBER | AST_ASSIGN
  | AST_SEQUENCE | AST_ARRAY | AST_OBJECT | AST_PROPERTY | AST_SPREAD
  | AST_TEMPLATE | AST_TAGGED_TEMPLATE | AST_PATTERN | AST_REST
  | AST_DEFAULT_VALUE | AST_AWAIT | AST_YIELD | AST_SPREAD_ELEMENT
  | AST_TEMPLATE_PART | AST_IMPORT_NAMESPACE | AST_EXPORT_ALL
  | AST_UNKNOWN (code : Z).       (* a number that is no enumerator *)

Definition node_types : list ASTNodeType :=
  [AST_PROGRAM; AST_BLOCK; AST_EXPR_STMT; AST_IF; AST_FOR; AST_WHILE;
   AST_DO_WHILE; AST_FOR_IN; AST_FOR_OF; AST_SWITCH; AST_CASE; AST_DEFAULT;
   AST_BREAK; AST_CONTINUE; AST_RETURN; AST_THROW; AST_TRY; AST_CATCH;
   AST_LABEL; AST_WITH; AST_DEBUGGER; AST_VAR_DECL; AST_VAR_DECLARATOR;
   AST_FUNC_DECL; AST_FUNC_EXPR; AST_ARROW; AST_CLASS_DECL; AST_CLASS_BODY;
   AST_IMPORT; AST_EXPORT; AST_EXPORT_DEFAULT; AST_EXPORT_NAMED;
   AST_IMPORT_SPECIFIER; AST_LITERAL; AST_IDENTIFIER; AST_THIS; AST_SUPER;
   AST_BINARY; AST_UNARY; AST_CONDITIONAL; AST_CALL; AST_NEW; AST_MEMBER;
   AST_COMPUTED_MEMBER; AST_OPTIONAL_CALL; AST_OPTIONAL_MEMBER; AST_ASSIGN;
   AST_SEQUENCE; AST_ARRAY; AST_OBJECT; AST_PROPERTY; AST_SPREAD;
   AST_TEMPLATE; AST_TAGGED_TEMPLATE; AST_PATTERN; AST_REST;
   AST_DEFAULT_VALUE; AST_AWAIT; AST_YIELD; AST_SPREAD_ELEMENT;
   AST_TEMPLATE_PART; AST_IMPORT_NAMESPACE; AST_EXPORT_ALL].

(** The value of the enumeration. *)
Definition type_num (type : ASTNodeType) : Z :=
  match type with
  | AST_PROGRAM => 0 | AST_BLOCK => 1 | AST_EXPR_STMT => 2 | AST_IF => 3 | AST_FOR => 4
  | AST_WHILE => 5 | AST_DO_WHILE => 6 | AST_FOR_IN => 7 | AST_FOR_OF => 8
  | AST_SWITCH => 9 | AST_CASE => 10 | AST_DEFAULT => 11 | AST_BREAK => 12
  | AST_CONTINUE => 13 | AST_RETURN => 14 | AST_THROW => 15 | AST_TRY => 16
  | AST_CATCH => 17 | AST_LABEL => 18 | AST_WITH => 19 | AST_DEBUGGER => 20
  | AST_VAR_DECL => 21 | AST_VAR_DECLARATOR => 22 | AST_FUNC_DECL => 23
  | AST_FUNC_EXPR => 24 | AST_ARROW => 25 | AST_CLASS_DECL => 26
  | AST_CLASS_BODY => 27 | AST_IMPORT => 28 | AST_EXPORT => 29
  | AST_EXPORT_DEFAULT => 30 | AST_EXPORT_NAMED => 31 | AST_IMPORT_SPECIFIER => 32
  | AST_LITERAL => 33 | AST_IDENTIFIER => 34 | AST_THIS => 35 | AST_SUPER => 36
  | AST_BINARY => 37 | AST_UNARY => 38 | AST_CONDITIONAL => 39 | AST_CALL => 40
  | AST_NEW => 41 | AST_MEMBER => 42 | AST_COMPUTED_MEMBER => 43
  | AST_OPTIONAL_CALL => 44 | AST_OPTIONAL_MEMBER => 45 | AST_ASSIGN => 46
  | AST_SEQUENCE => 47 | AST_ARRAY => 48 | AST_OBJECT => 49 | AST_PROPERTY => 50
  | AST_SPREAD => 51 | AST_TEMPLATE => 52 | AST_TAGGED_TEMPLATE => 53
  | AST_PATTERN => 54 | AST_REST => 55 | AST_DEFAULT_VALUE => 56 | AST_AWAIT => 57
  | AST_YIELD => 58 | AST_SPREAD_ELEMENT => 59 | AST_TEMPLATE_PART => 60
  | AST_IMPORT_NAMESPACE => 61 | AST_EXPORT_ALL => 62 | AST_UNKNOWN code => code
  end.

(** [(ASTNodeType)t] *)
Definition node_type (t : Z) : ASTNodeType :=
  default (AST_UNKNOWN t) (node_types !! Z.to_nat t).

(** The fields of [node->token] an image holds. *)
Record NodeToken := MkNodeToken {
  n_type : Z;
  n_line : Z;
  n_col : Z;
  n_num : Z
}.

Definition with_type (t : Z) (k : NodeToken) : NodeToken :=
  MkNodeToken t (n_line k) (n_col k) (n_num k).

(** The flags of [u.func], as integers. *)
Record FuncFlags := MkFuncFlags {
  f_async : Z;
  f_generator : Z;
  f_static : Z;
  f_getter : Z;
  f_setter : Z
}.

(** The live member of the union; [A] is the type of the children. *)
Inductive Union (A : Type) :=
  | U_none
  | U_list (items : list A)          (* list, var_decl, class_body, sequence, array, object *)
  | U_child (child : A)              (* one pointer: expr_stmt, return_stmt, spread, ... *)
  | U_pair (first second : A)        (* label_stmt, with_stmt, declarator, default_val *)
  | U_three (cond body other : A)    (* if_stmt, conditional *)
  | U_for (init test update body : A)
  | U_for_in (source each body : A)  (* for_in, for_of *)
  | U_switch (test : A) (cases : list A)
  | U_try (body catch_body finally_body : A) (catch_var : option (list Z))
  | U_func (name : option (list Z)) (body : A) (params : list A) (flags : FuncFlags)
      (key_expr : A) (in_class : bool)   (* class_node: set, to the enclosing class *)
  | U_arrow (name : option (list Z)) (body : A) (params : list A) (is_async : Z)
  | U_class (name : option (list Z)) (extends : A) (methods : list A)
  | U_number (num : Z)
  | U_string (str : option (list Z))
  | U_bool (val : Z)
  | U_bigint (val : Z)
  | U_ident (name : option (list Z))
  | U_binary (left right : A) (op : list Z)      (* binary, assign *)
  | U_unary (arg : A) (op : list Z) (prefix : Z)
  | U_call (callee : A) (args : list A) (is_optional : Z)
  | U_new (callee : A) (args : list A)
  | U_member (obj prop : A) (is_optional : Z)
  | U_property (key val : A) (computed shorthand is_static : Z)
  | U_template (parts : list (option (list Z))) (tag : A) (exprs : list A)
  | U_pattern (elements : list A) (is_object : Z)
  | U_yield (arg : A) (is_delegate : Z)
  | U_import (specifiers : list A) (source : A)
  | U_import_spec (name : option (list Z)) (local : A) (is_default : Z)
  | U_export (specifiers : list A) (source : A) (is_default : Z)
  | U_export_spec (name : option (list Z)) (exported : A).
Arguments U_none {A}.
Arguments U_list {A}.
Arguments U_child {A}.
Arguments U_pair {A}.
Arguments U_three {A}.
Arguments U_for {A}.
Arguments U_for_in {A}.
Arguments U_switch {A}.
Arguments U_try {A}.
Arguments U_func {A}.
Arguments U_arrow {A}.
Arguments U_class {A}.
Arguments U_number {A}.
Arguments U_string {A}.
Arguments U_bool {A}.
Arguments U_bigint {A}.
Arguments U_ident {A}.
Arguments U_binary {A}.
Arguments U_unary {A}.
Arguments U_call {A}.
Arguments U_new {A}.
Arguments U_member {A}.
Arguments U_property {A}.
Arguments U_template {A}.
Arguments U_pattern {A}.
Arguments U_yield {A}.
Arguments U_import {A}.
Arguments U_import_spec {A}.
Arguments U_export {A}.
Arguments U_export_spec {A}.

Inductive ASTNode :=
  | Null
  | MkNode (type : ASTNodeType) (token : NodeToken) (u : Union ASTNode).

(** ** The serializer *)

Definition LR_AST_NULL_NODE : Z := 65535.

(** [data] is the written part of the buffer, [cap] its size. *)
Record SerBuf := MkSerBuf {
  s_data : list Z;
  s_cap : Z;
  s_error : bool
}.

Section serializer.
Context (realloc_ok : Z -> alloc_result).

(** [while (ncap < need) ncap *= 2]; sizes stay below [2 ^ 63], so that the
    doubling does not wrap. *)
Fixpoint grow (fuel : nat) (ncap need : Z) : outcome Z :=
  if ncap <? need then
    match fuel with O => OutOfFuel | S fuel' => grow fuel' (ncap * 2) need end
  else Done ncap.

Definition ser_reserve (extra : Z) (b : SerBuf) : outcome SerBuf :=
  if s_error b then Done b
  else if zlen (s_data b) + extra <=? s_cap b then Done b
  else
    let need := zlen (s_data b) + extra in
    match grow (Z.to_nat (Z.log2_up need)) (if s_cap b =? 0 then 256 else s_cap b) need with
    | Done ncap =>
        if realloc_ok ncap then Done (MkSerBuf (s_data b) ncap false)
        else Done (MkSerBuf (s_data b) (s_cap b) true)
    | Crash => Crash
    | OutOfFuel => OutOfFuel
    end.

(** [b->data[b->len++] = v], one byte after the other, or one [memcpy]. *)
Definition put_bytes (bs : list Z) (b : SerBuf) : outcome SerBuf :=
  if zlen (s_data b) + zlen bs <=? s_cap b
  then Done (MkSerBuf (s_data b ++ bs) (s_cap b) (s_error b)) else Crash.

(** Reserve room, and unless that failed write. *)
Definition ser_bytes (bs : list Z) (b : SerBuf) : outcome SerBuf :=
  match ser_reserve (zlen bs) b with
  | Done b' => if s_error b' then Done b' else put_bytes bs b'
  | r => r
  end.

Definition ser_u8 (v : Z) : SerBuf -> outcome SerBuf := ser_bytes [u8 v].

Definition ser_u16 (v : Z) : SerBuf -> outcome SerBuf :=
  ser_bytes [u8 (Z.land v 255); u8 (Z.land (Z.shiftr v 8) 255)].

Definition ser_u32 (v : Z) : SerBuf -> outcome SerBuf :=
  ser_bytes [u8 (Z.land v 255); u8 (Z.land (Z.shiftr v 8) 255);
             u8 (Z.land (Z.shiftr v 16) 255); u8 (Z.land (Z.shiftr v 24) 255)].

(** One call after the other. *)
Definition and_then (f g : SerBuf -> outcome SerBuf) (b : SerBuf) : outcome SerBuf :=
  match f b with Done b' => g b' | r => r end.

#[local] Infix ";>" := and_then (at level 100, right associativity).

Definition ser_f64 (bits : Z) : SerBuf -> outcome SerBuf :=
  ser_u32 (Z.land bits (2 ^ 32 - 1)) ;> ser_u32 (Z.shiftr bits 32).

Definition ser_i64 (v : Z) : SerBuf -> outcome SerBuf :=
  ser_u32 (u32 (Z.land v (2 ^ 32 - 1))) ;> ser_u32 (u32 (Z.shiftr (u64 v) 32)).

Definition ser_str (s : option (list Z)) : SerBuf -> outcome SerBuf :=
  match s with
  | None => ser_u32 0
  | Some s =>
      let n := if Z.of_nat (strlen s) >? 2 ^ 32 - 1 then 2 ^ 32 - 1 else Z.of_nat (strlen s) in
      ser_u32 n ;> ser_bytes (take (Z.to_nat n) s)
  end.

(** [op] is a [char[16]]: at most 15 bytes, up to the first NUL. *)
Definition ser_op (op : list Z) : SerBuf -> outcome SerBuf :=
  let n := Z.min 15 (Z.of_nat (strlen op)) in
  ser_u8 n ;> ser_bytes (take (Z.to_nat n) op).

(** [for (i = 0; i < n; i++) f(items[i])] *)
Fixpoint ser_each {A} (f : A -> SerBuf -> outcome SerBuf) (items : list A)
    : SerBuf -> outcome SerBuf :=
  match items with
  | [] => fun b => Done b
  | x :: items' => f x ;> ser_each f items'
  end.

Definition ser_node_list {A} (ser_node : A -> SerBuf -> outcome SerBuf) (items : list A)
    : SerBuf -> outcome SerBuf :=
  ser_u32 (zlen items) ;> ser_each ser_node items.

(** The discriminator of a literal, from [node->token.type]. *)
Definition literal_tag (t : Z) : Z :=
  if t =? tok_num TOK_BOOL_LIT then 0
  else if t =? tok_num TOK_STRING then 1
  else if t =? tok_num TOK_NULL_LIT then 3
  else if t =? tok_num TOK_UNDEFINED_LIT then 4
  else if t =? tok_num TOK_BIGINT_LIT then 5
  else 2.

Definition ser_literal (t : Z) {A} (u : Union A) : SerBuf -> outcome SerBuf :=
  let ltag := literal_tag t in
  ser_u8 ltag ;>
  match ltag, u with
  | 0, U_bool val => ser_u32 (u32 val)
  | 1, U_string str => ser_str str
  | 2, U_number num => ser_f64 num
  | 5, U_bigint val => ser_i64 val
  | 3, _ | 4, _ => fun b => Done b
  | _, _ => fun _ => Crash
  end.

(** The [switch] of [ser_node].  A node whose live member is not the one its
    type reads is no node of the model. *)
Definition ser_union {A} (ser_node : A -> SerBuf -> outcome SerBuf) (type : ASTNodeType)
    (t : Z) (u : Union A) : SerBuf -> outcome SerBuf :=
  match type, u with
  | AST_PROGRAM, U_list items | AST_BLOCK, U_list items => ser_node_list ser_node items
  | AST_EXPR_STMT, U_child expr => ser_node expr
  | AST_IF, U_three cond body else_body
  | AST_WHILE, U_three cond body else_body
  | AST_DO_WHILE, U_three cond body else_body =>
      ser_node cond ;> ser_node body ;> ser_node else_body
  | AST_FOR, U_for init test update body =>
      ser_node init ;> ser_node test ;> ser_node update ;> ser_node body
  | AST_FOR_IN, U_for_in source each body
  | AST_FOR_OF, U_for_in source each body =>
      ser_node each ;> ser_node source ;> ser_node body
  | AST_SWITCH, U_switch test cases => ser_node test ;> ser_node_list ser_node cases
  | AST_CASE, U_three cond body _ | AST_DEFAULT, U_three cond body _ =>
      ser_node cond ;> ser_node body
  | AST_BREAK, U_child label | AST_CONTINUE, U_child label => ser_node label
  | AST_RETURN, U_child arg | AST_THROW, U_child arg => ser_node arg
  | AST_TRY, U_try body catch_body finally_body catch_var =>
      ser_node body ;> ser_node catch_body ;> ser_node finally_body ;> ser_str catch_var
  | AST_LABEL, U_pair label stmt => ser_node label ;> ser_node stmt
  | AST_WITH, U_pair obj body => ser_node obj ;> ser_node body
  | AST_DEBUGGER, _ => fun b => Done b
  | AST_VAR_DECL, U_list vars => ser_node_list ser_node vars
  | AST_VAR_DECLARATOR, U_pair var init => ser_node var ;> ser_node init
  | AST_FUNC_DECL, U_func name body params flags key_expr _
  | AST_FUNC_EXPR, U_func name body params flags key_expr _ =>
      ser_str name ;> ser_node_list ser_node params ;> ser_node key_expr ;> ser_node body ;>
      ser_u8 (f_async flags) ;> ser_u8 (f_generator flags) ;> ser_u8 (f_static flags) ;>
      ser_u8 (f_getter flags) ;> ser_u8 (f_setter flags)
  | AST_ARROW, U_arrow name body params is_async =>
      ser_str name ;> ser_node_list ser_node params ;> ser_node body ;> ser_u8 is_async
  | AST_CLASS_DECL, U_class name extends methods =>
      ser_str name ;> ser_node extends ;> ser_node_list ser_node methods
  | AST_CLASS_BODY, U_list methods => ser_node_list ser_node methods
  | AST_LITERAL, _ => ser_literal t u
  | AST_IDENTIFIER, U_ident name => ser_str name
  | AST_THIS, _ | AST_SUPER, _ => fun b => Done b
  | AST_BINARY, U_binary lhs rhs op => ser_node lhs ;> ser_node rhs ;> ser_op op
  | AST_UNARY, U_unary arg op prefix => ser_node arg ;> ser_op op ;> ser_u8 prefix
  | AST_CONDITIONAL, U_three cond consequent alternate =>
      ser_node cond ;> ser_node consequent ;> ser_node alternate
  | AST_CALL, U_call callee args is_optional
  | AST_OPTIONAL_CALL, U_call callee args is_optional =>
      ser_node callee ;> ser_node_list ser_node args ;> ser_u8 is_optional
  | AST_NEW, U_new callee args => ser_node callee ;> ser_node_list ser_node args
  | AST_MEMBER, U_member obj prop is_optional
  | AST_COMPUTED_MEMBER, U_member obj prop is_optional
  | AST_OPTIONAL_MEMBER, U_member obj prop is_optional =>
      ser_node obj ;> ser_node prop ;> ser_u8 is_optional
  | AST_ASSIGN, U_binary target value op => ser_node target ;> ser_node value ;> ser_op op
  | AST_SEQUENCE, U_list exprs => ser_node_list ser_node exprs
  | AST_ARRAY, U_list elements => ser_node_list ser_node elements
  | AST_OBJECT, U_list props => ser_node_list ser_node props
  | AST_PROPERTY, U_property key val computed shorthand is_static =>
      ser_node key ;> ser_node val ;>
      ser_u8 computed ;> ser_u8 shorthand ;> ser_u8 is_static
  | AST_SPREAD, U_child arg | AST_SPREAD_ELEMENT, U_child arg => ser_node arg
  | AST_TEMPLATE, U_template parts tag exprs | AST_TAGGED_TEMPLATE, U_template parts tag exprs =>
      ser_u32 (zlen parts) ;> ser_each ser_str parts ;> ser_node tag ;>
      ser_u32 (zlen exprs) ;> ser_each ser_node exprs
  | AST_PATTERN, U_pattern elements is_object =>
      ser_node_list ser_node elements ;> ser_u8 is_object
  | AST_REST, U_child arg => ser_node arg
  | AST_DEFAULT_VALUE, U_pair lhs rhs => ser_node lhs ;> ser_node rhs
  | AST_AWAIT, U_child arg => ser_node arg
  | AST_YIELD, U_yield arg is_delegate => ser_node arg ;> ser_u8 is_delegate
  | AST_IMPORT, U_import specifiers source =>
      ser_node_list ser_node specifiers ;> ser_node source
  | AST_EXPORT, U_export specifiers source is_default =>
      ser_node_list ser_node specifiers ;> ser_node source ;> ser_u8 is_default
  | AST_EXPORT_NAMED, U_export_spec name exported => ser_str name ;> ser_node exported
  | AST_EXPORT_DEFAULT, U_child value => ser_node value
  | AST_EXPORT_ALL, U_child source => ser_node source
  | AST_IMPORT_SPECIFIER, U_import_spec name local is_default =>
      ser_str name ;> ser_node local ;> ser_u8 is_default
  | AST_IMPORT_NAMESPACE, U_child local => ser_node local
  | AST_CATCH, _ | AST_TEMPLATE_PART, _ | AST_UNKNOWN _, _ => fun b => Done b
  | _, _ => fun _ => Crash
  end.

Fixpoint ser_node (node : ASTNode) : SerBuf -> outcome SerBuf :=
  match node with
  | Null => ser_u16 LR_AST_NULL_NODE
  | MkNode type token u =>
      ser_u16 (u16 (type_num type)) ;> ser_u16 (u16 (n_type token)) ;>
      ser_u32 (u32 (n_line token)) ;> ser_u32 (u32 (n_col token)) ;>
      ser_f64 (n_num token) ;>
      ser_union ser_node type (n_type token) u
  end.

(** "LRA" and the format version. *)
Definition lr_ast_serialize (root : ASTNode) : outcome (option (list Z)) :=
  match (ser_u8 76 ;> ser_u8 82 ;> ser_u8 65 ;> ser_u8 3 ;> ser_node root)
          (MkSerBuf [] 0 false) with
  | Done b => if s_error b then Done None else Done (Some (s_data b))
  | Crash => Crash
  | OutOfFuel => OutOfFuel
  end.

End serializer.

(** ** The deserializer *)

(** [buf] is the image after its header, [len] its length. *)
Record DeserState := MkDeser {
  d_buf : list Z;
  d_pos : Z;
  d_error : bool
}.

Definition d_len (st : DeserState) : Z := zlen (d_buf st).

Definition D (A : Type) : Type := DeserState -> outcome (A * DeserState).

#[export] Instance D_ret : MRet D := fun A a st => Done (a, st).
#[export] Instance D_bind : MBind D := fun A B f m st =>
  match m st with Done (a, st') => f a st' | Crash => Crash | OutOfFuel => OutOfFuel end.
#[export] Instance D_fmap : FMap D := fun A B f m => a ← m; mret (f a).

Definition get_error : D bool := fun st => Done (d_error st, st).
Definition raise : D unit := fun st => Done (tt, MkDeser (d_buf st) (d_pos st) true).
Definition advance (n : Z) : D unit :=
  fun st => Done (tt, MkDeser (d_buf st) (d_pos st + n) (d_error st)).

(** [st->pos + n > st->len] *)
Definition short_of (n : Z) : D bool := fun st => Done (d_pos st + n >? d_len st, st).

(** [st->buf[st->pos + i]] *)
Definition buf_at (i : Z) : D Z := fun st =>
  match d_buf st !! Z.to_nat (d_pos st + i) with Some b => Done (b, st) | None => Crash end.

(** [memcpy(.., st->buf + st->pos, n)] *)
Definition buf_copy (n : Z) : D (list Z) := fun st =>
  if d_pos st + n <=? d_len st then Done (slice (d_pos st) n (d_buf st), st) else Crash.

(** The guard of a fixed-width read; what is read is of its unsigned type. *)
Definition checked {A} (n : Z) (zero : A) (read : D A) : D A :=
  short ← short_of n;
  if (short : bool) then raise;; mret zero else read.

Definition read_u8 : D Z := checked 1 0 (b ← buf_at 0; advance 1;; mret (u8 b)).

Definition read_u16 : D Z :=
  checked 2 0 (
    b0 ← buf_at 0; b1 ← buf_at 1;
    advance 2;;
    mret (u16 (Z.lor b0 (Z.shiftl b1 8)))).

Definition read_u32 : D Z :=
  checked 4 0 (
    b0 ← buf_at 0; b1 ← buf_at 1; b2 ← buf_at 2; b3 ← buf_at 3;
    advance 4;;
    mret (u32 (Z.lor (Z.lor (Z.lor b0 (Z.shiftl b1 8)) (Z.shiftl b2 16)) (Z.shiftl b3 24)))).

Definition read_f64 : D Z :=
  checked 8 0 (
    b0 ← buf_at 0; b1 ← buf_at 1; b2 ← buf_at 2; b3 ← buf_at 3;
    b4 ← buf_at 4; b5 ← buf_at 5; b6 ← buf_at 6; b7 ← buf_at 7;
    advance 8;;
    mret (u64 (Z.lor (Z.lor (Z.lor (Z.lor (Z.lor (Z.lor (Z.lor b0 (Z.shiftl b1 8))
           (Z.shiftl b2 16)) (Z.shiftl b3 24)) (Z.shiftl b4 32)) (Z.shiftl b5 40))
           (Z.shiftl b6 48)) (Z.shiftl b7 56)))).

Definition read_i64 : D Z :=
  lo ← read_u32; hi ← read_u32;
  mret (i64 (Z.lor (Z.shiftl hi 32) lo)).

(** The string a length announces; [none] when it is empty or missing. *)
Definition deser_chars (none : option (list Z)) (copy : Z -> D (option (list Z))) : D (option (list Z)) :=
  n ← read_u32;
  e ← get_error;
  if (e : bool) || (n =? 0) then mret none
  else
    short ← short_of n;
    if (short : bool) then raise;; mret none else copy n.

(** The interned copy of [n] bytes is those bytes. *)
Definition deser_str : D (option (list Z)) :=
  deser_chars (Some []) (fun n => s ← buf_copy n; advance n;; mret (Some s)).

(** [n] bytes and a terminator, copied to a block of [size] bytes. *)
Definition copy_to (size n : Z) : D (list Z) :=
  if n + 1 <=? size then buf_copy n else fun _ => Crash.

Section deserializer.

(** [malloc] of a size in bytes. *)
Context (malloc_ok : Z -> alloc_result).

(** [malloc(n + 1)]: [n] is a [uint32_t], and so is the sum. *)
Definition copy_raw (n : Z) : D (option (list Z)) :=
  let size := u32 (n + 1) in
  if malloc_ok size then s ← copy_to size n; advance n;; mret (Some s)
  else raise;; mret None.

Definition deser_str_raw : D (option (list Z)) := deser_chars None copy_raw.

Definition deser_op : D (list Z) :=
  n ← read_u8;
  let n := if n >? 15 then 15 else n in
  short ← short_of n;
  if (short : bool) then raise;; mret []
  else s ← buf_copy n; advance n;; mret s.

(** [for (i = 0; i < n; i++) arr[i] = f(..)] *)
Fixpoint deser_each {A} (f : D A) (n : nat) : D (list A) :=
  match n with
  | O => mret []
  | S n' => x ← f; xs ← deser_each f n'; mret (x :: xs)
  end.

(** The array as its readers see it: the first [*out_count] elements, an [int]. *)
Definition deser_node_list {A} (deser_node : D A) : D (list A) :=
  count ← read_u32;
  if count =? 0 then mret []
  else if negb (malloc_ok (count * 8)) then raise;; mret []
  else
    arr ← deser_each deser_node (Z.to_nat count);
    mret (take (Z.to_nat (i32 count)) arr).

(** The lists of a template: a signed count, and an array that is not tested. *)
Definition deser_counted {A} (f : D A) : D (list A) :=
  n ← read_u32;
  if 0 <? i32 n then
    if malloc_ok (i32 n * 8) then deser_each f (Z.to_nat (i32 n)) else fun _ => Crash
  else mret [].

(** [m->u.func.class_node = node] of a method. *)
Definition set_class_node (m : ASTNode) : ASTNode :=
  match m with
  | MkNode ((AST_FUNC_DECL | AST_FUNC_EXPR) as type) token
      (U_func name body params flags key_expr _) =>
      MkNode type token (U_func name body params flags key_expr true)
  | _ => m
  end.

Definition deser_literal : D (Z * Union ASTNode) :=
  ltag ← read_u8;
  if ltag =? 0 then
    bv ← read_u32; mret (tok_num TOK_BOOL_LIT, U_bool (i32 bv))
  else if ltag =? 1 then
    s ← deser_str; mret (tok_num TOK_STRING, U_string s)
  else if ltag =? 2 then
    num ← read_f64; mret (tok_num TOK_NUMBER, U_number num)
  else if ltag =? 3 then mret (tok_num TOK_NULL_LIT, U_number 0)
  else if ltag =? 5 then
    v ← read_i64; mret (tok_num TOK_BIGINT_LIT, U_bigint v)
  else mret (tok_num TOK_UNDEFINED_LIT, U_number 13830554455654793216).   (* -1.0 *)

(** The [switch] of [deser_node] below [AST_LITERAL]; a child not assigned stays
    NULL, the structure having been cleared. *)
Definition deser_union (deser_node : D ASTNode) (type : ASTNodeType) : D (Union ASTNode) :=
  let deser_list := deser_node_list deser_node in
  match type with
  | AST_PROGRAM | AST_BLOCK => U_list <$> deser_list
  | AST_EXPR_STMT => U_child <$> deser_node
  | AST_IF | AST_WHILE | AST_DO_WHILE =>
      cond ← deser_node; body ← deser_node; else_body ← deser_node;
      mret (U_three cond body else_body)
  | AST_FOR =>
      init ← deser_node; test ← deser_node; update ← deser_node; body ← deser_node;
      mret (U_for init test update body)
  | AST_FOR_IN | AST_FOR_OF =>
      each ← deser_node; source ← deser_node; body ← deser_node;
      mret (U_for_in source each body)
  | AST_SWITCH => test ← deser_node; cases ← deser_list; mret (U_switch test cases)
  | AST_CASE | AST_DEFAULT =>
      cond ← deser_node; body ← deser_node; mret (U_three cond body Null)
  | AST_BREAK | AST_CONTINUE | AST_RETURN | AST_THROW => U_child <$> deser_node
  | AST_TRY =>
      body ← deser_node; catch_body ← deser_node; finally_body ← deser_node;
      catch_var ← deser_str_raw;
      mret (U_try body catch_body finally_body catch_var)
  | AST_LABEL | AST_WITH => fst ← deser_node; snd ← deser_node; mret (U_pair fst snd)
  | AST_VAR_DECL => U_list <$> deser_list
  | AST_VAR_DECLARATOR => var ← deser_node; init ← deser_node; mret (U_pair var init)
  | AST_FUNC_DECL | AST_FUNC_EXPR =>
      name ← deser_str_raw; params ← deser_list; key_expr ← deser_node; body ← deser_node;
      is_async ← read_u8; is_generator ← read_u8; is_static ← read_u8;
      is_getter ← read_u8; is_setter ← read_u8;
      mret (U_func name body params
              (MkFuncFlags is_async is_generator is_static is_getter is_setter) key_expr false)
  | AST_ARROW =>
      name ← deser_str; params ← deser_list; body ← deser_node; is_async ← read_u8;
      mret (U_arrow name body params is_async)
  | AST_CLASS_DECL =>
      name ← deser_str_raw; extends ← deser_node; methods ← deser_list;
      mret (U_class name extends (map set_class_node methods))
  | AST_CLASS_BODY => U_list <$> deser_list
  | AST_IDENTIFIER => U_ident <$> deser_str
  | AST_BINARY | AST_ASSIGN =>
      lhs ← deser_node; rhs ← deser_node; op ← deser_op; mret (U_binary lhs rhs op)
  | AST_UNARY => arg ← deser_node; op ← deser_op; prefix ← read_u8; mret (U_unary arg op prefix)
  | AST_CONDITIONAL =>
      cond ← deser_node; consequent ← deser_node; alternate ← deser_node;
      mret (U_three cond consequent alternate)
  | AST_CALL | AST_OPTIONAL_CALL =>
      callee ← deser_node; args ← deser_list; is_optional ← read_u8;
      mret (U_call callee args is_optional)
  | AST_NEW => callee ← deser_node; args ← deser_list; mret (U_new callee args)
  | AST_MEMBER | AST_COMPUTED_MEMBER | AST_OPTIONAL_MEMBER =>
      obj ← deser_node; prop ← deser_node; is_optional ← read_u8;
      mret (U_member obj prop is_optional)
  | AST_SEQUENCE | AST_ARRAY | AST_OBJECT => U_list <$> deser_list
  | AST_PROPERTY =>
      key ← deser_node; val ← deser_node;
      computed ← read_u8; shorthand ← read_u8; is_static ← read_u8;
      mret (U_property key val computed shorthand is_static)
  | AST_SPREAD | AST_SPREAD_ELEMENT => U_child <$> deser_node
  | AST_TEMPLATE | AST_TAGGED_TEMPLATE =>
      parts ← deser_counted deser_str_raw; tag ← deser_node; exprs ← deser_counted deser_node;
      mret (U_template parts tag exprs)
  | AST_PATTERN =>
      elements ← deser_list; is_object ← read_u8; mret (U_pattern elements is_object)
  | AST_REST => U_child <$> deser_node
  | AST_DEFAULT_VALUE => lhs ← deser_node; rhs ← deser_node; mret (U_pair lhs rhs)
  | AST_AWAIT => U_child <$> deser_node
  | AST_YIELD => arg ← deser_node; is_delegate ← read_u8; mret (U_yield arg is_delegate)
  | AST_IMPORT => specifiers ← deser_list; source ← deser_node; mret (U_import specifiers source)
  | AST_EXPORT =>
      specifiers ← deser_list; source ← deser_node; is_default ← read_u8;
      mret (U_export specifiers source is_default)
  | AST_EXPORT_NAMED =>
      name ← deser_str_raw; exported ← deser_node; mret (U_export_spec name exported)
  | AST_EXPORT_DEFAULT | AST_EXPORT_ALL => U_child <$> deser_node
  | AST_IMPORT_SPECIFIER =>
      name ← deser_str_raw; local ← deser_node; is_default ← read_u8;
      mret (U_import_spec name local is_default)
  | AST_IMPORT_NAMESPACE => U_child <$> deser_node
  | AST_DEBUGGER | AST_THIS | AST_SUPER | AST_LITERAL
  | AST_CATCH | AST_TEMPLATE_PART | AST_UNKNOWN _ => mret U_none
  end.

(** A node whose type has been read: its token, then the [switch].  With an error
    it is freed again. *)
Definition deser_body (deser_node : D ASTNode) (t : Z) : D ASTNode :=
  let type := node_type t in
  ttype ← read_u16; line ← read_u32; col ← read_u32; num ← read_f64;
  lit ← match type with
        | AST_LITERAL => deser_literal
        | _ => u ← deser_union deser_node type; mret (ttype, u)
        end;
  e ← get_error;
  if (e : bool) then mret Null
  else mret (MkNode type (MkNodeToken lit.1 line col num) lit.2).

(** [fuel] bounds the nesting of calls. *)
Fixpoint deser_node (fuel : nat) : D ASTNode :=
  match fuel with
  | O => fun _ => OutOfFuel
  | S fuel' =>
      t ← read_u16;
      e ← get_error;
      if (e : bool) then mret Null
      else if t =? LR_AST_NULL_NODE then mret Null
      else deser_body (deser_node fuel') t
  end.

(** [None]: the image is refused. *)
Definition lr_ast_deserialize (buf : list Z) : outcome (option ASTNode) :=
  if (zlen buf <? 5) || negb (bool_decide (take 4 buf = [76; 82; 65; 3])) then Done None
  else
    match deser_node (S (length buf)) (MkDeser (drop 4 buf) 0 false) with
    | Done (Null, _) => Done None
    | Done (root, st) => Done (if d_error st then None else Some root)
    | Crash => Crash
    | OutOfFuel => OutOfFuel
    end.

End deserializer.
