(* ===== verification/AstImageOk.v ===== *)
(** The image of a syntax tree is read back: what the serializer writes, what the
    deserializer makes of it, and what it makes of any other bytes.

    [codes w r a] says that the writer [w] and the reader [r] agree: [w] appends
    bytes on which [r] returns [a] and stops right behind them.  It is closed
    under sequencing, so that a node is one application per field.  [behaved k m]
    says what holds of [m] on every input: it returns without reading past the
    buffer, an error stays, and an answer without error does not depend on bytes
    behind the position. *)

From stdpp Require Import base list strings.
From Stdlib Require Import ZArith Lia.
From S2P Require Import Prelude.
From S2P Require Import BcProgram.
From S2P Require Import LexText.
From S2P Require Import Ast.
From S2P Require Import AstImage.

(** ** Trees *)

Section all.
Context {A : Type} (Q : A -> Prop).

Fixpoint all (l : list A) : Prop :=
  match l with [] => True | x :: l' => Q x /\ all l' end.

(** [Q] of every child. *)
Definition union_all (u : Union A) : Prop :=
  match u with
  | U_none | U_number _ | U_string _ | U_bool _ | U_bigint _ | U_ident _ => True
  | U_list l => all l
  | U_child a | U_unary a _ _ | U_yield a _ | U_import_spec _ a _ | U_export_spec _ a => Q a
  | U_pair a b | U_binary a b _ | U_member a b _ | U_property a b _ _ _ => Q a /\ Q b
  | U_three a b c | U_for_in a b c | U_try a b c _ => Q a /\ Q b /\ Q c
  | U_for a b c d => Q a /\ Q b /\ Q c /\ Q d
  | U_switch a l | U_class _ a l | U_call a l _ | U_new a l | U_template _ a l
  | U_import l a | U_export l a _ | U_arrow _ a l _ => Q a /\ all l
  | U_func _ a l _ b _ => Q a /\ all l /\ Q b
  | U_pattern l _ => all l
  end.
End all.

Lemma ASTNode_tree_ind (Q : ASTNode -> Prop) :
  Q Null -> (forall type token u, union_all Q u -> Q (MkNode type token u)) -> forall n, Q n.
Proof.
  intros HN HM. fix IH 1. intros [|type token u]; [exact HN|]. apply HM.
  assert (forall l, all Q l) as IHl
    by (fix IHl 1; intros [|x l]; [exact I|exact (conj (IH x) (IHl l))]).
  destruct u; cbn; repeat split; auto.
Qed.

(** ** Writing *)

Section writing.
Context (realloc_ok : Z -> alloc_result).

(** Before and after every call. *)
Definition buf_ok (b : SerBuf) : Prop := zlen (s_data b) <= s_cap b.

(** After an error nothing is written; otherwise [bs] is, unless an allocation
    fails.  The buffer is never overrun: the result is never a [Crash]. *)
Definition writes (w : SerBuf -> outcome SerBuf) (bs : list Z) : Prop :=
  forall b, buf_ok b ->
    if s_error b then w b = Done b
    else exists b', w b = Done b' /\ buf_ok b' /\
      if s_error b' then exists n, realloc_ok n = false
      else s_data b' = s_data b ++ bs.

Lemma grow_done fuel ncap need :
  need <= ncap * 2 ^ Z.of_nat fuel -> exists c, grow fuel ncap need = Done c /\ need <= c.
Proof.
  revert ncap. induction fuel as [|fuel IH]; intros ncap Hf; cbn [grow];
    (destruct (Z.ltb_spec ncap need); [|eauto]).
  - rewrite Z.pow_0_r in Hf. lia.
  - apply IH. rewrite Nat2Z.inj_succ, Z.pow_succ_r in Hf by lia. lia.
Qed.

Lemma grow_enough ncap need :
  0 < ncap -> exists c, grow (Z.to_nat (Z.log2_up need)) ncap need = Done c /\ need <= c.
Proof.
  intros Hn. apply grow_done. rewrite Z2Nat.id by apply Z.log2_up_nonneg.
  destruct (Z.le_gt_cases need 1).
  - pose proof (Z.log2_up_nonneg need). nia.
  - pose proof (Z.log2_up_spec need ltac:(lia)). nia.
Qed.

Lemma reserve_spec extra b :
  0 <= extra -> buf_ok b -> s_error b = false ->
  exists b', ser_reserve realloc_ok extra b = Done b' /\ s_data b' = s_data b /\ buf_ok b' /\
    if s_error b' then exists n, realloc_ok n = false
    else zlen (s_data b) + extra <= s_cap b'.
Proof.
  unfold buf_ok, ser_reserve. intros He Hb E. rewrite E.
  destruct (Z.leb_spec (zlen (s_data b) + extra) (s_cap b)).
  { exists b. rewrite E. eauto. }
  pose proof (zlen_nonneg (s_data b)). cbv zeta.
  destruct (grow_enough (if s_cap b =? 0 then 256 else s_cap b) (zlen (s_data b) + extra))
    as (c & -> & Hc).
  { destruct (Z.eqb_spec (s_cap b) 0); lia. }
  destruct (realloc_ok c) eqn:R; (eexists; split; [done|]); cbn; eauto with lia.
Qed.

Lemma writes_bytes bs : writes (ser_bytes realloc_ok bs) bs.
Proof.
  intros b Hb. unfold ser_bytes. destruct (s_error b) eqn:E.
  { unfold ser_reserve. by rewrite E, E. }
  destruct (reserve_spec (zlen bs) b) as (b' & -> & Ed & Hb' & Hr); auto with lr.
  destruct (s_error b') eqn:E'; [exists b'; rewrite E'; auto|].
  unfold put_bytes. rewrite Ed. destruct (Z.leb_spec (zlen (s_data b) + zlen bs) (s_cap b')); [|lia].
  eexists. split; [done|]. unfold buf_ok. cbn [s_data s_cap s_error]. rewrite E', zlen_app. auto.
Qed.

Lemma writes_nil : writes (fun b => Done b) [].
Proof.
  intros b Hb. destruct (s_error b) eqn:E; [done|].
  exists b. rewrite E, app_nil_r. auto.
Qed.

Lemma writes_then w1 w2 bs1 bs2 :
  writes w1 bs1 -> writes w2 bs2 -> writes (and_then w1 w2) (bs1 ++ bs2).
Proof.
  intros H1 H2 b Hb. specialize (H1 b Hb). unfold and_then. destruct (s_error b) eqn:E.
  { rewrite H1. specialize (H2 b Hb). by rewrite E in H2. }
  destruct H1 as (b1 & -> & Hb1 & H1). specialize (H2 b1 Hb1).
  destruct (s_error b1) eqn:E1; [exists b1; rewrite E1; auto|].
  destruct H2 as (b2 & -> & Hb2 & H2). exists b2. rewrite H1 in H2. rewrite app_assoc.
  destruct (s_error b2); auto.
Qed.

(** The bytes are determined by the writer. *)
Lemma writes_unique w bs bs' :
  (forall n, realloc_ok n = true) -> writes w bs -> writes w bs' -> bs = bs'.
Proof.
  intros Hr H1 H2. set (b := MkSerBuf [] 0 false). assert (buf_ok b) as Hb by done.
  specialize (H1 b Hb). specialize (H2 b Hb). cbn in H1, H2.
  destruct H1 as (b1 & E1 & _ & H1), H2 as (b2 & E2 & _ & H2).
  assert (b1 = b2) as <- by congruence.
  destruct (s_error b1); [destruct H1 as [n Hn]; by rewrite Hr in Hn|congruence].
Qed.

End writing.

(** ** Reading *)

Definition extend (more : list Z) (st : DeserState) : DeserState :=
  MkDeser (d_buf st ++ more) (d_pos st) (d_error st).
Definition moved_by (n : Z) (st : DeserState) : DeserState :=
  MkDeser (d_buf st) (d_pos st + n) (d_error st).

(** A position in a buffer whose lengths are below the largest [uint32_t]. *)
Definition in_buf (st : DeserState) : Prop := 0 <= d_pos st <= d_len st /\ d_len st < 2 ^ 32 - 1.

(** The bytes at the position. *)
Definition ahead (n : Z) (st : DeserState) : list Z := slice (d_pos st) n (d_buf st).

(** A read of [n] bytes that are there. *)
Definition fixed {A} (n : Z) (read : D A) (f : list Z -> A) : Prop :=
  0 <= n /\ forall st, 0 <= d_pos st -> d_pos st + n <= d_len st ->
    read st = Done (f (ahead n st), moved_by n st).

Lemma at_ahead n st i : 0 <= d_pos st -> 0 <= i < n -> at_ (ahead n st) i = at_ (d_buf st) (d_pos st + i).
Proof.
  intros Hp Hi. unfold at_, ahead, slice. rewrite !list_lookup_total_alt.
  rewrite lookup_take_lt by lia. rewrite lookup_drop. do 2 f_equal. lia.
Qed.

Lemma buf_at_ahead n i st :
  0 <= d_pos st -> d_pos st + n <= d_len st -> 0 <= i < n ->
  buf_at i st = Done (at_ (ahead n st) i, st).
Proof.
  intros Hp Hn Hi. rewrite at_ahead by done. unfold buf_at, at_, d_len, zlen in *.
  destruct (lookup_lt_is_Some_2 (d_buf st) (Z.to_nat (d_pos st + i))) as [b Hb]; [lia|].
  by rewrite Hb, (list_lookup_total_correct _ _ _ Hb).
Qed.

Lemma buf_copy_ahead n : 0 <= n -> fixed n (s ← buf_copy n; advance n;; mret s) (fun l => l).
Proof.
  intros Hn. split; [done|]. intros st Hp Hr. unfold buf_copy, mbind, D_bind.
  by destruct (Z.leb_spec (d_pos st + n) (d_len st)); [|lia].
Qed.

(** The bytes of a read, fetched one after the other. *)
Ltac fetch n :=
  split; [lia|]; intros st Hp Hr; unfold mbind, D_bind;
  rewrite ?(buf_at_ahead n) by (done || lia); reflexivity.

Definition get_u16 (l : list Z) : Z := Z.lor (at_ l 0) (Z.shiftl (at_ l 1) 8).
Definition get_u64 (l : list Z) : Z :=
  Z.lor (Z.lor (Z.lor (Z.lor (Z.lor (Z.lor (Z.lor (at_ l 0) (Z.shiftl (at_ l 1) 8))
    (Z.shiftl (at_ l 2) 16)) (Z.shiftl (at_ l 3) 24)) (Z.shiftl (at_ l 4) 32))
    (Z.shiftl (at_ l 5) 40)) (Z.shiftl (at_ l 6) 48)) (Z.shiftl (at_ l 7) 56).

Lemma fixed_u8 : fixed 1 (b ← buf_at 0; advance 1;; mret (u8 b)) (fun l => u8 (at_ l 0)).
Proof. fetch 1. Qed.

Lemma fixed_u16 :
  fixed 2 (b0 ← buf_at 0; b1 ← buf_at 1; advance 2;; mret (u16 (Z.lor b0 (Z.shiftl b1 8))))
    (fun l => u16 (get_u16 l)).
Proof. fetch 2. Qed.

Lemma fixed_u32 :
  fixed 4 (b0 ← buf_at 0; b1 ← buf_at 1; b2 ← buf_at 2; b3 ← buf_at 3; advance 4;;
    mret (u32 (Z.lor (Z.lor (Z.lor b0 (Z.shiftl b1 8)) (Z.shiftl b2 16)) (Z.shiftl b3 24))))
    (fun l => u32 (get_u32 l)).
Proof. fetch 4. Qed.

Lemma fixed_f64 :
  fixed 8 (b0 ← buf_at 0; b1 ← buf_at 1; b2 ← buf_at 2; b3 ← buf_at 3;
    b4 ← buf_at 4; b5 ← buf_at 5; b6 ← buf_at 6; b7 ← buf_at 7; advance 8;;
    mret (u64 (Z.lor (Z.lor (Z.lor (Z.lor (Z.lor (Z.lor (Z.lor b0 (Z.shiftl b1 8))
           (Z.shiftl b2 16)) (Z.shiftl b3 24)) (Z.shiftl b4 32)) (Z.shiftl b5 40))
           (Z.shiftl b6 48)) (Z.shiftl b7 56)))) (fun l => u64 (get_u64 l)).
Proof. fetch 8. Qed.

(** *** On every input *)

Definition after (st st' : DeserState) : Prop :=
  d_buf st' = d_buf st /\ d_pos st <= d_pos st' <= d_len st /\
  (d_error st = true -> d_error st' = true).

Definition behaved {A} (k : nat) (m : D A) : Prop :=
  forall st, in_buf st -> (d_error st = true \/ d_len st - d_pos st < Z.of_nat k) ->
  exists a st', m st = Done (a, st') /\ after st st' /\
    (d_error st' = false -> forall more, m (extend more st) = Done (a, extend more st')).

Lemma after_in_buf st st' : in_buf st -> after st st' -> in_buf st'.
Proof. unfold in_buf, after, d_len. intros ? (-> & ? & ?). lia. Qed.

Lemma after_trans st1 st2 st3 : after st1 st2 -> after st2 st3 -> after st1 st3.
Proof. unfold after, d_len. intros (E & ? & ?) (-> & Hp & ?). rewrite E in *. split_and!; auto; lia. Qed.

Lemma behaved_ret {A} k (a : A) : behaved k (mret a).
Proof. intros st Hs _. exists a, st. unfold after, in_buf in *. split_and!; auto; lia. Qed.

Lemma behaved_bind_if {A B} (Q : A -> Prop) k (m : D A) (f : A -> D B) :
  behaved k m -> (forall st a st', m st = Done (a, st') -> Q a) ->
  (forall a, Q a -> behaved k (f a)) -> behaved k (m ≫= f).
Proof.
  intros Hm HQ Hf st Hs Hk. destruct (Hm st Hs Hk) as (a & st1 & E1 & H1 & X1).
  assert (d_error st1 = true \/ d_len st1 - d_pos st1 < Z.of_nat k) as Hk1.
  { destruct H1 as (Eb & Hp & He). unfold d_len in *. rewrite Eb. destruct Hk; [auto|right; lia]. }
  destruct (Hf a (HQ _ _ _ E1) st1 (after_in_buf _ _ Hs H1) Hk1) as (c & st2 & E2 & H2 & X2).
  exists c, st2. unfold mbind, D_bind. rewrite E1. split_and!; [done|by eapply after_trans|].
  intros He more. rewrite X1, X2; auto. destruct (d_error st1) eqn:E; [|done].
  destruct H2 as (_ & _ & H2). rewrite H2 in He; done.
Qed.

Lemma behaved_bind {A B} k (m : D A) (f : A -> D B) :
  behaved k m -> (forall a, behaved k (f a)) -> behaved k (m ≫= f).
Proof. intros Hm Hf. apply (behaved_bind_if (fun _ => True)); auto. Qed.

Lemma behaved_get_error k : behaved k get_error.
Proof.
  intros st Hs _. exists (d_error st), st. unfold after, in_buf in *. split_and!; auto; lia.
Qed.

Lemma fixed_behaved_if {A} k n (zero : A) read f :
  (n < 2 ^ 32 - 1 -> fixed n read f) -> behaved k (checked n zero read).
Proof.
  intros Hfix st Hs _. unfold checked, short_of, mbind, D_bind.
  unfold in_buf in Hs. destruct (Z.gtb_spec (d_pos st + n) (d_len st)).
  { do 2 eexists. split; [done|]. split; [|done]. unfold after. cbn. auto with lia. }
  destruct Hfix as [Hn Hf]; [lia|]. rewrite Hf by lia. do 2 eexists. split; [done|].
  split; [unfold after; cbn; auto with lia|].
  intros _ more. cbn [extend d_pos]. unfold d_len in *. cbn [extend d_buf].
  rewrite zlen_app. pose proof (zlen_nonneg more).
  destruct (Z.gtb_spec (d_pos st + n) (zlen (d_buf st) + zlen more)); [lia|].
  rewrite Hf by (unfold d_len; cbn [extend d_pos d_buf]; rewrite ?zlen_app; lia).
  unfold ahead. cbn [extend d_pos d_buf]. unfold slice, zlen in *.
  rewrite drop_app_le by lia. by rewrite take_app_le by (rewrite length_drop; lia).
Qed.

Lemma fixed_behaved {A} k n (zero : A) read f : fixed n read f -> behaved k (checked n zero read).
Proof. intros H. by apply (fixed_behaved_if k n zero read f). Qed.

Lemma behaved_read_u8 k : behaved k read_u8.
Proof. eapply fixed_behaved, fixed_u8. Qed.
Lemma behaved_read_u16 k : behaved k read_u16.
Proof. eapply fixed_behaved, fixed_u16. Qed.
Lemma behaved_read_u32 k : behaved k read_u32.
Proof. eapply fixed_behaved, fixed_u32. Qed.
Lemma behaved_read_f64 k : behaved k read_f64.
Proof. eapply fixed_behaved, fixed_f64. Qed.

(** The result of a read is of its unsigned type. *)
Ltac read_range :=
  intros st a st'; unfold read_u8, read_u32, checked, short_of, raise, mbind, D_bind, mret, D_ret;
  case_if; intros H; repeat case_match; simplify_eq; first [lia | apply u8_range | apply u32_range].

Lemma behaved_u32 {A} k (f : Z -> D A) :
  (forall n, 0 <= n < 2 ^ 32 -> behaved k (f n)) -> behaved k (read_u32 ≫= f).
Proof. apply behaved_bind_if; [apply behaved_read_u32|read_range]. Qed.

Lemma behaved_u8 {A} k (f : Z -> D A) :
  (forall n, 0 <= n < 256 -> behaved k (f n)) -> behaved k (read_u8 ≫= f).
Proof. apply behaved_bind_if; [apply behaved_read_u8|read_range]. Qed.

Lemma fixed_fmap {A B} n (read : D A) l (f : A -> B) :
  fixed n (s ← read; advance n;; mret s) l -> fixed n (s ← read; advance n;; mret (f s)) (fun b => f (l b)).
Proof.
  intros [Hn H]. split; [done|]. intros st Hp Hr. specialize (H st Hp Hr).
  unfold mbind, D_bind in *. destruct (read st) as [[a st']| |]; try done.
  unfold advance, mret, D_ret in *.
  injection H as -> Eb Ep Ee. unfold moved_by. by rewrite Eb, Ep, Ee.
Qed.

Lemma behaved_chars k none copy f :
  (forall n, 0 <= n < 2 ^ 32 - 1 -> fixed n (copy n) f) -> behaved k (deser_chars none copy).
Proof.
  intros Hc. apply behaved_u32. intros n Hn. apply behaved_bind; [apply behaved_get_error|].
  intros e. case_if; [apply behaved_ret|].
  apply (fixed_behaved_if k n none (copy n) f). intros ?. apply Hc. lia.
Qed.

Lemma copy_interned n :
  0 <= n < 2 ^ 32 - 1 -> fixed n (s ← buf_copy n; advance n;; mret (Some s)) Some.
Proof. intros Hn. apply (fixed_fmap n (buf_copy n) (fun l => l) Some), buf_copy_ahead. lia. Qed.

Lemma behaved_str k : behaved k deser_str.
Proof. apply (behaved_chars k _ _ Some), copy_interned. Qed.

Lemma behaved_op k : behaved k deser_op.
Proof.
  apply behaved_u8. intros n Hn. cbv zeta.
  eapply (fixed_behaved k _ []), buf_copy_ahead. case_if; lia.
Qed.

Lemma behaved_fmap {A B} k (f : A -> B) (m : D A) : behaved k m -> behaved k (f <$> m).
Proof. intros H. apply behaved_bind; [done|]. intros a. apply behaved_ret. Qed.

Create HintDb image.
#[export] Hint Resolve behaved_ret behaved_get_error behaved_read_u8 behaved_read_u16
  behaved_read_u32 behaved_read_f64 behaved_str behaved_op : image.

(** A sequence of calls, each behaved. *)
Ltac behave :=
  repeat match goal with
  | |- behaved _ _ => solve [auto with image]
  | |- behaved _ (_ <$> _) => apply behaved_fmap
  | |- behaved _ (_ ≫= _) => apply behaved_bind; [|intros ?]
  | |- behaved _ (if _ then _ else _) => case_if
  end.

(** With every [malloc] successful, a block of [n + 1] bytes is large enough as
    long as [n + 1] does not wrap to 0. *)
Section closed.
Context (malloc_ok : Z -> alloc_result) (Hm : forall n, malloc_ok n = true).
Context (k : nat) (rec : D ASTNode) (Hrec : behaved k rec).

Lemma copy_raw_fixed n : 0 <= n < 2 ^ 32 - 1 -> fixed n (copy_raw malloc_ok n) Some.
Proof using Hm.
  intros Hn. unfold copy_raw, copy_to. rewrite Hm, u32_small by lia.
  destruct (Z.leb_spec (n + 1) (n + 1)); [|lia]. by apply copy_interned.
Qed.

Lemma behaved_str_raw : behaved k (deser_str_raw malloc_ok).
Proof using Hm. apply (behaved_chars k _ _ Some), copy_raw_fixed. Qed.

Lemma behaved_each {A} (f : D A) n : behaved k f -> behaved k (deser_each f n).
Proof using. intros Hf. induction n; cbn [deser_each]; behave. Qed.

Lemma behaved_node_list : behaved k (deser_node_list malloc_ok rec).
Proof using Hrec Hm.
  unfold deser_node_list. apply behaved_bind; [auto with image|]. intros n. rewrite Hm.
  cbn [negb]. behave. by apply behaved_each.
Qed.

Lemma behaved_counted {A} (f : D A) : behaved k f -> behaved k (deser_counted malloc_ok f).
Proof using Hm.
  intros Hf. unfold deser_counted. apply behaved_bind; [auto with image|]. intros n. rewrite Hm.
  behave. by apply behaved_each.
Qed.

Lemma behaved_literal : behaved k deser_literal.
Proof using. unfold deser_literal, read_i64. behave. Qed.

#[local] Hint Resolve behaved_str_raw behaved_node_list behaved_counted : image.

Lemma behaved_union type : behaved k (deser_union malloc_ok rec type).
Proof using Hrec Hm. destruct type; cbn [deser_union]; behave. Qed.

Lemma behaved_body t : behaved k (deser_body malloc_ok rec t).
Proof using Hrec Hm.
  unfold deser_body. behave. pose proof (behaved_union (node_type t)) as Hu.
  destruct (node_type t); first [apply behaved_literal|behave].
Qed.
End closed.

Lemma read_u16_moves st a st' :
  read_u16 st = Done (a, st') -> d_error st' = false -> d_pos st' = d_pos st + 2.
Proof.
  unfold read_u16, checked, short_of, raise, mbind, D_bind, mret, D_ret.
  case_if; [intros; by simplify_eq|]. unfold buf_at, advance.
  destruct (d_buf st !! Z.to_nat (d_pos st + 0)); [|done].
  destruct (d_buf st !! Z.to_nat (d_pos st + 1)); [|done]. intros. by simplify_eq.
Qed.

(** One call per byte is enough. *)
Lemma behaved_node malloc_ok fuel :
  (forall n, malloc_ok n = true) -> behaved (S fuel) (deser_node malloc_ok (S fuel)).
Proof.
  intros Hm. induction fuel as [|fuel IH]; intros st Hs Hk;
    destruct (behaved_read_u16 _ st Hs Hk) as (t & st1 & E & H & X);
    cbn [deser_node]; destruct (d_error st1) eqn:Ee.
  1, 3: exists Null, st1; unfold mbind, D_bind, get_error; rewrite E, Ee; by split_and!; [| |congruence].
  - pose proof (read_u16_moves _ _ _ E Ee). destruct H as (_ & ? & He).
    destruct Hk as [Hk|Hk]; [by rewrite He in Ee|lia].
  - pose proof (read_u16_moves _ _ _ E Ee). pose proof H as (Eb & ? & He).
    set (tail := if t =? LR_AST_NULL_NODE then mret Null else deser_body malloc_ok (deser_node malloc_ok (S fuel)) t).
    assert (behaved (S fuel) tail) as Ht
      by (unfold tail; case_if; [apply behaved_ret|by apply behaved_body]).
    destruct (Ht st1 (after_in_buf _ _ Hs H)) as (c & st2 & E2 & H2 & X2).
    { right. unfold d_len in *. rewrite Eb. destruct Hk as [Hk|Hk]; [by rewrite He in Ee|lia]. }
    exists c, st2. unfold mbind, D_bind, get_error. rewrite E, Ee.
    split_and!; [exact E2|by eapply after_trans|].
    intros He2 more. rewrite (X eq_refl more). cbn [extend d_error]. rewrite Ee. exact (X2 He2 more).
Qed.

(** *** On the bytes that were written *)

Definition reads {A} (r : D A) (bs : list Z) (a : A) : Prop :=
  forall pre rest,
    r (MkDeser (pre ++ bs ++ rest) (zlen pre) false)
      = Done (a, MkDeser (pre ++ bs ++ rest) (zlen pre + zlen bs) false).

Lemma reads_ret {A} (a : A) : reads (mret a) [] a.
Proof. intros pre rest. by rewrite zlen_nil, Z.add_0_r. Qed.

Lemma reads_bind {A B} (r : D A) (f : A -> D B) bs1 bs2 a b :
  reads r bs1 a -> reads (f a) bs2 b -> reads (r ≫= f) (bs1 ++ bs2) b.
Proof.
  intros H1 H2 pre rest. unfold mbind, D_bind. rewrite <- app_assoc, H1.
  specialize (H2 (pre ++ bs1) rest). rewrite <- app_assoc, zlen_app in H2.
  by rewrite H2, zlen_app, Z.add_assoc.
Qed.

Lemma reads_get_error : reads get_error [] false.
Proof. intros pre rest. by rewrite zlen_nil, Z.add_0_r. Qed.

Lemma reads_after {A B} (r : D A) (f : A -> D B) bs a b :
  reads r [] a -> reads (f a) bs b -> reads (r ≫= f) bs b.
Proof. intros H1 H2. exact (reads_bind r f [] bs a b H1 H2). Qed.

Lemma fixed_reads {A} n (zero : A) read f bs a :
  fixed n read f -> zlen bs = n -> f bs = a -> reads (checked n zero read) bs a.
Proof.
  intros [Hn Hf] <- <- pre rest. unfold checked, short_of, mbind, D_bind, d_len. cbn [d_pos d_buf].
  rewrite !zlen_app. pose proof (zlen_nonneg rest). pose proof (zlen_nonneg pre).
  destruct (Z.gtb_spec (zlen pre + zlen bs) (zlen pre + (zlen bs + zlen rest))); [lia|].
  rewrite Hf by (unfold d_len; cbn [d_pos d_buf]; rewrite ?zlen_app; lia).
  unfold ahead, slice, moved_by. cbn [d_pos d_buf d_error]. unfold zlen.
  by rewrite !Nat2Z.id, drop_app_length, take_app_length.
Qed.

Lemma reads_u8 v : reads read_u8 [u8 v] (u8 v).
Proof. eapply fixed_reads; [apply fixed_u8|done|]. cbn. apply u8_small, u8_range. Qed.

Lemma reads_u32 v : reads read_u32 (put_u32 v) (u32 v).
Proof.
  eapply fixed_reads; [apply fixed_u32|done|]. cbv beta.
  rewrite <- (app_nil_r (put_u32 v)), get_put_u32. apply u32_small, u32_range.
Qed.

Lemma le_val_app l1 l2 : le_val (l1 ++ l2) = le_val l1 + 256 ^ zlen l1 * le_val l2.
Proof.
  induction l1 as [|x l1 IH]; cbn [app le_val].
  { change (zlen (@nil Z)) with 0. rewrite Z.pow_0_r. lia. }
 
  rewrite IH, zlen_cons, Z.pow_add_r by (auto with lr; lia). lia.
Qed.

Lemma get_u64_8 a b c d e f g h :
  byte a -> byte b -> byte c -> byte d -> byte e -> byte f -> byte g ->
  get_u64 [a; b; c; d; e; f; g; h] = le_val [a; b; c; d; e; f; g; h].
Proof.
  unfold byte, get_u64. intros.
  change (at_ [a; b; c; d; e; f; g; h] 0) with a. change (at_ [a; b; c; d; e; f; g; h] 1) with b.
  change (at_ [a; b; c; d; e; f; g; h] 2) with c. change (at_ [a; b; c; d; e; f; g; h] 3) with d.
  change (at_ [a; b; c; d; e; f; g; h] 4) with e. change (at_ [a; b; c; d; e; f; g; h] 5) with f.
  change (at_ [a; b; c; d; e; f; g; h] 6) with g. change (at_ [a; b; c; d; e; f; g; h] 7) with h.
  rewrite (lor_shiftl_add 8 a), (lor_shiftl_add 16), (lor_shiftl_add 24), (lor_shiftl_add 32),
    (lor_shiftl_add 40), (lor_shiftl_add 48), (lor_shiftl_add 56) by lia.
  cbn [le_val]. lia.
Qed.

Lemma le_val_put lo hi : le_val (put_u32 lo ++ put_u32 hi) = u32 lo + 2 ^ 32 * u32 hi.
Proof. by rewrite le_val_app, !put_u32_le, !le_val_bytes. Qed.

Lemma reads_u64 lo hi : reads read_f64 (put_u32 lo ++ put_u32 hi) (u32 lo + 2 ^ 32 * u32 hi).
Proof.
  eapply fixed_reads; [apply fixed_f64|done|]. cbv beta.
  unfold put_u32. cbn [app]. rewrite get_u64_8 by auto with lr.
  change (u64 (le_val (put_u32 lo ++ put_u32 hi)) = u32 lo + 2 ^ 32 * u32 hi).
  rewrite le_val_put. unfold u64. apply Z.mod_small.
  pose proof (u32_range lo). pose proof (u32_range hi). lia.
Qed.

Lemma u64_halves v : u32 (Z.land v (2 ^ 32 - 1)) + 2 ^ 32 * u32 (Z.shiftr v 32) = u64 v.
Proof.
  change (2 ^ 32 - 1) with (Z.ones 32). rewrite Z.land_ones, Z.shiftr_div_pow2 by lia.
  unfold u32, u64. rewrite Z.mod_mod by lia.
  change (2 ^ 64) with (2 ^ 32 * 2 ^ 32). rewrite Z.rem_mul_r by lia. done.
Qed.

(** ** What comes back *)

(** A string copied for the node: an empty one comes back as NULL. *)
Definition owned (s : option (list Z)) : option (list Z) :=
  s ← s; match cstr s with [] => None | c => Some c end.
(** An interned string: NULL comes back as an empty one. *)
Definition interned (s : option (list Z)) : option (list Z) := Some (cstr (default [] s)).
Definition restored_op (op : list Z) : list Z := take 15 (cstr op).

Definition restored_flags (f : FuncFlags) : FuncFlags :=
  MkFuncFlags (u8 (f_async f)) (u8 (f_generator f)) (u8 (f_static f)) (u8 (f_getter f))
    (u8 (f_setter f)).

(** A literal takes its token type from the tag, and the values of [null] and
    [undefined] are fixed. *)
Definition restored_literal (t : Z) (u : Union ASTNode) : Z * Union ASTNode :=
  if literal_tag t =? 3 then (tok_num TOK_NULL_LIT, U_number 0)
  else if literal_tag t =? 4 then (tok_num TOK_UNDEFINED_LIT, U_number 13830554455654793216)
  else
    match u with
    | U_bool v => (tok_num TOK_BOOL_LIT, U_bool (i32 v))
    | U_string s => (tok_num TOK_STRING, U_string (interned s))
    | U_number v => (tok_num TOK_NUMBER, U_number (u64 v))
    | U_bigint v => (tok_num TOK_BIGINT_LIT, U_bigint (i64 v))
    | _ => (t, u)
    end.

Definition plain_fields (u : Union ASTNode) : Union ASTNode :=
  match u with
  | U_try body catch_body finally_body v => U_try body catch_body finally_body (owned v)
  | U_func name body params flags key_expr _ =>
      U_func (owned name) body params (restored_flags flags) key_expr false
  | U_arrow name body params is_async => U_arrow (interned name) body params (u8 is_async)
  | U_class name extends methods => U_class (owned name) extends (map set_class_node methods)
  | U_ident name => U_ident (interned name)
  | U_binary lhs rhs op => U_binary lhs rhs (restored_op op)
  | U_unary arg op prefix => U_unary arg (restored_op op) (u8 prefix)
  | U_call callee args is_optional => U_call callee args (u8 is_optional)
  | U_member obj prop is_optional => U_member obj prop (u8 is_optional)
  | U_property key val computed shorthand is_static =>
      U_property key val (u8 computed) (u8 shorthand) (u8 is_static)
  | U_template parts tag exprs => U_template (map owned parts) tag exprs
  | U_pattern elements is_object => U_pattern elements (u8 is_object)
  | U_yield arg is_delegate => U_yield arg (u8 is_delegate)
  | U_import_spec name local is_default => U_import_spec (owned name) local (u8 is_default)
  | U_export specifiers source is_default => U_export specifiers source (u8 is_default)
  | U_export_spec name exported => U_export_spec (owned name) exported
  | _ => u
  end.

Definition restored_fields (type : ASTNodeType) (u : Union ASTNode) : Union ASTNode :=
  match type with
  | AST_THIS | AST_SUPER | AST_DEBUGGER | AST_CATCH | AST_TEMPLATE_PART | AST_UNKNOWN _ => U_none
  | AST_CASE | AST_DEFAULT =>
      match u with
      | U_three cond body _ => U_three cond body Null      (* [else_body] is not written *)
      | _ => plain_fields u
      end
  | _ => plain_fields u
  end.

Definition union_map {A B} (f : A -> B) (u : Union A) : Union B :=
  match u with
  | U_none => U_none
  | U_list l => U_list (map f l)
  | U_child a => U_child (f a)
  | U_pair a b => U_pair (f a) (f b)
  | U_three a b c => U_three (f a) (f b) (f c)
  | U_for a b c d => U_for (f a) (f b) (f c) (f d)
  | U_for_in a b c => U_for_in (f a) (f b) (f c)
  | U_switch a l => U_switch (f a) (map f l)
  | U_try a b c v => U_try (f a) (f b) (f c) v
  | U_func name a l flags b in_class => U_func name (f a) (map f l) flags (f b) in_class
  | U_arrow name a l v => U_arrow name (f a) (map f l) v
  | U_class name a l => U_class name (f a) (map f l)
  | U_number v => U_number v
  | U_string s => U_string s
  | U_bool v => U_bool v
  | U_bigint v => U_bigint v
  | U_ident name => U_ident name
  | U_binary a b op => U_binary (f a) (f b) op
  | U_unary a op v => U_unary (f a) op v
  | U_call a l v => U_call (f a) (map f l) v
  | U_new a l => U_new (f a) (map f l)
  | U_member a b v => U_member (f a) (f b) v
  | U_property a b v w x => U_property (f a) (f b) v w x
  | U_template parts a l => U_template parts (f a) (map f l)
  | U_pattern l v => U_pattern (map f l) v
  | U_yield a v => U_yield (f a) v
  | U_import l a => U_import (map f l) (f a)
  | U_import_spec name a v => U_import_spec name (f a) v
  | U_export l a v => U_export (map f l) (f a) v
  | U_export_spec name a => U_export_spec name (f a)
  end.

(** The tree an image of [n] is read back as. *)
Fixpoint restored (n : ASTNode) : ASTNode :=
  match n with
  | Null => Null
  | MkNode type token u =>
      let lit := match type with
                 | AST_LITERAL => restored_literal (n_type token) u
                 | _ => (u16 (n_type token), restored_fields type (union_map restored u))
                 end in
      MkNode type (MkNodeToken lit.1 (u32 (n_line token)) (u32 (n_col token)) (u64 (n_num token)))
        lit.2
  end.

(** ** Trees an image can hold *)

Definition literal_live {A} (t : Z) (u : Union A) : bool :=
  match literal_tag t, u with
  | 0, U_bool _ | 1, U_string _ | 2, U_number _ | 3, _ | 4, _ | 5, U_bigint _ => true
  | _, _ => false
  end.

(** The live member of the union is the one the type reads. *)
Definition live {A} (type : ASTNodeType) (t : Z) (u : Union A) : bool :=
  match type, u with
  | AST_LITERAL, _ => literal_live t u
  | (AST_PROGRAM | AST_BLOCK | AST_VAR_DECL | AST_CLASS_BODY | AST_SEQUENCE | AST_ARRAY
     | AST_OBJECT), U_list _
  | (AST_EXPR_STMT | AST_BREAK | AST_CONTINUE | AST_RETURN | AST_THROW | AST_SPREAD
     | AST_SPREAD_ELEMENT | AST_REST | AST_AWAIT | AST_EXPORT_DEFAULT | AST_EXPORT_ALL
     | AST_IMPORT_NAMESPACE), U_child _
  | (AST_LABEL | AST_WITH | AST_VAR_DECLARATOR | AST_DEFAULT_VALUE), U_pair _ _
  | (AST_IF | AST_WHILE | AST_DO_WHILE | AST_CASE | AST_DEFAULT | AST_CONDITIONAL), U_three _ _ _
  | AST_FOR, U_for _ _ _ _
  | (AST_FOR_IN | AST_FOR_OF), U_for_in _ _ _
  | AST_SWITCH, U_switch _ _
  | AST_TRY, U_try _ _ _ _
  | (AST_FUNC_DECL | AST_FUNC_EXPR), U_func _ _ _ _ _ _
  | AST_ARROW, U_arrow _ _ _ _
  | AST_CLASS_DECL, U_class _ _ _
  | AST_IDENTIFIER, U_ident _
  | (AST_BINARY | AST_ASSIGN), U_binary _ _ _
  | AST_UNARY, U_unary _ _ _
  | (AST_CALL | AST_OPTIONAL_CALL), U_call _ _ _
  | AST_NEW, U_new _ _
  | (AST_MEMBER | AST_COMPUTED_MEMBER | AST_OPTIONAL_MEMBER), U_member _ _ _
  | AST_PROPERTY, U_property _ _ _ _ _
  | (AST_TEMPLATE | AST_TAGGED_TEMPLATE), U_template _ _ _
  | AST_PATTERN, U_pattern _ _
  | AST_YIELD, U_yield _ _
  | AST_IMPORT, U_import _ _
  | AST_EXPORT, U_export _ _ _
  | AST_EXPORT_NAMED, U_export_spec _ _
  | AST_IMPORT_SPECIFIER, U_import_spec _ _ _
  | (AST_DEBUGGER | AST_THIS | AST_SUPER | AST_CATCH | AST_TEMPLATE_PART | AST_UNKNOWN _), _ => true
  | _, _ => false
  end.

(** A string's length is written in 32 bits and its copy is one byte longer; a
    list's is read as an [int]. *)
Definition short_str (s : option (list Z)) : Prop :=
  match s with Some s => Z.of_nat (strlen s) < 2 ^ 32 - 1 | None => True end.
Definition short_list {A} (l : list A) : Prop := zlen l < 2 ^ 31.

Definition sizes_ok {A} (u : Union A) : Prop :=
  match u with
  | U_list l | U_switch _ l | U_call _ l _ | U_new _ l | U_pattern l _ | U_import l _
  | U_export l _ _ => short_list l
  | U_try _ _ _ s | U_string s | U_ident s | U_import_spec s _ _ | U_export_spec s _ => short_str s
  | U_func name _ l _ _ _ | U_arrow name _ l _ | U_class name _ l => short_str name /\ short_list l
  | U_template parts _ l => short_list parts /\ all short_str parts /\ short_list l
  | _ => True
  end.

(** A number that is no enumerator, and not the mark of a NULL child. *)
Definition type_ok (type : ASTNodeType) : Prop :=
  match type with AST_UNKNOWN code => 63 <= code < LR_AST_NULL_NODE | _ => True end.

Fixpoint image_ok (n : ASTNode) : Prop :=
  match n with
  | Null => True
  | MkNode type token u =>
      type_ok type /\ live type (n_type token) u = true /\ sizes_ok u /\ union_all image_ok u
  end.

(** ** Writer and reader agree *)

Section codes.
Context (realloc_ok malloc_ok : Z -> alloc_result) (Hm : forall n, malloc_ok n = true).

(** [limit] bounds the bytes for which the reader's fuel is known to do. *)
Definition codes {A} (limit : nat) (w : SerBuf -> outcome SerBuf) (r : D A) (a : A) : Prop :=
  exists bs, writes realloc_ok w bs /\ ((length bs < limit)%nat -> reads r bs a).

Context (limit : nat).

Lemma codes_ret {A} (a : A) : codes limit (fun b => Done b) (mret a) a.
Proof. exists []. split; [apply writes_nil|intros _; apply reads_ret]. Qed.

Lemma codes_bind {A B} w1 w2 (r : D A) (f : A -> D B) a b :
  codes limit w1 r a -> codes limit w2 (f a) b ->
  codes limit (and_then w1 w2) (r ≫= f) b.
Proof.
  intros (bs1 & W1 & R1) (bs2 & W2 & R2). exists (bs1 ++ bs2). rewrite length_app.
  split; [by apply writes_then|]. intros ?. eapply reads_bind; [apply R1; lia|apply R2; lia].
Qed.

(** The last field: the node is put together without reading. *)
Lemma codes_end {A B} w (r : D A) (f : A -> D B) a b :
  codes limit w r a -> reads (f a) [] b -> codes limit w (r ≫= f) b.
Proof.
  intros (bs & W & R) E. exists bs. split; [done|]. intros ?.
  rewrite <- (app_nil_r bs). eapply reads_bind; [by apply R|done].
Qed.

Lemma codes_last {A B} w (r : D A) (f : A -> D B) a b :
  codes limit w r a -> f a = mret b -> codes limit w (r ≫= f) b.
Proof. intros H E. eapply codes_end; [done|]. rewrite E. apply reads_ret. Qed.

(** A step that reads nothing. *)
Lemma codes_skip {A B} w (r : D A) (f : A -> D B) a b :
  reads r [] a -> codes limit w (f a) b -> codes limit w (r ≫= f) b.
Proof.
  intros Hr (bs & W & R). exists bs. split; [done|]. intros ?. eapply reads_after; eauto.
Qed.

Lemma codes_assoc {A} w1 w2 w3 (r : D A) a :
  codes limit (and_then (and_then w1 w2) w3) r a -> codes limit (and_then w1 (and_then w2 w3)) r a.
Proof.
  intros (bs & W & R). exists bs. split; [|done]. intros b Hb. specialize (W b Hb).
  unfold and_then in *. by destruct (w1 b).
Qed.

Lemma codes_bytes {A} bs (r : D A) a :
  reads r bs a -> codes limit (ser_bytes realloc_ok bs) r a.
Proof. intros H. exists bs. split; [apply writes_bytes|done]. Qed.

Lemma codes_u8 v : codes limit (ser_u8 realloc_ok v) read_u8 (u8 v).
Proof. apply codes_bytes, reads_u8. Qed.

Definition put_u16 (v : Z) : list Z := [u8 (Z.land v 255); u8 (Z.land (Z.shiftr v 8) 255)].

Lemma reads_u16 v : reads read_u16 (put_u16 v) (u16 v).
Proof.
  eapply fixed_reads; [apply fixed_u16|done|]. cbv beta. unfold get_u16.
  change (at_ _ 0) with (u8 (Z.land v 255)). change (at_ _ 1) with (u8 (Z.land (Z.shiftr v 8) 255)).
  pose proof (u8_range (Z.land v 255)). rewrite (lor_shiftl_add 8) by lia.
  change 255 with (Z.ones 8). rewrite !Z.land_ones, Z.shiftr_div_pow2 by lia. unfold u8, u16.
  rewrite !Z.mod_mod by lia. change (2 ^ 16) with (2 ^ 8 * 2 ^ 8).
  rewrite (Z.rem_mul_r v (2 ^ 8) (2 ^ 8)) by lia. apply Z.mod_small.
  pose proof (Z.mod_pos_bound v (2 ^ 8)). pose proof (Z.mod_pos_bound (v / 2 ^ 8) (2 ^ 8)). lia.
Qed.

Lemma codes_u16 v : codes limit (ser_u16 realloc_ok v) read_u16 (u16 v).
Proof. apply codes_bytes, reads_u16. Qed.

Lemma codes_u32 v : codes limit (ser_u32 realloc_ok v) read_u32 (u32 v).
Proof. apply codes_bytes, reads_u32. Qed.

Lemma codes_f64 v : codes limit (ser_f64 realloc_ok v) read_f64 (u64 v).
Proof.
  eexists. split; [apply writes_then; apply writes_bytes|]. intros _.
  rewrite <- u64_halves. apply reads_u64.
Qed.

Lemma i64_halves v :
  i64 (Z.lor (Z.shiftl (u32 (u32 (Z.shiftr (u64 v) 32))) 32) (u32 (u32 (Z.land v (2 ^ 32 - 1)))))
    = i64 v.
Proof.
  rewrite !(u32_small (u32 _)) by apply u32_range. rewrite Z.lor_comm.
  pose proof (u32_range (Z.land v (2 ^ 32 - 1))). rewrite (lor_shiftl_add 32) by lia.
  assert (u32 (Z.shiftr (u64 v) 32) = u32 (Z.shiftr v 32)) as ->.
  { rewrite !Z.shiftr_div_pow2 by lia. unfold u32, u64. change (2 ^ 64) with (2 ^ 32 * 2 ^ 32).
    rewrite Z.rem_mul_r, Z.mul_comm, Z.div_add by lia.
    rewrite Z.div_small, Z.add_0_l by (apply Z.mod_pos_bound; lia). by rewrite Z.mod_mod by lia. }
  rewrite u64_halves. unfold i64, to_signed, u64. by rewrite Z.mod_mod by lia.
Qed.

Lemma codes_i64 v : codes limit (ser_i64 realloc_ok v) read_i64 (i64 v).
Proof.
  eapply codes_bind; [apply codes_u32|]. eapply codes_last; [apply codes_u32|].
  by rewrite i64_halves.
Qed.

Definition chars (none s : option (list Z)) : option (list Z) :=
  match s with Some s => match cstr s with [] => none | c => Some c end | None => none end.

Lemma codes_chars none copy s :
  (forall n, 0 <= n < 2 ^ 32 - 1 -> fixed n (copy n) Some) -> short_str s ->
  codes limit (ser_str realloc_ok s) (deser_chars none copy) (chars none s).
Proof.
  intros Hc. destruct s as [s|]; cbn [ser_str short_str]; intros Hs.
  2: { eapply codes_end; [apply codes_u32|]. eapply reads_after; [apply reads_get_error|].
       apply reads_ret. }
  destruct (Z.gtb_spec (Z.of_nat (strlen s)) (2 ^ 32 - 1)); [lia|].
  eapply codes_bind; [apply codes_u32|]. rewrite u32_small by lia.
  eapply codes_skip; [apply reads_get_error|]. cbn [orb chars]. rewrite Nat2Z.id.
  fold (cstr s). pose proof (zlen_cstr s) as Ez.
  destruct (Z.eqb_spec (Z.of_nat (strlen s)) 0) as [E0|].
  - assert (cstr s = []) as -> by (apply nil_length_inv; unfold zlen in Ez; lia).
    apply codes_bytes, reads_ret.
  - apply codes_bytes. eapply fixed_reads; [apply Hc; lia|done|].
    destruct (cstr s); [by rewrite <- Ez in *|done].
Qed.

Lemma codes_str s : short_str s -> codes limit (ser_str realloc_ok s) deser_str (interned s).
Proof.
  intros H. assert (interned s = chars (Some []) s) as ->.
  { destruct s as [s|]; [|done]. unfold interned, chars. change (default [] (Some s)) with s. by destruct (cstr s). }
  apply codes_chars; [apply copy_interned|done].
Qed.

Lemma codes_str_raw s :
  short_str s -> codes limit (ser_str realloc_ok s) (deser_str_raw malloc_ok) (owned s).
Proof using Hm.
  intros H. assert (owned s = chars None s) as -> by (by destruct s).
  apply codes_chars; [by apply copy_raw_fixed|done].
Qed.

Lemma codes_op op : codes limit (ser_op realloc_ok op) deser_op (restored_op op).
Proof.
  unfold ser_op. set (n := Z.min 15 (Z.of_nat (strlen op))).
  assert (0 <= n <= 15) as Hn by lia.
  eapply codes_bind; [apply codes_u8|]. rewrite u8_small by lia. cbv zeta.
  replace (if n >? 15 then 15 else n) with n by (destruct (Z.gtb_spec n 15); lia).
  assert (take (Z.to_nat n) op = restored_op op) as Et.
  { unfold restored_op, cstr, n. rewrite take_take. f_equal. lia. }
  apply codes_bytes. eapply fixed_reads; [apply buf_copy_ahead; lia| |exact Et].
  unfold zlen. rewrite length_take. pose proof (strlen_le op). lia.
Qed.

Lemma codes_each {A B} (w : A -> SerBuf -> outcome SerBuf) (r : D B) (g : A -> B) l :
  all (fun x => codes limit (w x) r (g x)) l ->
  codes limit (ser_each w l) (deser_each r (length l)) (map g l).
Proof.
  induction l as [|x l IH]; cbn [all ser_each length deser_each map]; [intros; apply codes_ret|].
  intros [Hx Hl]. eapply codes_bind; [exact Hx|]. eapply codes_last; [by apply IH|done].
Qed.

Lemma codes_counted {A B} (w : A -> SerBuf -> outcome SerBuf) (r : D B) (g : A -> B) l :
  all (fun x => codes limit (w x) r (g x)) l -> short_list l ->
  codes limit (and_then (ser_u32 realloc_ok (zlen l)) (ser_each w l)) (deser_counted malloc_ok r)
    (map g l).
Proof using Hm.
  unfold short_list. intros Hl Hn. pose proof (zlen_nonneg l).
  eapply codes_bind; [apply codes_u32|]. rewrite u32_small, i32_small, Hm by lia.
  destruct (Z.ltb_spec 0 (zlen l)).
  - unfold zlen. rewrite Nat2Z.id. by apply codes_each.
  - destruct l; [|rewrite zlen_cons in *; pose proof (zlen_nonneg l); lia]. apply codes_ret.
Qed.

Lemma codes_node_list w (r : D ASTNode) g (l : list ASTNode) :
  all (fun x => codes limit (w x) r (g x)) l -> short_list l ->
  codes limit (ser_node_list realloc_ok w l) (deser_node_list malloc_ok r)
    (map g l).
Proof using Hm.
  unfold short_list. intros Hl Hn. pose proof (zlen_nonneg l).
  eapply codes_bind; [apply codes_u32|]. rewrite u32_small, i32_small, Hm by lia. cbn [negb].
  destruct (Z.eqb_spec (zlen l) 0).
  - destruct l; [|rewrite zlen_cons in *; pose proof (zlen_nonneg l); lia]. apply codes_ret.
  - unfold zlen in *. rewrite Nat2Z.id. eapply codes_last; [by apply codes_each|].
    rewrite firstn_all2; [done|]. by rewrite length_map.
Qed.

Lemma codes_literal t u :
  literal_live t u = true -> sizes_ok u ->
  codes limit (ser_literal realloc_ok t u) deser_literal (restored_literal t u).
Proof.
  unfold literal_live, ser_literal, restored_literal, literal_tag. intros Hl Hs.
  repeat case_if; destruct u; try done; (eapply codes_bind; [apply codes_u8|]);
    rewrite u8_small by lia; cbn [Z.eqb Pos.eqb].
  all: try apply codes_ret.
  - eapply codes_last; [apply codes_u32|]. by rewrite u32_small, i32_u32 by apply u32_range.
  - by eapply codes_last; [apply codes_str|].
  - by eapply codes_last; [apply codes_i64|].
  - by eapply codes_last; [apply codes_f64|].
Qed.

Create HintDb codes.
#[local] Hint Resolve codes_ret codes_u8 codes_op codes_str codes_str_raw codes_node_list
  codes_counted : codes.

(** A field, by its own lemma; the fields of a node, one after the other. *)
Ltac field := solve [assumption | eauto with codes].
Ltac fields :=
  repeat first [field | (eapply codes_last; [field|reflexivity]) | (eapply codes_bind; [field|])].

Lemma all_str (l : list (option (list Z))) :
  all short_str l ->
  all (fun s => codes limit (ser_str realloc_ok s) (deser_str_raw malloc_ok) (owned s)) l.
Proof using Hm. induction l as [|s l IH]; cbn; [done|]. intros [? ?]. auto using codes_str_raw. Qed.

Lemma codes_union (w : ASTNode -> SerBuf -> outcome SerBuf) rec g type t u :
  type <> AST_LITERAL -> live type t u = true -> sizes_ok u ->
  union_all (fun x => codes limit (w x) rec (g x)) u ->
  codes limit (ser_union realloc_ok w type t u) (deser_union malloc_ok rec type)
    (restored_fields type (union_map g u)).
Proof using Hm.
  intros Hn Hl Hs Hu.
  destruct type; try done; destruct u; try discriminate Hl;
    cbn [ser_union deser_union restored_fields plain_fields union_map union_all sizes_ok] in *;
    destruct_and?; try fields.
  all: apply codes_assoc; eapply codes_bind; [by apply codes_counted; [apply all_str|]|fields].
Qed.
End codes.

(** ** Whole images *)

Lemma type_num_range type : type_ok type -> 0 <= type_num type < LR_AST_NULL_NODE.
Proof. unfold LR_AST_NULL_NODE. destruct type; cbn; unfold LR_AST_NULL_NODE; lia. Qed.

Lemma node_type_num type : type_ok type -> node_type (type_num type) = type.
Proof.
  destruct type; try done. cbn. intros H. unfold node_type.
  rewrite lookup_ge_None_2; [done|]. change (length node_types) with 63%nat. lia.
Qed.

Lemma u16_u16 v : u16 (u16 v) = u16 v.
Proof. unfold u16. by rewrite Z.mod_mod by lia. Qed.

Lemma u32_u32 v : u32 (u32 v) = u32 v.
Proof. apply u32_small, u32_range. Qed.

Section node.
Context (realloc_ok malloc_ok : Z -> alloc_result) (Hm : forall n, malloc_ok n = true).

(** The node behind its type. *)
Lemma codes_body limit w rec g type token u :
  type_ok type -> live type (n_type token) u = true -> sizes_ok u ->
  union_all (fun x => codes realloc_ok limit (w x) rec (g x)) u ->
  codes realloc_ok limit
    (and_then (ser_u16 realloc_ok (u16 (n_type token)))
      (and_then (ser_u32 realloc_ok (u32 (n_line token)))
        (and_then (ser_u32 realloc_ok (u32 (n_col token)))
          (and_then (ser_f64 realloc_ok (n_num token))
            (ser_union realloc_ok w type (n_type token) u)))))
    (deser_body malloc_ok rec (type_num type))
    (let lit := match type with
                | AST_LITERAL => restored_literal (n_type token) u
                | _ => (u16 (n_type token), restored_fields type (union_map g u))
                end in
     MkNode type (MkNodeToken lit.1 (u32 (n_line token)) (u32 (n_col token)) (u64 (n_num token)))
       lit.2).
Proof using Hm.
  intros Ht Hl Hs Hu. unfold deser_body. rewrite node_type_num by done.
  eapply codes_bind; [apply codes_u16|]. eapply codes_bind; [apply codes_u32|].
  eapply codes_bind; [apply codes_u32|]. eapply codes_bind; [apply codes_f64|].
  rewrite u16_u16, !u32_u32.
  eapply codes_end; [|eapply reads_after; [apply reads_get_error|apply reads_ret]].
  assert (type = AST_LITERAL \/ type <> AST_LITERAL) as [->|Hn]
    by (destruct type; first [by left|by right]); [by apply codes_literal|].
  pose proof (codes_union realloc_ok malloc_ok Hm limit w rec g type (n_type token) u Hn Hl Hs Hu).
  destruct type; try done; by eapply codes_last.
Qed.

Lemma union_all_mono {A} (Q R : A -> Prop) u :
  (forall x, Q x -> R x) -> union_all Q u -> union_all R u.
Proof.
  intros H. assert (forall l, all Q l -> all R l) by (induction l; cbn; naive_solver).
  destruct u; cbn; naive_solver.
Qed.

Lemma union_all_and {A} (Q R : A -> Prop) u :
  union_all Q u -> union_all R u -> union_all (fun x => Q x /\ R x) u.
Proof.
  assert (forall l, all Q l -> all R l -> all (fun x => Q x /\ R x) l)
    by (induction l; cbn; naive_solver).
  destruct u; cbn; naive_solver.
Qed.

Lemma codes_node n : image_ok n ->
  forall limit, codes realloc_ok limit (ser_node realloc_ok n)
    (deser_node malloc_ok limit) (restored n).
Proof using Hm.
  induction n as [|type token u IH] using ASTNode_tree_ind; intros Hok limit.
  - exists (put_u16 LR_AST_NULL_NODE). split; [apply writes_bytes|]. intros Hlt.
    destruct limit as [|limit]; [lia|]. rewrite <- (app_nil_r (put_u16 _)).
    eapply reads_bind; [apply reads_u16|]. eapply reads_after; [apply reads_get_error|].
    apply reads_ret.
  - destruct Hok as (Ht & Hl & Hs & Hu). pose proof (type_num_range type Ht) as Hr.
    unfold LR_AST_NULL_NODE in Hr. assert (u16 (u16 (type_num type)) = type_num type) as E16
      by (rewrite u16_u16; apply Z.mod_small; lia).
    pose proof (codes_body (pred limit) (ser_node realloc_ok) (deser_node malloc_ok (pred limit))
      restored
      type token u Ht Hl Hs) as (bs & W & R).
    { eapply union_all_mono; [|exact (union_all_and _ _ _ IH Hu)]. naive_solver. }
    exists (put_u16 (u16 (type_num type)) ++ bs).
    split; [apply writes_then; [apply writes_bytes|done]|].
    rewrite length_app. change (length (put_u16 _)) with 2%nat. intros Hlt.
    destruct limit as [|limit]; [lia|]. cbn [pred] in *.
    eapply reads_bind; [apply reads_u16|]. rewrite E16.
    eapply reads_after; [apply reads_get_error|]. cbv iota.
    destruct (Z.eqb_spec (type_num type) LR_AST_NULL_NODE) as [E|]; [unfold LR_AST_NULL_NODE in E; lia|].
    apply R. lia.
Qed.
End node.

(** *** More fuel changes nothing *)

Definition le_D {A} (m m' : D A) : Prop := forall st r, m st = Done r -> m' st = Done r.

#[export] Instance le_D_refl {A} : Reflexive (@le_D A).
Proof. by intros m st r. Qed.

Lemma le_bind {A B} (m m' : D A) (f f' : A -> D B) :
  le_D m m' -> (forall a, le_D (f a) (f' a)) -> le_D (m ≫= f) (m' ≫= f').
Proof.
  intros Hm Hf st r. unfold mbind, D_bind. destruct (m st) as [[a st']| |] eqn:E; try done.
  rewrite (Hm _ _ E). apply Hf.
Qed.

Ltac grows :=
  repeat match goal with
  | |- le_D ?m ?m => reflexivity
  | |- le_D _ _ => assumption
  | |- le_D (_ <$> _) (_ <$> _) => apply le_bind; [|intros ?]
  | |- le_D (_ ≫= _) (_ ≫= _) => apply le_bind; [|intros ?]
  | |- le_D (if _ then _ else _) _ => case_if
  end.

Section more_fuel.
Context (malloc_ok : Z -> alloc_result).
Context {rec rec' : D ASTNode} (Hrec : le_D rec rec').

Lemma le_each n : le_D (deser_each rec n) (deser_each rec' n).
Proof using Hrec. induction n; cbn [deser_each]; grows. Qed.

Lemma le_node_list : le_D (deser_node_list malloc_ok rec) (deser_node_list malloc_ok rec').
Proof using Hrec. unfold deser_node_list. grows. apply le_each. Qed.

Lemma le_counted : le_D (deser_counted malloc_ok rec) (deser_counted malloc_ok rec').
Proof using Hrec. unfold deser_counted. grows. apply le_each. Qed.

Lemma le_union type : le_D (deser_union malloc_ok rec type) (deser_union malloc_ok rec' type).
Proof using Hrec.
  pose proof le_node_list. pose proof le_counted. destruct type; cbn [deser_union]; grows.
Qed.

Lemma le_body t : le_D (deser_body malloc_ok rec t) (deser_body malloc_ok rec' t).
Proof using Hrec.
  pose proof (le_union (node_type t)). unfold deser_body. grows.
  destruct (node_type t); grows.
Qed.
End more_fuel.

Lemma le_node malloc_ok fuel fuel' :
  (fuel <= fuel')%nat -> le_D (deser_node malloc_ok fuel) (deser_node malloc_ok fuel').
Proof.
  revert fuel'. induction fuel as [|fuel IH]; intros fuel' Hf; [by intros st r|].
  destruct fuel' as [|fuel']; [lia|]. cbn [deser_node]. grows. apply le_body, IH. lia.
Qed.

(** *** Archiving what an archive gave back *)

Lemma cstr_cstr s : cstr (cstr s) = cstr s.
Proof.
  unfold cstr. induction s as [|c s IH]; [done|]. cbn [strlen].
  destruct (c =? 0) eqn:E; [done|]. cbn [take strlen]. rewrite E. cbn [take]. by rewrite IH.
Qed.

Lemma owned_owned s : owned (owned s) = owned s.
Proof.
  destruct s as [s|]; [|done]. unfold owned. cbn [mbind option_bind].
  destruct (cstr s) eqn:E; [done|]. cbn [mbind option_bind]. rewrite <- E, cstr_cstr. by rewrite E.
Qed.

Lemma interned_interned s : interned (interned s) = interned s.
Proof. unfold interned. change (default [] (Some ?x)) with x. by rewrite cstr_cstr. Qed.

Lemma cstr_take n s : cstr (take n (cstr s)) = take n (cstr s).
Proof.
  revert n. unfold cstr. induction s as [|c s IH]; intros n; [by destruct n|]. cbn [strlen].
  destruct (c =? 0) eqn:E; [by destruct n|]. destruct n; [done|].
  cbn [take strlen]. rewrite E. cbn [take]. by rewrite IH.
Qed.

Lemma restored_op_op op : restored_op (restored_op op) = restored_op op.
Proof. unfold restored_op. by rewrite cstr_take, take_take. Qed.

Lemma u8_u8 v : u8 (u8 v) = u8 v.
Proof. apply u8_small, u8_range. Qed.

Lemma u64_u64 v : u64 (u64 v) = u64 v.
Proof. unfold u64. by rewrite Z.mod_mod by lia. Qed.

Lemma i32_i32 v : i32 (i32 v) = i32 v.
Proof. apply i32_small, i32_range. Qed.

Lemma i64_i64 v : i64 (i64 v) = i64 v.
Proof. unfold i64, to_signed. cbn. case_if; case_if; to_prop; divlia. Qed.

Lemma restored_flags_flags f : restored_flags (restored_flags f) = restored_flags f.
Proof. unfold restored_flags. cbn. by rewrite !u8_u8. Qed.

Lemma restored_set_class n : restored (set_class_node n) = restored n.
Proof. destruct n as [|type token u]; [done|]. by destruct type; try done; destruct u. Qed.

Lemma restored_literal_twice t u :
  restored_literal (restored_literal t u).1 (restored_literal t u).2 = restored_literal t u.
Proof.
  unfold restored_literal. destruct (literal_tag t =? 3) eqn:E3; [done|].
  destruct (literal_tag t =? 4) eqn:E4; [done|].
  destruct u; cbn [fst snd]; rewrite ?E3, ?E4; try done; cbn [literal_tag tok_num Z.eqb Pos.eqb];
    by rewrite ?i32_i32, ?interned_interned, ?u64_u64, ?i64_i64.
Qed.

Lemma map_restored (l : list ASTNode) :
  all (fun x => restored (restored x) = restored x) l ->
  map restored (map restored l) = map restored l.
Proof. induction l as [|x l IH]; cbn; [done|]. intros [-> ?]. f_equal. auto. Qed.

Lemma map_set_class (l : list ASTNode) :
  map set_class_node (map restored (map set_class_node l)) = map set_class_node (map restored l).
Proof. rewrite !map_map. apply map_ext. intros x. by rewrite restored_set_class. Qed.

Lemma map_owned (l : list (option (list Z))) : map owned (map owned l) = map owned l.
Proof. rewrite map_map. apply map_ext, owned_owned. Qed.

Create Rewrite HintDb restore.
#[local] Hint Rewrite owned_owned interned_interned restored_op_op u8_u8 restored_flags_flags
  map_set_class map_owned : restore.

Lemma plain_fields_twice u :
  union_all (fun x => restored (restored x) = restored x) u ->
  plain_fields (union_map restored (plain_fields (union_map restored u)))
    = plain_fields (union_map restored u).
Proof.
  intros H. destruct u; cbn [union_all] in H; destruct_and?; cbn [plain_fields union_map];
    rewrite ?map_restored by assumption; autorewrite with restore;
    rewrite ?map_restored by assumption; congruence.
Qed.

Lemma restored_fields_twice type u :
  union_all (fun x => restored (restored x) = restored x) u ->
  restored_fields type (union_map restored (restored_fields type (union_map restored u)))
    = restored_fields type (union_map restored u).
Proof.
  intros H. pose proof (plain_fields_twice u H) as Hp.
  destruct type; try exact Hp; try reflexivity; destruct u; try exact Hp;
    cbn [restored_fields union_map union_all] in *; destruct_and?; congruence.
Qed.

Lemma restored_twice n : restored (restored n) = restored n.
Proof.
  induction n as [|type token u IH] using ASTNode_tree_ind; [done|].
  pose proof (restored_fields_twice type u IH) as Hf.
  pose proof (restored_literal_twice (n_type token) u) as Hl.
  cbn [restored n_type n_line n_col n_num]. f_equal.
  - f_equal; [|apply u32_u32|apply u32_u32|apply u64_u64].
    destruct type; first [exact (f_equal fst Hl)|apply u16_u16].
  - destruct type; first [exact (f_equal snd Hl)|exact Hf].
Qed.

(** ** Properties *)

Lemma writes_node_header realloc_ok n bs :
  writes realloc_ok (ser_node realloc_ok n) bs ->
  writes realloc_ok
    (and_then (ser_u8 realloc_ok 76) (and_then (ser_u8 realloc_ok 82)
      (and_then (ser_u8 realloc_ok 65) (and_then (ser_u8 realloc_ok 3) (ser_node realloc_ok n)))))
    ([76; 82; 65; 3] ++ bs).
Proof.
  intros W. pose proof (fun v => writes_bytes realloc_ok [u8 v]) as W1.
  exact (writes_then realloc_ok _ _ _ _ (W1 76) (writes_then realloc_ok _ _ _ _ (W1 82)
    (writes_then realloc_ok _ _ _ _ (W1 65) (writes_then realloc_ok _ _ _ _ (W1 3) W)))).
Qed.

(** What [lr_ast_serialize] returns: the image, or NULL when an allocation
    failed. *)
Lemma serialize_image realloc_ok n bs :
  writes realloc_ok (ser_node realloc_ok n) bs ->
  lr_ast_serialize realloc_ok n = Done (Some ([76; 82; 65; 3] ++ bs)) \/
  lr_ast_serialize realloc_ok n = Done None /\ exists m, realloc_ok m = false.
Proof.
  intros W. destruct (writes_node_header _ _ _ W (MkSerBuf [] 0 false)) as (b & E & _ & H); [done|].
  unfold lr_ast_serialize. rewrite E. destruct (s_error b); [by right|]. left. by rewrite H.
Qed.

(** The serializer never overruns its buffer, whichever allocations succeed. *)
Lemma lr_ast_serialize_safe realloc_ok n :
  image_ok n -> exists r, lr_ast_serialize realloc_ok n = Done r.
Proof.
  intros Hok. destruct (codes_node realloc_ok (fun _ => true) ltac:(done) n Hok 0) as (bs & W & _).
  destruct (serialize_image _ _ _ W) as [E|[E _]]; eauto.
Qed.

Section image.
Context (realloc_ok malloc_ok : Z -> alloc_result).
Context (Hr : forall m, realloc_ok m = true) (Hm : forall m, malloc_ok m = true).

(** The image of a node, and the node read from it, whatever follows. *)
Lemma deserialize_node n : image_ok n -> n <> Null ->
  exists bs, lr_ast_serialize realloc_ok n = Done (Some ([76; 82; 65; 3] ++ bs)) /\ bs <> [] /\
    forall rest fuel, (length bs < fuel)%nat ->
      deser_node malloc_ok fuel (MkDeser (bs ++ rest) 0 false)
        = Done (restored n, MkDeser (bs ++ rest) (zlen bs) false).
Proof using Hr Hm.
  intros Hok Hn. destruct (codes_node realloc_ok malloc_ok Hm n Hok 0) as (bs & W & _). exists bs.
  destruct (serialize_image _ _ _ W) as [E|[_ [m Hf]]]; [|by rewrite Hr in Hf].
  assert (forall rest fuel, (length bs < fuel)%nat ->
    deser_node malloc_ok fuel (MkDeser (bs ++ rest) 0 false)
      = Done (restored n, MkDeser (bs ++ rest) (zlen bs) false)) as Hread.
  { intros rest fuel Hf. destruct (codes_node realloc_ok malloc_ok Hm n Hok fuel) as (bs' & W' & R').
    rewrite (writes_unique realloc_ok _ bs bs' Hr W W') in *. exact (R' Hf [] rest). }
  split_and!; [done| |done]. intros ->. specialize (Hread [] 1%nat ltac:(cbn; lia)). cbn in Hread.
  destruct n; [done|]. discriminate Hread.
Qed.

Lemma deserialize_header body :
  body <> [] -> lr_ast_deserialize malloc_ok ([76; 82; 65; 3] ++ body) =
    match deser_node malloc_ok (S (4 + length body)) (MkDeser body 0 false) with
    | Done (Null, _) => Done None
    | Done (root, st) => Done (if d_error st then None else Some root)
    | Crash => Crash
    | OutOfFuel => OutOfFuel
    end.
Proof using.
  intros Hb. unfold lr_ast_deserialize. rewrite bool_decide_true by done.
  destruct (Z.ltb_spec (zlen ([76; 82; 65; 3] ++ body)) 5) as [H|_]; [|done].
  destruct body as [|x body]; [done|]. rewrite zlen_app in H. change (zlen [76; 82; 65; 3]) with 4 in H.
  rewrite zlen_cons in H. pose proof (zlen_nonneg body). lia.
Qed.

(** C8: round trip of the archive's syntax trees.  A tree whose nodes are well
    formed, with strings of less than [2 ^ 32 - 1] bytes, is serialized, and
    whatever bytes follow the image, deserializing with enough memory gives it
    back, up to what [restored] says an image does not hold: an empty owned string
    comes back as NULL and a NULL interned one as empty, [else_body] of a [case]
    as NULL, integers cut to their width, [class_node] set on the methods of a
    class only.  A tree that has been through the archive once is given back
    unchanged from then on. *)
Theorem lr_ast_roundtrip (n : ASTNode) :
  image_ok n -> n <> Null ->
  exists img, lr_ast_serialize realloc_ok n = Done (Some img) /\
    (forall rest, lr_ast_deserialize malloc_ok (img ++ rest) = Done (Some (restored n))) /\
    restored (restored n) = restored n.
Proof using Hr Hm.
  intros Hok Hn. destruct (deserialize_node n Hok Hn) as (bs & E & Hb & Hread).
  exists ([76; 82; 65; 3] ++ bs). split_and!; [done| |apply restored_twice].
  intros rest. rewrite <- app_assoc, deserialize_header by (by destruct bs).
  rewrite Hread by (rewrite length_app; lia). by destruct n.
Qed.

(** C35: a truncated image of a syntax tree is always rejected: with enough
    memory [lr_ast_deserialize] returns NULL on every proper prefix of an image
    that is shorter than 4 GiB, so that a partially written archive entry is never
    executed. *)
Theorem lr_ast_truncated (n : ASTNode) (img : list Z) (k : nat) :
  image_ok n -> n <> Null -> lr_ast_serialize realloc_ok n = Done (Some img) ->
  (k < length img)%nat -> Z.of_nat k < 2 ^ 32 -> lr_ast_deserialize malloc_ok (take k img) = Done None.
Proof using Hr Hm.
  intros Hok Hn E Hk Hk32. destruct (deserialize_node n Hok Hn) as (bs & E' & _ & Hread).
  assert (img = [76; 82; 65; 3] ++ bs) as -> by congruence. clear E E'.
  destruct (decide (k <= 4)%nat) as [Hle|Hgt].
  { unfold lr_ast_deserialize. set (buf := take k _).
    assert (zlen buf < 5) by (unfold buf, zlen; rewrite length_take; lia).
    by destruct (Z.ltb_spec (zlen buf) 5); [|lia]. }
  replace k with (length [76; 82; 65; 3]%Z + (k - 4))%nat by (cbn; lia).
  rewrite take_app_add. set (body := take (k - 4) bs). rewrite length_app in Hk. cbn in Hk.
  assert (length body = k - 4)%nat as Hl by (unfold body; rewrite length_take; lia).
  rewrite deserialize_header by (intros H; rewrite H in Hl; cbn in Hl; lia).
  destruct (behaved_node malloc_ok (4 + length body) Hm (MkDeser body 0 false)) as (a & st & Ed & Ha & Hx).
  { unfold in_buf, d_len, zlen. cbn [d_buf d_pos]. lia. }
  { right. unfold d_len, zlen. cbn [d_buf d_pos]. lia. }
  rewrite Ed. destruct (d_error st) eqn:Ee; [by destruct a|]. exfalso.
  specialize (Hx eq_refl (drop (k - 4) bs ++ [])). unfold extend in Hx. cbn [d_buf d_pos d_error] in Hx.
  rewrite app_assoc in Hx. unfold body in Hx. rewrite take_drop in Hx.
  apply (le_node malloc_ok _ (S (4 + length (take (k - 4) bs)) + length bs)) in Hx; [|lia].
  rewrite Hread in Hx by lia. injection Hx as _ _ Hp _.
  destruct Ha as (Eb & Ha & _). unfold d_len in Ha. cbn [d_buf d_pos] in *.
  unfold zlen in *. lia.
Qed.
End image.

(** C36: the deserializer is safe on every byte string shorter than 4 GiB, as long
    as the memory it asks for is there: it returns, a tree or NULL, with calls
    nested no deeper than the image is long, never reads past the image, and never
    writes past a string it has allocated. *)
Theorem lr_ast_deserialize_total (malloc_ok : Z -> alloc_result) (buf : list Z) :
  (forall n, malloc_ok n = true) -> zlen buf < 2 ^ 32 ->
  exists r, lr_ast_deserialize malloc_ok buf = Done r.
Proof.
  intros Hm Hl. unfold lr_ast_deserialize. case_if; [by eexists|].
  destruct (behaved_node malloc_ok (length buf) Hm (MkDeser (drop 4 buf) 0 false))
    as (a & st & -> & _).
  - unfold in_buf, d_len, zlen in *. cbn [d_buf d_pos]. rewrite length_drop. lia.
  - right. unfold d_len, zlen. cbn [d_buf d_pos]. rewrite length_drop. lia.
  - destruct a; eauto.
Qed.

(** Both conditions are needed: the arrays of a template are written to whether or
    not they could be allocated, and a name of [2 ^ 32 - 1] bytes is copied to a
    block of 0 bytes. *)
Lemma deser_counted_no_memory {A} malloc_ok (f : D A) (n : Z) (rest : list Z) :
  0 < n < 2 ^ 31 -> malloc_ok (n * 8) = false ->
  deser_counted malloc_ok f (MkDeser (put_u32 n ++ rest) 0 false) = Crash.
Proof.
  intros Hn Hf. unfold deser_counted, mbind, D_bind.
  change (MkDeser (put_u32 n ++ rest) 0 false) with (MkDeser ([] ++ put_u32 n ++ rest) (zlen (@nil Z)) false).
  rewrite (reads_u32 n [] rest).
  rewrite u32_small, i32_small, Hf by lia. by destruct (Z.ltb_spec 0 n); [|lia].
Qed.

Lemma copy_raw_wraps malloc_ok st : malloc_ok 0 = true -> copy_raw malloc_ok (2 ^ 32 - 1) st = Crash.
Proof.
  intros Hf. unfold copy_raw. change (u32 (2 ^ 32 - 1 + 1)) with 0.
  cbv zeta. by rewrite Hf.
Qed.

(** ** A sample tree

    [class C { m() {} }  x += `a${-1}`], in the shape the parser gives it: the string
    behind the interpolation is empty, and the method knows its class. *)

Definition tok0 (type line col : Z) : NodeToken := MkNodeToken type line col 0.

Definition plain_func : FuncFlags := MkFuncFlags 0 0 0 0 0.

Definition sample_tree (tail : option (list Z)) : ASTNode :=
  MkNode AST_PROGRAM (tok0 0 1 1) (U_list [
    MkNode AST_CLASS_DECL (tok0 0 1 1) (U_class (Some [67]) Null [
      MkNode AST_FUNC_EXPR (tok0 0 1 11)
        (U_func (Some [109]) (MkNode AST_BLOCK (tok0 13 1 15) (U_list [])) [] plain_func Null true)]);
    MkNode AST_EXPR_STMT (tok0 0 2 1) (U_child
      (MkNode AST_ASSIGN (tok0 22 2 3) (U_binary
        (MkNode AST_IDENTIFIER (tok0 4 2 1) (U_ident (Some [120])))
        (MkNode AST_TEMPLATE (tok0 68 2 6) (U_template [Some [97]; tail] Null [
          MkNode AST_UNARY (tok0 46 2 10) (U_unary
            (MkNode AST_LITERAL (MkNodeToken (tok_num TOK_NUMBER) 2 11 4607182418800017408)
              (U_number 4607182418800017408)) [45] 1)]))
        [43; 61])))]).

Lemma sample_tree_ok : image_ok (sample_tree (Some [])).
Proof. cbn. unfold short_list, zlen. cbn. repeat split; lia. Qed.

Lemma lr_ast_roundtrip_witness :
  image_ok (sample_tree (Some [])) /\
  restored (sample_tree (Some [])) = sample_tree None /\
  exists img, lr_ast_serialize (fun _ => true) (sample_tree (Some [])) = Done (Some img) /\
    (forall rest,
       lr_ast_deserialize (fun _ => true) (img ++ rest)
         = Done (Some (restored (sample_tree (Some []))))) /\
    restored (restored (sample_tree (Some []))) = restored (sample_tree (Some [])).
Proof.
  split; [exact sample_tree_ok|]. split; [by vm_compute|].
  apply (lr_ast_roundtrip (fun _ => true) (fun _ => true)); [done|done|exact sample_tree_ok|done].
Defined.

Lemma lr_ast_truncated_witness :
  exists img, lr_ast_serialize (fun _ => true) (sample_tree None) = Done (Some img) /\
    (200 < length img)%nat /\ lr_ast_deserialize (fun _ => true) (take 200 img) = Done None.
Proof.
  eexists. split; [by vm_compute|]. split; [by vm_compute; repeat constructor|].
  apply (lr_ast_truncated (fun _ => true) (fun _ => true) (fun _ => eq_refl) (fun _ => eq_refl)
    (sample_tree None)).
  - cbn. unfold short_list, zlen. cbn. repeat split; lia.
  - done.
  - by vm_compute.
  - by vm_compute; repeat constructor.
  - done.
Defined.

Lemma lr_ast_deserialize_total_witness :
  zlen [76; 82; 65; 3; 33; 0; 7] < 2 ^ 32 /\
  exists r, lr_ast_deserialize (fun _ => true) [76; 82; 65; 3; 33; 0; 7] = Done r.
Proof. split; [done|]. by apply (lr_ast_deserialize_total (fun _ => true)). Defined.
