(* ===== verification/ParseExpr.v ===== *)
(** The expression parser of [src/src/engine/lr_parser.c]: precedence climbing,
    primary and postfix expressions, arrays, objects and templates.

    Every function is defined from the [grammar] that holds the ones it calls
    back; a loop's turn is the [body] of [ploop]. *)

From stdpp Require Import base list strings.
From Stdlib Require Import ZArith Lia SpecFloat Ascii.
From S2P Require Import Prelude.
From S2P Require Import BcProgram.
From S2P Require Import LexText.
From S2P Require Import Lexer.
From S2P Require Import F64.
From S2P Require Import NumText.
From S2P Require Import Ast.

(** ** Operators *)

Definition is_assign_op (type : LRTokType) : bool :=
  match type with
  | TOK_ASSIGN | TOK_PLUS_ASSIGN | TOK_MINUS_ASSIGN | TOK_MUL_ASSIGN | TOK_DIV_ASSIGN
  | TOK_MOD_ASSIGN | TOK_POW_ASSIGN | TOK_AND_ASSIGN | TOK_OR_ASSIGN | TOK_XOR_ASSIGN
  | TOK_SHIFT_LEFT_ASSIGN | TOK_SHIFT_RIGHT_ASSIGN | TOK_USHIFT_RIGHT_ASSIGN
  | TOK_AND_AND_ASSIGN | TOK_OR_OR_ASSIGN | TOK_NULLISH_ASSIGN => true
  | _ => false
  end.

Definition get_op_str (type : LRTokType) : string :=
  match type with
  | TOK_PLUS => "+" | TOK_MINUS => "-" | TOK_MUL => "*" | TOK_DIV => "/" | TOK_MOD => "%"
  | TOK_POW => "**" | TOK_EQ => "==" | TOK_NEQ => "!=" | TOK_STRICT_EQ => "==="
  | TOK_STRICT_NEQ => "!==" | TOK_LT => "<" | TOK_GT => ">" | TOK_LE => "<=" | TOK_GE => ">="
  | TOK_BIT_AND => "&" | TOK_BIT_OR => "|" | TOK_BIT_XOR => "^" | TOK_AND_AND => "&&"
  | TOK_OR_OR => "||" | TOK_NULLISH => "??" | TOK_SHIFT_LEFT => "<<" | TOK_SHIFT_RIGHT => ">>"
  | TOK_USHIFT_RIGHT => ">>>" | TOK_IN => "in" | TOK_INSTANCEOF => "instanceof"
  | TOK_ASSIGN => "=" | TOK_PLUS_ASSIGN => "+=" | TOK_MINUS_ASSIGN => "-="
  | TOK_MUL_ASSIGN => "*=" | TOK_DIV_ASSIGN => "/=" | TOK_MOD_ASSIGN => "%="
  | TOK_POW_ASSIGN => "**=" | TOK_AND_ASSIGN => "&=" | TOK_OR_ASSIGN => "|="
  | TOK_XOR_ASSIGN => "^=" | TOK_SHIFT_LEFT_ASSIGN => "<<=" | TOK_SHIFT_RIGHT_ASSIGN => ">>="
  | TOK_USHIFT_RIGHT_ASSIGN => ">>>=" | TOK_AND_AND_ASSIGN => "&&=" | TOK_OR_OR_ASSIGN => "||="
  | TOK_NULLISH_ASSIGN => "??="
  | _ => ""
  end%string.

(** Higher binds tighter; -1 for a token that is no operator. *)
Definition get_precedence (type : LRTokType) : Z :=
  match type with
  | TOK_COMMA => 0
  | TOK_ASSIGN | TOK_PLUS_ASSIGN | TOK_MINUS_ASSIGN | TOK_MUL_ASSIGN | TOK_DIV_ASSIGN
  | TOK_MOD_ASSIGN | TOK_POW_ASSIGN | TOK_AND_ASSIGN | TOK_OR_ASSIGN | TOK_XOR_ASSIGN
  | TOK_SHIFT_LEFT_ASSIGN | TOK_SHIFT_RIGHT_ASSIGN | TOK_USHIFT_RIGHT_ASSIGN
  | TOK_AND_AND_ASSIGN | TOK_OR_OR_ASSIGN | TOK_NULLISH_ASSIGN => 1
  | TOK_NULLISH => 2
  | TOK_QUESTION => 2
  | TOK_OR_OR => 3
  | TOK_AND_AND => 4
  | TOK_BIT_OR => 5
  | TOK_BIT_XOR => 6
  | TOK_BIT_AND => 7
  | TOK_EQ | TOK_NEQ | TOK_STRICT_EQ | TOK_STRICT_NEQ => 8
  | TOK_LT | TOK_GT | TOK_LE | TOK_GE | TOK_IN | TOK_INSTANCEOF => 9
  | TOK_SHIFT_LEFT | TOK_SHIFT_RIGHT | TOK_USHIFT_RIGHT => 10
  | TOK_PLUS | TOK_MINUS => 11
  | TOK_MUL | TOK_DIV | TOK_MOD => 12
  | TOK_POW => 13
  | _ => -1
  end.

(** The tokens of [is_expr_start]. *)
Definition expr_start_tok (type : LRTokType) : bool :=
  match type with
  | TOK_NUMBER | TOK_BIGINT_LIT | TOK_STRING | TOK_IDENTIFIER
  | TOK_BOOL_LIT | TOK_NULL_LIT | TOK_UNDEFINED_LIT
  | TOK_THIS | TOK_SUPER
  | TOK_LPAREN | TOK_LBRACKET | TOK_LBRACE
  | TOK_FUNCTION | TOK_CLASS
  | TOK_NEW | TOK_TYPEOF | TOK_DELETE | TOK_VOID
  | TOK_PLUS | TOK_MINUS | TOK_NOT | TOK_BIT_NOT
  | TOK_INC | TOK_DEC
  | TOK_AWAIT | TOK_YIELD
  | TOK_ASYNC
  | TOK_TEMPLATE | TOK_TEMPLATE_END
  | TOK_ELLIPSIS
  | TOK_IMPORT
  | TOK_REGEXP
  | TOK_PRIVATE_NAME
  | TOK_GET | TOK_SET | TOK_STATIC | TOK_OF
  | TOK_FROM | TOK_AS => true
  | _ => false
  end.

Definition is_expr_start : P bool := t ← lpeek; mret (expr_start_tok (t_type t)).

(** ** Literals *)

(** Zero and one are shared nodes. *)
Definition ast_literal_number (num : f64) : Node :=
  AST_LITERAL (LNumber (match num with S754_zero _ => S754_zero false | _ => num end)).

(** [(int)t.num_val] of a boolean token, which is 0 or 1. *)
Definition bool_of_num (num : f64) : bool :=
  match num with S754_zero _ => false | _ => true end.

(** The position of the last [/] at most at [n]; 0 when there is none after the
    first character. *)
Fixpoint last_slash (s : list Z) (n : nat) : nat :=
  match n with
  | O => O
  | S n' => if at_ s (Z.of_nat n) =? ch "/" then n else last_slash s n'
  end.

(** The pattern and the flags of [/pattern/flags]. *)
Definition regexp_parts (s : list Z) : option (list Z * list Z) :=
  if (2 <=? zlen s) && (at_ s 0 =? ch "/") then
    let close := last_slash s (Nat.pred (length s)) in
    match close with
    | O => None
    | S _ => Some (slice 1 (Z.of_nat close - 1) s, drop (S close) s)
    end
  else None.

(** [snprintf(numbuf, sizeof(numbuf), "%.17g", num)] *)
Definition num_name (num : f64) : list Z :=
  match num with
  | S754_infinity _ => chars_of "inf"
  | S754_nan => chars_of "nan"
  | _ => print_g17 num
  end.

(** The parameters of an arrow function written in parentheses. *)
Definition arrow_params (expr : Node) : list Node :=
  match expr with AST_SEQUENCE es => es | _ => [expr] end.

Definition set_func_name (name : list Z) (func : Node) : Node :=
  match func with
  | AST_FUNC_EXPR _ params body flags key => AST_FUNC_EXPR (Some name) params body flags key
  | _ => func
  end.

Definition no_flags : func_flags := MkFlags false false false false false.

Section Expressions.

Context (self : grammar).

Abbreviation while body st := (ploop body (g_fuel self) st).
Abbreviation until stop body st := (while (guarded stop body) st).

Definition parse_assignment_expr : P Node := g_expr self 1.

(** ** Sequences and arguments *)

Definition sequence_turn (exprs : list Node) : P (list Node + list Node) :=
  m ← match_token TOK_COMMA;
  if (m : bool) then next ← parse_assignment_expr; mret (inr (exprs ++ [next]))
  else mret (inl exprs).

Definition parse_expression : P Node :=
  left ← parse_assignment_expr;
  e ← getp has_error;
  if (e : bool) then mret left
  else
    c ← peek_token TOK_COMMA;
    if (c : bool) then exprs ← while sequence_turn [left]; mret (AST_SEQUENCE exprs)
    else mret left.

Definition args_turn (args : list Node) : P (list Node + list Node) :=
  arg ← parse_assignment_expr;
  let args := args ++ [arg] in
  m ← match_token TOK_COMMA;
  if negb m then mret (inl args)
  else
    r ← peek_token TOK_RPAREN;
    mret (if (r : bool) then inl args else inr args).

(** The arguments of a call, after its parenthesis. *)
Definition parse_args : P (list Node) :=
  r ← peek_token TOK_RPAREN;
  args ← (if (r : bool) then mret [] else while args_turn []);
  expect_token TOK_RPAREN;;
  mret args.

Definition parse_arrow_body : P Node :=
  b ← peek_token TOK_LBRACE;
  if (b : bool) then g_block self else parse_assignment_expr.

(** ** Templates *)

Definition template_turn (st : list (option (list Z)) * list Node)
    : P ((list (option (list Z)) * list Node) + (list (option (list Z)) * list Node)) :=
  let '(parts, exprs) := st in
  expr ← parse_expression;
  if is_null expr then
    parser_error "expected template interpolation expression";; mret (inl (parts, exprs))
  else
    let exprs := exprs ++ [expr] in
    m ← match_token TOK_RBRACE;
    if negb m then
      parser_error "expected '}' after template expression";; mret (inl (parts, exprs))
    else
      next ← template_next;
      match t_type next with
      | TOK_TEMPLATE => mret (inr (parts ++ [t_str_val next], exprs))
      | TOK_TEMPLATE_END => mret (inl (parts ++ [t_str_val next], exprs))
      | TOK_EOF => parser_error "unterminated template literal";; mret (inl (parts, exprs))
      | _ => parser_error "expected template literal continuation";; mret (inl (parts, exprs))
      end.

Definition parse_template_body (first : Token) : P (list (option (list Z)) * list Node) :=
  let parts := [t_str_val first] in
  if tok_eqb (t_type first) TOK_TEMPLATE then until [] template_turn (parts, [])
  else mret (parts, []).

Definition parse_template_literal (tag : Node) : P Node :=
  t ← next_token;
  match t_type t with
  | TOK_TEMPLATE | TOK_TEMPLATE_END =>
      '(parts, exprs) ← parse_template_body t;
      mret (AST_TAGGED_TEMPLATE tag parts exprs)
  | _ => parser_error_token t "expected template literal";; mret tag
  end.

(** ** Postfix expressions *)

(** One turn on the expression so far. *)
Definition postfix_turn (left : Node) : P (Node + Node) :=
  t ← lpeek;
  match t_type t with
  | TOK_DOT =>
      skip;;
      prop ← next_token;
      if negb (is_prop_name_token (t_type prop)) then
        parser_error_token prop "expected property name after '.'";; mret (inl left)
      else name ← token_ident prop; mret (inr (AST_MEMBER left name))
  | TOK_QUESTION_DOT =>
      skip;;
      prop ← next_token;
      match t_type prop with
      | TOK_LPAREN => args ← parse_args; mret (inr (AST_OPTIONAL_CALL left args))
      | TOK_TEMPLATE | TOK_TEMPLATE_END => n ← parse_template_literal left; mret (inr n)
      | _ => name ← token_ident prop; mret (inr (AST_OPTIONAL_MEMBER left name))
      end
  | TOK_LBRACKET =>
      skip;;
      prop ← parse_expression;
      expect_token TOK_RBRACKET;;
      mret (inr (AST_COMPUTED_MEMBER left prop))
  | TOK_LPAREN => skip;; args ← parse_args; mret (inr (AST_CALL left args))
  | TOK_INC => skip;; mret (inr (AST_UNARY "++" false left))
  | TOK_DEC => skip;; mret (inr (AST_UNARY "--" false left))
  | TOK_TEMPLATE | TOK_TEMPLATE_END => n ← parse_template_literal left; mret (inr n)
  | _ => mret (inl left)
  end.

Definition parse_postfix_expr (left : Node) : P Node := until [] postfix_turn left.

Definition parse_unary_expr : P Node := left ← g_primary self; parse_postfix_expr left.

(** ** Binary operators *)

Definition next_min (type : LRTokType) (prec : Z) : Z :=
  if tok_eqb type TOK_POW || is_assign_op type then prec else prec + 1.

Definition expr_turn (min_prec : Z) (left : Node) : P (Node + Node) :=
  t ← lpeek;
  let type := t_type t in
  if tok_eqb type TOK_ARROW then
    match left with
    | AST_IDENTIFIER _ =>
        skip;; body ← parse_arrow_body; mret (inl (AST_ARROW [left] body false))
    | AST_NULL => crash
    | _ => mret (inl left)
    end
  else
    let prec := get_precedence type in
    if prec <? min_prec then mret (inl left)
    else if tok_eqb type TOK_QUESTION then
      skip;;
      consequent ← parse_assignment_expr;
      expect_token TOK_COLON;;
      alternate ← parse_assignment_expr;
      mret (inr (AST_CONDITIONAL left consequent alternate))
    else
      skip;;
      right ← g_expr self (next_min type prec);
      mret (inr (if is_assign_op type then AST_ASSIGN (get_op_str type) left right
                 else AST_BINARY (get_op_str type) left right)).

Definition parse_expr (min_prec : Z) : P Node :=
  e ← getp has_error;
  if (e : bool) then mret AST_NULL
  else
    left ← parse_unary_expr;
    left ← parse_postfix_expr left;
    until [] (expr_turn min_prec) left.

(** ** Arrays *)

Definition array_turn (elements : list Node) : P (list Node + list Node) :=
  hole ← peek_token TOK_COMMA;
  if (hole : bool) then skip;; mret (inr (elements ++ [AST_NULL]))
  else
    spread ← peek_token TOK_ELLIPSIS;
    elem ← (if (spread : bool) then
              skip;; expr ← parse_assignment_expr; mret (AST_SPREAD_ELEMENT expr)
            else parse_assignment_expr);
    m ← match_token TOK_COMMA;
    mret ((if (m : bool) then inr else inl) (elements ++ [elem])).

Definition parse_array_literal : P Node :=
  elements ← until [TOK_RBRACKET] array_turn [];
  expect_token TOK_RBRACKET;;
  mret (AST_ARRAY elements).

(** ** Parameters of functions *)

(** [= value], around what it is the default of. *)
Definition with_default (target : Node) : P Node :=
  m ← match_token TOK_ASSIGN;
  if (m : bool) then default_val ← parse_assignment_expr; mret (AST_DEFAULT_VALUE target default_val)
  else mret target.

Definition params_turn (params : list Node) : P (list Node + list Node) :=
  rest ← peek_token TOK_ELLIPSIS;
  param ←
    (if (rest : bool) then
       skip;;
       name_tok ← next_token;
       (if tok_eqb (t_type name_tok) TOK_IDENTIFIER then mret tt
        else parser_error_token name_tok "expected parameter name after '...'");;
       name ← token_ident name_tok;
       mret (AST_REST name)
     else
       destructured ← peek_any [TOK_LBRACKET; TOK_LBRACE];
       if (destructured : bool) then param ← g_pattern self; with_default param
       else
         name_tok ← next_token;
         (if is_name_tok (t_type name_tok) then mret tt
          else parser_error_token name_tok "expected parameter name");;
         param ← token_ident name_tok;
         with_default param);
  let params := params ++ [param] in
  m ← match_token TOK_COMMA;
  if negb m then mret (inl params)
  else
    r ← peek_token TOK_RPAREN;
    mret (if (r : bool) then inl params else inr params).

Definition parse_params : P (list Node) :=
  expect_token TOK_LPAREN;;
  r ← peek_token TOK_RPAREN;
  if (r : bool) then skip;; mret []
  else
    params ← until [] params_turn [];
    expect_token TOK_RPAREN;;
    mret params.

(** ** Objects *)

(** The [if]s that append a property and look for the comma. *)
Definition end_property (props : list Node) (prop : Node) : P (list Node + list Node) :=
  let props := if is_null prop then props else props ++ [prop] in
  m ← match_token TOK_COMMA;
  mret ((if (m : bool) then inr else inl) props).

(** [*name() {}] *)
Definition generator_property (props : list Node) : P (list Node + list Node) :=
  skip;;
  computed ← match_token TOK_LBRACKET;
  key ←
    (if (computed : bool) then
       key ← parse_expression; expect_token TOK_RBRACKET;; mret (Some (key, None))
     else
       kt ← next_token;
       if tok_eqb (t_type kt) TOK_STRING then
         mret (Some (ast_literal_string (default [] (t_str_val kt)), None))
       else if tok_eqb (t_type kt) TOK_NUMBER then
         mret (Some (ast_literal_number (t_num_val kt), None))
       else if is_name_tok (t_type kt) || tok_eqb (t_type kt) TOK_ASYNC then
         name ← token_text kt; mret (Some (ast_identifier (default [] name), name))
       else parser_error_token kt "expected generator method name";; mret None);
  match key with
  | None => mret (inl props)
  | Some (key, name) =>
      func ← g_function self false true false;
      let func := match name with Some name => set_func_name name func | None => func end in
      end_property props (AST_PROPERTY key func computed false false)
  end.

(** What follows [get] or [set] when it is an ordinary name. *)
Definition accessor_stop : list LRTokType :=
  [TOK_COLON; TOK_LPAREN; TOK_COMMA; TOK_RBRACE; TOK_ASSIGN].

(** [get] or [set] before a property name; with which of the two it is. *)
Definition is_accessor : P (option bool) :=
  found ← peek_any [TOK_GET; TOK_SET];
  if (found : bool) then
    is_get ← peek_token TOK_GET;
    plain ← looking (skip;; peek_any accessor_stop);
    mret (if (plain : bool) then None else Some is_get)
  else mret None.

Definition accessor_property (is_get : bool) (props : list Node) : P (list Node + list Node) :=
  skip;;
  lit ← peek_any [TOK_STRING; TOK_NUMBER];
  name ←
    (if (lit : bool) then
       kt ← next_token;
       mret (Some (if tok_eqb (t_type kt) TOK_STRING then t_str_val kt
                   else Some (num_name (t_num_val kt))))
     else
       kt ← next_token;
       name ← token_text kt;
       match name with
       | Some name => mret (Some (Some name))
       | None => parser_error_token kt "expected accessor property name";; mret None
       end);
  match name with
  | None => mret (inl props)
  | Some pname =>
      params ← parse_params;
      body ← g_block self;
      let func := AST_FUNC_EXPR pname params body
                    (MkFlags false false false is_get (negb is_get)) AST_NULL in
      end_property props (AST_PROPERTY (ast_identifier (default [] pname)) func false false false)
  end.

(** [: value] *)
Definition colon_value : P Node := expect_token TOK_COLON;; parse_assignment_expr.

Definition computed_property : P Node :=
  key ← parse_expression;
  expect_token TOK_RBRACKET;;
  method ← peek_any [TOK_LPAREN; TOK_TEMPLATE];
  val ← (if (method : bool) then g_function self false false false else colon_value);
  mret (AST_PROPERTY key val true false false).

Definition literal_property : P Node :=
  key_tok ← next_token;
  let key := if tok_eqb (t_type key_tok) TOK_STRING
             then ast_literal_string (default [] (t_str_val key_tok))
             else ast_literal_number (t_num_val key_tok) in
  val ← colon_value;
  mret (AST_PROPERTY key val false false false).

(** The property named by [id_tok]; NULL when nothing known follows. *)
Definition named_property (id_tok : Token) : P Node :=
  name ← token_text id_tok;
  let key := ast_identifier (default [] name) in
  colon ← peek_token TOK_COLON;
  if (colon : bool) then
    skip;; val ← parse_assignment_expr; mret (AST_PROPERTY key val false false false)
  else
    method ← peek_any [TOK_LPAREN; TOK_TEMPLATE];
    if (method : bool) then
      match name with
      | Some name =>
          func ← g_function self false false false;
          mret (AST_PROPERTY key (set_func_name name func) false false false)
      | None => mret AST_NULL
      end
    else
      shorthand ← peek_any [TOK_COMMA; TOK_RBRACE; TOK_ASSIGN];
      if (shorthand : bool) then
        val ← with_default key; mret (AST_PROPERTY key val false true false)
      else mret AST_NULL.

Definition object_turn (props : list Node) : P (list Node + list Node) :=
  gen ← peek_token TOK_MUL;
  if (gen : bool) then generator_property props
  else
    spread ← peek_token TOK_ELLIPSIS;
    if (spread : bool) then
      skip;; expr ← parse_assignment_expr; end_property props (AST_SPREAD expr)
    else
      accessor ← is_accessor;
      match accessor with
      | Some is_get => accessor_property is_get props
      | None =>
          computed ← match_token TOK_LBRACKET;
          if (computed : bool) then prop ← computed_property; end_property props prop
          else
            lit ← peek_any [TOK_STRING; TOK_NUMBER];
            if (lit : bool) then prop ← literal_property; end_property props prop
            else
              id_tok ← next_token;
              if negb (is_name_tok (t_type id_tok) || tok_eqb (t_type id_tok) TOK_ASYNC) then
                parser_error_token id_tok "expected property name";; mret (inl props)
              else prop ← named_property id_tok; end_property props prop
      end.

Definition parse_object_literal : P Node :=
  props ← until [TOK_RBRACE] object_turn [];
  expect_token TOK_RBRACE;;
  mret (AST_OBJECT props).

(** ** Primary expressions *)

Definition parse_paren : P Node :=
  empty ← peek_token TOK_RPAREN;
  if (empty : bool) then
    match_token TOK_RPAREN;;
    arrow ← peek_token TOK_ARROW;
    if (arrow : bool) then
      skip;; body ← parse_arrow_body; mret (AST_ARROW [] body false)
    else parser_error "unexpected token ')' in expression";; mret AST_NULL
  else
    expr ← parse_expression;
    m ← match_token TOK_RPAREN;
    if negb m then parser_error "expected ')' after expression";; mret AST_NULL
    else
      arrow ← peek_token TOK_ARROW;
      if (arrow : bool) then
        skip;;
        body ← parse_arrow_body;
        if is_null expr then crash else mret (AST_ARROW (arrow_params expr) body false)
      else mret expr.

(** A turn of the member accesses after [new]; [inl (Some n)]: [return n]. *)
Definition callee_turn (callee : Node) : P ((bool * Node) + Node) :=
  e ← getp has_error;
  if (e : bool) then mret (inl (false, callee))
  else
    t ← lpeek;
    match t_type t with
    | TOK_DOT =>
        skip;;
        prop ← next_token;
        if negb (is_prop_name_token (t_type prop)) then
          parser_error_token prop "expected property name after '.'";; mret (inl (true, callee))
        else name ← token_ident prop; mret (inr (AST_MEMBER callee name))
    | TOK_LBRACKET =>
        skip;;
        prop ← parse_assignment_expr;
        expect_token TOK_RBRACKET;;
        mret (inr (AST_COMPUTED_MEMBER callee prop))
    | _ => mret (inl (false, callee))
    end.

Definition parse_new : P Node :=
  callee ← g_primary self;
  '(returned, callee) ← while callee_turn callee;
  if (returned : bool) then mret callee
  else
    call ← peek_token TOK_LPAREN;
    args ← (if (call : bool) then skip;; parse_args else mret []);
    mret (AST_NEW callee args).

Definition prefix_op (op : string) : P Node :=
  arg ← parse_unary_expr; mret (AST_UNARY op true arg).

Definition parse_yield : P Node :=
  star ← peek_token TOK_MUL;
  (if (star : bool) then skip else mret tt);;
  start ← is_expr_start;
  arg ← (if (start : bool) then parse_assignment_expr else mret AST_NULL);
  mret (AST_YIELD arg star).

Definition set_arrow_async (n : Node) : option Node :=
  match n with AST_ARROW params body _ => Some (AST_ARROW params body true) | _ => None end.

(** [async x => body], or nothing. *)
Definition async_name : P (option Node) :=
  nt ← lpeek;
  name_tok ← next_token;
  arrow ← peek_token TOK_ARROW;
  if (arrow : bool) then
    skip;;
    param ← token_ident name_tok;
    body ← parse_arrow_body;
    mret (Some (AST_ARROW [param] body true))
  else setp (fun p => with_lexer (rewind (start_of nt) (lexer p)) p);; mret None.

(** [async (params) => body], or nothing: then any error is forgotten. *)
Definition async_paren : P (option Node) :=
  nt ← lpeek;
  sub ← g_primary self;
  e ← getp has_error;
  match set_arrow_async sub with
  | Some arrow => if negb e then mret (Some arrow)
                  else setp (fun p => with_lexer (rewind (start_of nt) (lexer p)) (clear_error p));;
                       mret None
  | None => setp (fun p => with_lexer (rewind (start_of nt) (lexer p)) (clear_error p));; mret None
  end.

Definition parse_async : P Node :=
  f ← peek_token TOK_FUNCTION;
  if (f : bool) then skip;; g_function self true false false
  else
    nt ← lpeek;
    arrow ← (match t_type nt with
             | TOK_LPAREN => async_paren
             | TOK_IDENTIFIER => async_name
             | _ => mret None
             end);
    mret (match arrow with Some arrow => arrow | None => ast_identifier (chars_of "async") end).

Definition parse_import_expr : P Node :=
  dot ← peek_token TOK_DOT;
  if (dot : bool) then
    skip;;
    expect_token TOK_IDENTIFIER;;
    mret (AST_MEMBER (ast_identifier (chars_of "import")) (ast_identifier (chars_of "meta")))
  else
    paren ← peek_token TOK_LPAREN;
    if (paren : bool) then
      skip;;
      arg ← parse_assignment_expr;
      expect_token TOK_RPAREN;;
      mret (AST_CALL (ast_identifier (chars_of "import")) [arg])
    else mret (ast_identifier (chars_of "import")).

Definition parse_regexp (t : Token) : P Node :=
  s ← token_text t;
  match regexp_parts (default [] s) with
  | Some (pattern, flags) =>
      mret (AST_NEW (ast_identifier (chars_of "RegExp"))
                    [ast_literal_string pattern; ast_literal_string flags])
  | None => parser_error_token t "invalid regular expression literal";; mret AST_NULL
  end.

Definition parse_primary_expr : P Node :=
  t ← next_token;
  match t_type t with
  | TOK_NUMBER => mret (ast_literal_number (t_num_val t))
  | TOK_BIGINT_LIT => mret (AST_LITERAL (LBigInt (t_bigint_val t)))
  | TOK_STRING => mret (ast_literal_string (default [] (t_str_val t)))
  | TOK_REGEXP => parse_regexp t
  | TOK_PRIVATE_NAME => s ← token_text t; mret (ast_literal_string (take 127 (default [] s)))
  | TOK_BOOL_LIT => mret (AST_LITERAL (LBool (bool_of_num (t_num_val t))))
  | TOK_NULL_LIT => mret (AST_LITERAL LNull)
  | TOK_UNDEFINED_LIT => mret (AST_LITERAL LUndefined)
  | TOK_THIS => mret AST_THIS
  | TOK_SUPER => mret AST_SUPER
  | TOK_IDENTIFIER =>
      n ← token_ident t;
      tagged ← peek_any [TOK_TEMPLATE; TOK_TEMPLATE_END];
      if (tagged : bool) then parse_template_literal n else mret n
  | TOK_TEMPLATE | TOK_TEMPLATE_END =>
      '(parts, exprs) ← parse_template_body t; mret (AST_TEMPLATE parts exprs)
  | TOK_LPAREN => parse_paren
  | TOK_LBRACKET => parse_array_literal
  | TOK_LBRACE => parse_object_literal
  | TOK_FUNCTION => g_function self false false false
  | TOK_CLASS => g_class self
  | TOK_NEW => parse_new
  | TOK_TYPEOF => prefix_op "typeof"
  | TOK_DELETE => prefix_op "delete"
  | TOK_VOID => prefix_op "void"
  | TOK_PLUS => prefix_op "+"
  | TOK_MINUS => prefix_op "-"
  | TOK_NOT => prefix_op "!"
  | TOK_BIT_NOT => prefix_op "~"
  | TOK_INC => prefix_op "++"
  | TOK_DEC => prefix_op "--"
  | TOK_AWAIT => arg ← parse_unary_expr; mret (AST_AWAIT arg)
  | TOK_YIELD => parse_yield
  | TOK_ASYNC => parse_async
  | TOK_GET | TOK_SET | TOK_STATIC | TOK_OF | TOK_FROM | TOK_AS => token_ident t
  | TOK_IMPORT => parse_import_expr
  | TOK_ELLIPSIS => arg ← parse_assignment_expr; mret (AST_SPREAD_ELEMENT arg)
  | _ =>
      parser_error_token t ("unexpected token '" ++ token_type_name (t_type t)
                              ++ "' in expression")%string;;
      mret AST_NULL
  end.

End Expressions.
