(* ===== verification/ParseStmt.v ===== *)
(** The statement parser of [src/src/engine/lr_parser.c]: functions, patterns,
    declarations, statements, modules and classes, and the knot of the
    [grammar]. *)

From stdpp Require Import base list strings.
From Stdlib Require Import ZArith Lia SpecFloat Ascii.
From S2P Require Import Prelude.
From S2P Require Import BcProgram.
From S2P Require Import LexText.
From S2P Require Import Lexer.
From S2P Require Import F64.
From S2P Require Import NumText.
From S2P Require Import Ast.
From S2P Require Import ParseExpr.

Section Statements.

Context (self : grammar).

Abbreviation while body st := (ploop body (g_fuel self) st).
Abbreviation until stop body st := (while (guarded stop body) st).
Abbreviation parse_assignment_expr := (parse_assignment_expr self).
Abbreviation parse_expression := (parse_expression self).
Abbreviation with_default := (with_default self).

(** ** Functions *)

Definition parse_function (async generator is_decl : bool) : P Node :=
  star ← peek_token TOK_MUL;
  (if (star : bool) then skip else mret tt);;
  named ← peek_token TOK_IDENTIFIER;
  name ←
    (if (named : bool) then name_tok ← next_token; token_text name_tok
     else (if is_decl then parser_error "function declaration requires a name" else mret tt);;
          mret None);
  params ← parse_params self;
  body ← g_block self;
  let flags := MkFlags async (generator || star) false false false in
  mret (if is_decl then AST_FUNC_DECL name params body flags
        else AST_FUNC_EXPR name params body flags AST_NULL).

(** ** Destructuring patterns *)

(** The name bound by an element. *)
Definition pattern_name : P Node :=
  id_tok ← next_token;
  (if is_name_tok (t_type id_tok) then mret tt
   else parser_error_token id_tok "expected identifier in destructuring pattern");;
  token_ident id_tok.

Definition pattern_target : P Node :=
  nested ← peek_any [TOK_LBRACKET; TOK_LBRACE];
  if (nested : bool) then g_pattern self else pattern_name.

Definition pattern_array_turn (elements : list Node) : P (list Node + list Node) :=
  hole ← peek_token TOK_COMMA;
  if (hole : bool) then skip;; mret (inr (elements ++ [AST_NULL]))
  else
    rest ← peek_token TOK_ELLIPSIS;
    elem ← (if (rest : bool) then
              skip;; rest_target ← g_pattern self; mret (AST_REST rest_target)
            else pattern_target);
    elem ← (if is_null elem then mret elem else with_default elem);
    m ← match_token TOK_COMMA;
    mret ((if (m : bool) then inr else inl) (elements ++ [elem])).

Definition pattern_object_turn (props : list Node) : P (list Node + list Node) :=
  rest ← peek_token TOK_ELLIPSIS;
  prop ←
    (if (rest : bool) then
       skip;;
       named ← peek_token TOK_IDENTIFIER;
       rest_target ← (if (named : bool) then id_tok ← next_token; token_ident id_tok
                      else mret AST_NULL);
       mret (AST_REST rest_target)
     else
       key_tok ← next_token;
       (if tok_eqb (t_type key_tok) TOK_IDENTIFIER then mret tt
        else parser_error_token key_tok "expected property name in destructuring pattern");;
       key ← token_ident key_tok;
       colon ← match_token TOK_COLON;
       if (colon : bool) then
         target ← pattern_target;
         target ← with_default target;
         mret (AST_PROPERTY key target false false false)
       else
         target ← with_default key;
         mret (AST_PROPERTY key target false true false));
  m ← match_token TOK_COMMA;
  mret ((if (m : bool) then inr else inl) (props ++ [prop])).

Definition parse_pattern : P Node :=
  t ← lpeek;
  match t_type t with
  | TOK_LBRACKET =>
      skip;;
      elements ← until [TOK_RBRACKET] pattern_array_turn [];
      expect_token TOK_RBRACKET;;
      mret (AST_PATTERN elements false)
  | TOK_LBRACE =>
      skip;;
      props ← until [TOK_RBRACE] pattern_object_turn [];
      expect_token TOK_RBRACE;;
      mret (AST_PATTERN props true)
  | _ =>
      id_tok ← next_token;
      if tok_eqb (t_type id_tok) TOK_IDENTIFIER then token_ident id_tok
      else parser_error_token id_tok "expected identifier in pattern";; mret AST_NULL
  end.

(** ** Blocks *)

(** Append a statement that is not NULL. *)
Definition push (stmts : list Node) (stmt : Node) : list Node :=
  if is_null stmt then stmts else stmts ++ [stmt].

(** [parser->lexer->pos == before], the position of a token of the text. *)
Definition still_at (t : Token) (p : Parser) : bool :=
  match t_start t with AtSource before => pos (lexer p) =? before | _ => false end.

Definition block_turn (stmts : list Node) : P (list Node + list Node) :=
  cur ← lpeek;
  stmt ← g_statement self;
  e ← getp has_error;
  if negb (is_null stmt) || e then mret (inr (push stmts stmt))
  else
    stuck ← getp (still_at cur);
    if (stuck : bool) then
      t ← next_token;
      mret (if tok_eqb (t_type t) TOK_EOF then inl stmts else inr stmts)
    else mret (inr stmts).

Definition parse_block : P Node :=
  expect_token TOK_LBRACE;;
  stmts ← until [TOK_RBRACE] block_turn [];
  expect_token TOK_RBRACE;;
  mret (AST_BLOCK stmts).

(** ** Declarations *)

Definition declarator_turn (decl_type : LRTokType) (allow_no_init : bool) (vars : list Node)
    : P (list Node + list Node) :=
  destructured ← peek_any [TOK_LBRACKET; TOK_LBRACE];
  var ←
    (if (destructured : bool) then var ← g_pattern self; mret (Some var)
     else
       name_tok ← next_token;
       if is_name_tok (t_type name_tok) then var ← token_ident name_tok; mret (Some var)
       else parser_error_token name_tok "expected variable name in declaration";; mret None);
  match var with
  | None => mret (inl vars)
  | Some var =>
      assigned ← match_token TOK_ASSIGN;
      init ←
        (if (assigned : bool) then parse_assignment_expr
         else
           (if tok_eqb decl_type TOK_CONST && negb allow_no_init
            then parser_error "const declaration requires an initializer" else mret tt);;
           mret AST_NULL);
      m ← match_token TOK_COMMA;
      mret ((if (m : bool) then inr else inl) (vars ++ [AST_VAR_DECLARATOR var init]))
  end.

Definition parse_var_declaration (decl_type : LRTokType) (allow_no_init : bool) : P Node :=
  vars ← until [] (declarator_turn decl_type allow_no_init) [];
  mret (AST_VAR_DECL decl_type vars).

(** ** Modules *)

(** A token that is an identifier. *)
Definition is_ident (t : Token) : bool := tok_eqb (t_type t) TOK_IDENTIFIER.

(** [as alias] of a specifier: the alias, NULL when it is not an identifier;
    [None] without [as]. *)
Definition parse_alias : P (option Node) :=
  m ← match_token TOK_AS;
  if (m : bool) then
    alias ← next_token;
    if is_ident alias then name ← token_ident alias; mret (Some name) else mret (Some AST_NULL)
  else mret None.

(** A specifier between braces; [after_default]: in the list after a default
    import, where an alias that is no identifier leaves the name. *)
Definition import_specifier_turn (after_default : bool) (specs : list Node)
    : P (list Node + list Node) :=
  name ← next_token;
  spec ←
    (if is_ident name then
       sname ← token_text name;
       let local := ast_identifier (default [] sname) in
       alias ← parse_alias;
       mret (AST_IMPORT_SPECIFIER sname
               (match alias with
                | Some a => if after_default && is_null a then local else a
                | None => local
                end) false)
     else mret (AST_IMPORT_SPECIFIER None AST_NULL false));
  m ← match_token TOK_COMMA;
  mret ((if (m : bool) then inr else inl) (specs ++ [spec])).

Definition from_clause (specs : list Node) : P Node :=
  from ← match_token TOK_FROM;
  source ←
    (if (from : bool) then
       src ← next_token;
       if tok_eqb (t_type src) TOK_STRING then
         mret (ast_literal_string (default [] (t_str_val src)))
       else parser_error_token src "expected module specifier string";; mret AST_NULL
     else mret AST_NULL);
  match_token TOK_SEMICOLON;;
  mret (AST_IMPORT specs source).

Definition import_default : P (list Node) :=
  name ← next_token;
  sname ← token_text name;
  let specs := [AST_IMPORT_SPECIFIER sname (ast_identifier (default [] sname)) true] in
  comma ← peek_token TOK_COMMA;
  if (comma : bool) then
    skip;;
    braces ← peek_token TOK_LBRACE;
    if (braces : bool) then
      skip;;
      specs ← until [TOK_RBRACE] (import_specifier_turn true) specs;
      expect_token TOK_RBRACE;;
      mret specs
    else mret specs
  else mret specs.

Definition parse_import_decl : P Node :=
  expect_token TOK_IMPORT;;
  bare ← peek_token TOK_STRING;
  if (bare : bool) then
    src ← next_token;
    match_token TOK_SEMICOLON;;
    mret (AST_IMPORT [] (ast_literal_string (default [] (t_str_val src))))
  else
    star ← match_token TOK_MUL;
    if (star : bool) then
      expect_token TOK_AS;;
      name ← next_token;
      local ← (if is_ident name then token_ident name else mret AST_NULL);
      from_clause [AST_IMPORT_NAMESPACE local]
    else
      braces ← match_token TOK_LBRACE;
      if (braces : bool) then
        specs ← until [TOK_RBRACE] (import_specifier_turn false) [];
        expect_token TOK_RBRACE;;
        from_clause specs
      else
        named ← peek_token TOK_IDENTIFIER;
        specs ← (if (named : bool) then import_default else mret []);
        from_clause specs.

(** [from "module"] of an export: the module when it is a string. *)
Definition export_source : P Node :=
  from ← match_token TOK_FROM;
  if (from : bool) then
    src ← next_token;
    mret (if tok_eqb (t_type src) TOK_STRING
          then ast_literal_string (default [] (t_str_val src)) else AST_NULL)
  else mret AST_NULL.

(** [async] after [export]: the function that follows, or nothing; the token
    [async] itself is not given back. *)
Definition export_async (is_decl : bool) : P (option Node) :=
  save_pos ← getp (pos ∘ lexer);
  skip;;
  f ← peek_token TOK_FUNCTION;
  if (f : bool) then skip;; func ← g_function self true false is_decl; mret (Some func)
  else setp (fun p => with_lexer (rewind save_pos (lexer p)) p);; mret None.

Definition export_default_value : P Node :=
  f ← peek_token TOK_FUNCTION;
  if (f : bool) then skip;; g_function self false false false
  else
    a ← peek_token TOK_ASYNC;
    if (a : bool) then
      func ← export_async false;
      match func with Some func => mret func | None => parse_assignment_expr end
    else
      c ← peek_token TOK_CLASS;
      if (c : bool) then skip;; g_class self else parse_assignment_expr.

Definition export_specifier_turn (specs : list Node) : P (list Node + list Node) :=
  name ← next_token;
  spec ←
    (if is_ident name then
       sname ← token_text name;
       alias ← parse_alias;
       mret (AST_EXPORT_NAMED sname (default AST_NULL alias))
     else mret (AST_EXPORT_NAMED None AST_NULL));
  m ← match_token TOK_COMMA;
  mret ((if (m : bool) then inr else inl) (specs ++ [spec])).

(** An exported declaration. *)
Definition export_declaration : P Node :=
  var ← peek_any [TOK_VAR; TOK_LET; TOK_CONST];
  if (var : bool) then
    decl ← next_token;
    vars ← parse_var_declaration (t_type decl) false;
    match_token TOK_SEMICOLON;;
    mret (AST_EXPORT [vars] AST_NULL false)
  else
    f ← peek_token TOK_FUNCTION;
    if (f : bool) then
      skip;; func ← g_function self false false true; mret (AST_EXPORT [func] AST_NULL false)
    else
      a ← peek_token TOK_ASYNC;
      func ← (if (a : bool) then export_async true else mret None);
      match func with
      | Some func => mret (AST_EXPORT [func] AST_NULL false)
      | None =>
          c ← peek_token TOK_CLASS;
          if (c : bool) then
            skip;; cls ← g_class self; mret (AST_EXPORT [cls] AST_NULL false)
          else
            parser_error "expected declaration after 'export'";;
            mret (AST_EXPORT [] AST_NULL false)
      end.

Definition parse_export_decl : P Node :=
  expect_token TOK_EXPORT;;
  def ← match_token LexText.TOK_DEFAULT;
  if (def : bool) then
    value ← export_default_value;
    match_token TOK_SEMICOLON;;
    mret (AST_EXPORT [AST_EXPORT_DEFAULT value] AST_NULL true)
  else
    star ← match_token TOK_MUL;
    if (star : bool) then
      alias ← match_token TOK_AS;
      (if (alias : bool) then next_token;; mret tt else mret tt);;
      source ← export_source;
      match_token TOK_SEMICOLON;;
      mret (AST_EXPORT [AST_EXPORT_ALL] source false)
    else
      braces ← match_token TOK_LBRACE;
      if (braces : bool) then
        specs ← until [TOK_RBRACE] export_specifier_turn [];
        expect_token TOK_RBRACE;;
        source ← export_source;
        match_token TOK_SEMICOLON;;
        mret (AST_EXPORT specs source false)
      else export_declaration.

(** ** Classes *)

(** A modifier, unless one of [stop] follows: then it is the member's name and
    is given back. *)
Definition member_stop : list LRTokType := [TOK_LPAREN; TOK_ASSIGN; TOK_SEMICOLON].

Definition modifier (types : list LRTokType) : P bool :=
  found ← peek_any types;
  if (found : bool) then
    st ← getp lexer;
    skip;;
    plain ← peek_any member_stop;
    if (plain : bool) then
      setp (fun p => with_lexer (lex_state_restore st (lexer p)) p);; mret false
    else mret true
  else mret false.

(** A character that can start the name of a member. *)
Definition member_start (c : Z) : bool :=
  (ch "a" <=? c) && (c <=? ch "z") || (ch "A" <=? c) && (c <=? ch "Z") ||
  (c =? ch "_") || (c =? ch "$") || (c =? ch "#").

Definition member_name_tok (type : LRTokType) : bool :=
  match type with
  | TOK_IDENTIFIER | TOK_GET | TOK_SET | TOK_STATIC | TOK_ASYNC | TOK_PRIVATE_NAME => true
  | _ => false
  end.

(** The computed key and the name of a member; [None] after an error. *)
Definition member_key : P (option (Node * option (list Z))) :=
  computed ← match_token TOK_LBRACKET;
  if (computed : bool) then
    key ← parse_expression; expect_token TOK_RBRACKET;; mret (Some (key, None))
  else
    lit ← peek_any [TOK_STRING; TOK_NUMBER];
    if (lit : bool) then
      kt ← next_token;
      mret (Some (AST_NULL, if tok_eqb (t_type kt) TOK_STRING then t_str_val kt
                            else Some (num_name (t_num_val kt))))
    else
      kt ← next_token;
      name ← token_text kt;
      if member_name_tok (t_type kt) || member_start (at_ (default [] name) 0)
      then mret (Some (AST_NULL, name))
      else parser_error_token kt "expected class member name";; mret None.

(** The [static], [async], [*], [get] and [set] before a member. *)
Definition class_member (static : bool) (methods : list Node) : P (list Node + list Node) :=
  async ← modifier [TOK_ASYNC];
  star ← match_token TOK_MUL;
  is_get ← peek_token TOK_GET;
  accessor ← modifier [TOK_GET; TOK_SET];
  key ← member_key;
  match key with
  | None => mret (inl methods)
  | Some (key_expr, name) =>
      paren ← peek_token TOK_LPAREN;
      member ←
        (if (paren : bool) then
           params ← parse_params self;
           body ← g_block self;
           mret (AST_FUNC_EXPR name params body
                   (MkFlags async star static (accessor && is_get) (accessor && negb is_get))
                   key_expr)
         else
           assigned ← match_token TOK_ASSIGN;
           init ← (if (assigned : bool) then parse_assignment_expr else mret AST_NULL);
           match_token TOK_SEMICOLON;;
           mret (AST_PROPERTY (if is_null key_expr then ast_identifier (default [] name)
                               else key_expr)
                              init (negb (is_null key_expr)) false static));
      mret (inr (methods ++ [member]))
  end.

Definition class_turn (methods : list Node) : P (list Node + list Node) :=
  stray ← match_token TOK_SEMICOLON;
  if (stray : bool) then mret (inr methods)
  else
    static ← modifier [TOK_STATIC];
    block ← (if (static : bool) then peek_token TOK_LBRACE else mret false);
    if (block : bool) then
      body ← g_block self;
      mret (inr (methods ++
        [AST_FUNC_EXPR (Some (chars_of "__static_block__")) [] body
           (MkFlags false false true false false) AST_NULL]))
    else class_member static methods.

Definition parse_class_decl : P Node :=
  named ← peek_token TOK_IDENTIFIER;
  name ← (if (named : bool) then name ← next_token; token_text name else mret None);
  extends ← match_token TOK_EXTENDS;
  base ← (if (extends : bool) then parse_expression else mret AST_NULL);
  expect_token TOK_LBRACE;;
  methods ← until [TOK_RBRACE] class_turn [];
  expect_token TOK_RBRACE;;
  mret (AST_CLASS_DECL name base methods).

(** ** Statements *)

Definition parse_if : P Node :=
  expect_token TOK_LPAREN;;
  cond ← parse_expression;
  expect_token TOK_RPAREN;;
  body ← g_statement self;
  m ← match_token TOK_ELSE;
  else_body ← (if (m : bool) then g_statement self else mret AST_NULL);
  mret (AST_IF cond body else_body).

(** [of] or [in] and the rest of the loop. *)
Definition for_each_rest (build : Node -> Node -> Node) : P Node :=
  skip;;
  source ← parse_expression;
  expect_token TOK_RPAREN;;
  body ← g_statement self;
  mret (build source body).

(** An expression, unless [stop] comes at once. *)
Definition optional_expression (stop : LRTokType) : P Node :=
  none ← peek_token stop;
  if (none : bool) then mret AST_NULL else parse_expression.

Definition parse_for : P Node :=
  expect_token TOK_LPAREN;;
  decl ← peek_any [TOK_VAR; TOK_LET; TOK_CONST];
  init ← (if (decl : bool) then t ← next_token; parse_var_declaration (t_type t) true
          else optional_expression TOK_SEMICOLON);
  for_in ← peek_token TOK_IN;
  if (for_in : bool) then for_each_rest (AST_FOR_IN init)
  else
    for_of ← peek_token TOK_OF;
    if (for_of : bool) then for_each_rest (AST_FOR_OF init)
    else
      expect_token TOK_SEMICOLON;;
      test ← optional_expression TOK_SEMICOLON;
      expect_token TOK_SEMICOLON;;
      update ← optional_expression TOK_RPAREN;
      expect_token TOK_RPAREN;;
      body ← g_statement self;
      mret (AST_FOR init test update body).

Definition parse_while : P Node :=
  expect_token TOK_LPAREN;;
  cond ← parse_expression;
  expect_token TOK_RPAREN;;
  body ← g_statement self;
  mret (AST_WHILE cond body).

Definition parse_do : P Node :=
  body ← g_statement self;
  expect_token TOK_WHILE;;
  expect_token TOK_LPAREN;;
  cond ← parse_expression;
  expect_token TOK_RPAREN;;
  match_token TOK_SEMICOLON;;
  mret (AST_DO_WHILE body cond).

(** The statements of a [case]: nothing is read when [parse_statement] reads
    nothing. *)
Definition case_turn (stmts : list Node) : P (list Node + list Node) :=
  s ← g_statement self; mret (inr (push stmts s)).

Definition case_body : P Node :=
  stmts ← until [TOK_RBRACE; TOK_CASE; LexText.TOK_DEFAULT] case_turn [];
  mret (AST_BLOCK stmts).

Definition switch_turn (cases : list Node) : P (list Node + list Node) :=
  c ← match_token TOK_CASE;
  if (c : bool) then
    cond ← parse_expression;
    expect_token TOK_COLON;;
    body ← case_body;
    mret (inr (cases ++ [AST_CASE cond body]))
  else
    d ← match_token LexText.TOK_DEFAULT;
    if (d : bool) then
      expect_token TOK_COLON;;
      body ← case_body;
      mret (inr (cases ++ [AST_DEFAULT body]))
    else mret (inl cases).

Definition parse_switch : P Node :=
  expect_token TOK_LPAREN;;
  test ← parse_expression;
  expect_token TOK_RPAREN;;
  expect_token TOK_LBRACE;;
  cases ← until [TOK_RBRACE] switch_turn [];
  expect_token TOK_RBRACE;;
  mret (AST_SWITCH test cases).

(** The label of a [break] or [continue]. *)
Definition jump_label : P Node :=
  named ← peek_token TOK_IDENTIFIER;
  label ← (if (named : bool) then label ← next_token; token_ident label else mret AST_NULL);
  match_token TOK_SEMICOLON;;
  mret label.

Definition parse_return : P Node :=
  start ← is_expr_start;
  stop ← (if (start : bool) then peek_any [TOK_SEMICOLON; TOK_RBRACE; TOK_EOF] else mret true);
  arg ← (if (stop : bool) then mret AST_NULL else parse_expression);
  match_token TOK_SEMICOLON;;
  mret (AST_RETURN arg).

Definition parse_throw : P Node :=
  arg ← parse_expression;
  match_token TOK_SEMICOLON;;
  mret (AST_THROW arg).

(** [(name)] of a [catch]. *)
Definition catch_binding : P (option (list Z)) :=
  paren ← match_token TOK_LPAREN;
  if (paren : bool) then
    t ← next_token;
    name ← (if is_ident t then token_text t else mret None);
    expect_token TOK_RPAREN;;
    mret name
  else mret None.

Definition parse_try : P Node :=
  body ← g_block self;
  c ← match_token TOK_CATCH;
  '(catch_var, catch_body) ←
    (if (c : bool) then
       catch_var ← catch_binding; catch_body ← g_block self; mret (catch_var, catch_body)
     else mret (None, AST_NULL));
  f ← match_token TOK_FINALLY;
  finally_body ← (if (f : bool) then g_block self else mret AST_NULL);
  (if is_null catch_body && is_null finally_body
   then parser_error "try requires catch or finally" else mret tt);;
  mret (AST_TRY body catch_body finally_body catch_var).

(** [lexer->pos = save_pos; lexer_reset_peek(lexer)] to the start of [t]. *)
Definition rewind_to (t : Token) : P unit :=
  setp (fun p => with_lexer (rewind (start_of t) (lexer p)) p).

(** [async function]; otherwise the statement is left unread. *)
Definition async_statement (t : Token) : P Node :=
  skip;;
  f ← peek_token TOK_FUNCTION;
  if (f : bool) then skip;; g_function self true false true
  else rewind_to t;; mret AST_NULL.

(** An [import] declaration; an import expression is left unread. *)
Definition import_statement (t : Token) : P Node :=
  skip;;
  expression ← peek_any [TOK_LPAREN; TOK_DOT];
  rewind_to t;;
  if (expression : bool) then mret AST_NULL else parse_import_decl.

Definition expression_statement (t : Token) : P Node :=
  start ← is_expr_start;
  expr ← (if (start : bool) then parse_expression else mret AST_NULL);
  if is_null expr then
    parser_error ("unexpected token '" ++ token_type_name (t_type t) ++ "' in statement")%string;;
    mret AST_NULL
  else match_token TOK_SEMICOLON;; mret (AST_EXPR_STMT expr).

(** A label, or an expression that starts with an identifier. *)
Definition identifier_statement (t : Token) : P Node :=
  skip;;
  colon ← peek_token TOK_COLON;
  if (colon : bool) then
    label ← token_ident t;
    skip;;
    stmt ← g_statement self;
    mret (AST_LABEL label stmt)
  else rewind_to t;; expression_statement t.

Definition parse_statement : P Node :=
  e ← getp has_error;
  if (e : bool) then mret AST_NULL
  else
    t ← lpeek;
    match t_type t with
    | TOK_LBRACE => g_block self
    | TOK_LET | TOK_CONST | TOK_VAR =>
        skip;;
        n ← parse_var_declaration (t_type t) false;
        match_token TOK_SEMICOLON;;
        mret n
    | TOK_FUNCTION => skip;; g_function self false false true
    | TOK_ASYNC => async_statement t
    | TOK_CLASS => skip;; g_class self
    | TOK_IF => skip;; parse_if
    | TOK_FOR => skip;; parse_for
    | TOK_WHILE => skip;; parse_while
    | TOK_DO => skip;; parse_do
    | TOK_SWITCH => skip;; parse_switch
    | TOK_BREAK => skip;; label ← jump_label; mret (AST_BREAK label)
    | TOK_CONTINUE => skip;; label ← jump_label; mret (AST_CONTINUE label)
    | TOK_RETURN => skip;; parse_return
    | TOK_THROW => skip;; parse_throw
    | TOK_TRY => skip;; parse_try
    | TOK_DEBUGGER => skip;; match_token TOK_SEMICOLON;; mret AST_DEBUGGER
    | TOK_IMPORT => import_statement t
    | TOK_EXPORT => parse_export_decl
    | TOK_SEMICOLON => skip;; mret AST_NULL
    | TOK_IDENTIFIER => identifier_statement t
    | _ => expression_statement t
    end.

End Statements.

(** ** The knot *)

(** [n] bounds the nesting of calls and the turns of every loop. *)
Fixpoint grammar_at (n : nat) : grammar :=
  match n with
  | O => MkGrammar 0 (fun _ => out_of_fuel) out_of_fuel out_of_fuel out_of_fuel out_of_fuel
           (fun _ _ _ => out_of_fuel) out_of_fuel
  | S n' =>
      let self := grammar_at n' in
      MkGrammar n (parse_expr self) (parse_primary_expr self) (parse_statement self)
        (parse_block self) (parse_pattern self) (parse_function self) (parse_class_decl self)
  end.

(** ** Programs *)

Definition program_turn (self : grammar) (stmts : list Node) : P (list Node + list Node) :=
  stmt ← g_statement self;
  e ← getp has_error;
  if negb (is_null stmt) || e then mret (inr (push stmts stmt))
  else
    t ← next_token;
    mret (if tok_eqb (t_type t) TOK_EOF then inl stmts else inr stmts).

Definition parse_program (n : nat) : P Node :=
  let self := grammar_at n in
  stmts ← ploop (guarded [TOK_EOF] (program_turn self)) n [];
  mret (AST_PROGRAM stmts).

(** The tree and the error of a source text. *)
Definition parse_text (n : nat) (text : list Z) : outcome (Node * Parser) :=
  parse_program n (parser_init (lexer_init text)).
