(* ===== verification/ParseEnds.v ===== *)
(** The parser ends: a logic of total correctness for parsing steps, a measure
    of what is left to read, and the two for every function of the grammar.

    [ends m p Q]: run from [p], the step [m] does not run out of fuel, and if it
    returns, [Q] holds of the result and the new state.  [left p] is about twice
    the number of bytes that are not read. *)

From stdpp Require Import base list strings.
From Stdlib Require Import ZArith Lia SpecFloat Ascii.
From S2P Require Import Prelude.
From S2P Require Import LexText.
From S2P Require Import Lexer.
From S2P Require Import Ast.
From S2P Require Import ParseExpr.
From S2P Require Import ParseStmt.

(** ** Steps that end *)

Definition ends {A} (m : P A) (p : Parser) (Q : A -> Parser -> Prop) : Prop :=
  match m p with Done (a, p') => Q a p' | Crash => True | OutOfFuel => False end.

Lemma ends_bind {A B} (m : P A) (f : A -> P B) p (R : A -> Parser -> Prop) Q :
  ends m p R -> (forall a p', R a p' -> ends (f a) p' Q) -> ends (m ≫= f) p Q.
Proof.
  unfold ends, mbind, P_bind. destruct (m p) as [[a p']| |]; [|done|done]. intros H Hf. by apply Hf.
Qed.

Lemma ends_weaken {A} (m : P A) p (R Q : A -> Parser -> Prop) :
  ends m p R -> (forall a p', R a p' -> Q a p') -> ends m p Q.
Proof. unfold ends. destruct (m p) as [[a p']| |]; auto. Qed.

Lemma ends_ret {A} (a : A) p (Q : A -> Parser -> Prop) : Q a p -> ends (mret a) p Q.
Proof. done. Qed.

(** ** What is left *)

Section Text.

(** The text, and the types of the tokens that are read in it. *)
Context (text : list Z) (found : LRTokType -> Prop).

Hypothesis lexes_found : forall l t l',
  src l = text -> pos_ok l -> has_peek l = false -> lexer_next true l = Some (t, l') ->
  found (t_type t).

(** The token held back is one of the text. *)
Record peek_ok (l : Lexer) : Prop := {
  pk_found : found (t_type (peek l));
  pk_eof : t_type (peek l) = TOK_EOF -> t_start (peek l) = AtSource (src_len l) /\ pos l = src_len l /\
    t_len (peek l) = 0;
  pk_other : t_type (peek l) <> TOK_EOF -> t_type (peek l) <> TOK_ERROR ->
    t_start (peek l) = AtSource (start_of (peek l)) /\ 0 <= start_of (peek l) < pos l
}.

Record wf (p : Parser) : Prop := {
  wf_src : src (lexer p) = text;
  wf_pos : pos_ok (lexer p);
  wf_peek : has_peek (lexer p) = true -> peek_ok (lexer p)
}.

Definition rest (l : Lexer) : Z := 2 * (src_len l - pos l).

Definition left (p : Parser) : Z :=
  let l := lexer p in
  if has_peek l then
    if tok_eqb (t_type (peek l)) TOK_EOF then 0
    else if tok_eqb (t_type (peek l)) TOK_ERROR then rest l + 1
    else 2 * (src_len l - start_of (peek l))
  else rest l.

(** The four cases of [left]. *)
Lemma left_cases p :
  wf p ->
  let l := lexer p in
  0 <= rest l <= 2 * zlen text /\ src_len l = zlen text /\
  (has_peek l = false /\ left p = rest l \/
   has_peek l = true /\
   (t_type (peek l) = TOK_EOF /\ left p = 0 /\ rest l = 0 \/
    t_type (peek l) = TOK_ERROR /\ left p = rest l + 1 \/
    t_type (peek l) <> TOK_EOF /\ t_type (peek l) <> TOK_ERROR /\
      left p = 2 * (src_len l - start_of (peek l)) /\ 0 <= start_of (peek l) < pos l)).
Proof.
  intros [Hs Hp Hk] l. unfold rest, pos_ok in *. fold l in Hs, Hp, Hk.
  assert (src_len l = zlen text) as El by (unfold src_len; by rewrite Hs).
  split_and!; [lia|lia|done|]. unfold left. fold l. destruct (has_peek l); [right|by left].
  specialize (Hk eq_refl). split; [done|].
  destruct (tok_eqb_spec (t_type (peek l)) TOK_EOF) as [E|E].
  - left. split_and!; [done|done|]. destruct (pk_eof _ Hk E). unfold rest. lia.
  - right. destruct (tok_eqb_spec (t_type (peek l)) TOK_ERROR) as [E'|E']; [by left|right].
    destruct (pk_other _ Hk E E'). done.
Qed.

Lemma left_nonneg p : wf p -> 0 <= left p.
Proof. intros Hw. destruct (left_cases p Hw) as (H1 & H2 & H). unfold pos_ok in *. pose proof (wf_pos _ Hw) as Hp. unfold pos_ok in Hp. lia. Qed.

(** [t] is held back. *)
Definition at_tok (p : Parser) (t : Token) : Prop :=
  has_peek (lexer p) = true /\ peek (lexer p) = t.

(** What every step keeps; [same_error] when it leaves the error alone. *)
Definition le (p p' : Parser) : Prop := wf p' /\ 0 <= left p' <= left p.
Definition same_error (p p' : Parser) : Prop := has_error p' = has_error p.

(** Split the conjunctions of the context. *)
Ltac tidy := unfold le, same_error in *; repeat match goal with H : _ /\ _ |- _ => destruct H end.
Ltac tidily := tidy; split_and!; first [done|lia|congruence|idtac].

Definition sticky (p p' : Parser) : Prop := has_error p = true -> has_error p' = true.

Lemma next_fresh l :
  src l = text -> pos_ok l -> has_peek l = false ->
  exists t l', lexer_next true l = Some (t, l') /\ src l' = text /\ pos_ok l' /\
    has_peek l' = false /\ found (t_type t) /\
    (t_type t = TOK_EOF /\ t_start t = AtSource (src_len l) /\ pos l' = src_len l /\
       t_len t = 0 \/
     t_type t <> TOK_EOF /\ pos l < pos l' /\
     (t_type t = TOK_ERROR \/ exists s, t_start t = AtSource s /\ pos l <= s < pos l')).
Proof.
  intros Hs Hp Hk. destruct (lexer_next_ok true l Hp Hk) as (t & l' & st & E & Hr & _ & Hle & _ & _ & H).
  exists t, l'. split_and!; [done|by rewrite (r_src _ _ Hr)|by apply (r_ok _ _ Hr)
    |by rewrite (r_peek _ _ Hr)|by eapply lexes_found|].
  destruct H as [(H1 & -> & H2 & H4 & H3)|(H1 & H2 & H3)]; [by left|right].
  split_and!; [done|lia|]. destruct H3 as [H3|[H3 _]]; [by left|right]. exists st. split; [done|lia].
Qed.

(** The state with no token held back. *)
Lemma wf_fresh l p : src l = text -> pos_ok l -> has_peek l = false -> wf (with_lexer l p).
Proof. intros H1 H2 H3. split; [exact H1|exact H2|]. intros H. cbn in H. congruence. Qed.

Lemma left_fresh l p : has_peek l = false -> left (with_lexer l p) = rest l.
Proof. intros H. unfold left. cbn. by rewrite H. Qed.

Lemma next_ends p :
  wf p ->
  ends next_token p (fun t p' => le p p' /\ same_error p p' /\ has_peek (lexer p') = false /\
    found (t_type t) /\ (at_tok p t \/ has_peek (lexer p) = false) /\
    (t_type t = TOK_EOF \/ left p' < left p)).
Proof.
  intros Hw. pose proof Hw as [Hs Hp Hk]. pose proof (left_cases p Hw) as (Hr & Hl & Hc).
  unfold ends, next_token, lift. destruct (has_peek (lexer p)) eqn:Epk.
  - unfold lexer_next. rewrite Epk. destruct (Hk eq_refl) as [Hf _ _].
    set (l' := set_peek _ _ _). assert (wf (with_lexer l' p)) as Hw' by (by apply wf_fresh).
    assert (rest l' = rest (lexer p)) as Er by done.
    unfold le. rewrite (left_fresh l') by done. rewrite Er.
    destruct Hc as [[Hx _]|[_ Hc]]; [done|].
    split_and!; try done; [lia| |by left|].
    + destruct Hc as [Hc|[Hc|Hc]]; [lia|lia|]. unfold rest. lia.
    + destruct Hc as [Hc|[Hc|Hc]]; [left; apply Hc|right; lia|right; unfold rest; lia].
  - destruct (next_fresh (lexer p) Hs Hp Epk) as (t & l' & -> & Hs' & Hp' & Epk' & Hf & H).
    assert (wf (with_lexer l' p)) as Hw' by (by apply wf_fresh).
    pose proof (left_cases _ Hw') as (Hr' & Hl' & _). cbn [with_lexer lexer] in Hr', Hl'.
    destruct Hc as [[_ Hc]|[Hx _]]; [|done].
    unfold le. rewrite (left_fresh l') by done. unfold rest, pos_ok in *.
    split_and!; try done; [lia| |by right|].
    + destruct H as [(_ & _ & H & _)|(_ & H & _)]; lia.
    + destruct H as [(H & _)|(_ & H & _)]; [by left|right; lia].
Qed.

(** The end of the input is empty. *)
Lemma next_eof_len p :
  wf p -> ends next_token p (fun t _ => t_type t = TOK_EOF -> t_len t = 0).
Proof.
  intros Hw. pose proof Hw as [Hs Hp Hk]. unfold ends, next_token, lift.
  destruct (has_peek (lexer p)) eqn:Epk.
  - unfold lexer_next. rewrite Epk. intros Ht. by apply (pk_eof _ (Hk eq_refl)).
  - destruct (next_fresh (lexer p) Hs Hp Epk) as (t & l' & -> & _ & _ & _ & _ & H). intros Ht.
    destruct H as [(_ & _ & _ & H)|[? _]]; done.
Qed.

Lemma lpeek_ends p :
  wf p ->
  ends lpeek p (fun t p' => le p p' /\ same_error p p' /\ at_tok p' t /\ found (t_type t)).
Proof.
  intros Hw. pose proof Hw as [Hs Hp Hk]. pose proof (left_nonneg p Hw) as Hnn.
  unfold ends, lpeek, lift, lexer_peek. destruct (has_peek (lexer p)) eqn:Epk.
  - destruct p as [l e m el ec]. cbn [lexer with_lexer has_error error_msg error_line error_col] in *.
    unfold le. split_and!; try done; first [lia|by apply (pk_found _ (Hk eq_refl))].
  - destruct (next_fresh (lexer p) Hs Hp Epk) as (t & l' & -> & Hs' & Hp' & Epk' & Hf & H).
    cbn [mbind option_bind]. set (p' := with_lexer _ p).
    assert (src_len l' = src_len (lexer p)) as Esl by (unfold src_len; congruence).
    assert (wf p') as Hw'.
    { split; [exact Hs'|exact Hp'|]. intros _. unfold pos_ok in Hp.
      change (src_len (lexer p')) with (src_len l'). split; [exact Hf|..]; cbn; intros Ht.
      - destruct H as [(_ & He & Hq)|[? _]]; [|done]. change (src_len (set_peek true t l')) with (src_len l').
        rewrite Esl. done.
      - intros Ht'. destruct H as [[? _]|(_ & Hq & [?|(s & He & Hr)])]; try done.
        unfold start_of. rewrite He. split; [done|lia]. }
    destruct (left_cases p' Hw') as (Hr & Hl & Hc). cbn [p' with_lexer lexer set_peek peek has_peek pos] in *.
    unfold rest in *. cbn [pos set_peek] in *. change (src_len (set_peek true t l')) with (src_len l') in *.
    destruct Hc as [[? _]|[_ Hc]]; [done|]. unfold le. split_and!; try done; [by apply left_nonneg|].
    assert (left p = 2 * (src_len (lexer p) - pos (lexer p))) as El0 by (unfold left; by rewrite Epk).
    rewrite El0. destruct Hc as [Hc|[Hc|Hc]]; [unfold pos_ok in *; lia| |].
    + destruct H as [(He & _)|(_ & H & _)]; [destruct Hc; congruence|lia].
    + destruct H as [(He & _)|(_ & H & [He|(s & He & Hlt)])]; [by destruct Hc|by destruct Hc as (_ & ? & _)|].
      destruct Hc as (_ & _ & -> & _). unfold start_of. rewrite He. lia.
Qed.

(** The next token is there to read. *)
Definition readable (p : Parser) : Prop := exists t, at_tok p t /\ t_type t <> TOK_EOF.

(** The token held back stays. *)
Definition keeps (p p' : Parser) : Prop := forall t, at_tok p t -> at_tok p' t.

Lemma keeps_readable p p' : keeps p p' -> readable p -> readable p'.
Proof. intros H (t & Ht & Hne). exists t. split; [by apply H|done]. Qed.

Lemma next_ends' p :
  wf p ->
  ends next_token p (fun t p' => le p p' /\ same_error p p' /\ has_peek (lexer p') = false /\
    found (t_type t) /\ (at_tok p t \/ has_peek (lexer p) = false) /\
    (t_type t = TOK_EOF \/ left p' < left p) /\ (readable p -> left p' < left p)).
Proof.
  intros Hw. eapply ends_weaken; [by apply next_ends|]. intros t p' (H1 & H2 & H3 & H4 & H5 & H6).
  split_and!; try done. intros (t' & Ht' & Hne). destruct H6 as [H6|H6]; [|done].
  destruct H5 as [H5|H5]; [|destruct Ht'; congruence]. destruct H5 as [_ <-], Ht' as [_ <-]. congruence.
Qed.

Lemma skip_ends p :
  wf p ->
  ends skip p (fun _ p' => le p p' /\ same_error p p' /\ has_peek (lexer p') = false /\
    (readable p -> left p' < left p)).
Proof.
  intros Hw. pose proof (next_ends' p Hw) as H. unfold ends, skip, next_token, lift, lexer_skip in *.
  destruct (lexer_next true (lexer p)) as [[t l]|]; [|done]. cbn. tauto.
Qed.

Lemma lpeek_keeps p : wf p -> ends lpeek p (fun _ p' => keeps p p').
Proof.
  intros Hw. pose proof (lpeek_ends p Hw) as H. unfold ends, lpeek, lift, lexer_peek in *.
  destruct (has_peek (lexer p)) eqn:E; cbn in *.
  - intros t [H1 H2]. split; [exact H1|exact H2].
  - destruct (lexer_next true (lexer p)) as [[t l]|]; [|done]. intros t' [Ht' _]. congruence.
Qed.

Lemma peek_ends type p :
  wf p ->
  ends (peek_token type) p (fun b p' => le p p' /\ same_error p p' /\ keeps p p' /\
    has_peek (lexer p') = true /\ (b = true -> exists t, at_tok p' t /\ t_type t = type /\ found type)).
Proof.
  intros Hw. pose proof (lpeek_ends p Hw) as H1. pose proof (lpeek_keeps p Hw) as H2.
  unfold ends, peek_token, mbind, P_bind in *. destruct (lpeek p) as [[t p']| |]; [|done|done].
  destruct H1 as (H1 & H3 & H4 & H5). cbn. split_and!; try done; [apply H4|].
  intros Hb. exists t. destruct (tok_eqb_spec (t_type t) type) as [<-|]; [done|congruence].
Qed.

Lemma peek_any_ends types p :
  wf p ->
  ends (peek_any types) p (fun b p' => le p p' /\ same_error p p' /\ keeps p p' /\
    (b = true -> exists t, at_tok p' t /\ t_type t ∈ types /\ found (t_type t))).
Proof.
  revert p. induction types as [|type types IH]; intros p Hw; cbn [peek_any].
  - apply ends_ret. unfold le, same_error. pose proof (left_nonneg p Hw).
    split_and!; first [done|lia|by intros t Ht].
  - eapply ends_bind; [by apply peek_ends|]. intros b p1 (H1 & H2 & H3 & _ & H4). destruct b.
    + apply ends_ret. split_and!; try done. intros _. destruct (H4 eq_refl) as (t & Ht & E & Hf).
      exists t. rewrite E. split_and!; [done|left|done].
    + eapply ends_weaken; [by apply IH, H1|]. intros b p2 (H5 & H6 & H7 & H8). tidily.
      { intros t Ht. auto. }
      intros Hb. destruct (H8 Hb) as (t & Ht & E & Hf). exists t. split_and!; [done|by right|done].
Qed.

Lemma match_ends type p :
  wf p -> type <> TOK_EOF ->
  ends (match_token type) p (fun b p' => le p p' /\ same_error p p' /\
    (b = true -> left p' < left p /\ has_peek (lexer p') = false /\ found type)).
Proof.
  intros Hw Hne. unfold match_token. eapply ends_bind; [by apply lpeek_ends|].
  intros t p1 (H1 & H2 & H3 & H4). destruct (tok_eqb_spec (t_type t) type) as [E|E].
  - eapply ends_bind; [apply skip_ends, H1|]. intros _ p2 (H5 & H6 & H7 & H8). apply ends_ret.
    assert (left p2 < left p1) by (apply H8; exists t; split; [done|congruence]).
    tidily. intros _. rewrite <- E. split_and!; [lia|done|done].
  - apply ends_ret. done.
Qed.

Lemma error_ends f p :
  wf p -> (forall q, lexer (f q) = lexer q) -> has_error (f p) = true ->
  ends (setp f) p (fun _ p' => le p p' /\ has_error p' = true /\ keeps p p').
Proof.
  intros Hw Hl He. unfold ends, setp. pose proof (left_nonneg p Hw).
  assert (left (f p) = left p) as El by (unfold left; by rewrite Hl).
  unfold le, keeps, at_tok. rewrite El, Hl. split_and!; try done.
  destruct Hw. by split; rewrite Hl.
Qed.

Lemma set_error_lexer msg l c p : lexer (set_error msg l c p) = lexer p.
Proof. unfold set_error. by destruct (has_error p). Qed.
Lemma set_error_set msg l c p : has_error (set_error msg l c p) = true.
Proof. unfold set_error. by destruct (has_error p) eqn:E. Qed.

Lemma parser_error_ends msg p :
  wf p -> ends (parser_error msg) p (fun _ p' => le p p' /\ has_error p' = true /\ keeps p p').
Proof.
  intros Hw. apply error_ends; [done|intros; apply set_error_lexer|apply set_error_set].
Qed.

Lemma parser_error_token_ends t msg p :
  wf p -> ends (parser_error_token t msg) p (fun _ p' => le p p' /\ has_error p' = true /\ keeps p p').
Proof.
  intros Hw. apply error_ends; [done|intros; apply set_error_lexer|apply set_error_set].
Qed.

Lemma expect_ends type p :
  wf p -> type <> TOK_EOF ->
  ends (expect_token type) p (fun _ p' => le p p' /\ sticky p p' /\
    (has_error p' = true \/ left p' < left p) /\ (readable p -> left p' < left p)).
Proof.
  intros Hw Hne. unfold expect_token. eapply ends_bind; [by apply next_ends'|].
  intros t p1 (H1 & H2 & H3 & H4 & H5 & H6 & H7). unfold sticky.
  destruct (tok_eqb_spec (t_type t) type) as [E|E].
  - apply ends_ret. tidily. right. destruct H6; [congruence|done].
  - eapply ends_bind; [apply parser_error_token_ends, H1|]. intros _ p2 (H8 & H9 & _).
    apply ends_ret. tidily; [by left|]. intros Hr. specialize (H7 Hr). lia.
Qed.

(** Steps that do not move. *)
Lemma token_text_ends t p : ends (token_text t) p (fun _ p' => p' = p).
Proof. done. Qed.
Lemma token_ident_ends t p : ends (token_ident t) p (fun n p' => p' = p /\ is_null n = false).
Proof. done. Qed.
Lemma getp_ends {A} (f : Parser -> A) p : ends (getp f) p (fun a p' => a = f p /\ p' = p).
Proof. done. Qed.

Lemma le_refl p : wf p -> le p p.
Proof. intros Hw. pose proof (left_nonneg p Hw). unfold le. split_and!; [done|lia|lia]. Qed.

(** *** Going back *)

Lemma src_len_eq p q : wf p -> wf q -> src_len (lexer p) = src_len (lexer q).
Proof. intros Hp Hq. unfold src_len. by rewrite (wf_src _ Hp), (wf_src _ Hq). Qed.

(** To the start of a token that was held back in [q]. *)
Lemma rewind_start_ends q t p f :
  wf q -> at_tok q t -> t_type t <> TOK_EOF -> t_type t <> TOK_ERROR -> wf p ->
  (forall p, lexer (f p) = lexer p) ->
  ends (setp (fun p => with_lexer (rewind (start_of t) (lexer p)) (f p))) p
    (fun _ p' => wf p' /\ left p' = left q /\ has_peek (lexer p') = false /\
                 pos (lexer p') = start_of t /\ has_error p' = has_error (f p)).
Proof.
  intros Hq [Ht1 Ht2] Hne1 Hne2 Hw Hf. unfold ends, setp.
  destruct (left_cases q Hq) as (H1 & H2 & [[? _]|[_ H]]); [congruence|]. rewrite Ht2 in H.
  destruct H as [[? _]|[[? _]|(_ & _ & H & Hs)]]; try done.
  pose proof (wf_pos _ Hq) as Hp. pose proof (src_len_eq p q Hw Hq) as Es. unfold pos_ok in Hp.
  assert (wf (with_lexer (rewind (start_of t) (lexer p)) (f p))) as Hw'.
  { apply wf_fresh; [apply Hw| |done]. unfold pos_ok. cbn. change (src_len (rewind (start_of t) (lexer p)))
      with (src_len (lexer p)). lia. }
  split_and!; try done. rewrite left_fresh by done. unfold rest. cbn.
  change (src_len (rewind (start_of t) (lexer p))) with (src_len (lexer p)). rewrite H. lia.
Qed.

(** To a state that was saved. *)
Lemma restore_ends q p :
  wf q -> wf p ->
  ends (setp (fun p => with_lexer (lex_state_restore (lexer q) (lexer p)) p)) p
    (fun _ p' => wf p' /\ left p' = left q /\ keeps q p' /\ has_error p' = has_error p).
Proof.
  intros Hq Hw. unfold ends, setp. set (p' := with_lexer _ p).
  assert (src_len (lexer p') = src_len (lexer q)) as Es.
  { change (src_len (lexer p')) with (src_len (lexer p)). by apply src_len_eq. }
  split_and!; try done.
  - destruct Hq as [H1 H2 H3]. split.
    + apply Hw.
    + unfold pos_ok in *. rewrite Es. exact H2.
    + intros Hk. destruct (H3 Hk) as [H4 H5 H6]. split; [exact H4|by rewrite Es|exact H6].
  - unfold left, rest. rewrite Es. reflexivity.
  - by intros t Ht.
Qed.

(** *** Loops *)

Lemma ploop_ends {St A} (body : St -> P (A + St)) (I : Parser -> Prop) (Q : A -> Parser -> Prop) st p n :
  I p -> left p + 1 <= Z.of_nat n ->
  (forall p, I p -> 0 <= left p) ->
  (forall st p, I p -> ends (body st) p (fun r p' =>
     match r with inl a => Q a p' | inr _ => I p' /\ left p' < left p end)) ->
  ends (ploop body n st) p Q.
Proof.
  intros Hi Hn Hnn Hb. revert st p Hi Hn. induction n as [|n IH]; intros st p Hi Hn.
  - specialize (Hnn p Hi). lia.
  - cbn [ploop]. eapply ends_bind; [by apply Hb|]. intros [a|st'] p1 H; [by apply ends_ret|].
    destruct H. apply IH; [done|lia].
Qed.

(** A turn that is not guarded reads a token; a guarded one, or it fails. *)
Definition progress {A St} (p : Parser) (r : A + St) (p' : Parser) : Prop :=
  le p p' /\ match r with inl _ => True | inr _ => left p' < left p \/ has_error p' = true end.

Lemma until_ends {St} stop (body : St -> P (St + St)) st p n :
  wf p -> left p + 2 <= Z.of_nat n ->
  (forall st p', le p p' -> has_error p' = false -> ends (body st) p' (progress p')) ->
  ends (ploop (guarded stop body) n st) p (fun _ p' => le p p' /\ sticky p p').
Proof.
  intros Hw Hn Hb. destruct (has_error p) eqn:Ep.
  { destruct n as [|n]; [pose proof (left_nonneg p Hw); lia|]. cbn [ploop].
    unfold guarded, ends, mbind, P_bind, getp. rewrite Ep. split; [by apply le_refl|by intros _]. }
  eapply ends_weaken with (R := fun _ p' => le p p').
  2: { intros _ p' H. split; [done|]. unfold sticky. congruence. }
  assert (forall m st q, le p q -> (Z.to_nat (left q) <= m)%nat -> forall k,
    left q + 2 <= Z.of_nat k -> ends (ploop (guarded stop body) k st) q (fun _ p' => le p p')) as H.
  2: { apply (H (Z.to_nat (left p))); [by apply le_refl|lia|done]. }
  induction m as [m IH] using lt_wf_ind. intros st' q Hq Hm k Hk. destruct k as [|k].
  { destruct Hq. lia. }
  cbn [ploop]. unfold guarded at 1. eapply ends_bind.
  { eapply ends_bind; [apply getp_ends|]. intros e ? [-> ->].
    instantiate (1 := fun r p' => le p p' /\ match r with inl _ => True | inr _ =>
      has_error q = false /\ (left p' < left q \/ left p' <= left q /\ has_error p' = true) end).
    destruct (has_error q) eqn:Ee; [by apply ends_ret|].
    eapply ends_bind; [apply peek_any_ends, Hq|]. intros b p1 (H1 & H2 & _).
    destruct b; [apply ends_ret; tidily|].
    assert (le p p1) as H01 by tidily.
    eapply ends_weaken; [apply Hb; [done|congruence]|].
    intros r p2 [H3 H4]. destruct r; tidily. destruct H4 as [H4|H4]; [left; lia|right; split; [lia|done]]. }
  intros [a|st2] p1 [H1 H2]; [by apply ends_ret|]. destruct H2 as [He [H2|[H2 H3]]].
  - apply (IH (Z.to_nat (left p1))); first [done|tidy; lia].
  - destruct k as [|k]; [tidy; lia|]. cbn [ploop].
    unfold guarded, ends, mbind, P_bind, getp. rewrite H3. done.
Qed.

(** *** The forms the proofs of the grammar use *)

Lemma peek_steps type p :
  wf p -> type <> TOK_EOF ->
  ends (peek_token type) p (fun b p' => le p p' /\ same_error p p' /\ (readable p -> readable p') /\
    if b then readable p' else True).
Proof.
  intros Hw Hne. eapply ends_weaken; [by apply peek_ends|]. intros b p' (H1 & H2 & H3 & _ & H4).
  split_and!; try done; [by apply keeps_readable|]. destruct b; [|done].
  destruct (H4 eq_refl) as (t & Ht & E & _). exists t. split; [done|congruence].
Qed.

Lemma peek_any_steps types p :
  wf p -> forallb (fun t => negb (tok_eqb t TOK_EOF)) types = true ->
  ends (peek_any types) p (fun b p' => le p p' /\ same_error p p' /\ (readable p -> readable p') /\
    if b then readable p' else True).
Proof.
  intros Hw Hne. eapply ends_weaken; [by apply peek_any_ends|]. intros b p' (H1 & H2 & H3 & H4).
  split_and!; try done; [by apply keeps_readable|]. destruct b; [|done].
  destruct (H4 eq_refl) as (t & Ht & Hin & _). exists t. split; [done|]. intros E.
  rewrite forallb_forall in Hne. rewrite E in Hin. apply list_elem_of_In in Hin.
  specialize (Hne _ Hin). by rewrite tok_eqb_refl in Hne.
Qed.

Lemma peek_any_moves types p :
  wf p ->
  ends (peek_any types) p (fun _ p' => le p p' /\ same_error p p' /\ (readable p -> readable p')).
Proof.
  intros Hw. eapply ends_weaken; [by apply peek_any_ends|]. intros b p' (H1 & H2 & H3 & H4).
  split_and!; try done. by apply keeps_readable.
Qed.

Lemma match_steps type p :
  wf p -> type <> TOK_EOF ->
  ends (match_token type) p (fun b p' => le p p' /\ same_error p p' /\
    if b then left p' < left p /\ has_peek (lexer p') = false else True).
Proof.
  intros Hw Hne. eapply ends_weaken; [by apply match_ends|]. intros b p' (H1 & H2 & H3).
  split_and!; try done. destruct b; [|done]. destruct (H3 eq_refl) as (? & ? & ?). done.
Qed.

Lemma lpeek_steps p :
  wf p ->
  ends lpeek p (fun t p' => le p p' /\ same_error p p' /\ at_tok p' t /\ found (t_type t) /\
    (t_type t = TOK_EOF \/ readable p') /\ (readable p -> readable p')).
Proof.
  intros Hw. pose proof (lpeek_ends p Hw) as H1. pose proof (lpeek_keeps p Hw) as H2.
  unfold ends in *. destruct (lpeek p) as [[t p']| |]; [|done|done]. destruct H1 as (H1 & H3 & H4 & H5).
  split_and!; try done; [|by apply keeps_readable].
  destruct (tok_eqb_spec (t_type t) TOK_EOF) as [E|E]; [by left|right]. by exists t.
Qed.

Lemma template_steps p :
  wf p -> has_peek (lexer p) = false ->
  ends template_next p (fun _ p' => le p p' /\ same_error p p' /\ has_peek (lexer p') = false).
Proof.
  intros Hw Hk. pose proof Hw as [Hs Hp _]. unfold ends, template_next, lift, lexer_template_next.
  assert (exists t l', lex_template true (lexer p) = Some (t, l') /\ reaches (lexer p) l') as (t & l' & -> & Hr).
  { destruct (more (lexer p)) eqn:Em.
    - destruct (lex_template_ok true (lexer p) Hp Em) as ([t l'] & E & Hr & _). by exists t, l'.
    - unfold lex_template, lexer_peek_char. rewrite Z.geb_leb.
      unfold more in Em. apply Z.ltb_ge in Em. destruct (Z.leb_spec (src_len (lexer p)) (pos (lexer p))); [|lia].
      cbn [andb Z.eqb]. cbv zeta. unfold budget. cbn [loop]. unfold lex_template_body at 1.
      replace (more (lexer p)) with false by (symmetry; apply Z.ltb_ge; lia). cbn [negb].
      do 2 eexists. split; [reflexivity|]. cbn. reflexivity. }
  assert (wf (with_lexer l' p)) as Hw'
    by (apply wf_fresh; [by rewrite (r_src _ _ Hr)|by apply (r_ok _ _ Hr)|by rewrite (r_peek _ _ Hr)]).
  split_and!; [|done|cbn; by rewrite (r_peek _ _ Hr)]. split; [done|].
  split; [by apply left_nonneg|]. rewrite left_fresh by (by rewrite (r_peek _ _ Hr)).
  assert (left p = rest (lexer p)) as -> by (unfold left; by rewrite Hk).
  pose proof (r_pos _ _ Hr). unfold rest, src_len. rewrite (r_src _ _ Hr). lia.
Qed.

End Text.
