(* ===== verification/ParseTotal.v ===== *)
(** Every function of the parser ends ([ParseEnds.v]), given that the functions
    of the grammar it calls do; by induction on the fuel, so does the grammar.

    A function is called with at least four units of fuel per unit of [left] and
    a few more, its rank: a call on the same input has a smaller rank, any other
    call a smaller [left]. *)

From stdpp Require Import base list strings.
From Stdlib Require Import ZArith Lia SpecFloat Ascii.
From S2P Require Import Prelude.
From S2P Require Import LexText.
From S2P Require Import Lexer.
From S2P Require Import Ast.
From S2P Require Import ParseExpr.
From S2P Require Import ParseStmt.
From S2P Require Import ParseEnds.

Lemma ends_assoc {A B C} (m : P A) (f : A -> P B) (g : B -> P C) p Q :
  ends (m ≫= fun a => f a ≫= g) p Q -> ends ((m ≫= f) ≫= g) p Q.
Proof. unfold ends, mbind, P_bind. by destruct (m p) as [[a p']| |]. Qed.

Lemma ends_ret_bind {A B} (a : A) (f : A -> P B) p Q : ends (f a) p Q -> ends (mret a ≫= f) p Q.
Proof. done. Qed.

Section Total.

Context (text : list Z) (found : LRTokType -> Prop).

Hypothesis lexes_found : forall l t l',
  src l = text -> pos_ok l -> has_peek l = false -> lexer_next true l = Some (t, l') ->
  found (t_type t).

(** The text has no [switch], or no [async] and no [import]. *)
Hypothesis no_hang : found TOK_SWITCH -> ~ found TOK_ASYNC /\ ~ found TOK_IMPORT.

Context (self : grammar).

Abbreviation wf := (wf text found).
Abbreviation le := (le text found).

Definition fuel : Z := Z.of_nat (g_fuel self).

Definition fits (p : Parser) (rank : Z) : Prop := 4 * left p + rank + 3 <= fuel.

(** What is read: a token that is there, unless the parser has failed. *)
Definition reads (p p' : Parser) : Prop := le p p' /\ (readable p -> left p' < left p).
Definition reads_expr (p p' : Parser) : Prop :=
  le p p' /\ (readable p -> has_error p = false -> left p' < left p).

(** A statement reads something, fails, or is given back unread. *)
Definition unread (stmt : Node) (p p' : Parser) : Prop :=
  is_null stmt = true /\ has_peek (lexer p') = false /\ left p' = left p /\
  (found TOK_ASYNC \/ found TOK_IMPORT).
Definition reads_stmt (stmt : Node) (p p' : Parser) : Prop :=
  le p p' /\ (left p' < left p \/ has_error p' = true \/ unread stmt p p').

Hypothesis expr_ends : forall min p,
  0 <= min -> wf p -> fits p 2 -> ends (g_expr self min) p (fun _ p' => reads_expr p p').
Hypothesis primary_ends : forall p,
  wf p -> fits p 0 -> ends (g_primary self) p (fun _ p' => reads p p').
Hypothesis statement_ends : forall p,
  wf p -> fits p 3 -> ends (g_statement self) p (fun s p' => reads_stmt s p p').
Hypothesis block_ends : forall p,
  wf p -> fits p 0 -> ends (g_block self) p (fun _ p' => reads p p').
Hypothesis pattern_ends : forall p,
  wf p -> fits p 0 -> ends (g_pattern self) p (fun _ p' => le p p').
Hypothesis function_ends : forall a g d p,
  wf p -> fits p 1 -> ends (g_function self a g d) p (fun _ p' => le p p').
Hypothesis class_ends : forall p,
  wf p -> fits p 1 -> ends (g_class self) p (fun _ p' => le p p').

(** *** Automation *)

Ltac unfolds := unfold reads, reads_expr, reads_stmt, ParseEnds.le, same_error, sticky, progress in *.

(** Facts that are now available. *)
Ltac clean :=
  unfolds;
  repeat match goal with
  | H : _ /\ _ |- _ => destruct H
  | H : ex _ |- _ => destruct H
  | H : (_, _) = (_, _) |- _ => injection H; clear H; intros; subst
  | H : True |- _ => clear H
  | H : is_null AST_NULL = false |- _ => discriminate H
  | H : readable ?p -> _, H' : readable ?p |- _ => specialize (H H')
  | H : _ = TOK_EOF \/ _ |- _ => destruct H as [H|H]; [discriminate H|]
  | H : t_type ?t = TOK_EOF \/ _, E : t_type ?t = _ |- _ =>
      destruct H as [H|H]; [rewrite E in H; discriminate H|]
  | H : has_error ?p = false -> _ |- _ =>
      let E := fresh in assert (has_error p = false) as E by congruence; specialize (H E); clear E
  | H : has_error ?p = true \/ _, E : has_error ?p = false |- _ =>
      destruct H as [H|H]; [rewrite E in H; discriminate H|]
  | H : if true then _ else _ |- _ => cbn in H
  | H : if false then _ else _ |- _ => clear H
  end.

Ltac fit :=
  match goal with H : wf ?p |- context [left ?p] => pose proof (left_nonneg text found p H) | _ => idtac end;
  unfold fits, fuel in *; lia.

(** The side conditions of the rules. *)
Ltac side := first [assumption|discriminate|reflexivity|fit|congruence].

(** The rule of the step at hand. *)
Ltac rule :=
  first
  [ eapply expr_ends; side
  | eapply primary_ends; side
  | eapply statement_ends; side
  | eapply block_ends; side
  | eapply pattern_ends; side
  | eapply function_ends; side
  | eapply class_ends; side
  | eapply (peek_steps text found lexes_found); side
  | eapply (match_steps text found lexes_found); side
  | eapply (next_ends' text found lexes_found); side
  | eapply (skip_ends text found lexes_found); side
  | eapply (lpeek_steps text found lexes_found); side
  | eapply (expect_ends text found lexes_found); side
  | eapply (peek_any_steps text found lexes_found); side
  | eapply (peek_any_moves text found lexes_found); side
  | eapply (parser_error_ends text found); side
  | eapply (parser_error_token_ends text found); side
  | apply token_text_ends
  | apply token_ident_ends
  | apply getp_ends
  | eapply (template_steps text found); side ].

(** One step of the code; [known] solves the calls of functions already done. *)
Ltac step known :=
  cbv zeta beta;
  lazymatch goal with
  | |- ends (mret _) _ _ => apply ends_ret
  | |- ends crash _ _ => exact I
  | |- ends (mbind _ (mbind _ _)) _ _ => apply ends_assoc
  | |- ends (mbind _ (mret _)) _ _ => apply ends_ret_bind
  | |- ends (mbind _ (if negb ?b then _ else _)) _ _ => destruct b; cbn [negb]
  | |- ends (if negb ?b then _ else _) _ _ => destruct b; cbn [negb]
  | |- ends (mbind _ (if ?b then _ else _)) _ _ => first [is_var b; destruct b|destruct b eqn:?]
  | |- ends (mbind _ (match ?x with _ => _ end)) _ _ => destruct x eqn:?
  | |- ends (if ?b then _ else _) _ _ => first [is_var b; destruct b|destruct b eqn:?]
  | |- ends (match ?x with _ => _ end) _ _ => destruct x eqn:?
  | |- ends (mbind _ _) _ _ => eapply ends_bind; [first [rule|known]|intros; clean]
  | |- ends _ _ _ => eapply ends_weaken; [first [rule|known]|intros; clean]
  end; subst; clean.

Ltac steps known := clean; repeat step known.

(** An error that stays. *)
Ltac stays :=
  repeat match goal with
  | H : has_error _ = true -> has_error ?q = true |- has_error ?q = true => apply H
  end; congruence.

(** The postconditions. *)
Ltac post :=
  unfolds; intros; clean;
  repeat match goal with
  | |- _ /\ _ => split
  | |- context [if ?b then _ else _] => is_var b; destruct b; clean
  | |- match ?r with _ => _ end => first [destruct r|progress cbn]
  end; intros; clean;
  first [assumption|exact I|lia|eapply (left_nonneg text found); eassumption
        |congruence|left; lia|right; congruence|right; left; congruence
        |match goal with H : left ?q < _ \/ has_error ?q = true |- left ?q < _ \/ _ =>
           destruct H; [left; lia|right; assumption] end
        |stays
        |match goal with H : has_error ?q = true \/ left ?q < _ |- _ =>
           destruct H; [right; stays|left; lia] end
        |idtac].

Ltac auto_ends known := steps known; post.

(** ** Expressions *)

Lemma assignment_ends p :
  wf p -> fits p 2 -> ends (parse_assignment_expr self) p (fun _ p' => reads_expr p p').
Proof. by apply expr_ends. Qed.

(** The loops, with the fuel of the grammar. *)
Lemma turns_end {St A} (body : St -> P (A + St)) st p0 :
  wf p0 -> left p0 + 1 <= fuel ->
  (forall st p, le p0 p -> ends (body st) p (fun r p' =>
     le p p' /\ match r with inl _ => True | inr _ => left p' < left p end)) ->
  ends (ploop body (g_fuel self) st) p0 (fun _ p' => le p0 p').
Proof.
  intros Hw Hf Hb.
  apply (ploop_ends body (fun q => le p0 q) (fun _ q => le p0 q)); [by apply (le_refl text found)|fit|intros ? [_ ?]; lia|].
  intros st' q Hq. eapply ends_weaken; [by apply Hb|]. intros [a|st2] q' H; post.
Qed.

Lemma until_loop_ends {St} stop (body : St -> P (St + St)) st p0 :
  wf p0 -> left p0 + 2 <= fuel ->
  (has_error p0 = false ->
   forall st p, le p0 p -> has_error p = false -> ends (body st) p (progress text found p)) ->
  ends (ploop (guarded stop body) (g_fuel self) st) p0 (fun _ p' => le p0 p' /\ sticky p0 p').
Proof.
  intros Hw Hf Hb. destruct (has_error p0) eqn:E; [|apply (until_ends text found lexes_found); auto].
  pose proof (left_nonneg text found p0 Hw). destruct (g_fuel self) as [|n] eqn:En; [unfold fuel in Hf; lia|].
  cbn [ploop]. unfold guarded, ends, mbind, P_bind, getp. rewrite E.
  split; [by apply (le_refl text found)|unfold sticky; auto].
Qed.

Ltac loop_with lem := first [apply turns_end; [side|fit|lem]|apply until_loop_ends; [side|fit|lem]].

Lemma sequence_turn_ends st p :
  wf p -> fits p 0 -> ends (sequence_turn self st) p (fun r p' =>
    le p p' /\ match r with inl _ => True | inr _ => left p' < left p end).
Proof. intros Hw Hf. unfold sequence_turn. auto_ends ltac:(apply assignment_ends; side). Qed.

Lemma expression_ends p :
  wf p -> fits p 2 -> ends (parse_expression self) p (fun _ p' => reads_expr p p').
Proof.
  intros Hw Hf. unfold parse_expression.
  auto_ends ltac:(first [apply assignment_ends; side|loop_with ltac:(intros; apply sequence_turn_ends; post; side)]).
Qed.

Lemma args_turn_ends st p :
  wf p -> fits p 2 -> ends (args_turn self st) p (fun r p' =>
    le p p' /\ match r with inl _ => True | inr _ => left p' < left p end).
Proof. intros Hw Hf. unfold args_turn. auto_ends ltac:(apply assignment_ends; side). Qed.

Lemma args_ends p : wf p -> fits p 2 -> ends (parse_args self) p (fun _ p' => le p p').
Proof.
  intros Hw Hf. unfold parse_args.
  auto_ends ltac:(loop_with ltac:(intros; apply args_turn_ends; post; side)).
Qed.

Lemma arrow_body_ends p : wf p -> fits p 2 -> ends (parse_arrow_body self) p (fun _ p' => le p p').
Proof. intros Hw Hf. unfold parse_arrow_body. auto_ends ltac:(apply assignment_ends; side). Qed.

(** *** Templates *)

Lemma template_turn_ends st p :
  wf p -> fits p 2 -> has_error p = false ->
  ends (template_turn self st) p (progress text found p).
Proof.
  intros Hw Hf He. unfold template_turn. destruct st as [parts exprs].
  auto_ends ltac:(apply expression_ends; side).
Qed.

Lemma template_body_ends t p :
  wf p -> fits p 2 -> ends (parse_template_body self t) p (fun _ p' => le p p').
Proof.
  intros Hw Hf. unfold parse_template_body.
  auto_ends ltac:(loop_with ltac:(intros; apply template_turn_ends; post; side)).
Qed.

Lemma template_literal_ends tag p :
  wf p -> fits p 1 -> ends (parse_template_literal self tag) p (fun _ p' => reads p p').
Proof.
  intros Hw Hf. unfold parse_template_literal. auto_ends ltac:(apply template_body_ends; side).
Qed.

(** *** Postfix and binary expressions *)

(** A rule for a call, with its side conditions. *)
Ltac call lem := apply lem; post; side.

Lemma postfix_turn_ends st p :
  wf p -> fits p 1 -> ends (postfix_turn self st) p (progress text found p).
Proof.
  intros Hw Hf. unfold postfix_turn. eapply ends_bind; [rule|intros t p1 H; clean].
  destruct (t_type t) eqn:E;
    auto_ends ltac:(first [call args_ends|call expression_ends|call template_literal_ends]).
Qed.

Lemma postfix_ends st p :
  wf p -> fits p 1 -> ends (parse_postfix_expr self st) p (fun _ p' => le p p').
Proof.
  intros Hw Hf. unfold parse_postfix_expr.
  auto_ends ltac:(loop_with ltac:(intros; call postfix_turn_ends)).
Qed.

Lemma unary_ends p :
  wf p -> fits p 1 -> ends (parse_unary_expr self) p (fun _ p' => reads p p').
Proof. intros Hw Hf. unfold parse_unary_expr. auto_ends ltac:(call postfix_ends). Qed.

Lemma next_min_nonneg type prec : 0 <= prec -> 0 <= next_min type prec.
Proof. unfold next_min. destruct (_ || _); lia. Qed.

Lemma expr_turn_ends min st p :
  0 <= min -> wf p -> fits p 1 -> ends (expr_turn self min st) p (progress text found p).
Proof.
  intros Hm Hw Hf. unfold expr_turn. eapply ends_bind; [rule|intros t p1 H; clean]. cbv zeta.
  destruct (tok_eqb_spec (t_type t) TOK_ARROW) as [E|E].
  - destruct st; try exact I; auto_ends ltac:(call arrow_body_ends).
  - destruct (Z.ltb_spec (get_precedence (t_type t)) min) as [Hlt|Hle]; [apply ends_ret; post|].
    assert (t_type t <> TOK_EOF) as Hne by (intros Ht; rewrite Ht in Hle; cbn in Hle; lia).
    assert (readable p1) as Hr by tauto.
    assert (0 <= next_min (t_type t) (get_precedence (t_type t))) as Hnm by (apply next_min_nonneg; lia).
    destruct (tok_eqb_spec (t_type t) TOK_QUESTION) as [E'|E'];
      auto_ends ltac:(call assignment_ends).
Qed.

Lemma parse_expr_ends min p :
  0 <= min -> wf p -> 4 * left p + 2 + 3 <= fuel + 1 ->
  ends (parse_expr self min) p (fun _ p' => reads_expr p p').
Proof.
  intros Hm Hw Hf. unfold parse_expr, parse_unary_expr.
  auto_ends ltac:(first [call postfix_ends|loop_with ltac:(intros; call expr_turn_ends)]).
Qed.

(** *** Arrays, parameters and objects *)

Lemma array_turn_ends st p :
  wf p -> fits p 2 -> ends (array_turn self st) p (progress text found p).
Proof. intros Hw Hf. unfold array_turn. auto_ends ltac:(call assignment_ends). Qed.

Lemma array_ends p : wf p -> fits p 2 -> ends (parse_array_literal self) p (fun _ p' => le p p').
Proof.
  intros Hw Hf. unfold parse_array_literal.
  auto_ends ltac:(loop_with ltac:(intros; call array_turn_ends)).
Qed.

Lemma with_default_ends target p :
  wf p -> fits p 0 -> ends (with_default self target) p (fun _ p' => le p p').
Proof. intros Hw Hf. unfold with_default. auto_ends ltac:(call assignment_ends). Qed.

Lemma params_turn_ends st p :
  wf p -> fits p 0 -> has_error p = false -> ends (params_turn self st) p (progress text found p).
Proof.
  intros Hw Hf He. unfold params_turn. auto_ends ltac:(call with_default_ends).
Qed.

Lemma params_ends p : wf p -> fits p 0 -> ends (parse_params self) p (fun _ p' => le p p').
Proof.
  intros Hw Hf. unfold parse_params.
  auto_ends ltac:(loop_with ltac:(intros; call params_turn_ends)).
Qed.

Lemma end_property_ends props prop p :
  wf p -> ends (end_property props prop) p (fun r p' =>
    le p p' /\ match r with inl _ => True | inr _ => left p' < left p end).
Proof. intros Hw. unfold end_property. auto_ends ltac:(fail). Qed.

Lemma generator_ends props p :
  wf p -> fits p 2 -> readable p -> ends (generator_property self props) p (progress text found p).
Proof.
  intros Hw Hf Hr. unfold generator_property.
  auto_ends ltac:(first [call expression_ends|call end_property_ends]).
Qed.

Lemma looking_any_ends types p :
  wf p -> forallb (fun t => negb (tok_eqb t TOK_EOF)) types = true ->
  ends (looking (skip;; peek_any types)) p (fun _ p' => le p p' /\ same_error p p' /\
    (readable p -> readable p')).
Proof.
  intros Hw Ht. unfold looking. eapply ends_bind; [apply getp_ends|]. intros st ? [-> ->].
  do 2 step ltac:(fail). step ltac:(fail).
  eapply ends_bind; [eapply (restore_ends text found p); [exact Hw|assumption]|].
  intros _ p3 (G1 & G2 & G3 & G4). apply ends_ret.
  pose proof (left_nonneg text found p Hw). post. by apply (keeps_readable p).
Qed.

Lemma is_accessor_ends p :
  wf p -> ends is_accessor p (fun r p' => le p p' /\ same_error p p' /\
    (readable p -> readable p') /\ match r with Some _ => readable p' | None => True end).
Proof.
  intros Hw. unfold is_accessor. auto_ends ltac:(call looking_any_ends); auto.
Qed.

Lemma accessor_property_ends is_get props p :
  wf p -> fits p 2 -> readable p -> ends (accessor_property self is_get props) p (progress text found p).
Proof.
  intros Hw Hf Hr. unfold accessor_property.
  auto_ends ltac:(first [call params_ends|call end_property_ends]).
Qed.

Lemma colon_value_ends p : wf p -> fits p 2 -> ends (colon_value self) p (fun _ p' => le p p').
Proof. intros Hw Hf. unfold colon_value. auto_ends ltac:(call assignment_ends). Qed.

Lemma computed_property_ends p :
  wf p -> fits p 2 -> ends (computed_property self) p (fun _ p' => le p p').
Proof.
  intros Hw Hf. unfold computed_property.
  auto_ends ltac:(first [call expression_ends|call colon_value_ends]).
Qed.

Lemma literal_property_ends p :
  wf p -> fits p 2 -> ends (literal_property self) p (fun _ p' => le p p').
Proof. intros Hw Hf. unfold literal_property. auto_ends ltac:(call colon_value_ends). Qed.

Lemma named_property_ends t p :
  wf p -> fits p 2 -> ends (named_property self t) p (fun _ p' => le p p').
Proof.
  intros Hw Hf. unfold named_property.
  auto_ends ltac:(first [call assignment_ends|call with_default_ends]).
Qed.

Lemma object_turn_ends props p :
  wf p -> fits p 2 -> ends (object_turn self props) p (progress text found p).
Proof.
  intros Hw Hf. unfold object_turn.
  auto_ends ltac:(first [call generator_ends|call is_accessor_ends|call accessor_property_ends
    |call computed_property_ends|call literal_property_ends|call named_property_ends
    |call assignment_ends|call end_property_ends]).
Qed.

Lemma object_ends p : wf p -> fits p 2 -> ends (parse_object_literal self) p (fun _ p' => le p p').
Proof.
  intros Hw Hf. unfold parse_object_literal.
  auto_ends ltac:(loop_with ltac:(intros; call object_turn_ends)).
Qed.

(** *** Primary expressions *)

Lemma paren_ends p : wf p -> fits p 2 -> ends (parse_paren self) p (fun _ p' => le p p').
Proof.
  intros Hw Hf. unfold parse_paren.
  auto_ends ltac:(first [call expression_ends|call arrow_body_ends]).
Qed.

Lemma callee_turn_ends callee p :
  wf p -> fits p 1 -> ends (callee_turn self callee) p (fun r p' =>
    le p p' /\ match r with inl _ => True | inr _ => left p' < left p end).
Proof.
  intros Hw Hf. unfold callee_turn. eapply ends_bind; [apply getp_ends|]. intros e ? [-> ->].
  destruct (has_error p) eqn:E; [apply ends_ret; post|].
  eapply ends_bind; [rule|intros t p1 H; clean].
  destruct (t_type t) eqn:Et; auto_ends ltac:(call assignment_ends).
Qed.

Lemma new_ends p : wf p -> fits p 1 -> ends (parse_new self) p (fun _ p' => le p p').
Proof.
  intros Hw Hf. unfold parse_new.
  auto_ends ltac:(first [loop_with ltac:(intros; call callee_turn_ends)|call args_ends]).
Qed.

Lemma prefix_op_ends op p : wf p -> fits p 1 -> ends (prefix_op self op) p (fun _ p' => le p p').
Proof. intros Hw Hf. unfold prefix_op. auto_ends ltac:(call unary_ends). Qed.

Lemma yield_ends p : wf p -> fits p 2 -> ends (parse_yield self) p (fun _ p' => le p p').
Proof.
  intros Hw Hf. unfold parse_yield, is_expr_start. auto_ends ltac:(call assignment_ends).
Qed.

(** Back to the token [nt] that was held back in [q]. *)
Lemma rewind_ends q nt p f :
  wf q -> at_tok q nt -> t_type nt <> TOK_EOF -> t_type nt <> TOK_ERROR -> wf p ->
  (forall p, lexer (f p) = lexer p) ->
  ends (setp (fun p => with_lexer (rewind (start_of nt) (lexer p)) (f p))) p
    (fun _ p' => wf p' /\ left p' = left q).
Proof.
  intros. eapply ends_weaken; [by apply (rewind_start_ends text found q)|].
  intros _ p' (G1 & G2 & _). by split.
Qed.

(** Looking again finds the same token. *)
Lemma lpeek_again p t : at_tok p t -> ends lpeek p (fun t' p' => t' = t /\ p' = p).
Proof.
  intros [H1 H2]. unfold ends, lpeek, lift, lexer_peek. rewrite H1. destruct p. by split.
Qed.

Lemma async_name_ends p t :
  wf p -> fits p 1 -> at_tok p t -> t_type t = TOK_IDENTIFIER ->
  ends (async_name self) p (fun _ p' => le p p').
Proof.
  intros Hw Hf Ht Ety. unfold async_name.
  assert (readable p) as Hr by (exists t; split; [done|congruence]).
  eapply ends_bind; [by apply lpeek_again|]. intros nt ? [-> ->].
  auto_ends ltac:(first [call arrow_body_ends|
    eapply (rewind_ends p t _ (fun q => q)); [assumption|assumption|congruence|congruence|assumption|reflexivity]]).
Qed.

Lemma async_paren_ends p t :
  wf p -> fits p 1 -> at_tok p t -> t_type t = TOK_LPAREN ->
  ends (async_paren self) p (fun _ p' => le p p').
Proof.
  intros Hw Hf Ht Ety. unfold async_paren.
  eapply ends_bind; [by apply lpeek_again|]. intros nt ? [-> ->].
  auto_ends ltac:(eapply (rewind_ends p t _ clear_error);
    [assumption|assumption|congruence|congruence|assumption|reflexivity]).
Qed.

Lemma async_ends p : wf p -> fits p 1 -> ends (parse_async self) p (fun _ p' => le p p').
Proof.
  intros Hw Hf. unfold parse_async.
  auto_ends ltac:(first [eapply async_paren_ends; [side|side|eassumption|assumption]
    |eapply async_name_ends; [side|side|eassumption|assumption]]).
Qed.

Lemma import_expr_ends p : wf p -> fits p 1 -> ends (parse_import_expr self) p (fun _ p' => le p p').
Proof. intros Hw Hf. unfold parse_import_expr. auto_ends ltac:(call assignment_ends). Qed.

Lemma regexp_ends t p : wf p -> ends (parse_regexp t) p (fun _ p' => le p p').
Proof. intros Hw. unfold parse_regexp. auto_ends ltac:(fail). Qed.

Lemma primary_expr_ends p :
  wf p -> 4 * left p + 0 + 3 <= fuel + 1 ->
  ends (parse_primary_expr self) p (fun _ p' => reads p p').
Proof.
  intros Hw Hf. unfold parse_primary_expr. eapply ends_bind; [rule|intros t p1 H; clean].
  destruct (t_type t) eqn:E;
    auto_ends ltac:(first [call regexp_ends|call template_literal_ends|call template_body_ends
      |call paren_ends|call array_ends|call object_ends|call new_ends|call prefix_op_ends
      |call unary_ends|call yield_ends|call async_ends|call import_expr_ends|call assignment_ends]).
Qed.

(** ** Functions, patterns and blocks *)

Lemma parse_function_ends a g d p :
  wf p -> 4 * left p + 1 + 3 <= fuel + 1 ->
  ends (parse_function self a g d) p (fun _ p' => le p p').
Proof. intros Hw Hf. unfold parse_function. auto_ends ltac:(call params_ends). Qed.

Lemma pattern_target_ends p :
  wf p -> fits p 0 -> ends (pattern_target self) p (fun _ p' => le p p').
Proof. intros Hw Hf. unfold pattern_target, pattern_name. auto_ends ltac:(fail). Qed.

Lemma pattern_array_turn_ends st p :
  wf p -> fits p 2 -> ends (pattern_array_turn self st) p (progress text found p).
Proof.
  intros Hw Hf. unfold pattern_array_turn.
  auto_ends ltac:(first [call pattern_target_ends|call with_default_ends]).
Qed.

Lemma pattern_object_turn_ends st p :
  wf p -> fits p 2 -> ends (pattern_object_turn self st) p (progress text found p).
Proof.
  intros Hw Hf. unfold pattern_object_turn.
  auto_ends ltac:(first [call pattern_target_ends|call with_default_ends]).
Qed.

Lemma parse_pattern_ends p :
  wf p -> 4 * left p + 0 + 3 <= fuel + 1 -> ends (parse_pattern self) p (fun _ p' => le p p').
Proof.
  intros Hw Hf. unfold parse_pattern. eapply ends_bind; [rule|intros t p1 H; clean].
  destruct (t_type t) eqn:E;
    auto_ends ltac:(loop_with ltac:(intros; first [call pattern_array_turn_ends|call pattern_object_turn_ends])).
Qed.

(** The position of a statement that was given back is the start of its first
    token. *)
Lemma still_at_unread t p p' :
  wf p -> at_tok p t -> wf p' -> has_peek (lexer p') = false -> left p' = left p ->
  still_at t p' = true.
Proof.
  intros Hw [Hk Ht] Hw' Hk' Hl. destruct (left_cases text found p Hw) as (H1 & H2 & [[? _]|[_ H]]); [congruence|].
  rewrite Ht in H. pose proof (wf_peek _ _ _ Hw Hk) as [_ He Ho]. rewrite Ht in He, Ho.
  assert (left p' = rest (lexer p')) as El by (unfold left; by rewrite Hk').
  pose proof (src_len_eq text found p p' Hw Hw') as Es. unfold rest in *. unfold still_at.
  pose proof (wf_pos _ _ _ Hw') as Hp'. unfold pos_ok in Hp'.
  destruct H as [(H & H3 & H4)|[(H & H3)|(H & H3 & H4 & H5)]].
  - destruct (He H) as [-> _]. apply Z.eqb_eq. lia.
  - exfalso. lia.
  - destruct (Ho H H3) as [-> _]. apply Z.eqb_eq. lia.
Qed.

Lemma block_turn_ends st p :
  wf p -> fits p 3 -> has_error p = false -> ends (block_turn self st) p (progress text found p).
Proof.
  intros Hw Hf He. unfold block_turn.
  eapply ends_bind; [apply (lpeek_ends text found lexes_found); exact Hw|]. intros t p1 (L1 & L2 & Ht & _).
  eapply ends_bind; [apply statement_ends; [apply L1|destruct L1; fit]|]. intros stmt p2 (S1 & S2).
  eapply ends_bind; [apply getp_ends|]. intros e ? [-> ->].
  destruct (negb (is_null stmt)) eqn:En; cbn [orb].
  { apply ends_ret. post. destruct S2 as [S2|[S2|(S2 & _)]]; [left; lia|by right|].
    by rewrite S2 in En. }
  destruct (has_error p2) eqn:E2; [apply ends_ret; post|].
  eapply ends_bind; [apply getp_ends|]. intros b ? [-> ->].
  destruct S2 as [S2|[S2|(_ & S2 & S3 & _)]]; [|congruence|].
  - destruct (still_at t p2); auto_ends ltac:(fail).
  - rewrite (still_at_unread t p1 p2); try done; [|apply L1|apply S1].
    eapply ends_bind; [apply (next_ends text found lexes_found), S1|]. intros t' p3 (N1 & N2 & _ & _ & _ & N3).
    destruct (tok_eqb_spec (t_type t') TOK_EOF) as [E3|E3]; apply ends_ret; post.
    left. destruct N3; [done|lia].
Qed.

Lemma parse_block_ends p :
  wf p -> 4 * left p + 0 + 3 <= fuel + 1 -> ends (parse_block self) p (fun _ p' => reads p p').
Proof.
  intros Hw Hf. unfold parse_block. auto_ends ltac:(loop_with ltac:(intros; call block_turn_ends)).
Qed.

(** ** Declarations and modules *)

Lemma declarator_turn_ends d a st p :
  wf p -> fits p 0 -> has_error p = false -> ends (declarator_turn self d a st) p (progress text found p).
Proof. intros Hw Hf He. unfold declarator_turn. auto_ends ltac:(call assignment_ends). Qed.

Lemma var_declaration_ends d a p :
  wf p -> fits p 0 -> ends (parse_var_declaration self d a) p (fun _ p' => le p p').
Proof.
  intros Hw Hf. unfold parse_var_declaration.
  auto_ends ltac:(loop_with ltac:(intros; call declarator_turn_ends)).
Qed.

Lemma alias_ends p :
  wf p -> ends parse_alias p (fun _ p' => le p p' /\ sticky p p').
Proof. intros Hw. unfold parse_alias. auto_ends ltac:(fail). Qed.

Lemma import_specifier_ends b st p :
  wf p -> has_error p = false -> ends (import_specifier_turn b st) p (progress text found p).
Proof. intros Hw He. unfold import_specifier_turn. auto_ends ltac:(call alias_ends). Qed.

Lemma from_clause_ends specs p :
  wf p -> ends (from_clause specs) p (fun _ p' => le p p' /\ sticky p p').
Proof. intros Hw. unfold from_clause. auto_ends ltac:(fail). Qed.

Lemma import_default_ends p :
  wf p -> fits p 0 -> ends (import_default self) p (fun _ p' => le p p' /\ sticky p p').
Proof.
  intros Hw Hf. unfold import_default.
  auto_ends ltac:(loop_with ltac:(intros; call import_specifier_ends)).
Qed.

Lemma import_decl_ends p :
  wf p -> fits p 0 ->
  ends (parse_import_decl self) p (fun _ p' => le p p' /\ (left p' < left p \/ has_error p' = true)).
Proof.
  intros Hw Hf. unfold parse_import_decl.
  auto_ends ltac:(first [call from_clause_ends|call import_default_ends
    |loop_with ltac:(intros; call import_specifier_ends)]).
Qed.

Lemma export_source_ends p : wf p -> ends export_source p (fun _ p' => le p p').
Proof. intros Hw. unfold export_source. auto_ends ltac:(fail). Qed.

(** To a position at or after the one that was left. *)
Lemma rewind_pos_ends q p :
  wf q -> readable q -> wf p -> left p <= left q ->
  ends (setp (fun p => with_lexer (rewind (pos (lexer q)) (lexer p)) p)) p
    (fun _ p' => wf p' /\ left p' <= left q /\ 0 <= left p').
Proof.
  intros Hq (t & [Hk Ht] & Hne) Hw Hle. unfold ends, setp.
  destruct (left_cases text found q Hq) as (H1 & H2 & [[? _]|[_ H]]); [congruence|]. rewrite Ht in H.
  pose proof (wf_pos _ _ _ Hq) as Hp. pose proof (src_len_eq text found p q Hw Hq) as Es. unfold pos_ok in Hp.
  assert (wf (with_lexer (rewind (pos (lexer q)) (lexer p)) p)) as Hw'.
  { apply wf_fresh; [apply Hw| |done]. unfold pos_ok. cbn.
    change (src_len (rewind (pos (lexer q)) (lexer p))) with (src_len (lexer p)). lia. }
  split_and!; [done| |by apply (left_nonneg text found)].
  rewrite left_fresh by done. unfold rest in *. cbn.
  change (src_len (rewind (pos (lexer q)) (lexer p))) with (src_len (lexer p)).
  destruct H as [[? _]|[H|H]]; [done|lia|lia].
Qed.

Lemma export_async_ends d p :
  wf p -> fits p 1 -> readable p -> ends (export_async self d) p (fun _ p' => le p p').
Proof.
  intros Hw Hf Hr. unfold export_async. eapply ends_bind; [apply getp_ends|]. intros save ? [-> ->].
  auto_ends ltac:(eapply (rewind_pos_ends p); [assumption|assumption|assumption|lia]).
Qed.

Lemma export_default_value_ends p :
  wf p -> fits p 2 -> ends (export_default_value self) p (fun _ p' => le p p').
Proof.
  intros Hw Hf. unfold export_default_value.
  auto_ends ltac:(first [call export_async_ends|call assignment_ends]).
Qed.

Lemma export_specifier_ends st p :
  wf p -> has_error p = false -> ends (export_specifier_turn st) p (progress text found p).
Proof. intros Hw He. unfold export_specifier_turn. auto_ends ltac:(call alias_ends). Qed.

Lemma export_declaration_ends p :
  wf p -> fits p 2 -> ends (export_declaration self) p (fun _ p' => le p p').
Proof.
  intros Hw Hf. unfold export_declaration.
  auto_ends ltac:(first [call var_declaration_ends|call export_async_ends]).
Qed.

Lemma export_decl_ends p :
  wf p -> fits p 2 -> readable p -> ends (parse_export_decl self) p (fun _ p' => reads p p').
Proof.
  intros Hw Hf Hr. unfold parse_export_decl.
  auto_ends ltac:(first [call export_default_value_ends|call export_source_ends
    |loop_with ltac:(intros; call export_specifier_ends)|call export_declaration_ends]).
Qed.

(** ** Classes *)

Lemma modifier_ends types p :
  wf p -> forallb (fun t => negb (tok_eqb t TOK_EOF)) types = true ->
  ends (modifier types) p (fun b p' => le p p' /\ same_error p p' /\
    if b then left p' < left p else readable p -> readable p').
Proof.
  intros Hw Ht. unfold modifier. eapply ends_bind; [rule|intros b p1 H; clean].
  destruct b; [clean|apply ends_ret; post].
  eapply ends_bind; [apply getp_ends|]. intros st ? [-> ->].
  do 2 step ltac:(fail). step ltac:(fail).
  - eapply ends_bind; [eapply (restore_ends text found p1); assumption|].
    intros _ p3 (G1 & G2 & G3 & G4). apply ends_ret. post. by eapply keeps_readable.
  - apply ends_ret. post.
Qed.

(** A token with a text, or one that can name a member, is there. *)
Lemma member_name_ends p :
  wf p ->
  ends (kt ← next_token; name ← token_text kt;
        if member_name_tok (t_type kt) || member_start (at_ (default [] name) 0)
        then mret (Some (AST_NULL, name))
        else parser_error_token kt "expected class member name";; mret None) p
    (fun r p' => le p p' /\ match r with Some _ => left p' < left p | None => True end).
Proof.
  intros Hw. pose proof (next_ends' text found lexes_found p Hw) as H1.
  pose proof (next_eof_len text found lexes_found p Hw) as H2.
  unfold ends at 1. unfold mbind at 1, P_bind at 1. unfold ends in H1, H2.
  destruct (next_token p) as [[t p1]| |]; [|done|done]. clean.
  change (ends (name ← token_text t;
        if member_name_tok (t_type t) || member_start (at_ (default [] name) 0)
        then mret (Some (AST_NULL, name))
        else parser_error_token t "expected class member name";; mret None) p1
    (fun r p' => le p p' /\ match r with Some _ => left p' < left p | None => True end)).
  eapply ends_bind.
  { instantiate (1 := fun a p' => p' = p1 /\ (t_len t = 0 -> a = None)).
    unfold ends, token_text, token_chars. split; [done|]. by intros ->. }
  intros name ? [-> Hname]. destruct (_ || _) eqn:E; [|auto_ends ltac:(fail)].
  apply ends_ret. post. match goal with H : _ \/ left p1 < left p |- _ => destruct H as [Ht|]; [|done] end.
  rewrite (Hname (H2 Ht)), Ht in E. done.
Qed.

Lemma member_key_ends p :
  wf p -> fits p 0 -> ends (member_key self) p (fun r p' => le p p' /\
    match r with Some _ => left p' < left p | None => True end).
Proof.
  intros Hw Hf. unfold member_key.
  step ltac:(fail). step ltac:(fail); [auto_ends ltac:(call expression_ends)|].
  step ltac:(fail). step ltac:(fail); [auto_ends ltac:(fail)|].
  eapply ends_weaken; [apply member_name_ends; assumption|]. intros r q Hr. post.
Qed.

Lemma class_member_ends static st p :
  wf p -> fits p 0 -> ends (class_member self static st) p (fun r p' =>
    le p p' /\ match r with inl _ => True | inr _ => left p' < left p end).
Proof.
  intros Hw Hf. unfold class_member.
  auto_ends ltac:(first [call modifier_ends|call member_key_ends|call params_ends|call assignment_ends]).
Qed.

Lemma class_turn_ends st p :
  wf p -> fits p 0 -> ends (class_turn self st) p (progress text found p).
Proof.
  intros Hw Hf. unfold class_turn.
  auto_ends ltac:(first [call modifier_ends|call class_member_ends]).
Qed.

Lemma class_decl_ends p :
  wf p -> 4 * left p + 1 + 3 <= fuel + 1 -> ends (parse_class_decl self) p (fun _ p' => le p p').
Proof.
  intros Hw Hf. unfold parse_class_decl.
  auto_ends ltac:(first [call expression_ends|loop_with ltac:(intros; call class_turn_ends)]).
Qed.

(** ** Statements *)

Lemma optional_ends stop p :
  wf p -> fits p 2 -> stop <> TOK_EOF -> ends (optional_expression self stop) p (fun _ p' => le p p').
Proof. intros Hw Hf Hs. unfold optional_expression. auto_ends ltac:(call expression_ends). Qed.

Lemma if_ends p : wf p -> fits p 3 -> ends (parse_if self) p (fun _ p' => le p p').
Proof. intros Hw Hf. unfold parse_if. auto_ends ltac:(call expression_ends). Qed.

Lemma for_each_ends build p :
  wf p -> fits p 3 -> ends (for_each_rest self build) p (fun _ p' => le p p').
Proof. intros Hw Hf. unfold for_each_rest. auto_ends ltac:(call expression_ends). Qed.

Lemma for_ends p : wf p -> fits p 3 -> ends (parse_for self) p (fun _ p' => le p p').
Proof.
  intros Hw Hf. unfold parse_for.
  auto_ends ltac:(first [call var_declaration_ends|call optional_ends|call for_each_ends]).
Qed.

Lemma while_ends p : wf p -> fits p 3 -> ends (parse_while self) p (fun _ p' => le p p').
Proof. intros Hw Hf. unfold parse_while. auto_ends ltac:(call expression_ends). Qed.

Lemma do_ends p : wf p -> fits p 3 -> ends (parse_do self) p (fun _ p' => le p p').
Proof. intros Hw Hf. unfold parse_do. auto_ends ltac:(call expression_ends). Qed.

Lemma case_turn_ends st p :
  wf p -> fits p 3 -> found TOK_SWITCH -> ends (case_turn self st) p (progress text found p).
Proof.
  intros Hw Hf Hs. destruct (no_hang Hs) as [Ha Hi]. unfold case_turn.
  eapply ends_bind; [apply statement_ends; side|]. intros s q [Q1 Q2]. apply ends_ret. post.
  destruct Q2 as [Q2|[Q2|(_ & _ & _ & [Q2|Q2])]]; [by left|by right|done|done].
Qed.

Lemma case_body_ends p :
  wf p -> fits p 3 -> found TOK_SWITCH -> ends (case_body self) p (fun _ p' => le p p').
Proof.
  intros Hw Hf Hs. unfold case_body.
  auto_ends ltac:(loop_with ltac:(intros; call case_turn_ends)).
Qed.

Lemma switch_turn_ends st p :
  wf p -> fits p 3 -> found TOK_SWITCH -> ends (switch_turn self st) p (progress text found p).
Proof.
  intros Hw Hf Hs. unfold switch_turn.
  auto_ends ltac:(first [call expression_ends|call case_body_ends]).
Qed.

Lemma switch_ends p :
  wf p -> fits p 3 -> found TOK_SWITCH -> ends (parse_switch self) p (fun _ p' => le p p').
Proof.
  intros Hw Hf Hs. unfold parse_switch.
  auto_ends ltac:(first [call expression_ends|loop_with ltac:(intros; call switch_turn_ends)]).
Qed.

Lemma jump_label_ends p : wf p -> ends jump_label p (fun _ p' => le p p').
Proof. intros Hw. unfold jump_label. auto_ends ltac:(fail). Qed.

Lemma return_ends p : wf p -> fits p 3 -> ends (parse_return self) p (fun _ p' => le p p').
Proof. intros Hw Hf. unfold parse_return, is_expr_start. auto_ends ltac:(call expression_ends). Qed.

Lemma throw_ends p : wf p -> fits p 3 -> ends (parse_throw self) p (fun _ p' => le p p').
Proof. intros Hw Hf. unfold parse_throw. auto_ends ltac:(call expression_ends). Qed.

Lemma try_ends p : wf p -> fits p 3 -> ends (parse_try self) p (fun _ p' => le p p').
Proof. intros Hw Hf. unfold parse_try, catch_binding. auto_ends ltac:(fail). Qed.

(** An expression, or an error. *)
Lemma expression_statement_ends t p :
  wf p -> fits p 2 -> has_error p = false ->
  ends (expression_statement self t) p
    (fun _ p' => le p p' /\ (left p' < left p \/ has_error p' = true)).
Proof.
  intros Hw Hf He. unfold expression_statement, is_expr_start.
  step ltac:(fail). step ltac:(fail). step ltac:(fail). step ltac:(fail).
  - assert (readable p') as Hr.
    { match goal with H : _ \/ readable p' |- _ => destruct H as [Ht|Hr]; [|exact Hr] end.
      match goal with H : expr_start_tok _ = true |- _ => rewrite Ht in H; discriminate H end. }
    auto_ends ltac:(call expression_ends).
  - auto_ends ltac:(fail).
Qed.

Lemma identifier_statement_ends t p :
  wf p -> fits p 2 -> has_error p = false -> at_tok p t -> t_type t = TOK_IDENTIFIER ->
  ends (identifier_statement self t) p
    (fun _ p' => le p p' /\ (left p' < left p \/ has_error p' = true)).
Proof.
  intros Hw Hf He Ht Ety. unfold identifier_statement.
  assert (readable p) as Hr by (exists t; split; [done|congruence]).
  do 3 step ltac:(fail); [auto_ends ltac:(fail)|].
  eapply ends_bind; [apply (rewind_start_ends text found p t _ (fun q => q)); try congruence; assumption|].
  intros _ q (Q1 & Q2 & Q3 & Q4 & Q5).
  eapply ends_weaken; [apply expression_statement_ends; [exact Q1|fit|congruence]|].
  intros s q' Hq'. post.
Qed.

Lemma async_statement_ends t p :
  wf p -> fits p 2 -> at_tok p t -> t_type t = TOK_ASYNC -> found TOK_ASYNC ->
  ends (async_statement self t) p (fun s p' => reads_stmt s p p').
Proof.
  intros Hw Hf Ht Ety Hfd. unfold async_statement.
  assert (readable p) as Hr by (exists t; split; [done|congruence]).
  do 3 step ltac:(fail); [auto_ends ltac:(fail)|].
  eapply ends_bind; [apply (rewind_start_ends text found p t _ (fun q => q)); try congruence; assumption|].
  intros _ q (Q1 & Q2 & Q3 & Q4 & Q5). apply ends_ret. post.
  right. right. unfold unread. auto.
Qed.

Lemma import_statement_ends t p :
  wf p -> fits p 2 -> at_tok p t -> t_type t = TOK_IMPORT -> found TOK_IMPORT ->
  ends (import_statement self t) p (fun s p' => reads_stmt s p p').
Proof.
  intros Hw Hf Ht Ety Hfd. unfold import_statement.
  assert (readable p) as Hr by (exists t; split; [done|congruence]).
  do 2 step ltac:(fail).
  eapply ends_bind; [apply (rewind_start_ends text found p t _ (fun q => q)); try congruence; assumption|].
  intros _ q (Q1 & Q2 & Q3 & Q4 & Q5). destruct a0.
  - apply ends_ret. post. right. right. unfold unread. auto.
  - eapply ends_weaken; [apply import_decl_ends; [exact Q1|fit]|]. intros s q' Hq'. post.
    match goal with H : _ \/ has_error q' = true |- _ => destruct H; [left; lia|right; by left] end.
Qed.

Lemma parse_statement_ends p :
  wf p -> 4 * left p + 3 + 3 <= fuel + 1 ->
  ends (parse_statement self) p (fun s p' => reads_stmt s p p').
Proof.
  intros Hw Hf. unfold parse_statement.
  eapply ends_bind; [apply getp_ends|]. intros e ? [-> ->].
  destruct (has_error p) eqn:E; [apply ends_ret; pose proof (left_nonneg text found p Hw); post|].
  eapply ends_bind; [rule|intros t p1 H; clean].
  destruct (t_type t) eqn:Et;
    auto_ends ltac:(first [call var_declaration_ends|call if_ends|call for_ends|call while_ends
      |call do_ends|call switch_ends|call jump_label_ends|call return_ends|call throw_ends|call try_ends
      |call export_decl_ends|call expression_statement_ends
      |eapply async_statement_ends; [side|side|eassumption|assumption|assumption]
      |eapply import_statement_ends; [side|side|eassumption|assumption|assumption]
      |eapply identifier_statement_ends; [side|side|side|eassumption|assumption]]).
  all: match goal with
  | H : left ?q < _ \/ has_error ?q = true |- _ => destruct H; [left; lia|right; by left]
  | H : left ?q < _ \/ has_error ?q = true \/ _ |- _ =>
      destruct H as [H|[H|(U1 & U2 & U3 & U4)]]; [left; lia|right; by left|];
      destruct (Z.eq_dec (left p1) (left p)); [right; right; split_and!; (done || lia)|left; lia]
  end.
Qed.

End Total.

(** ** The grammar *)

Section Knot.

Context (text : list Z) (found : LRTokType -> Prop).

Hypothesis lexes_found : forall l t l',
  src l = text -> pos_ok l -> has_peek l = false -> lexer_next true l = Some (t, l') ->
  found (t_type t).
Hypothesis no_hang : found TOK_SWITCH -> ~ found TOK_ASYNC /\ ~ found TOK_IMPORT.

Abbreviation wf := (wf text found).
Abbreviation le := (le text found).

(** What the record of the functions promises. *)
Record grammar_ends (self : grammar) : Prop := {
  ge_expr : forall min p, 0 <= min -> wf p -> fits self p 2 ->
    ends (g_expr self min) p (fun _ p' => reads_expr text found p p');
  ge_primary : forall p, wf p -> fits self p 0 ->
    ends (g_primary self) p (fun _ p' => reads text found p p');
  ge_statement : forall p, wf p -> fits self p 3 ->
    ends (g_statement self) p (fun s p' => reads_stmt text found s p p');
  ge_block : forall p, wf p -> fits self p 0 ->
    ends (g_block self) p (fun _ p' => reads text found p p');
  ge_pattern : forall p, wf p -> fits self p 0 -> ends (g_pattern self) p (fun _ p' => le p p');
  ge_function : forall a g d p, wf p -> fits self p 1 ->
    ends (g_function self a g d) p (fun _ p' => le p p');
  ge_class : forall p, wf p -> fits self p 1 -> ends (g_class self) p (fun _ p' => le p p')
}.

Lemma grammar_fuel n : g_fuel (grammar_at n) = n.
Proof. by destruct n. Qed.

Lemma grammar_at_ends n : grammar_ends (grammar_at n).
Proof.
  induction n as [|n IH].
  - split; intros; exfalso; unfold fits, fuel in *; cbn [grammar_at g_fuel] in *;
      match goal with H : wf ?p |- _ => pose proof (left_nonneg text found p H) end; lia.
  - destruct IH. assert (fuel (grammar_at (S n)) = fuel (grammar_at n) + 1) as Ef
      by (unfold fuel; rewrite !grammar_fuel; lia).
    split; unfold fits; rewrite Ef; cbn [grammar_at g_expr g_primary g_statement g_block g_pattern
      g_function g_class]; intros.
    + by apply parse_expr_ends.
    + by apply primary_expr_ends.
    + by apply parse_statement_ends.
    + by apply parse_block_ends.
    + by apply parse_pattern_ends.
    + by apply parse_function_ends.
    + by apply class_decl_ends.
Qed.

Lemma program_turn_ends n stmts p :
  wf p -> 4 * left p + 6 <= Z.of_nat n -> has_error p = false ->
  ends (program_turn (grammar_at n) stmts) p (progress text found p).
Proof.
  intros Hw Hn He. unfold program_turn.
  eapply ends_bind; [apply (ge_statement _ (grammar_at_ends n)); [exact Hw|]|].
  { unfold fits, fuel. rewrite grammar_fuel. lia. }
  intros stmt p1 [[Hw1 Hl1] S]. eapply ends_bind; [apply getp_ends|]. intros e ? [-> ->].
  destruct (negb (is_null stmt) || has_error p1) eqn:E.
  - apply ends_ret. split; [done|]. destruct S as [S|[S|(S & _)]]; [by left|by right|].
    rewrite S in E. by right.
  - eapply ends_bind; [by apply (next_ends text found lexes_found)|]. intros t p2 (N1 & N2 & _ & _ & _ & N3).
    destruct N1 as [N1 N4].
    destruct (tok_eqb_spec (t_type t) TOK_EOF); apply ends_ret; (split; [split; [done|lia]|]); [done|].
    left. destruct N3; [done|lia].
Qed.

(** Eight units of fuel per byte, and eight more. *)
Lemma program_ends n :
  (8 * length text + 8 <= n)%nat ->
  ends (parse_program n) (parser_init (lexer_init text)) (fun _ p' => le (parser_init (lexer_init text)) p').
Proof.
  intros Hn. set (p0 := parser_init (lexer_init text)).
  assert (wf p0) as Hw by (split; [done|apply lexer_init_ok|done]).
  assert (left p0 = 2 * zlen text) as El by (unfold left, rest, src_len; cbn; lia).
  unfold zlen in El. unfold parse_program.
  eapply ends_bind; [apply (until_ends text found lexes_found); [exact Hw|lia|]|].
  - intros st p [Hp Hl] He. apply program_turn_ends; [done|lia|done].
  - intros stmts p [H _]. by apply ends_ret.
Qed.

End Knot.
