(* ===== verification/ParseProps.v ===== *)
(** Properties of the parser: it returns on every text without [switch], or
    without [async] and [import]; where it does not return, where it crashes,
    and where it drops tokens. *)

From stdpp Require Import base list strings.
From Stdlib Require Import ZArith Lia SpecFloat Ascii.
From S2P Require Import Prelude.
From S2P Require Import LexText.
From S2P Require Import Lexer.
From S2P Require Import Ast.
From S2P Require Import ParseExpr.
From S2P Require Import ParseStmt.
From S2P Require Import ParseEnds.
From S2P Require Import ParseTotal.

(** ** The keywords of a text *)

(** [w] is written somewhere in the text. *)
Definition occurs (w : string) (text : list Z) : Prop :=
  exists a b, text = a ++ chars_of w ++ b.

Lemma slice_occurs {A} i n (l : list A) : exists a b, l = a ++ slice i n l ++ b.
Proof.
  exists (take (Z.to_nat i) l), (drop (Z.to_nat n) (drop (Z.to_nat i) l)).
  unfold slice. by rewrite take_drop, take_drop.
Qed.

(** A keyword token comes from its word. *)
Definition from_word (text : list Z) (r : Token * Lexer) : Prop :=
  is_keyword_tok (t_type r.1) = true ->
  exists a w b, text = a ++ w ++ b /\ lookup_keyword w = t_type r.1.

Lemma made_type type start l : t_type (make_token_from type start l).1 = type.
Proof. done. Qed.

Lemma loop_result {St A} (body : St -> A + St) (Q : A -> Prop) n st a :
  (forall st a, body st = inl a -> Q a) -> loop body n st = Some a -> Q a.
Proof.
  intros Hb. revert st. induction n as [|n IH]; intros st; cbn [loop]; [done|].
  destruct (body st) eqn:E; [|apply IH]. intros [= <-]. by eapply Hb.
Qed.

Definition plain (r : Token * Lexer) : Prop := is_keyword_tok (t_type r.1) = false.

Lemma error_plain msg len start l : plain (error_token msg len start l).
Proof. unfold plain, error_token. by destruct (make_token_from _ _ _). Qed.

Lemma string_plain q l r : lex_string true q l = Some r -> plain r.
Proof.
  unfold lex_string. apply loop_result. intros st a. unfold lex_string_body, unterminated_string.
  repeat case_match; intros [= <-]; first [apply error_plain|done|idtac].
  all: match goal with H : make_token_from ?ty ?s ?l = _ |- _ =>
    pose proof (made_type ty s l) as Ht; rewrite H in Ht; cbn in Ht end.
  all: unfold plain; cbn; by rewrite Ht.
Qed.

Lemma template_plain l r : lex_template true l = Some r -> plain r.
Proof.
  unfold lex_template. apply loop_result. intros st a. unfold lex_template_body.
  repeat case_match; intros [= <-]; first [apply error_plain|done|idtac].
  all: match goal with H : make_token_from ?ty ?s ?l = _ |- _ =>
    pose proof (made_type ty s l) as Ht; rewrite H in Ht; cbn in Ht end.
  all: unfold plain; cbn; by rewrite Ht.
Qed.

Lemma regexp_plain l r : lex_regexp l = Some r -> plain r.
Proof.
  unfold lex_regexp. destruct (loop _ _ _) as [[o l1]|] eqn:E; [|done].
  destruct o as [r1|].
  - intros [= <-]. revert E.
    apply (loop_result _ (fun a => match a with (Some r1, _) => plain r1 | _ => True end)).
    intros [st c] a. unfold lex_regexp_body. repeat case_match; intros [= <-]; first [apply error_plain|done].
  - destruct (advance_while _ _); [|done]. cbn. by intros [= <-].
Qed.

Lemma number_plain l r : lex_number true l = Some r -> plain r.
Proof.
  unfold lex_number. destruct (scan_number l) as [[[rd b] l1]|]; [|done]. cbn [mbind option_bind negb].
  destruct (make_token_from _ _ _) as [t l2] eqn:E. intros [= <-].
  pose proof (made_type (if b then TOK_BIGINT_LIT else TOK_NUMBER) (pos l) l1) as Ht.
  rewrite E in Ht. cbn in Ht. unfold plain. destruct b, rd; cbn; by rewrite Ht.
Qed.

Lemma punct_plain c start l : plain (lex_punct c start l).
Proof. unfold lex_punct, punct, make_error. repeat case_match; done. Qed.

Lemma token_from_word l r :
  pos_ok l -> lex_token true l = Some r -> from_word (src l) r.
Proof.
  unfold from_word. intros Hok E Hk.
  assert (plain r -> False) as Hp by (unfold plain; congruence). revert E. unfold lex_token. cbv zeta.
  destruct (_ =? ch "#").
  { unfold lex_private_name. destruct (skip_chars _ _); [|done]. cbn. intros [= <-]. done. }
  destruct (is_js_ident_start _).
  { unfold lex_identifier. destruct (skip_chars _ _) as [l1|] eqn:Es; [|done].
    cbn [mbind option_bind]. intros E.
    assert (t_type r.1 = lookup_keyword (text_from (pos l) l1)) as Ht.
    { destruct (make_token_from _ _ _) as [t l2] eqn:Em. injection E as <-. cbn [fst].
      pose proof (made_type (lookup_keyword (text_from (pos l) l1)) (pos l) l1) as H.
      rewrite Em in H. cbn in H. rewrite <- H. by destruct (t_type t) eqn:Ety; cbn. }
    assert (src l1 = src l) as Hs.
    { destruct (skip_chars_ends is_js_ident_continue (lexer_advance l) (advance_ok _ Hok))
        as (l2 & E2 & Hr & _); [done|]. rewrite Es in E2. injection E2 as <-.
      rewrite (r_src _ _ Hr). apply (r_src _ _ (advance_reaches l)). }
    unfold text_from in Ht. rewrite Hs in Ht.
    destruct (slice_occurs (pos l) (pos l1 - pos l) (src l)) as (a & b & H). by exists a, (slice (pos l) (pos l1 - pos l) (src l)), b. }
  destruct (isdigit _).
  { destruct (lex_number true l) as [[t l1]|] eqn:E; [|done]. cbn. intros [= <-]. by apply number_plain in E. }
  destruct (_ || _); [intros E; by apply string_plain in E|].
  destruct (_ =? 96); [intros E; by apply template_plain in E|].
  destruct (_ && _); [intros E; by apply regexp_plain in E|].
  intros [= <-]. destruct (Hp (punct_plain _ _ _)).
Qed.

(** The types of the tokens of a text. *)
Definition found (text : list Z) (type : LRTokType) : Prop :=
  exists l t l', src l = text /\ pos_ok l /\ has_peek l = false /\
    lexer_next true l = Some (t, l') /\ t_type t = type.

Lemma found_word text type :
  is_keyword_tok type = true -> found text type ->
  exists a w b, text = a ++ w ++ b /\ lookup_keyword w = type.
Proof.
  intros Hk (l & t & l' & <- & Hok & Hpk & E & <-). unfold lexer_next in E. rewrite Hpk in E.
  destruct (skip_whitespace_ends l Hok) as (l1 & Ew & Hr & _). rewrite Ew in E.
  cbn [mbind option_bind] in E. rewrite <- (r_src _ _ Hr).
  destruct (_ >=? _); [by injection E as <- <-|].
  apply (token_from_word l1 (t, l') (r_ok _ _ Hr Hok) E Hk).
Qed.

Lemma match_words_in words str :
  match_words words str = TOK_IDENTIFIER \/
  exists s, (s, match_words words str) ∈ words /\ str = chars_of s.
Proof.
  induction words as [|[w t] words IH]; [by left|]. cbn [match_words].
  destruct (bool_decide (str = chars_of w)) eqn:E.
  - right. exists w. split; [left|by apply bool_decide_eq_true in E].
  - destruct IH as [IH|(s & Hs & ->)]; [by left|right]. exists s. split; [by right|done].
Qed.

Lemma switch_first_in cases c str :
  switch_first cases c str = TOK_IDENTIFIER \/
  exists s, (s, switch_first cases c str) ∈ concat (map snd cases) /\ str = chars_of s.
Proof.
  induction cases as [|[a words] cases IH]; [by left|]. cbn [switch_first map concat snd].
  destruct (c =? a).
  - destruct (match_words_in words str) as [H|(s & Hs & ->)]; [by left|right].
    exists s. split; [|done]. apply elem_of_app. by left.
  - destruct IH as [H|(s & Hs & ->)]; [by left|right]. exists s. split; [|done]. apply elem_of_app. by right.
Qed.

(** The word of a keyword. *)
Definition word_of (type : LRTokType) : list string :=
  map fst (filter (fun e => tok_eqb e.2 type = true) (concat (map snd keywords))).

Lemma lookup_word w type s :
  word_of type = [s] -> lookup_keyword w = type -> type <> TOK_IDENTIFIER -> w = chars_of s.
Proof.
  intros Hs Hw Hne. assert (exists s', (s', type) ∈ concat (map snd keywords) /\ w = chars_of s') as (s' & Hin & ->).
  { unfold lookup_keyword in Hw. destruct w as [|c w]; [congruence|].
    destruct (switch_first_in keywords c (c :: w)) as [H|(s' & H & E)]; [congruence|].
    rewrite Hw in H. by exists s'. }
  assert (s' ∈ word_of type) as H.
  { unfold word_of. apply list_elem_of_fmap. exists (s', type). split; [done|].
    apply list_elem_of_filter. split; [apply tok_eqb_refl|done]. }
  rewrite Hs in H. by apply list_elem_of_singleton in H as ->.
Qed.

Lemma found_keyword text type s :
  is_keyword_tok type = true -> word_of type = [s] -> found text type -> occurs s text.
Proof.
  intros Hk Hs Hf. destruct (found_word text type Hk Hf) as (a & w & b & -> & E). exists a, b.
  rewrite (lookup_word w type s Hs E); [done|by intros ->].
Qed.

(** C6: the parser terminates.  On every text in which [switch] is not written,
    or neither [async] nor [import], it comes to a result: a tree, with or
    without an error, or the dereference of a NULL pointer.  Its calls are nested
    at most eight levels deep per byte (and eight more), and every single run of a
    loop takes at most that many turns.  The number of all calls together is not
    bounded by this; it is exponential for nested [async(..)] calls, which are
    parsed twice each. *)
Theorem parser_terminates (text : list Z) (n : nat) :
  ~ occurs "switch" text \/ ~ occurs "async" text /\ ~ occurs "import" text ->
  (8 * length text + 8 <= n)%nat ->
  parse_text n text <> OutOfFuel.
Proof.
  intros Hw Hn.
  assert (ends (parse_program n) (parser_init (lexer_init text))
            (fun _ p' => le text (found text) (parser_init (lexer_init text)) p')) as H.
  - apply program_ends; [|intros Hs|exact Hn].
    + intros l t l' H1 H2 H3 H4. by exists l, t, l'.
    + assert (occurs "switch" text) by (by apply (found_keyword text TOK_SWITCH)).
      destruct Hw as [Hw|[Ha Hi]]; [done|]. split; intros Hf.
      * by apply Ha, (found_keyword text TOK_ASYNC).
      * by apply Hi, (found_keyword text TOK_IMPORT).
  - unfold parse_text. unfold ends in H. by destruct (parse_program _ _).
Qed.

Lemma parser_terminates_witness :
  ~ occurs "switch" (chars_of "f(") /\ parse_text 24 (chars_of "f(") <> OutOfFuel.
Proof.
  assert (~ occurs "switch" (chars_of "f(")) as H.
  { intros (a & b & E). apply (f_equal length) in E. rewrite !length_app in E. cbn in E. lia. }
  split; [exact H|]. apply (parser_terminates (chars_of "f(") 24); [by left|vm_compute; lia].
Defined.

(** ** Where the parser does not return *)

(** In [switch(1){case 1:async()}], at [async] with nothing held back. *)
Definition hang_text : list Z := chars_of "switch(1){case 1:async()}".

Definition hang_state (l c : Z) (pk : Token) (re : bool) : Parser :=
  MkParser (MkLexer hang_text 17 l c zero_token pk false re false) false "" 0 0.

Abbreviation case_loop self :=
  (ploop (guarded [TOK_RBRACE; TOK_CASE; LexText.TOK_DEFAULT] (case_turn self))).

Lemma hang_turn m l c pk re :
  exists l' c' pk' re',
    guarded [TOK_RBRACE; TOK_CASE; LexText.TOK_DEFAULT] (case_turn (grammar_at (S m))) []
      (hang_state l c pk re) = Done (inr [], hang_state l' c' pk' re').
Proof. destruct re; do 4 eexists; vm_compute; reflexivity. Qed.

Lemma hang_loop f m l c pk re :
  case_loop (grammar_at (S m)) f [] (hang_state l c pk re) = OutOfFuel.
Proof.
  revert l c pk re. induction f as [|f IH]; intros l c pk re; [done|]. cbn [ploop].
  destruct (hang_turn m l c pk re) as (l' & c' & pk' & re' & E).
  unfold mbind, P_bind. rewrite E. apply IH.
Qed.

Definition diverges {A} (m : P A) (p : Parser) : Prop := m p = OutOfFuel.

Lemma diverges_here {A B} (m : P A) (f : A -> P B) p : diverges m p -> diverges (m ≫= f) p.
Proof. unfold diverges, mbind, P_bind. by intros ->. Qed.

Lemma diverges_after {A B} (m : P A) (f : A -> P B) p a p1 :
  m p = Done (a, p1) -> diverges (f a) p1 -> diverges (m ≫= f) p.
Proof. unfold diverges, mbind, P_bind. by intros ->. Qed.

Ltac past := eapply diverges_after; [vm_compute; reflexivity|]; cbv beta iota.

Lemma statement_at n : g_statement (grammar_at (S n)) = parse_statement (grammar_at n).
Proof. done. Qed.

Lemma diverges_turn {St A} (body : St -> P (A + St)) n st p :
  diverges (body st) p -> diverges (ploop body (S n) st) p.
Proof. intros H. cbn [ploop]. by apply diverges_here. Qed.

Lemma hang_deep n :
  diverges (parse_program (S (S (S (S (S (S n))))))) (parser_init (lexer_init hang_text)).
Proof.
  unfold parse_program. apply diverges_here, diverges_turn. unfold guarded. past. past.
  unfold program_turn. apply diverges_here. rewrite statement_at. unfold parse_statement. past. past. past.
  unfold parse_switch. past. past. past. past. apply diverges_here. rewrite grammar_fuel.
  apply diverges_turn. unfold guarded. past. past. unfold switch_turn. past. past. past.
  apply diverges_here. unfold case_body. apply diverges_here. rewrite grammar_fuel.
  exact (hang_loop _ _ 1 18 _ true).
Qed.

(** the parser hangs on a [switch] with a case that starts with a call of a
    function named [async] (or with [import(..)]): whatever the number of calls
    and turns, it has not come to a result.  [parse_statement] gives the
    statement back unread, and only blocks and programs step over it. *)
Lemma parser_hangs (n : nat) :
  parse_text n (chars_of "switch(1){case 1:async()}") = OutOfFuel.
Proof.
  do 6 (destruct n as [|n]; [vm_compute; reflexivity|]). apply hang_deep.
Qed.

(** ** Where it crashes, and where it drops tokens *)

(** The tree and the error, if any. *)
Definition parsed (n : nat) (text : string) : option (Node * option (string * Z * Z)) :=
  match parse_text n (chars_of text) with
  | Done (tree, p) => Some (tree, parser_get_error p)
  | _ => None
  end.

Definition num (z : Z) : Node := AST_LITERAL (LNumber (f64_of_Z z)).
Definition name (s : string) : Node := AST_IDENTIFIER (chars_of s).

(** [(;)=>x] dereferences a NULL pointer.  The expression in parentheses is
    NULL after its error, the parenthesis and the arrow are read all the same,
    and [expr->type] is looked at. *)
Lemma parser_crashes (n : nat) :
  (8 <= n)%nat -> parse_text n (chars_of "(;)=>x") = Crash.
Proof.
  intros Hn. replace n with (8 + (n - 8))%nat by lia. generalize (n - 8)%nat. intros m.
  vm_compute. reflexivity.
Qed.

Lemma parser_crashes_witness : (8 <= 100)%nat /\ parse_text 100 (chars_of "(;)=>x") = Crash.
Proof. split; [lia|]. apply (parser_crashes 100). lia. Defined.

(** a statement that gives nothing loses the token after it at the top
    level of a program, where a block keeps it.  After [;] the token [1] of
    [1+2] is dropped; [import('m')] evaluates the string; and [async] before an
    arrow function is lost. *)
Lemma program_drops_tokens (n : nat) :
  (30 <= n)%nat ->
  parsed n ";1+2" = parsed n "+2" /\
  parsed n "{;1+2}"
    = Some (AST_PROGRAM [AST_BLOCK [AST_EXPR_STMT (AST_BINARY "+" (num 1) (num 2))]], None) /\
  parsed n "import('m')" = parsed n "('m')" /\
  parsed n "async (x) => y" = parsed n "(x) => y" /\
  parsed n "+2" = Some (AST_PROGRAM [AST_EXPR_STMT (AST_UNARY "+" true (num 2))], None) /\
  parsed n "('m')" = Some (AST_PROGRAM [AST_EXPR_STMT (AST_LITERAL (LString (chars_of "m")))], None).
Proof.
  intros Hn. replace n with (30 + (n - 30))%nat by lia. generalize (n - 30)%nat. intros m.
  split_and!; vm_compute; reflexivity.
Qed.

Lemma program_drops_tokens_witness :
  (30 <= 30)%nat /\ parsed 30 ";1+2" = parsed 30 "+2".
Proof. split; [lia|]. apply (program_drops_tokens 30). lia. Defined.
