(* ===== verification/ParseRead.v ===== *)
(** The parser on printed tokens ([LexerPrint.v]): a state of the parser that is
    about to read known items, and rules for the steps of the parser on such
    states.

    [parses text m its a out]: from a state of [text] with the items [its] ahead,
    the step [m] returns [a] and has the items [out] ahead. *)

From stdpp Require Import base list strings.
From Stdlib Require Import ZArith Lia SpecFloat Ascii.
From S2P Require Import Prelude.
From S2P Require Import BcProgram.
From S2P Require Import LexText.
From S2P Require Import Lexer.
From S2P Require Import LexerPrint.
From S2P Require Import Ast.

(** The type of the first token. *)
Definition next_type (its : list item) : LRTokType :=
  match its with [] => TOK_EOF | it :: _ => item_type it end.

Section Reading.

Context (text : list Z).

(** The token is the item's and so are its characters. *)
Definition shows_in (it : item) (t : Token) : Prop :=
  shows it t /\ token_chars text t = item_text it.

(** At position [s] of the text the items start, with no blank before. *)
Definition items_at (s : Z) (its : list item) : Prop :=
  0 <= s <= zlen text /\ drop (Z.to_nat s) text = tail (print_items its).

(** No token is held back. *)
Definition fresh (its : list item) (l : Lexer) : Prop :=
  has_peek l = false /\ items_ok (allow_regexp l) its /\
  (at_text l (print_items its) \/ at_text l (tail (print_items its))).

(** The first one is. *)
Definition held (its : list item) (l : Lexer) : Prop :=
  has_peek l = true /\
  match its with
  | [] => t_type (peek l) = TOK_EOF
  | it :: its' =>
      shows_in it (peek l) /\ regexp_after (item_type it) = Some (allow_regexp l) /\
      items_ok (allow_regexp l) its' /\ at_text l (print_items its') /\
      (exists re, item_ok re it) /\
      t_start (peek l) = AtSource (start_of (peek l)) /\ items_at (start_of (peek l)) its
  end.

Record reading (its : list item) (p : Parser) : Prop := {
  rd_src : src (lexer p) = text;
  rd_error : has_error p = false;
  rd_state : fresh its (lexer p) \/ held its (lexer p)
}.

(** *** One token *)

Lemma print_items_cons it its :
  exists s, print_items its = 32 :: s /\ print_items (it :: its) = 32 :: item_text it ++ 32 :: s.
Proof.
  assert (exists s, print_items its = 32 :: s) as [s Es].
  { unfold print_items. destruct its; cbn [map concat app]; by eexists. }
  exists s. split; [done|]. unfold print_items in *. cbn [map concat]. rewrite <- app_assoc, Es. done.
Qed.

(** Nothing is skipped before an item, or at the end. *)
Lemma skip_nothing l s :
  at_text l s ->
  match s with
  | [] => True
  | c :: r => c <> 0 /\ is_blank c = false /\
      ((c =? ch "/") = true -> match r with d :: _ => d <> ch "/" /\ d <> ch "*" | [] => False end)
  end ->
  lexer_skip_whitespace l = Some l.
Proof.
  intros H Hs. unfold lexer_skip_whitespace.
  assert (loop whitespace_body (budget l) l = Some (Some l)) as ->; [|done].
  apply (loop_stop id). unfold whitespace_body. cbv zeta. destruct s as [|c r].
  - replace (lexer_peek_char l) with 0; [done|]. unfold lexer_peek_char.
    pose proof (at_text_len _ _ H) as Hl. rewrite zlen_nil in Hl. rewrite Z.geb_leb.
    by destruct (Z.leb_spec (src_len l) (pos l)); [|lia].
  - rewrite (at_text_peek _ _ _ H). destruct Hs as (H0 & Hb & Hc).
    destruct (Z.eqb_spec c 0); [done|]. rewrite Hb.
    destruct (c =? ch "/") eqn:Ec; [|done]. specialize (Hc eq_refl). destruct r as [|d r]; [done|].
    rewrite (at_text_next _ _ _ _ H). destruct Hc as [Hd1 Hd2].
    destruct (Z.eqb_spec d (ch "/")); [done|]. by destruct (Z.eqb_spec d (ch "*")).
Qed.

(** Past the blank, if there is one: the lexer stands at the items. *)
Lemma skip_to_items l its :
  fresh its l ->
  exists l', lexer_skip_whitespace l = Some l' /\ at_text l' (tail (print_items its)) /\
    src l' = src l /\ allow_regexp l' = allow_regexp l /\ has_peek l' = false.
Proof.
  intros (Hpk & Hok & H).
  assert (match tail (print_items its) with
    | [] => True
    | c :: r => c <> 0 /\ is_blank c = false /\
        ((c =? ch "/") = true -> match r with d :: _ => d <> ch "/" /\ d <> ch "*" | [] => False end)
    end) as Hs.
  { destruct its as [|it its]; [done|]. destruct (print_items_cons it its) as (s & _ & ->). cbn [tail].
    destruct Hok as [Hit _]. destruct (item_first _ it Hit) as (c & r & -> & H0 & Hb & Hc). cbn [app].
    split_and!; [done|done|]. intros Ec. apply (Hc s Ec). }
  destruct H as [H|H].
  - assert (exists s, print_items its = 32 :: s) as [s Es].
    { destruct its as [|it its]; [by exists []|]. destruct (print_items_cons it its) as (s & _ & ->). by eexists. }
    rewrite Es in *. cbn [tail] in Hs. destruct (forward_advance 32 l s H eq_refl) as [Hf H1].
    exists (lexer_advance l). destruct (advance_flags l) as [Hre Hpk1].
    split_and!; [by apply (skip_one_blank l s)|done|apply Hf|done|congruence].
  - exists l. split_and!; [|done..]. by eapply skip_nothing.
Qed.

(** Reading the first item. *)
Lemma next_item l it its :
  src l = text -> fresh (it :: its) l ->
  exists t l', lexer_next true l = Some (t, l') /\ shows_in it t /\ src l' = text /\
    fresh its l' /\ at_text l' (print_items its) /\ regexp_after (item_type it) = Some (allow_regexp l') /\
    t_start t = AtSource (start_of t) /\ items_at (start_of t) (it :: its).
Proof.
  intros Hsrc Hf. destruct (skip_to_items l _ Hf) as (l1 & Ew & H1 & Hs1 & Hre1 & Hpk1).
  destruct Hf as (Hpk & [Hit Hok] & _). destruct (print_items_cons it its) as (s & Es & E2).
  rewrite E2 in H1. cbn [tail] in H1. rewrite <- Hre1 in Hit.
  destruct (lexes_item _ it l1 s Hit eq_refl H1) as (t & l2 & Ht & Hf2 & Hsh & Hre2).
  destruct (item_first _ it Hit) as (c & r & Ec & _ & _ & _).
  assert (pos l1 < src_len l1) as Hm.
  { rewrite Ec in H1. apply more_pos. by eapply at_text_more. }
  assert (token_ok l1 (t, l2)) as Htk.
  { destruct (lex_token_ok true l1 (proj1 H1)) as (r' & E & Hr'); [by apply more_pos|]. rewrite Ht in E.
    by injection E as <-. }
  destruct Htk as (_ & Hlt & _ & _ & _ & Htk). cbn [fst snd] in *.
  destruct Hsh as (Hty & Hlen & Hv).
  assert (t_type t <> TOK_ERROR) as Hne by (rewrite Hty; intros E; by rewrite E in Hre2).
  destruct Htk as [|[Hst _]]; [done|].
  pose proof (forward_text _ _ _ _ H1 Hf2) as H2. rewrite <- Es in H2.
  assert (src l2 = text) as Hs2 by (rewrite (r_src _ _ (proj1 Hf2)), Hs1; done).
  assert (start_of t = pos l1) as Est by (unfold start_of; by rewrite Hst).
  pose proof (proj1 H1) as Hp1. unfold pos_ok, src_len in Hp1. rewrite Hs1, Hsrc in Hp1.
  exists t, l2. split_and!.
  - unfold lexer_next. rewrite Hpk, Ew. cbn [mbind option_bind]. rewrite Z.geb_leb.
    destruct (Z.leb_spec (src_len l1) (pos l1)); [lia|done].
  - split; [done|]. unfold token_chars. rewrite Hst, Hlen.
    destruct (Z.ltb_spec 0 (zlen (item_text it))) as [_|Hz].
    + unfold slice. rewrite <- Hsrc, <- Hs1, (proj2 H1). unfold zlen. rewrite Nat2Z.id. apply take_app_length.
    + rewrite Ec, zlen_cons in Hz. pose proof (zlen_nonneg r). lia.
  - done.
  - split_and!; [by rewrite (r_peek _ _ (proj1 Hf2))| |by left].
    cbn [items_ok] in Hok. rewrite <- Hre2 in Hok. exact Hok.
  - done.
  - done.
  - by rewrite Est.
  - rewrite Est. split; [exact Hp1|]. rewrite <- Hsrc, <- Hs1, (proj2 H1), E2. done.
Qed.

(** The end of the items. *)
Lemma next_end l :
  src l = text -> fresh [] l ->
  exists t l', lexer_next true l = Some (t, l') /\ t_type t = TOK_EOF /\ src l' = text /\ fresh [] l'.
Proof.
  intros Hsrc Hf. destruct (skip_to_items l _ Hf) as (l1 & Ew & H1 & Hs1 & Hre1 & Hpk1).
  destruct Hf as (Hpk & Hok & _). exists (eof_token l1), l1. change (tail (print_items [])) with (@nil Z) in H1.
  unfold lexer_next. rewrite Hpk, Ew. cbn [mbind option_bind].
  pose proof (at_text_len _ _ H1) as Hl. rewrite zlen_nil in Hl. rewrite Z.geb_leb.
  destruct (Z.leb_spec (src_len l1) (pos l1)); [|lia].
  split_and!; [done|done|congruence|]. split_and!; [done|done|]. right. exact H1.
Qed.

(** ** Steps on known items *)

Definition parses {A} (m : P A) (its : list item) (a : A) (out : list item) : Prop :=
  forall p, reading its p -> exists p', m p = Done (a, p') /\ reading out p'.

Lemma parses_ret {A} (a : A) its : parses (mret a) its a its.
Proof. intros p H. by exists p. Qed.

Lemma parses_bind {A B} (m : P A) (f : A -> P B) its a mid b out :
  parses m its a mid -> parses (f a) mid b out -> parses (m ≫= f) its b out.
Proof.
  intros Hm Hf p Hp. destruct (Hm p Hp) as (p1 & E1 & H1). destruct (Hf p1 H1) as (p2 & E2 & H2).
  exists p2. split; [|done]. unfold mbind, P_bind. by rewrite E1.
Qed.

Lemma parses_assoc {A B C} (m : P A) (f : A -> P B) (g : B -> P C) its c out :
  parses (m ≫= fun a => f a ≫= g) its c out -> parses ((m ≫= f) ≫= g) its c out.
Proof.
  intros H p Hp. destruct (H p Hp) as (p' & E & H'). exists p'. split; [|done].
  unfold mbind, P_bind in *. by destruct (m p) as [[a p1]| |].
Qed.

(** The other way round. *)
Lemma parses_unassoc {A B C} (m : P A) (f : A -> P B) (g : B -> P C) its c out :
  parses ((m ≫= f) ≫= g) its c out -> parses (m ≫= fun a => f a ≫= g) its c out.
Proof.
  intros H p Hp. destruct (H p Hp) as (p' & E & H'). exists p'. split; [|done].
  unfold mbind, P_bind in *. by destruct (m p) as [[a p1]| |].
Qed.

Lemma parses_error its : parses (getp has_error) its false its.
Proof. intros p H. exists p. split; [|done]. unfold getp. by rewrite (rd_error _ _ H). Qed.

(** The token that is read or looked at. *)
Lemma parses_next {B} (f : Token -> P B) it its b out :
  (forall t, shows_in it t -> parses (f t) its b out) -> parses (next_token ≫= f) (it :: its) b out.
Proof.
  intros Hf p [Hs He [Hp|Hp]]; unfold mbind, P_bind, next_token, lift.
  - destruct (next_item (lexer p) it its Hs Hp) as (t & l' & -> & Ht & Hs' & Hp' & _).
    apply (Hf t Ht). split; [exact Hs'|exact He|by left].
  - destruct Hp as (Hk & Ht & Hre & Hok & Hat & _). unfold lexer_next. rewrite Hk.
    apply (Hf _ Ht). split; [exact Hs|exact He|left]. split_and!; [done|done|by left].
Qed.

Lemma parses_peek_tok {B} (f : Token -> P B) it its b out :
  (forall t, shows_in it t -> (exists re, items_ok re (it :: its)) -> items_at (start_of t) (it :: its) ->
     parses (f t) (it :: its) b out) ->
  parses (lpeek ≫= f) (it :: its) b out.
Proof.
  intros Hf p [Hs He [Hp|Hp]]; unfold mbind, P_bind, lpeek, lift, lexer_peek.
  - pose proof Hp as (Hk & Hok & _). pose proof Hok as [Hit _]. rewrite Hk.
    destruct (next_item (lexer p) it its Hs Hp) as (t & l' & -> & Ht & Hs' & Hp' & Hat & Hre & Hst & Hat').
    cbn [mbind option_bind]. apply (Hf t Ht); [by eexists|exact Hat'|]. split; [exact Hs'|exact He|right].
    split; [done|]. destruct Hp' as (_ & Hok' & _). split_and!; first [done|exact Hat|by eexists].
  - pose proof Hp as (Hk & Ht & Hre & Hok & Hat & Hit & Hst & Hat'). rewrite Hk.
    apply (Hf _ Ht); [|exact Hat'|destruct p; split; [exact Hs|exact He|right; exact Hp]].
    destruct Hit as [re Hit]. exists re. cbn [items_ok]. by rewrite Hre.
Qed.

Lemma parses_peek_end {B} (f : Token -> P B) b out :
  (forall t, t_type t = TOK_EOF -> parses (f t) [] b out) -> parses (lpeek ≫= f) [] b out.
Proof.
  intros Hf p [Hs He [Hp|Hp]]; unfold mbind, P_bind, lpeek, lift, lexer_peek.
  - pose proof Hp as (Hk & _). rewrite Hk.
    destruct (next_end (lexer p) Hs Hp) as (t & l' & -> & Ht & Hs' & Hp').
    cbn [mbind option_bind]. apply (Hf t Ht). split; [exact Hs'|exact He|right]. split; [done|exact Ht].
  - destruct Hp as [Hk Ht]. rewrite Hk. apply (Hf _ Ht). destruct p. split; [done|done|right]. by split.
Qed.

(** The type alone matters. *)
Lemma parses_lpeek {B} (f : Token -> P B) its b out :
  (forall t, t_type t = next_type its -> parses (f t) its b out) -> parses (lpeek ≫= f) its b out.
Proof.
  intros Hf. destruct its as [|it its]; [by apply parses_peek_end|].
  apply parses_peek_tok. intros t [(Ht & _) _] _ _. by apply Hf.
Qed.

Lemma parses_skip it its : parses skip (it :: its) tt its.
Proof.
  assert (parses (next_token ≫= fun _ => mret tt) (it :: its) tt its) as H
    by (apply parses_next; intros; apply parses_ret).
  intros p Hp. destruct (H p Hp) as (p' & E & H'). exists p'. split; [|done]. revert E.
  unfold skip, mbind, P_bind, next_token, lift, lexer_skip.
  by destruct (lexer_next true (lexer p)) as [[t l]|].
Qed.

Lemma parses_peek type its : parses (peek_token type) its (tok_eqb (next_type its) type) its.
Proof. apply parses_lpeek. intros t Ht. rewrite Ht. apply parses_ret. Qed.

Lemma parses_peek_any types its :
  parses (peek_any types) its (existsb (tok_eqb (next_type its)) types) its.
Proof.
  induction types as [|type types IH]; cbn [peek_any existsb]; [apply parses_ret|].
  eapply parses_bind; [apply parses_peek|].
  destruct (tok_eqb (next_type its) type); [apply parses_ret|exact IH].
Qed.

Lemma parses_match_no type its :
  tok_eqb (next_type its) type = false -> parses (match_token type) its false its.
Proof. intros H. apply parses_lpeek. intros t Ht. rewrite Ht, H. apply parses_ret. Qed.

Lemma parses_match_yes type it its :
  item_type it = type -> parses (match_token type) (it :: its) true its.
Proof.
  intros H. apply parses_lpeek. intros t Ht. cbn [next_type] in Ht. rewrite Ht, H, tok_eqb_refl.
  eapply parses_bind; [apply parses_skip|apply parses_ret].
Qed.

Lemma parses_expect {B} type (k : P B) it its b out :
  item_type it = type -> parses k its b out -> parses (expect_token type ;; k) (it :: its) b out.
Proof.
  intros H Hk. unfold expect_token. apply parses_assoc, parses_next. intros t [(Ht & _) _].
  rewrite Ht, H, tok_eqb_refl. eapply parses_bind; [apply parses_ret|exact Hk].
Qed.

(** The name of a word. *)
Lemma parses_token_text it t its :
  shows_in it t -> item_text it <> [] ->
  parses (token_text t) its (Some (item_text it)) its.
Proof.
  intros [_ Ht] Hne p Hp. exists p. split; [|done]. unfold token_text.
  rewrite (rd_src _ _ Hp), Ht. by destruct (item_text it).
Qed.

Lemma parses_token_ident it t its :
  shows_in it t -> item_text it <> [] ->
  parses (token_ident t) its (ast_identifier (item_text it)) its.
Proof.
  intros Ht Hne. unfold token_ident. eapply parses_bind; [by apply (parses_token_text it)|].
  apply parses_ret.
Qed.

(** Back to a word that was looked at. *)
Lemma parses_rewind t w its rest :
  shows_in (Word w) t -> items_at (start_of t) (Word w :: its) ->
  (exists re, items_ok re (Word w :: its)) ->
  parses (setp (fun p => with_lexer (rewind (start_of t) (lexer p)) p)) rest tt (Word w :: its).
Proof.
  intros _ Hat [re Hok] p Hp. eexists. split; [reflexivity|]. split; [apply (rd_src _ _ Hp)|apply (rd_error _ _ Hp)|].
  left. split_and!; [done| |right].
  - destruct Hok as [Hit Hok]. split; [exact Hit|]. destruct (lookup_keyword_plain w) as [b Hb].
    cbn [item_type] in *. rewrite Hb in *. exact Hok.
  - destruct Hat as [Hp' Hd]. unfold at_text, pos_ok, src_len. cbn. rewrite (rd_src _ _ Hp). by split.
Qed.

(** Looking ahead changes nothing. *)
Lemma parses_looking {A} (m : P A) its a out : parses m its a out -> parses (looking m) its a its.
Proof.
  intros Hm p Hp. destruct (Hm p Hp) as (p' & E & H'). unfold looking, mbind, P_bind, getp, setp, mret, P_ret.
  rewrite E. eexists. split; [reflexivity|]. destruct Hp as [Hs He Hp].
  split; [apply (rd_src _ _ H')|apply (rd_error _ _ H')|].
  assert (src (lexer p') = src (lexer p)) as Es by (by rewrite (rd_src _ _ H'), Hs).
  unfold fresh, held, at_text, pos_ok, src_len in *. destruct (lexer p), (lexer p'). cbn in *. by rewrite Es.
Qed.

(** *** Loops *)

Lemma parses_turn {St A} (body : St -> P (A + St)) n st its r mid a out :
  parses (body st) its r mid ->
  match r with inl a' => a' = a /\ mid = out | inr st' => parses (ploop body n st') mid a out end ->
  parses (ploop body (S n) st) its a out.
Proof.
  intros Hb Hr. cbn [ploop]. eapply parses_bind; [exact Hb|]. destruct r as [a'|st']; [|exact Hr].
  destruct Hr as [-> ->]. apply parses_ret.
Qed.

Lemma parses_guarded {St} stop (body : St -> P (St + St)) st its r mid :
  existsb (tok_eqb (next_type its)) stop = false ->
  parses (body st) its r mid -> parses (guarded stop body st) its r mid.
Proof.
  intros Hs Hb. unfold guarded. eapply parses_bind; [apply parses_error|]. cbv iota.
  eapply parses_bind; [apply parses_peek_any|]. by rewrite Hs.
Qed.

Lemma parses_guarded_stop {St} stop (body : St -> P (St + St)) st its :
  existsb (tok_eqb (next_type its)) stop = true -> parses (guarded stop body st) its (inl st) its.
Proof.
  intros Hs. unfold guarded. eapply parses_bind; [apply parses_error|]. cbv iota.
  eapply parses_bind; [apply parses_peek_any|]. rewrite Hs. apply parses_ret.
Qed.

Lemma ploop_more {St A} (body : St -> P (A + St)) n m st p r :
  ploop body n st p = Done r -> (n <= m)%nat -> ploop body m st p = Done r.
Proof.
  revert m st p. induction n as [|n IH]; intros [|m] st p H Hle; [done|done|lia|]. cbn [ploop] in *.
  unfold mbind, P_bind in *. destruct (body st p) as [[[a|st'] p']| |]; [done|by apply IH; [|lia]|done|done].
Qed.

Lemma parses_more {St A} (body : St -> P (A + St)) n m st its a out :
  parses (ploop body n st) its a out -> (n <= m)%nat -> parses (ploop body m st) its a out.
Proof.
  intros H Hle p Hp. destruct (H p Hp) as (p' & E & H'). exists p'. split; [|done]. by eapply ploop_more.
Qed.

End Reading.
