(* ===== verification/Grammar.v ===== *)
(** The grammar the parser is to implement: which trees a sequence of tokens
    denotes.

    [derives sym its ns]: the tokens [its] are a phrase of the kind [sym] and
    its tree (its trees, for a list of phrases) is [ns].  The rules are those of
    the language's definition, for the constructs that [item]s can write: no
    classes, modules, templates, regular expressions, destructuring, [async],
    [await] and [yield]; a semicolon is always written.  Precedence is part of
    the rules and not of a table of the parser's. *)

From stdpp Require Import base list strings.
From Stdlib Require Import ZArith Lia SpecFloat Ascii.
From S2P Require Import Prelude.
From S2P Require Import LexText.
From S2P Require Import Lexer.
From S2P Require Import LexerPrint.
From S2P Require Import F64.
From S2P Require Import Ast.

(** ** Tokens of the language *)

(** The punctuator and the word written [s]. *)
Definition tk (s : string) : item :=
  Punct s (match find (fun e => String.eqb e.1 s) punct_texts with
           | Some e => e.2
           | None => TOK_ERROR
           end).
Definition kw (s : string) : item := Word (chars_of s).

(** A word that is a name: not reserved; and one that may be bound, with the
    words that are reserved in some places only. *)
Definition ident (w : list Z) : Prop :=
  item_ok true (Word w) /\ lookup_keyword w = TOK_IDENTIFIER.
Definition binding (w : list Z) : Prop :=
  item_ok true (Word w) /\ is_name_tok (lookup_keyword w) = true.

(** A word after a dot: every reserved word but [debugger], which the parser does
    not take there. *)
Definition prop_name (w : list Z) : Prop :=
  item_ok true (Word w) /\ lookup_keyword w <> TOK_DEBUGGER.

(** The left-associative operators and their precedences, the assignment
    operators, and the prefix operators. *)
Definition binary_ops : list (item * string * Z) :=
  [(tk "||", "||", 3); (tk "&&", "&&", 4); (tk "|", "|", 5); (tk "^", "^", 6); (tk "&", "&", 7);
   (tk "==", "==", 8); (tk "!=", "!=", 8); (tk "===", "===", 8); (tk "!==", "!==", 8);
   (tk "<", "<", 9); (tk ">", ">", 9); (tk "<=", "<=", 9); (tk ">=", ">=", 9);
   (kw "in", "in", 9); (kw "instanceof", "instanceof", 9);
   (tk "<<", "<<", 10); (tk ">>", ">>", 10); (tk ">>>", ">>>", 10);
   (tk "+", "+", 11); (tk "-", "-", 11); (tk "*", "*", 12); (tk "/", "/", 12); (tk "%", "%", 12)]%string.

Definition assign_ops : list string :=
  ["="; "+="; "-="; "*="; "/="; "%="; "**="; "&="; "|="; "^="; "<<="; ">>="; ">>>="; "&&="; "||=";
   "??="]%string.

Definition prefix_ops : list (item * string) :=
  [(kw "typeof", "typeof"); (kw "delete", "delete"); (kw "void", "void"); (tk "+", "+");
   (tk "-", "-"); (tk "!", "!"); (tk "~", "~")]%string.

Definition update_ops : list string := ["++"; "--"]%string.

(** The declarations. *)
Definition decl_words : list (item * LRTokType) :=
  [(kw "var", TOK_VAR); (kw "let", TOK_LET); (kw "const", TOK_CONST)].

(** What may be assigned to. *)
Definition is_target (n : Node) : bool :=
  match n with AST_IDENTIFIER _ | AST_MEMBER _ _ | AST_COMPUTED_MEMBER _ _ => true | _ => false end.

(** Names with commas between. *)
Fixpoint comma_names (ws : list (list Z)) : list item :=
  match ws with
  | [] => []
  | [w] => [Word w]
  | w :: ws' => Word w :: tk "," :: comma_names ws'
  end.

(** [e], or [e1, e2, ..]. *)
Definition sequence (ns : list Node) : Node :=
  match ns with [n] => n | _ => AST_SEQUENCE ns end.

Definition function_node (decl : bool) (name : option (list Z)) (ps : list Node) (b : Node)
    (star : bool) : Node :=
  let flags := MkFlags false star false false false in
  if decl then AST_FUNC_DECL name ps b flags else AST_FUNC_EXPR name ps b flags AST_NULL.

Definition star_items (star : bool) : list item := if star then [tk "*"] else [].

Definition accessor_node (get : bool) (w : list Z) (ps : list Node) (b : Node) : Node :=
  AST_PROPERTY (AST_IDENTIFIER w)
    (AST_FUNC_EXPR (Some w) ps b (MkFlags false false false get (negb get)) AST_NULL)
    false false false.

Definition method_node (w : list Z) (ps : list Node) (b : Node) : Node :=
  AST_PROPERTY (AST_IDENTIFIER w)
    (AST_FUNC_EXPR (Some w) ps b (MkFlags false false false false false) AST_NULL)
    false false false.

Definition bool_node (b : bool) : Node := AST_LITERAL (LBool b).

(** The type of the first item is not one of these. *)
Definition first_not (types : list LRTokType) (its : list item) : Prop :=
  match its with [] => False | it :: _ => item_type it ∉ types end.

(** ** Phrases

    [Binary k]: an expression whose operators bind at least as tightly as [k];
    [Statement true]: a statement that [else] cannot continue. *)
Inductive symbol :=
  | Primary | Callee | LeftHand | Update | Unary | Binary (k : Z) | Coalesce | ShortCircuit
  | Assignment | ArrowBody | Argument | ArgumentList | Arguments
  | AssignmentList | Expression | OptExpression
  | Property | PropertyList
  | Formal | FormalList | Formals | FunctionRest (decl : bool)
  | Declarator (const : bool) | DeclaratorList (const : bool)
  | Block | Statement (closed : bool) | StatementList
  | Case | CaseList.

Inductive derives : symbol -> list item -> list Node -> Prop :=
  (* primary expressions *)
  | D_number ds : item_ok true (Int ds) -> derives Primary [Int ds] [AST_LITERAL (LNumber (f64_of_Z (dec_value ds)))]
  | D_string q s : Forall (fun c => c <> 0) s -> derives Primary [Str q s] [AST_LITERAL (LString s)]
  | D_true : derives Primary [kw "true"] [bool_node true]
  | D_false : derives Primary [kw "false"] [bool_node false]
  | D_null : derives Primary [kw "null"] [AST_LITERAL LNull]
  | D_undefined : derives Primary [kw "undefined"] [AST_LITERAL LUndefined]
  | D_this : derives Primary [kw "this"] [AST_THIS]
  | D_name w : binding w -> derives Primary [Word w] [AST_IDENTIFIER w]
  | D_paren its n : derives Expression its [n] -> derives Primary (tk "(" :: its ++ [tk ")"]) [n]
  | D_array_empty : derives Primary [tk "["; tk "]"] [AST_ARRAY []]
  | D_array its ns :
      derives ArgumentList its ns -> derives Primary (tk "[" :: its ++ [tk "]"]) [AST_ARRAY ns]
  | D_object_empty : derives Primary [tk "{"; tk "}"] [AST_OBJECT []]
  | D_object its ns :
      derives PropertyList its ns -> derives Primary (tk "{" :: its ++ [tk "}"]) [AST_OBJECT ns]
  | D_function_expr its n :
      derives (FunctionRest false) its [n] -> derives Primary (kw "function" :: its) [n]
  | D_new its1 c its2 args :
      derives Callee its1 [c] -> derives Arguments its2 args ->
      derives Primary (kw "new" :: its1 ++ its2) [AST_NEW c args]
  | D_callee its n : derives Primary its [n] -> derives Callee its [n]
  | D_callee_member its n w :
      derives Callee its [n] -> prop_name w ->
      derives Callee (its ++ [tk "."; Word w]) [AST_MEMBER n (AST_IDENTIFIER w)]
  | D_callee_computed its1 n its2 p :
      derives Callee its1 [n] -> derives Assignment its2 [p] ->
      derives Callee (its1 ++ tk "[" :: its2 ++ [tk "]"]) [AST_COMPUTED_MEMBER n p]
  (* members, calls, updates and prefix operators *)
  | D_primary its n : derives Primary its [n] -> derives LeftHand its [n]
  | D_member its n w :
      derives LeftHand its [n] -> prop_name w ->
      derives LeftHand (its ++ [tk "."; Word w]) [AST_MEMBER n (AST_IDENTIFIER w)]
  | D_optional_member its n w :
      derives LeftHand its [n] -> prop_name w ->
      derives LeftHand (its ++ [tk "?."; Word w]) [AST_OPTIONAL_MEMBER n (AST_IDENTIFIER w)]
  | D_computed its1 n its2 p :
      derives LeftHand its1 [n] -> derives Expression its2 [p] ->
      derives LeftHand (its1 ++ tk "[" :: its2 ++ [tk "]"]) [AST_COMPUTED_MEMBER n p]
  | D_call its1 n its2 args :
      derives LeftHand its1 [n] -> derives Arguments its2 args ->
      derives LeftHand (its1 ++ its2) [AST_CALL n args]
  | D_optional_call its1 n its2 args :
      derives LeftHand its1 [n] -> derives Arguments its2 args ->
      derives LeftHand (its1 ++ tk "?." :: its2) [AST_OPTIONAL_CALL n args]
  | D_left_hand its n : derives LeftHand its [n] -> derives Update its [n]
  | D_postfix its n op :
      derives LeftHand its [n] -> is_target n = true -> op ∈ update_ops ->
      derives Update (its ++ [tk op]) [AST_UNARY op false n]
  | D_prefix_update its n op :
      derives Unary its [n] -> is_target n = true -> op ∈ update_ops ->
      derives Update (tk op :: its) [AST_UNARY op true n]
  | D_update its n : derives Update its [n] -> derives Unary its [n]
  | D_prefix it op its n :
      (it, op) ∈ prefix_ops -> derives Unary its [n] ->
      derives Unary (it :: its) [AST_UNARY op true n]
  (* binary operators *)
  | D_unary its n : derives Unary its [n] -> derives (Binary 14) its [n]
  | D_power its1 l its2 r :
      derives Update its1 [l] -> derives (Binary 13) its2 [r] ->
      derives (Binary 13) (its1 ++ tk "**" :: its2) [AST_BINARY "**" l r]
  | D_binary it op k its1 l its2 r :
      (it, op, k) ∈ binary_ops -> derives (Binary k) its1 [l] -> derives (Binary (k + 1)) its2 [r] ->
      derives (Binary k) (its1 ++ it :: its2) [AST_BINARY op l r]
  | D_tighter j k its n : 3 <= k <= j -> derives (Binary j) its [n] -> derives (Binary k) its [n]
  | D_coalesce_first its1 l its2 r :
      derives (Binary 5) its1 [l] -> derives (Binary 5) its2 [r] ->
      derives Coalesce (its1 ++ tk "??" :: its2) [AST_BINARY "??" l r]
  | D_coalesce its1 l its2 r :
      derives Coalesce its1 [l] -> derives (Binary 5) its2 [r] ->
      derives Coalesce (its1 ++ tk "??" :: its2) [AST_BINARY "??" l r]
  | D_logical its n : derives (Binary 3) its [n] -> derives ShortCircuit its [n]
  | D_coalesced its n : derives Coalesce its [n] -> derives ShortCircuit its [n]
  (* assignments, conditionals, arrow functions *)
  | D_short_circuit its n : derives ShortCircuit its [n] -> derives Assignment its [n]
  | D_conditional its1 c its2 a its3 b :
      derives ShortCircuit its1 [c] -> derives Assignment its2 [a] -> derives Assignment its3 [b] ->
      derives Assignment (its1 ++ tk "?" :: its2 ++ tk ":" :: its3) [AST_CONDITIONAL c a b]
  | D_assign op its1 t its2 v :
      op ∈ assign_ops -> derives LeftHand its1 [t] -> is_target t = true ->
      derives Assignment its2 [v] ->
      derives Assignment (its1 ++ tk op :: its2) [AST_ASSIGN op t v]
  | D_arrow_name w its b :
      binding w -> derives ArrowBody its [b] ->
      derives Assignment (Word w :: tk "=>" :: its) [AST_ARROW [AST_IDENTIFIER w] b false]
  | D_arrow ws its b :
      Forall binding ws -> derives ArrowBody its [b] ->
      derives Assignment (tk "(" :: comma_names ws ++ tk ")" :: tk "=>" :: its)
              [AST_ARROW (map AST_IDENTIFIER ws) b false]
  | D_arrow_block its b : derives Block its [b] -> derives ArrowBody its [b]
  | D_arrow_expr its b :
      derives Assignment its [b] -> first_not [TOK_LBRACE] its -> derives ArrowBody its [b]
  (* lists of expressions *)
  | D_argument its n : derives Assignment its [n] -> derives Argument its [n]
  | D_spread its n :
      derives Assignment its [n] -> derives Argument (tk "..." :: its) [AST_SPREAD_ELEMENT n]
  | D_last_argument its n : derives Argument its [n] -> derives ArgumentList its [n]
  | D_more_arguments its1 n its2 ns :
      derives Argument its1 [n] -> derives ArgumentList its2 ns ->
      derives ArgumentList (its1 ++ tk "," :: its2) (n :: ns)
  | D_no_arguments : derives Arguments [tk "("; tk ")"] []
  | D_arguments its ns :
      derives ArgumentList its ns -> derives Arguments (tk "(" :: its ++ [tk ")"]) ns
  | D_last_assignment its n : derives Assignment its [n] -> derives AssignmentList its [n]
  | D_more_assignments its1 n its2 ns :
      derives Assignment its1 [n] -> derives AssignmentList its2 ns ->
      derives AssignmentList (its1 ++ tk "," :: its2) (n :: ns)
  | D_expression its ns : derives AssignmentList its ns -> derives Expression its [sequence ns]
  | D_no_expression : derives OptExpression [] [AST_NULL]
  | D_opt_expression its n : derives Expression its [n] -> derives OptExpression its [n]
  (* properties of an object *)
  | D_property w its v :
      binding w -> derives Assignment its [v] ->
      derives Property (Word w :: tk ":" :: its) [AST_PROPERTY (AST_IDENTIFIER w) v false false false]
  | D_string_property q s its v :
      Forall (fun c => c <> 0) s -> derives Assignment its [v] ->
      derives Property (Str q s :: tk ":" :: its)
              [AST_PROPERTY (AST_LITERAL (LString s)) v false false false]
  | D_number_property ds its v :
      item_ok true (Int ds) -> derives Assignment its [v] ->
      derives Property (Int ds :: tk ":" :: its)
              [AST_PROPERTY (AST_LITERAL (LNumber (f64_of_Z (dec_value ds)))) v false false false]
  | D_computed_property its1 k its2 v :
      derives Assignment its1 [k] -> derives Assignment its2 [v] ->
      derives Property (tk "[" :: its1 ++ tk "]" :: tk ":" :: its2) [AST_PROPERTY k v true false false]
  | D_shorthand w :
      binding w ->
      derives Property [Word w] [AST_PROPERTY (AST_IDENTIFIER w) (AST_IDENTIFIER w) false true false]
  | D_method w its1 ps its2 b :
      binding w -> derives Formals its1 ps -> derives Block its2 [b] ->
      derives Property (Word w :: its1 ++ its2) [method_node w ps b]
  | D_accessor (get : bool) w its1 ps its2 b :
      item_ok true (Word w) -> derives Formals its1 ps -> derives Block its2 [b] ->
      derives Property (kw (if get then "get" else "set") :: Word w :: its1 ++ its2)
              [accessor_node get w ps b]
  | D_spread_property its v :
      derives Assignment its [v] -> derives Property (tk "..." :: its) [AST_SPREAD v]
  | D_last_property its n : derives Property its [n] -> derives PropertyList its [n]
  | D_more_properties its1 n its2 ns :
      derives Property its1 [n] -> derives PropertyList its2 ns ->
      derives PropertyList (its1 ++ tk "," :: its2) (n :: ns)
  (* functions *)
  | D_parameter w : binding w -> derives Formal [Word w] [AST_IDENTIFIER w]
  | D_default w its v :
      binding w -> derives Assignment its [v] ->
      derives Formal (Word w :: tk "=" :: its) [AST_DEFAULT_VALUE (AST_IDENTIFIER w) v]
  | D_last_parameter its n : derives Formal its [n] -> derives FormalList its [n]
  | D_rest_parameter w :
      ident w -> derives FormalList [tk "..."; Word w] [AST_REST (AST_IDENTIFIER w)]
  | D_more_parameters its1 n its2 ns :
      derives Formal its1 [n] -> derives FormalList its2 ns ->
      derives FormalList (its1 ++ tk "," :: its2) (n :: ns)
  | D_no_parameters : derives Formals [tk "("; tk ")"] []
  | D_parameters its ns :
      derives FormalList its ns -> derives Formals (tk "(" :: its ++ [tk ")"]) ns
  | D_function decl star w its1 ps its2 b :
      ident w -> derives Formals its1 ps -> derives Block its2 [b] ->
      derives (FunctionRest decl) (star_items star ++ Word w :: its1 ++ its2)
              [function_node decl (Some w) ps b star]
  | D_anonymous star its1 ps its2 b :
      derives Formals its1 ps -> derives Block its2 [b] ->
      derives (FunctionRest false) (star_items star ++ its1 ++ its2)
              [function_node false None ps b star]
  (* declarations *)
  | D_declarator w :
      binding w -> derives (Declarator false) [Word w] [AST_VAR_DECLARATOR (AST_IDENTIFIER w) AST_NULL]
  | D_initialized const w its v :
      binding w -> derives Assignment its [v] ->
      derives (Declarator const) (Word w :: tk "=" :: its) [AST_VAR_DECLARATOR (AST_IDENTIFIER w) v]
  | D_last_declarator const its n :
      derives (Declarator const) its [n] -> derives (DeclaratorList const) its [n]
  | D_more_declarators const its1 n its2 ns :
      derives (Declarator const) its1 [n] -> derives (DeclaratorList const) its2 ns ->
      derives (DeclaratorList const) (its1 ++ tk "," :: its2) (n :: ns)
  (* statements *)
  | D_block_empty : derives Block [tk "{"; tk "}"] [AST_BLOCK []]
  | D_block its ns :
      derives StatementList its ns -> derives Block (tk "{" :: its ++ [tk "}"]) [AST_BLOCK ns]
  | D_block_statement closed its n : derives Block its [n] -> derives (Statement closed) its [n]
  | D_declaration closed it decl its ns :
      (it, decl) ∈ decl_words -> derives (DeclaratorList (tok_eqb decl TOK_CONST)) its ns ->
      derives (Statement closed) (it :: its ++ [tk ";"]) [AST_VAR_DECL decl ns]
  | D_expression_statement closed its n :
      derives Expression its [n] -> first_not [TOK_LBRACE; TOK_FUNCTION] its ->
      derives (Statement closed) (its ++ [tk ";"]) [AST_EXPR_STMT n]
  | D_if its1 c its2 s :
      derives Expression its1 [c] -> derives (Statement false) its2 [s] ->
      derives (Statement false) (kw "if" :: tk "(" :: its1 ++ tk ")" :: its2) [AST_IF c s AST_NULL]
  | D_if_else closed its1 c its2 s its3 e :
      derives Expression its1 [c] -> derives (Statement true) its2 [s] ->
      derives (Statement closed) its3 [e] ->
      derives (Statement closed) (kw "if" :: tk "(" :: its1 ++ tk ")" :: its2 ++ kw "else" :: its3)
              [AST_IF c s e]
  | D_while closed its1 c its2 s :
      derives Expression its1 [c] -> derives (Statement closed) its2 [s] ->
      derives (Statement closed) (kw "while" :: tk "(" :: its1 ++ tk ")" :: its2) [AST_WHILE c s]
  | D_do closed its1 s its2 c :
      derives (Statement false) its1 [s] -> derives Expression its2 [c] ->
      derives (Statement closed)
              (kw "do" :: its1 ++ kw "while" :: tk "(" :: its2 ++ [tk ")"; tk ";"]) [AST_DO_WHILE s c]
  | D_for closed its1 i its2 c its3 u its4 s :
      derives OptExpression its1 [i] -> Forall (fun it => item_type it <> TOK_IN) its1 ->
      derives OptExpression its2 [c] -> derives OptExpression its3 [u] ->
      derives (Statement closed) its4 [s] ->
      derives (Statement closed)
              (kw "for" :: tk "(" :: its1 ++ tk ";" :: its2 ++ tk ";" :: its3 ++ tk ")" :: its4)
              [AST_FOR i c u s]
  | D_for_declaration closed it decl its1 ns its2 c its3 u its4 s :
      (it, decl) ∈ decl_words -> derives (DeclaratorList (tok_eqb decl TOK_CONST)) its1 ns ->
      Forall (fun it => item_type it <> TOK_IN) its1 ->
      derives OptExpression its2 [c] -> derives OptExpression its3 [u] ->
      derives (Statement closed) its4 [s] ->
      derives (Statement closed)
              (kw "for" :: tk "(" :: it :: its1 ++ tk ";" :: its2 ++ tk ";" :: its3 ++ tk ")" :: its4)
              [AST_FOR (AST_VAR_DECL decl ns) c u s]
  | D_for_in closed it decl w its1 e its2 s :
      (it, decl) ∈ decl_words -> binding w -> derives Expression its1 [e] ->
      derives (Statement closed) its2 [s] ->
      derives (Statement closed)
              (kw "for" :: tk "(" :: it :: Word w :: kw "in" :: its1 ++ tk ")" :: its2)
              [AST_FOR_IN (AST_VAR_DECL decl [AST_VAR_DECLARATOR (AST_IDENTIFIER w) AST_NULL]) e s]
  | D_for_of closed it decl w its1 e its2 s :
      (it, decl) ∈ decl_words -> binding w -> derives Assignment its1 [e] ->
      derives (Statement closed) its2 [s] ->
      derives (Statement closed)
              (kw "for" :: tk "(" :: it :: Word w :: kw "of" :: its1 ++ tk ")" :: its2)
              [AST_FOR_OF (AST_VAR_DECL decl [AST_VAR_DECLARATOR (AST_IDENTIFIER w) AST_NULL]) e s]
  | D_switch_empty closed its1 e :
      derives Expression its1 [e] ->
      derives (Statement closed) (kw "switch" :: tk "(" :: its1 ++ [tk ")"; tk "{"; tk "}"])
              [AST_SWITCH e []]
  | D_switch closed its1 e its2 ns :
      derives Expression its1 [e] -> derives CaseList its2 ns ->
      derives (Statement closed) (kw "switch" :: tk "(" :: its1 ++ tk ")" :: tk "{" :: its2 ++ [tk "}"])
              [AST_SWITCH e ns]
  | D_case_empty its e : derives Expression its [e] ->
      derives Case (kw "case" :: its ++ [tk ":"]) [AST_CASE e (AST_BLOCK [])]
  | D_case its1 e its2 ns :
      derives Expression its1 [e] -> derives StatementList its2 ns ->
      derives Case (kw "case" :: its1 ++ tk ":" :: its2) [AST_CASE e (AST_BLOCK ns)]
  | D_case_default_empty : derives Case [kw "default"; tk ":"] [AST_DEFAULT (AST_BLOCK [])]
  | D_case_default its ns :
      derives StatementList its ns ->
      derives Case (kw "default" :: tk ":" :: its) [AST_DEFAULT (AST_BLOCK ns)]
  | D_last_case its n : derives Case its [n] -> derives CaseList its [n]
  | D_more_cases its1 n its2 ns :
      derives Case its1 [n] -> derives CaseList its2 ns -> derives CaseList (its1 ++ its2) (n :: ns)
  | D_break closed : derives (Statement closed) [kw "break"; tk ";"] [AST_BREAK AST_NULL]
  | D_break_label closed w :
      ident w -> derives (Statement closed) [kw "break"; Word w; tk ";"] [AST_BREAK (AST_IDENTIFIER w)]
  | D_continue closed : derives (Statement closed) [kw "continue"; tk ";"] [AST_CONTINUE AST_NULL]
  | D_continue_label closed w :
      ident w ->
      derives (Statement closed) [kw "continue"; Word w; tk ";"] [AST_CONTINUE (AST_IDENTIFIER w)]
  | D_return closed : derives (Statement closed) [kw "return"; tk ";"] [AST_RETURN AST_NULL]
  | D_return_value closed its e :
      derives Expression its [e] ->
      derives (Statement closed) (kw "return" :: its ++ [tk ";"]) [AST_RETURN e]
  | D_throw closed its e :
      derives Expression its [e] ->
      derives (Statement closed) (kw "throw" :: its ++ [tk ";"]) [AST_THROW e]
  | D_try_catch closed its1 b w its2 c :
      derives Block its1 [b] -> ident w -> derives Block its2 [c] ->
      derives (Statement closed)
              (kw "try" :: its1 ++ kw "catch" :: tk "(" :: Word w :: tk ")" :: its2)
              [AST_TRY b c AST_NULL (Some w)]
  | D_try_finally closed its1 b its2 f :
      derives Block its1 [b] -> derives Block its2 [f] ->
      derives (Statement closed) (kw "try" :: its1 ++ kw "finally" :: its2)
              [AST_TRY b AST_NULL f None]
  | D_try_both closed its1 b w its2 c its3 f :
      derives Block its1 [b] -> ident w -> derives Block its2 [c] -> derives Block its3 [f] ->
      derives (Statement closed)
              (kw "try" :: its1 ++ kw "catch" :: tk "(" :: Word w :: tk ")" :: its2 ++
               kw "finally" :: its3)
              [AST_TRY b c f (Some w)]
  | D_label closed w its s :
      ident w -> derives (Statement closed) its [s] ->
      derives (Statement closed) (Word w :: tk ":" :: its) [AST_LABEL (AST_IDENTIFIER w) s]
  | D_debugger closed : derives (Statement closed) [kw "debugger"; tk ";"] [AST_DEBUGGER]
  | D_function_statement closed its n :
      derives (FunctionRest true) its [n] -> derives (Statement closed) (kw "function" :: its) [n]
  | D_last_statement its n : derives (Statement false) its [n] -> derives StatementList its [n]
  | D_more_statements its1 n its2 ns :
      derives (Statement false) its1 [n] -> derives StatementList its2 ns ->
      derives StatementList (its1 ++ its2) (n :: ns).
