(* ===== verification/GrammarFacts.v ===== *)
(** Facts about the phrases of [Grammar.v] and the tables of the parser: how a
    phrase starts, that its trees are not NULL, that the parser's precedences
    are the grammar's. *)

From stdpp Require Import base list strings.
From Stdlib Require Import ZArith Lia SpecFloat Ascii.
From S2P Require Import Prelude.
From S2P Require Import BcProgram.
From S2P Require Import LexText.
From S2P Require Import Lexer.
From S2P Require Import LexerPrint.
From S2P Require Import F64.
From S2P Require Import Ast.
From S2P Require Import ParseExpr.
From S2P Require Import ParseRead.
From S2P Require Import Grammar.

(** ** Classes of tokens *)

(** A token of the class is none that is outside. *)
Lemma class_not (p : LRTokType -> bool) t type :
  p t = true -> p type = false -> tok_eqb t type = false.
Proof. intros H1 H2. destruct (tok_eqb_spec t type) as [->|]; [congruence|done]. Qed.

Lemma class_none (p : LRTokType -> bool) t types :
  p t = true -> forallb (fun type => negb (p type)) types = true ->
  existsb (tok_eqb t) types = false.
Proof.
  intros H. induction types as [|type types IH]; [done|]. cbn [forallb existsb].
  intros [E%negb_true_iff Hr]%andb_prop. by rewrite (class_not p t type H E), IH.
Qed.

(** What a postfix expression goes on with. *)
Definition postfix_tok (t : LRTokType) : bool :=
  match t with
  | TOK_DOT | TOK_QUESTION_DOT | TOK_LBRACKET | TOK_LPAREN | TOK_INC | TOK_DEC
  | TOK_TEMPLATE | TOK_TEMPLATE_END => true
  | _ => false
  end.

(** After a primary expression; after a unary one; and after an expression whose
    operators have at least the precedence [k]. *)
Definition after_primary (t : LRTokType) : bool :=
  match t with TOK_TEMPLATE | TOK_TEMPLATE_END | TOK_ARROW => false | _ => true end.
Definition after_unary (t : LRTokType) : bool := negb (postfix_tok t) && negb (tok_eqb t TOK_ARROW).
Definition follow (k : Z) (t : LRTokType) : bool := after_unary t && (get_precedence t <? k).

Lemma follow_weaken j k t : follow j t = true -> j <= k -> follow k t = true.
Proof. unfold follow. intros [-> ?%Z.ltb_lt]%andb_prop ?. cbn. apply Z.ltb_lt. lia. Qed.

Lemma follow_unary k t : follow k t = true -> after_unary t = true.
Proof. by intros [H _]%andb_prop. Qed.

Lemma after_unary_primary t : after_unary t = true -> after_primary t = true.
Proof. by destruct t. Qed.

(** How a phrase starts. *)
Definition statement_start (t : LRTokType) : bool :=
  match t with
  | TOK_RBRACE | TOK_EOF | TOK_CASE | TOK_DEFAULT | TOK_ELSE | TOK_CATCH | TOK_FINALLY => false
  | _ => true
  end.
Definition property_start (t : LRTokType) : bool :=
  match t with TOK_RBRACE | TOK_MUL | TOK_EOF => false | _ => true end.

Definition formal_start (t : LRTokType) : bool :=
  match t with TOK_RPAREN | TOK_EOF => false | _ => true end.

(** Not a spread, and nothing a statement takes for itself. *)
Definition expr_tok (t : LRTokType) : bool :=
  expr_start_tok t &&
  match t with TOK_ELLIPSIS | TOK_CLASS | TOK_ASYNC | TOK_IMPORT => false | _ => true end.

Definition first_class (sym : symbol) : LRTokType -> bool :=
  match sym with
  | Arguments | Formals => tok_eqb TOK_LPAREN
  | Property | PropertyList => property_start
  | Formal | FormalList => formal_start
  | FunctionRest _ | Declarator _ | DeclaratorList _ => fun _ => true
  | Block => tok_eqb TOK_LBRACE
  | Statement _ | StatementList => statement_start
  | Case | CaseList => fun t => tok_eqb t TOK_CASE || tok_eqb t LexText.TOK_DEFAULT
  | Argument | ArgumentList => expr_start_tok
  | _ => expr_tok
  end.

Definition starts (sym : symbol) (its : list item) : Prop :=
  match its with
  | [] => sym = OptExpression
  | it :: _ => first_class sym (item_type it) = true
  end.

Lemma starts_app sym its its' :
  starts sym its -> sym <> OptExpression -> starts sym (its ++ its').
Proof. by destruct its. Qed.

Lemma binding_start w : is_name_tok (lookup_keyword w) = true ->
  expr_tok (lookup_keyword w) = true /\ property_start (lookup_keyword w) = true /\
  formal_start (lookup_keyword w) = true.
Proof. unfold is_name_tok. by destruct (lookup_keyword w). Qed.

(** The tables agree with the parser's. *)
Lemma binary_op_table it op k :
  (it, op, k) ∈ binary_ops ->
  let t := item_type it in
  get_precedence t = k /\ get_op_str t = op /\ is_assign_op t = false /\
  tok_eqb t TOK_ARROW = false /\ tok_eqb t TOK_QUESTION = false /\ tok_eqb t TOK_POW = false /\
  after_unary t = true /\ 3 <= k <= 12.
Proof.
  intros H. assert (forallb (fun e => let '(it, op, k) := e in let t := item_type it in
    (get_precedence t =? k) && String.eqb (get_op_str t) op && negb (is_assign_op t) &&
    negb (tok_eqb t TOK_ARROW) && negb (tok_eqb t TOK_QUESTION) && negb (tok_eqb t TOK_POW) &&
    after_unary t && (3 <=? k) && (k <=? 12)) binary_ops = true) as Hall by (vm_compute; reflexivity).
  rewrite forallb_forall in Hall. specialize (Hall _ (proj1 (list_elem_of_In _ _) H)). cbn beta iota zeta in Hall.
  rewrite !andb_true_iff, !negb_true_iff, !Z.leb_le, Z.eqb_eq, String.eqb_eq in Hall.
  cbv zeta. tauto.
Qed.

Lemma assign_op_table op :
  op ∈ assign_ops ->
  let t := item_type (tk op) in
  get_precedence t = 1 /\ get_op_str t = op /\ is_assign_op t = true /\
  tok_eqb t TOK_ARROW = false /\ tok_eqb t TOK_QUESTION = false /\ after_unary t = true.
Proof.
  intros H. assert (forallb (fun op => let t := item_type (tk op) in
    (get_precedence t =? 1) && String.eqb (get_op_str t) op && is_assign_op t &&
    negb (tok_eqb t TOK_ARROW) && negb (tok_eqb t TOK_QUESTION) && after_unary t) assign_ops = true)
    as Hall by (vm_compute; reflexivity).
  rewrite forallb_forall in Hall. specialize (Hall _ (proj1 (list_elem_of_In _ _) H)). cbn beta iota zeta in Hall.
  rewrite !andb_true_iff, !negb_true_iff, Z.eqb_eq, String.eqb_eq in Hall. cbv zeta. tauto.
Qed.

Lemma decl_word_table it decl :
  (it, decl) ∈ decl_words ->
  (it, decl) = (kw "var", TOK_VAR) \/ (it, decl) = (kw "let", TOK_LET) \/
  (it, decl) = (kw "const", TOK_CONST).
Proof. unfold decl_words. rewrite !elem_of_cons, elem_of_nil. tauto. Qed.

Lemma update_op_table op : op ∈ update_ops -> op = "++"%string \/ op = "--"%string.
Proof. unfold update_ops. rewrite !elem_of_cons, elem_of_nil. tauto. Qed.

(** ** First tokens *)

Ltac table H :=
  repeat (apply elem_of_cons in H as [H|H]; [injection H as -> ->; reflexivity|]);
  by apply not_elem_of_nil in H.

Lemma prefix_op_start it op :
  (it, op) ∈ prefix_ops -> expr_tok (item_type it) = true.
Proof. intros H. unfold prefix_ops in H. table H. Qed.

Lemma update_op_start op : op ∈ update_ops -> expr_tok (item_type (tk op)) = true.
Proof. intros [-> | ->]%update_op_table; reflexivity. Qed.

Lemma decl_word_start it decl : (it, decl) ∈ decl_words -> statement_start (item_type it) = true.
Proof. intros H. unfold decl_words in H. table H. Qed.

Lemma expr_statement_start t : expr_start_tok t = true -> statement_start t = true.
Proof. by destruct t. Qed.

Lemma starts_into sym sym' its :
  starts sym its -> sym <> OptExpression -> (forall t, first_class sym t = true -> first_class sym' t = true) ->
  starts sym' its /\ forall its', starts sym' (its ++ its').
Proof. destruct its as [|it its]; [done|]. intros H _ Hc. split; [|intros its']; by apply Hc. Qed.

Lemma derives_starts sym its ns : derives sym its ns -> starts sym its.
Proof.
  induction 1.
  all: try reflexivity; try assumption.
  all: try (apply starts_app; [assumption|done]).
  all: try (cbn [starts first_class item_type];
            first [eapply prefix_op_start; eassumption|eapply update_op_start; eassumption
                  |eapply decl_word_start; eassumption]).
  all: try (match goal with H : binding _ |- _ => destruct H as [_ H]; apply binding_start in H as (?&?&?) end;
            cbn [starts first_class item_type]; assumption).
  all: try (match goal with H : ident _ |- _ => destruct H as [_ H] end; cbn [starts first_class item_type]; by rewrite H).
  all: try (match goal with
    | IH : starts ?s _ |- starts ?s' _ => apply (starts_into s s' _ IH); [done|by intros []]
    end).
  all: try by destruct get.
  all: destruct star; [reflexivity|].
  - done.
  - match goal with IH : starts Formals ?x |- _ => by destruct x end.
Qed.

(** The trees are not NULL. *)
Lemma derives_not_null sym its ns :
  derives sym its ns -> sym <> OptExpression -> Forall (fun n => is_null n = false) ns.
Proof.
  induction 1; intros Hs; try (match goal with H : _ -> Forall _ [?n] |- Forall _ [?n] => by apply H end).
  all: try (by repeat constructor).
  all: try (by apply IHderives).
  all: try (constructor; [|by (apply IHderives2 || apply IHderives)];
            match goal with IH : _ -> Forall _ [?n] |- _ = false =>
              by (specialize (IH ltac:(done)); inversion IH) end).
  - specialize (IHderives ltac:(done)). destruct ns as [|n1 [|n2 ns]]; [by repeat constructor| |by repeat constructor].
    exact IHderives.
  - constructor; [by destruct decl|constructor].
Qed.

(** ** What follows a name

    No [:] follows a name that starts an expression: a statement that starts with
    a name and a colon is a label. *)
Definition is_expression (sym : symbol) : bool :=
  match sym with
  | Primary | LeftHand | Update | Unary | Binary _ | Coalesce | ShortCircuit | Assignment
  | AssignmentList | Expression => true
  | _ => false
  end.

(** The type of the second token of [its ++ rest]. *)
Definition second (its rest : list item) : LRTokType :=
  match its with [] => TOK_EOF | _ :: its' => next_type (its' ++ rest) end.

Lemma second_app its its' rest : its <> [] -> second (its ++ its') rest = second its (its' ++ rest).
Proof. destruct its as [|it its]; [done|]. intros _. cbn [second app]. by rewrite <- app_assoc. Qed.

Lemma derives_nonempty sym its ns : derives sym its ns -> sym <> OptExpression -> its <> [].
Proof. intros H%derives_starts Hs ->. by apply Hs. Qed.

Lemma next_type_app its its' : its <> [] -> next_type (its ++ its') = next_type its.
Proof. by destruct its. Qed.

Lemma next_type_class sym its rest :
  starts sym its -> sym <> OptExpression -> first_class sym (next_type (its ++ rest)) = true.
Proof. by destruct its. Qed.

Lemma not_colon (p : LRTokType -> bool) t : p t = true -> p TOK_COLON = false -> t <> TOK_COLON.
Proof. intros H1 H2 ->. congruence. Qed.

Lemma second_plain sym its ns rest :
  derives sym its ns -> is_expression sym = true -> next_type its = TOK_IDENTIFIER ->
  next_type rest <> TOK_COLON -> second its rest <> TOK_COLON.
Proof.
  intros H. revert rest. induction H; intros rest Hs Hi Hr; try discriminate.
  all: try exact Hr; try (by apply IHderives).
  all: try (match goal with D : derives ?s ?x _ |- second (?x ++ _) _ <> _ =>
    pose proof (derives_nonempty s x _ D ltac:(done)) as Hne;
    rewrite second_app by exact Hne; rewrite next_type_app in Hi by exact Hne;
    first [apply IHderives|apply IHderives1]; [done|exact Hi|] end).
  all: try done.
  - (* a call *)
    apply (not_colon (tok_eqb TOK_LPAREN)); [|done].
    apply (next_type_class Arguments); [by eapply derives_starts|done].
  - by destruct (update_op_table op H1) as [-> | ->].
  - by destruct (update_op_table op H1) as [-> | ->].
  - exfalso. unfold prefix_ops in H. cbn [next_type] in Hi.
    repeat (apply elem_of_cons in H as [H|H]; [injection H as -> ->; discriminate|]).
    by apply not_elem_of_nil in H.
  - destruct (binary_op_table it op k H) as (_ & _ & _ & _ & _ & _ & Ha & _).
    eapply (not_colon (fun t => get_precedence t =? k)). cbn [app next_type].
    + destruct (binary_op_table it op k H) as (E & _). by apply Z.eqb_eq.
    + apply Z.eqb_neq. destruct (binary_op_table it op k H) as (_ & _ & _ & _ & _ & _ & _ & ?). cbn. lia.
  - destruct (assign_op_table op H) as (E & _).
    apply (not_colon (fun t => get_precedence t =? 1)); [by apply Z.eqb_eq|done].
Qed.

(** ** The trees of words and numbers *)

Lemma word_cstr re w : item_ok re (Word w) -> cstr w = w.
Proof.
  intros H. apply cstr_nonzero. destruct w as [|c w]; [done|]. destruct H as [Hc Hw].
  constructor; [by intros ->|]. apply Forall_forall. intros x Hx ->.
  apply list_elem_of_In in Hx. rewrite forallb_forall in Hw. by apply Hw in Hx.
Qed.

Lemma word_nonempty re w : item_ok re (Word w) -> w <> [].
Proof. by intros H ->. Qed.

(** The types of words; every one but one may be a property's name. *)
Definition word_tok (t : LRTokType) : bool := is_prop_name_token t || tok_eqb t TOK_DEBUGGER.

Lemma word_class w : word_tok (lookup_keyword w) = true.
Proof.
  apply (lookup_keyword_cases (fun t => word_tok t = true)); [done|].
  unfold keywords. repeat first [apply Forall_nil_2|apply Forall_cons_2|reflexivity].
Qed.

Lemma word_prop_name w :
  lookup_keyword w <> TOK_DEBUGGER -> is_prop_name_token (lookup_keyword w) = true.
Proof.
  intros H. destruct (orb_true_iff (is_prop_name_token (lookup_keyword w)) (tok_eqb (lookup_keyword w) TOK_DEBUGGER))
    as [[E|E] _]; [apply word_class|done|].
  by destruct (tok_eqb_spec (lookup_keyword w) TOK_DEBUGGER).
Qed.

(** No natural number is the negative zero. *)
Lemma f64_of_nat_zero z : 0 <= z -> f64_of_Z z <> S754_zero true.
Proof.
  intros Hz. unfold f64_of_Z, binary_normalize. destruct z as [|p|p]; [done| |lia].
  unfold binary_round. destruct (shl_align _ _ _) as [m e]. unfold binary_round_aux.
  destruct (shr_fexp _ _ _ _ _) as [r1 e1]. cbn zeta.
  destruct (shr_fexp _ _ _ _ _) as [r2 e2]. destruct (shr_m r2); [done| |done]. by destruct (_ <=? _).
Qed.

Lemma dec_value_nonneg ds v : 0 <= v -> Forall (fun d => 0 <= d < 10) ds ->
  0 <= fold_left (fun v d => v * 10 + d) ds v.
Proof. intros Hv H. revert v Hv. induction H as [|d ds Hd _ IH]; intros v Hv; [done|]. apply IH. lia. Qed.

Lemma number_node ds re :
  item_ok re (Int ds) ->
  ast_literal_number (f64_of_Z (dec_value ds)) = AST_LITERAL (LNumber (f64_of_Z (dec_value ds))).
Proof.
  intros [_ H]. pose proof (f64_of_nat_zero (dec_value ds) (dec_value_nonneg ds 0 ltac:(lia) H)) as Hz.
  unfold ast_literal_number. by destruct (f64_of_Z _) as [[]| | |].
Qed.
