(* ===== verification/GrammarSteps.v ===== *)
(** The parser on a phrase of the grammar, one step at a time: what is claimed of
    each kind of phrase, the tactics that run the parser on known tokens, and the
    loops over lists of phrases. *)

From stdpp Require Import base list strings.
From Stdlib Require Import ZArith Lia SpecFloat Ascii.
From S2P Require Import Prelude.
From S2P Require Import BcProgram.
From S2P Require Import LexText.
From S2P Require Import Lexer.
From S2P Require Import LexerPrint.
From S2P Require Import F64.
From S2P Require Import Ast.
From S2P Require Import ParseExpr.
From S2P Require Import ParseStmt.
From S2P Require Import ParseRead.
From S2P Require Import Grammar.
From S2P Require Import GrammarFacts.

Section Steps.

Context (text : list Z).
Abbreviation parses := (parses text).

(** ** Steps before a continuation *)

Lemma run_peek_no {B} type (k : bool -> P B) its b out :
  tok_eqb (next_type its) type = false -> parses (k false) its b out ->
  parses (peek_token type ≫= k) its b out.
Proof. intros E H. eapply parses_bind; [apply parses_peek|]. by rewrite E. Qed.

Lemma run_peek_yes {B} type (k : bool -> P B) its b out :
  next_type its = type -> parses (k true) its b out -> parses (peek_token type ≫= k) its b out.
Proof. intros E H. eapply parses_bind; [apply parses_peek|]. by rewrite E, tok_eqb_refl. Qed.

Lemma run_any_no {B} types (k : bool -> P B) its b out :
  existsb (tok_eqb (next_type its)) types = false -> parses (k false) its b out ->
  parses (peek_any types ≫= k) its b out.
Proof. intros E H. eapply parses_bind; [apply parses_peek_any|]. by rewrite E. Qed.

Lemma run_any_yes {B} types (k : bool -> P B) its b out :
  existsb (tok_eqb (next_type its)) types = true -> parses (k true) its b out ->
  parses (peek_any types ≫= k) its b out.
Proof. intros E H. eapply parses_bind; [apply parses_peek_any|]. by rewrite E. Qed.

Lemma run_match_no {B} type (k : bool -> P B) its b out :
  tok_eqb (next_type its) type = false -> parses (k false) its b out ->
  parses (match_token type ≫= k) its b out.
Proof. intros E H. eapply parses_bind; [by apply parses_match_no|done]. Qed.

Lemma run_match_yes {B} type (k : bool -> P B) it its b out :
  item_type it = type -> parses (k true) its b out ->
  parses (match_token type ≫= k) (it :: its) b out.
Proof. intros E H. eapply parses_bind; [by apply parses_match_yes|done]. Qed.

Lemma run_skip {B} (k : P B) it its b out :
  parses k its b out -> parses (skip ;; k) (it :: its) b out.
Proof. intros H. eapply parses_bind; [apply parses_skip|done]. Qed.

Lemma run_expect {B} type (k : P B) it its b out :
  item_type it = type -> parses k its b out -> parses (expect_token type ;; k) (it :: its) b out.
Proof. apply parses_expect. Qed.

Lemma run_ret {A B} (a : A) (k : A -> P B) its b out :
  parses (k a) its b out -> parses (mret a ≫= k) its b out.
Proof. intros H. eapply parses_bind; [apply parses_ret|done]. Qed.

Lemma run_error {B} (k : bool -> P B) its b out :
  parses (k false) its b out -> parses (getp has_error ≫= k) its b out.
Proof. intros H. eapply parses_bind; [apply parses_error|done]. Qed.

Lemma run_start {B} (k : bool -> P B) its b out :
  parses (k (expr_start_tok (next_type its))) its b out -> parses (is_expr_start ≫= k) its b out.
Proof.
  intros H. unfold is_expr_start. apply parses_assoc, parses_lpeek. intros t Ht. rewrite Ht.
  by apply run_ret.
Qed.

Lemma run_word {B} w t (k : Node -> P B) re its b out :
  item_ok re (Word w) -> shows_in text (Word w) t -> parses (k (AST_IDENTIFIER w)) its b out ->
  parses (token_ident t ≫= k) its b out.
Proof.
  intros Hw Ht H. eapply parses_bind; [apply (parses_token_ident _ (Word w)); [done|by eapply word_nonempty]|].
  unfold ast_identifier. cbn [item_text]. by rewrite (word_cstr _ _ Hw).
Qed.

Lemma run_word_text {B} w t (k : option (list Z) -> P B) re its b out :
  item_ok re (Word w) -> shows_in text (Word w) t -> parses (k (Some w)) its b out ->
  parses (token_text t ≫= k) its b out.
Proof.
  intros Hw Ht H. eapply parses_bind; [apply (parses_token_text _ (Word w)); [done|by eapply word_nonempty]|done].
Qed.

Lemma shown_type it t : shows_in text it t -> t_type t = item_type it.
Proof. by intros [(H & _) _]. Qed.

Lemma run_looking {A B} (m : P A) (k : A -> P B) its a mid b out :
  parses m its a mid -> parses (k a) its b out -> parses (looking m ≫= k) its b out.
Proof. intros Hm H. eapply parses_bind; [by eapply parses_looking|done]. Qed.

(** A call, then what follows: for a step at the end, its result is returned. *)
Lemma run_call {A B} (m : P A) (f : A -> P B) its a mid b out :
  parses m its a mid -> parses (f a) mid b out -> parses (m ≫= f) its b out.
Proof. apply parses_bind. Qed.

(** ** Loops *)

Lemma run_loop_end {St A} (body : St -> P (A + St)) n st its a mid :
  (1 <= n)%nat -> parses (body st) its (inl a) mid -> parses (ploop body n st) its a mid.
Proof. intros Hn H. destruct n as [|n]; [lia|]. by eapply parses_turn; [exact H|]. Qed.

Lemma run_loop_turn {St A} (body : St -> P (A + St)) n st st' its mid a out :
  parses (body st) its (inr st') mid -> parses (ploop body n st') mid a out ->
  parses (ploop body (S n) st) its a out.
Proof. intros H1 H2. by eapply parses_turn; [exact H1|]. Qed.

Lemma run_loop_more {St A} (body : St -> P (A + St)) n m st its a out :
  parses (ploop body n st) its a out -> (n <= m)%nat -> parses (ploop body m st) its a out.
Proof. apply parses_more. Qed.

(** The operators' loop stops before a token that binds less. *)
Lemma expr_loop_stops self n k left its :
  (1 <= n)%nat -> follow k (next_type its) = true ->
  parses (ploop (guarded [] (expr_turn self k)) n left) its left its.
Proof.
  intros Hn [[_ Ha]%andb_prop Hk]%andb_prop. apply run_loop_end; [done|].
  apply parses_guarded; [done|]. unfold expr_turn. apply parses_lpeek. intros t Ht.
  apply negb_true_iff in Ha. rewrite Ht, Ha, Hk. apply parses_ret.
Qed.

Lemma postfix_loop_stops self n left its :
  (1 <= n)%nat -> postfix_tok (next_type its) = false ->
  parses (ploop (guarded [] (postfix_turn self)) n left) its left its.
Proof.
  intros Hn Hp. apply run_loop_end; [done|]. apply parses_guarded; [done|].
  unfold postfix_turn. apply parses_lpeek. intros t Ht. rewrite Ht.
  destruct (next_type its); first [discriminate|apply parses_ret].
Qed.

(** ** The fuel of a call *)

Lemma grammar_fuel_at m : g_fuel (grammar_at m) = m.
Proof. by destruct m. Qed.

(** ** Claims

    On a phrase followed by [rest], with at least [enough] fuel, the function for
    the phrase returns its tree and leaves [rest].  A function that ends in a loop
    is said to come, at [rest], to its loop with the tree. *)

Definition enough (k : nat) (its : list item) (m : nat) : Prop := (4 * length its + k <= m)%nat.

Definition reads (k : nat) (f : grammar -> P Node) (after : LRTokType -> bool) (its : list item) (n : Node) : Prop :=
  forall m rest, enough k its m -> after (next_type rest) = true ->
    parses (f (grammar_at m)) (its ++ rest) n rest.

(** An operand of an operator of precedence [k]. *)
Definition bound (k : Z) : Z := if k <? 13 then k + 1 else k.

Definition reads_operand (k : Z) (its : list item) (n : Node) : Prop :=
  forall m min rest f r out,
    enough 2 its m -> 1 <= min <= k -> follow (bound k) (next_type rest) = true ->
    (f + length its <= m)%nat ->
    parses (ploop (guarded [] (expr_turn (grammar_at m) min)) f n) rest r out ->
    parses (parse_expr (grammar_at m) min) (its ++ rest) r out.

Definition reads_left_hand (its : list item) (n : Node) : Prop :=
  forall m rest f r out,
    enough 1 its m -> after_primary (next_type rest) = true -> (f + length its <= m)%nat ->
    parses (ploop (guarded [] (postfix_turn (grammar_at m))) f n) rest r out ->
    parses (parse_unary_expr (grammar_at m)) (its ++ rest) r out.

Definition reads_callee (its : list item) (n : Node) : Prop :=
  forall m rest f r out,
    enough 1 its m -> after_primary (next_type rest) = true -> (f + length its <= m)%nat ->
    parses (ploop (callee_turn (grammar_at m)) f n) rest r out ->
    parses (callee ← g_primary (grammar_at m); ploop (callee_turn (grammar_at m)) m callee)
           (its ++ rest) r out.

(** A turn of a loop over a list, up to the look for the comma: [next] is what
    the turn does after the element. *)
Definition reads_element_at (close : LRTokType -> bool)
    (turn : grammar -> list Node -> P (list Node + list Node))
    (next : list Node -> P (list Node + list Node)) (its : list item) (n : Node) : Prop :=
  forall m ns rest r out,
    enough 4 its m -> (next_type rest = TOK_COMMA \/ close (next_type rest) = true) ->
    parses (next (ns ++ [n])) rest r out ->
    parses (turn (grammar_at m) ns) (its ++ rest) r out.

Definition reads_element := reads_element_at (follow 0).

(** The ends of the turns. *)
Definition comma_or_close (close : LRTokType) (ns : list Node) : P (list Node + list Node) :=
  m ← match_token TOK_COMMA;
  if negb m then mret (inl ns)
  else r ← peek_token close; mret (if (r : bool) then inl ns else inr ns).

Definition comma_end (ns : list Node) : P (list Node + list Node) :=
  m ← match_token TOK_COMMA; mret ((if (m : bool) then inr else inl) ns).

(** Phrases with commas between, and phrases in a row. *)
Inductive list_of (C : list item -> Node -> Prop) : list item -> list Node -> Prop :=
  | list_one its n : C its n -> list_of C its [n]
  | list_more its1 n its2 ns :
      C its1 n -> list_of C its2 ns -> list_of C (its1 ++ tk "," :: its2) (n :: ns).

Inductive row_of (C : list item -> Node -> Prop) : list item -> list Node -> Prop :=
  | row_one its n : C its n -> row_of C its [n]
  | row_more its1 n its2 ns :
      C its1 n -> row_of C its2 ns -> row_of C (its1 ++ its2) (n :: ns).

Definition after_statement (closed : bool) (t : LRTokType) : bool :=
  negb (tok_eqb t TOK_CATCH) && negb (tok_eqb t TOK_FINALLY) &&
  (closed || negb (tok_eqb t TOK_ELSE)).

Definition always (t : LRTokType) : bool := true.

(** An element of a list and the class of its first token. *)
Definition element sym turn next (its : list item) (n : Node) : Prop :=
  reads_element turn next its n /\ first_class sym (next_type its) = true.

Definition property_end (t : LRTokType) : bool := tok_eqb t TOK_RBRACE.

Definition reads_property (its : list item) (n : Node) : Prop :=
  reads_element_at property_end object_turn comma_end its n /\
  first_class Property (next_type its) = true.

Abbreviation assignment := (fun self => parse_expr self 1).

Definition reads_argument (its : list item) (n : Node) : Prop :=
  reads 2 assignment (follow 1) its n /\ element ArgumentList array_turn comma_end its n.

Definition reads_statement (closed : bool) (its : list item) (n : Node) : Prop :=
  reads 4 parse_statement (after_statement closed) its n.

Definition reads_parameters (its : list item) (ns : list Node) : Prop :=
  forall m rest, enough 0 its m -> parses (parse_params (grammar_at m)) (its ++ rest) ns rest.

Definition listed_statement (its : list item) (n : Node) : Prop :=
  reads_statement false its n /\ statement_start (next_type its) = true /\ is_null n = false.

Definition case_follow (t : LRTokType) : bool :=
  tok_eqb t TOK_RBRACE || tok_eqb t TOK_CASE || tok_eqb t LexText.TOK_DEFAULT.

Definition reads_case (its : list item) (n : Node) : Prop :=
  first_class Case (next_type its) = true /\
  forall m cases rest, enough 4 its m -> case_follow (next_type rest) = true ->
    parses (switch_turn (grammar_at m) cases) (its ++ rest) (inr (cases ++ [n])) rest.

(** The declaration need not have an initializer. *)
Definition declares (const : bool) (C : (grammar -> list Node -> P (list Node + list Node)) -> Prop) : Prop :=
  forall decl allow_no_init,
    (const = false -> tok_eqb decl TOK_CONST && negb allow_no_init = false) ->
    C (fun self => declarator_turn self decl allow_no_init).

Definition claim (sym : symbol) (its : list item) (ns : list Node) : Prop :=
  match sym, ns with
  | Primary, [n] => reads 0 parse_primary_expr after_primary its n
  | Callee, [n] => reads_callee its n
  | LeftHand, [n] => reads_left_hand its n
  | Update, [n] | Unary, [n] => reads 1 parse_unary_expr after_unary its n
  | Binary k, [n] => reads_operand k its n
  | Coalesce, [n] | ShortCircuit, [n] => reads_operand 2 its n
  | Assignment, [n] => reads 2 assignment (follow 1) its n
  | ArrowBody, [n] => reads 3 parse_arrow_body (follow 1) its n
  | Argument, [n] => reads_argument its n
  | ArgumentList, _ => list_of reads_argument its ns
  | Arguments, _ =>
      exists its', its = tk "(" :: its' /\
        forall m rest, enough 0 its m -> parses (parse_args (grammar_at m)) (its' ++ rest) ns rest
  | AssignmentList, _ => list_of (reads 2 assignment (follow 1)) its ns
  | Expression, [n] => reads 3 parse_expression (follow 0) its n
  | OptExpression, [n] =>
      forall stop, expr_start_tok stop = false ->
        reads 3 (fun self => optional_expression self stop)
              (fun t => tok_eqb t stop && follow 0 t) its n
  | Property, [n] => reads_property its n
  | PropertyList, _ => list_of reads_property its ns
  | Formal, [n] => element Formal params_turn (comma_or_close TOK_RPAREN) its n
  | FormalList, _ => list_of (element Formal params_turn (comma_or_close TOK_RPAREN)) its ns
  | Formals, _ => reads_parameters its ns
  | FunctionRest decl, [n] => reads 1 (fun self => parse_function self false false decl) always its n
  | Declarator const, [n] => declares const (fun turn => reads_element turn comma_end its n)
  | DeclaratorList const, _ =>
      declares const (fun turn => list_of (reads_element turn comma_end) its ns)
  | Block, [n] => reads 0 parse_block always its n
  | Statement closed, [n] => reads_statement closed its n
  | StatementList, _ => row_of listed_statement its ns
  | Case, [n] => reads_case its n
  | CaseList, _ => row_of reads_case its ns
  | _, _ => False
  end.

End Steps.

(** ** Running *)

(** The token is none of another class. *)
Ltac no_tok :=
  first
    [ reflexivity | assumption
    | match goal with
      | H : ?p ?t = true |- tok_eqb ?t _ = false => apply (class_not p t _ H); reflexivity
      | H : ?p ?t = true |- existsb (tok_eqb ?t) _ = false => apply (class_none p t _ H); reflexivity
      end
    | progress cbn [next_type item_type app];
      match goal with
      | H : ?p ?t = true |- tok_eqb ?t _ = false => apply (class_not p t _ H); reflexivity
      | H : ?p ?t = true |- existsb (tok_eqb ?t) _ = false => apply (class_none p t _ H); reflexivity
      end ].

(** One step on a known token. *)
Ltac run1 :=
  cbv beta iota delta [negb];
  lazymatch goal with
  | |- parses _ (mbind _ (mbind _ _)) _ _ _ => apply parses_assoc
  | |- parses _ (mbind _ (peek_token _)) _ _ _ =>
      first [apply run_peek_no; [no_tok|] | apply run_peek_yes; [first [reflexivity|assumption]|]]
  | |- parses _ (mbind _ (peek_any _)) _ _ _ =>
      first [apply run_any_no; [no_tok|] | apply run_any_yes; [reflexivity|]]
  | |- parses _ (mbind _ (match_token _)) _ _ _ =>
      first [apply run_match_no; [no_tok|] | apply run_match_yes; [reflexivity|]]
  | |- parses _ (mbind _ skip) _ _ _ => apply run_skip
  | |- parses _ (mbind _ (expect_token _)) _ _ _ => apply run_expect; [reflexivity|]
  | |- parses _ (mbind _ (mret _)) _ _ _ => apply run_ret
  | |- parses _ (mbind _ (getp has_error)) _ _ _ => apply run_error
  | |- parses _ (mret _) _ _ _ => apply parses_ret
  end.
Ltac run := repeat run1; cbv beta iota delta [negb].

(** The type of a known item, computed; of a word, its keyword. *)
Ltac know_type :=
  try (lazymatch goal with
       | |- context [item_type (Word ?w)] => change (item_type (Word w)) with (lookup_keyword w)
       | |- context [item_type ?it] =>
           let v := eval vm_compute in (item_type it) in change (item_type it) with v
       end);
  cbv beta iota.

(** The first token is read; is looked at. *)
Ltac first_token :=
  let t := fresh "t" in let Ht := fresh "Ht" in
  apply parses_next; intros t Ht; rewrite (shown_type _ _ _ Ht); know_type.

Ltac looked :=
  apply parses_lpeek; let t := fresh "t" in let Ht := fresh "Ht" in intros t Ht; rewrite Ht;
  cbn [next_type]; know_type.

(** The fuel suffices. *)
Ltac fits :=
  unfold enough in *; repeat progress (rewrite ?length_app in *; cbn [length] in *); lia.

(** Lists in the form [x :: y ++ z ++ rest]. *)
Ltac flat := repeat (rewrite <- app_assoc || rewrite <- app_comm_cons); cbn [app].
