(* ===== verification/GrammarExpr.v ===== *)
(** The parser implements the expressions of the grammar: the claim of
    [GrammarSteps.v] for every rule of an expression. *)

From stdpp Require Import base list strings.
From Stdlib Require Import ZArith Lia SpecFloat Ascii.
From S2P Require Import Prelude.
From S2P Require Import BcProgram.
From S2P Require Import LexText.
From S2P Require Import Lexer.
From S2P Require Import LexerPrint.
From S2P Require Import F64.
From S2P Require Import Ast.
From S2P Require Import ParseExpr.
From S2P Require Import ParseStmt.
From S2P Require Import ParseRead.
From S2P Require Import Grammar.
From S2P Require Import GrammarFacts.
From S2P Require Import GrammarSteps.

Section Expressions.

Context (text : list Z).
Abbreviation parses := (parses text).
Abbreviation reads := (reads text).
Abbreviation claim := (claim text).
Abbreviation reads_element := (reads_element text).

(** ** Lists *)

(** After an element. *)
Definition after_element (t : LRTokType) : Prop := t = TOK_COMMA \/ follow 0 t = true.

Lemma after_element_follow t : after_element t -> follow 1 t = true.
Proof. intros [->|H]; [done|]. by apply (follow_weaken 0). Qed.

Lemma after_no_comma t : follow 0 t = true -> tok_eqb t TOK_COMMA = false.
Proof. intros H. by apply (class_not (follow 0)). Qed.

Lemma next_of_list C its ns (sym : symbol) rest :
  list_of C its ns -> (forall its n, C its n -> first_class sym (next_type its) = true) ->
  first_class sym TOK_EOF = false -> first_class sym (next_type (its ++ rest)) = true.
Proof.
  intros H Hc He. destruct H as [its n H|its1 n its2 ns H _]; apply Hc in H.
  - destruct its; [by cbn in H; rewrite He in H|exact H].
  - destruct its1; [by cbn in H; rewrite He in H|exact H].
Qed.

(** The loop over a list whose turns end at a missing comma. *)
Lemma list_loop close turn C its ns :
  (forall t, close t = true -> follow 0 t = true) ->
  (forall its n, C its n -> reads_element_at text close turn comma_end its n) ->
  list_of C its ns -> forall m f acc rest,
  enough 4 its m -> (length its + 1 <= f)%nat -> close (next_type rest) = true ->
  parses (ploop (turn (grammar_at m)) f acc) (its ++ rest) (acc ++ ns) rest.
Proof.
  intros Hclose HC H. induction H as [its n H|its1 n its2 ns H _ IH]; intros m f acc rest Hm Hf Hr.
  - apply run_loop_end; [lia|]. apply (HC _ _ H); [done|by right|]. unfold comma_end.
    apply run_match_no; [by apply after_no_comma, Hclose|]. apply parses_ret.
  - destruct f as [|f]; [lia|]. rewrite <- app_assoc.
    eapply run_loop_turn.
    + apply (HC _ _ H); [fits|by left|]. unfold comma_end. cbn [app].
      apply run_match_yes; [reflexivity|]. apply parses_ret.
    + replace (acc ++ n :: ns) with ((acc ++ [n]) ++ ns) by (by rewrite <- app_assoc).
      apply IH; [fits|fits|done].
Qed.

(** The loop whose turns look for the closing token after a comma. *)
Lemma close_loop turn close C its ns :
  (forall its n, C its n -> reads_element turn (comma_or_close close) its n) ->
  (forall its n rest, C its n -> tok_eqb (next_type (its ++ rest)) close = false) ->
  follow 0 close = true ->
  list_of C its ns -> forall m f acc rest,
  enough 4 its m -> (length its + 1 <= f)%nat -> next_type rest = close ->
  parses (ploop (turn (grammar_at m)) f acc) (its ++ rest) (acc ++ ns) rest.
Proof.
  intros HC Hs Hc H. induction H as [its n H|its1 n its2 ns H Hl IH]; intros m f acc rest Hm Hf Hr.
  - apply run_loop_end; [lia|]. rewrite <- Hr in Hc.
    apply (HC _ _ H); [done|by right|]. unfold comma_or_close.
    apply run_match_no; [by apply after_no_comma|]. apply parses_ret.
  - destruct f as [|f]; [lia|]. rewrite <- app_assoc.
    eapply run_loop_turn.
    + apply (HC _ _ H); [fits|by left|]. unfold comma_or_close. cbn [app].
      apply run_match_yes; [reflexivity|]. apply run_peek_no; [|apply parses_ret].
      destruct Hl as [its2 n2 H2|its2 n2 its3 ns H2 _]; rewrite <- ?app_assoc; by eapply Hs.
    + replace (acc ++ n :: ns) with ((acc ++ [n]) ++ ns) by (by rewrite <- app_assoc).
      apply IH; [fits|fits|done].
Qed.

(** A turn behind the guard of its loop. *)
Lemma guarded_element close turn next stop its n :
  reads_element_at text close turn next its n ->
  (forall rest, existsb (tok_eqb (next_type (its ++ rest))) stop = false) ->
  reads_element_at text close (fun self => guarded stop (turn self)) next its n.
Proof.
  intros H Hs m ns rest r out Hm Ha Hr. apply parses_guarded; [apply Hs|]. by apply H.
Qed.

(** ** Primary expressions *)

Ltac primary := intros m rest Hm Ha; flat; unfold parse_primary_expr; first_token.

Lemma claim_number ds : item_ok true (Int ds) ->
  claim Primary [Int ds] [AST_LITERAL (LNumber (f64_of_Z (dec_value ds)))].
Proof.
  intros Hi. primary. destruct Ht as [(_ & _ & Hv) _]. cbn beta iota in Hv.
  rewrite Hv, (number_node _ _ Hi). apply parses_ret.
Qed.

Lemma claim_string q s : Forall (fun c => c <> 0) s -> claim Primary [Str q s] [AST_LITERAL (LString s)].
Proof.
  intros Hs. primary. destruct Ht as [(_ & _ & Hv) _]. cbn beta iota in Hv. rewrite Hv.
  cbn [default from_option id]. unfold ast_literal_string. rewrite cstr_nonzero by done. apply parses_ret.
Qed.

Lemma claim_bool (b : bool) : claim Primary [kw (if b then "true" else "false")] [bool_node b].
Proof.
  destruct b; primary; destruct Ht as [(_ & _ & Hv) _]; specialize (Hv eq_refl); rewrite Hv; apply parses_ret.
Qed.

Lemma claim_null : claim Primary [kw "null"] [AST_LITERAL LNull].
Proof. primary. apply parses_ret. Qed.

Lemma claim_undefined : claim Primary [kw "undefined"] [AST_LITERAL LUndefined].
Proof. primary. apply parses_ret. Qed.

Lemma claim_this : claim Primary [kw "this"] [AST_THIS].
Proof. primary. apply parses_ret. Qed.

(** A name; before an arrow too. *)
Definition no_template (t : LRTokType) : bool :=
  match t with TOK_TEMPLATE | TOK_TEMPLATE_END => false | _ => true end.

Lemma name_primary w : binding w -> reads 0 parse_primary_expr no_template [Word w] (AST_IDENTIFIER w).
Proof.
  intros [Hw Hn]. primary. unfold is_name_tok in Hn.
  assert (forall its, parses (token_ident t) its (AST_IDENTIFIER w) its) as Hid.
  { intros its. replace (AST_IDENTIFIER w) with (ast_identifier (item_text (Word w)))
      by (unfold ast_identifier; cbn [item_text]; by rewrite (word_cstr _ _ Hw)).
    apply (parses_token_ident text (Word w)); [done|by eapply word_nonempty]. }
  destruct (lookup_keyword w) eqn:E; try discriminate; try apply Hid.
  eapply parses_bind; [apply Hid|]. run.
Qed.

Lemma claim_name w : binding w -> claim Primary [Word w] [AST_IDENTIFIER w].
Proof.
  intros H m rest Hm Ha. apply (name_primary w H); [done|]. by destruct (next_type rest).
Qed.

Lemma claim_paren its n :
  starts Expression its -> claim Expression its [n] -> claim Primary (tk "(" :: its ++ [tk ")"]) [n].
Proof.
  intros Hs H. primary. unfold parse_paren.
  pose proof (next_type_class Expression its ([tk ")"] ++ rest) Hs ltac:(done)) as Hc. run.
  eapply run_call; [apply (H m); [fits|done]|]. run.
Qed.

(** ** Arrays, objects, functions, [new] *)

Lemma array_element its n : reads_argument text its n ->
  reads_element (fun self => guarded [TOK_RBRACKET] (array_turn self)) comma_end its n.
Proof.
  intros (_ & H & Hc). apply guarded_element; [done|]. intros rest.
  assert (first_class ArgumentList (next_type (its ++ rest)) = true) as Hn by (by destruct its).
  no_tok.
Qed.

Lemma claim_array its ns :
  claim ArgumentList its ns -> claim Primary (tk "[" :: its ++ [tk "]"]) [AST_ARRAY ns].
Proof.
  intros H. primary. unfold parse_array_literal. rewrite grammar_fuel_at.
  eapply run_call; [apply (list_loop (follow 0) (fun self => guarded [TOK_RBRACKET] (array_turn self)) _ _ _ (fun _ Ht => Ht) array_element H); [fits|fits|done]|].
  run.
Qed.

Lemma claim_array_empty : claim Primary [tk "["; tk "]"] [AST_ARRAY []].
Proof.
  primary. unfold parse_array_literal. rewrite grammar_fuel_at.
  eapply run_call; [apply run_loop_end; [fits|]; by apply parses_guarded_stop|]. run.
Qed.

Lemma property_end_follow t : property_end t = true -> follow 0 t = true.
Proof. by destruct t. Qed.

Lemma object_element its n : reads_property text its n ->
  reads_element_at text property_end (fun self => guarded [TOK_RBRACE] (object_turn self)) comma_end its n.
Proof.
  intros (H & Hc). apply guarded_element; [done|]. intros rest.
  assert (first_class Property (next_type (its ++ rest)) = true) as Hn by (by destruct its).
  no_tok.
Qed.

Lemma claim_object its ns :
  claim PropertyList its ns -> claim Primary (tk "{" :: its ++ [tk "}"]) [AST_OBJECT ns].
Proof.
  intros H. primary. unfold parse_object_literal. rewrite grammar_fuel_at.
  eapply run_call; [apply (list_loop property_end (fun self => guarded [TOK_RBRACE] (object_turn self)) _ _ _ property_end_follow object_element H); [fits|fits|done]|].
  run.
Qed.

Lemma claim_object_empty : claim Primary [tk "{"; tk "}"] [AST_OBJECT []].
Proof.
  primary. unfold parse_object_literal. rewrite grammar_fuel_at.
  eapply run_call; [apply run_loop_end; [fits|]; by apply parses_guarded_stop|]. run.
Qed.

Lemma claim_function_expr its n :
  claim (FunctionRest false) its [n] -> claim Primary (kw "function" :: its) [n].
Proof. intros H. primary. destruct m as [|m]; [fits|]. apply (H m); [fits|done]. Qed.

(** A word after a dot. *)
Lemma run_prop_name {B} w (k : Token -> P B) its b out :
  prop_name w ->
  (forall t, shows_in text (Word w) t -> is_prop_name_token (t_type t) = true ->
     t_type t = lookup_keyword w -> parses (k t) its b out) ->
  parses (next_token ≫= k) (Word w :: its) b out.
Proof.
  intros [Hw Hd] H. apply parses_next. intros t Ht. pose proof (shown_type _ _ _ Ht) as E. cbn [item_type] in E.
  apply H; [done| |done]. rewrite E. by apply word_prop_name.
Qed.

Lemma claim_callee its n : claim Primary its [n] -> claim Callee its [n].
Proof.
  intros H m rest f r out Hm Ha Hf Hr. destruct m as [|m]; [fits|].
  eapply run_call; [apply (H m); [fits|done]|]. eapply run_loop_more; [exact Hr|fits].
Qed.

Lemma claim_callee_member its n w :
  prop_name w -> claim Callee its [n] ->
  claim Callee (its ++ [tk "."; Word w]) [AST_MEMBER n (AST_IDENTIFIER w)].
Proof.
  intros Hw H m rest f r out Hm Ha Hf Hr. flat. apply (H m _ (S f)); [fits|done|fits|].
  eapply run_loop_turn; [|exact Hr]. unfold callee_turn. run. looked. run.
  apply run_prop_name; [done|]. intros t0 Ht0 Hp _. rewrite Hp. run.
  eapply run_word; [apply Hw|done|]. run.
Qed.

Lemma claim_callee_computed its1 n its2 p :
  claim Callee its1 [n] -> claim Assignment its2 [p] ->
  claim Callee (its1 ++ tk "[" :: its2 ++ [tk "]"]) [AST_COMPUTED_MEMBER n p].
Proof.
  intros H1 H2 m rest f r out Hm Ha Hf Hr. flat. apply (H1 m _ (S f)); [fits|done|fits|].
  eapply run_loop_turn; [|exact Hr]. unfold callee_turn. run. looked. run.
  destruct m as [|m]; [fits|]. eapply run_call; [apply (H2 m); [fits|done]|]. run.
Qed.

Lemma claim_new its1 c its2 args :
  claim Callee its1 [c] -> claim Arguments its2 args ->
  claim Primary (kw "new" :: its1 ++ its2) [AST_NEW c args].
Proof.
  intros H1 (its' & -> & H2). primary. unfold parse_new. rewrite grammar_fuel_at.
  apply parses_unassoc. eapply run_call.
  - apply (H1 m _ 1%nat (false, c)); [fits|done|fits|]. apply run_loop_end; [lia|].
    unfold callee_turn. run. looked. apply parses_ret.
  - run. eapply run_call; [apply (H2 m); fits|]. run.
Qed.

(** ** Members and calls *)

Lemma claim_primary its n : claim Primary its [n] -> claim LeftHand its [n].
Proof.
  intros H m rest f r out Hm Ha Hf Hr. destruct m as [|m]; [fits|].
  unfold parse_unary_expr. eapply run_call; [apply (H m); [fits|done]|].
  unfold parse_postfix_expr. rewrite grammar_fuel_at. eapply run_loop_more; [exact Hr|fits].
Qed.

(** One more turn of the postfix loop. *)
Lemma left_hand_more its n its' n' :
  claim LeftHand its [n] ->
  next_type its' <> TOK_EOF -> after_primary (next_type its') = true -> (1 <= length its')%nat ->
  (forall m rest, enough 1 (its ++ its') m -> after_primary (next_type rest) = true ->
     parses (postfix_turn (grammar_at m) n) (its' ++ rest) (inr n') rest) ->
  claim LeftHand (its ++ its') [n'].
Proof.
  intros H He Hp Hl Ht m rest f r out Hm Ha Hf Hr. rewrite <- app_assoc.
  assert (next_type (its' ++ rest) = next_type its') as En by (by destruct its').
  apply (H m _ (S f)); [fits|by rewrite En|fits|].
  eapply run_loop_turn; [|exact Hr]. apply parses_guarded; [by rewrite En|]. by apply Ht.
Qed.

Lemma claim_member its n w :
  prop_name w -> claim LeftHand its [n] ->
  claim LeftHand (its ++ [tk "."; Word w]) [AST_MEMBER n (AST_IDENTIFIER w)].
Proof.
  intros Hw H. apply (left_hand_more its n); [done..|cbn; lia|]. intros m rest Hm Ha. flat.
  unfold postfix_turn. looked. run. apply run_prop_name; [done|]. intros t0 Ht0 Hp _. rewrite Hp. run.
  eapply run_word; [apply Hw|done|]. run.
Qed.

Lemma claim_optional_member its n w :
  prop_name w -> claim LeftHand its [n] ->
  claim LeftHand (its ++ [tk "?."; Word w]) [AST_OPTIONAL_MEMBER n (AST_IDENTIFIER w)].
Proof.
  intros Hw H. apply (left_hand_more its n); [done..|cbn; lia|]. intros m rest Hm Ha. flat.
  unfold postfix_turn. looked. run. apply run_prop_name; [done|]. intros t0 Ht0 Hp Et.
  rewrite Et in *. destruct (lookup_keyword w); try discriminate;
    (eapply run_word; [apply Hw|done|]; run).
Qed.

Lemma claim_computed its1 n its2 p :
  claim LeftHand its1 [n] -> claim Expression its2 [p] ->
  claim LeftHand (its1 ++ tk "[" :: its2 ++ [tk "]"]) [AST_COMPUTED_MEMBER n p].
Proof.
  intros H1 H2. apply (left_hand_more its1 n); [done..|cbn; lia|]. intros m rest Hm Ha. flat.
  unfold postfix_turn. looked. run. eapply run_call; [apply (H2 m); [fits|done]|]. run.
Qed.

Lemma claim_call its1 n its2 args :
  claim LeftHand its1 [n] -> claim Arguments its2 args ->
  claim LeftHand (its1 ++ its2) [AST_CALL n args].
Proof.
  intros H1 (its' & -> & H2). apply (left_hand_more its1 n); [done..|cbn; lia|]. intros m rest Hm Ha. flat.
  unfold postfix_turn. looked. run. eapply run_call; [apply (H2 m); fits|]. run.
Qed.

Lemma claim_optional_call its1 n its2 args :
  claim LeftHand its1 [n] -> claim Arguments its2 args ->
  claim LeftHand (its1 ++ tk "?." :: its2) [AST_OPTIONAL_CALL n args].
Proof.
  intros H1 (its' & -> & H2). apply (left_hand_more its1 n); [done..|cbn; lia|]. intros m rest Hm Ha. flat.
  unfold postfix_turn. looked. run. first_token. eapply run_call; [apply (H2 m); fits|]. run.
Qed.

(** ** Updates and prefix operators *)

Lemma after_unary_postfix t : after_unary t = true -> postfix_tok t = false.
Proof. by intros [H%negb_true_iff _]%andb_prop. Qed.

Lemma claim_left_hand its n : claim LeftHand its [n] -> claim Update its [n].
Proof.
  intros H m rest Hm Ha. apply (H m _ 1%nat); [fits|by apply after_unary_primary|fits|].
  apply postfix_loop_stops; [done|by apply after_unary_postfix].
Qed.

Lemma claim_postfix its n op :
  op ∈ update_ops -> claim LeftHand its [n] -> claim Update (its ++ [tk op]) [AST_UNARY op false n].
Proof.
  intros Hop H m rest Hm Ha. flat.
  destruct (update_op_table op Hop) as [-> | ->]; (apply (H m _ 2%nat); [fits|done|fits|];
    (eapply run_loop_turn; [|apply postfix_loop_stops; [done|by apply after_unary_postfix]]);
    (apply parses_guarded; [done|]); unfold postfix_turn; looked; run).
Qed.

(** A primary expression and no postfix. *)
Lemma unary_of_primary m its n rest :
  parses (parse_primary_expr (grammar_at m)) its n rest -> after_unary (next_type rest) = true ->
  parses (parse_unary_expr (grammar_at (S m))) its n rest.
Proof.
  intros H Ha. unfold parse_unary_expr. eapply run_call; [exact H|].
  unfold parse_postfix_expr. rewrite grammar_fuel_at.
  apply postfix_loop_stops; [lia|by apply after_unary_postfix].
Qed.

Lemma prefix_reads it op its n :
  (forall m rest, parses (prefix_op (grammar_at m) op) (its ++ rest) (AST_UNARY op true n) rest ->
     parses (parse_primary_expr (grammar_at m)) (it :: its ++ rest) (AST_UNARY op true n) rest) ->
  claim Unary its [n] -> reads 1 parse_unary_expr after_unary (it :: its) (AST_UNARY op true n).
Proof.
  intros Hp H m rest Hm Ha. destruct m as [|m]; [fits|]. cbn [app]. apply unary_of_primary; [|done].
  apply Hp. unfold prefix_op. eapply run_call; [apply (H m); [fits|done]|]. run.
Qed.

Lemma claim_prefix_update its n op :
  op ∈ update_ops -> claim Unary its [n] -> claim Update (tk op :: its) [AST_UNARY op true n].
Proof.
  intros Hop H. destruct (update_op_table op Hop) as [-> | ->]; (apply prefix_reads; [|exact H]);
    intros m rest Hr; unfold parse_primary_expr; first_token; exact Hr.
Qed.

Lemma claim_prefix it op its n :
  (it, op) ∈ prefix_ops -> claim Unary its [n] -> claim Unary (it :: its) [AST_UNARY op true n].
Proof.
  intros Hop H. apply prefix_reads; [|exact H]. intros m rest Hr. unfold prefix_ops in Hop.
  repeat (apply elem_of_cons in Hop as [Hop|Hop];
    [injection Hop as -> ->; unfold parse_primary_expr; first_token; exact Hr|]).
  by apply not_elem_of_nil in Hop.
Qed.

(** ** Binary operators *)

Lemma bound_mono j k : k <= j -> bound k <= bound j.
Proof. unfold bound. destruct (Z.ltb_spec k 13), (Z.ltb_spec j 13); lia. Qed.

(** An operand without operators. *)
Lemma operand_unary k its n :
  k <= 14 -> claim Unary its [n] -> reads_operand text k its n.
Proof.
  intros Hk H m min rest f r out Hm Hmin Ha Hf Hr. unfold parse_expr. run.
  eapply run_call; [apply (H m); [fits|by eapply follow_unary]|].
  eapply run_call; [unfold parse_postfix_expr; rewrite grammar_fuel_at; apply postfix_loop_stops;
    [fits|by eapply after_unary_postfix, follow_unary]|].
  rewrite grammar_fuel_at. eapply run_loop_more; [exact Hr|fits].
Qed.

Lemma claim_tighter j k its n :
  k <= j -> reads_operand text j its n -> reads_operand text k its n.
Proof.
  intros Hjk H m min rest f r out Hm Hmin Ha Hf Hr. apply (H m _ _ f); [done|lia| |done|done].
  eapply follow_weaken; [exact Ha|by apply bound_mono].
Qed.

(** The operand alone. *)
Lemma operand_reads k min its n :
  reads_operand text k its n -> 1 <= min <= k -> min <= bound k ->
  reads 2 (fun self => parse_expr self min) (follow min) its n.
Proof.
  intros H Hmin Hb m rest Hm Ha. apply (H m _ _ 1%nat); [done|done| |fits|].
  - by eapply follow_weaken.
  - by apply expr_loop_stops.
Qed.

(** An operator's turn, when its right operand is read. *)
Lemma operator_turn it op k m min its2 r l rest :
  let t := item_type it in
  get_precedence t = k -> get_op_str t = op -> tok_eqb t TOK_ARROW = false ->
  tok_eqb t TOK_QUESTION = false -> min <= k ->
  parses (parse_expr (grammar_at m) (next_min t k)) (its2 ++ rest) r rest ->
  parses (guarded [] (expr_turn (grammar_at (S m)) min) l) (it :: its2 ++ rest)
         (inr (if is_assign_op t then AST_ASSIGN op l r else AST_BINARY op l r)) rest.
Proof.
  intros t Hk Hop Harr Hq Hmin Hr. apply parses_guarded; [done|]. unfold expr_turn.
  apply parses_lpeek. intros t0 Ht0. cbn [next_type] in Ht0. fold t in Ht0. rewrite Ht0, Harr, Hk, Hq, Hop.
  destruct (Z.ltb_spec k min); [lia|]. run. eapply run_call; [exact Hr|]. run.
Qed.

Lemma follow_op k t : after_unary t = true -> get_precedence t = k -> k < 13 -> follow (bound k) t = true.
Proof.
  intros Ha Hp Hk. unfold follow, bound. rewrite Ha, Hp. destruct (Z.ltb_spec k 13); [|lia]. cbn. lia.
Qed.

(** A left-associative operator of precedence [k] on operands of precedences
    [j1] and [j2]. *)
Lemma binary_reads it op k j1 j2 its1 l its2 r :
  let t := item_type it in
  get_precedence t = k -> get_op_str t = op -> is_assign_op t = false ->
  tok_eqb t TOK_ARROW = false -> tok_eqb t TOK_QUESTION = false -> tok_eqb t TOK_POW = false ->
  after_unary t = true -> 2 <= k < 13 -> k <= j1 -> k < j2 ->
  reads_operand text j1 its1 l -> reads_operand text j2 its2 r ->
  reads_operand text k (its1 ++ it :: its2) (AST_BINARY op l r).
Proof.
  intros t Hk Hop Has Harr Hq Hpow Ha Hk2 Hj1 Hj2 H1 H2 m min rest f res out Hm Hmin Hfol Hf Hr.
  destruct m as [|m]; [fits|]. flat.
  apply (H1 _ _ _ (S f)); [fits|lia| |fits|].
  { eapply follow_weaken; [apply (follow_op k); [done|done|lia]|by apply bound_mono]. }
  eapply run_loop_turn; [|exact Hr].
  replace (AST_BINARY op l r) with (if is_assign_op t then AST_ASSIGN op l r else AST_BINARY op l r) by (by rewrite Has).
  apply (operator_turn _ _ k); try done; [lia|]. unfold next_min. fold t. rewrite Hpow, Has. cbn [orb].
  apply (operand_reads j2); [done|lia|unfold bound; destruct (_ <? _); lia|fits|].
  eapply follow_weaken; [exact Hfol|]. unfold bound. destruct (Z.ltb_spec k 13); lia.
Qed.

Lemma claim_binary it op k its1 l its2 r :
  (it, op, k) ∈ binary_ops -> claim (Binary k) its1 [l] -> claim (Binary (k + 1)) its2 [r] ->
  claim (Binary k) (its1 ++ it :: its2) [AST_BINARY op l r].
Proof.
  intros Hop H1 H2. destruct (binary_op_table it op k Hop) as (? & ? & ? & ? & ? & ? & ? & ?).
  apply (binary_reads it op k k (k + 1)); (done || lia).
Qed.

Lemma claim_coalesce j its1 l its2 r :
  2 <= j -> reads_operand text j its1 l -> claim (Binary 5) its2 [r] ->
  claim Coalesce (its1 ++ tk "??" :: its2) [AST_BINARY "??" l r].
Proof. intros Hj H1 H2. apply (binary_reads (tk "??") "??" 2 j 5);
    first [reflexivity|lia|exact H1|exact H2]. Qed.

Lemma claim_power its1 l its2 r :
  claim Update its1 [l] -> claim (Binary 13) its2 [r] ->
  claim (Binary 13) (its1 ++ tk "**" :: its2) [AST_BINARY "**" l r].
Proof.
  intros H1 H2 m min rest f res out Hm Hmin Hfol Hf Hr. destruct m as [|m]; [fits|]. flat.
  apply (operand_unary 14 its1 l ltac:(lia) H1 _ _ _ (S f)); [fits|lia|reflexivity|fits|].
  eapply run_loop_turn; [|exact Hr].
  apply (operator_turn (tk "**") "**" 13 m min its2 r l); try done; [lia|].
  change (next_min _ _) with 13. apply (operand_reads 13); [done|lia|unfold bound; cbn; lia|fits|done].
Qed.

(** ** Conditionals and assignments *)

Lemma claim_short_circuit its n : claim ShortCircuit its [n] -> claim Assignment its [n].
Proof. intros H. apply (operand_reads 2); [done|lia|unfold bound; cbn; lia]. Qed.

Lemma claim_conditional its1 c its2 a its3 b :
  claim ShortCircuit its1 [c] -> claim Assignment its2 [a] -> claim Assignment its3 [b] ->
  claim Assignment (its1 ++ tk "?" :: its2 ++ tk ":" :: its3) [AST_CONDITIONAL c a b].
Proof.
  intros H1 H2 H3 m rest Hm Ha. destruct m as [|m]; [fits|]. flat.
  apply (H1 _ _ _ 2%nat); [fits|lia|reflexivity|fits|].
  eapply run_loop_turn; [|by apply expr_loop_stops]. apply parses_guarded; [done|].
  unfold expr_turn. apply parses_lpeek. intros t Ht. rewrite Ht. change (next_type _) with TOK_QUESTION.
  cbn [get_precedence]. change (tok_eqb TOK_QUESTION TOK_ARROW) with false. change (2 <? 1) with false.
  rewrite tok_eqb_refl. run.
  eapply run_call; [apply (H2 m); [fits|reflexivity]|]. run.
  eapply run_call; [apply (H3 m); [fits|done]|]. run.
Qed.

Lemma claim_assign op its1 t its2 v :
  op ∈ assign_ops -> claim LeftHand its1 [t] -> claim Assignment its2 [v] ->
  claim Assignment (its1 ++ tk op :: its2) [AST_ASSIGN op t v].
Proof.
  intros Hop H1 H2 m rest Hm Ha. destruct m as [|m]; [fits|]. flat.
  destruct (assign_op_table op Hop) as (Hk & Ho & Has & Harr & Hq & Hau).
  apply (operand_unary 14 its1 t ltac:(lia) (claim_left_hand _ _ H1) _ _ _ 2%nat); [fits|lia| |fits|].
  { eapply follow_weaken; [by apply (follow_op 1)|]. unfold bound. cbn. lia. }
  eapply run_loop_turn; [|by apply expr_loop_stops].
  replace (AST_ASSIGN op t v) with (if is_assign_op (item_type (tk op)) then AST_ASSIGN op t v else AST_BINARY op t v)
    by (by rewrite Has).
  apply (operator_turn (tk op) op 1); try done. unfold next_min. rewrite Has, orb_true_r.
  apply (H2 m); [fits|done].
Qed.

(** ** Lists of expressions *)

Lemma run_assignment {B} its n m rest (k : Node -> P B) b out :
  reads 2 (fun self => parse_expr self 1) (follow 1) its n -> enough 3 its m ->
  follow 1 (next_type rest) = true -> parses (k n) rest b out ->
  parses (parse_assignment_expr (grammar_at m) ≫= k) (its ++ rest) b out.
Proof.
  intros H Hm Ha Hk. destruct m as [|m]; [fits|]. eapply run_call; [apply (H m); [fits|done]|exact Hk].
Qed.

Lemma claim_argument its n : starts Assignment its -> claim Assignment its [n] -> claim Argument its [n].
Proof.
  intros Hs H. split; [exact H|]. split.
  - intros m ns rest r out Hm Ha Hr. pose proof (next_type_class _ _ rest Hs ltac:(done)) as Hc.
    unfold array_turn. run. eapply run_call; [|exact Hr].
    destruct m as [|m]; [fits|]. apply (H m); [fits|by apply after_element_follow].
  - destruct its; [done|]. cbn [starts first_class next_type] in *. unfold expr_tok in Hs.
    by apply andb_prop in Hs as [? _].
Qed.

(** A primary expression and no operator. *)
Lemma expr_of_primary m its n rest :
  parses (parse_primary_expr (grammar_at m)) its n rest -> follow 1 (next_type rest) = true ->
  parses (parse_expr (grammar_at (S m)) 1) its n rest.
Proof.
  intros H Ha. pose proof (follow_unary _ _ Ha) as Hu. unfold parse_expr. run.
  eapply run_call; [by apply unary_of_primary|].
  eapply run_call; [unfold parse_postfix_expr; rewrite grammar_fuel_at; apply postfix_loop_stops;
    [lia|by apply after_unary_postfix]|].
  rewrite grammar_fuel_at. apply expr_loop_stops; [lia|done].
Qed.

Lemma claim_spread its n : claim Assignment its [n] -> claim Argument (tk "..." :: its) [AST_SPREAD_ELEMENT n].
Proof.
  intros H. split; [|split; [|done]].
  - intros m rest Hm Ha. destruct m as [|m]; [fits|]. flat. apply expr_of_primary; [|done].
    unfold parse_primary_expr. first_token. eapply run_assignment; [exact H|fits|done|]. run.
  - intros m ns rest r out Hm Ha Hr. flat. unfold array_turn. run.
    eapply run_assignment; [exact H|fits|by apply after_element_follow|]. run. exact Hr.
Qed.

(** The loop of the arguments of a call. *)
Lemma args_element its n : reads_argument text its n ->
  reads_element args_turn (comma_or_close TOK_RPAREN) its n.
Proof.
  intros (H & _ & _) m ns rest r out Hm Ha Hr. unfold args_turn.
  eapply run_assignment; [exact H|fits|by apply after_element_follow|]. exact Hr.
Qed.

Lemma argument_start its n rest : reads_argument text its n ->
  expr_start_tok (next_type (its ++ rest)) = true.
Proof. intros (_ & _ & H). by destruct its. Qed.

Lemma claim_arguments its ns : claim ArgumentList its ns -> claim Arguments (tk "(" :: its ++ [tk ")"]) ns.
Proof.
  intros H. exists (its ++ [tk ")"]). split; [done|]. intros m rest Hm. flat. unfold parse_args.
  assert (expr_start_tok (next_type (its ++ [tk ")"] ++ rest)) = true) as Hc.
  { destruct H as [its n H|its1 n its2 ns H _]; flat; by eapply argument_start. }
  run. rewrite grammar_fuel_at.
  eapply run_call;
    [apply (close_loop args_turn TOK_RPAREN (reads_argument text) its ns args_element); try done; [|fits|fits]|run].
  intros its0 n0 rest0 H0. pose proof (argument_start _ _ rest0 H0). no_tok.
Qed.

Lemma claim_no_arguments : claim Arguments [tk "("; tk ")"] [].
Proof.
  exists [tk ")"]. split; [done|]. intros m rest Hm. flat. unfold parse_args. run.
Qed.

(** A sequence. *)
Lemma sequence_loop its ns :
  list_of (reads 2 (fun self => parse_expr self 1) (follow 1)) its ns -> forall m f acc rest,
  enough 3 its m -> (length its + 2 <= f)%nat -> follow 0 (next_type rest) = true ->
  parses (ploop (sequence_turn (grammar_at m)) f acc) (tk "," :: its ++ rest) (acc ++ ns) rest.
Proof.
  intros H. induction H as [its n H|its1 n its2 ns H Hl IH]; intros m f acc rest Hm Hf Hr;
    (destruct f as [|f]; [lia|]); flat.
  - eapply run_loop_turn.
    + unfold sequence_turn. run. eapply run_assignment; [exact H|fits|by apply (follow_weaken 0)|]. run.
    + apply run_loop_end; [lia|]. unfold sequence_turn. apply run_match_no; [by apply after_no_comma|]. run.
  - eapply run_loop_turn.
    + unfold sequence_turn. run. eapply run_assignment; [exact H|fits|reflexivity|]. run.
    + replace (acc ++ n :: ns) with ((acc ++ [n]) ++ ns) by (by rewrite <- app_assoc).
      apply IH; [fits|fits|done].
Qed.

Lemma claim_expression its ns : claim AssignmentList its ns -> claim Expression its [sequence ns].
Proof.
  intros H m rest Hm Ha. destruct H as [its n H|its1 n its2 ns H Hl]; unfold parse_expression; flat.
  - eapply run_assignment; [exact H|fits|by apply (follow_weaken 0)|]. run1.
    apply run_peek_no; [by apply after_no_comma|]. run.
  - eapply run_assignment; [exact H|fits|reflexivity|]. run. rewrite grammar_fuel_at.
    eapply run_call; [apply (sequence_loop _ _ Hl m m [n]); [fits|fits|done]|].
    destruct ns as [|n2 ns]; [by inversion Hl|]. run.
Qed.

(** ** Arrow functions *)

Lemma name_assignment w : binding w -> reads 2 (fun self => parse_expr self 1) (follow 1) [Word w] (AST_IDENTIFIER w).
Proof.
  intros H. apply claim_short_circuit, operand_unary; [lia|].
  by apply claim_left_hand, claim_primary, claim_name.
Qed.

Lemma names_list ws : ws <> [] -> Forall binding ws ->
  claim AssignmentList (comma_names ws) (map AST_IDENTIFIER ws).
Proof.
  intros Hne H. induction H as [|w ws Hw Hws IH]; [done|]. destruct ws as [|w2 ws].
  - apply list_one. by apply name_assignment.
  - apply (list_more _ [Word w]); [by apply name_assignment|by apply IH].
Qed.

Lemma claim_arrow_name w its b :
  binding w -> claim ArrowBody its [b] ->
  claim Assignment (Word w :: tk "=>" :: its) [AST_ARROW [AST_IDENTIFIER w] b false].
Proof.
  intros Hw H m rest Hm Ha. destruct m as [|m]; [fits|]. flat. unfold parse_expr. run.
  unfold parse_unary_expr. apply parses_assoc.
  eapply run_call; [apply (name_primary w Hw m); [fits|reflexivity]|]. unfold parse_postfix_expr.
  rewrite !grammar_fuel_at.
  do 2 (eapply run_call; [apply postfix_loop_stops; [lia|reflexivity]|]).
  apply run_loop_end; [lia|]. apply parses_guarded; [done|]. unfold expr_turn. looked.
  change (tok_eqb TOK_ARROW TOK_ARROW) with true. run.
  eapply run_call; [apply (H (S m)); [fits|done]|]. run.
Qed.

Lemma claim_arrow ws its b :
  Forall binding ws -> claim ArrowBody its [b] ->
  claim Assignment (tk "(" :: comma_names ws ++ tk ")" :: tk "=>" :: its)
        [AST_ARROW (map AST_IDENTIFIER ws) b false].
Proof.
  intros Hws H m rest Hm Ha. destruct m as [|m]; [fits|]. flat. apply expr_of_primary; [|done].
  unfold parse_primary_expr. first_token. unfold parse_paren. destruct ws as [|w ws].
  - cbn [comma_names app map]. run. eapply run_call; [apply (H m); [fits|done]|]. run.
  - assert (claim Expression (comma_names (w :: ws)) [sequence (map AST_IDENTIFIER (w :: ws))]) as He
      by (by apply claim_expression, names_list).
    assert (is_name_tok (next_type (comma_names (w :: ws) ++ tk ")" :: tk "=>" :: its ++ rest)) = true) as Hc.
    { inversion Hws as [|? ? [_ Hb] _]; subst. by destruct ws. }
    run. eapply run_call; [apply (He m); [fits|reflexivity]|]. run.
    eapply run_call; [apply (H m); [fits|done]|].
    replace (arrow_params _) with (map AST_IDENTIFIER (w :: ws)) by (by destruct ws).
    replace (is_null _) with false by (by destruct ws). run.
Qed.

Lemma claim_arrow_block its b : starts Block its -> claim Block its [b] -> claim ArrowBody its [b].
Proof.
  intros Hs H m rest Hm Ha. unfold parse_arrow_body. destruct m as [|m]; [fits|].
  pose proof (next_type_class _ _ rest Hs ltac:(done)) as Hc. cbn [first_class] in Hc.
  apply run_peek_yes; [by destruct (tok_eqb_spec TOK_LBRACE (next_type (its ++ rest)))|].
  apply (H m); [fits|done].
Qed.

Lemma claim_arrow_expr its b :
  first_not [TOK_LBRACE] its -> claim Assignment its [b] -> claim ArrowBody its [b].
Proof.
  intros Hs H m rest Hm Ha. unfold parse_arrow_body. destruct m as [|m]; [fits|].
  apply run_peek_no; [|apply (H m); [fits|done]]. destruct its as [|it its]; [done|].
  cbn [first_not next_type app] in *. destruct (tok_eqb_spec (item_type it) TOK_LBRACE) as [E|]; [|done].
  destruct Hs. rewrite E. left.
Qed.

End Expressions.
