(* ===== verification/GrammarStmt.v ===== *)
(** The parser implements the rest of the grammar: properties, functions,
    declarations and statements. *)

From stdpp Require Import base list strings.
From Stdlib Require Import ZArith Lia SpecFloat Ascii.
From S2P Require Import Prelude.
From S2P Require Import BcProgram.
From S2P Require Import LexText.
From S2P Require Import Lexer.
From S2P Require Import LexerPrint.
From S2P Require Import F64.
From S2P Require Import Ast.
From S2P Require Import ParseExpr.
From S2P Require Import ParseStmt.
From S2P Require Import ParseRead.
From S2P Require Import Grammar.
From S2P Require Import GrammarFacts.
From S2P Require Import GrammarSteps.
From S2P Require Import GrammarExpr.

Section Statements.

Context (text : list Z).
Abbreviation parses := (parses text).
Abbreviation reads := (reads text).
Abbreviation claim := (claim text).
Abbreviation reads_element := (reads_element text).
Abbreviation element := (element text).

(** ** Optional expressions *)

Lemma claim_no_expression : claim OptExpression [] [AST_NULL].
Proof.
  intros stop Hs m rest Hm [Ht Hf]%andb_prop. unfold optional_expression.
  apply run_peek_yes; [cbn [app]; by destruct (tok_eqb_spec (next_type rest) stop)|]. run.
Qed.

Lemma claim_opt_expression its n :
  starts Expression its -> claim Expression its [n] -> claim OptExpression its [n].
Proof.
  intros Hst H stop Hs m rest Hm [Ht Hf]%andb_prop. unfold optional_expression.
  pose proof (next_type_class _ _ rest Hst ltac:(done)) as Hc.
  apply run_peek_no; [|apply (H m); [fits|done]].
  apply (class_not _ _ _ Hc). unfold first_class, expr_tok. by rewrite Hs.
Qed.

(** An optional expression before a semicolon or a parenthesis. *)
Lemma run_optional {B} its n stop m rest (k : Node -> P B) b out :
  claim OptExpression its [n] -> enough 3 its m -> expr_start_tok stop = false -> follow 0 stop = true ->
  next_type rest = stop -> parses (k n) rest b out ->
  parses (optional_expression (grammar_at m) stop ≫= k) (its ++ rest) b out.
Proof.
  intros H Hm Hs Hf Hr Hk. eapply run_call; [|exact Hk]. apply (H stop Hs m); [fits|].
  by rewrite Hr, tok_eqb_refl, Hf.
Qed.

(** ** Functions *)

Lemma run_function_rest {B} its1 ps its2 b m rest (k : list Node -> Node -> P B) r out :
  claim Formals its1 ps -> claim Block its2 [b] -> enough 1 (its1 ++ its2) m ->
  parses (k ps b) rest r out ->
  parses (params ← parse_params (grammar_at m); body ← g_block (grammar_at m); k params body)
         (its1 ++ its2 ++ rest) r out.
Proof.
  intros H1 H2 Hm Hk. destruct m as [|m]; [fits|]. eapply run_call; [apply (H1 (S m)); fits|].
  eapply run_call; [apply (H2 m); [fits|done]|]. exact Hk.
Qed.

Lemma formals_start its rest : starts Formals its -> next_type (its ++ rest) = TOK_LPAREN.
Proof.
  intros Hs. pose proof (next_type_class _ _ rest Hs ltac:(done)) as Hc. cbn [first_class] in Hc.
  by destruct (tok_eqb_spec TOK_LPAREN (next_type (its ++ rest))).
Qed.

(** [parse_function] after the star. *)
Lemma anonymous_reads gen its1 ps its2 b m rest :
  starts Formals its1 -> claim Formals its1 ps -> claim Block its2 [b] -> enough 1 (its1 ++ its2) m ->
  parses (parse_function (grammar_at m) false gen false) (its1 ++ its2 ++ rest)
         (function_node false None ps b gen) rest.
Proof.
  intros Hs H1 H2 Hm. pose proof (formals_start its1 (its2 ++ rest) Hs) as Hn.
  unfold parse_function. apply run_peek_no; [by rewrite Hn|]. run1.
  apply run_peek_no; [by rewrite Hn|]. do 3 run1.
  eapply run_function_rest; [exact H1|exact H2|done|]. rewrite orb_false_r. run.
Qed.

Lemma claim_anonymous star its1 ps its2 b :
  starts Formals its1 -> claim Formals its1 ps -> claim Block its2 [b] ->
  claim (FunctionRest false) (star_items star ++ its1 ++ its2) [function_node false None ps b star].
Proof.
  intros Hs H1 H2 m rest Hm _. destruct star.
  - pose proof (formals_start its1 (its2 ++ rest) Hs) as Hn. cbn [star_items]. flat. unfold parse_function. run.
    apply run_peek_no; [by rewrite Hn|]. do 3 run1.
    eapply run_function_rest; [exact H1|exact H2|cbn [star_items] in Hm; fits|]. run.
  - cbn [star_items app]. flat. apply anonymous_reads; [done..|cbn [star_items] in Hm; fits].
Qed.

Lemma claim_function decl star w its1 ps its2 b :
  ident w -> claim Formals its1 ps -> claim Block its2 [b] ->
  claim (FunctionRest decl) (star_items star ++ Word w :: its1 ++ its2)
        [function_node decl (Some w) ps b star].
Proof.
  intros [Hw Hi] H1 H2 m rest Hm _.
  assert (is_name_tok (lookup_keyword w) = true) as Hc by (by rewrite Hi).
  destruct star; cbn [star_items] in *; flat; unfold parse_function; run;
    (apply parses_next; intros t Ht);
    (eapply run_word_text; [exact Hw|exact Ht|]); run;
    (eapply run_function_rest; [exact H1|exact H2|fits|]); destruct decl; run.
Qed.

(** ** Formal parameters *)

Lemma run_default_none {B} target m rest (k : Node -> P B) b out :
  follow 1 (next_type rest) = true -> parses (k target) rest b out ->
  parses (with_default (grammar_at m) target ≫= k) rest b out.
Proof.
  intros Hf Hk. unfold with_default. run. exact Hk.
Qed.

Lemma run_default_some {B} target its v m rest (k : Node -> P B) b out :
  claim Assignment its [v] -> enough 3 its m -> follow 1 (next_type rest) = true ->
  parses (k (AST_DEFAULT_VALUE target v)) rest b out ->
  parses (with_default (grammar_at m) target ≫= k) (tk "=" :: its ++ rest) b out.
Proof.
  intros H Hm Hf Hk. unfold with_default. run. eapply run_assignment; [exact H|done|done|]. run. exact Hk.
Qed.

Lemma claim_formal w : binding w -> claim Formal [Word w] [AST_IDENTIFIER w].
Proof.
  intros [Hw Hb]. split; [|apply (binding_start _ Hb)].
  intros m ns rest r out Hm Ha Hr. flat. unfold params_turn. run.
  first_token. rewrite Hb. run. eapply run_word; [exact Hw|exact Ht|].
  apply run_default_none; [by apply after_element_follow|]. exact Hr.
Qed.

Lemma claim_default w its v :
  binding w -> claim Assignment its [v] ->
  claim Formal (Word w :: tk "=" :: its) [AST_DEFAULT_VALUE (AST_IDENTIFIER w) v].
Proof.
  intros [Hw Hb] H. split; [|apply (binding_start _ Hb)].
  intros m ns rest r out Hm Ha Hr. flat. unfold params_turn. run.
  first_token. rewrite Hb. run. eapply run_word; [exact Hw|exact Ht|].
  eapply run_default_some; [exact H|fits|by apply after_element_follow|]. exact Hr.
Qed.

Lemma claim_rest_parameter w :
  ident w -> element Formal params_turn (comma_or_close TOK_RPAREN) [tk "..."; Word w]
                     (AST_REST (AST_IDENTIFIER w)).
Proof.
  intros [Hw Hi]. split; [|done]. intros m ns rest r out Hm Ha Hr. flat. unfold params_turn. run.
  first_token. rewrite Hi, tok_eqb_refl. run. eapply run_word; [exact Hw|exact Ht|]. run. exact Hr.
Qed.

Lemma element_class sym turn next its n rest :
  element sym turn next its n -> first_class sym TOK_EOF = false ->
  first_class sym (next_type (its ++ rest)) = true.
Proof. intros [_ Hc] He. destruct its; [|done]. cbn [next_type] in Hc. congruence. Qed.

Lemma claim_formals its ns :
  starts FormalList its -> claim FormalList its ns -> claim Formals (tk "(" :: its ++ [tk ")"]) ns.
Proof.
  intros Hs H m rest Hm. flat. unfold parse_params.
  pose proof (next_type_class _ _ ([tk ")"] ++ rest) Hs ltac:(done)) as Hc. run. rewrite grammar_fuel_at.
  eapply run_call; [apply (close_loop _ (fun self => guarded [] (params_turn self)) TOK_RPAREN
    (element Formal params_turn (comma_or_close TOK_RPAREN)) its ns); try done; [| |fits|fits]|run].
  - intros its0 n0 [H0 _]. by apply guarded_element.
  - intros its0 n0 rest0 H0. pose proof (element_class _ _ _ _ _ rest0 H0 eq_refl). no_tok.
Qed.

Lemma claim_no_formals : claim Formals [tk "("; tk ")"] [].
Proof. intros m rest Hm. flat. unfold parse_params. run. Qed.

(** ** Properties *)

(** The branches of [object_turn]. *)
Lemma run_no_accessor {B} it X (k : option bool -> P B) b out :
  (existsb (tok_eqb (item_type it)) [TOK_GET; TOK_SET] = true ->
   existsb (tok_eqb (next_type X)) accessor_stop = true) ->
  parses (k None) (it :: X) b out -> parses (is_accessor ≫= k) (it :: X) b out.
Proof.
  intros Hs Hk. unfold is_accessor. run1. cbn [next_type].
  destruct (existsb (tok_eqb (item_type it)) [TOK_GET; TOK_SET]) eqn:E.
  - apply run_any_yes; [exact E|]. run1. eapply run_call; [apply parses_peek|]. run1.
    eapply run_looking.
    + apply run_skip. apply parses_peek_any.
    + rewrite Hs by done. run. exact Hk.
  - apply run_any_no; [exact E|]. run. exact Hk.
Qed.

Lemma word_no_accessor {B} w X (k : option bool -> P B) b out :
  existsb (tok_eqb (next_type X)) accessor_stop = true ->
  parses (k None) (Word w :: X) b out -> parses (is_accessor ≫= k) (Word w :: X) b out.
Proof. intros Hs. by apply run_no_accessor. Qed.

(** The first steps on a property that starts with a name. *)
Lemma named_turn w X m props r out :
  binding w -> existsb (tok_eqb (next_type X)) accessor_stop = true ->
  (forall t, shows_in text (Word w) t ->
     parses (prop ← named_property (grammar_at m) t; end_property props prop) X r out) ->
  parses (object_turn (grammar_at m) props) (Word w :: X) r out.
Proof.
  intros [Hw Hb] Hs Hk. unfold object_turn. run. apply word_no_accessor; [exact Hs|]. run.
  first_token. rewrite Hb. run. by apply Hk.
Qed.

Lemma after_property t : t = TOK_COMMA \/ property_end t = true -> follow 1 t = true.
Proof. intros [->|H]; [done|]. apply (follow_weaken 0); [by apply property_end_follow|lia]. Qed.

Lemma claim_property w its v :
  binding w -> claim Assignment its [v] ->
  claim Property (Word w :: tk ":" :: its) [AST_PROPERTY (AST_IDENTIFIER w) v false false false].
Proof.
  intros Hw H. split; [|apply (binding_start _ (proj2 Hw))]. intros m props rest r out Hm Ha Hr. flat.
  apply named_turn; [done|reflexivity|]. intros t Ht. unfold named_property. run.
  eapply run_word_text; [apply Hw|exact Ht|]. run.
  eapply run_assignment; [exact H|fits|by apply after_property|]. run.
  cbn [default from_option id]. unfold ast_identifier. rewrite (word_cstr _ _ (proj1 Hw)). exact Hr.
Qed.

Lemma claim_shorthand w :
  binding w ->
  claim Property [Word w] [AST_PROPERTY (AST_IDENTIFIER w) (AST_IDENTIFIER w) false true false].
Proof.
  intros Hw. split; [|apply (binding_start _ (proj2 Hw))]. intros m props rest r out Hm Ha Hr. flat.
  assert (exists t, next_type rest = t /\ (t = TOK_COMMA \/ t = TOK_RBRACE)) as (t0 & E & Ht0).
  { eexists. split; [done|]. destruct Ha as [?|Ha]; [by left|right]. unfold property_end in Ha.
    by destruct (tok_eqb_spec (next_type rest) TOK_RBRACE). }
  apply named_turn; [done|rewrite E; by destruct Ht0 as [-> | ->]|]. intros t Ht. unfold named_property. run1.
  eapply run_word_text; [apply Hw|exact Ht|]. cbv zeta.
  cbn [default from_option id]. unfold ast_identifier. rewrite (word_cstr _ _ (proj1 Hw)).
  run1. apply run_peek_no; [rewrite E; by destruct Ht0 as [-> | ->]|]. run1.
  apply run_any_no; [rewrite E; by destruct Ht0 as [-> | ->]|]. run1.
  apply run_any_yes; [rewrite E; by destruct Ht0 as [-> | ->]|]. run1.
  apply run_default_none; [rewrite E; by destruct Ht0 as [-> | ->]|]. run. exact Hr.
Qed.

Lemma claim_method w its1 ps its2 b :
  binding w -> starts Formals its1 -> claim Formals its1 ps -> claim Block its2 [b] ->
  claim Property (Word w :: its1 ++ its2) [method_node w ps b].
Proof.
  intros Hw Hs H1 H2. split; [|apply (binding_start _ (proj2 Hw))]. intros m props rest r out Hm Ha Hr. flat.
  pose proof (formals_start its1 (its2 ++ rest) Hs) as E.
  apply named_turn; [done|by rewrite E|]. intros t Ht. unfold named_property. run1.
  eapply run_word_text; [apply Hw|exact Ht|]. cbv zeta.
  cbn [default from_option id]. unfold ast_identifier. rewrite (word_cstr _ _ (proj1 Hw)).
  run1. apply run_peek_no; [by rewrite E|]. run1. apply run_any_yes; [by rewrite E|]. run.
  destruct m as [|m]; [fits|].
  eapply run_call; [apply (anonymous_reads false its1 ps its2 b m); [done..|fits]|]. run. exact Hr.
Qed.

Lemma claim_string_property q s its v :
  Forall (fun c => c <> 0) s -> claim Assignment its [v] ->
  claim Property (Str q s :: tk ":" :: its) [AST_PROPERTY (AST_LITERAL (LString s)) v false false false].
Proof.
  intros Hs H. split; [|done]. intros m props rest r out Hm Ha Hr. flat. unfold object_turn. run.
  apply run_no_accessor; [done|]. run. unfold literal_property, colon_value. run.
  first_token. destruct Ht as [(_ & _ & Hv) _]. cbn beta iota in Hv. rewrite Hv, tok_eqb_refl. run.
  eapply run_assignment; [exact H|fits|by apply after_property|]. run.
  cbn [default from_option id]. unfold ast_literal_string. rewrite cstr_nonzero by done. exact Hr.
Qed.

Lemma claim_number_property ds its v :
  item_ok true (Int ds) -> claim Assignment its [v] ->
  claim Property (Int ds :: tk ":" :: its)
        [AST_PROPERTY (AST_LITERAL (LNumber (f64_of_Z (dec_value ds)))) v false false false].
Proof.
  intros Hi H. split; [|done]. intros m props rest r out Hm Ha Hr. flat. unfold object_turn. run.
  apply run_no_accessor; [done|]. run. unfold literal_property, colon_value. run.
  first_token. destruct Ht as [(_ & _ & Hv) _]. cbn beta iota in Hv.
  change (tok_eqb TOK_NUMBER TOK_STRING) with false. cbv beta iota zeta. rewrite Hv, (number_node _ _ Hi). run.
  eapply run_assignment; [exact H|fits|by apply after_property|]. run. exact Hr.
Qed.

Lemma claim_computed_property its1 k its2 v :
  claim Assignment its1 [k] -> claim Assignment its2 [v] ->
  claim Property (tk "[" :: its1 ++ tk "]" :: tk ":" :: its2) [AST_PROPERTY k v true false false].
Proof.
  intros H1 H2. split; [|done]. intros m props rest r out Hm Ha Hr. flat. unfold object_turn. run.
  apply run_no_accessor; [done|]. run. unfold computed_property, colon_value. run.
  eapply run_call; [apply (claim_expression text its1 [k] (list_one _ _ _ H1) m); [fits|reflexivity]|]. run.
  eapply run_assignment; [exact H2|fits|by apply after_property|]. run. exact Hr.
Qed.

Lemma claim_spread_property its v :
  claim Assignment its [v] -> claim Property (tk "..." :: its) [AST_SPREAD v].
Proof.
  intros H. split; [|done]. intros m props rest r out Hm Ha Hr. flat. unfold object_turn. run.
  eapply run_assignment; [exact H|fits|by apply after_property|]. run. exact Hr.
Qed.

(** [get name] or [set name]: the word after it is no punctuator. *)
Lemma run_accessor {B} (get : bool) w X (k : option bool -> P B) b out :
  parses (k (Some get)) (kw (if get then "get" else "set") :: Word w :: X) b out ->
  parses (is_accessor ≫= k) (kw (if get then "get" else "set") :: Word w :: X) b out.
Proof.
  intros Hk. pose proof (word_class w) as Hc.
  assert (existsb (tok_eqb (lookup_keyword w)) accessor_stop = false) as Hs by no_tok.
  unfold is_accessor. destruct get; run; (eapply run_looking; [apply run_skip, parses_peek_any|]);
    cbn [next_type item_type]; rewrite Hs; run; exact Hk.
Qed.

Lemma claim_accessor (get : bool) w its1 ps its2 b :
  item_ok true (Word w) -> claim Formals its1 ps -> claim Block its2 [b] ->
  claim Property (kw (if get then "get" else "set") :: Word w :: its1 ++ its2) [accessor_node get w ps b].
Proof.
  intros Hw H1 H2. split; [|by destruct get]. intros m props rest r out Hm Ha Hr. flat.
  pose proof (word_class w) as Hc.
  assert (parses (object_turn (grammar_at m) props)
            (kw (if get then "get" else "set") :: Word w :: its1 ++ its2 ++ rest) r out) as G; [|exact G].
  unfold object_turn. do 2 (apply run_peek_no; [by destruct get|]; cbv beta iota). apply run_accessor.
  unfold accessor_property. run. apply parses_next. intros t Ht. run.
  eapply run_word_text; [exact Hw|exact Ht|]. run.
  eapply run_function_rest; [exact H1|exact H2|fits|]. cbn [default from_option id].
  unfold ast_identifier. rewrite (word_cstr _ _ Hw). exact Hr.
Qed.

(** ** Declarations *)

Lemma claim_declarator w : binding w ->
  claim (Declarator false) [Word w] [AST_VAR_DECLARATOR (AST_IDENTIFIER w) AST_NULL].
Proof.
  intros [Hw Hb] decl allow Hd m ns rest r out Hm Ha Hr. flat. specialize (Hd eq_refl).
  pose proof (after_element_follow _ Ha) as Hf. unfold declarator_turn. run.
  first_token. rewrite Hb. run. eapply run_word; [exact Hw|exact Ht|]. run.
  change (if allow then false else true) with (negb allow). rewrite Hd. run. exact Hr.
Qed.

Lemma claim_initialized const w its v :
  binding w -> claim Assignment its [v] ->
  claim (Declarator const) (Word w :: tk "=" :: its) [AST_VAR_DECLARATOR (AST_IDENTIFIER w) v].
Proof.
  intros [Hw Hb] H decl allow Hd m ns rest r out Hm Ha Hr. flat. unfold declarator_turn. run.
  first_token. rewrite Hb. run. eapply run_word; [exact Hw|exact Ht|]. run.
  eapply run_assignment; [exact H|fits|by apply after_element_follow|]. exact Hr.
Qed.

Lemma run_declarations {B} const its ns decl allow m rest (k : Node -> P B) b out :
  claim (DeclaratorList const) its ns ->
  (const = false -> tok_eqb decl TOK_CONST && negb allow = false) ->
  enough 4 its m -> follow 0 (next_type rest) = true ->
  parses (k (AST_VAR_DECL decl ns)) rest b out ->
  parses (parse_var_declaration (grammar_at m) decl allow ≫= k) (its ++ rest) b out.
Proof.
  intros H Hd Hm Hf Hk. unfold parse_var_declaration. rewrite grammar_fuel_at. run1.
  eapply run_call.
  - apply (list_loop text (follow 0) (fun self => guarded [] (declarator_turn self decl allow)) _ its ns (fun _ Ht => Ht)
      (fun its n (Hc : reads_element (fun self => declarator_turn self decl allow) comma_end its n) =>
         guarded_element text _ _ _ [] its n Hc (fun _ => eq_refl))
      (H decl allow Hd)); [fits|fits|done].
  - run. exact Hk.
Qed.

(** ** Statements in a row *)

Lemma statement_follow c t : statement_start t = true -> after_statement c t = true.
Proof. by destruct t, c. Qed.

Lemma statements_loop (turn : grammar -> list Node -> P (list Node + list Node)) stop its ns :
  (forall m acc its n rest, enough 5 its m -> listed_statement text its n ->
     after_statement false (next_type rest) = true ->
     parses (turn (grammar_at m) acc) (its ++ rest) (inr (acc ++ [n])) rest) ->
  forallb (fun t => negb (statement_start t)) stop = true ->
  row_of (listed_statement text) its ns -> forall m f acc rest,
  enough 5 its m -> (length its + 1 <= f)%nat -> existsb (tok_eqb (next_type rest)) stop = true ->
  after_statement false (next_type rest) = true ->
  parses (ploop (guarded stop (turn (grammar_at m))) f acc) (its ++ rest) (acc ++ ns) rest.
Proof.
  intros Ht Hstop H.
  assert (forall its n rest, listed_statement text its n -> statement_start (next_type (its ++ rest)) = true) as Hs.
  { intros its0 n0 rest0 (_ & Hs & _). by destruct its0. }
  assert (forall its n, listed_statement text its n -> its <> []) as Hne.
  { by intros its0 n0 (_ & Hs0 & _) ->. }
  induction H as [its n H|its1 n its2 ns H Hl IH]; intros m f acc rest Hm Hf Hr Ha;
    (destruct f as [|f]; [lia|]).
  - pose proof (Hs _ _ rest H) as Hc. pose proof (Hne _ _ H). destruct its as [|it its]; [done|].
    eapply run_loop_turn; [apply parses_guarded; [by apply (class_none _ _ _ Hc)|by apply Ht]|].
    apply run_loop_end; [fits|]. by apply parses_guarded_stop.
  - assert (statement_start (next_type (its2 ++ rest)) = true) as Hc2.
    { destruct Hl as [its2 n2 H2|its2 n2 its3 ns H2 _]; flat; by eapply Hs. }
    pose proof (Hs _ _ (its2 ++ rest) H) as Hc. pose proof (Hne _ _ H). flat.
    eapply run_loop_turn.
    + apply parses_guarded; [by apply (class_none _ _ _ Hc)|]. apply Ht; [fits|done|by apply statement_follow].
    + replace (acc ++ n :: ns) with ((acc ++ [n]) ++ ns) by (by rewrite <- app_assoc).
      destruct its1 as [|it its1]; [done|]. apply IH; [fits|fits|done|done].
Qed.

Lemma block_turn_reads m acc its n rest :
  enough 5 its m -> listed_statement text its n -> after_statement false (next_type rest) = true ->
  parses (block_turn (grammar_at m) acc) (its ++ rest) (inr (acc ++ [n])) rest.
Proof.
  intros Hm (H & _ & Hn) Ha. unfold block_turn. apply parses_lpeek. intros t _. destruct m as [|m]; [fits|].
  eapply run_call; [apply (H m); [fits|done]|]. run1. rewrite Hn. cbn [negb orb]. unfold push. rewrite Hn. run.
Qed.

Lemma case_turn_reads m acc its n rest :
  enough 5 its m -> listed_statement text its n -> after_statement false (next_type rest) = true ->
  parses (case_turn (grammar_at m) acc) (its ++ rest) (inr (acc ++ [n])) rest.
Proof.
  intros Hm (H & _ & Hn) Ha. unfold case_turn. destruct m as [|m]; [fits|].
  eapply run_call; [apply (H m); [fits|done]|]. unfold push. rewrite Hn. run.
Qed.

Lemma program_turn_reads m acc its n rest :
  enough 5 its m -> listed_statement text its n -> after_statement false (next_type rest) = true ->
  parses (program_turn (grammar_at m) acc) (its ++ rest) (inr (acc ++ [n])) rest.
Proof.
  intros Hm (H & _ & Hn) Ha. unfold program_turn. destruct m as [|m]; [fits|].
  eapply run_call; [apply (H m); [fits|done]|]. run1. rewrite Hn. cbn [negb orb]. unfold push. rewrite Hn. run.
Qed.

Lemma claim_block its ns : claim StatementList its ns -> claim Block (tk "{" :: its ++ [tk "}"]) [AST_BLOCK ns].
Proof.
  intros H m rest Hm _. flat. unfold parse_block. run. rewrite grammar_fuel_at.
  eapply run_call; [apply (statements_loop block_turn [TOK_RBRACE] its ns block_turn_reads); [done|exact H|fits|fits|done|done]|].
  run.
Qed.

Lemma claim_block_empty : claim Block [tk "{"; tk "}"] [AST_BLOCK []].
Proof.
  intros m rest Hm _. flat. unfold parse_block. run. rewrite grammar_fuel_at.
  eapply run_call; [apply run_loop_end; [fits|]; by apply parses_guarded_stop|]. run.
Qed.

(** ** Statements *)

Lemma run_expression {B} its n m rest (k : Node -> P B) b out :
  claim Expression its [n] -> enough 3 its m -> follow 0 (next_type rest) = true ->
  parses (k n) rest b out -> parses (parse_expression (grammar_at m) ≫= k) (its ++ rest) b out.
Proof. intros H Hm Hf Hk. eapply run_call; [by apply (H m)|exact Hk]. Qed.

Lemma run_statement {B} closed its n m rest (k : Node -> P B) b out :
  claim (Statement closed) its [n] -> enough 5 its m -> after_statement closed (next_type rest) = true ->
  parses (k n) rest b out -> parses (g_statement (grammar_at m) ≫= k) (its ++ rest) b out.
Proof. intros H Hm Hf Hk. destruct m as [|m]; [fits|]. eapply run_call; [apply (H m); [fits|done]|exact Hk]. Qed.

Lemma run_block {B} its n m rest (k : Node -> P B) b out :
  claim Block its [n] -> enough 1 its m -> parses (k n) rest b out ->
  parses (g_block (grammar_at m) ≫= k) (its ++ rest) b out.
Proof. intros H Hm Hk. destruct m as [|m]; [fits|]. eapply run_call; [apply (H m); [fits|done]|exact Hk]. Qed.

Ltac statement := intros m rest Hm Ha; flat; unfold parse_statement; run; looked; run.

(** The phrases of a statement, in order. *)
Ltac phrase :=
  run;
  first [ eapply run_expression; [eassumption|fits|reflexivity|]
        | eapply run_statement; [eassumption|fits|first [done|reflexivity]|]
        | eapply run_block; [eassumption|fits|] ];
  run.

Lemma claim_block_statement closed its n :
  starts Block its -> claim Block its [n] -> claim (Statement closed) its [n].
Proof.
  intros Hs H m rest Hm Ha. unfold parse_statement. run. apply parses_lpeek. intros t Ht. rewrite Ht.
  pose proof (next_type_class _ _ rest Hs ltac:(done)) as Hc. cbn [first_class] in Hc.
  destruct (tok_eqb_spec TOK_LBRACE (next_type (its ++ rest))) as [<-|]; [|done]. cbv beta iota.
  destruct m as [|m]; [fits|]. apply (H m); [fits|done].
Qed.

Lemma claim_declaration closed it decl its ns :
  (it, decl) ∈ decl_words -> claim (DeclaratorList (tok_eqb decl TOK_CONST)) its ns ->
  claim (Statement closed) (it :: its ++ [tk ";"]) [AST_VAR_DECL decl ns].
Proof.
  intros Hd H. destruct (decl_word_table it decl Hd) as [E|[E|E]]; injection E as -> ->; statement;
    (eapply run_declarations; [exact H|by intros ->|fits|reflexivity|]); run.
Qed.

Lemma claim_if its1 c its2 s :
  claim Expression its1 [c] -> claim (Statement false) its2 [s] ->
  claim (Statement false) (kw "if" :: tk "(" :: its1 ++ tk ")" :: its2) [AST_IF c s AST_NULL].
Proof. intros H1 H2. statement. unfold parse_if. do 2 phrase. Qed.

Lemma claim_if_else closed its1 c its2 s its3 e :
  claim Expression its1 [c] -> claim (Statement true) its2 [s] -> claim (Statement closed) its3 [e] ->
  claim (Statement closed) (kw "if" :: tk "(" :: its1 ++ tk ")" :: its2 ++ kw "else" :: its3) [AST_IF c s e].
Proof. intros H1 H2 H3. statement. unfold parse_if. do 3 phrase. Qed.

Lemma claim_while closed its1 c its2 s :
  claim Expression its1 [c] -> claim (Statement closed) its2 [s] ->
  claim (Statement closed) (kw "while" :: tk "(" :: its1 ++ tk ")" :: its2) [AST_WHILE c s].
Proof. intros H1 H2. statement. unfold parse_while. do 2 phrase. Qed.

Lemma claim_do closed its1 s its2 c :
  claim (Statement false) its1 [s] -> claim Expression its2 [c] ->
  claim (Statement closed) (kw "do" :: its1 ++ kw "while" :: tk "(" :: its2 ++ [tk ")"; tk ";"])
        [AST_DO_WHILE s c].
Proof. intros H1 H2. statement. unfold parse_do. do 2 phrase. Qed.

Lemma claim_break closed : claim (Statement closed) [kw "break"; tk ";"] [AST_BREAK AST_NULL].
Proof. statement. unfold jump_label. run. Qed.

Lemma claim_continue closed : claim (Statement closed) [kw "continue"; tk ";"] [AST_CONTINUE AST_NULL].
Proof. statement. unfold jump_label. run. Qed.

Lemma claim_return closed : claim (Statement closed) [kw "return"; tk ";"] [AST_RETURN AST_NULL].
Proof. statement. unfold parse_return. apply run_start. change (expr_start_tok _) with false. run. Qed.

Lemma claim_debugger closed : claim (Statement closed) [kw "debugger"; tk ";"] [AST_DEBUGGER].
Proof. statement. Qed.

Lemma claim_throw closed its e :
  claim Expression its [e] -> claim (Statement closed) (kw "throw" :: its ++ [tk ";"]) [AST_THROW e].
Proof. intros H. statement. unfold parse_throw. phrase. Qed.

Lemma claim_function_statement closed its n :
  claim (FunctionRest true) its [n] -> claim (Statement closed) (kw "function" :: its) [n].
Proof. intros H. statement. destruct m as [|m]; [fits|]. apply (H m); [fits|done]. Qed.

Lemma claim_break_label closed w :
  ident w -> claim (Statement closed) [kw "break"; Word w; tk ";"] [AST_BREAK (AST_IDENTIFIER w)].
Proof.
  intros [Hw Hi]. statement. unfold jump_label. run. apply parses_next. intros t0 Ht0. run.
  eapply run_word; [exact Hw|exact Ht0|]. run.
Qed.

Lemma claim_continue_label closed w :
  ident w -> claim (Statement closed) [kw "continue"; Word w; tk ";"] [AST_CONTINUE (AST_IDENTIFIER w)].
Proof.
  intros [Hw Hi]. statement. unfold jump_label. run. apply parses_next. intros t0 Ht0. run.
  eapply run_word; [exact Hw|exact Ht0|]. run.
Qed.

Lemma expression_class its rest :
  starts Expression its -> expr_tok (next_type (its ++ rest)) = true.
Proof. intros Hs. by apply (next_type_class Expression). Qed.

Lemma expr_tok_start t : expr_tok t = true -> expr_start_tok t = true.
Proof. by intros [H _]%andb_prop. Qed.

Lemma claim_return_value closed its e :
  starts Expression its -> claim Expression its [e] ->
  claim (Statement closed) (kw "return" :: its ++ [tk ";"]) [AST_RETURN e].
Proof.
  intros Hs H. statement. unfold parse_return. pose proof (expression_class _ (tk ";" :: rest) Hs) as Hc.
  apply run_start. rewrite (expr_tok_start _ Hc). phrase.
Qed.

(** ** Loops with a header *)

Lemma optional_class its stop rest :
  starts OptExpression its -> next_type rest = stop -> expr_tok stop = false ->
  forall type, expr_tok type = false -> tok_eqb stop type = false ->
  tok_eqb (next_type (its ++ rest)) type = false.
Proof.
  intros Hs Hr Hst type Ht Hne. destruct its as [|it its]; [by cbn [app]; rewrite Hr|].
  by apply (class_not expr_tok).
Qed.

(** From the first semicolon of the header on. *)
Lemma for_rest closed i its2 c its3 u its4 s m rest :
  claim OptExpression its2 [c] -> claim OptExpression its3 [u] -> claim (Statement closed) its4 [s] ->
  enough 5 (tk ";" :: its2 ++ tk ";" :: its3 ++ tk ")" :: its4) m ->
  after_statement closed (next_type rest) = true ->
  parses (for_in ← peek_token TOK_IN;
          if (for_in : bool) then for_each_rest (grammar_at m) (AST_FOR_IN i)
          else
            for_of ← peek_token TOK_OF;
            if (for_of : bool) then for_each_rest (grammar_at m) (AST_FOR_OF i)
            else
              expect_token TOK_SEMICOLON;;
              test ← optional_expression (grammar_at m) TOK_SEMICOLON;
              expect_token TOK_SEMICOLON;;
              update ← optional_expression (grammar_at m) TOK_RPAREN;
              expect_token TOK_RPAREN;;
              body ← g_statement (grammar_at m);
              mret (AST_FOR i test update body))
         (tk ";" :: its2 ++ tk ";" :: its3 ++ tk ")" :: its4 ++ rest) (AST_FOR i c u s) rest.
Proof.
  intros H2 H3 H4 Hm Ha. run.
  eapply run_optional; [exact H2|fits|reflexivity..|]. run.
  eapply run_optional; [exact H3|fits|reflexivity..|]. phrase.
Qed.

Lemma claim_for closed its1 i its2 c its3 u its4 s :
  starts OptExpression its1 -> claim OptExpression its1 [i] -> claim OptExpression its2 [c] ->
  claim OptExpression its3 [u] -> claim (Statement closed) its4 [s] ->
  claim (Statement closed)
    (kw "for" :: tk "(" :: its1 ++ tk ";" :: its2 ++ tk ";" :: its3 ++ tk ")" :: its4) [AST_FOR i c u s].
Proof.
  intros Hs H1 H2 H3 H4. statement. unfold parse_for. run.
  apply run_any_no.
  { cbn [existsb]. rewrite !(optional_class _ TOK_SEMICOLON) by done. done. }
  run. eapply run_optional; [exact H1|fits|reflexivity..|]. apply (for_rest closed); [done..|fits|done].
Qed.

Lemma claim_for_declaration closed it decl its1 ns its2 c its3 u its4 s :
  (it, decl) ∈ decl_words -> claim (DeclaratorList (tok_eqb decl TOK_CONST)) its1 ns ->
  claim OptExpression its2 [c] -> claim OptExpression its3 [u] -> claim (Statement closed) its4 [s] ->
  claim (Statement closed)
    (kw "for" :: tk "(" :: it :: its1 ++ tk ";" :: its2 ++ tk ";" :: its3 ++ tk ")" :: its4)
    [AST_FOR (AST_VAR_DECL decl ns) c u s].
Proof.
  intros Hd H1 H2 H3 H4. destruct (decl_word_table it decl Hd) as [E|[E|E]]; injection E as -> ->;
    statement; unfold parse_for; run; first_token;
    (eapply run_declarations; [exact H1|by rewrite andb_false_r|fits|reflexivity|]);
    (apply (for_rest closed); [done..|fits|done]).
Qed.

(** [for (var w in e)] and [for (var w of e)]. *)
Lemma run_loop_variable {B} w decl m rest (k : Node -> P B) b out :
  binding w -> enough 2 [Word w] m ->
  tok_eqb (next_type rest) TOK_ASSIGN = false -> tok_eqb (next_type rest) TOK_COMMA = false ->
  parses (k (AST_VAR_DECL decl [AST_VAR_DECLARATOR (AST_IDENTIFIER w) AST_NULL])) rest b out ->
  parses (parse_var_declaration (grammar_at m) decl true ≫= k) (Word w :: rest) b out.
Proof.
  intros [Hw Hb] Hm H1 H2 Hk. unfold parse_var_declaration. rewrite grammar_fuel_at. run1.
  eapply run_call; [apply (run_loop_end _ _ _ _ _ [AST_VAR_DECLARATOR (AST_IDENTIFIER w) AST_NULL]); [fits|]|].
  - apply parses_guarded; [done|]. unfold declarator_turn. run. first_token. rewrite Hb. run.
    eapply run_word; [exact Hw|exact Ht|]. run. rewrite andb_false_r. run.
  - run. exact Hk.
Qed.

Lemma claim_for_in closed it decl w its1 e its2 s :
  (it, decl) ∈ decl_words -> binding w -> claim Expression its1 [e] -> claim (Statement closed) its2 [s] ->
  claim (Statement closed) (kw "for" :: tk "(" :: it :: Word w :: kw "in" :: its1 ++ tk ")" :: its2)
    [AST_FOR_IN (AST_VAR_DECL decl [AST_VAR_DECLARATOR (AST_IDENTIFIER w) AST_NULL]) e s].
Proof.
  intros Hd Hw H1 H2. destruct (decl_word_table it decl Hd) as [E|[E|E]]; injection E as -> ->;
    statement; unfold parse_for; run; first_token;
    (eapply run_loop_variable; [exact Hw|fits|reflexivity..|]); run; unfold for_each_rest; do 2 phrase.
Qed.

Lemma claim_for_of closed it decl w its1 e its2 s :
  (it, decl) ∈ decl_words -> binding w -> claim Assignment its1 [e] -> claim (Statement closed) its2 [s] ->
  claim (Statement closed) (kw "for" :: tk "(" :: it :: Word w :: kw "of" :: its1 ++ tk ")" :: its2)
    [AST_FOR_OF (AST_VAR_DECL decl [AST_VAR_DECLARATOR (AST_IDENTIFIER w) AST_NULL]) e s].
Proof.
  intros Hd Hw H0 H2. assert (claim Expression its1 [e]) as H1
    by (apply (claim_expression text its1 [e]); by apply list_one).
  destruct (decl_word_table it decl Hd) as [E|[E|E]]; injection E as -> ->;
    statement; unfold parse_for; run; first_token;
    (eapply run_loop_variable; [exact Hw|fits|reflexivity..|]); run; unfold for_each_rest; do 2 phrase.
Qed.

(** ** [try] *)

Lemma run_catch {B} w rest (k : option (list Z) -> P B) n out :
  ident w -> parses (k (Some w)) rest n out ->
  parses (catch_binding ≫= k) (tk "(" :: Word w :: tk ")" :: rest) n out.
Proof.
  intros [Hw Hi] Hk. unfold catch_binding. run. apply parses_next. intros t Ht. unfold is_ident.
  rewrite (shown_type _ _ _ Ht). change (item_type (Word w)) with (lookup_keyword w).
  rewrite Hi, tok_eqb_refl. run. eapply run_word_text; [exact Hw|exact Ht|]. run. exact Hk.
Qed.

Lemma claim_try_catch closed its1 b w its2 c :
  claim Block its1 [b] -> ident w -> claim Block its2 [c] -> is_null c = false ->
  claim (Statement closed) (kw "try" :: its1 ++ kw "catch" :: tk "(" :: Word w :: tk ")" :: its2)
        [AST_TRY b c AST_NULL (Some w)].
Proof.
  intros H1 Hw H2 Hn. statement. unfold parse_try. phrase. apply run_catch; [done|]. phrase.
  rewrite Hn. cbn [andb is_null]. run.
Qed.

Lemma claim_try_finally closed its1 b its2 f :
  claim Block its1 [b] -> claim Block its2 [f] -> is_null f = false ->
  claim (Statement closed) (kw "try" :: its1 ++ kw "finally" :: its2) [AST_TRY b AST_NULL f None].
Proof.
  intros H1 H2 Hn. statement. unfold parse_try. do 2 phrase. rewrite Hn. cbn [andb is_null]. run.
Qed.

Lemma claim_try_both closed its1 b w its2 c its3 f :
  claim Block its1 [b] -> ident w -> claim Block its2 [c] -> is_null c = false -> claim Block its3 [f] ->
  claim (Statement closed)
    (kw "try" :: its1 ++ kw "catch" :: tk "(" :: Word w :: tk ")" :: its2 ++ kw "finally" :: its3)
    [AST_TRY b c f (Some w)].
Proof.
  intros H1 Hw H2 Hn H3. statement. unfold parse_try. phrase. apply run_catch; [done|]. do 2 phrase.
  rewrite Hn. cbn [andb is_null]. run.
Qed.

(** ** [switch] *)

Lemma case_follow_statement t : case_follow t = true -> after_statement false t = true.
Proof. by destruct t. Qed.

Lemma case_follow_stop t :
  case_follow t = true -> existsb (tok_eqb t) [TOK_RBRACE; TOK_CASE; LexText.TOK_DEFAULT] = true.
Proof. unfold case_follow. cbn [existsb]. by rewrite orb_false_r, orb_assoc. Qed.

Lemma run_case_body {B} its ns m rest (k : Node -> P B) b out :
  claim StatementList its ns -> enough 5 its m -> case_follow (next_type rest) = true ->
  parses (k (AST_BLOCK ns)) rest b out ->
  parses (case_body (grammar_at m) ≫= k) (its ++ rest) b out.
Proof.
  intros H Hm Ha Hk. unfold case_body. rewrite grammar_fuel_at. run1.
  eapply run_call;
    [apply (statements_loop case_turn [TOK_RBRACE; TOK_CASE; LexText.TOK_DEFAULT] its ns case_turn_reads);
      [done|exact H|fits|fits|by apply case_follow_stop|by apply case_follow_statement]|].
  run. exact Hk.
Qed.

Lemma run_case_empty {B} m rest (k : Node -> P B) b out :
  (1 <= m)%nat -> case_follow (next_type rest) = true -> parses (k (AST_BLOCK [])) rest b out ->
  parses (case_body (grammar_at m) ≫= k) rest b out.
Proof.
  intros Hm Ha Hk. unfold case_body. rewrite grammar_fuel_at. run1.
  eapply run_call; [apply run_loop_end; [done|]; by apply parses_guarded_stop, case_follow_stop|].
  run. exact Hk.
Qed.

Lemma claim_case its1 e its2 ns :
  claim Expression its1 [e] -> claim StatementList its2 ns ->
  claim Case (kw "case" :: its1 ++ tk ":" :: its2) [AST_CASE e (AST_BLOCK ns)].
Proof.
  intros H1 H2. split; [done|]. intros m cases rest Hm Ha. flat. unfold switch_turn. phrase.
  eapply run_case_body; [exact H2|fits|done|]. run.
Qed.

Lemma claim_case_empty its e :
  claim Expression its [e] -> claim Case (kw "case" :: its ++ [tk ":"]) [AST_CASE e (AST_BLOCK [])].
Proof.
  intros H. split; [done|]. intros m cases rest Hm Ha. flat. unfold switch_turn. phrase.
  apply run_case_empty; [fits|done|]. run.
Qed.

Lemma claim_case_default its ns :
  claim StatementList its ns -> claim Case (kw "default" :: tk ":" :: its) [AST_DEFAULT (AST_BLOCK ns)].
Proof.
  intros H. split; [done|]. intros m cases rest Hm Ha. flat. unfold switch_turn. run.
  eapply run_case_body; [exact H|fits|done|]. run.
Qed.

Lemma claim_case_default_empty : claim Case [kw "default"; tk ":"] [AST_DEFAULT (AST_BLOCK [])].
Proof.
  split; [done|]. intros m cases rest Hm Ha. flat. unfold switch_turn. run.
  apply run_case_empty; [fits|done|]. run.
Qed.

Lemma case_start_follow t : first_class Case t = true -> case_follow t = true.
Proof. by destruct t. Qed.

Lemma case_start_stop t : first_class Case t = true -> existsb (tok_eqb t) [TOK_RBRACE] = false.
Proof. by destruct t. Qed.

Lemma cases_loop its ns : row_of (reads_case text) its ns -> forall m f acc rest,
  enough 4 its m -> (length its + 1 <= f)%nat -> next_type rest = TOK_RBRACE ->
  parses (ploop (guarded [TOK_RBRACE] (switch_turn (grammar_at m))) f acc) (its ++ rest) (acc ++ ns) rest.
Proof.
  assert (forall its n rest, reads_case text its n -> first_class Case (next_type (its ++ rest)) = true) as Hs
    by (intros its0 n0 rest0 [Hc _]; by destruct its0).
  intros H. induction H as [its n H|its1 n its2 ns H Hl IH]; intros m f acc rest Hm Hf Hr;
    (destruct f as [|f]; [lia|]); pose proof H as [Hc Ht].
  - destruct its as [|it its]; [done|]. eapply run_loop_turn.
    + apply parses_guarded; [by apply case_start_stop, (Hs _ _ _ H)|]. apply Ht; [done|by rewrite Hr].
    + apply run_loop_end; [fits|]. apply parses_guarded_stop. by rewrite Hr.
  - destruct its1 as [|it its1]; [done|]. rewrite <- app_assoc. eapply run_loop_turn.
    + apply parses_guarded; [by apply case_start_stop, (Hs _ _ _ H)|]. apply Ht; [fits|].
      apply case_start_follow. destruct Hl as [its2 n2 H2|its2 n2 its3 ns H2 _]; flat; by eapply Hs.
    + replace (acc ++ n :: ns) with ((acc ++ [n]) ++ ns) by (by rewrite <- app_assoc).
      apply IH; [fits|fits|done].
Qed.

Lemma claim_switch closed its1 e its2 ns :
  claim Expression its1 [e] -> claim CaseList its2 ns ->
  claim (Statement closed) (kw "switch" :: tk "(" :: its1 ++ tk ")" :: tk "{" :: its2 ++ [tk "}"])
        [AST_SWITCH e ns].
Proof.
  intros H1 H2. statement. unfold parse_switch. phrase. rewrite grammar_fuel_at.
  eapply run_call; [apply (cases_loop _ _ H2); [fits|fits|done]|]. run.
Qed.

Lemma claim_switch_empty closed its e :
  claim Expression its [e] ->
  claim (Statement closed) (kw "switch" :: tk "(" :: its ++ [tk ")"; tk "{"; tk "}"]) [AST_SWITCH e []].
Proof.
  intros H1. statement. unfold parse_switch. phrase. rewrite grammar_fuel_at.
  eapply run_call; [apply run_loop_end; [fits|]; by apply parses_guarded_stop|]. run.
Qed.

(** ** Statements that start with a name *)

Lemma claim_label closed w its s :
  ident w -> claim (Statement closed) its [s] ->
  claim (Statement closed) (Word w :: tk ":" :: its) [AST_LABEL (AST_IDENTIFIER w) s].
Proof.
  intros [Hw Hi] H m rest Hm Ha. flat. unfold parse_statement. run.
  apply parses_peek_tok. intros t Ht _ _. rewrite (shown_type _ _ _ Ht).
  change (item_type (Word w)) with (lookup_keyword w). rewrite Hi. unfold identifier_statement. run.
  eapply run_word; [exact Hw|exact Ht|]. phrase.
Qed.

Lemma reads_expression_statement t its n m rest :
  starts Expression its -> claim Expression its [n] -> is_null n = false -> enough 4 its m ->
  parses (expression_statement (grammar_at m) t) (its ++ tk ";" :: rest) (AST_EXPR_STMT n) rest.
Proof.
  intros Hs H Hn Hm. unfold expression_statement. apply run_start.
  rewrite (expr_tok_start _ (expression_class _ (tk ";" :: rest) Hs)). phrase. rewrite Hn. run.
Qed.

(** An item of the type of a name is a name. *)
Lemma ident_item it re : item_ok re it -> item_type it = TOK_IDENTIFIER -> exists w, it = Word w.
Proof.
  destruct it as [w|ds|q s|txt ty]; intros Hok E; [by exists w|done|done|]. destruct Hok as [Hin _].
  cbn [item_type] in E. subst ty. unfold punct_texts in Hin.
  repeat (apply elem_of_cons in Hin as [Hin|Hin]; [discriminate|]). by apply not_elem_of_nil in Hin.
Qed.

Lemma claim_expression_statement closed its n :
  starts Expression its -> claim Expression its [n] -> is_null n = false ->
  (forall rest, next_type its = TOK_IDENTIFIER -> next_type rest <> TOK_COLON -> second its rest <> TOK_COLON) ->
  first_not [TOK_LBRACE; TOK_FUNCTION] its ->
  claim (Statement closed) (its ++ [tk ";"]) [AST_EXPR_STMT n].
Proof.
  intros Hs H Hn Hsec Hf m rest Hm Ha. flat.
  assert (forall t, parses (expression_statement (grammar_at m) t) (its ++ tk ";" :: rest) (AST_EXPR_STMT n) rest)
    as Hread by (intros t; apply reads_expression_statement; [done..|fits]).
  pose proof (expression_class _ (tk ";" :: rest) Hs) as Hc.
  destruct its as [|it its]; [done|]. cbn [first_not] in Hf. cbn [app next_type] in Hc.
  unfold parse_statement. run. rewrite <- !app_comm_cons in *.
  apply parses_peek_tok. intros t Ht Hok Hat. rewrite (shown_type _ _ _ Ht).
  destruct (tok_eqb_spec (item_type it) TOK_IDENTIFIER) as [E|E].
  - rewrite E. unfold identifier_statement. apply run_skip.
    apply run_peek_no.
    { specialize (Hsec (tk ";" :: rest) E ltac:(done)). cbn [second] in Hsec.
      by destruct (tok_eqb_spec (next_type (its ++ tk ";" :: rest)) TOK_COLON). }
    cbv iota. destruct Hok as [re Hok]. destruct (ident_item it re) as [w ->]; [apply Hok|done|].
    eapply run_call; [|apply Hread]. unfold rewind_to. by eapply parses_rewind; [exact Ht|exact Hat|by eexists].
  - destruct (item_type it) eqn:Et; try discriminate; try apply Hread; try done.
    all: by destruct Hf; repeat (first [left|right]).
Qed.

End Statements.
