(* ===== verification/GrammarOk.v ===== *)
(** The parser implements the grammar: every printed phrase of [Grammar.v] is
    parsed to its tree, so that the grammar gives a text one tree only. *)

From stdpp Require Import base list strings.
From Stdlib Require Import ZArith Lia SpecFloat Ascii.
From S2P Require Import Prelude.
From S2P Require Import LexText.
From S2P Require Import Lexer.
From S2P Require Import LexerPrint.
From S2P Require Import F64.
From S2P Require Import Ast.
From S2P Require Import ParseExpr.
From S2P Require Import ParseStmt.
From S2P Require Import ParseRead.
From S2P Require Import Grammar.
From S2P Require Import GrammarFacts.
From S2P Require Import GrammarSteps.
From S2P Require Import GrammarExpr.
From S2P Require Import GrammarStmt.

(** ** Every rule *)

Lemma single_not_null sym its n :
  derives sym its [n] -> sym <> OptExpression -> is_null n = false.
Proof. intros H Hs. pose proof (derives_not_null _ _ _ H Hs) as Hn. by inversion Hn. Qed.

Create HintDb grammar.
#[local] Hint Resolve derives_starts single_not_null : grammar.
#[local] Hint Resolve
  claim_number claim_string claim_null claim_undefined claim_this claim_name claim_paren
  claim_array_empty claim_array claim_object_empty claim_object claim_function_expr claim_new
  claim_callee claim_callee_member claim_callee_computed
  claim_primary claim_member claim_optional_member claim_computed claim_call claim_optional_call
  claim_left_hand claim_postfix claim_prefix_update claim_prefix
  claim_power claim_binary claim_short_circuit claim_conditional claim_assign
  claim_arrow_name claim_arrow claim_arrow_block claim_arrow_expr
  claim_argument claim_spread claim_no_arguments claim_arguments claim_expression
  claim_no_expression claim_opt_expression
  claim_property claim_string_property claim_number_property claim_computed_property claim_shorthand
  claim_method claim_accessor claim_spread_property
  claim_formal claim_default claim_no_formals claim_formals claim_function claim_anonymous
  claim_declarator claim_initialized claim_block_empty claim_block claim_block_statement
  claim_declaration claim_if claim_if_else claim_while claim_do claim_for claim_for_declaration
  claim_for_in claim_for_of claim_switch_empty claim_switch claim_case_empty claim_case
  claim_case_default_empty claim_case_default claim_break claim_break_label claim_continue
  claim_continue_label claim_return claim_return_value claim_throw claim_try_catch claim_try_finally
  claim_try_both claim_label claim_debugger claim_function_statement : grammar.

(** A statement of a list. *)
Lemma listed text its n :
  derives (Statement false) its [n] -> claim text (Statement false) its [n] ->
  listed_statement text its n.
Proof.
  intros Hd H. split_and!; [exact H| |by eapply single_not_null].
  pose proof (derives_starts _ _ _ Hd) as Hs. by destruct its.
Qed.

Lemma derives_claim text sym its ns : derives sym its ns -> claim text sym its ns.
Proof.
  induction 1; try solve [eauto with grammar nocore].
  all: try (eapply list_one; eassumption).
  all: try (eapply list_more; eassumption).
  all: try (eapply row_one; first [eassumption|by apply listed]).
  all: try (eapply row_more; first [eassumption|by apply listed]).
  all: try (by eauto using claim_try_catch, claim_try_finally, claim_try_both, single_not_null).
  - exact (claim_bool text true).
  - exact (claim_bool text false).
  - by apply operand_unary.
  - eapply claim_tighter; [|eassumption]. lia.
  - by apply (claim_coalesce text 5).
  - by apply (claim_coalesce text 2).
  - by apply (claim_tighter text 3 2).
  - by apply list_one, claim_rest_parameter.
  - intros decl allow Hd. apply list_one. by apply IHderives.
  - intros decl allow Hd. apply list_more; [by apply IHderives1|by apply IHderives2].
  - apply claim_expression_statement; try done; [by eapply derives_starts|by eapply single_not_null|].
    intros rest Hi Hr. by eapply second_plain.
Qed.

(** ** Programs *)

Lemma initial_reading its :
  items_ok true its -> reading (print_items its) its (parser_init (lexer_init (print_items its))).
Proof.
  intros Hok. split; [done|done|]. left. split; [done|]. split; [exact Hok|]. left.
  split; [apply lexer_init_ok|done].
Qed.

(** The program that has these statements. *)
Definition derives_program (its : list item) (ns : list Node) : Prop :=
  its = [] /\ ns = [] \/ derives StatementList its ns.

Lemma program_parses its ns n :
  derives_program its ns -> (4 * length its + 5 <= n)%nat ->
  parses (print_items its) (parse_program n) its (AST_PROGRAM ns) [].
Proof.
  intros Hd Hn. unfold parse_program. apply (run_call _ _ _ _ ns []).
  - destruct Hd as [[-> ->]|Hd].
    + apply run_loop_end; [lia|]. by apply parses_guarded_stop.
    + rewrite <- (app_nil_r its) at 2.
      apply (statements_loop (print_items its) program_turn [TOK_EOF] its ns (program_turn_reads _));
        [done|exact (derives_claim _ _ _ _ Hd)|unfold enough; lia|lia|done|done].
  - apply parses_ret.
Qed.

(** C4: the parser implements the grammar.  A program of the grammar, printed with
    a blank before each token, is parsed to its tree without an error: operators
    nest by their precedence and associativity, an [else] goes to the nearest
    [if], a name before a colon is a label and one before an arrow a parameter.
    Four levels of nested calls, and turns of each loop, per token suffice. *)
Theorem parser_implements_grammar (its : list item) (ns : list Node) (n : nat) :
  derives_program its ns -> items_ok true its -> (4 * length its + 5 <= n)%nat ->
  exists p, parse_text n (print_items its) = Done (AST_PROGRAM ns, p) /\ parser_get_error p = None.
Proof.
  intros Hd Hok Hn.
  destruct (program_parses its ns n Hd Hn _ (initial_reading its Hok)) as (p & E & Hp).
  exists p. split; [exact E|]. unfold parser_get_error. by rewrite (rd_error _ _ _ Hp).
Qed.

(** A program has one tree. *)
Lemma grammar_unambiguous its ns ns' :
  derives_program its ns -> derives_program its ns' -> items_ok true its -> ns = ns'.
Proof.
  intros H1 H2 Hok.
  destruct (program_parses its ns _ H1 (Nat.le_refl _) _ (initial_reading its Hok)) as (p1 & E1 & _).
  destruct (program_parses its ns' _ H2 (Nat.le_refl _) _ (initial_reading its Hok)) as (p2 & E2 & _).
  congruence.
Qed.

(** ** An example: [ if ( a ) b = 1 + 2 * c ; ] *)

Lemma primary_binary k its n : 3 <= k <= 14 -> derives Primary its [n] -> derives (Binary k) its [n].
Proof.
  intros Hk H. apply (D_tighter 14); [lia|]. by apply D_unary, D_update, D_left_hand, D_primary.
Qed.

Lemma logical_assignment its n : derives (Binary 3) its [n] -> derives Assignment its [n].
Proof. intros H. by apply D_short_circuit, D_logical. Qed.

Lemma assignment_expression its n : derives Assignment its [n] -> derives Expression its [n].
Proof. intros H. by apply (D_expression its [n]), D_last_assignment. Qed.

Definition sample_program : list item :=
  [kw "if"; tk "("; kw "a"; tk ")"; kw "b"; tk "="; Int [1]; tk "+"; Int [2]; tk "*"; kw "c"; tk ";"].

Definition sample_tree : Node :=
  AST_IF (AST_IDENTIFIER (chars_of "a"))
    (AST_EXPR_STMT (AST_ASSIGN "=" (AST_IDENTIFIER (chars_of "b"))
       (AST_BINARY "+" (AST_LITERAL (LNumber (f64_of_Z 1)))
          (AST_BINARY "*" (AST_LITERAL (LNumber (f64_of_Z 2))) (AST_IDENTIFIER (chars_of "c"))))))
    AST_NULL.

Lemma sample_int d : 0 <= d < 10 -> item_ok true (Int [d]).
Proof. intros H. split; [done|]. apply Forall_cons_2; [lia|apply Forall_nil_2]. Qed.

Lemma sample_name (s : string) : s ∈ ["a"; "b"; "c"]%string -> binding (chars_of s).
Proof.
  intros H. repeat (apply elem_of_cons in H as [->|H]; [by split; [split|]|]). by apply not_elem_of_nil in H.
Qed.

Lemma sample_derives : derives_program sample_program [sample_tree].
Proof.
  right. apply D_last_statement.
  apply (D_if [kw "a"] _ [kw "b"; tk "="; Int [1]; tk "+"; Int [2]; tk "*"; kw "c"; tk ";"]).
  - apply assignment_expression, logical_assignment, primary_binary; [lia|]. apply D_name, sample_name. left.
  - apply (D_expression_statement false [kw "b"; tk "="; Int [1]; tk "+"; Int [2]; tk "*"; kw "c"]).
    + apply assignment_expression, (D_assign "=" [kw "b"] _ [Int [1]; tk "+"; Int [2]; tk "*"; kw "c"]);
        [left|apply D_primary, D_name, sample_name; right; left|done|].
      apply logical_assignment, (D_tighter 11); [lia|].
      apply (D_binary (tk "+") "+" 11 [Int [1]] _ [Int [2]; tk "*"; kw "c"]).
      * by repeat (first [left; reflexivity|right]).
      * apply primary_binary; [lia|]. by apply (D_number [1]), sample_int.
      * apply (D_binary (tk "*") "*" 12 [Int [2]] _ [kw "c"]).
        -- by repeat (first [left; reflexivity|right]).
        -- apply primary_binary; [lia|]. by apply (D_number [2]), sample_int.
        -- apply primary_binary; [lia|]. apply D_name, sample_name. right; right; left.
    + intros H. repeat (apply elem_of_cons in H as [H|H]; [discriminate|]). by apply not_elem_of_nil in H.
Qed.

Lemma sample_ok : items_ok true sample_program.
Proof.
  cbn [items_ok sample_program]. split_and!; try done;
    try (split; [by repeat (first [left; reflexivity|right])|done]); by apply sample_int.
Qed.

Lemma parser_implements_grammar_witness :
  derives_program sample_program [sample_tree] /\ items_ok true sample_program /\
  exists p, parse_text 53 (print_items sample_program) = Done (AST_PROGRAM [sample_tree], p) /\
    parser_get_error p = None.
Proof.
  split; [exact sample_derives|]. split; [exact sample_ok|].
  apply (parser_implements_grammar sample_program [sample_tree] 53);
    [exact sample_derives|exact sample_ok|vm_compute; lia].
Defined.
