(* ===== verification/JsOps.v ===== *)
(** The value operations of the bytecode engine,
    [src/src/engine/lr_bytecode_value.c], with the conversions of
    [src/src/engine/lr_engine.c] they call and the fast paths the interpreter
    loop [src/src/engine/lr_bytecode_exec.c] puts in front of them.

    Numbers are a 32-bit integer or a double; the theorems relate every path to
    arithmetic on doubles.  A string is its bytes, an object its address with
    what the operations look at: the payload of a BigInt and whether it can be
    called.  Operations that would walk the heap of objects give [Outside]. *)

From stdpp Require Import base list strings.
From Stdlib Require Import ZArith Lia SpecFloat Ascii.
From S2P Require Import Prelude.
From S2P Require Import BcProgram.
From S2P Require Import LexText.
From S2P Require Import F64.
From S2P Require Import NumText.

(** ** Values *)

Inductive LRObject :=
  | OBigInt (value : Z)         (* LR_OBJ_BIGINT and its int64_t payload *)
  | OFunction                   (* lr_is_function holds *)
  | OPlain.

Inductive LRValue :=
  | JUndefined
  | JNull
  | JBool (b : bool)
  | JInt32 (i : Z)
  | JFloat64 (d : f64)
  | JString (s : list Z)
  | JSymbol (ptr : Z) (desc : list Z)
  | JObject (ptr : Z) (o : LRObject)
  | JException.

(** The tag comparisons [a.tag == b.tag]. *)
Definition tag (v : LRValue) : Z :=
  match v with
  | JUndefined => 0 | JNull => 1 | JBool _ => 2 | JInt32 _ => 3 | JFloat64 _ => 4
  | JString _ => 5 | JObject _ _ => 6 | JSymbol _ _ => 7 | JException => 8
  end.

(** What an operation does: a value, a JavaScript error, undefined behaviour of
    C, or a walk of the object heap that is not modelled. *)
Inductive outcome :=
  | Done (v : LRValue)
  | Raise (msg : string)
  | UB
  | Outside.

(** C-string truncation at the first NUL, as [strdup] and [strlen] do. *)
Definition lr_new_string (s : list Z) : LRValue := JString (cstr s).

Definition nan : f64 := S754_nan.
Definition f64_neg : f64 -> f64 := SFopp.

Section Operations.

(** [(int32_t)d] and [(int64_t)d] outside the range of the type are undefined
    in C; [cast_ub] is what the machine gives. *)
Context (cast_ub : f64 -> Z).
(** [pow] of the C library. *)
Context (pow : f64 -> f64 -> f64).
(** The outcome of allocating a string of a length, and of growing the buffer
    of a string that nothing else refers to. *)
Context (alloc_ok grow_ok : Z -> alloc_result).
(** The address of the object a BigInt operation allocates, if it can. *)
Context (new_ptr : option Z).

(** ** Conversions *)

Definition in_int32 (z : Z) : bool := (INT32_MIN <=? z) && (z <=? INT32_MAX).
Definition in_int64 (z : Z) : bool := (- 2 ^ 63 <=? z) && (z <=? 2 ^ 63 - 1).

(** [(int32_t)d] *)
Definition cast_int32 (d : f64) : Z :=
  match trunc d with
  | Some z => if in_int32 z then z else cast_ub d
  | None => cast_ub d
  end.

Definition lr_to_bool (v : LRValue) : bool :=
  match v with
  | JUndefined | JNull => false
  | JBool b => b
  | JInt32 i => negb (i =? 0)
  | JFloat64 d => negb (f64_eqb d (S754_zero false)) && negb (isnan d)
  | JString s => zlen s >? 0
  | JObject _ _ | JSymbol _ _ => true
  | JException => false
  end.

(** The result and the return code. *)
Definition lr_to_int32 (v : LRValue) : Z * Z :=
  match v with
  | JUndefined | JNull => (0, 0)
  | JBool b => (if b then 1 else 0, 0)
  | JInt32 i => (i, 0)
  | JFloat64 d => (cast_int32 d, 0)
  | JString s => (i32 (strtoll 0 (cstr s)), 0)
  | _ => (0, -1)
  end.

Definition is_blank (c : Z) : bool :=
  (c =? 32) || (c =? 9) || (c =? 10) || (c =? 13) || (c =? 12) || (c =? 11).

Fixpoint skip_blanks (s : list Z) : list Z :=
  match s with
  | c :: s' => if is_blank c then skip_blanks s' else s
  | [] => []
  end.

(** The numeric value of a string: [strtod] on the trimmed text must consume
    all of it. *)
Definition string_to_number (s : list Z) : f64 :=
  match skip_blanks s with
  | [] => S754_zero false
  | p =>
      match strtod_end p with
      | None => nan
      | Some (d, r) => match skip_blanks r with [] => d | _ :: _ => nan end
      end
  end.

Definition lr_to_float64 (v : LRValue) : f64 * Z :=
  match v with
  | JUndefined => (nan, 0)
  | JNull => (S754_zero false, 0)
  | JBool b => (if b then f64_of_Z 1 else S754_zero false, 0)
  | JInt32 i => (f64_of_Z i, 0)
  | JFloat64 d => (d, 0)
  | JString s => (string_to_number s, 0)
  | _ => (nan, -1)
  end.

(** The text of a double. *)
Definition print_f64 (d : f64) : list Z :=
  if isnan d then chars_of "NaN"
  else if isinf d then
    (if f64_ltb (S754_zero false) d then chars_of "Infinity" else chars_of "-Infinity")
  else print_g17 d.

(** [snprintf(buf, n, ...)] *)
Definition snprintf (n : Z) (s : list Z) : list Z := take (Z.to_nat (n - 1)) s.

(** [None]: the text of an object that is not a BigInt. *)
Definition lr_to_cstring (v : LRValue) : option (list Z) :=
  match v with
  | JUndefined => Some (chars_of "undefined")
  | JNull => Some (chars_of "null")
  | JBool b => Some (if b then chars_of "true" else chars_of "false")
  | JInt32 n => Some (print_int n)
  | JFloat64 d => Some (print_f64 d)
  | JString s => Some (cstr s)
  | JObject _ (OBigInt b) => Some (print_int b ++ [ch "n"])
  | JObject _ _ => None
  | JSymbol _ desc => Some (snprintf 256 (chars_of "Symbol(" ++ cstr desc ++ [ch ")"]))
  | JException => Some (chars_of "exception")
  end.

Definition bcv_to_number (v : LRValue) : f64 :=
  match v with
  | JInt32 i => f64_of_Z i
  | JFloat64 d => d
  | _ => (lr_to_float64 v).1
  end.

Definition bcv_to_int32 (v : LRValue) : Z :=
  match v with
  | JInt32 i => i
  | JFloat64 d => cast_int32 d
  | _ => (lr_to_int32 v).1
  end.

(** Box a double, preferring the int32 representation, but not for [-0]. *)
Definition bcv_number (d : f64) : LRValue :=
  let is_neg_zero := f64_eqb d (S754_zero false) && signbit d in
  if negb is_neg_zero && f64_eqb d (f64_of_Z (cast_int32 d)) && negb (isnan d) && negb (isinf d)
  then JInt32 (cast_int32 d) else JFloat64 d.

(** ** Equality *)

Definition bcv_strict_eq (a b : LRValue) : bool :=
  match a, b with
  | JUndefined, JUndefined | JNull, JNull => true
  | JBool x, JBool y => Bool.eqb x y
  | JInt32 x, JInt32 y => x =? y
  | JFloat64 x, JFloat64 y => f64_eqb x y
  | JString x, JString y => (zlen x =? zlen y) && bool_decide (x = y)
  | JObject x _, JObject y _ => x =? y
  | JSymbol x _, JSymbol y _ => x =? y
  | _, _ => false
  end.

Definition bcv_is_number (v : LRValue) : bool :=
  match v with JInt32 _ | JFloat64 _ => true | _ => false end.
Definition is_string (v : LRValue) : bool := match v with JString _ => true | _ => false end.
Definition is_object (v : LRValue) : bool := match v with JObject _ _ => true | _ => false end.
Definition is_bool (v : LRValue) : bool := match v with JBool _ => true | _ => false end.
Definition is_undefined (v : LRValue) : bool := match v with JUndefined => true | _ => false end.
Definition is_null (v : LRValue) : bool := match v with JNull => true | _ => false end.
Definition lr_is_bigint (v : LRValue) : bool :=
  match v with JObject _ (OBigInt _) => true | _ => false end.

(** The calls on itself replace an object by a string, at most once. *)
Fixpoint abstract_eq (fuel : nat) (a b : LRValue) : option bool :=
  match fuel with
  | O => None
  | S fuel' =>
      let left_prim := s ← lr_to_cstring a; abstract_eq fuel' (lr_new_string s) b in
      let right_prim := s ← lr_to_cstring b; abstract_eq fuel' a (lr_new_string s) in
      if tag a =? tag b then Some (bcv_strict_eq a b)
      else if is_undefined a && is_null b || is_null a && is_undefined b then Some true
      else if bcv_is_number a && is_string b || is_string a && bcv_is_number b ||
              is_bool a || is_bool b then
        if is_undefined a || is_null a || is_undefined b || is_null b then Some false
        else if is_object a then left_prim
        else if is_object b then right_prim
        else
          let da := bcv_to_number a in
          let db := bcv_to_number b in
          if isnan da || isnan db then Some false else Some (f64_eqb da db)
      else if is_object a && (is_string b || bcv_is_number b) then left_prim
      else if is_object b && (is_string a || bcv_is_number a) then right_prim
      else Some false
  end.

Definition bcv_abstract_eq (a b : LRValue) : option bool := abstract_eq 2 a b.

(** ** Concatenation and comparison *)

(** A new string of the two parts; the empty string when the allocation fails. *)
Definition new_concat (x y : list Z) : LRValue :=
  if alloc_ok (zlen x + zlen y) then JString (x ++ y) else JString [].

Definition bcv_concat (a b : LRValue) : option LRValue :=
  match a, b with
  | JString x, JString y => Some (new_concat x y)
  | JString x, JInt32 i => Some (new_concat x (print_int i))
  | JString x, JFloat64 d => Some (new_concat x (print_f64 d))
  | JString x, _ => y ← lr_to_cstring b; Some (new_concat x y)
  | _, _ => x ← lr_to_cstring a; y ← lr_to_cstring b; Some (new_concat x y)
  end.

(** [memcmp] over the common length, then the lengths. *)
Fixpoint memcmp (x y : list Z) : comparison :=
  match x, y with
  | c :: x', d :: y' => match c ?= d with Eq => memcmp x' y' | r => r end
  | _, _ => Eq
  end.

Definition string_compare (x y : list Z) : comparison :=
  match memcmp x y with
  | Eq => zlen x ?= zlen y
  | r => r
  end.

(** [op]: 0 for [<], 1 for [>], 2 for [<=], 3 for [>=]. *)
Definition bcv_relational (a b : LRValue) (op : Z) : bool :=
  match a, b with
  | JString x, JString y =>
      match op, string_compare x y with
      | 0, Lt | 1, Gt | 2, (Lt | Eq) => true
      | 0, _ | 1, _ | 2, _ => false
      | _, (Gt | Eq) => true
      | _, Lt => false
      end
  | _, _ =>
      let da := bcv_to_number a in
      let db := bcv_to_number b in
      if isnan da || isnan db then false
      else match op with
           | 0 => f64_ltb da db
           | 1 => f64_ltb db da
           | 2 => f64_leb da db
           | _ => f64_leb db da
           end
  end.

Definition bcv_typeof (v : LRValue) : string :=
  match v with
  | JUndefined => "undefined"
  | JNull => "object"
  | JBool _ => "boolean"
  | JInt32 _ | JFloat64 _ => "number"
  | JString _ => "string"
  | JSymbol _ _ => "symbol"
  | JObject _ (OBigInt _) => "bigint"
  | JObject _ OFunction => "function"
  | JObject _ OPlain => "object"
  | JException => "undefined"
  end.

(** ** Binary operators *)

Definition ub_unless (ok : bool) (r : outcome) : outcome := if ok then r else UB.
Definition of_option (r : option LRValue) : outcome :=
  match r with Some v => Done v | None => Outside end.
Definition of_option_bool (f : bool -> bool) (r : option bool) : outcome :=
  match r with Some b => Done (JBool (f b)) | None => Outside end.

(** Two doubles; [None]: the switch falls through. *)
Definition float64_path (op : BCOpcode) (fa fb : f64) : option LRValue :=
  match op with
  | BC_ADD => Some (JFloat64 (f64_add fa fb))
  | BC_SUB => Some (JFloat64 (f64_sub fa fb))
  | BC_MUL => Some (JFloat64 (f64_mul fa fb))
  | BC_DIV => Some (JFloat64 (f64_div fa fb))
  | BC_LT => Some (JBool (f64_ltb fa fb))
  | BC_GT => Some (JBool (f64_ltb fb fa))
  | BC_LE => Some (JBool (f64_leb fa fb))
  | BC_GE => Some (JBool (f64_leb fb fa))
  | BC_EQ | BC_STRICT_EQ => Some (JBool (f64_eqb fa fb))
  | BC_NE | BC_STRICT_NE => Some (JBool (negb (f64_eqb fa fb)))
  | _ => None
  end.

(** A signed 64-bit result that overflows is undefined in C. *)
Definition lr_new_bigint (z : Z) : outcome :=
  ub_unless (in_int64 z)
    (Done match new_ptr with Some p => JObject p (OBigInt z) | None => JUndefined end).

(** [int64_t rp = 1; for (e = y; e > 0; e--) rp *= x;] *)
Definition bigint_pow (x y : Z) : Z := Z.iter y (fun rp => rp * x) 1.

Definition bigint_path (op : BCOpcode) (x y : Z) : option outcome :=
  match op with
  | BC_ADD => Some (lr_new_bigint (x + y))
  | BC_SUB => Some (lr_new_bigint (x - y))
  | BC_MUL => Some (lr_new_bigint (x * y))
  | BC_DIV => Some (if y =? 0 then Raise "Division by zero" else lr_new_bigint (Z.quot x y))
  | BC_MOD => Some (if y =? 0 then Raise "Division by zero"
                    else ub_unless (in_int64 (Z.quot x y)) (lr_new_bigint (Z.rem x y)))
  | BC_POW => Some (lr_new_bigint (bigint_pow x y))
  | BC_LT => Some (Done (JBool (x <? y)))
  | BC_GT => Some (Done (JBool (y <? x)))
  | BC_LE => Some (Done (JBool (x <=? y)))
  | BC_GE => Some (Done (JBool (y <=? x)))
  | BC_EQ | BC_STRICT_EQ => Some (Done (JBool (x =? y)))
  | BC_NE | BC_STRICT_NE => Some (Done (JBool (negb (x =? y))))
  | BC_SHL => Some (lr_new_bigint (i64 (Z.shiftl x (Z.land y 63))))
  | BC_SHR | BC_SAR => Some (lr_new_bigint (Z.shiftr x (Z.land y 63)))
  | BC_BIT_AND => Some (lr_new_bigint (Z.land x y))
  | BC_BIT_OR => Some (lr_new_bigint (Z.lor x y))
  | BC_BIT_XOR => Some (lr_new_bigint (Z.lxor x y))
  | _ => None
  end.

(** A 64-bit integer result, demoted when it fits. *)
Definition sum_value (sum : Z) : LRValue :=
  if in_int32 sum then JInt32 sum else JFloat64 (f64_of_Z sum).

Definition shl32 (x y : Z) : Z := i32 (u32 (Z.shiftl (u32 x) (Z.land y 31))).
Definition shr32 (x y : Z) : Z := i32 (Z.shiftr (u32 x) (Z.land y 31)).
Definition sar32 (x y : Z) : Z := Z.shiftr x (Z.land y 31).

Definition int32_path (op : BCOpcode) (x y : Z) : option LRValue :=
  match op with
  | BC_ADD => Some (sum_value (x + y))
  | BC_SUB => Some (sum_value (x - y))
  | BC_MUL => Some (bcv_number (f64_mul (f64_of_Z x) (f64_of_Z y)))
  | BC_BIT_AND => Some (JInt32 (Z.land x y))
  | BC_BIT_OR => Some (JInt32 (Z.lor x y))
  | BC_BIT_XOR => Some (JInt32 (Z.lxor x y))
  | BC_MOD =>
      if negb (y =? 0) then
        Some (JInt32 (if (x =? INT32_MIN) && (y =? -1) then 0 else Z.rem x y))
      else None
  | BC_SHL => Some (JInt32 (shl32 x y))
  | BC_SHR => Some (JInt32 (shr32 x y))
  | BC_SAR => Some (JInt32 (sar32 x y))
  | BC_LT => Some (JBool (x <? y))
  | BC_GT => Some (JBool (y <? x))
  | BC_LE => Some (JBool (x <=? y))
  | BC_GE => Some (JBool (y <=? x))
  | BC_EQ | BC_STRICT_EQ => Some (JBool (x =? y))
  | BC_NE | BC_STRICT_NE => Some (JBool (negb (x =? y)))
  | _ => None
  end.

Definition num2 (f : f64 -> f64 -> f64) (a b : LRValue) : LRValue :=
  bcv_number (f (bcv_to_number a) (bcv_to_number b)).
Definition int2 (f : Z -> Z -> Z) (a b : LRValue) : LRValue :=
  JInt32 (f (bcv_to_int32 a) (bcv_to_int32 b)).

(** [!oa || oa->type == LR_OBJ_BIGINT] *)
Definition no_object_or_bigint (v : LRValue) : bool := negb (is_object v) || lr_is_bigint v.

(** The general switch, for operands no fast path takes. *)
Definition general_path (op : BCOpcode) (a b : LRValue) : outcome :=
  match op with
  | BC_ADD =>
      if is_string a || is_string b then of_option (bcv_concat a b)
      else if is_object a || is_object b then
        if no_object_or_bigint a && no_object_or_bigint b then Done (num2 f64_add a b)
        else of_option (bcv_concat a b)
      else Done (num2 f64_add a b)
  | BC_SUB => Done (num2 f64_sub a b)
  | BC_MUL => Done (num2 f64_mul a b)
  | BC_DIV => Done (JFloat64 (f64_div (bcv_to_number a) (bcv_to_number b)))
  | BC_MOD =>
      Done (if f64_eqb (bcv_to_number b) (S754_zero false) then JFloat64 nan else num2 fmod a b)
  | BC_POW => Done (JFloat64 (pow (bcv_to_number a) (bcv_to_number b)))
  | BC_LT => Done (JBool (bcv_relational a b 0))
  | BC_GT => Done (JBool (bcv_relational a b 1))
  | BC_LE => Done (JBool (bcv_relational a b 2))
  | BC_GE => Done (JBool (bcv_relational a b 3))
  | BC_EQ => of_option_bool (fun x => x) (bcv_abstract_eq a b)
  | BC_NE => of_option_bool negb (bcv_abstract_eq a b)
  | BC_STRICT_EQ => Done (JBool (bcv_strict_eq a b))
  | BC_STRICT_NE => Done (JBool (negb (bcv_strict_eq a b)))
  | BC_SHL => Done (int2 shl32 a b)
  | BC_SHR => Done (int2 shr32 a b)
  | BC_SAR => Done (int2 sar32 a b)
  | BC_BIT_AND => Done (int2 Z.land a b)
  | BC_BIT_OR => Done (int2 Z.lor a b)
  | BC_BIT_XOR => Done (int2 Z.lxor a b)
  | BC_IN =>
      if is_object b then Outside else Raise "right-hand side of 'in' must be an object"
  | BC_INSTANCEOF => if is_object a then Outside else Done (JBool false)
  | _ => Done JUndefined
  end.

Definition bcv_binop (op : BCOpcode) (a b : LRValue) : outcome :=
  match a, b with
  | JFloat64 fa, JFloat64 fb =>
      match float64_path op fa fb with Some r => Done r | None => general_path op a b end
  | JObject _ (OBigInt x), JObject _ (OBigInt y) =>
      match bigint_path op x y with Some r => r | None => general_path op a b end
  | JInt32 x, JInt32 y =>
      match int32_path op x y with Some r => Done r | None => general_path op a b end
  | _, _ => general_path op a b
  end.

(** ** Fast paths of the interpreter loop *)

(** The loop boxes an integer product itself, without the test for [-0]. *)
Definition vm_product (x y : Z) : LRValue :=
  let d := f64_mul (f64_of_Z x) (f64_of_Z y) in
  if f64_eqb d (f64_of_Z (cast_int32 d)) && negb (isnan d) && negb (isinf d)
  then JInt32 (cast_int32 d) else JFloat64 d.

(** Both operands numbers, not both integers: the operation on doubles. *)
Definition mixed (f : f64 -> f64 -> LRValue) (a b : LRValue) : option LRValue :=
  match a, b with
  | JFloat64 x, JFloat64 y => Some (f x y)
  | JInt32 x, JFloat64 y => Some (f (f64_of_Z x) y)
  | JFloat64 x, JInt32 y => Some (f x (f64_of_Z y))
  | _, _ => None
  end.

(** [sole_a], [sole_b]: the operand is a string that only the stack refers to,
    so its buffer may be grown in place. *)
Definition vm_concat (sole_a sole_b : bool) (x y : list Z) : LRValue :=
  let total := zlen x + zlen y in
  if sole_a && grow_ok total then JString (x ++ y)
  else if sole_b && grow_ok total then JString (x ++ y)
  else if alloc_ok total then JString (x ++ y)
  else JString [].

Definition both_int (f : Z -> Z -> LRValue) (a b : LRValue) : option LRValue :=
  match a, b with JInt32 x, JInt32 y => Some (f x y) | _, _ => None end.

Definition orelse {A} (x y : option A) : option A := match x with Some _ => x | None => y end.

(** [BC_CASE(add)] .. [BC_CASE(mul)] *)
Definition vm_add (sole_a sole_b : bool) (a b : LRValue) : option LRValue :=
  match a, b with
  | JString x, JString y => Some (vm_concat sole_a sole_b x y)
  | JString x, JInt32 i => Some (vm_concat sole_a false x (print_int i))
  | JInt32 i, JString y => Some (vm_concat false sole_b (print_int i) y)
  | _, _ => orelse (both_int (fun x y => sum_value (x + y)) a b)
                   (mixed (fun x y => JFloat64 (f64_add x y)) a b)
  end.

Definition vm_sub (a b : LRValue) : option LRValue :=
  orelse (both_int (fun x y => sum_value (x - y)) a b)
         (mixed (fun x y => JFloat64 (f64_sub x y)) a b).

Definition vm_mul (a b : LRValue) : option LRValue :=
  orelse (both_int vm_product a b) (mixed (fun x y => JFloat64 (f64_mul x y)) a b).

(** The comparisons of integers, then [NUM_CMP_QUICK]; [<=] lacks the second. *)
Definition vm_compare (op : BCOpcode) (a b : LRValue) : option LRValue :=
  let quick ci cf := orelse (both_int (fun x y => JBool (ci x y)) a b)
                            (mixed (fun x y => JBool (cf x y)) a b) in
  match op with
  | BC_LT => quick Z.ltb f64_ltb
  | BC_GT => quick (fun x y => y <? x) (fun x y => f64_ltb y x)
  | BC_LE => both_int (fun x y => JBool (x <=? y)) a b
  | BC_GE => quick (fun x y => y <=? x) (fun x y => f64_leb y x)
  | BC_EQ => quick Z.eqb f64_eqb
  | _ => quick (fun x y => negb (x =? y)) (fun x y => negb (f64_eqb x y))
  end.

(** [STRICT_NUM_CMP_QUICK] *)
Definition vm_strict (f : bool -> bool) (a b : LRValue) : option LRValue :=
  match a, b with
  | JFloat64 x, JFloat64 y => Some (JBool (f (f64_eqb x y)))
  | _, _ => both_int (fun x y => JBool (f (x =? y))) a b
  end.

Definition vm_bitop (op : BCOpcode) (a b : LRValue) : option LRValue :=
  let int f := both_int (fun x y => JInt32 (f x y)) a b in
  match op with
  | BC_SHL => int shl32
  | BC_SHR => int shr32
  | BC_SAR => int sar32
  | BC_BIT_AND => int Z.land
  | BC_BIT_OR => int Z.lor
  | _ => int Z.lxor
  end.

(** What the loop does before [goto binop_shared]. *)
Definition vm_fast_path (sole_a sole_b : bool) (op : BCOpcode) (a b : LRValue) : option LRValue :=
  match op with
  | BC_ADD => vm_add sole_a sole_b a b
  | BC_SUB => vm_sub a b
  | BC_MUL => vm_mul a b
  | BC_LT | BC_GT | BC_LE | BC_GE | BC_EQ | BC_NE => vm_compare op a b
  | BC_STRICT_EQ => vm_strict (fun x => x) a b
  | BC_STRICT_NE => vm_strict negb a b
  | BC_SHL | BC_SHR | BC_SAR | BC_BIT_AND | BC_BIT_OR | BC_BIT_XOR => vm_bitop op a b
  | _ => None
  end.

Definition vm_binop (sole_a sole_b : bool) (op : BCOpcode) (a b : LRValue) : outcome :=
  match vm_fast_path sole_a sole_b op a b with
  | Some r => Done r
  | None => bcv_binop op a b
  end.

(** Unary operators of the loop. *)
Definition vm_unop (op : BCOpcode) (a : LRValue) : option LRValue :=
  match op with
  | BC_NEG => Some (bcv_number (f64_neg (bcv_to_number a)))
  | BC_POS | BC_TO_NUMBER => Some (bcv_number (bcv_to_number a))
  | BC_NOT => Some (JBool (negb (lr_to_bool a)))
  | BC_BIT_NOT => Some (JInt32 (Z.lnot (bcv_to_int32 a)))
  | BC_TYPEOF => Some (lr_new_string (chars_of (bcv_typeof a)))
  | BC_VOID => Some JUndefined
  | BC_TO_STRING => s ← lr_to_cstring a; Some (lr_new_string s)
  | BC_TO_BOOL => Some (JBool (lr_to_bool a))
  | _ => None
  end.

End Operations.
