(* ===== verification/JsLaws.v ===== *)
(** The laws of the value operations of [JsOps]: on numbers every path computes
    with doubles, whatever the representation of the operands; the fast paths
    of the interpreter loop agree with the general operation; results have the
    operator's type; integers survive the trip through text.  One law says
    what the representation leaks: [===] tells [2] from [4/2]. *)

From stdpp Require Import base list strings.
From Stdlib Require Import ZArith Lia SpecFloat Ascii.
From S2P Require Import Prelude.
From S2P Require Import BcProgram.
From S2P Require Import LexText.
From S2P Require Import F64.
From S2P Require Import NumText.
From S2P Require Import JsOps.

(** ** Specification *)

(** The double a number value stands for. *)
Definition num_value (v : LRValue) : option f64 :=
  match v with
  | JInt32 i => Some (f64_of_Z i)
  | JFloat64 d => Some d
  | _ => None
  end.

(** Integers are within the width of their representation. *)
Definition wf_value (v : LRValue) : Prop :=
  match v with
  | JInt32 i => in_int32 i = true
  | JObject _ (OBigInt z) => in_int64 z = true
  | _ => True
  end.

Definition js_arith (op : BCOpcode) : option (f64 -> f64 -> f64) :=
  match op with
  | BC_ADD => Some f64_add
  | BC_SUB => Some f64_sub
  | BC_MUL => Some f64_mul
  | BC_DIV => Some f64_div
  | _ => None
  end.

Definition js_compare (op : BCOpcode) : option (f64 -> f64 -> bool) :=
  match op with
  | BC_LT => Some f64_ltb
  | BC_GT => Some (fun x y => f64_ltb y x)
  | BC_LE => Some f64_leb
  | BC_GE => Some (fun x y => f64_leb y x)
  | BC_EQ => Some f64_eqb
  | BC_NE => Some (fun x y => negb (f64_eqb x y))
  | _ => None
  end.

(** A product of integers that is [-0] comes out as [0]. *)
Definition zero_sign_lost (op : BCOpcode) (a b : LRValue) (x y : f64) : Prop :=
  op = BC_MUL /\ (exists i j, a = JInt32 i /\ b = JInt32 j) /\
  x = S754_zero false /\ y = S754_zero true.

(** What the loop and the general operation give on [a] and [b]: the same outcome,
    or two representations of the same number, but for that product. *)
Definition agree (op : BCOpcode) (a b : LRValue) (loop general : outcome) : Prop :=
  loop = general \/
  exists v w x y, loop = Done v /\ general = Done w /\
    num_value v = Some x /\ num_value w = Some y /\ (x = y \/ zero_sign_lost op a b x y).

(** The binary operators. *)
Definition is_binop (op : BCOpcode) : bool :=
  (op_byte BC_ADD <=? op_byte op) && (op_byte op <=? op_byte BC_INSTANCEOF).

Definition is_arith (op : BCOpcode) : bool :=
  (op_byte BC_ADD <=? op_byte op) && (op_byte op <=? op_byte BC_POW).
Definition is_bitwise (op : BCOpcode) : bool :=
  (op_byte BC_SHL <=? op_byte op) && (op_byte op <=? op_byte BC_BIT_XOR).

(** The values an operator can give. *)
Definition result_type (op : BCOpcode) (v : LRValue) : bool :=
  if is_arith op then
    bcv_is_number v || lr_is_bigint v || (if decide (op = BC_ADD) then is_string v else false)
  else if is_bitwise op then
    lr_is_bigint v || match v with JInt32 _ => true | _ => false end
  else is_bool v.

(** ** Numbers *)

Lemma in_int32_spec z : in_int32 z = true <-> INT32_MIN <= z <= INT32_MAX.
Proof. unfold in_int32. rewrite andb_true_iff. lia. Qed.

Lemma in_int32_small z : in_int32 z = true -> small_int z.
Proof. rewrite in_int32_spec. unfold small_int, INT32_MIN, INT32_MAX. lia. Qed.

#[local] Hint Resolve in_int32_small : lr.

Lemma f64_of_Z_zero_sign z s : small_int z -> f64_of_Z z = S754_zero s -> s = false.
Proof.
  intros Hz. destruct (Z.eq_dec z 0) as [->|Hz0]; [cbn; congruence|]. by rewrite f64_of_int.
Qed.

Lemma f64_eqb_nan x y : isnan x || isnan y = true -> f64_eqb x y = false.
Proof. destruct x, y; done. Qed.
Lemma f64_ltb_nan x y : isnan x || isnan y = true -> f64_ltb x y = false.
Proof. destruct x, y; done. Qed.
Lemma f64_leb_nan x y : isnan x || isnan y = true -> f64_leb x y = false.
Proof. destruct x, y; done. Qed.

Lemma sum_value_num z : small_int z -> num_value (sum_value z) = Some (f64_of_Z z).
Proof. intros. unfold sum_value. by case_if. Qed.

Lemma small_sum x y : in_int32 x = true -> in_int32 y = true -> small_int (x + y).
Proof. rewrite !in_int32_spec. unfold small_int, INT32_MIN, INT32_MAX. lia. Qed.
Lemma small_diff x y : in_int32 x = true -> in_int32 y = true -> small_int (x - y).
Proof. rewrite !in_int32_spec. unfold small_int, INT32_MIN, INT32_MAX. lia. Qed.

#[local] Hint Resolve small_sum small_diff : lr.

Section Laws.

Context (cast_ub : f64 -> Z) (pow : f64 -> f64 -> f64).
Context (alloc_ok grow_ok : Z -> alloc_result) (new_ptr : option Z).

(** The cast gives some [int32_t] on every double. *)
Hypothesis cast_range : forall d, in_int32 (cast_ub d) = true.

Abbreviation cast_int32 := (cast_int32 cast_ub).
Abbreviation bcv_number := (bcv_number cast_ub).
Abbreviation bcv_binop := (bcv_binop cast_ub pow alloc_ok new_ptr).
Abbreviation vm_binop := (vm_binop cast_ub pow alloc_ok grow_ok new_ptr).

Lemma cast_int32_range d : in_int32 (cast_int32 d) = true.
Proof. unfold JsOps.cast_int32. destruct (trunc d); [case_if|]; auto. Qed.

(** An integer [==] to a double is the double, zeros apart. *)
Lemma cast_exact d :
  f64_eqb d (f64_of_Z (cast_int32 d)) = true -> f64_class d = f64_class (f64_of_Z (cast_int32 d)).
Proof. unfold f64_eqb. rewrite SFeqb_class. by intros [_ ?]. Qed.

Lemma class_inj x y : f64_class x = f64_class y -> x = y \/ exists s s', x = S754_zero s /\ y = S754_zero s'.
Proof. destruct x, y; cbn; intros H; try discriminate; try (by left); [right; eauto|left; congruence..]. Qed.

Lemma bcv_number_value d : num_value (bcv_number d) = Some d.
Proof.
  unfold JsOps.bcv_number. case_if; [|done]. cbn [num_value]. f_equal. symmetry.
  apply andb_prop in Hif as [Hif _]. apply andb_prop in Hif as [Hif _].
  apply andb_prop in Hif as [Hz He]. apply negb_true_iff in Hz.
  destruct (class_inj _ _ (cast_exact d He)) as [?|(s & s' & -> & E)]; [done|].
  apply f64_of_Z_zero_sign in E as Es; [|apply in_int32_small, cast_int32_range].
  rewrite E, Es. by destruct s.
Qed.

Lemma bcv_number_wf d : wf_value (bcv_number d).
Proof. unfold JsOps.bcv_number. case_if; [apply cast_int32_range|done]. Qed.

Lemma vm_product_value x y :
  exists z, num_value (vm_product cast_ub x y) = Some z /\
            f64_class z = f64_class (f64_mul (f64_of_Z x) (f64_of_Z y)) /\
            (z = f64_mul (f64_of_Z x) (f64_of_Z y) \/
             z = S754_zero false /\ f64_mul (f64_of_Z x) (f64_of_Z y) = S754_zero true).
Proof.
  unfold vm_product. set (d := f64_mul _ _). case_if; [|exists d; auto].
  apply andb_prop in Hif as [Hif _]. apply andb_prop in Hif as [Hif _].
  pose proof (cast_exact d Hif) as Hc.
  eexists. split_and!; [reflexivity|done|].
  destruct (class_inj _ _ Hc) as [?|(t & t' & -> & E)]; [by left|]. rewrite E.
  apply f64_of_Z_zero_sign in E as ->; [|apply in_int32_small, cast_int32_range].
  destruct t; [by right|by left].
Qed.

Lemma vm_product_wf x y : wf_value (vm_product cast_ub x y).
Proof. unfold vm_product. case_if; [apply cast_int32_range|done]. Qed.

Lemma bcv_to_number_value v x : num_value v = Some x -> bcv_to_number v = x.
Proof. destruct v; cbn; congruence. Qed.

(** A number is an integer or a double. *)
Lemma num_value_cases v x :
  num_value v = Some x -> v = JFloat64 x \/ exists i, v = JInt32 i /\ x = f64_of_Z i.
Proof. destruct v; cbn; intros H; simplify_eq; eauto. Qed.

Ltac num_cases a b Ha Hb :=
  destruct (num_value_cases a _ Ha) as [->|(? & -> & ->)],
           (num_value_cases b _ Hb) as [->|(? & -> & ->)].

(** The integer path of the four operations. *)
Lemma int32_path_arith op f x y :
  js_arith op = Some f -> in_int32 x = true -> in_int32 y = true ->
  match int32_path cast_ub op x y with
  | Some v => num_value v = Some (f (f64_of_Z x) (f64_of_Z y))
  | None => op = BC_DIV
  end.
Proof.
  intros Hf Hx Hy. destruct op; try discriminate; injection Hf as <-; cbn [int32_path].
  - rewrite f64_add_int by auto with lr. apply sum_value_num. auto with lr.
  - rewrite f64_sub_int by auto with lr. apply sum_value_num. auto with lr.
  - apply bcv_number_value.
  - done.
Qed.

Lemma int32_path_compare op f x y :
  js_compare op = Some f -> in_int32 x = true -> in_int32 y = true ->
  int32_path cast_ub op x y = Some (JBool (f (f64_of_Z x) (f64_of_Z y))).
Proof.
  intros Hf Hx Hy. destruct op; try discriminate; injection Hf as <-; cbn [int32_path];
    by rewrite ?f64_ltb_int, ?f64_leb_int, ?f64_eqb_int by auto with lr.
Qed.

Lemma general_arith op f a b x y :
  js_arith op = Some f -> num_value a = Some x -> num_value b = Some y ->
  exists v, general_path cast_ub pow alloc_ok op a b = Done v /\ num_value v = Some (f x y).
Proof.
  intros Hf Ha Hb. rewrite <- (bcv_to_number_value a x Ha), <- (bcv_to_number_value b y Hb).
  destruct op; try discriminate; injection Hf as <-; cbn [general_path];
    try (eexists; split; [reflexivity|apply bcv_number_value || reflexivity]).
  num_cases a b Ha Hb; cbn [is_string is_object orb]; eexists;
    (split; [reflexivity|apply bcv_number_value]).
Qed.

(** The test for a NaN is redundant. *)
Lemma nan_guard (f : f64 -> f64 -> bool) x y :
  (isnan x || isnan y = true -> f x y = false) ->
  (if isnan x || isnan y then false else f x y) = f x y.
Proof. intros H. case_if; [by rewrite H|done]. Qed.

Lemma relational_num a b x y op :
  num_value a = Some x -> num_value b = Some y ->
  bcv_relational a b op
  = match op with
    | 0 => f64_ltb x y
    | 1 => f64_ltb y x
    | 2 => f64_leb x y
    | _ => f64_leb y x
    end.
Proof.
  intros Ha Hb. transitivity (if isnan x || isnan y then false else
    match op with 0 => f64_ltb x y | 1 => f64_ltb y x | 2 => f64_leb x y | _ => f64_leb y x end).
  - num_cases a b Ha Hb; reflexivity.
  - apply (nan_guard (fun x y => match op with 0 => f64_ltb x y | 1 => f64_ltb y x
                                | 2 => f64_leb x y | _ => f64_leb y x end)).
    intros H. pose proof H as H'. rewrite orb_comm in H'.
    destruct op as [|[?|[?|?|]|]|?]; first [by apply f64_ltb_nan|by apply f64_leb_nan].
Qed.

Lemma general_compare op f a b x y :
  js_compare op = Some f -> num_value a = Some x -> num_value b = Some y ->
  op <> BC_EQ -> op <> BC_NE ->
  general_path cast_ub pow alloc_ok op a b = Done (JBool (f x y)).
Proof.
  intros Hf Ha Hb Heq Hne. unfold general_path.
  destruct op; try discriminate; try congruence; injection Hf as <-;
    by rewrite (relational_num a b x y) by done.
Qed.

(** ** The general operation on numbers *)

Lemma bcv_binop_arith op f a b x y :
  wf_value a -> wf_value b -> num_value a = Some x -> num_value b = Some y ->
  js_arith op = Some f ->
  exists v, bcv_binop op a b = Done v /\ num_value v = Some (f x y).
Proof.
  intros Wa Wb Ha Hb Hf. pose proof (general_arith op f a b x y Hf Ha Hb) as Hg. revert Hg Wa Wb.
  num_cases a b Ha Hb; cbn [JsOps.bcv_binop wf_value]; intros Hg Wa Wb; try exact Hg.
  - destruct (float64_path op x y) as [v|] eqn:E; [|exact Hg]. exists v. split; [done|].
    destruct op; try discriminate; injection Hf as <-; injection E as <-; done.
  - pose proof (int32_path_arith op f _ _ Hf Wa Wb) as H.
    destruct (int32_path cast_ub op _ _); [eauto|exact Hg].
Qed.

Lemma bcv_binop_compare op f a b x y :
  wf_value a -> wf_value b -> num_value a = Some x -> num_value b = Some y ->
  js_compare op = Some f -> op <> BC_EQ /\ op <> BC_NE \/ tag a = tag b ->
  bcv_binop op a b = Done (JBool (f x y)).
Proof.
  intros Wa Wb Ha Hb Hf Hor. pose proof (general_compare op f a b x y Hf Ha Hb) as Hg.
  revert Hg Wa Wb Hor.
  num_cases a b Ha Hb; cbn [JsOps.bcv_binop wf_value tag]; intros Hg Wa Wb Hor;
    try (destruct Hor as [[? ?]|?]; [by apply Hg|done]).
  - destruct op; try discriminate; injection Hf as <-; done.
  - by rewrite (int32_path_compare op f) by done.
Qed.

(** [%]: the integer path loses the sign of a zero remainder. *)
Lemma bcv_binop_mod a b x y :
  wf_value a -> wf_value b -> num_value a = Some x -> num_value b = Some y ->
  exists v z, bcv_binop BC_MOD a b = Done v /\ num_value v = Some z /\
              f64_class z = f64_class (fmod x y).
Proof.
  intros Wa Wb Ha Hb.
  assert (exists v z, general_path cast_ub pow alloc_ok BC_MOD a b = Done v /\
            num_value v = Some z /\ f64_class z = f64_class (fmod x y)) as Hg.
  { cbn [general_path]. unfold num2.
    rewrite (bcv_to_number_value a x Ha), (bcv_to_number_value b y Hb). case_if.
    - do 2 eexists. split_and!; [reflexivity..|]. apply SFeqb_class in Hif as [_ Hy].
      destruct y; try discriminate. by destruct x.
    - do 2 eexists. split_and!; [reflexivity|apply bcv_number_value|done]. }
  revert Hg Wa Wb. num_cases a b Ha Hb; cbn [JsOps.bcv_binop float64_path wf_value]; try done.
  match goal with |- context [int32_path _ _ ?x ?y] => generalize x y end.
  cbn [int32_path]. intros i j Hg Wi Wj.
  destruct (Z.eqb_spec j 0) as [Hj|Hj]; [exact Hg|]. cbn [negb].
  do 2 eexists. split_and!; [reflexivity..|].
  replace (if (i =? INT32_MIN) && (j =? -1) then 0 else Z.rem i j) with (Z.rem i j).
  - destruct (Z.eq_dec i 0) as [->|Hi].
    { rewrite Z.rem_0_l by done. by rewrite (f64_of_int j) by auto with lr. }
    rewrite fmod_int by auto with lr. by destruct (Z.eqb_spec (Z.rem i j) 0) as [->|].
  - destruct (Z.eqb_spec i INT32_MIN) as [->|]; [|done].
    by destruct (Z.eqb_spec j (-1)) as [->|].
Qed.

(** ** The fast paths *)

Abbreviation vm_fast_path := (vm_fast_path cast_ub alloc_ok grow_ok).

Lemma fast_path_arith sa sb op f a b x y :
  wf_value a -> wf_value b -> num_value a = Some x -> num_value b = Some y ->
  js_arith op = Some f -> op <> BC_DIV ->
  exists v z, vm_fast_path sa sb op a b = Some v /\ num_value v = Some z /\
    f64_class z = f64_class (f x y) /\ (z = f x y \/ zero_sign_lost op a b z (f x y)).
Proof.
  intros Wa Wb Ha Hb Hf Hop. destruct op; try discriminate; try congruence; injection Hf as <-;
    revert Wa Wb; num_cases a b Ha Hb; cbn [wf_value]; intros Wa Wb;
    try (do 2 eexists; split_and!; [reflexivity..|done|by left]).
  - do 2 eexists. split_and!; [reflexivity|apply sum_value_num; auto with lr| |left];
      by rewrite f64_add_int by auto with lr.
  - do 2 eexists. split_and!; [reflexivity|apply sum_value_num; auto with lr| |left];
      by rewrite f64_sub_int by auto with lr.
  - match goal with |- context [JsOps.vm_fast_path _ _ _ _ _ _ (JInt32 ?i) (JInt32 ?j)] =>
      destruct (vm_product_value i j) as (z & Hv & Hc & Hz) end.
    exists (vm_product cast_ub x0 x), z. split_and!; [reflexivity|done..|].
    destruct Hz as [?|[? ?]]; [by left|right]. split_and!; eauto.
Qed.

Lemma vm_binop_compare sa sb op f a b x y :
  wf_value a -> wf_value b -> num_value a = Some x -> num_value b = Some y ->
  js_compare op = Some f -> vm_binop sa sb op a b = Done (JBool (f x y)).
Proof.
  intros Wa Wb Ha Hb Hf.
  pose proof (bcv_binop_compare op f a b x y Wa Wb Ha Hb Hf) as Hg. unfold JsOps.vm_binop.
  revert Wa Wb Hg. num_cases a b Ha Hb; cbn [wf_value tag]; intros Wa Wb Hg;
    destruct op; try discriminate; injection Hf as <-;
    cbn [JsOps.vm_fast_path vm_add vm_sub vm_mul vm_compare both_int mixed orelse];
    try reflexivity; try (apply Hg; by (left + right));
    by rewrite ?f64_ltb_int, ?f64_leb_int, ?f64_eqb_int by auto with lr.
Qed.

(** On operands that are not both numbers only [+] has a fast path. *)
Lemma fast_path_strings sa sb op a b v :
  num_value a = None \/ num_value b = None -> vm_fast_path sa sb op a b = Some v ->
  op = BC_ADD /\
  match a, b with
  | JString x, JString y => v = vm_concat alloc_ok grow_ok sa sb x y
  | JString x, JInt32 i => v = vm_concat alloc_ok grow_ok sa false x (print_int i)
  | JInt32 i, JString y => v = vm_concat alloc_ok grow_ok false sb (print_int i) y
  | _, _ => False
  end.
Proof.
  intros Hn H. destruct op; try discriminate H; destruct a, b; cbn in Hn, H;
    try discriminate H; try (by destruct Hn); injection H as <-; by split.
Qed.

Lemma vm_concat_ok sa sb x y :
  (forall n, alloc_ok n = true) -> vm_concat alloc_ok grow_ok sa sb x y = JString (x ++ y).
Proof. intros H. unfold vm_concat. rewrite H. by repeat case_if. Qed.

(** The operations on two numbers that no path sees differently. *)
Lemma fast_path_other sa sb op a b x y v :
  num_value a = Some x -> num_value b = Some y -> js_arith op = None -> js_compare op = None ->
  vm_fast_path sa sb op a b = Some v -> bcv_binop op a b = Done v.
Proof.
  intros Ha Hb H1 H2. num_cases a b Ha Hb;
    (destruct op; try discriminate H1; try discriminate H2; intros H; try discriminate H;
     injection H as <-; reflexivity).
Qed.

(** ** Types of results *)

(** A 32-bit integer is sign extension above bit 31. *)
Lemma in_int32_shiftr z : in_int32 z = true <-> Z.shiftr z 31 = 0 \/ Z.shiftr z 31 = -1.
Proof.
  rewrite in_int32_spec, Z.shiftr_div_pow2 by lia. unfold INT32_MIN, INT32_MAX. divlia.
Qed.

Lemma in_int32_bitwise x y :
  in_int32 x = true -> in_int32 y = true ->
  in_int32 (Z.land x y) = true /\ in_int32 (Z.lor x y) = true /\ in_int32 (Z.lxor x y) = true.
Proof.
  rewrite !in_int32_shiftr, Z.shiftr_land, Z.shiftr_lor, Z.shiftr_lxor.
  intros [-> | ->] [-> | ->]; cbn; auto.
Qed.

Lemma in_int32_i32 z : in_int32 (i32 z) = true.
Proof. rewrite in_int32_spec. pose proof (i32_range z). unfold INT32_MIN, INT32_MAX. lia. Qed.

Lemma in_int32_sar x y : in_int32 x = true -> in_int32 (sar32 x y) = true.
Proof.
  rewrite !in_int32_spec. unfold sar32, INT32_MIN, INT32_MAX. intros H.
  pose proof (Z.land_nonneg y 31) as [_ Hk]. specialize (Hk ltac:(lia)).
  rewrite Z.shiftr_div_pow2 by done. set (k := Z.land y 31) in *.
  pose proof (Z.pow_pos_nonneg 2 k ltac:(lia) Hk). split.
  - apply Z.div_le_lower_bound; nia.
  - apply Z.lt_succ_r, Z.div_lt_upper_bound; nia.
Qed.

Lemma in_int32_lnot z : in_int32 z = true -> in_int32 (Z.lnot z) = true.
Proof. rewrite !in_int32_spec. unfold Z.lnot, INT32_MIN, INT32_MAX. lia. Qed.

Lemma in_int32_rem x y :
  in_int32 x = true -> y <> 0 ->
  in_int32 (if (x =? INT32_MIN) && (y =? -1) then 0 else Z.rem x y) = true.
Proof.
  intros Hx Hy. case_if; [done|]. rewrite in_int32_spec in *. unfold INT32_MIN, INT32_MAX in *.
  pose proof (Z.rem_le (Z.abs x) (Z.abs y) ltac:(lia) ltac:(lia)) as H.
  rewrite Z.rem_abs in H by done.
  destruct (Z.eq_dec x (- 2 ^ 31)) as [->|]; [|lia].
  pose proof (Z.rem_nonpos (- 2 ^ 31) y Hy ltac:(lia)). lia.
Qed.

#[local] Hint Resolve in_int32_i32 in_int32_sar cast_int32_range in_int32_lnot bcv_number_wf
  vm_product_wf : lr.

Lemma bcv_to_int32_range v : wf_value v -> in_int32 (bcv_to_int32 cast_ub v) = true.
Proof. destruct v; cbn; intros H; auto with lr. by destruct b. Qed.
#[local] Hint Resolve bcv_to_int32_range : lr.

Lemma sum_value_wf z : wf_value (sum_value z).
Proof. unfold sum_value. by case_if. Qed.

Lemma bcv_number_type d : bcv_is_number (bcv_number d) = true.
Proof. unfold JsOps.bcv_number. by case_if. Qed.
Lemma vm_product_type x y : bcv_is_number (vm_product cast_ub x y) = true.
Proof. unfold vm_product. by case_if. Qed.
Lemma sum_value_type z : bcv_is_number (sum_value z) = true.
Proof. unfold sum_value. by case_if. Qed.

(** An outcome that is a well-formed value of the operator's type, if a value. *)
Definition typed (op : BCOpcode) (o : outcome) : Prop :=
  match o with Done v => wf_value v /\ result_type op v = true | _ => True end.

Lemma typed_number op v :
  is_arith op = true -> wf_value v -> bcv_is_number v = true -> typed op (Done v).
Proof. intros Hop Hw Hv. split; [done|]. unfold result_type. by rewrite Hop, Hv. Qed.

Lemma typed_int32 op i :
  is_arith op = false -> is_bitwise op = true -> in_int32 i = true -> typed op (Done (JInt32 i)).
Proof. intros H1 H2 Hi. split; [done|]. unfold result_type. by rewrite H1, H2. Qed.

Lemma typed_mod i : in_int32 i = true -> typed BC_MOD (Done (JInt32 i)).
Proof. by split. Qed.

Definition string_or_none (r : option LRValue) : Prop :=
  match r with Some v => is_string v = true | None => True end.

Lemma typed_concat r :
  string_or_none r -> typed BC_ADD (of_option r).
Proof.
  destruct r as [v|]; [|done]. cbn. intros H. destruct v; try discriminate. by split.
Qed.

Lemma new_concat_string x y : is_string (new_concat alloc_ok x y) = true.
Proof. unfold new_concat. by case_if. Qed.

Lemma concat_texts (x y : option (list Z)) :
  string_or_none (x' ← x; y' ← y; Some (new_concat alloc_ok x' y')).
Proof. destruct x, y; try done. apply new_concat_string. Qed.

Lemma bcv_concat_string a b : string_or_none (bcv_concat alloc_ok a b).
Proof.
  unfold bcv_concat. destruct a; try apply concat_texts.
  destruct b; try apply new_concat_string; apply (concat_texts (Some s)).
Qed.

Lemma typed_bigint op z :
  new_ptr <> None -> is_arith op || is_bitwise op = true -> typed op (lr_new_bigint new_ptr z).
Proof.
  intros Hp Hop. unfold lr_new_bigint, ub_unless. case_if; [|done].
  destruct new_ptr as [p|]; [|done]. split; [done|].
  unfold result_type. destruct (is_arith op); [done|]. cbn in Hop. by rewrite Hop.
Qed.

#[local] Hint Resolve typed_number typed_int32 typed_bigint typed_concat bcv_concat_string
  bcv_number_type vm_product_type sum_value_type sum_value_wf : lr.

Lemma typed_general op a b :
  is_binop op = true -> wf_value a -> wf_value b ->
  typed op (general_path cast_ub pow alloc_ok op a b).
Proof.
  intros Hop Wa Wb.
  pose proof (in_int32_bitwise _ _ (bcv_to_int32_range a Wa) (bcv_to_int32_range b Wb)) as (? & ? & ?).
  destruct op; try discriminate; cbn [general_path]; unfold num2, int2, of_option_bool;
    try (by split); try (destruct (bcv_abstract_eq a b); by split);
    try (apply typed_int32; [done|done|]; unfold shl32, shr32; auto with lr; fail);
    try (apply typed_number; auto with lr; fail).
  - repeat case_if; auto with lr.
  - case_if; [by split|]. apply typed_number; auto with lr.
  - by case_if.
  - by case_if.
Qed.

Lemma typed_bcv_binop op a b :
  new_ptr <> None -> is_binop op = true -> wf_value a -> wf_value b -> typed op (bcv_binop op a b).
Proof.
  intros Hptr Hop Wa Wb. pose proof (typed_general op a b Hop Wa Wb) as Hg.
  unfold JsOps.bcv_binop. destruct a as [| | |x|x| | |p [x| |]|]; try exact Hg;
    destruct b as [| | |y|y| | |q [y| |]|]; try exact Hg; clear Hg; cbn [wf_value] in Wa, Wb.
  - pose proof (in_int32_bitwise _ _ Wa Wb) as (? & ? & ?).
    assert (typed op (general_path cast_ub pow alloc_ok op (JInt32 x) (JInt32 y))) as Hg
      by (by apply typed_general).
    destruct op; try discriminate; cbn [int32_path]; try exact Hg; try (by split);
      try (apply typed_int32; [done|done|]; unfold shl32, shr32; auto with lr; fail);
      try (apply typed_number; auto with lr; fail).
    destruct (Z.eqb_spec y 0) as [|Hy]; [exact Hg|]. cbn [negb].
    by apply typed_mod, in_int32_rem.
  - assert (typed op (general_path cast_ub pow alloc_ok op (JFloat64 x) (JFloat64 y))) as Hg
      by (by apply typed_general).
    destruct op; try discriminate; cbn [float64_path]; try exact Hg; by split.
  - assert (typed op (general_path cast_ub pow alloc_ok op (JObject p (OBigInt x))
                        (JObject q (OBigInt y)))) as Hg by (by apply typed_general).
    destruct op; try discriminate; cbn [bigint_path]; try exact Hg; try (by split);
      try (by apply typed_bigint); case_if; try done.
    + by apply typed_bigint.
    + unfold ub_unless. case_if; [by apply typed_bigint|done].
Qed.

Lemma typed_vm_binop sa sb op a b :
  new_ptr <> None -> is_binop op = true -> wf_value a -> wf_value b -> typed op (vm_binop sa sb op a b).
Proof.
  intros Hptr Hop Wa Wb. pose proof (typed_bcv_binop op a b Hptr Hop Wa Wb) as Hg. unfold JsOps.vm_binop.
  destruct (num_value a) as [x|] eqn:Ha; [destruct (num_value b) as [y|] eqn:Hb|];
    [|destruct (JsOps.vm_fast_path _ _ _ _ _ _ _ _) as [v|] eqn:E; [|exact Hg];
      apply fast_path_strings in E as [-> E]; [|auto];
      destruct a, b; try done; subst v; unfold vm_concat; by repeat case_if..].
  destruct (js_compare op) as [f|] eqn:Hc.
  { pose proof (vm_binop_compare sa sb op f a b x y Wa Wb Ha Hb Hc) as H.
    unfold JsOps.vm_binop in H. rewrite H. by destruct op. }
  destruct (js_arith op) as [f|] eqn:Hf.
  - destruct op; try discriminate Hf; try exact Hg;
      (num_cases a b Ha Hb; cbn [JsOps.vm_fast_path vm_add vm_sub vm_mul vm_compare both_int mixed orelse];
       apply typed_number; auto with lr).
  - destruct (JsOps.vm_fast_path _ _ _ _ _ _ _ _) as [v|] eqn:E; [|exact Hg].
    by rewrite (fast_path_other sa sb op a b x y v) in Hg by done.
Qed.

End Laws.

(** ** Text of integers *)

Lemma skip_blanks_digit c s : isdigit c = true \/ c = 45 -> skip_blanks (c :: s) = c :: s.
Proof. intros H. cbn [skip_blanks]. unfold is_blank, isdigit in *. by case_if; [lia|]. Qed.

Lemma print_int_head n :
  small_int n -> exists c s, print_int n = c :: s /\ (isdigit c = true \/ c = 45).
Proof.
  intros Hn. unfold print_int. case_if; [eauto|].
  destruct (print_nat_cons n) as (c & s & E & Hc); [lia|]. eauto.
Qed.

Lemma string_to_number_int n : small_int n -> string_to_number (print_int n) = f64_of_Z n.
Proof.
  intros Hn. pose proof (strtod_int n Hn) as Hs. unfold string_to_number.
  destruct (print_int_head n Hn) as (c & s & E & Hc). rewrite E in *.
  rewrite skip_blanks_digit by done. by rewrite Hs.
Qed.

(** Digits and a minus sign: no NUL. *)
Lemma cstr_print_int n : cstr (print_int n) = print_int n.
Proof.
  assert (forall k, 0 <= k -> Forall (fun c => c <> 0) (print_nat k)) as H.
  { intros k Hk. eapply Forall_impl; [by apply print_nat_digit|].
    intros c Hc. unfold isdigit in Hc. lia. }
  apply cstr_nonzero. unfold print_int. case_if; [constructor; [done|]|]; apply H; lia.
Qed.

(** ** Properties *)

(** C20: on numbers the interpreter computes with doubles.  Whatever mix of
    32-bit integers and doubles represents the operands, and whatever the
    machine's out-of-range casts give, [+ - /] give exactly the double
    operation of the numbers, [*] and [%] give it up to the sign of a zero,
    and the six comparisons give the comparison of the doubles. *)
Theorem vm_binop_numeric (cast_ub : f64 -> Z) (pow : f64 -> f64 -> f64)
    (alloc_ok grow_ok : Z -> alloc_result) (new_ptr : option Z) (sole_a sole_b : bool)
    (op : BCOpcode) (a b : LRValue) (x y : f64) :
  (forall d, in_int32 (cast_ub d) = true) ->
  wf_value a -> wf_value b -> num_value a = Some x -> num_value b = Some y ->
  let r := vm_binop cast_ub pow alloc_ok grow_ok new_ptr sole_a sole_b op a b in
  (forall f, js_arith op = Some f ->
     exists v z, r = Done v /\ num_value v = Some z /\ f64_class z = f64_class (f x y) /\
                 (op <> BC_MUL -> z = f x y)) /\
  (forall f, js_compare op = Some f -> r = Done (JBool (f x y))) /\
  (op = BC_MOD ->
     exists v z, r = Done v /\ num_value v = Some z /\ f64_class z = f64_class (fmod x y)).
Proof.
  intros Hcast Wa Wb Ha Hb r. split_and!.
  - intros f Hf. destruct (decide (op = BC_DIV)) as [->|Hop].
    + destruct (bcv_binop_arith cast_ub pow alloc_ok new_ptr Hcast BC_DIV f a b x y)
        as (v & Hv & Hz); try done. exists v, (f x y). by split_and!.
    + destruct (fast_path_arith cast_ub alloc_ok grow_ok Hcast sole_a sole_b op f a b x y)
        as (v & z & Hv & Hz & Hc & Hs); try done.
      exists v, z. split_and!; [unfold r, vm_binop; by rewrite Hv|done|done|].
      intros Hm. destruct Hs as [?|[? _]]; [done|by destruct Hm].
  - intros f Hf. by apply vm_binop_compare.
  - intros ->. by apply (bcv_binop_mod cast_ub pow alloc_ok new_ptr).
Qed.

(** A cast that saturates to [INT32_MIN], as x86 does. *)
Definition x86_cast (d : f64) : Z := INT32_MIN.

Lemma vm_binop_numeric_witness :
  exists v z, vm_binop x86_cast f64_mul (fun _ => true) (fun _ => true) (Some 4096) false false BC_ADD
                (JInt32 2147483647) (JInt32 1) = Done v /\ num_value v = Some z /\
    f64_class z = f64_class (f64_of_Z 2147483648) /\ (BC_ADD <> BC_MUL -> z = f64_of_Z 2147483648).
Proof.
  exact (proj1 (vm_binop_numeric x86_cast f64_mul (fun _ => true) (fun _ => true) (Some 4096) false false
           BC_ADD (JInt32 2147483647) (JInt32 1) (f64_of_Z 2147483647) (f64_of_Z 1)
           (fun _ => eq_refl) eq_refl eq_refl eq_refl eq_refl) f64_add eq_refl).
Defined.

(** C7: the fast paths agree with the general operation.  For every operator and
    all operands but those named below, what the loop computes before it would
    call [bcv_binop] is what [bcv_binop] computes, up to the representation of a
    number; a product of two integers that is [-0], though, is [0] in the loop.
    Left out are [==] and [!=] of an integer and a double (the general operation
    compares their tags first), an integer plus a string with a NUL in it (the
    general operation stops there), and string concatenations whose allocation
    fails. *)
Theorem vm_binop_agrees (cast_ub : f64 -> Z) (pow : f64 -> f64 -> f64)
    (alloc_ok grow_ok : Z -> alloc_result) (new_ptr : option Z) (sole_a sole_b : bool)
    (op : BCOpcode) (a b : LRValue) :
  (forall d, in_int32 (cast_ub d) = true) -> (forall n, alloc_ok n = true) ->
  wf_value a -> wf_value b ->
  match a, b with JInt32 _, JString s => cstr s = s | _, _ => True end ->
  (op <> BC_EQ /\ op <> BC_NE \/ tag a = tag b \/ bcv_is_number a && bcv_is_number b = false) ->
  agree op a b (vm_binop cast_ub pow alloc_ok grow_ok new_ptr sole_a sole_b op a b)
    (bcv_binop cast_ub pow alloc_ok new_ptr op a b).
Proof.
  intros Hcast Halloc Wa Wb Hnul Heq.
  destruct (num_value a) as [x|] eqn:Ha; [destruct (num_value b) as [y|] eqn:Hb|]; cycle 1.
  1-2: unfold vm_binop; destruct (vm_fast_path _ _ _ _ _ _ _ _) as [v|] eqn:E; [|by left];
    apply fast_path_strings in E as [-> E]; [|auto]; left;
    destruct a, b; try done; subst v; rewrite vm_concat_ok by done; cbn;
    unfold new_concat; by rewrite Halloc, ?Hnul.
  destruct (js_compare op) as [f|] eqn:Hc.
  { left. rewrite (vm_binop_compare cast_ub pow alloc_ok grow_ok new_ptr sole_a sole_b op f a b x y)
      by done. symmetry. apply bcv_binop_compare; try done.
    destruct Heq as [?|[?|Heq]]; [auto..|]. by destruct a, b. }
  destruct (js_arith op) as [f|] eqn:Hf.
  - destruct (bcv_binop_arith cast_ub pow alloc_ok new_ptr Hcast op f a b x y) as (w & Hw & Hwz);
      try done.
    destruct (decide (op = BC_DIV)) as [->|Hop]; [by left|].
    destruct (fast_path_arith cast_ub alloc_ok grow_ok Hcast sole_a sole_b op f a b x y)
      as (v & z & Hv & Hz & _ & Hex); try done.
    right. exists v, w, z, (f x y). unfold vm_binop. by rewrite Hv.
  - left. unfold vm_binop. destruct (vm_fast_path _ _ _ _ _ _ _ _) as [v|] eqn:E; [|done].
    symmetry. by apply (fast_path_other cast_ub pow alloc_ok grow_ok new_ptr sole_a sole_b op a b x y).
Qed.

(** The exceptions are there. *)
Lemma vm_product_zero_sign pow alloc_ok grow_ok new_ptr :
  vm_binop (fun _ => INT32_MIN) pow alloc_ok grow_ok new_ptr false false BC_MUL (JInt32 0) (JInt32 (-1))
    = Done (JInt32 0) /\
  bcv_binop (fun _ => INT32_MIN) pow alloc_ok new_ptr BC_MUL (JInt32 0) (JInt32 (-1))
    = Done (JFloat64 (S754_zero true)).
Proof. by split. Qed.

Lemma vm_binop_agrees_witness :
  agree BC_ADD (JString (chars_of "n = ")) (JInt32 (-5))
    (vm_binop x86_cast f64_mul (fun _ => true) (fun _ => true) (Some 4096) true false BC_ADD
       (JString (chars_of "n = ")) (JInt32 (-5)))
    (Done (JString (chars_of "n = -5"))).
Proof.
  exact (vm_binop_agrees x86_cast f64_mul (fun _ => true) (fun _ => true) (Some 4096) true false BC_ADD
           (JString (chars_of "n = ")) (JInt32 (-5)) (fun _ => eq_refl) (fun _ => eq_refl)
           I eq_refl I (or_introl (conj (fun H : BC_ADD = BC_EQ => ltac:(discriminate H))
                                        (fun H : BC_ADD = BC_NE => ltac:(discriminate H))))).
Defined.

(** C26: the type of a result.  From operands whose integers are within their
    width, and if a BigInt can be allocated, a binary operator gives an integer
    within its width, and a value of
    the operator's type: a number, a BigInt or, for [+] only, a string from an
    arithmetic operator; a 32-bit integer or a BigInt from a bitwise one; a
    boolean from the others. *)
Theorem vm_binop_type (cast_ub : f64 -> Z) (pow : f64 -> f64 -> f64)
    (alloc_ok grow_ok : Z -> alloc_result) (new_ptr : option Z) (sole_a sole_b : bool)
    (op : BCOpcode) (a b v : LRValue) :
  (forall d, in_int32 (cast_ub d) = true) -> new_ptr <> None -> is_binop op = true -> wf_value a -> wf_value b ->
  vm_binop cast_ub pow alloc_ok grow_ok new_ptr sole_a sole_b op a b = Done v ->
  wf_value v /\ result_type op v = true.
Proof.
  intros Hcast Hptr Hop Wa Wb H.
  pose proof (typed_vm_binop cast_ub pow alloc_ok grow_ok new_ptr Hcast sole_a sole_b op a b
                Hptr Hop Wa Wb) as Ht.
  by rewrite H in Ht.
Qed.

(** [(-7) >>> 1] stays a 32-bit integer. *)
Lemma vm_binop_type_witness :
  wf_value (JInt32 2147483644) /\ result_type BC_SHR (JInt32 2147483644) = true.
Proof.
  apply (vm_binop_type x86_cast f64_mul (fun _ => true) (fun _ => true) (Some 4096) false false BC_SHR
           (JInt32 (-7)) (JInt32 1)); try reflexivity. discriminate.
Defined.

(** C40: integers survive the trip through text.  The text of a 32-bit integer
    reads back as the same number through the conversion to a number and
    through the conversion to an integer, and concatenating it to a string
    appends exactly that text. *)
Theorem int_text_roundtrip (cast_ub : f64 -> Z) (i : Z) (s : list Z) :
  in_int32 i = true ->
  exists t, lr_to_cstring (JInt32 i) = Some t /\
    bcv_to_number (JString t) = f64_of_Z i /\
    bcv_to_int32 cast_ub (JString t) = i /\
    bcv_concat (fun _ => true) (JString s) (JInt32 i) = Some (JString (s ++ t)) /\
    bcv_abstract_eq (JInt32 i) (JString t) = Some true.
Proof.
  intros Hi. exists (print_int i). pose proof (in_int32_small i Hi) as Hs.
  pose proof (string_to_number_int i Hs) as Hn. split_and!; [done|exact Hn| |done|].
  - cbn. rewrite cstr_print_int. unfold strtoll. rewrite strto_int by (unfold small_int in Hs; lia).
    apply in_int32_spec in Hi. unfold INT32_MIN, INT32_MAX in Hi.
    rewrite Z.min_r, Z.max_r by lia. apply i32_small. lia.
  - unfold bcv_abstract_eq. cbn. rewrite Hn.
    assert (f64_eqb (f64_of_Z i) (f64_of_Z i) = true) as He
      by (rewrite f64_eqb_int by done; apply Z.eqb_refl).
    destruct (isnan (f64_of_Z i)) eqn:E; [|by rewrite He].
    rewrite f64_eqb_nan in He by (by rewrite E). done.
Qed.

Lemma int_text_roundtrip_witness :
  exists t, lr_to_cstring (JInt32 (-2147483648)) = Some t /\
    bcv_to_number (JString t) = f64_of_Z (-2147483648) /\
    bcv_to_int32 x86_cast (JString t) = -2147483648 /\
    bcv_concat (fun _ => true) (JString []) (JInt32 (-2147483648)) = Some (JString ([] ++ t)) /\
    bcv_abstract_eq (JInt32 (-2147483648)) (JString t) = Some true.
Proof. exact (int_text_roundtrip x86_cast (-2147483648) [] eq_refl). Defined.

Lemma zero_times_negative y : y < 0 -> in_int32 y = true -> f64_mul (f64_of_Z 0) (f64_of_Z y) = S754_zero true.
Proof.
  intros Hy Hi. rewrite (f64_of_int y) by (by apply in_int32_small || lia).
  destruct (Z.ltb_spec y 0); [done|lia].
Qed.

(** the representation of a number shows.  A quotient is always a double,
    so it is never [===] to an integer, not even [4/2] to [2]; the general
    operation finds an integer [==] to no double at all, although the loop's
    fast path compares the numbers.  The loop's integer product loses the sign
    of a zero that the general operation keeps: [0 * -1] is [0] in the loop and
    [-0] in [bcv_binop], so dividing by it gives infinities of opposite sign.
    The integer [%] loses it in both: [-1 % 1] is [0]. *)
Lemma representation_shows (cast_ub : f64 -> Z) (pow : f64 -> f64 -> f64)
    (alloc_ok grow_ok : Z -> alloc_result) (new_ptr : option Z) (i x y : Z) (d : f64) :
  y < 0 -> in_int32 y = true ->
  let vm := vm_binop cast_ub pow alloc_ok grow_ok new_ptr false false in
  let bcv := bcv_binop cast_ub pow alloc_ok new_ptr in
  (exists q, vm BC_DIV (JInt32 x) (JInt32 y) = Done q /\
     vm BC_STRICT_EQ q (JInt32 i) = Done (JBool false)) /\
  vm BC_DIV (JInt32 4) (JInt32 2) = Done (JFloat64 (f64_of_Z 2)) /\
  vm BC_EQ (JFloat64 (f64_of_Z 2)) (JInt32 2) = Done (JBool true) /\
  bcv BC_EQ (JInt32 i) (JFloat64 d) = Done (JBool false) /\
  vm BC_EQ (JInt32 i) (JFloat64 d) = Done (JBool (f64_eqb (f64_of_Z i) d)) /\
  vm BC_MUL (JInt32 0) (JInt32 y) = Done (JInt32 0) /\
  bcv BC_MUL (JInt32 0) (JInt32 y) = Done (JFloat64 (S754_zero true)) /\
  bcv BC_DIV (JInt32 1) (JInt32 0) = Done (JFloat64 (S754_infinity false)) /\
  bcv BC_DIV (JInt32 1) (JFloat64 (S754_zero true)) = Done (JFloat64 (S754_infinity true)) /\
  vm BC_MOD (JInt32 (-1)) (JInt32 1) = Done (JInt32 0).
Proof.
  intros Hy Hi vm bcv. pose proof (zero_times_negative y Hy Hi) as Hm.
  split_and!; [eexists; split; reflexivity|vm_compute; reflexivity|vm_compute; reflexivity| |..];
    try reflexivity.
  - unfold vm, vm_binop. cbn [vm_fast_path vm_mul both_int orelse]. unfold vm_product. by rewrite Hm.
  - unfold bcv, bcv_binop. cbn [int32_path]. by rewrite Hm.
Qed.

Lemma representation_shows_witness :
  vm_binop x86_cast f64_mul (fun _ => true) (fun _ => true) (Some 4096) false false BC_MUL
    (JInt32 0) (JInt32 (-1)) = Done (JInt32 0).
Proof.
  apply (representation_shows x86_cast f64_mul (fun _ => true) (fun _ => true) (Some 4096) 0 0 (-1) (f64_of_Z 0));
    reflexivity.
Defined.
