(* ===== verification/Vm.v ===== *)
(** The interpreter loop, [bc_execute] of [src/src/engine/lr_bytecode_exec.c]:
    the stack, the current scope's slots, literals, operators and jumps.

    A state is the instruction offset, the operand stack with its top first,
    the slots and names of the current scope, a function's, and the result
    register; a step reads one instruction from the code bytes.  Named variables,
    calls, property access, iteration of objects, scopes and delegated nodes are
    outside the model and give [Unmodelled], as does an operand the value
    operations leave [Outside]. *)

From stdpp Require Import base list strings.
From Stdlib Require Import ZArith Lia SpecFloat.
From S2P Require Import Prelude.
From S2P Require Import BcProgram.
From S2P Require Import NumText.
From S2P Require Import JsOps.

(** ** State *)

Record vm := {
  ip : Z;
  stack : list LRValue;         (* stack[sp-1] first *)
  slots : list LRValue;         (* interp->current_scope->values *)
  names : list (list Z);        (* interp->current_scope->names *)
  result : LRValue
}.

Inductive vm_result :=
  | Next (s : vm)
  | Finished (v : LRValue) (sc : list LRValue)    (* vm_done *)
  | Aborted (msg : option string)                 (* vm_abort *)
  | Undefined                                     (* undefined behaviour *)
  | Unmodelled.

Definition push (v : LRValue) (s : vm) : vm :=
  {| ip := ip s; stack := v :: stack s; slots := slots s; names := names s; result := result s |}.
Definition set_stack (st : list LRValue) (s : vm) : vm :=
  {| ip := ip s; stack := st; slots := slots s; names := names s; result := result s |}.
Definition set_slots (sc : list LRValue) (s : vm) : vm :=
  {| ip := ip s; stack := stack s; slots := sc; names := names s; result := result s |}.
Definition set_result (v : LRValue) (s : vm) : vm :=
  {| ip := ip s; stack := stack s; slots := slots s; names := names s; result := v |}.
Definition jump (off : Z) (s : vm) : vm :=
  {| ip := ip s + off; stack := stack s; slots := slots s; names := names s; result := result s |}.

Definition set_names (nm : list (list Z)) (s : vm) : vm :=
  {| ip := ip s; stack := stack s; slots := slots s; names := nm; result := result s |}.

(** [POP()]: an empty stack gives [undefined]. *)
Definition pop (s : vm) : LRValue * vm :=
  match stack s with
  | v :: st => (v, set_stack st s)
  | [] => (JUndefined, s)
  end.

Section Loop.

Context (cast_ub : f64 -> Z) (pow : f64 -> f64 -> f64).
Context (alloc_ok grow_ok : Z -> alloc_result) (new_ptr : option Z).

(** Whether the string at a stack position (for [BC_ADD_SELF], in the slot) has
    no other reference. *)
Context (sole : vm -> nat -> bool).

Context (prog : BCProgram).

Abbreviation code := (p_code prog).

(** ** Operands *)

Definition rd16 (at_ip : Z) : Z := le_val (slice at_ip 2 code).
Definition rd32 (at_ip : Z) : Z := i32 (le_val (slice at_ip 4 code)).

(** [slot < (uint16_t)scope->count] *)
Definition in_scope (slot : Z) (sc : list LRValue) : bool := slot <? u16 (zlen sc).

Definition load_slot (slot : Z) (sc : list LRValue) : LRValue :=
  if in_scope slot sc then default JUndefined (sc !! Z.to_nat slot) else JUndefined.

Definition store_slot (slot : Z) (v : LRValue) (sc : list LRValue) : list LRValue :=
  if in_scope slot sc then <[Z.to_nat slot := v]> sc else sc.

(** ** Instructions on slots *)

Definition of_outcome (o : outcome) (k : LRValue -> vm_result) : vm_result :=
  match o with
  | Done v => k v
  | Raise msg => Aborted (Some msg)
  | UB => Undefined
  | Outside => Unmodelled
  end.

(** [slot = slot + b]: a string is extended in place or copied, and the slot
    keeps its value when neither is possible; the rest is [bcv_binop]. *)
Definition self_concat (sole_a : bool) (slot : Z) (x y : list Z) (s : vm) : vm :=
  let total := zlen x + zlen y in
  if sole_a && grow_ok total || alloc_ok total then
    push (JString (x ++ y)) (set_slots (store_slot slot (JString (x ++ y)) (slots s)) s)
  else push (JString []) s.

Definition self_mul (a b : LRValue) : outcome :=
  match vm_mul cast_ub a b with
  | Some r => Done r
  | None => bcv_binop cast_ub pow alloc_ok new_ptr BC_MUL a b
  end.

Definition add_self (slot : Z) (s : vm) : vm_result :=
  let '(b, s1) := pop s in
  if in_scope slot (slots s1) then
    match load_slot slot (slots s1), b with
    | JString x, JString y => Next (self_concat (sole s 0) slot x y s1)
    | JString x, JInt32 i => Next (self_concat (sole s 0) slot x (print_int i) s1)
    | a, _ =>
        of_outcome (bcv_binop cast_ub pow alloc_ok new_ptr BC_ADD a b)
          (fun r => Next (push r (set_slots (store_slot slot r (slots s1)) s1)))
    end
  else Next (push JUndefined s1).

(** The values [FREE_IF_HEAP] releases. *)
Definition is_heap (v : LRValue) : bool :=
  match v with JString _ | JSymbol _ _ | JObject _ _ => true | _ => false end.

(** The fallback releases the slot's old value twice: for a value on the heap that
    takes a reference the slot does not hold. *)
Definition mul_self (slot : Z) (s : vm) : vm_result :=
  let '(b, s1) := pop s in
  if is_heap (load_slot slot (slots s1)) then Undefined
  else of_outcome (self_mul (load_slot slot (slots s1)) b)
    (fun r => Next (push r (set_slots (store_slot slot r (slots s1)) s1))).

(** The increment of a slot: [int32_t] overflow is undefined in C, anything but
    an integer goes through [bcv_binop] with [+ 1]. *)
Definition increment (old : LRValue) : outcome :=
  match old with
  | JInt32 i => ub_unless (in_int32 (i + 1)) (Done (JInt32 (i + 1)))
  | _ => bcv_binop cast_ub pow alloc_ok new_ptr BC_ADD old (JInt32 1)
  end.

Definition inc_local (discard : bool) (slot : Z) (s : vm) : vm_result :=
  if in_scope slot (slots s) then
    let old := load_slot slot (slots s) in
    of_outcome (increment old)
      (fun v => let s1 := set_slots (store_slot slot v (slots s)) s in
                Next (if discard then s1 else push old s1))
  else Next (if discard then s else push JUndefined s).

(** First name of a scope, or of a slot table, equal to [name]. *)
Fixpoint find_name (name : list Z) (l : list (list Z)) (i : Z) : option Z :=
  match l with
  | [] => None
  | x :: l' => if bool_decide (x = name) then Some i else find_name name l' (i + 1)
  end.

(** [scope_declare_name] in a function scope, for a [var]: a name already there
    gets the value, a new one is added after the others. *)
Definition scope_declare_name (name : list Z) (v : LRValue) (s : vm) : vm :=
  match find_name name (names s) 0 with
  | Some i => set_slots (<[Z.to_nat i := v]> (slots s)) s
  | None => set_names (names s ++ [name]) (set_slots (slots s ++ [v]) s)
  end.

(** [BC_DECLARE_VAR]; its inline cache stores to the same slot. *)
Definition declare_var (si kind : Z) (s : vm) : vm_result :=
  let '(v, s1) := pop s in
  if kind =? 0 then
    match p_pool prog !! Z.to_nat si with
    | Some (PoolString name _) => Next (scope_declare_name (cstr name) v s1)
    | _ => Undefined
    end
  else Unmodelled.

(** ** Operators *)

(** [binop_shared], behind the fast paths that need two operands. *)
Definition do_binop (op : BCOpcode) (s : vm) : vm_result :=
  match stack s with
  | b :: a :: st =>
      of_outcome (vm_binop cast_ub pow alloc_ok grow_ok new_ptr (sole s 1) (sole s 0) op a b)
        (fun r => Next (push r (set_stack st s)))
  | _ => Aborted None
  end.

Definition do_unop (op : BCOpcode) (s : vm) : vm_result :=
  let '(a, s1) := pop s in
  match vm_unop cast_ub op a with
  | Some r => Next (push r s1)
  | None => Unmodelled
  end.

(** Jumps that pop their condition, and jumps that keep it. *)
Definition jump_if (taken : bool -> bool) (off : Z) (s : vm) : vm_result :=
  let '(v, s1) := pop s in
  Next (if taken (lr_to_bool v) then jump off s1 else s1).

Definition jump_keep (taken : LRValue -> bool) (off : Z) (s : vm) : vm_result :=
  match stack s with
  | [] => Aborted None
  | v :: _ => Next (if taken v then jump off s else s)
  end.

Definition nullish (v : LRValue) : bool := is_undefined v || is_null v.

(** [BC_JUMP_IF_LOCAL_LT_IMM] *)
Definition local_lt (slot imm : Z) (sc : list LRValue) : bool :=
  if in_scope slot sc then
    match load_slot slot sc with
    | JInt32 i => i <? imm
    | v => f64_ltb (bcv_to_number v) (f64_of_Z imm)
    end
  else false.

(** ** Iteration of strings *)

(** [BC_ITER_INIT]: the source, its [next] function and the index go on the
    stack; [-2] stands for a source that cannot be iterated. *)
Definition iter_init (s : vm) : vm_result :=
  let '(src, s1) := pop s in
  match src with
  | JObject _ _ => Unmodelled
  | JString _ => Next (push (JInt32 0) (push JUndefined (push src s1)))
  | _ => Next (push (JInt32 (-2)) (push JUndefined (push src s1)))
  end.

(** [BC_ITER_NEXT]: the next character, or the jump.  Reading the [length] of
    [undefined] gives [undefined], as an integer 0. *)
Definition iter_next (off : Z) (s : vm) : vm_result :=
  match stack s with
  | JInt32 index :: nf :: src :: st =>
      if index =? -2 then Next (jump off s)
      else if index <? 0 then Unmodelled
      else
        match src with
        | JString str =>
            if zlen (cstr str) <=? index then Next (jump off s)
            else Next (push (lr_new_string [at_ (cstr str) index])
                         (set_stack (JInt32 (index + 1) :: nf :: src :: st) s))
        | JUndefined => Next (jump off s)
        | _ => Unmodelled
        end
  | _ :: _ :: _ :: _ => Unmodelled
  | _ => Aborted None
  end.

(** [BC_ITER_CLOSE] *)
Definition iter_close (s : vm) : vm_result :=
  match stack s with
  | _ :: _ :: _ :: st => Next (set_stack st s)
  | _ => Aborted None
  end.

(** ** One instruction *)

Definition push_const (si : Z) (s : vm) : vm_result :=
  match p_pool prog !! Z.to_nat si with
  | Some (PoolFloat64 bits) => Next (push (JFloat64 (f64_of_bits bits)) s)
  | Some (PoolString str _) => Next (push (lr_new_string str) s)
  | _ => Undefined
  end.

(** The handler of [op], with the instruction pointer after the opcode. *)
Definition exec_op (op : BCOpcode) (s : vm) : vm_result :=
  let arg16 := rd16 (ip s) in
  let arg32 := rd32 (ip s) in
  let s2 := jump 2 s in
  let s4 := jump 4 s in
  match op with
  | BC_STOP => Finished (result s) (slots s)
  | BC_NOP => Next s
  | BC_PUSH_UNDEFINED => Next (push JUndefined s)
  | BC_PUSH_NULL => Next (push JNull s)
  | BC_PUSH_TRUE => Next (push (JBool true) s)
  | BC_PUSH_FALSE => Next (push (JBool false) s)
  | BC_PUSH_INT32 => Next (push (JInt32 arg32) s4)
  | BC_PUSH_FLOAT64 | BC_PUSH_STRING => push_const arg16 s2
  | BC_POP => Next (pop s).2
  | BC_DUP => Next (push (default JUndefined (head (stack s))) s)
  | BC_DUP2 =>
      match stack s with
      | b :: a :: _ => Next (push b (push a s))
      | _ => Aborted None
      end
  | BC_SWAP =>
      match stack s with
      | b :: a :: st => Next (set_stack (a :: b :: st) s)
      | _ => Aborted None
      end
  | BC_ROT3 =>
      match stack s with
      | c :: b :: a :: st => Next (set_stack (b :: a :: c :: st) s)
      | _ => Aborted None
      end
  | BC_LOAD_LOCAL => Next (push (load_slot arg16 (slots s)) s2)
  | BC_STORE_LOCAL =>
      let '(v, s3) := pop s2 in Next (set_slots (store_slot arg16 v (slots s)) s3)
  | BC_DECLARE_VAR => declare_var arg16 (at_ code (ip s + 2)) (jump 3 s)
  | BC_INC_LOCAL => inc_local false arg16 s2
  | BC_INC_LOCAL_DISCARD => inc_local true arg16 s2
  | BC_ADD_SELF => add_self arg16 s2
  | BC_MUL_SELF => mul_self arg16 s2
  | BC_ADD | BC_SUB | BC_MUL | BC_DIV | BC_MOD | BC_POW
  | BC_LT | BC_GT | BC_LE | BC_GE | BC_EQ | BC_NE | BC_STRICT_EQ | BC_STRICT_NE
  | BC_SHL | BC_SHR | BC_SAR | BC_BIT_AND | BC_BIT_OR | BC_BIT_XOR
  | BC_IN | BC_INSTANCEOF => do_binop op s
  | BC_NEG | BC_POS | BC_NOT | BC_BIT_NOT | BC_TYPEOF | BC_VOID
  | BC_TO_STRING | BC_TO_NUMBER | BC_TO_BOOL => do_unop op s
  | BC_JUMP => Next (jump arg32 s4)
  | BC_JUMP_IF_FALSE => jump_if negb arg32 s4
  | BC_JUMP_IF_TRUE => jump_if (fun t => t) arg32 s4
  | BC_JUMP_IF_FALSE_KEEP => jump_keep (fun v => negb (lr_to_bool v)) arg32 s4
  | BC_JUMP_IF_TRUE_KEEP => jump_keep lr_to_bool arg32 s4
  | BC_JUMP_IF_NOT_NULLISH => jump_keep (fun v => negb (nullish v)) arg32 s4
  | BC_JUMP_IF_LOCAL_LT_IMM =>
      let s10 := jump 10 s in
      Next (if local_lt arg16 (rd32 (ip s + 2)) (slots s) then s10
            else jump (rd32 (ip s + 6)) s10)
  | BC_LOOP_TICK => Next s
  | BC_ITER_INIT => iter_init s
  | BC_ITER_NEXT => iter_next arg32 s4
  | BC_ITER_CLOSE => iter_close s
  | BC_RETURN => let '(v, s1) := pop s in Finished v (slots s1)
  | BC_SET_RESULT => let '(v, s1) := pop s in Next (set_result v s1)
  | BC_CLEAR_RESULT => Next (set_result JUndefined s)
  | _ => Unmodelled
  end.

(** [uint8_t op = *ip++; goto *dispatch[op];]: no test that the code goes on. *)
Definition step (s : vm) : vm_result :=
  if (ip s <? 0) || (zlen code <=? ip s) then Undefined
  else match op_of_byte (at_ code (ip s)) with
       | Some op => exec_op op (jump 1 s)
       | None => Undefined
       end.

Fixpoint run (fuel : nat) (s : vm) : option vm_result :=
  match fuel with
  | O => None
  | S fuel' =>
      match step s with
      | Next s' => run fuel' s'
      | r => Some r
      end
  end.

(** [bc_execute] on a scope, without a time limit and without JIT.  A program
    without code or whose compilation failed is not run. *)
Definition bc_execute (fuel : nat) (nm : list (list Z)) (sc : list LRValue) : option vm_result :=
  if (zlen code =? 0) || (p_compiled prog =? 0) then Some (Finished JUndefined sc)
  else run fuel {| ip := 0; stack := []; slots := sc; names := nm; result := JUndefined |}.

End Loop.
