(* ===== verification/VmCode.v ===== *)
(** Running encoded instructions: where an instruction sits in the code, what
    the loop reads there, and sequences of steps. *)

From stdpp Require Import base list strings.
From Stdlib Require Import ZArith Lia SpecFloat.
From S2P Require Import Prelude.
From S2P Require Import BcProgram.
From S2P Require Import BcEmit.
From S2P Require Import JsOps.
From S2P Require Import Vm.

(** The instructions [l] are in the code from offset [pos]. *)
Definition code_at (p : BCProgram) (pos : Z) (l : list instr) : Prop :=
  exists pre post, p_code p = pre ++ encode l ++ post /\ pos = zlen pre.

Lemma encode_singleton i : encode [i] = encode_instr i.
Proof. unfold encode. cbn [map concat]. apply app_nil_r. Qed.

Lemma code_at_app p pos l1 l2 :
  code_at p pos (l1 ++ l2) <-> code_at p pos l1 /\ code_at p (pos + zlen (encode l1)) l2.
Proof.
  split.
  - intros (pre & post & E & ->). rewrite encode_app, <- app_assoc in E. split.
    + by exists pre, (encode l2 ++ post).
    + exists (pre ++ encode l1), post. by rewrite <- app_assoc, zlen_app.
  - intros [(pre & post & E & ->) (pre2 & post2 & E2 & Hp)].
    exists pre, post2. split; [|done]. rewrite E2, encode_app, <- app_assoc.
    assert (pre2 = pre ++ encode l1) as ->; [|by rewrite <- app_assoc].
    rewrite E in E2. rewrite app_assoc in E2. symmetry in E2.
    apply app_inj_1 in E2 as [-> _]; [done|]. unfold zlen in Hp. rewrite length_app. lia.
Qed.

Lemma code_at_cons p pos i l :
  code_at p pos (i :: l) <-> code_at p pos [i] /\ code_at p (pos + zlen (encode_instr i)) l.
Proof. rewrite <- (encode_singleton i). apply (code_at_app p pos [i] l). Qed.

Lemma slice_mid {A} (pre mid post : list A) : slice (zlen pre) (zlen mid) (pre ++ mid ++ post) = mid.
Proof.
  unfold slice, zlen. rewrite !Nat2Z.id, drop_app_length. apply take_app_length.
Qed.

Lemma at_mid (pre : list Z) b post : at_ (pre ++ b :: post) (zlen pre) = b.
Proof.
  unfold at_, zlen. rewrite Nat2Z.id.
  apply list_lookup_total_correct, list_lookup_middle. done.
Qed.

Section Reading.

Context (p : BCProgram).

(** The bytes of the instruction at [pos]. *)
Lemma code_at_op pos i :
  code_at p pos [i] ->
  0 <= pos < zlen (p_code p) /\ at_ (p_code p) pos = op_byte (i_op i).
Proof.
  intros (pre & post & E & ->). rewrite encode_singleton in E. unfold encode_instr in E.
  rewrite E. cbn [app]. split; [|apply at_mid].
  rewrite zlen_app, zlen_cons. pose proof (zlen_nonneg pre).
  pose proof (zlen_nonneg (encode_args (operand_layout (i_op i)) (i_args i) ++ post)). lia.
Qed.

Lemma code_at_operand pos op args x y z :
  code_at p pos [Instr op args] -> encode_args (operand_layout op) args = x ++ y ++ z ->
  slice (pos + 1 + zlen x) (zlen y) (p_code p) = y.
Proof.
  intros (pre & post & E & ->) Hb. rewrite encode_singleton in E. unfold encode_instr in E.
  cbn [i_op i_args] in E. rewrite Hb in E. rewrite E.
  replace (pre ++ (op_byte op :: x ++ y ++ z) ++ post) with ((pre ++ [op_byte op] ++ x) ++ y ++ z ++ post)
    by (cbn; by rewrite <- !app_assoc).
  replace (zlen pre + 1 + zlen x) with (zlen (pre ++ [op_byte op] ++ x))
    by (rewrite !zlen_app; change (zlen [op_byte op]) with 1; lia).
  apply slice_mid.
Qed.

Lemma rd16_in pos op args x a z :
  code_at p pos [Instr op args] -> encode_args (operand_layout op) args = x ++ le_bytes 2 a ++ z ->
  0 <= a <= 65535 -> rd16 p (pos + 1 + zlen x) = a.
Proof.
  intros H Hl Ha. pose proof (code_at_operand _ _ _ _ _ _ H Hl) as Hs. rewrite zlen_le_bytes in Hs.
  unfold rd16. change (Z.of_nat 2) with 2 in Hs. rewrite Hs, le_val_bytes.
  apply Z.mod_small. change (256 ^ Z.of_nat 2) with 65536. lia.
Qed.

Lemma rd32_in pos op args x a z :
  code_at p pos [Instr op args] -> encode_args (operand_layout op) args = x ++ le_bytes 4 a ++ z ->
  - 2 ^ 31 <= a < 2 ^ 31 -> rd32 p (pos + 1 + zlen x) = a.
Proof.
  intros H Hl Ha. pose proof (code_at_operand _ _ _ _ _ _ H Hl) as Hs. rewrite zlen_le_bytes in Hs.
  unfold rd32. change (Z.of_nat 4) with 4 in Hs. rewrite Hs, le_val_bytes.
  change (256 ^ Z.of_nat 4) with (2 ^ 32). fold (u32 a). by rewrite i32_u32, i32_small.
Qed.

Lemma rd16_at pos op a :
  code_at p pos [Instr op [a]] -> operand_layout op = 1 -> 0 <= a <= 65535 ->
  rd16 p (pos + 1) = a.
Proof.
  intros H Hl Ha. replace (pos + 1) with (pos + 1 + zlen (@nil Z)) by (unfold zlen; cbn; lia).
  eapply rd16_in; [exact H|by rewrite Hl|done].
Qed.

Lemma rd32_at pos op a :
  code_at p pos [Instr op [a]] -> operand_layout op = 2 -> - 2 ^ 31 <= a < 2 ^ 31 ->
  rd32 p (pos + 1) = a.
Proof.
  intros H Hl Ha. replace (pos + 1) with (pos + 1 + zlen (@nil Z)) by (unfold zlen; cbn; lia).
  eapply rd32_in; [exact H|by rewrite Hl|done].
Qed.

(** One byte at the end of the operands. *)
Lemma at_operand pos op args x b :
  code_at p pos [Instr op args] -> encode_args (operand_layout op) args = x ++ [b] ->
  at_ (p_code p) (pos + 1 + zlen x) = b.
Proof.
  intros (pre & post & E & ->) Hb. rewrite encode_singleton in E. unfold encode_instr in E.
  cbn [i_op i_args] in E. rewrite Hb in E. rewrite E.
  replace (pre ++ (op_byte op :: x ++ [b]) ++ post) with ((pre ++ [op_byte op] ++ x) ++ b :: post)
    by (cbn; by rewrite <- !app_assoc).
  replace (zlen pre + 1 + zlen x) with (zlen (pre ++ [op_byte op] ++ x))
    by (rewrite !zlen_app; change (zlen [op_byte op]) with 1; lia).
  apply at_mid.
Qed.

End Reading.

(** ** Sequences of steps *)

Section Steps.

Context (cast_ub : f64 -> Z) (pow : f64 -> f64 -> f64).
Context (alloc_ok grow_ok : Z -> alloc_result) (new_ptr : option Z).
Context (sole : vm -> nat -> bool) (prog : BCProgram).

Abbreviation step := (step cast_ub pow alloc_ok grow_ok new_ptr sole prog).
Abbreviation run := (run cast_ub pow alloc_ok grow_ok new_ptr sole prog).
Abbreviation exec_op := (exec_op cast_ub pow alloc_ok grow_ok new_ptr sole prog).

Inductive reach : vm -> vm -> Prop :=
  | reach_refl s : reach s s
  | reach_step s1 s2 s3 : step s1 = Next s2 -> reach s2 s3 -> reach s1 s3.

Definition aborts (s : vm) (msg : string) : Prop :=
  exists s', reach s s' /\ step s' = Aborted (Some msg).

Lemma reach_trans s1 s2 s3 : reach s1 s2 -> reach s2 s3 -> reach s1 s3.
Proof. induction 1; [done|]. intros. econstructor; eauto. Qed.

Lemma reach_one s1 s2 : step s1 = Next s2 -> reach s1 s2.
Proof. intros. econstructor; [done|constructor]. Qed.

Lemma reach_aborts s1 s2 msg : reach s1 s2 -> aborts s2 msg -> aborts s1 msg.
Proof. intros H (s3 & H3 & Hs). exists s3. split; [|done]. by eapply reach_trans. Qed.

(** What is reached is what the loop computes. *)
Lemma reach_run s1 s2 r :
  reach s1 s2 -> step s2 = r -> (forall s, r <> Next s) -> exists fuel, run fuel s1 = Some r.
Proof.
  intros H Hr Hn. induction H as [s|s1 s2 s3 Hs _ IH].
  - exists 1%nat. cbn [Vm.run]. rewrite Hr. by destruct r; [edestruct Hn|..].
  - destruct (IH Hr) as [fuel Hf]. exists (S fuel). cbn [Vm.run]. by rewrite Hs.
Qed.

Lemma run_mono fuel k s r : run fuel s = Some r -> run (fuel + k) s = Some r.
Proof.
  revert s. induction fuel as [|fuel IH]; intros s; [done|]. cbn [Vm.run Nat.add].
  destruct (step s); auto.
Qed.

Lemma step_instr i s :
  code_at prog (ip s) [i] -> step s = exec_op (i_op i) (jump 1 s).
Proof.
  intros H. destruct (code_at_op prog (ip s) i H) as [Hr Ho]. unfold Vm.step.
  destruct (Z.ltb_spec (ip s) 0); [lia|]. destruct (Z.leb_spec (zlen (p_code prog)) (ip s)); [lia|].
  cbn [orb]. by rewrite Ho, op_of_op_byte.
Qed.

End Steps.
