(* ===== verification/Emits.v ===== *)
(** What compiling code does to the emitter's state: the program only grows,
    and between two states lies a list of whole instructions.  The compiler's
    correctness is proved with this view of the emitter, free of bytes. *)

From stdpp Require Import base list strings.
From Stdlib Require Import ZArith Lia SpecFloat.
From S2P Require Import Prelude.
From S2P Require Import BcProgram.
From S2P Require Import BcEmit.

Section Emits.

Context (realloc_ok : Z -> alloc_result).

Abbreviation emit_op op := (emit realloc_ok (op_byte op)).

(** ** Growth *)

Record grows (c c' : BCComp) : Prop := {
  gr_ok : c_ok c' = true -> c_ok c = true;
  gr_here : here c <= here c';
  gr_pool : pool_extends c c'
}.

#[global] Instance grows_preorder : PreOrder grows.
Proof.
  split.
  - intros c. split; [done|lia|exists []; by rewrite app_nil_r].
  - intros c1 c2 c3 [H1 H2 [l1 H3]] [H4 H5 [l2 H6]]. split; [auto|lia|].
    exists (l1 ++ l2). by rewrite H6, H3, app_assoc.
Qed.

(** The same code and pool, and no failure undone. *)
Lemma grows_same c c' :
  (c_ok c' = true -> c_ok c = true) -> code_of c' = code_of c -> pool_of c' = pool_of c -> grows c c'.
Proof.
  intros H1 H2 H3. split; [done|unfold here; rewrite H2; lia|].
  exists []. by rewrite H3, app_nil_r.
Qed.

Lemma bc_ensure_pool n c : pool_of (bc_ensure realloc_ok n c) = pool_of c.
Proof. unfold bc_ensure. by repeat case_if. Qed.

Lemma grows_ensure n c : grows c (bc_ensure realloc_ok n c).
Proof.
  apply grows_same; [apply bc_ensure_ok|apply bc_ensure_code|apply bc_ensure_pool].
Qed.

Lemma grows_append bs c : grows c (append bs c).
Proof.
  split; [done| |exists []; by rewrite app_nil_r].
  unfold here, append, code_of. cbn. rewrite zlen_app. pose proof (zlen_nonneg bs). lia.
Qed.

Lemma grows_wrote n c : grows c (wrote n c).
Proof. by apply grows_same. Qed.

Lemma grows_update d c : grows c (update_stack d c).
Proof. by apply grows_same. Qed.

Lemma grows_emit b c : grows c (emit realloc_ok b c).
Proof.
  unfold emit. case_if; [done|]. case_if.
  - split; [done| |exists []; by rewrite app_nil_r].
    unfold here, code_of. cbn. unfold zlen. rewrite length_insert. lia.
  - match goal with |- context [bc_ensure _ 1 ?x] => set (c2 := x) end.
    assert (grows c c2) as H by (apply grows_same; unfold c2; by case_if).
    case_if; etransitivity; try exact H; [apply grows_ensure|].
    etransitivity; [apply (grows_ensure 1)|apply grows_append].
Qed.

Lemma grows_emit16 v c : grows c (emit16 realloc_ok v c).
Proof.
  unfold emit16. case_if; [done|]. case_if; [by apply grows_same|].
  case_if; [apply grows_ensure|]. etransitivity; [apply (grows_ensure 2)|].
  etransitivity; [apply grows_append|apply grows_wrote].
Qed.

Lemma grows_emit32 v c : grows c (emit32 realloc_ok v c).
Proof.
  unfold emit32. case_if; [done|].
  case_if; [apply grows_ensure|]. etransitivity; [apply (grows_ensure 4)|].
  etransitivity; [apply grows_append|apply grows_wrote].
Qed.

Lemma grows_emit_jump op c : grows c (emit_jump realloc_ok op c).1.
Proof. unfold emit_jump. cbn [fst]. etransitivity; [apply grows_emit|apply grows_emit32]. Qed.

Lemma here_write_at pos bs l :
  0 <= pos -> pos + zlen bs <= zlen l -> zlen (write_at pos bs l) = zlen l.
Proof.
  intros Hp Hl. unfold write_at, zlen in *.
  rewrite !length_app, length_take, length_drop. lia.
Qed.

Lemma grows_patch_jump pos target c : grows c (patch_jump_to pos target c).
Proof.
  unfold patch_jump_to. case_if; [done|]. to_prop. split; [done| |exists []; by rewrite app_nil_r].
  unfold here, code_of. cbn.
  assert (zlen (put_u32 (i32 (target - (pos + 4)))) = 4) as Hl by done.
  rewrite here_write_at; [done|lia|]. rewrite Hl. unfold here, code_of in *. lia.
Qed.

Lemma grows_patch_here pos c : grows c (patch_here pos c).
Proof. apply grows_patch_jump. Qed.

Lemma grows_reserve c : grows c (pool_reserve realloc_ok c).1.
Proof.
  apply grows_same; unfold pool_reserve; by repeat case_if.
Qed.

Lemma grows_push k refs c : grows c (pool_push k refs c).1.
Proof.
  unfold pool_push. cbn [fst]. case_if; (split; [done|unfold here, code_of; cbn; lia|]); by exists [k].
Qed.

Lemma grows_add_str s c : grows c (pool_add_str realloc_ok s c).1.
Proof.
  unfold pool_add_str. case_if; [done|]. pose proof (grows_reserve c) as Hr.
  destruct (pool_reserve realloc_ok c) as [c1 ok]. cbn [fst] in Hr. case_if; [done|].
  destruct (pool_find _ _ _); [done|].
  pose proof (grows_push (PoolString (if realloc_ok (zlen (cstr (default [] s)) + 1)
    then cstr (default [] s) else []) (str_hash (default [] s))) (p_node_refs (c_p c1)) c1) as Hp.
  destruct (pool_push _ _ _) as [c2 idx]. cbn [fst] in *.
  etransitivity; [exact Hr|]. etransitivity; [exact Hp|]. case_if; [done|by apply grows_same].
Qed.

Lemma grows_add_f64 bits c : grows c (pool_add_f64 realloc_ok bits c).1.
Proof.
  unfold pool_add_f64. case_if; [done|]. pose proof (grows_reserve c) as Hr.
  destruct (pool_reserve realloc_ok c) as [c1 ok]. cbn [fst] in Hr. case_if; [done|].
  destruct (pool_find _ _ _); [done|]. etransitivity; [exact Hr|apply grows_push].
Qed.

Lemma grows_add_node k c : grows c (pool_add_node realloc_ok k c).1.
Proof.
  unfold pool_add_node. case_if; [done|]. pose proof (grows_reserve c) as Hr.
  destruct (pool_reserve realloc_ok c) as [c1 ok]. cbn [fst] in Hr. case_if; [done|].
  etransitivity; [exact Hr|apply grows_push].
Qed.

(** ** The emitter's tracker does not see the pool and the stack depth *)

Lemma tracked_view acc c c' : view c' = view c -> tracked acc c -> tracked acc c'.
Proof.
  unfold view. intros E [H1 H2 H3 H4]. injection E as E1 E2 E3 E4.
  split; [done|congruence|lia|]. unfold here in *. rewrite E1, E2. done.
Qed.

Lemma view_update d c : view (update_stack d c) = view c.
Proof. done. Qed.

Lemma view_reserve c : view (pool_reserve realloc_ok c).1 = view c.
Proof. unfold pool_reserve. by repeat case_if. Qed.

Lemma view_push k refs c : view (pool_push k refs c).1 = view c.
Proof. unfold pool_push. cbn [fst]. by case_if. Qed.

Lemma view_add_str s c : view (pool_add_str realloc_ok s c).1 = view c.
Proof.
  unfold pool_add_str. case_if; [done|]. pose proof (view_reserve c) as Hr.
  destruct (pool_reserve realloc_ok c) as [c1 ok]. cbn [fst] in Hr. case_if; [done|].
  destruct (pool_find _ _ _); [done|].
  pose proof (view_push (PoolString (if realloc_ok (zlen (cstr (default [] s)) + 1)
    then cstr (default [] s) else []) (str_hash (default [] s))) (p_node_refs (c_p c1)) c1) as Hp.
  destruct (pool_push _ _ _) as [c2 idx]. cbn [fst] in *. rewrite <- Hr, <- Hp. by case_if.
Qed.

Lemma view_add_f64 bits c : view (pool_add_f64 realloc_ok bits c).1 = view c.
Proof.
  unfold pool_add_f64. case_if; [done|]. pose proof (view_reserve c) as Hr.
  destruct (pool_reserve realloc_ok c) as [c1 ok]. cbn [fst] in Hr. case_if; [done|].
  destruct (pool_find _ _ _); [done|]. by rewrite view_push.
Qed.

(** ** Emitting whole instructions *)

(** An instruction no later one is fused into. *)
Definition plain (i : instr) : Prop := i_op i <> BC_LOAD_PROP.

Definition top_plain (acc : list instr) : Prop :=
  match acc with i :: _ => plain i | [] => True end.

(** From [c] to [c'] lie the instructions [l]. *)
Definition emits (l : list instr) (c c' : BCComp) : Prop :=
  grows c c' /\
  (c_ok c' = true -> here c' < 2 ^ 31 ->
   Forall plain l /\
   forall acc, tracked acc c -> top_plain acc -> tracked (rev l ++ acc) c').

Lemma emits_grows l c c' : emits l c c' -> grows c c'.
Proof. by intros [? _]. Qed.

Lemma top_plain_rev l acc : Forall plain l -> top_plain acc -> top_plain (rev l ++ acc).
Proof.
  intros Hl Ha. destruct (rev l) as [|i r] eqn:E; [done|]. cbn.
  apply Forall_rev in Hl. rewrite E in Hl. by apply Forall_inv in Hl.
Qed.

Lemma emits_app l1 l2 c1 c2 c3 : emits l1 c1 c2 -> emits l2 c2 c3 -> emits (l1 ++ l2) c1 c3.
Proof.
  intros [G1 H1] [G2 H2]. split; [by etransitivity|]. intros Hok Hh.
  destruct (H2 Hok Hh) as [F2 T2].
  destruct H1 as [F1 T1]; [by apply (gr_ok _ _ G2)|pose proof (gr_here _ _ G2); lia|].
  split; [by apply Forall_app|]. intros acc T Ha. rewrite rev_app_distr, <- app_assoc.
  apply T2; [by apply T1|by apply top_plain_rev].
Qed.

Lemma emits_nil c c' : grows c c' -> view c' = view c -> emits [] c c'.
Proof. intros G E. split; [done|]. intros _ _. split; [done|]. intros. by eapply tracked_view. Qed.

Lemma emits_update l d c c' : emits l c c' -> emits l c (update_stack d c').
Proof.
  intros H. rewrite <- (app_nil_r l). eapply emits_app; [exact H|].
  apply emits_nil; [apply grows_update|apply view_update].
Qed.

Lemma grows_emit_instr i c : grows c (emit_instr realloc_ok i c).
Proof.
  unfold emit_instr.
  destruct (i_args i) as [|a [|b [|d [|e l]]]]; try apply grows_emit; try case_if;
    repeat (first [apply grows_emit16|apply grows_emit32|apply grows_emit
      |etransitivity; [|apply grows_emit16]|etransitivity; [|apply grows_emit32]
      |etransitivity; [|apply grows_emit]]).
Qed.

Lemma emits_instr i c :
  (c_ok (emit_instr realloc_ok i c) = true -> source_ok i) -> plain i ->
  emits [i] c (emit_instr realloc_ok i c).
Proof.
  intros Hi Hp. split; [apply grows_emit_instr|]. intros Hok _. split; [by repeat constructor|].
  intros acc T Ha. destruct (emit_instr_tracked realloc_ok acc i c T (Hi Hok) Hok) as [_ T'].
  cbn [rev app]. replace (fuse_step acc i) with (i :: acc) in T'; [done|].
  destruct acc as [|[op args] acc]; [done|]. cbn in *. unfold plain in Ha. cbn in Ha. by destruct op.
Qed.

(** An instruction without operands. *)
Lemma emits_op op c :
  bc_info_operands op = 0 -> op <> BC_LOAD_PROP_ADD -> emits [Instr op []] c (emit_op op c).
Proof.
  intros Hl Hop. apply (emits_instr (Instr op [])).
  - intros _. split; [|done]. unfold instr_ok. cbn. by rewrite <- info_layout.
  - unfold plain. cbn. by intros ->.
Qed.

(** A 16-bit operand; [emit16] fails when it does not fit. *)
Lemma emits_op16 op a c :
  bc_info_operands op = 1 ->
  emits [Instr op [a]] c (emit16 realloc_ok a (emit_op op c)).
Proof.
  intros Hl. assert (op <> BC_LOAD_PROP_ADD) as Hop by (by intros ->).
  assert (emit_instr realloc_ok (Instr op [a]) c = emit16 realloc_ok a (emit_op op c)) as E
    by (unfold emit_instr; cbn [i_op i_args]; by rewrite Hl).
  rewrite <- E. apply emits_instr; [|unfold plain; cbn; by intros ->].
  intros Hok. rewrite E in Hok. destruct (emit16_view realloc_ok a (emit_op op c) Hok) as (_ & Ha & _).
  split; [|done]. unfold instr_ok. cbn. rewrite <- info_layout by done. left. by split.
Qed.

Lemma emits_op32 op a c :
  bc_info_operands op = 2 -> - 2 ^ 31 <= a < 2 ^ 31 ->
  emits [Instr op [a]] c (emit32 realloc_ok a (emit_op op c)).
Proof.
  intros Hl Ha. assert (op <> BC_LOAD_PROP_ADD) as Hop by (by intros ->).
  assert (emit_instr realloc_ok (Instr op [a]) c = emit32 realloc_ok a (emit_op op c)) as E
    by (unfold emit_instr; cbn [i_op i_args]; by rewrite Hl).
  rewrite <- E. apply emits_instr; [|unfold plain; cbn; by intros ->].
  intros _. split; [|done]. unfold instr_ok. cbn. rewrite <- info_layout by done. right. by split.
Qed.

Lemma emits_jump op c :
  bc_info_operands op = 2 -> emits [Instr op [0]] c (emit_jump realloc_ok (op_byte op) c).1.
Proof.
  intros H. rewrite emit_jump_instr by done.
  apply emits_instr; [intros _; by apply jump_source_ok|unfold plain; cbn; by intros ->].
Qed.

(** ** Forward jumps *)

Lemma patch_here_ok pos c : c_ok (patch_here pos c) = c_ok c.
Proof. unfold patch_here, patch_jump_to. by case_if. Qed.

Lemma tracked_here acc c : tracked acc c -> here c = zlen (encode (rev acc)).
Proof. intros [_ E _ _]. unfold here. by rewrite E. Qed.

Lemma zlen_encode_app l1 l2 : zlen (encode (l1 ++ l2)) = zlen (encode l1) + zlen (encode l2).
Proof. by rewrite encode_app, zlen_app. Qed.

(** A jump has the same length whatever its target. *)
Lemma zlen_encode_jump op v l :
  bc_info_operands op = 2 -> zlen (encode (Instr op [v] :: l)) = 5 + zlen (encode l).
Proof.
  intros H. rewrite encode_cons, encode_jump, zlen_app, zlen_cons by done. reflexivity.
Qed.

Lemma jump_position op c acc :
  bc_info_operands op = 2 -> tracked acc c ->
  c_ok (emit_jump realloc_ok (op_byte op) c).1 = true ->
  (emit_jump realloc_ok (op_byte op) c).2 = zlen (encode (rev acc)) + 1.
Proof.
  intros H T Hok. apply emit_jump_pos; [done..|]. by rewrite <- emit_jump_instr.
Qed.

Lemma emits_forward op l c c2 :
  bc_info_operands op = 2 -> emits l (emit_jump realloc_ok (op_byte op) c).1 c2 ->
  emits (Instr op [zlen (encode l)] :: l) c
        (patch_here (emit_jump realloc_ok (op_byte op) c).2 c2).
Proof.
  intros Hop H. pose proof (emits_app [_] l _ _ _ (emits_jump op c Hop) H) as [G HT].
  split; [etransitivity; [exact G|apply grows_patch_here]|]. rewrite patch_here_ok.
  intros Hok Hh. pose proof (gr_here _ _ (grows_patch_here (emit_jump realloc_ok (op_byte op) c).2 c2)).
  destruct (HT Hok ltac:(lia)) as [F T]. split; [inversion F; by constructor|].
  intros acc Ta Ha. specialize (T acc Ta Ha). cbn [rev app] in *. rewrite <- app_assoc in *.
  cbn [app] in *. rewrite (jump_position op c acc Hop Ta)
    by (apply (gr_ok _ _ (emits_grows _ _ _ H)); done).
  pose proof (tracked_here _ _ T) as Eh.
  rewrite rev_app_distr in Eh. cbn [rev] in Eh. rewrite rev_involutive, !zlen_encode_app in Eh.
  pose proof (zlen_nonneg (encode (rev acc))). pose proof (zlen_nonneg (encode [Instr op [0]])).
  destruct (patch_here_tracked (rev l) op acc c2 T Hok Hop) as [_ T'];
    rewrite rev_involutive in *; [lia|done].
Qed.

(** The two jumps of a conditional. *)
Lemma emits_branches op lt le c c2 c3 :
  bc_info_operands op = 2 ->
  let j1 := emit_jump realloc_ok (op_byte op) c in
  let j2 := emit_jump realloc_ok (op_byte BC_JUMP) c2 in
  emits lt j1.1 c2 -> emits le (patch_here j1.2 j2.1) c3 ->
  emits (Instr op [zlen (encode lt) + 5] :: lt ++ Instr BC_JUMP [zlen (encode le)] :: le) c
        (patch_here j2.2 c3).
Proof.
  intros Hop j1 j2 Ht He.
  pose proof (emits_app lt [_] _ _ _ Ht (emits_jump BC_JUMP c2 eq_refl)) as Htj. fold j2 in Htj.
  pose proof (emits_forward op _ c j2.1 Hop Htj) as Hf. fold j1 in Hf.
  rewrite zlen_encode_app, zlen_encode_jump in Hf by done.
  change (zlen (encode [])) with 0 in Hf. rewrite Z.add_0_r in Hf.
  pose proof (emits_app _ le _ _ _ Hf He) as [G HT].
  split; [etransitivity; [exact G|apply grows_patch_here]|]. rewrite patch_here_ok.
  intros Hok Hh. pose proof (gr_here _ _ (grows_patch_here j2.2 c3)) as Hm.
  destruct (HT Hok ltac:(lia)) as [F T]. split.
  { cbn [app] in F. rewrite <- app_assoc in F. cbn [app] in F. inversion F as [|? ? ? F']; subst.
    apply Forall_app in F' as [? F']. inversion F'; subst.
    constructor; [done|]. apply Forall_app. split; [done|]. by constructor. }
  intros acc Ta Ha. specialize (T acc Ta Ha).
  assert (c_ok j2.1 = true) as Hok2.
  { pose proof (gr_ok _ _ (emits_grows _ _ _ He) Hok) as H. by rewrite patch_here_ok in H. }
  assert (here j2.1 < 2 ^ 31) as Hh2.
  { pose proof (gr_here _ _ (emits_grows _ _ _ He)).
    pose proof (gr_here _ _ (grows_patch_here j1.2 j2.1)). lia. }
  pose proof (grows_emit_jump (op_byte BC_JUMP) c2) as G2. fold j2 in G2.
  pose proof (emits_app [_] lt _ _ _ (emits_jump op c Hop) Ht) as [_ Hc2].
  destruct Hc2 as [_ T2]; [by apply (gr_ok _ _ G2)|pose proof (gr_here _ _ G2); lia|].
  specialize (T2 acc Ta Ha). unfold j2. rewrite (jump_position BC_JUMP c2 _ eq_refl T2 Hok2).
  set (n := zlen (encode lt) + 5) in *.
  assert (rev ((Instr op [n] :: lt ++ [Instr BC_JUMP [0]]) ++ le) ++ acc
          = rev le ++ Instr BC_JUMP [0] :: rev lt ++ Instr op [n] :: acc) as E.
  { rewrite rev_app_distr. cbn [rev]. rewrite rev_app_distr. cbn [rev].
    by rewrite <- !app_assoc. }
  rewrite E in T.
  change ([Instr op [0]] ++ lt) with (Instr op [0] :: lt).
  assert (zlen (encode (rev (rev (Instr op [0] :: lt) ++ acc)))
          = zlen (encode (rev (rev lt ++ Instr op [n] :: acc)))) as ->.
  { cbn [rev]. rewrite <- app_assoc. cbn [app]. rewrite !rev_app_distr. cbn [rev].
    rewrite !rev_involutive, <- !app_assoc, !zlen_encode_app. cbn [app].
    by rewrite !zlen_encode_jump. }
  pose proof (tracked_here _ _ T) as Eh. rewrite rev_app_distr in Eh. cbn [rev] in Eh.
  rewrite rev_involutive, !zlen_encode_app in Eh.
  match type of Eh with _ = ?a + ?b + _ =>
    assert (0 <= a) by apply zlen_nonneg; assert (0 <= b) by apply zlen_nonneg end.
  destruct (patch_here_tracked (rev le) BC_JUMP (rev lt ++ Instr op [n] :: acc) c3 T Hok eq_refl)
    as [_ T']; rewrite rev_involutive in *; [lia|].
  cbn [rev]. rewrite rev_app_distr. cbn [rev]. by rewrite <- !app_assoc.
Qed.

End Emits.
