(* ===== verification/Jumps.v ===== *)
(** Jumps whose target is not known yet: patching an offset in the middle of
    emitted code, and the instruction lists with pending jumps to the ends and
    the continuations of the enclosing loops. *)

From stdpp Require Import base list strings.
From Stdlib Require Import ZArith Lia.
From S2P Require Import Prelude.
From S2P Require Import BcProgram.
From S2P Require Import BcEmit.
From S2P Require Import VmCode.
From S2P Require Import Emits.

(** ** Patching *)

(** Instructions whose last operand is a jump's offset. *)
Definition ends_offset (op : BCOpcode) (args : list Z) : Prop :=
  (args = [] /\ bc_info_operands op = 2) \/
  (op = BC_JUMP_IF_LOCAL_LT_IMM /\ exists a b, args = [a; b]).

Lemma encode_offset op args :
  ends_offset op args ->
  exists hd, forall v, encode_instr (Instr op (args ++ [v])) = hd ++ put_u32 v.
Proof.
  intros [[-> H]|[-> (a & b & ->)]].
  - exists [op_byte op]. intros v. cbn [app]. by rewrite encode_jump.
  - exists (op_byte BC_JUMP_IF_LOCAL_LT_IMM :: le_bytes 2 a ++ le_bytes 4 b). intros v.
    unfold encode_instr. cbn [app i_op i_args encode_args]. by rewrite put_u32_le, <- !app_assoc.
Qed.

Lemma offset_ok op args v w :
  ends_offset op args -> instr_ok (Instr op (args ++ [v])) -> - 2 ^ 31 <= w < 2 ^ 31 ->
  instr_ok (Instr op (args ++ [w])).
Proof.
  intros [[-> H]|[-> (a & b & ->)]] Hi Hw; cbn [app] in *; [by apply jump_source_ok|].
  unfold instr_ok in *. cbn [i_op i_args args_ok] in *. tauto.
Qed.

Lemma zlen_encode_offset op args v w :
  ends_offset op args ->
  zlen (encode_instr (Instr op (args ++ [v]))) = zlen (encode_instr (Instr op (args ++ [w]))).
Proof. intros H. destruct (encode_offset op args H) as [hd E]. rewrite !E, !zlen_app. done. Qed.

Lemma patch_jump_ok pos target c : c_ok (patch_jump_to pos target c) = c_ok c.
Proof. unfold patch_jump_to. by case_if. Qed.

Lemma pool_of_patch_jump pos target c : pool_of (patch_jump_to pos target c) = pool_of c.
Proof. unfold patch_jump_to. by case_if. Qed.

Lemma here_patch_jump pos target c : here (patch_jump_to pos target c) = here c.
Proof.
  unfold patch_jump_to. case_if; [done|]. to_prop. unfold here, code_of in *. cbn.
  apply here_write_at; [lia|]. rewrite zlen_put_u32. lia.
Qed.

(** Writing the offset of one instruction, of which the end is [stop]. *)
Lemma patch_tracked l1 op args l2 acc c stop target :
  ends_offset op args -> c_ok c = true ->
  tracked (rev (l1 ++ Instr op (args ++ [0]) :: l2) ++ acc) c ->
  stop = zlen (encode (rev acc)) + zlen (encode l1) + zlen (encode_instr (Instr op (args ++ [0]))) ->
  - 2 ^ 31 <= target - stop < 2 ^ 31 ->
  tracked (rev (l1 ++ Instr op (args ++ [target - stop]) :: l2) ++ acc)
          (patch_jump_to (stop - 4) target c).
Proof.
  intros Hop Hok T Hstop Hrel. destruct (encode_offset op args Hop) as [hd E].
  assert (forall v, encode (rev (rev (l1 ++ Instr op (args ++ [v]) :: l2) ++ acc))
    = (encode (rev acc) ++ encode l1 ++ hd) ++ put_u32 v ++ encode l2) as Henc.
  { intros v. rewrite rev_app_distr, rev_involutive, !encode_app, encode_cons, E, <- !app_assoc. done. }
  destruct T as [Hall Hcode Hd Hst]. rewrite Henc in Hcode.
  rewrite E, zlen_app, zlen_put_u32 in Hstop.
  pose proof (zlen_nonneg (encode (rev acc))). pose proof (zlen_nonneg (encode l1)).
  pose proof (zlen_nonneg hd). pose proof (zlen_nonneg (encode l2)).
  assert (here c = stop + zlen (encode l2)) as Eh.
  { unfold here. rewrite Hcode, !zlen_app, zlen_put_u32. lia. }
  assert (patch_jump_to (stop - 4) target c = with_p (set_code
    ((encode (rev acc) ++ encode l1 ++ hd) ++ put_u32 (target - stop) ++ encode l2)
    (p_code_cap (c_p c)) (c_p c)) c) as ->.
  { unfold patch_jump_to. rewrite Hok. cbn [negb orb].
    destruct (Z.ltb_spec (stop - 4) 0), (Z.gtb_spec (stop - 4 + 4) (here c)); try lia. cbn [orb].
    do 2 f_equal. rewrite put_u32_i32. replace (target - (stop - 4 + 4)) with (target - stop) by lia.
    rewrite Hcode. apply write_at_mid; [|done]. rewrite !zlen_app. lia. }
  split.
  - apply Forall_app in Hall as [Hall Hacc]. apply Forall_app. split; [|done].
    apply Forall_rev. apply Forall_rev in Hall. rewrite rev_involutive in Hall.
    apply Forall_app in Hall as [? Hb]. inversion Hb; subst. apply Forall_app. split; [done|].
    constructor; [|done]. by eapply offset_ok.
  - rewrite Henc. done.
  - done.
  - cbn [with_p c_cur_inst_start]. rewrite Hst. unfold here. rewrite Hcode.
    change (code_of (with_p (set_code ?l _ _) _)) with l. rewrite !zlen_app, !zlen_put_u32.
    rewrite !rev_app_distr. cbn [rev]. destruct (rev l2) as [|i r] eqn:Er; cbn [app].
    + by rewrite (zlen_encode_offset op args 0 (target - stop)).
    + done.
Qed.

(** ** Pending jumps *)

(** An instruction, or the jump of a [break] ([cont] false) or [continue] to
    the [k]-th enclosing loop. *)
Inductive hinstr :=
  | HI (i : instr)
  | HJ (cont : bool) (k : nat).

Definition raw (h : hinstr) : instr :=
  match h with HI i => i | HJ _ _ => Instr BC_JUMP [0] end.
Abbreviation raws := (map raw).

Definition hsize (l : list hinstr) : Z := zlen (encode (raws l)).

(** The positions of the offsets of the jumps of one kind. *)
Fixpoint holes (pos : Z) (l : list hinstr) (cont : bool) (k : nat) : list Z :=
  match l with
  | [] => []
  | h :: l' =>
      match h with
      | HJ c j => if decide (c = cont /\ j = k) then [pos + 1] else []
      | HI _ => []
      end ++ holes (pos + zlen (encode_instr (raw h))) l' cont k
  end.

(** The instructions, when the jumps' targets are known. *)
Fixpoint resolve (env : bool -> nat -> Z) (pos : Z) (l : list hinstr) : list instr :=
  match l with
  | [] => []
  | h :: l' =>
      match h with
      | HI i => i
      | HJ c k => Instr BC_JUMP [env c k - (pos + 5)]
      end :: resolve env (pos + zlen (encode_instr (raw h))) l'
  end.

(** The jumps of one kind, filled in. *)
Fixpoint fill (cont : bool) (k : nat) (target pos : Z) (l : list hinstr) : list hinstr :=
  match l with
  | [] => []
  | h :: l' =>
      match h with
      | HJ c j => if decide (c = cont /\ j = k) then HI (Instr BC_JUMP [target - (pos + 5)]) else h
      | HI _ => h
      end :: fill cont k target (pos + zlen (encode_instr (raw h))) l'
  end.

(** Outside the loop its jumps are filled in, those of the others are one
    level up. *)
Definition lower (l : list hinstr) : list hinstr :=
  map (fun h => match h with HJ c (S k) => HJ c k | _ => h end) l.

Definition close (brk cont pos : Z) (l : list hinstr) : list hinstr :=
  lower (fill true 0 cont pos (fill false 0 brk pos l)).

Lemma hsize_app l1 l2 : hsize (l1 ++ l2) = hsize l1 + hsize l2.
Proof. unfold hsize. rewrite map_app. apply zlen_encode_app. Qed.

Lemma hsize_cons h l : hsize (h :: l) = zlen (encode_instr (raw h)) + hsize l.
Proof. unfold hsize. cbn [map]. by rewrite encode_cons, zlen_app. Qed.

Lemma hsize_nonneg l : 0 <= hsize l.
Proof. apply zlen_nonneg. Qed.

Lemma hsize_HI l : hsize (map HI l) = zlen (encode l).
Proof. unfold hsize. rewrite map_map. cbn [raw]. by rewrite map_id. Qed.

Lemma hsize_jump v : hsize (map HI [Instr BC_JUMP [v]]) = 5.
Proof. unfold hsize. cbn [map raw]. rewrite encode_singleton, encode_jump by done. done. Qed.

Lemma raws_HI l : raws (map HI l) = l.
Proof. rewrite map_map. apply map_id. Qed.

Lemma zlen_jump v : zlen (encode_instr (Instr BC_JUMP [v])) = 5.
Proof. by rewrite encode_jump. Qed.

Lemma resolve_app env pos l1 l2 :
  resolve env pos (l1 ++ l2) = resolve env pos l1 ++ resolve env (pos + hsize l1) l2.
Proof.
  revert pos. induction l1 as [|h l1 IH]; intros pos; cbn [resolve app].
  - by rewrite Z.add_0_r.
  - rewrite IH, hsize_cons. by rewrite Z.add_assoc.
Qed.

Lemma resolve_HI env pos l : resolve env pos (map HI l) = l.
Proof. revert pos. induction l as [|i l IH]; intros pos; cbn; [done|]. by rewrite IH. Qed.

Lemma zlen_resolve env pos l : zlen (encode (resolve env pos l)) = hsize l.
Proof.
  revert pos. induction l as [|h l IH]; intros pos; [done|]. cbn [resolve].
  rewrite encode_cons, zlen_app, IH, hsize_cons. f_equal. destruct h; cbn [raw]; [done|].
  by rewrite !zlen_jump.
Qed.

Lemma holes_app pos l1 l2 c k :
  holes pos (l1 ++ l2) c k = holes pos l1 c k ++ holes (pos + hsize l1) l2 c k.
Proof.
  revert pos. induction l1 as [|h l1 IH]; intros pos; cbn [holes app].
  - by rewrite Z.add_0_r.
  - by rewrite IH, hsize_cons, app_assoc, Z.add_assoc.
Qed.

Lemma holes_HI pos l c k : holes pos (map HI l) c k = [].
Proof. revert pos. induction l as [|i l IH]; intros pos; cbn; [done|]. apply IH. Qed.

Lemma fill_sizes c k t pos l : map (fun h => zlen (encode_instr (raw h))) (fill c k t pos l)
  = map (fun h => zlen (encode_instr (raw h))) l.
Proof.
  revert pos. induction l as [|h l IH]; intros pos; [done|]. cbn [fill map]. rewrite IH. f_equal.
  destruct h as [i|c' j]; [done|]. case_decide; [|done]. cbn [raw]. by rewrite !zlen_jump.
Qed.

Lemma raws_lower l : raws (lower l) = raws l.
Proof. unfold lower. rewrite map_map. apply map_ext. by intros [|? []]. Qed.

(** ** Filling in *)

Lemma fill_head c k t pos h l :
  exists h', fill c k t pos (h :: l) = h' :: fill c k t (pos + zlen (encode_instr (raw h))) l /\
    zlen (encode_instr (raw h')) = zlen (encode_instr (raw h)).
Proof.
  eexists. split; [reflexivity|]. destruct h as [i|c' j]; [done|]. case_decide; [|done].
  cbn [raw]. by rewrite !zlen_jump.
Qed.

Lemma hsize_fill c k t pos l : hsize (fill c k t pos l) = hsize l.
Proof.
  revert pos. induction l as [|h l IH]; intros pos; [done|].
  destruct (fill_head c k t pos h l) as (h' & -> & E). by rewrite !hsize_cons, IH, E.
Qed.

Lemma hsize_lower l : hsize (lower l) = hsize l.
Proof. unfold hsize. by rewrite raws_lower. Qed.

Lemma hsize_close brk cont pos l : hsize (close brk cont pos l) = hsize l.
Proof. unfold close. by rewrite hsize_lower, !hsize_fill. Qed.

(** Filling in leaves the other jumps where they are. *)
Lemma holes_fill c k t c' k' pos l :
  (c', k') <> (c, k) -> holes pos (fill c k t pos l) c' k' = holes pos l c' k'.
Proof.
  intros Hne. revert pos. induction l as [|h l IH]; intros pos; [done|].
  cbn [fill holes]. destruct h as [i|c0 j]; cbn [raw]; [by rewrite IH|].
  case_decide as Hd; cbn [raw]; rewrite ?zlen_jump, IH; [|done].
  destruct Hd as [-> ->]. rewrite decide_False by (intros [-> ->]; done). done.
Qed.

Lemma holes_lower pos l c k :
  holes pos l c 0 = [] -> holes pos (lower l) c k = holes pos l c (S k).
Proof.
  revert pos. induction l as [|h l IH]; intros pos; [done|]. cbn [lower map holes].
  intros H. apply app_eq_nil in H as [H0 H].
  destruct h as [i|c0 [|j]]; cbn [raw] in *; rewrite ?zlen_jump in *.
  - by rewrite <- IH.
  - destruct (decide (c0 = c /\ 0%nat = 0%nat)); [done|]. rewrite <- (IH _ H).
    rewrite !decide_False by (intros [-> ?]; tauto || lia). done.
  - rewrite <- (IH _ H). f_equal.
    destruct (decide (c0 = c /\ j = k)) as [[-> ->]|Hn]; [by rewrite decide_True|].
    rewrite decide_False; [done|]. intros [-> E]. apply Hn. split; [done|lia].
Qed.

Lemma holes_filled c k t pos l : holes pos (fill c k t pos l) c k = [].
Proof.
  revert pos. induction l as [|h l IH]; intros pos; [done|]. cbn [fill holes].
  destruct h as [i|c0 j]; cbn [raw]; [apply IH|].
  case_decide; cbn [raw]; rewrite ?zlen_jump; [apply IH|]. rewrite decide_False by done. apply IH.
Qed.

Lemma holes_close brk cont pos l c k :
  holes pos (close brk cont pos l) c k = holes pos l c (S k).
Proof.
  unfold close. rewrite holes_lower.
  - rewrite !holes_fill by done. done.
  - destruct c; [apply holes_filled|]. rewrite holes_fill by done. apply holes_filled.
Qed.

(** The targets seen inside a loop. *)
Definition inner_env (brk cont : Z) (env : bool -> nat -> Z) (c : bool) (k : nat) : Z :=
  match k with O => if c then cont else brk | S k' => env c k' end.

Lemma resolve_close env brk cont pos l :
  resolve env pos (close brk cont pos l) = resolve (inner_env brk cont env) pos l.
Proof.
  unfold close. revert pos. induction l as [|h l IH]; intros pos; [done|].
  cbn [fill lower map resolve]. destruct h as [i|c [|k]]; cbn [raw].
  - f_equal. apply IH.
  - destruct c; cbn; rewrite ?zlen_jump; f_equal; rewrite <- IH; by rewrite ?zlen_jump.
  - rewrite decide_False by (intros [_ ?]; lia). cbn [raw].
    rewrite decide_False by (intros [_ ?]; lia). cbn. f_equal. apply IH.
Qed.

(** The pending jumps lead out of at most [n] loops. *)
Definition within (n : nat) (h : hinstr) : Prop :=
  match h with HI _ => True | HJ _ k => (k < n)%nat end.

Lemma within_HI n l : Forall (within n) (map HI l).
Proof. by induction l; constructor. Qed.

Lemma within_close brk cont pos n l : Forall (within (S n)) l -> Forall (within n) (close brk cont pos l).
Proof.
  intros H. unfold close. revert pos. induction H as [|h l Hh _ IH]; intros pos; [constructor|].
  cbn [fill lower map]. destruct h as [i|c [|k]]; cbn [raw].
  - constructor; [done|apply IH].
  - destruct c; cbn; constructor; try done; rewrite ?zlen_jump; specialize (IH (pos + 5)); exact IH.
  - rewrite decide_False by (intros [_ ?]; lia). cbn [raw].
    rewrite decide_False by (intros [_ ?]; lia). constructor; [cbn in *; lia|apply IH].
Qed.

(** Outside every loop nothing is pending. *)
Lemma resolve_closed env pos l : Forall (within 0) l -> resolve env pos l = raws l.
Proof.
  intros H. revert pos. induction H as [|h l Hh _ IH]; intros pos; [done|]. cbn [resolve map].
  destruct h as [i|c k]; [by rewrite IH|cbn in Hh; lia].
Qed.

(** Patching the recorded positions fills in the jumps. *)
Lemma patch_holes c k target l : forall l1 l2 acc cc pos,
  c_ok cc = true -> tracked (rev (l1 ++ raws l ++ l2) ++ acc) cc ->
  pos = zlen (encode (rev acc)) + zlen (encode l1) -> 0 <= target < 2 ^ 31 ->
  pos + hsize l < 2 ^ 31 ->
  let cc' := foldl (fun c p => patch_jump_to p target c) cc (holes pos l c k) in
  c_ok cc' = true /\ pool_of cc' = pool_of cc /\ here cc' = here cc /\
  tracked (rev (l1 ++ raws (fill c k target pos l) ++ l2) ++ acc) cc'.
Proof.
  induction l as [|h l IH]; intros l1 l2 acc cc pos Hok T Hpos Ht Hs; [done|].
  cbn [holes fill map]. rewrite hsize_cons in Hs. pose proof (hsize_nonneg l) as Hn.
  pose proof (zlen_nonneg (encode (rev acc))). pose proof (zlen_nonneg (encode l1)).
  pose proof (zlen_nonneg (encode_instr (raw h))).
  assert (forall h' cc1, c_ok cc1 = true -> pool_of cc1 = pool_of cc -> here cc1 = here cc ->
    zlen (encode_instr (raw h')) = zlen (encode_instr (raw h)) ->
    tracked (rev (l1 ++ (raw h' :: raws l) ++ l2) ++ acc) cc1 ->
    let cc' := foldl (fun c p => patch_jump_to p target c) cc1
                 (holes (pos + zlen (encode_instr (raw h))) l c k) in
    c_ok cc' = true /\ pool_of cc' = pool_of cc /\ here cc' = here cc /\
    tracked (rev (l1 ++ (raw h' :: raws (fill c k target (pos + zlen (encode_instr (raw h))) l)) ++ l2)
             ++ acc) cc') as Hrest.
  { intros h' cc1 Hok1 Hp1 Hh1 Hsz T1.
    destruct (IH (l1 ++ [raw h']) l2 acc cc1 (pos + zlen (encode_instr (raw h)))) as (R1 & R2 & R3 & R4);
      try done; [| |lia|].
    - by rewrite <- app_assoc.
    - rewrite zlen_encode_app, encode_singleton, Hsz. lia.
    - rewrite <- app_assoc in R4. cbv zeta in *. split_and!; [done|congruence|congruence|done]. }
  destruct h as [i|c0 j]; cbn [raw app].
  { apply (Hrest (HI i)); done. }
  destruct (decide (c0 = c /\ j = k)); cbn [app foldl]; [|by apply (Hrest (HJ c0 j))].
  cbn [raw] in Hrest, Hs. rewrite zlen_jump in *.
  pose proof (patch_tracked l1 BC_JUMP [] (raws l ++ l2) acc cc (pos + 5) target
    (or_introl (conj eq_refl eq_refl)) Hok T ltac:(cbn [app]; rewrite zlen_jump; lia) ltac:(lia)) as T1.
  replace (pos + 5 - 4) with (pos + 1) in T1 by lia. cbn [app] in T1.
  apply (Hrest (HI (Instr BC_JUMP [target - (pos + 5)]))).
  - by rewrite patch_jump_ok.
  - apply pool_of_patch_jump.
  - rewrite (tracked_here _ _ T), (tracked_here _ _ T1).
    rewrite !rev_app_distr, !rev_involutive. cbn [map raw app].
    by rewrite !zlen_encode_app, !encode_cons, !zlen_app, !zlen_jump.
  - cbn [raw]. apply zlen_jump.
  - exact T1.
Qed.

Lemma plain_fill c k t pos l : Forall plain (raws l) -> Forall plain (raws (fill c k t pos l)).
Proof.
  revert pos. induction l as [|h l IH]; intros pos H; [done|]. cbn [map fill] in *.
  inversion H; subst. constructor; [|auto]. destruct h as [i|c0 j]; [done|]. by case_decide.
Qed.

Lemma plain_close brk cont pos l : Forall plain (raws l) -> Forall plain (raws (close brk cont pos l)).
Proof. intros. unfold close. rewrite raws_lower. by apply plain_fill, plain_fill. Qed.

(** Both kinds of a loop's jumps. *)
Lemma patch_close brk cont l l1 l2 acc cc pos :
  c_ok cc = true -> tracked (rev (l1 ++ raws l ++ l2) ++ acc) cc ->
  pos = zlen (encode (rev acc)) + zlen (encode l1) -> 0 <= brk < 2 ^ 31 -> 0 <= cont < 2 ^ 31 ->
  pos + hsize l < 2 ^ 31 ->
  let patch target := foldl (fun c p => patch_jump_to p target c) in
  let cc' := patch cont (patch brk cc (holes pos l false 0)) (holes pos l true 0) in
  c_ok cc' = true /\ pool_of cc' = pool_of cc /\ here cc' = here cc /\
  tracked (rev (l1 ++ raws (close brk cont pos l) ++ l2) ++ acc) cc'.
Proof.
  intros Hok T Hpos Hb Hc Hs patch.
  destruct (patch_holes false 0 brk l l1 l2 acc cc pos Hok T Hpos Hb Hs) as (Ok1 & P1 & H1 & T1).
  destruct (patch_holes true 0 cont (fill false 0 brk pos l) l1 l2 acc _ pos Ok1 T1 Hpos Hc
    ltac:(by rewrite hsize_fill)) as (Ok2 & P2 & H2 & T2).
  rewrite holes_fill in Ok2, P2, H2, T2 by done. unfold patch, close. rewrite raws_lower.
  split_and!; [done|congruence|congruence|done].
Qed.
