(* ===== verification/Compile.v ===== *)
(** The expression compiler, [cexpr] of
    [src/src/engine/lr_bytecode_compile.c], on top of the emitter: literals,
    identifiers, operators, short-circuit and conditional expressions,
    assignments and increments of identifiers, sequences, and the factoring of
    [a*b + a*c].

    Members, calls, object and array literals, templates, functions and the
    statements other than the ones below are not modelled.  A node the
    compiler delegates to the tree walker is [AST_DELEGATED]. *)

From stdpp Require Import base list strings.
From Stdlib Require Import ZArith Lia SpecFloat.
From S2P Require Import Prelude.
From S2P Require Import BcProgram.
From S2P Require Import BcEmit.
From S2P Require Import F64.
From S2P Require Import NumText.
From S2P Require Import JsOps.
From S2P Require Import Vm.

(** ** Syntax trees *)

Inductive literal :=
  | LNumber (bits : Z)          (* TOK_NUMBER *)
  | LString (s : option (list Z))
  | LBool (b : bool)
  | LNull
  | LUndefined
  | LOther.                     (* BigInt, RegExp *)

Inductive ASTNode :=
  | AST_NULL                    (* a NULL child *)
  | AST_LITERAL (l : literal)
  | AST_IDENTIFIER (name : option (list Z))
  | AST_BINARY (op : string) (left right : ASTNode)
  | AST_UNARY (op : option string) (prefix : bool) (arg : ASTNode)
  | AST_CONDITIONAL (cond consequent alternate : ASTNode)
  | AST_ASSIGN (op : option string) (target value : ASTNode)
  | AST_SEQUENCE (exprs : list ASTNode)
  | AST_DELEGATED (id : Z).

(** Induction with the hypothesis for every expression of a sequence. *)
Fixpoint node_ind (P : ASTNode -> Prop)
    (Hnull : P AST_NULL) (Hlit : forall l, P (AST_LITERAL l))
    (Hid : forall name, P (AST_IDENTIFIER name))
    (Hbin : forall op l r, P l -> P r -> P (AST_BINARY op l r))
    (Hun : forall op prefix arg, P arg -> P (AST_UNARY op prefix arg))
    (Hcond : forall c t e, P c -> P t -> P e -> P (AST_CONDITIONAL c t e))
    (Hass : forall op t v, P t -> P v -> P (AST_ASSIGN op t v))
    (Hseq : forall es, Forall P es -> P (AST_SEQUENCE es))
    (Hdel : forall id, P (AST_DELEGATED id)) (n : ASTNode) {struct n} : P n :=
  let rec := node_ind P Hnull Hlit Hid Hbin Hun Hcond Hass Hseq Hdel in
  match n with
  | AST_NULL => Hnull
  | AST_LITERAL l => Hlit l
  | AST_IDENTIFIER name => Hid name
  | AST_BINARY op l r => Hbin op l r (rec l) (rec r)
  | AST_UNARY op prefix arg => Hun op prefix arg (rec arg)
  | AST_CONDITIONAL c t e => Hcond c t e (rec c) (rec t) (rec e)
  | AST_ASSIGN op t v => Hass op t v (rec t) (rec v)
  | AST_SEQUENCE es =>
      Hseq es ((fix all (l : list ASTNode) : Forall P l :=
                  match l with
                  | [] => Forall_nil_2 P
                  | e :: l' => Forall_cons_2 P e l' (rec e) (all l')
                  end) es)
  | AST_DELEGATED id => Hdel id
  end.

(** The same, with the hypothesis for the right operand of an assigned binary
    expression, which the fused assignment compiles on its own. *)
Lemma node_ind_right (P : ASTNode -> Prop) :
  P AST_NULL -> (forall l, P (AST_LITERAL l)) -> (forall name, P (AST_IDENTIFIER name)) ->
  (forall op l r, P l -> P r -> P (AST_BINARY op l r)) ->
  (forall op prefix arg, P arg -> P (AST_UNARY op prefix arg)) ->
  (forall c t e, P c -> P t -> P e -> P (AST_CONDITIONAL c t e)) ->
  (forall op t v, P t -> P v -> (forall vop l r, v = AST_BINARY vop l r -> P r) ->
     P (AST_ASSIGN op t v)) ->
  (forall es, Forall P es -> P (AST_SEQUENCE es)) ->
  (forall id, P (AST_DELEGATED id)) -> forall n, P n.
Proof.
  intros H1 H2 H3 H4 H5 H6 H7 H8 H9 n.
  enough (P n /\ forall vop l r, n = AST_BINARY vop l r -> P r) by tauto.
  induction n using node_ind; split; try done; auto.
  - destruct IHn1, IHn2. auto.
  - intros vop l r [= -> -> ->]. tauto.
  - apply H5. tauto.
  - apply H6; tauto.
  - apply H7; tauto.
  - apply H8. eapply Forall_impl; [eassumption|]. by intros ? [? _].
Qed.

(** The node type's number in the C enumeration, which one test compares with
    a token type's. *)
Definition ast_type (n : ASTNode) : Z :=
  match n with
  | AST_NULL => -1
  | AST_LITERAL _ => 33
  | AST_IDENTIFIER _ => 34
  | AST_BINARY _ _ _ => 37
  | AST_UNARY _ _ _ => 38
  | AST_CONDITIONAL _ _ _ => 39
  | AST_ASSIGN _ _ _ => 46
  | AST_SEQUENCE _ => 47
  | AST_DELEGATED _ => 56
  end.

Definition TOK_NUMBER : Z := 1.

Definition str_eqb (x y : string) : bool := String.eqb x y.

(** ** The compiler *)

(** The part of [BCComp] the emitter does not touch: the names of the slots, the
    number of open block scopes, and the switch that turns slots off. *)
Record scope_info := {
  local_names : list (list Z);
  local_scope_depth : Z;
  disable_local_slots : bool
}.

Section Compiler.

Context (realloc_ok : Z -> alloc_result) (cast_ub : f64 -> Z).
Context (info : scope_info).
(** The address of a node, which a delegation stores in the pool. *)
Context (node_addr : ASTNode -> Z).

Abbreviation emit_op op := (emit realloc_ok (op_byte op)).

(** The test every use of a slot repeats; the slot is cut to 16 bits. *)
Definition local_slot (name : list Z) : option Z :=
  if (local_scope_depth info =? 0) && negb (disable_local_slots info) then
    i ← find_name name (local_names info) 0; Some (u16 i)
  else None.

Definition emit_eval (n : ASTNode) (keep_value : bool) (c : BCComp) : BCComp :=
  if negb (c_ok c) then c
  else
    let '(c1, idx) := pool_add_node realloc_ok (node_addr n) c in
    emit16 realloc_ok idx
      (emit_op (if keep_value then BC_EVAL_NODE else BC_EVAL_NODE_POP) c1).

Definition emit_push_string (s : list Z) (c : BCComp) : BCComp :=
  let '(c1, idx) := pool_add_str realloc_ok (Some s) c in
  update_stack 1 (emit16 realloc_ok idx (emit_op BC_PUSH_STRING c1)).

(** An integer-valued literal within 32 bits; [-0] passes too. *)
Definition int_literal (d : f64) : bool :=
  f64_eqb d (f64_of_Z (cast_int32 cast_ub d)) && negb (isnan d) && negb (isinf d) &&
  f64_leb (f64_of_Z (- 2147483648)) d && f64_leb d (f64_of_Z 2147483647).

Definition emit_push_f64 (bits : Z) (c : BCComp) : BCComp :=
  let '(c1, idx) := pool_add_f64 realloc_ok bits c in
  update_stack 1 (emit16 realloc_ok idx (emit_op BC_PUSH_FLOAT64 c1)).

Definition emit_push_number (bits : Z) (c : BCComp) : BCComp :=
  let d := f64_of_bits bits in
  if int_literal d then
    update_stack 1 (emit32 realloc_ok (cast_int32 cast_ub d) (emit_op BC_PUSH_INT32 c))
  else emit_push_f64 bits c.

Definition emit_name_op (op : BCOpcode) (name : list Z) (c : BCComp) : BCComp :=
  match (if decide (op = BC_LOAD_VAR \/ op = BC_STORE_VAR) then local_slot name else None) with
  | Some slot =>
      if decide (op = BC_LOAD_VAR)
      then update_stack 1 (emit16 realloc_ok slot (emit_op BC_LOAD_LOCAL c))
      else update_stack (-1) (emit16 realloc_ok slot (emit_op BC_STORE_LOCAL c))
  | None =>
      let '(c1, idx) := pool_add_str realloc_ok (Some name) c in
      let c2 := emit16 realloc_ok idx (emit_op op c1) in
      if decide (op = BC_LOAD_VAR \/ op = BC_TYPEOF_VAR) then update_stack 1 c2
      else if decide (op = BC_STORE_VAR \/ op = BC_DECLARE_VAR) then update_stack (-1) c2
      else c2
  end.

(** The operators and their opcodes, in the order of the tests. *)
Definition binop_table : list (string * BCOpcode) :=
  [("+", BC_ADD); ("-", BC_SUB); ("*", BC_MUL); ("/", BC_DIV); ("%", BC_MOD); ("**", BC_POW);
   ("<", BC_LT); (">", BC_GT); ("<=", BC_LE); (">=", BC_GE); ("==", BC_EQ); ("!=", BC_NE);
   ("===", BC_STRICT_EQ); ("!==", BC_STRICT_NE); ("<<", BC_SHL); (">>", BC_SAR);
   (">>>", BC_SHR); ("&", BC_BIT_AND); ("|", BC_BIT_OR); ("^", BC_BIT_XOR); ("in", BC_IN);
   ("instanceof", BC_INSTANCEOF)]%string.

Fixpoint lookup_op (op : string) (table : list (string * BCOpcode)) : option BCOpcode :=
  match table with
  | [] => None
  | (s, b) :: t => if str_eqb op s then Some b else lookup_op op t
  end.

(** [None] stands for [BC_NOP]. *)
Definition binop_of (op : string) : option BCOpcode := lookup_op op binop_table.

(** ** Nodes without children *)

Definition cliteral (n : ASTNode) (l : literal) (c : BCComp) : BCComp :=
  match l with
  | LNumber bits => emit_push_number bits c
  | LString s => emit_push_string (default [] s) c
  | LBool b => emit_op (if b then BC_PUSH_TRUE else BC_PUSH_FALSE) c
  | LNull => emit_op BC_PUSH_NULL c
  | LUndefined => emit_op BC_PUSH_UNDEFINED c
  | LOther => emit_eval n true c
  end.

(** [cexpr] on a node without children. *)
Definition cleaf (n : ASTNode) (c : BCComp) : BCComp :=
  if negb (c_ok c) then c
  else match n with
       | AST_NULL => emit_op BC_PUSH_UNDEFINED c
       | AST_LITERAL l => cliteral n l c
       | AST_IDENTIFIER None => emit_op BC_PUSH_UNDEFINED c
       | AST_IDENTIFIER (Some name) => emit_name_op BC_LOAD_VAR name c
       | _ => emit_eval n true c
       end.

(** ** Factoring *)

Definition is_ident (n : ASTNode) (want : list Z) : bool :=
  match n with AST_IDENTIFIER (Some name) => bool_decide (name = want) | _ => false end.

(** The other factor of a product with the identifier. *)
Definition is_mul_with_ident (n : ASTNode) (ident : list Z) : option ASTNode :=
  match n with
  | AST_BINARY op l r =>
      if str_eqb op "*" then
        if is_ident l ident then Some r else if is_ident r ident then Some l else None
      else None
  | _ => None
  end.

Definition is_pure_node (n : ASTNode) : bool :=
  match n with AST_IDENTIFIER _ | AST_LITERAL _ => true | _ => false end.

(** [n->type != TOK_NUMBER] compares a node type with a token type. *)
Definition is_num_literal (n : ASTNode) : option Z :=
  match n with
  | AST_LITERAL (LNumber bits) => if ast_type n =? TOK_NUMBER then Some bits else None
  | _ => None
  end.

(** What the factoring finds: the common identifier and the other factors. *)
Definition cse_match (op : string) (l r : ASTNode) : option (ASTNode * ASTNode * ASTNode) :=
  if negb (str_eqb op "+" || str_eqb op "-") then None
  else
    match l with
    | AST_BINARY lop ll lr =>
        if negb (str_eqb lop "*") then None
        else
          let try_side id_node l_other :=
            match id_node with
            | AST_IDENTIFIER (Some id) =>
                match is_mul_with_ident r id with
                | Some r_other =>
                    if is_pure_node l_other && is_pure_node r_other
                    then Some (id_node, l_other, r_other) else None
                | None => None
                end
            | _ => None
            end in
          orelse (try_side ll lr) (try_side lr ll)
    | _ => None
    end.

(** The factored code; folding two literals would need [is_num_literal] to hold
    of a literal, which it never does ([num_literal_never]). *)
Definition emit_factored (op : string) (id l_other r_other : ASTNode) (c : BCComp) : BCComp :=
  let c1 := cleaf r_other (cleaf l_other (cleaf id c)) in
  let c2 := emit_op (if str_eqb op "+" then BC_ADD else BC_SUB) c1 in
  update_stack (-1) (emit_op BC_MUL c2).

Lemma num_literal_never n : is_num_literal n = None.
Proof. by destruct n as [|[]| | | | | | |]. Qed.

(** ** Assignments and increments *)

Definition op_push_one (c : BCComp) : BCComp := emit32 realloc_ok 1 (emit_op BC_PUSH_INT32 c).

(** [op] of [op=], for the compound assignments the compiler handles. *)
Definition compound_base (op : string) : option BCOpcode :=
  let len := String.length op in
  if (2 <=? Z.of_nat len) && str_eqb (String.substring (len - 1) 1 op) "=" &&
     negb (str_eqb op "&&=") && negb (str_eqb op "||=") && negb (str_eqb op "??=") &&
     (Z.of_nat len - 1 <? 8)
  then binop_of (String.substring 0 (len - 1) op) else None.

(** The fused compound assignments of a slot. *)
Definition fused_self_op (bop : BCOpcode) : option BCOpcode :=
  match bop with BC_ADD => Some BC_ADD_SELF | BC_MUL => Some BC_MUL_SELF | _ => None end.

(** [cincdec] on an identifier. *)
Definition cincdec_ident (is_inc prefix : bool) (name : list Z) (c : BCComp) : BCComp :=
  match (if is_inc then local_slot name else None) with
  | Some slot =>
      let c1 := emit16 realloc_ok slot (emit_op BC_INC_LOCAL c) in
      if prefix then
        update_stack 0 (emit16 realloc_ok slot (emit_op BC_LOAD_LOCAL (emit_op BC_POP c1)))
      else update_stack 1 c1
  | None =>
      if is_inc then
        let c1 := emit_name_op BC_INC_VAR name c in
        if prefix then update_stack 0 (emit_name_op BC_LOAD_VAR name (emit_op BC_POP c1))
        else update_stack 1 c1
      else
        let c1 := emit_op BC_POS (emit_name_op BC_LOAD_VAR name c) in
        if prefix then
          emit_name_op BC_STORE_VAR name (emit_op BC_DUP (emit_op BC_SUB (op_push_one c1)))
        else
          emit_name_op BC_STORE_VAR name (emit_op BC_SUB (op_push_one (emit_op BC_DUP c1)))
  end.

(** ** Expressions *)

(** The opcode of a short-circuit operator. *)
Definition short_circuit (op : string) : option BCOpcode :=
  if str_eqb op "&&" then Some BC_JUMP_IF_FALSE_KEEP
  else if str_eqb op "||" then Some BC_JUMP_IF_TRUE_KEEP
  else if str_eqb op "??" then Some BC_JUMP_IF_NOT_NULLISH
  else None.

(** The unary operators that are one instruction after their operand. *)
Definition unop_of (op : string) (prefix : bool) : option BCOpcode :=
  if str_eqb op "void" then Some BC_VOID
  else if str_eqb op "!" then Some BC_NOT
  else if str_eqb op "~" then Some BC_BIT_NOT
  else if str_eqb op "-" && prefix then Some BC_NEG
  else if str_eqb op "+" && prefix then Some BC_POS
  else None.

Fixpoint cexpr (n : ASTNode) (c : BCComp) {struct n} : BCComp :=
  if negb (c_ok c) then c
  else match n with
  | AST_NULL | AST_LITERAL _ | AST_IDENTIFIER _ | AST_DELEGATED _ => cleaf n c
  | AST_BINARY op l r =>
      match short_circuit op with
      | Some jop =>
          let '(c1, j) := emit_jump realloc_ok (op_byte jop) (cexpr l c) in
          patch_here j (cexpr r (emit_op BC_POP c1))
      | None =>
          match binop_of op with
          | None => emit_eval n true c
          | Some bop =>
              match cse_match op l r with
              | Some (id, l_other, r_other) => emit_factored op id l_other r_other c
              | None => emit_op bop (cexpr r (cexpr l c))
              end
          end
      end
  | AST_UNARY None _ _ => emit_eval n true c
  | AST_UNARY (Some op) prefix arg =>
      if str_eqb op "++" || str_eqb op "--" then
        match arg with
        | AST_IDENTIFIER (Some name) => cincdec_ident (str_eqb op "++") prefix name c
        | _ => emit_eval n true c
        end
      else if str_eqb op "typeof" then
        match arg with
        | AST_IDENTIFIER (Some name) => emit_name_op BC_TYPEOF_VAR name c
        | _ => emit_op BC_TYPEOF (cexpr arg c)
        end
      else if str_eqb op "delete" then emit_op BC_PUSH_TRUE c
      else match unop_of op prefix with
           | Some uop => emit_op uop (cexpr arg c)
           | None => emit_eval n true c
           end
  | AST_CONDITIONAL cond consequent alternate =>
      let '(c1, jfalse) := emit_jump realloc_ok (op_byte BC_JUMP_IF_FALSE) (cexpr cond c) in
      let '(c2, jend) := emit_jump realloc_ok (op_byte BC_JUMP) (cexpr consequent c1) in
      patch_here jend (cexpr alternate (patch_here jfalse c2))
  | AST_ASSIGN None _ _ | AST_ASSIGN _ AST_NULL _ => with_ok false c
  | AST_ASSIGN (Some op) (AST_IDENTIFIER (Some name)) value =>
      if str_eqb op "=" then
        match local_slot name, value with
        | Some slot, AST_BINARY vop l r =>
            if str_eqb vop "+" && is_ident l name
            then update_stack 0 (emit16 realloc_ok slot (emit_op BC_ADD_SELF (cexpr r c)))
            else emit_name_op BC_STORE_VAR name (emit_op BC_DUP (cexpr value c))
        | _, _ => emit_name_op BC_STORE_VAR name (emit_op BC_DUP (cexpr value c))
        end
      else
        match compound_base op with
        | None => emit_eval n true c
        | Some bop =>
            match fused_self_op bop, local_slot name with
            | Some sop, Some slot =>
                update_stack 0 (emit16 realloc_ok slot (emit_op sop (cexpr value c)))
            | _, _ =>
                emit_name_op BC_STORE_VAR name
                  (emit_op BC_DUP (emit_op bop (cexpr value (emit_name_op BC_LOAD_VAR name c))))
            end
        end
  | AST_ASSIGN _ _ _ => emit_eval n true c
  | AST_SEQUENCE exprs =>
      match exprs with
      | [] => emit_op BC_PUSH_UNDEFINED c
      | e :: l =>
          (fix rest (l : list ASTNode) (c : BCComp) : BCComp :=
             match l with
             | [] => c
             | e :: l' => rest l' (cexpr e (emit_op BC_POP c))
             end) l (cexpr e c)
      end
  end.

(** ** A program *)

(** The end of [bc_compile_ex]: the outcome and the stack size. *)
Definition finish (c : BCComp) : BCProgram :=
  let p := c_p c in
  {| p_code := p_code p; p_code_cap := p_code_cap p; p_pool := p_pool p;
     p_pool_cap := p_pool_cap p;
     p_max_stack := if c_max_stack_depth c >? 64 then c_max_stack_depth c else 64;
     p_node_refs := p_node_refs p; p_compiled := if c_ok c then 1 else 0;
     p_prog_id := p_prog_id p; p_ref_count := p_ref_count p |}.

(** [bc_compile_ex] on an expression, the body of an arrow function: [cstmt]
    with [top] set compiles the expression and sets the result. *)
Definition bc_compile_expr (p : BCProgram) (n : ASTNode) : BCProgram :=
  finish (emit_op BC_STOP (emit_op BC_SET_RESULT (cexpr n (comp_init p)))).

End Compiler.
