(* ===== verification/Stmt.v ===== *)
(** The compiler of statements, [cstmt] and [bc_compile_ex] of
    [src/src/engine/lr_bytecode_compile.c]: loops with the jumps of [break] and
    [continue], the slot table, the hoisting of [var], and function bodies.

    An allocation of [n] bytes by [realloc] succeeds when [realloc_ok n] holds,
    one by [calloc] when [calloc_ok n] does. *)

From stdpp Require Import base list strings.
From Stdlib Require Import ZArith Lia SpecFloat Ascii.
From S2P Require Import Prelude.
From S2P Require Import BcProgram.
From S2P Require Import BcEmit.
From S2P Require Import F64.
From S2P Require Import NumText.
From S2P Require Import JsOps.
From S2P Require Import Vm.
From S2P Require Import Compile.

(** ** Syntax trees *)

(** [token.type] of a declaration; anything but the first two is [var]. *)
Inductive decl_token := TOK_LET | TOK_CONST | TOK_VAR.

Definition var_decl_kind (t : decl_token) : Z :=
  match t with TOK_LET => 1 | TOK_CONST => 2 | TOK_VAR => 0 end.

(** What a declarator binds. *)
Inductive pattern :=
  | PNone                                        (* a hole, or another node *)
  | PIdent (name : option (list Z))
  | PRest (arg : pattern)                        (* AST_REST, AST_SPREAD_ELEMENT *)
  | PDefault (left : pattern)                    (* AST_DEFAULT_VALUE *)
  | PAssign (target : pattern)                   (* AST_ASSIGN *)
  | PArray (elements : list pattern)
  | PObject (props : list pattern)
  | PProp (shorthand : option (list Z)) (val : pattern).
    (* AST_PROPERTY; its key, when it is shorthand for an identifier *)

Inductive declarator :=
  | DSkip                                        (* not an AST_VAR_DECLARATOR *)
  | DVar (var : pattern) (init : option ASTNode).

(** The binding of a [for-of] loop. *)
Inductive for_each :=
  | EachDecl (token : decl_token) (vars : list declarator)
  | EachIdent (name : option (list Z))
  | EachPattern (p : pattern)
  | EachOther.

Inductive Stmt :=
  | SNull
  | AST_PROGRAM (items : list Stmt)
  | AST_BLOCK (items : list Stmt)
  | AST_EXPR_STMT (expr : ASTNode)
  | AST_VAR_DECL (token : decl_token) (vars : list declarator)
  | AST_IF (cond : ASTNode) (body else_body : Stmt)
  | AST_FOR (init : Stmt) (test update : option ASTNode) (body : Stmt)
  | AST_WHILE (cond : ASTNode) (body : Stmt)
  | AST_DO_WHILE (body : Stmt) (cond : ASTNode)
  | AST_FOR_OF (each : for_each) (source : ASTNode) (body : Stmt)
  | AST_FOR_IN (bind : option (list Z)) (body : Stmt)
  | AST_SWITCH (test : ASTNode) (cases : list (option ASTNode * Stmt))
    (* AST_DEFAULT has no condition *)
  | AST_TRY (body catch_body finally_body : Stmt) (catch_var : option (list Z))
  | AST_BREAK (label : option (list Z))
  | AST_CONTINUE (label : option (list Z))
  | AST_LABEL (label : option (list Z)) (stmt : Stmt)
  | AST_THROW (arg : ASTNode)
  | AST_RETURN (arg : option ASTNode)
  | AST_DEBUGGER
  | AST_FUNC_DECL (name : option (list Z))
  | AST_CLASS_DECL (name : option (list Z))
  | AST_EXPR (expr : ASTNode)                    (* an expression node *)
  | AST_OTHER (id : Z).

(** Induction that reaches the statements of a list. *)
Fixpoint stmt_ind_items (P : Stmt -> Prop)
    (Hprogram : forall items, Forall P items -> P (AST_PROGRAM items))
    (Hblock : forall items, Forall P items -> P (AST_BLOCK items))
    (Hif : forall c body other, P body -> P other -> P (AST_IF c body other))
    (Hfor : forall init test update body, P init -> P body -> P (AST_FOR init test update body))
    (Hwhile : forall c body, P body -> P (AST_WHILE c body))
    (Hdo : forall c body, P body -> P (AST_DO_WHILE body c))
    (Hof : forall each source body, P body -> P (AST_FOR_OF each source body))
    (Hin : forall bind body, P body -> P (AST_FOR_IN bind body))
    (Htry : forall body catch_body finally_body var, P body -> P catch_body -> P finally_body ->
              P (AST_TRY body catch_body finally_body var))
    (Hlabel : forall l body, P body -> P (AST_LABEL l body))
    (Hleaf : forall n, match n with
       | AST_PROGRAM _ | AST_BLOCK _ | AST_IF _ _ _ | AST_FOR _ _ _ _ | AST_WHILE _ _ | AST_DO_WHILE _ _
       | AST_FOR_OF _ _ _ | AST_FOR_IN _ _ | AST_TRY _ _ _ _ | AST_LABEL _ _ => False
       | _ => True end -> P n) (n : Stmt) {struct n} : P n :=
  let rec := stmt_ind_items P Hprogram Hblock Hif Hfor Hwhile Hdo Hof Hin Htry Hlabel Hleaf in
  let all := fix all (l : list Stmt) : Forall P l :=
    match l with [] => Forall_nil_2 P | n :: l' => Forall_cons_2 P n l' (rec n) (all l') end in
  match n with
  | AST_PROGRAM items => Hprogram items (all items)
  | AST_BLOCK items => Hblock items (all items)
  | AST_IF c body other => Hif c body other (rec body) (rec other)
  | AST_FOR init test update body => Hfor init test update body (rec init) (rec body)
  | AST_WHILE c body => Hwhile c body (rec body)
  | AST_DO_WHILE body c => Hdo c body (rec body)
  | AST_FOR_OF each source body => Hof each source body (rec body)
  | AST_FOR_IN bind body => Hin bind body (rec body)
  | AST_TRY body catch_body finally_body var =>
      Htry body catch_body finally_body var (rec body) (rec catch_body) (rec finally_body)
  | AST_LABEL l body => Hlabel l body (rec body)
  | n => Hleaf n I
  end.

(** ** Block scopes *)

Fixpoint node_has_lexical (n : Stmt) : bool :=
  match n with
  | AST_VAR_DECL token _ => negb (var_decl_kind token =? 0)
  | AST_CLASS_DECL _ | AST_FUNC_DECL _ => true
  | AST_IF _ body else_body => node_has_lexical body || node_has_lexical else_body
  | AST_FOR init _ _ body => node_has_lexical init || node_has_lexical body
  | AST_FOR_IN _ body | AST_FOR_OF _ _ body | AST_WHILE _ body | AST_DO_WHILE body _
  | AST_LABEL _ body => node_has_lexical body
  | AST_TRY body catch_body finally_body _ =>
      node_has_lexical body || node_has_lexical catch_body || node_has_lexical finally_body
  | AST_SWITCH _ cases =>
      (fix any (l : list (option ASTNode * Stmt)) : bool :=
         match l with [] => false | (_, body) :: l' => node_has_lexical body || any l' end) cases
  | _ => false
  end.

Definition block_has_lexical (items : list Stmt) : bool := existsb node_has_lexical items.

Definition is_func_decl (n : Stmt) : bool :=
  match n with AST_FUNC_DECL _ => true | _ => false end.

Definition label_name (l : option (list Z)) : option (list Z) :=
  match l with Some [] => None | _ => l end.

(** ** The slot table *)

Definition with_names (names : list (list Z)) (i : scope_info) : scope_info :=
  {| local_names := names; local_scope_depth := local_scope_depth i;
     disable_local_slots := disable_local_slots i |}.

Definition with_depth (d : Z) (i : scope_info) : scope_info :=
  {| local_names := local_names i; local_scope_depth := d;
     disable_local_slots := disable_local_slots i |}.

Definition listed (name : list Z) (names : list (list Z)) : bool := bool_decide (name ∈ names).

Definition register_local_name (name : option (list Z)) (names : list (list Z)) : list (list Z) :=
  match name with
  | None => names
  | Some name => if (zlen names >=? 256) || listed name names then names else names ++ [name]
  end.

(** The identifier a rest element, a default or an assignment binds. *)
Definition register_ident (p : pattern) (names : list (list Z)) : list (list Z) :=
  match p with PIdent name => register_local_name name names | _ => names end.

Fixpoint register_pattern_names (node : pattern) (names : list (list Z)) {struct node}
    : list (list Z) :=
  match node with
  | PArray elements =>
      (fix each (l : list pattern) (names : list (list Z)) : list (list Z) :=
         match l with
         | [] => names
         | PRest t :: _ => register_ident t names
         | elem :: l' =>
             each l' (match elem with
                      | PDefault t | PAssign t => register_ident t names
                      | PIdent _ => register_ident elem names
                      | PArray _ | PObject _ => register_pattern_names elem names
                      | _ => names
                      end)
         end) elements names
  | PObject props =>
      (fix each (l : list pattern) (names : list (list Z)) : list (list Z) :=
         match l with
         | [] => names
         | PRest t :: _ => register_ident t names
         | prop :: l' =>
             each l' (match prop with
                      | PProp shorthand val =>
                          match val with
                          | PDefault t | PAssign t => register_ident t names
                          | PIdent name =>
                              register_local_name (match shorthand with Some k => Some k | None => name end) names
                          | PArray _ | PObject _ => register_pattern_names val names
                          | _ => names
                          end
                      | _ => names
                      end)
         end) props names
  | _ => names
  end.

(** What a delegated declaration binds. *)
Fixpoint register_vars (vars : list declarator) (names : list (list Z)) : list (list Z) :=
  match vars with
  | [] => names
  | DVar (PIdent name) _ :: l => register_vars l (register_local_name name names)
  | DVar v _ :: l => register_vars l (register_pattern_names v names)
  | DSkip :: l => register_vars l names
  end.

Definition var_name (d : declarator) : option (list Z) :=
  match d with DVar (PIdent name) _ => name | _ => None end.

Definition binds_pattern (d : declarator) : bool :=
  match d with DVar (PIdent (Some _)) _ | DSkip => false | _ => true end.

(** ** The compiler's state *)

(** [brk] and [cont] with their capacities. *)
Record BCLoop := {
  lp_is_switch : bool;
  lp_label : option (list Z);
  lp_brk : list Z;
  lp_cbrk : Z;
  lp_cont : list Z;
  lp_ccont : Z
}.

Record SComp := {
  s_comp : BCComp;
  s_info : scope_info;
  s_loops : list BCLoop;                (* c->loop and its [prev] chain *)
  s_pending : option (list Z)           (* pending_label *)
}.

Definition on_comp (f : BCComp -> BCComp) (s : SComp) : SComp :=
  {| s_comp := f (s_comp s); s_info := s_info s; s_loops := s_loops s; s_pending := s_pending s |}.
Definition on_names (f : list (list Z) -> list (list Z)) (s : SComp) : SComp :=
  {| s_comp := s_comp s; s_info := with_names (f (local_names (s_info s))) (s_info s);
     s_loops := s_loops s; s_pending := s_pending s |}.
Definition add_depth (d : Z) (s : SComp) : SComp :=
  {| s_comp := s_comp s; s_info := with_depth (local_scope_depth (s_info s) + d) (s_info s);
     s_loops := s_loops s; s_pending := s_pending s |}.
Definition set_loops (l : list BCLoop) (s : SComp) : SComp :=
  {| s_comp := s_comp s; s_info := s_info s; s_loops := l; s_pending := s_pending s |}.
Definition set_pending (l : option (list Z)) (s : SComp) : SComp :=
  {| s_comp := s_comp s; s_info := s_info s; s_loops := s_loops s; s_pending := l |}.
Definition fail (s : SComp) : SComp := on_comp (with_ok false) s.

(** ** Loop bookkeeping *)

Definition loop_push (is_switch : bool) (s : SComp) : SComp :=
  set_pending None
    (set_loops ({| lp_is_switch := is_switch; lp_label := s_pending s; lp_brk := []; lp_cbrk := 0;
                   lp_cont := []; lp_ccont := 0 |} :: s_loops s) s).

Definition patch_list (l : list Z) (target : Z) (c : BCComp) : BCComp :=
  foldl (fun c pos => patch_jump_to pos target c) c l.

Definition loop_pop (break_target continue_target : Z) (s : SComp) : SComp :=
  match s_loops s with
  | lp :: rest =>
      set_loops rest (on_comp (fun c =>
        let c1 := patch_list (lp_brk lp) break_target c in
        if lp_is_switch lp then c1 else patch_list (lp_cont lp) continue_target c1) s)
  | [] => s
  end.

(** The list and its capacity after [loop_add], or [None] without memory. *)
Definition loop_add (realloc_ok : Z -> alloc_result) (l : list Z) (cap pos : Z) : option (list Z * Z) :=
  if zlen l >=? cap then
    let ncap := if cap =? 0 then 8 else cap * 2 in
    if realloc_ok (4 * ncap) then Some (l ++ [pos], ncap) else None
  else Some (l ++ [pos], cap).

(** The index of the loop a [break] ([need_loop] false) or [continue] means. *)
Fixpoint find_target (label : option (list Z)) (need_loop : bool) (l : list BCLoop) : option nat :=
  match l with
  | [] => None
  | lp :: rest =>
      if match label with
         | None => negb need_loop || negb (lp_is_switch lp)
         | Some _ => bool_decide (lp_label lp = label)
         end
      then Some 0%nat
      else S <$> find_target label need_loop rest
  end.

(** ** Statements *)

Section Compiler.

Context (realloc_ok calloc_ok : Z -> alloc_result) (cast_ub : f64 -> Z).
Context (node_addr : ASTNode -> Z) (stmt_addr : Stmt -> Z).

Abbreviation emit_op op := (emit realloc_ok (op_byte op)).

Definition emit_s (op : BCOpcode) (s : SComp) : SComp := on_comp (emit_op op) s.
Definition expr_s (n : ASTNode) (s : SComp) : SComp :=
  on_comp (cexpr realloc_ok cast_ub (s_info s) node_addr n) s.

(** [emit_jump]: the state and the position of the offset. *)
Definition jump_s (op : BCOpcode) (s : SComp) : SComp * Z :=
  let '(c, pos) := emit_jump realloc_ok (op_byte op) (s_comp s) in (on_comp (fun _ => c) s, pos).
Definition patch_s (pos target : Z) (s : SComp) : SComp := on_comp (patch_jump_to pos target) s.
Definition here_s (s : SComp) : Z := here (s_comp s).

(** [emit_eval] of a statement, without its value. *)
Definition eval_s (n : Stmt) (s : SComp) : SComp :=
  on_comp (fun c =>
    if negb (c_ok c) then c
    else let '(c1, idx) := pool_add_node realloc_ok (stmt_addr n) c in
         emit16 realloc_ok idx (emit_op BC_EVAL_NODE_POP c1)) s.

Definition clear_result (top : bool) (s : SComp) : SComp :=
  if top then emit_s BC_CLEAR_RESULT s else s.

(** [BC_DECLARE_VAR] with its operands. *)
Definition emit_declare (idx kind : Z) (c : BCComp) : BCComp :=
  emit realloc_ok (u8 kind) (emit16 realloc_ok idx (emit_op BC_DECLARE_VAR c)).

(** One declarator with an identifier. *)
Definition cdeclarator (kind : Z) (name : list Z) (init : option ASTNode) (s : SComp) : SComp :=
  let s1 := match init with Some e => expr_s e s | None => emit_s BC_PUSH_UNDEFINED s end in
  let s2 := on_comp (fun c =>
    let '(c1, idx) := pool_add_str realloc_ok (Some name) c in emit_declare idx kind c1) s1 in
  on_names (register_local_name (Some name)) s2.

Fixpoint cdeclarators (kind : Z) (vars : list declarator) (s : SComp) : SComp :=
  match vars with
  | [] => s
  | DVar (PIdent (Some name)) init :: l => cdeclarators kind l (cdeclarator kind name init s)
  | _ :: l => cdeclarators kind l s
  end.

Definition cvar_decl (token : decl_token) (vars : list declarator) (s : SComp) : SComp :=
  if existsb binds_pattern vars
  then eval_s (AST_VAR_DECL token vars) (on_names (register_vars vars) s)
  else cdeclarators (var_decl_kind token) vars s.

(** The [local < constant] test of a [for] loop: its slot and its bound. *)
Definition quick_test (info : scope_info) (test : ASTNode) : option (Z * Z) :=
  match test with
  | AST_BINARY op (AST_IDENTIFIER (Some name)) (AST_LITERAL (LNumber bits)) =>
      let imm := cast_int32 cast_ub (f64_of_bits bits) in
      if str_eqb op "<" && f64_eqb (f64_of_bits bits) (f64_of_Z imm)
      then slot ← local_slot info name; Some (slot, imm)
      else None
  | _ => None
  end.

(** The [i++] update of a [for] loop; one character of the operator is tested. *)
Definition quick_update (info : scope_info) (update : ASTNode) : option Z :=
  match update with
  | AST_UNARY (Some (String.String a _)) false (AST_IDENTIFIER (Some name)) =>
      if Ascii.eqb a "+"%char then local_slot info name else None
  | _ => None
  end.

(** The test of a [for] loop, with the position of the exit's offset. *)
Definition cfor_test (test : option ASTNode) (s : SComp) : SComp * option Z :=
  match test with
  | None => (s, None)
  | Some e =>
      match quick_test (s_info s) e with
      | Some (slot, imm) =>
          let s1 := on_comp (fun c =>
            emit32 realloc_ok imm (emit16 realloc_ok slot (emit_op BC_JUMP_IF_LOCAL_LT_IMM c))) s in
          (on_comp (emit32 realloc_ok 0) s1, Some (here_s s1))
      | None => let '(s1, pos) := jump_s BC_JUMP_IF_FALSE (expr_s e s) in (s1, Some pos)
      end
  end.

Definition cfor_update (update : option ASTNode) (s : SComp) : SComp :=
  match update with
  | None => s
  | Some e =>
      match quick_update (s_info s) e with
      | Some slot => on_comp (fun c => emit16 realloc_ok slot (emit_op BC_INC_LOCAL_DISCARD c)) s
      | None => emit_s BC_POP (expr_s e s)
      end
  end.

Definition cbreak (label : option (list Z)) (s : SComp) : SComp :=
  match find_target (label_name label) false (s_loops s) with
  | None => fail s
  | Some k =>
      let '(s1, pos) := jump_s BC_JUMP s in
      match s_loops s1 !! k with
      | Some lp =>
          match loop_add realloc_ok (lp_brk lp) (lp_cbrk lp) pos with
          | Some (l, cap) =>
              set_loops (<[k := {| lp_is_switch := lp_is_switch lp; lp_label := lp_label lp;
                                   lp_brk := l; lp_cbrk := cap; lp_cont := lp_cont lp;
                                   lp_ccont := lp_ccont lp |}]> (s_loops s1)) s1
          | None => fail s1
          end
      | None => s1
      end
  end.

Definition ccontinue (label : option (list Z)) (s : SComp) : SComp :=
  match find_target (label_name label) true (s_loops s) with
  | None => fail s
  | Some k =>
      if match s_loops s !! k with Some lp => lp_is_switch lp | None => true end then fail s
      else
        let '(s1, pos) := jump_s BC_JUMP s in
        match s_loops s1 !! k with
        | Some lp =>
            match loop_add realloc_ok (lp_cont lp) (lp_ccont lp) pos with
            | Some (l, cap) =>
                set_loops (<[k := {| lp_is_switch := lp_is_switch lp; lp_label := lp_label lp;
                                     lp_brk := lp_brk lp; lp_cbrk := lp_cbrk lp; lp_cont := l;
                                     lp_ccont := cap |}]> (s_loops s1)) s1
            | None => fail s1
            end
        | None => s1
        end
  end.

(** The loops a label is attached to. *)
Definition takes_label (n : Stmt) : bool :=
  match n with
  | AST_FOR _ _ _ _ | AST_WHILE _ _ | AST_DO_WHILE _ _ | AST_FOR_OF _ _ _ | AST_SWITCH _ _ => true
  | _ => false
  end.

(** The name and the kind a [for-of] loop binds, and whether it declares it. *)
Definition for_of_bind (each : for_each) : option (list Z * Z * bool) :=
  match each with
  | EachDecl token [DVar (PIdent (Some name)) _] => Some (name, var_decl_kind token, true)
  | EachIdent (Some name) => Some (name, 1, false)
  | _ => None
  end.

Definition for_of_names (each : for_each) (names : list (list Z)) : list (list Z) :=
  match each with
  | EachDecl _ vars => register_vars vars names
  | EachPattern p => register_pattern_names p names
  | _ => names
  end.

(** The tests of a [switch]: the jumps to the bodies, [None] for [default]. *)
Fixpoint cswitch_tests (cases : list (option ASTNode * Stmt)) (s : SComp) : SComp * list (option Z) :=
  match cases with
  | [] => (s, [])
  | (None, _) :: l => let '(s1, jumps) := cswitch_tests l s in (s1, None :: jumps)
  | (Some cond, _) :: l =>
      let '(s1, pos) := jump_s BC_JUMP_IF_TRUE (emit_s BC_STRICT_EQ (expr_s cond (emit_s BC_DUP s))) in
      let '(s2, jumps) := cswitch_tests l s1 in (s2, Some pos :: jumps)
  end.

(** The position of the last [default]'s body. *)
Fixpoint default_pos (jumps : list (option Z)) (bodies : list Z) : option Z :=
  match jumps, bodies with
  | j :: jumps', b :: bodies' =>
      match default_pos jumps' bodies' with
      | Some p => Some p
      | None => match j with None => Some b | Some _ => None end
      end
  | _, _ => None
  end.

Fixpoint patch_cases (jumps : list (option Z)) (bodies : list Z) (s : SComp) : SComp :=
  match jumps, bodies with
  | j :: jumps', b :: bodies' =>
      patch_cases jumps' bodies' (match j with Some pos => patch_s pos b s | None => s end)
  | _, _ => s
  end.

Fixpoint cstmt (n : Stmt) (top : bool) (s : SComp) {struct n} : SComp :=
  if negb (c_ok (s_comp s)) then s
  else
  let all (top : bool) :=
    (fix all (func : bool) (l : list Stmt) (s : SComp) : SComp :=
       match l with
       | [] => s
       | n :: l' => all func l' (if Bool.eqb (is_func_decl n) func then cstmt n top s else s)
       end) in
  match n with
  | SNull => s
  | AST_PROGRAM items => all true false items (all true true items s)
  | AST_BLOCK items =>
      let needs_scope := block_has_lexical items in
      let s1 := if needs_scope then emit_s BC_SCOPE_ENTER (add_depth 1 s) else s in
      let s2 := all false false items (all false true items s1) in
      if needs_scope then add_depth (-1) (emit_s BC_SCOPE_LEAVE s2) else s2
  | AST_EXPR_STMT e | AST_EXPR e => emit_s (if top then BC_SET_RESULT else BC_POP) (expr_s e s)
  | AST_VAR_DECL token vars => clear_result top (cvar_decl token vars s)
  | AST_IF cond body else_body =>
      let '(s1, jfalse) := jump_s BC_JUMP_IF_FALSE (expr_s cond s) in
      let s2 := cstmt body false s1 in
      let s3 :=
        match else_body with
        | SNull => patch_s jfalse (here_s s2) s2
        | _ =>
            let '(s3, jend) := jump_s BC_JUMP s2 in
            let s4 := cstmt else_body false (patch_s jfalse (here_s s3) s3) in
            patch_s jend (here_s s4) s4
        end in
      clear_result top s3
  | AST_FOR init test update body =>
      let s1 :=
        match init with
        | AST_VAR_DECL token vars => cvar_decl token vars s
        | _ => cstmt init false s
        end in
      let s2 := loop_push false s1 in
      let test_pos := here_s s2 in
      let '(s3, exit_patch) := cfor_test test (emit_s BC_LOOP_TICK s2) in
      let s4 := cstmt body false s3 in
      let update_pos := here_s s4 in
      let '(s5, back) := jump_s BC_JUMP (cfor_update update s4) in
      let s6 := patch_s back test_pos s5 in
      let stop := here_s s6 in
      let s7 := match exit_patch with Some pos => patch_s pos stop s6 | None => s6 end in
      clear_result top (loop_pop stop update_pos s7)
  | AST_WHILE cond body =>
      let s1 := loop_push false s in
      let test_pos := here_s s1 in
      let '(s2, exit_patch) := jump_s BC_JUMP_IF_FALSE (expr_s cond (emit_s BC_LOOP_TICK s1)) in
      let '(s3, back) := jump_s BC_JUMP (cstmt body false s2) in
      let s4 := patch_s back test_pos s3 in
      let stop := here_s s4 in
      clear_result top (loop_pop stop test_pos (patch_s exit_patch stop s4))
  | AST_DO_WHILE body cond =>
      let s1 := loop_push false s in
      let body_pos := here_s s1 in
      let s2 := cstmt body false (emit_s BC_LOOP_TICK s1) in
      let test_pos := here_s s2 in
      let '(s3, back) := jump_s BC_JUMP_IF_TRUE (expr_s cond s2) in
      let s4 := patch_s back body_pos s3 in
      clear_result top (loop_pop (here_s s4) test_pos s4)
  | AST_FOR_OF each source body =>
      match for_of_bind each with
      | None => clear_result top (eval_s n (on_names (for_of_names each) s))
      | Some (bind, kind, declare) =>
          let s1 := if declare then on_names (register_local_name (Some bind)) s else s in
          let s2 := expr_s source s1 in
          let has_block := declare && negb (kind =? 0) in
          let s3 := if has_block then emit_s BC_SCOPE_ENTER (add_depth 1 s2) else s2 in
          let s4 := loop_push false (emit_s BC_ITER_INIT s3) in
          let start := here_s s4 in
          let s5 := emit_s BC_ITER_NEXT (emit_s BC_LOOP_TICK s4) in
          let done_patch := here_s s5 in
          let s6 := on_comp (fun c =>
            let '(c1, idx) := pool_add_str realloc_ok (Some bind) (emit32 realloc_ok 0 c) in
            if declare then emit_declare idx kind c1
            else emit16 realloc_ok idx (emit_op BC_STORE_VAR c1)) s5 in
          let s7 := emit_s BC_JUMP (cstmt body false s6) in
          let back := here_s s7 in
          let s8 := patch_s back start (on_comp (emit32 realloc_ok 0) s7) in
          let stop := here_s s8 in
          let s9 := emit_s BC_ITER_CLOSE (loop_pop stop start (patch_s done_patch stop s8)) in
          clear_result top (if has_block then add_depth (-1) (emit_s BC_SCOPE_LEAVE s9) else s9)
      end
  | AST_FOR_IN bind _ => clear_result top (eval_s n (on_names (register_local_name bind) s))
  | AST_SWITCH test cases =>
      let s1 := loop_push true (expr_s test s) in
      let size := 4 * Z.max 1 (zlen cases) in
      if negb (calloc_ok size) then
        let s2 := fail s1 in clear_result top (loop_pop (here_s s2) (here_s s2) s2)
      else
        let '(s2, jumps) := cswitch_tests cases s1 in
        let '(s3, no_match) := jump_s BC_JUMP s2 in
        let '(s4, bodies) :=
          (fix each (l : list (option ASTNode * Stmt)) (s : SComp) : SComp * list Z :=
             match l with
             | [] => (s, [])
             | (_, body) :: l' =>
                 let s' :=
                   match body with
                   | AST_BLOCK items =>
                       (fix inner (l : list Stmt) (s : SComp) : SComp :=
                          match l with
                          | [] => s
                          | n :: l' => inner l' (cstmt n false s)
                          end) items s
                   | _ => cstmt body false s
                   end in
                 let '(s'', bodies) := each l' s' in (s'', here_s s :: bodies)
             end) cases s3 in
        let stop := here_s s4 in
        let s5 := patch_cases jumps bodies s4 in
        let s6 := patch_s no_match (default stop (default_pos jumps bodies)) s5 in
        clear_result top (emit_s BC_POP (loop_pop stop stop s6))
  | AST_TRY _ _ _ catch_var => clear_result top (eval_s n (on_names (register_local_name catch_var) s))
  | AST_BREAK label => cbreak label s
  | AST_CONTINUE label => ccontinue label s
  | AST_LABEL label inner =>
      match label_name label, inner with
      | None, _ | _, SNull => eval_s n s
      | Some lbl, _ =>
          clear_result top
            (if takes_label inner
             then set_pending None (cstmt inner false (set_pending (Some lbl) s))
             else eval_s n s)
      end
  | AST_THROW e => emit_s BC_THROW (expr_s e s)
  | AST_RETURN arg =>
      emit_s BC_RETURN (match arg with Some e => expr_s e s | None => emit_s BC_PUSH_UNDEFINED s end)
  | AST_DEBUGGER => emit_s BC_NOP s
  | AST_FUNC_DECL name =>
      clear_result top (eval_s n (on_names (fun l =>
        match name with Some f => if zlen l <? 256 then l ++ [f] else l | None => l end) s))
  | AST_CLASS_DECL name => clear_result top (eval_s n (on_names (register_local_name name) s))
  | AST_OTHER _ => clear_result top (eval_s n s)
  end.

(** ** Hoisting *)

(** A [var] declarator not met before: an undefined variable. *)
Definition hoist_var (d : declarator) (s : SComp) : SComp :=
  match var_name d with
  | None => s
  | Some name =>
      if negb (listed name (local_names (s_info s))) && (zlen (local_names (s_info s)) <? 256) then
        on_comp (fun c =>
            let '(c1, idx) := pool_add_str realloc_ok (Some name) c in
            emit_declare idx 0 (emit_op BC_PUSH_UNDEFINED c1))
          (on_names (fun l => l ++ [name]) s)
      else s
  end.

Fixpoint bc_collect_vars_hoist (n : Stmt) (s : SComp) {struct n} : SComp :=
  if negb (c_ok (s_comp s)) then s
  else match n with
  | AST_PROGRAM items | AST_BLOCK items =>
      (fix all (l : list Stmt) (s : SComp) : SComp :=
         match l with [] => s | n :: l' => all l' (bc_collect_vars_hoist n s) end) items s
  | AST_IF _ body else_body => bc_collect_vars_hoist else_body (bc_collect_vars_hoist body s)
  | AST_FOR init _ _ body => bc_collect_vars_hoist body (bc_collect_vars_hoist init s)
  | AST_WHILE _ body | AST_DO_WHILE body _ | AST_FOR_IN _ body | AST_FOR_OF _ _ body =>
      bc_collect_vars_hoist body s
  | AST_TRY body catch_body finally_body _ =>
      bc_collect_vars_hoist finally_body (bc_collect_vars_hoist catch_body (bc_collect_vars_hoist body s))
  | AST_VAR_DECL token vars =>
      if var_decl_kind token =? 0 then foldl (fun s d => hoist_var d s) s vars else s
  | _ => s
  end.

(** ** Programs *)

Definition init_state (pre_names : list (list Z)) (disable : bool) (p : BCProgram) : SComp :=
  {| s_comp := comp_init p;
     s_info := {| local_names := take 256 pre_names; local_scope_depth := 0;
                  disable_local_slots := disable |};
     s_loops := []; s_pending := None |}.

Definition bc_compile_ex (p : BCProgram) (node : Stmt) (pre_names : list (list Z)) (disable : bool)
    : BCProgram :=
  let s := bc_collect_vars_hoist node (init_state pre_names disable p) in
  let top := match node with AST_PROGRAM _ => false | _ => true end in
  finish (s_comp (emit_s BC_STOP (cstmt node top s))).

Definition bc_compile (p : BCProgram) (node : Stmt) : BCProgram := bc_compile_ex p node [] false.

(** A function: its parameters and body, whether a derived class's method, and
    whether its body mentions [arguments]. *)
Record func := {
  f_params : list pattern;
  f_body : Stmt;
  f_is_arrow : bool;
  f_derived : bool;
  f_scans_arguments : bool
}.

Definition param_name (p : pattern) : option (list Z) :=
  match p with PIdent name => name | _ => None end.

Definition bc_func_slot_safe (f : func) : bool :=
  (f_is_arrow f || negb (f_derived f) && negb (f_scans_arguments f)) &&
  forallb (fun p => match param_name p with Some _ => true | None => false end) (f_params f).

Definition this_name : list Z := [116; 104; 105; 115].

Definition pre_names (f : func) : list (list Z) := take 256 (this_name :: omap param_name (f_params f)).

Definition bc_compile_func (p : BCProgram) (f : func) : BCProgram :=
  if bc_func_slot_safe f then bc_compile_ex p (f_body f) (pre_names f) false
  else bc_compile_ex p (f_body f) [] true.

End Compiler.
