(* ===== verification/Eval.v ===== *)
(** The meaning of the expressions of [Compile], by evaluation of the syntax
    tree: operands from left to right, the engine's value operations, the slots
    of the current scope as the store.  [None] is an expression outside the
    domain: one whose variables are not slots, a construct the model leaves
    out, or undefined behaviour of an operation.

    [supported] says which expressions the compiler's correctness is stated
    for.  It leaves out what the tree-directed semantics and the code disagree
    on: factored sums of products, and a fused [x += e] whose [e] assigns [x].
    [x *= e] has no value when [x] holds a string, a symbol or an object: the code
    releases that value twice. *)

From stdpp Require Import base list strings.
From Stdlib Require Import ZArith Lia SpecFloat.
From S2P Require Import Prelude.
From S2P Require Import BcProgram.
From S2P Require Import NumText.
From S2P Require Import JsOps.
From S2P Require Import Vm.
From S2P Require Import Compile.

Inductive res :=
  | RVal (v : LRValue) (sc : list LRValue)
  | RExn (msg : string).

Definition bind_res (r : option res) (k : LRValue -> list LRValue -> option res) : option res :=
  match r with
  | Some (RVal v sc) => k v sc
  | Some (RExn m) => Some (RExn m)
  | None => None
  end.

Definition of_out (o : outcome) (sc : list LRValue) : option res :=
  match o with
  | Done v => Some (RVal v sc)
  | Raise m => Some (RExn m)
  | _ => None
  end.

(** Store the value of an expression in a slot; the value is the result. *)
Definition store_res (slot : Z) (r : option res) : option res :=
  bind_res r (fun v sc => Some (RVal v (store_slot slot v sc))).

(** ** The language's operators, and what each does *)

Definition js_binary : list (string * BCOpcode) :=
  [("+", BC_ADD); ("-", BC_SUB); ("*", BC_MUL); ("/", BC_DIV); ("%", BC_MOD); ("**", BC_POW);
   ("<", BC_LT); (">", BC_GT); ("<=", BC_LE); (">=", BC_GE); ("==", BC_EQ); ("!=", BC_NE);
   ("===", BC_STRICT_EQ); ("!==", BC_STRICT_NE); ("<<", BC_SHL); (">>", BC_SAR);
   (">>>", BC_SHR); ("&", BC_BIT_AND); ("|", BC_BIT_OR); ("^", BC_BIT_XOR); ("in", BC_IN);
   ("instanceof", BC_INSTANCEOF)]%string.

Definition js_unary : list (string * BCOpcode) :=
  [("void", BC_VOID); ("!", BC_NOT); ("~", BC_BIT_NOT); ("-", BC_NEG); ("+", BC_POS)]%string.

Definition js_assignment : list (string * BCOpcode) :=
  [("+=", BC_ADD); ("-=", BC_SUB); ("*=", BC_MUL); ("/=", BC_DIV); ("%=", BC_MOD); ("**=", BC_POW);
   ("<<=", BC_SHL); (">>=", BC_SAR); (">>>=", BC_SHR); ("&=", BC_BIT_AND); ("|=", BC_BIT_OR);
   ("^=", BC_BIT_XOR)]%string.

(** When a short-circuit operator keeps its left operand. *)
Definition js_short (op : string) : option (LRValue -> bool) :=
  if str_eqb op "&&" then Some (fun v => negb (lr_to_bool v))
  else if str_eqb op "||" then Some lr_to_bool
  else if str_eqb op "??" then Some (fun v => negb (nullish v))
  else None.

(** What a jump of a short-circuit operator tests. *)
Definition keeps (jop : BCOpcode) (v : LRValue) : bool :=
  match jop with
  | BC_JUMP_IF_FALSE_KEEP => negb (lr_to_bool v)
  | BC_JUMP_IF_TRUE_KEEP => lr_to_bool v
  | _ => negb (nullish v)
  end.

(** ** The compiler's tables agree *)

Lemma js_short_jump op : js_short op = keeps <$> short_circuit op.
Proof. unfold js_short, short_circuit. by repeat case_if. Qed.

Lemma js_binary_op op : lookup_op op js_binary = binop_of op.
Proof. done. Qed.

Lemma lookup_op_forall (P : string -> BCOpcode -> Prop) op bop table :
  Forall (fun p => P p.1 p.2) table -> lookup_op op table = Some bop -> P op bop.
Proof.
  induction 1 as [|[s b] t H _ IH]; [done|]. cbn. unfold str_eqb.
  destruct (String.eqb_spec op s) as [->|]; [|done]. by intros [= ->].
Qed.

Lemma js_unary_op op bop : lookup_op op js_unary = Some bop -> unop_of op true = Some bop.
Proof. apply (lookup_op_forall (fun op b => unop_of op true = Some b)). by repeat constructor. Qed.

Lemma js_assignment_op op bop : lookup_op op js_assignment = Some bop -> compound_base op = Some bop.
Proof. apply (lookup_op_forall (fun op b => compound_base op = Some b)). by repeat constructor. Qed.

Section Evaluation.

Context (cast_ub : f64 -> Z) (pow : f64 -> f64 -> f64) (new_ptr : option Z).
Context (info : scope_info).

(** Operators, with allocation that succeeds. *)
Definition binop (op : BCOpcode) (a b : LRValue) : outcome :=
  vm_binop cast_ub pow (fun _ => true) (fun _ => true) new_ptr false false op a b.

(** [slot + b] of the fused assignment. *)
Definition slot_plus (a b : LRValue) : outcome :=
  match a, b with
  | JString x, JString y => Done (JString (x ++ y))
  | JString x, JInt32 i => Done (JString (x ++ print_int i))
  | _, _ => bcv_binop cast_ub pow (fun _ => true) new_ptr BC_ADD a b
  end.

(** The loop's [slot *= e] on a value of the heap is undefined behaviour. *)
Definition slot_times (a b : LRValue) : outcome :=
  if is_heap a then UB else self_mul cast_ub pow (fun _ => true) new_ptr a b.

(** Fused [slot op= e], with [b] the value of [e]: the old value was read
    first. *)
Definition self_update (sop : BCOpcode) (slot : Z) (old : LRValue) (b : LRValue)
    (sc : list LRValue) : option res :=
  if in_scope slot sc then
    store_res slot (of_out (if decide (sop = BC_ADD_SELF) then slot_plus old b
                            else slot_times old b) sc)
  else None.

Definition literal_value (l : literal) : option LRValue :=
  match l with
  | LNumber bits =>
      let d := f64_of_bits bits in
      Some (if int_literal cast_ub d then JInt32 (cast_int32 cast_ub d) else JFloat64 d)
  | LString s => Some (lr_new_string (default [] s))
  | LBool b => Some (JBool b)
  | LNull => Some JNull
  | LUndefined => Some JUndefined
  | LOther => None
  end.

(** [++] on a slot that holds a number, and [--] on any slot. *)
Definition eval_inc (prefix : bool) (slot : Z) (sc : list LRValue) : option res :=
  let old := load_slot slot sc in
  if in_scope slot sc && bcv_is_number old then
    bind_res (store_res slot (of_out (increment cast_ub pow (fun _ => true) new_ptr old) sc))
      (fun v sc' => Some (RVal (if prefix then v else old) sc'))
  else None.

Definition eval_dec (prefix : bool) (slot : Z) (sc : list LRValue) : option res :=
  let old := bcv_number cast_ub (bcv_to_number (load_slot slot sc)) in
  bind_res (store_res slot (of_out (binop BC_SUB old (JInt32 1)) sc))
    (fun v sc' => Some (RVal (if prefix then v else old) sc')).

Definition eval_unop (op : BCOpcode) (v : LRValue) (sc : list LRValue) : option res :=
  match vm_unop cast_ub op v with Some r => Some (RVal r sc) | None => None end.

Fixpoint eval (n : ASTNode) (sc : list LRValue) {struct n} : option res :=
  match n with
  | AST_NULL | AST_IDENTIFIER None => Some (RVal JUndefined sc)
  | AST_LITERAL l => v ← literal_value l; Some (RVal v sc)
  | AST_IDENTIFIER (Some name) =>
      slot ← local_slot info name; Some (RVal (load_slot slot sc) sc)
  | AST_DELEGATED _ => None
  | AST_BINARY op l r =>
      match js_short op with
      | Some keep =>
          bind_res (eval l sc) (fun v sc1 => if keep v then Some (RVal v sc1) else eval r sc1)
      | None =>
          bop ← lookup_op op js_binary;
          bind_res (eval l sc) (fun a sc1 =>
            bind_res (eval r sc1) (fun b sc2 => of_out (binop bop a b) sc2))
      end
  | AST_UNARY None _ _ => None
  | AST_UNARY (Some op) prefix arg =>
      if str_eqb op "++" || str_eqb op "--" then
        match arg with
        | AST_IDENTIFIER (Some name) =>
            slot ← local_slot info name;
            (if str_eqb op "++" then eval_inc else eval_dec) prefix slot sc
        | _ => None
        end
      else if str_eqb op "typeof" then bind_res (eval arg sc) (eval_unop BC_TYPEOF)
      else if str_eqb op "delete" then None
      else if prefix then
        uop ← lookup_op op js_unary; bind_res (eval arg sc) (eval_unop uop)
      else None
  | AST_CONDITIONAL cond consequent alternate =>
      bind_res (eval cond sc) (fun v sc1 =>
        if lr_to_bool v then eval consequent sc1 else eval alternate sc1)
  | AST_ASSIGN (Some op) (AST_IDENTIFIER (Some name)) value =>
      slot ← local_slot info name;
      if str_eqb op "=" then
        match value with
        | AST_BINARY vop l r =>
            if str_eqb vop "+" && is_ident l name then
              bind_res (eval r sc) (self_update BC_ADD_SELF slot (load_slot slot sc))
            else store_res slot (eval value sc)
        | _ => store_res slot (eval value sc)
        end
      else
        bop ← lookup_op op js_assignment;
        match fused_self_op bop with
        | Some sop => bind_res (eval value sc) (self_update sop slot (load_slot slot sc))
        | None =>
            store_res slot (bind_res (eval value sc) (fun b sc1 =>
              of_out (binop bop (load_slot slot sc) b) sc1))
        end
  | AST_ASSIGN _ _ _ => None
  | AST_SEQUENCE exprs =>
      match exprs with
      | [] => Some (RVal JUndefined sc)
      | e :: l =>
          (fix rest (l : list ASTNode) (r : option res) : option res :=
             match l with
             | [] => r
             | e :: l' => rest l' (bind_res r (fun _ sc1 => eval e sc1))
             end) l (eval e sc)
      end
  end.

(** Whether evaluating the expression can assign the slot. *)
Definition is_slot (slot : Z) (n : ASTNode) : bool :=
  match n with
  | AST_IDENTIFIER (Some name) => bool_decide (local_slot info name = Some slot)
  | _ => false
  end.

Fixpoint assigns (slot : Z) (n : ASTNode) : bool :=
  match n with
  | AST_NULL | AST_LITERAL _ | AST_IDENTIFIER _ | AST_DELEGATED _ => false
  | AST_BINARY _ l r => assigns slot l || assigns slot r
  | AST_UNARY (Some op) _ arg =>
      (str_eqb op "++" || str_eqb op "--") && is_slot slot arg || assigns slot arg
  | AST_UNARY None _ _ => false
  | AST_CONDITIONAL c t e => assigns slot c || assigns slot t || assigns slot e
  | AST_ASSIGN _ target value => is_slot slot target || assigns slot value
  | AST_SEQUENCE exprs => existsb (assigns slot) exprs
  end.

(** The expressions of the correctness theorem. *)
Fixpoint supported (n : ASTNode) : bool :=
  let has_slot name := match local_slot info name with Some _ => true | None => false end in
  let unassigned name e :=
    match local_slot info name with Some slot => negb (assigns slot e) | None => false end in
  match n with
  | AST_NULL | AST_IDENTIFIER None => true
  | AST_LITERAL l => match l with LOther => false | _ => true end
  | AST_IDENTIFIER (Some name) => has_slot name
  | AST_DELEGATED _ => false
  | AST_BINARY op l r =>
      supported l && supported r &&
      match js_short op, lookup_op op js_binary, cse_match op l r with
      | Some _, _, _ => true
      | None, Some _, None => true
      | _, _, _ => false
      end
  | AST_UNARY None _ _ => false
  | AST_UNARY (Some op) prefix arg =>
      if str_eqb op "++" || str_eqb op "--" then
        match arg with AST_IDENTIFIER (Some name) => has_slot name | _ => false end
      else if str_eqb op "typeof" then
        match arg with AST_IDENTIFIER (Some _) => false | _ => supported arg end
      else if str_eqb op "delete" then false
      else match lookup_op op js_unary with Some _ => prefix && supported arg | None => false end
  | AST_CONDITIONAL c t e => supported c && supported t && supported e
  | AST_ASSIGN (Some op) (AST_IDENTIFIER (Some name)) value =>
      has_slot name && supported value &&
      (if str_eqb op "=" then
         match value with
         | AST_BINARY vop l r => negb (str_eqb vop "+" && is_ident l name) || unassigned name r
         | _ => true
         end
       else
         match lookup_op op js_assignment with
         | Some bop =>
             match fused_self_op bop with Some _ => unassigned name value | None => true end
         | None => false
         end)
  | AST_ASSIGN _ _ _ => false
  | AST_SEQUENCE exprs => forallb supported exprs
  end.

(** ** What evaluation leaves alone *)

Lemma local_slot_range name slot : local_slot info name = Some slot -> 0 <= slot < 2 ^ 16.
Proof.
  unfold local_slot. case_if; [|done]. destruct (find_name _ _ _); [|done]. cbn.
  intros [= <-]. apply Z.mod_pos_bound. lia.
Qed.

Lemma zlen_store slot v sc : zlen (store_slot slot v sc) = zlen sc.
Proof. unfold store_slot, zlen. case_if; [|done]. by rewrite length_insert. Qed.

Lemma in_scope_len slot sc sc' : zlen sc' = zlen sc -> in_scope slot sc' = in_scope slot sc.
Proof. unfold in_scope. by intros ->. Qed.

Lemma load_store_same slot v sc :
  0 <= slot -> in_scope slot sc = true -> load_slot slot (store_slot slot v sc) = v.
Proof.
  intros Hs Hi. unfold load_slot. rewrite (in_scope_len slot sc) by apply zlen_store.
  rewrite Hi. unfold store_slot. rewrite Hi. rewrite list_lookup_insert_eq; [done|].
  unfold in_scope, zlen, u16 in Hi. to_prop.
  pose proof (Z.mod_le (Z.of_nat (length sc)) (2 ^ 16) ltac:(lia) ltac:(lia)). lia.
Qed.

Lemma load_store_other slot slot' v sc :
  0 <= slot -> 0 <= slot' -> slot' <> slot -> load_slot slot' (store_slot slot v sc) = load_slot slot' sc.
Proof.
  intros H1 H2 Hne. unfold load_slot. rewrite (in_scope_len slot' sc) by apply zlen_store.
  case_if; [|done]. unfold store_slot. case_if; [|done].
  rewrite list_lookup_insert_ne; [done|lia].
Qed.

(** Slot [k] and the number of slots are the same. *)
Definition keeps_slot (k : Z) (sc sc' : list LRValue) : Prop :=
  zlen sc' = zlen sc /\ load_slot k sc' = load_slot k sc.

Definition keeps_res (k : Z) (sc : list LRValue) (r : option res) : Prop :=
  match r with Some (RVal _ sc') => keeps_slot k sc sc' | _ => True end.

Lemma keeps_bind k sc r f :
  keeps_res k sc r -> (forall v sc1, keeps_slot k sc sc1 -> keeps_res k sc (f v sc1)) ->
  keeps_res k sc (bind_res r f).
Proof. intros Hr Hf. destruct r as [[v sc1|]|]; cbn; auto. Qed.

Lemma keeps_out k sc o sc1 : keeps_slot k sc sc1 -> keeps_res k sc (of_out o sc1).
Proof. by destruct o. Qed.

Lemma keeps_store k slot sc r :
  0 <= k -> 0 <= slot -> k <> slot -> keeps_res k sc r -> keeps_res k sc (store_res slot r).
Proof.
  intros H1 H2 Hne Hr. apply keeps_bind; [done|]. intros v sc1 [E1 E2].
  split; [by rewrite zlen_store|]. by rewrite load_store_other.
Qed.

Lemma keeps_trans k sc sc1 r : keeps_slot k sc sc1 -> keeps_res k sc1 r -> keeps_res k sc r.
Proof. intros [E1 E2]. destruct r as [[v sc2|]|]; [|done..]. intros [E3 E4]. split; congruence. Qed.

Lemma keeps_update k sop slot old b sc sc1 :
  0 <= k -> 0 <= slot -> k <> slot -> keeps_slot k sc sc1 ->
  keeps_res k sc (self_update sop slot old b sc1).
Proof.
  intros. unfold self_update. case_if; [|done]. by apply keeps_store, keeps_out.
Qed.

Lemma keeps_unop k op sc v sc1 : keeps_slot k sc sc1 -> keeps_res k sc (eval_unop op v sc1).
Proof. intros. unfold eval_unop. by destruct (vm_unop _ _ _). Qed.

#[local] Hint Resolve keeps_out keeps_store keeps_bind keeps_update keeps_unop : lr.

Lemma keeps_refl k sc : keeps_slot k sc sc.
Proof. done. Qed.

Lemma is_slot_false k slot name :
  local_slot info name = Some slot -> is_slot k (AST_IDENTIFIER (Some name)) = false -> k <> slot.
Proof. cbn. intros Hs H. rewrite Hs in H. apply bool_decide_eq_false in H. congruence. Qed.

Lemma eval_keeps k n sc : 0 <= k -> assigns k n = false -> keeps_res k sc (eval n sc).
Proof.
  intros Hk. revert sc. induction n as [|l|[name|]|op l r IHl IHr|op prefix arg IH|c t e IHc IHt IHe
    |op t v _ IH IHr|es IH|id] using node_ind_right; intros sc; cbn [eval assigns]; intros Ha; try done.
  - by destruct (literal_value l).
  - by destruct (local_slot info name).
  - apply orb_false_iff in Ha as [Ha1 Ha2]. destruct (js_short op).
    + apply keeps_bind; [auto|]. intros v sc1 H. case_if; [done|].
      eapply keeps_trans; eauto.
    + destruct (lookup_op op js_binary) as [bop|]; [|done]. cbn. apply keeps_bind; [auto|]. intros a sc1 H.
      apply keeps_bind; [eapply keeps_trans; eauto|]. auto with lr.
  - destruct op as [op|]; [|done]. apply orb_false_iff in Ha as [Ha1 Ha2].
    destruct (str_eqb op "++" || str_eqb op "--").
    + destruct arg as [| |[name|]| | | | | |]; try done. cbn [andb] in Ha1.
      destruct (local_slot info name) as [slot|] eqn:Hs; [|done]. cbn [mbind option_bind].
      pose proof (is_slot_false k slot name Hs Ha1) as Hne.
      apply local_slot_range in Hs. case_if; unfold eval_inc, eval_dec.
      * case_if; [|done]. apply keeps_bind; [|done]. apply keeps_store; [lia..|]. by apply keeps_out.
      * apply keeps_bind; [|done]. apply keeps_store; [lia..|]. by apply keeps_out.
    + case_if; [apply keeps_bind; auto with lr|]. case_if; [done|].
      case_if; [|done]. destruct (lookup_op op js_unary); [|done]. cbn. apply keeps_bind; auto with lr.
  - apply orb_false_iff in Ha as [Ha Ha3]. apply orb_false_iff in Ha as [Ha1 Ha2].
    apply keeps_bind; [auto|]. intros v sc1 H1. case_if; eapply keeps_trans; eauto.
  - destruct op as [op|]; [|done]. destruct t as [| |[name|]| | | | | |]; try done.
    destruct (local_slot info name) as [slot|] eqn:Hs; [|done]. cbn [mbind option_bind].
    apply orb_false_iff in Ha as [Ha1 Ha2].
    pose proof (is_slot_false k slot name Hs Ha1) as Hne. apply local_slot_range in Hs.
    case_if.
    + destruct v as [| | |vop l r| | | | |]; try (apply keeps_store; [lia..|auto]; fail).
      case_if; [|apply keeps_store; [lia..|auto]].
      cbn [assigns] in Ha2. apply orb_false_iff in Ha2 as [_ Ha2].
      apply keeps_bind; [by eapply IHr|]. intros rhs sc1 Hrhs. apply keeps_update; [lia..|done].
    + destruct (lookup_op op js_assignment) as [bop|]; [|done]. cbn. destruct (fused_self_op bop).
      * apply keeps_bind; [auto|]. intros rhs sc1 Hrhs. apply keeps_update; [lia..|done].
      * apply keeps_store; [lia..|]. apply keeps_bind; auto with lr.
  - destruct es as [|e l]; [done|]. cbn [existsb] in Ha. apply orb_false_iff in Ha as [Ha Hal].
    inversion_clear IH as [|? ? He Hl]. specialize (He sc Ha). revert He.
    generalize (eval e sc) as r. revert Hal. induction Hl as [|e' l He' _ IHl]; intros Hal r Hr; [done|].
    cbn [existsb] in Hal. apply orb_false_iff in Hal as [Ha' Hal]. apply IHl; [done|].
    apply keeps_bind; [done|]. intros _ sc1 H1. eapply keeps_trans; eauto.
Qed.

End Evaluation.
