(* ===== verification/StmtEval.v ===== *)
(** The meaning of the statements of [Stmt]: completions, with the slots of the
    function's scope as the store.  A loop may take [fuel] turns; [None] is a
    statement outside the domain, or one that needs more.

    [supported_stmt] says which statements the compiler's correctness is stated
    for: no block-scoped declaration, no statement the compiler delegates, and
    expressions as in [Eval]. *)

From stdpp Require Import base list strings.
From Stdlib Require Import ZArith Lia SpecFloat.
From S2P Require Import Prelude.
From S2P Require Import BcProgram.
From S2P Require Import NumText.
From S2P Require Import JsOps.
From S2P Require Import Vm.
From S2P Require Import Compile.
From S2P Require Import Stmt.
From S2P Require Import Eval.

Inductive completion :=
  | CNormal (sc : list LRValue)
  | CBreak (label : option (list Z)) (sc : list LRValue)
  | CContinue (label : option (list Z)) (sc : list LRValue)
  | CReturn (v : LRValue) (sc : list LRValue)
  | CThrow (msg : string).

(** What one turn of a loop leads to. *)
Inductive turn :=
  | Again (sc : list LRValue)
  | Leave (c : completion).

Fixpoint iterate (fuel : nat) (round : list LRValue -> option turn) (sc : list LRValue)
    : option completion :=
  match fuel with
  | O => None
  | S fuel' =>
      match round sc with
      | Some (Again sc') => iterate fuel' round sc'
      | Some (Leave c) => Some c
      | None => None
      end
  end.

(** Continue with a value, or with the slots of a normal completion. *)
Definition with_value (r : option res) (k : LRValue -> list LRValue -> option completion)
    : option completion :=
  match r with
  | Some (RVal v sc) => k v sc
  | Some (RExn m) => Some (CThrow m)
  | None => None
  end.

Definition then_c (r : option completion) (k : list LRValue -> option completion)
    : option completion :=
  match r with
  | Some (CNormal sc) => k sc
  | _ => r
  end.

Definition turn_value (r : option res) (k : LRValue -> list LRValue -> option turn) : option turn :=
  match r with
  | Some (RVal v sc) => k v sc
  | Some (RExn m) => Some (Leave (CThrow m))
  | None => None
  end.

(** Whether a [break] or [continue] means the loop with the label [own]. *)
Definition mine (own label : option (list Z)) : bool :=
  match label with None => true | Some _ => bool_decide (own = label) end.

(** After the body of a loop. *)
Definition after_body (own : option (list Z)) (r : option completion)
    (k : list LRValue -> option turn) : option turn :=
  match r with
  | Some (CNormal sc) => k sc
  | Some (CContinue l sc) => if mine own l then k sc else Some (Leave (CContinue l sc))
  | Some (CBreak l sc) => Some (Leave (if mine own l then CNormal sc else CBreak l sc))
  | Some c => Some (Leave c)
  | None => None
  end.

(** One turn of [for] and [while], and of [do while]. *)
Definition for_round (own : option (list Z)) (test update : list LRValue -> option res)
    (body : list LRValue -> option completion) (sc : list LRValue) : option turn :=
  turn_value (test sc) (fun v sc1 =>
    if lr_to_bool v
    then after_body own (body sc1) (fun sc2 =>
           turn_value (update sc2) (fun _ sc3 => Some (Again sc3)))
    else Some (Leave (CNormal sc1))).

Definition do_round (own : option (list Z)) (cond : list LRValue -> option res)
    (body : list LRValue -> option completion) (sc : list LRValue) : option turn :=
  after_body own (body sc) (fun sc1 =>
    turn_value (cond sc1) (fun v sc2 =>
      Some (if lr_to_bool v then Again sc2 else Leave (CNormal sc2)))).

Definition no_update (sc : list LRValue) : option res := Some (RVal JUndefined sc).

Section Execution.

Context (cast_ub : f64 -> Z) (pow : f64 -> f64 -> f64) (new_ptr : option Z).
Context (info : scope_info) (fuel : nat).

Abbreviation eval := (eval cast_ub pow new_ptr info).

(** A [var] without an initialiser changes nothing; the domain is the variables
    that are undefined so far. *)
Definition exec_var (d : declarator) (sc : list LRValue) : option completion :=
  match d with
  | DSkip => Some (CNormal sc)
  | DVar (PIdent (Some name)) init =>
      slot ← local_slot info name;
      if in_scope slot sc then
        match init with
        | Some e => with_value (eval e sc) (fun v sc1 => Some (CNormal (store_slot slot v sc1)))
        | None => if is_undefined (load_slot slot sc) then Some (CNormal sc) else None
        end
      else None
  | _ => None
  end.

Fixpoint exec_vars (vars : list declarator) (sc : list LRValue) : option completion :=
  match vars with
  | [] => Some (CNormal sc)
  | d :: l => then_c (exec_var d sc) (exec_vars l)
  end.

(** The test of a [for] loop; without one the loop goes on. *)
Definition exec_test (test : option ASTNode) (sc : list LRValue) : option res :=
  match test with Some e => eval e sc | None => Some (RVal (JBool true) sc) end.

Definition exec_update (update : option ASTNode) (sc : list LRValue) : option res :=
  match update with Some e => eval e sc | None => no_update sc end.

(** [own] is the label of the statement. *)
Fixpoint exec (n : Stmt) (own : option (list Z)) (sc : list LRValue) {struct n}
    : option completion :=
  match n with
  | SNull | AST_DEBUGGER => Some (CNormal sc)
  | AST_BLOCK items =>
      (fix all (l : list Stmt) (sc : list LRValue) : option completion :=
         match l with
         | [] => Some (CNormal sc)
         | n :: l' => then_c (exec n None sc) (all l')
         end) items sc
  | AST_EXPR_STMT e | AST_EXPR e => with_value (eval e sc) (fun _ sc1 => Some (CNormal sc1))
  | AST_VAR_DECL TOK_VAR vars => exec_vars vars sc
  | AST_IF cond body else_body =>
      with_value (eval cond sc) (fun v sc1 =>
        if lr_to_bool v then exec body None sc1 else exec else_body None sc1)
  | AST_FOR init test update body =>
      then_c (exec init None sc) (iterate fuel (for_round own (exec_test test) (exec_update update) (exec body None)))
  | AST_WHILE cond body => iterate fuel (for_round own (eval cond) no_update (exec body None)) sc
  | AST_DO_WHILE body cond => iterate fuel (do_round own (eval cond) (exec body None)) sc
  | AST_BREAK label => Some (CBreak (label_name label) sc)
  | AST_CONTINUE label => Some (CContinue (label_name label) sc)
  | AST_LABEL label inner =>
      match label_name label with
      | Some l => if takes_label inner then exec inner (Some l) sc else None
      | None => None
      end
  | AST_RETURN None => Some (CReturn JUndefined sc)
  | AST_RETURN (Some e) => with_value (eval e sc) (fun v sc1 => Some (CReturn v sc1))
  | _ => None
  end.

(** ** The statements of the correctness theorem *)

Abbreviation supported := (supported info).

Definition supported_opt (e : option ASTNode) : bool :=
  match e with Some e => supported e | None => true end.

Definition supported_var (d : declarator) : bool :=
  match d with
  | DSkip => true
  | DVar (PIdent (Some name)) init =>
      match local_slot info name with
      | Some _ => supported_opt init && bool_decide (cstr name = name)
      | None => false
      end
  | _ => false
  end.

(** The first clause of a [for] loop. *)
Definition is_init (n : Stmt) : bool :=
  match n with SNull | AST_VAR_DECL _ _ | AST_EXPR_STMT _ | AST_EXPR _ => true | _ => false end.

Fixpoint supported_stmt (n : Stmt) : bool :=
  match n with
  | SNull | AST_DEBUGGER | AST_BREAK _ | AST_CONTINUE _ => true
  | AST_BLOCK items => negb (block_has_lexical items) && forallb supported_stmt items
  | AST_EXPR_STMT e | AST_EXPR e => supported e
  | AST_VAR_DECL TOK_VAR vars => forallb supported_var vars
  | AST_IF cond body else_body => supported cond && supported_stmt body && supported_stmt else_body
  | AST_FOR init test update body =>
      is_init init && supported_stmt init && supported_opt test && supported_opt update &&
      supported_stmt body
  | AST_WHILE cond body | AST_DO_WHILE body cond => supported cond && supported_stmt body
  | AST_LABEL label inner =>
      match label_name label with
      | Some _ => takes_label inner && supported_stmt inner
      | None => false
      end
  | AST_RETURN e => supported_opt e
  | _ => false
  end.

End Execution.
