(* ===== verification/CompileOk.v ===== *)
(** Correctness of the expression compiler: the code [cexpr] emits, run by the
    loop of [Vm], computes what evaluating the syntax tree does.  The proof
    goes through [computes]: a list of instructions computes a function of the
    operand stack and the slots, wherever it sits in the code. *)

From stdpp Require Import base list strings.
From Stdlib Require Import ZArith Lia SpecFloat.
From S2P Require Import Prelude.
From S2P Require Import BcProgram.
From S2P Require Import BcEmit.
From S2P Require Import F64.
From S2P Require Import NumText.
From S2P Require Import JsOps.
From S2P Require Import JsLaws.
From S2P Require Import Vm.
From S2P Require Import VmCode.
From S2P Require Import Emits.
From S2P Require Import Compile.
From S2P Require Import Eval.

(** Where a piece of code leads. *)
Inductive flow :=
  | FNext (st sc : list LRValue)
  | FExn (msg : string).

Definition block := list LRValue -> list LRValue -> option flow.

Definition then_ (F G : block) : block := fun st sc =>
  match F st sc with
  | Some (FNext st' sc') => G st' sc'
  | r => r
  end.

Definition state_at (nm : list (list Z)) (pos : Z) (st sc : list LRValue) (rs : LRValue) : vm :=
  {| ip := pos; stack := st; slots := sc; names := nm; result := rs |}.

Section Correctness.

Context (realloc_ok : Z -> alloc_result) (cast_ub : f64 -> Z) (pow : f64 -> f64 -> f64).
Context (alloc_ok grow_ok : Z -> alloc_result) (new_ptr : option Z).
Context (sole : vm -> nat -> bool).

Hypothesis cast_range : forall d, in_int32 (cast_ub d) = true.
Hypothesis alloc_all : forall n, alloc_ok n = true.

(** The names of the scope, which expressions leave alone. *)
Context (nm : list (list Z)).

Abbreviation at_pos := (state_at nm).
Abbreviation step := (step cast_ub pow alloc_ok grow_ok new_ptr sole).
Abbreviation reach := (reach cast_ub pow alloc_ok grow_ok new_ptr sole).
Abbreviation run := (run cast_ub pow alloc_ok grow_ok new_ptr sole).
Abbreviation aborts := (aborts cast_ub pow alloc_ok grow_ok new_ptr sole).
Abbreviation exec_op := (exec_op cast_ub pow alloc_ok grow_ok new_ptr sole).

(** The code [l], if its operands fit, does what [F] says under constants that
    extend [pool]. *)
Definition computes (pool : list BCConst) (l : list instr) (F : block) : Prop :=
  forall prog ext pos st sc rs r,
    p_pool prog = pool ++ ext -> code_at prog pos l -> Forall instr_ok l -> F st sc = Some r ->
    match r with
    | FNext st' sc' => reach prog (at_pos pos st sc rs) (at_pos (pos + zlen (encode l)) st' sc' rs)
    | FExn msg => aborts prog (at_pos pos st sc rs) msg
    end.

Lemma computes_nil pool : computes pool [] (fun st sc => Some (FNext st sc)).
Proof.
  intros prog ext pos st sc rs r _ _ _ [= <-]. change (zlen (encode [])) with 0.
  rewrite Z.add_0_r. constructor.
Qed.

Lemma computes_weaken pool l F G :
  (forall st sc r, G st sc = Some r -> F st sc = Some r) -> computes pool l F -> computes pool l G.
Proof. intros H HF prog ext pos st sc rs r Hp Hc Hi HG. eapply HF; eauto. Qed.

Lemma computes_pool pool ext l F : computes pool l F -> computes (pool ++ ext) l F.
Proof.
  intros H prog ext' pos st sc rs r Hp. rewrite <- app_assoc in Hp. by apply (H prog (ext ++ ext')).
Qed.

Lemma computes_app pool l1 l2 F G :
  computes pool l1 F -> computes pool l2 G -> computes pool (l1 ++ l2) (then_ F G).
Proof.
  intros H1 H2 prog ext pos st sc rs r Hp Hc Hi Hr. apply code_at_app in Hc as [Hc1 Hc2].
  apply Forall_app in Hi as [Hi1 Hi2].
  unfold then_ in Hr. destruct (F st sc) as [[st1 sc1|m]|] eqn:E; [| |done].
  - pose proof (H1 prog ext pos st sc rs _ Hp Hc1 Hi1 E) as R1. cbn in R1.
    pose proof (H2 prog ext _ st1 sc1 rs _ Hp Hc2 Hi2 Hr) as R2.
    rewrite zlen_encode_app, Z.add_assoc. destruct r; [by eapply reach_trans|].
    by eapply reach_aborts.
  - injection Hr as <-. by apply (H1 prog ext pos st sc rs _ Hp Hc1 Hi1 E).
Qed.

(** One instruction that falls through. *)
Lemma computes_instr pool i (F : block) :
  (forall prog ext pos st sc rs r, p_pool prog = pool ++ ext -> code_at prog pos [i] ->
     instr_ok i -> F st sc = Some r ->
     exec_op prog (i_op i) (at_pos (pos + 1) st sc rs)
     = match r with
       | FNext st' sc' => Next (at_pos (pos + zlen (encode_instr i)) st' sc' rs)
       | FExn msg => Aborted (Some msg)
       end) ->
  computes pool [i] F.
Proof.
  intros H prog ext pos st sc rs r Hp Hc Hi HF. apply Forall_inv in Hi.
  pose proof (H prog ext pos st sc rs r Hp Hc Hi HF) as Hx.
  pose proof (step_instr cast_ub pow alloc_ok grow_ok new_ptr sole prog i (at_pos pos st sc rs) Hc)
    as Hs. unfold jump in Hs. cbn [state_at ip stack slots names result] in Hs.
  fold (at_pos (pos + 1) st sc rs) in Hs. rewrite Hx in Hs.
  rewrite encode_singleton. destruct r; [by apply reach_one|].
  exists (at_pos pos st sc rs). split; [constructor|done].
Qed.

(** ** Instructions *)

Ltac one_op :=
  apply computes_instr; intros prog ext pos st sc rs r Hp Hc Hi Hr; cbn in Hr.

Definition pushes (v : LRValue) : block := fun st sc => Some (FNext (v :: st) sc).

Lemma computes_const pool op v :
  match op with
  | BC_PUSH_UNDEFINED => v = JUndefined
  | BC_PUSH_NULL => v = JNull
  | BC_PUSH_TRUE => v = JBool true
  | BC_PUSH_FALSE => v = JBool false
  | _ => False
  end -> computes pool [Instr op []] (pushes v).
Proof. intros H. one_op. injection Hr as <-. by destruct op; try done; subst v. Qed.

Lemma computes_pop pool :
  computes pool [Instr BC_POP []]
    (fun st sc => match st with _ :: st' => Some (FNext st' sc) | [] => None end).
Proof. one_op. destruct st; [done|]. by injection Hr as <-. Qed.

Lemma computes_dup pool :
  computes pool [Instr BC_DUP []]
    (fun st sc => match st with v :: _ => Some (FNext (v :: st) sc) | [] => None end).
Proof. one_op. destruct st; [done|]. by injection Hr as <-. Qed.

(** The operand of an instruction fits. *)
Lemma instr_ok16 op a : instr_ok (Instr op [a]) -> operand_layout op = 1 -> 0 <= a <= 65535.
Proof. unfold instr_ok. cbn. intros [[_ ?]|[??]] ?; [done|congruence]. Qed.

Lemma instr_ok32 op a :
  instr_ok (Instr op [a]) -> operand_layout op = 2 -> - 2 ^ 31 <= a < 2 ^ 31.
Proof. unfold instr_ok. cbn. intros [[??]|[_ ?]] ?; [congruence|done]. Qed.

Lemma zlen_instr16 op a :
  operand_layout op = 1 -> zlen (encode_instr (Instr op [a])) = 3.
Proof. intros H. unfold encode_instr. cbn [i_op i_args]. by rewrite H. Qed.

Lemma zlen_instr32 op a :
  operand_layout op = 2 -> zlen (encode_instr (Instr op [a])) = 5.
Proof. intros H. unfold encode_instr. cbn [i_op i_args]. by rewrite H. Qed.

Lemma jump_at n pos st sc rs : jump n (at_pos pos st sc rs) = at_pos (pos + n) st sc rs.
Proof. done. Qed.

Ltac one_op16 :=
  one_op; cbn [i_op];
  match goal with
  | Hc : code_at ?prog ?pos [Instr ?op [?a]], Hi : instr_ok _ |- context [at_pos (?pos + 1) ?st ?sc ?rs] =>
      rewrite (zlen_instr16 op a) by done; unfold Vm.exec_op; cbn [state_at ip];
      fold (at_pos (pos + 1) st sc rs); rewrite (rd16_at prog pos op a) by (done || by apply (instr_ok16 op));
      rewrite jump_at; replace (pos + 1 + 2) with (pos + 3) by lia
  end.

Lemma computes_int32 pool z :
  computes pool [Instr BC_PUSH_INT32 [z]] (pushes (JInt32 z)).
Proof.
  one_op. apply (instr_ok32 BC_PUSH_INT32) in Hi; [|done]. injection Hr as <-. cbn [i_op]. rewrite zlen_instr32 by done.
  unfold Vm.exec_op. cbn [state_at ip].
  fold (at_pos (pos + 1) st sc rs). rewrite (rd32_at prog pos BC_PUSH_INT32 z) by done.
  rewrite jump_at. by replace (pos + 1 + 4) with (pos + 5) by lia.
Qed.

Lemma computes_pool_const pool op si v :
  op = BC_PUSH_FLOAT64 \/ op = BC_PUSH_STRING ->
  match pool !! Z.to_nat si with
  | Some (PoolFloat64 bits) => v = JFloat64 (f64_of_bits bits)
  | Some (PoolString str _) => v = lr_new_string str
  | _ => False
  end ->
  computes pool [Instr op [si]] (pushes v).
Proof.
  intros Hop Hv.
  assert (forall prog ext s, p_pool prog = pool ++ ext -> push_const prog si s = Next (push v s)) as H.
  { intros prog ext s Hp. unfold push_const. rewrite Hp.
    destruct (pool !! Z.to_nat si) as [k|] eqn:E; [|done].
    rewrite (lookup_app_l_Some _ _ _ _ E). destruct k; try done; by subst v. }
  destruct Hop as [-> | ->]; one_op16; injection Hr as <-; by rewrite (H prog ext).
Qed.

Lemma computes_load pool slot :
  computes pool [Instr BC_LOAD_LOCAL [slot]]
    (fun st sc => Some (FNext (load_slot slot sc :: st) sc)).
Proof. one_op16. by injection Hr as <-. Qed.

Lemma computes_store pool slot :
  computes pool [Instr BC_STORE_LOCAL [slot]]
    (fun st sc => match st with
                  | v :: st' => Some (FNext st' (store_slot slot v sc))
                  | [] => None
                  end).
Proof. one_op16. destruct st; [done|]. by injection Hr as <-. Qed.

(** The value operations do not depend on where their strings are put. *)
Lemma bcv_concat_alloc a b : bcv_concat alloc_ok a b = bcv_concat (fun _ => true) a b.
Proof.
  unfold bcv_concat.
  assert (forall x y, new_concat alloc_ok x y = new_concat (fun _ => true) x y) as H
    by (intros; unfold new_concat; by rewrite alloc_all).
  assert (forall x y : option (list Z),
    (x' ← x; y' ← y; Some (new_concat alloc_ok x' y'))
    = (x' ← x; y' ← y; Some (new_concat (fun _ => true) x' y'))) as H2
    by (intros [x|] [y|]; cbn; by rewrite ?H).
  destruct a; try apply H2. destruct b; try (by rewrite H); apply (H2 (Some s)).
Qed.

Lemma bcv_binop_alloc op a b :
  bcv_binop cast_ub pow alloc_ok new_ptr op a b
  = bcv_binop cast_ub pow (fun _ => true) new_ptr op a b.
Proof.
  assert (general_path cast_ub pow alloc_ok op a b = general_path cast_ub pow (fun _ => true) op a b)
    as Hg by (destruct op; try done; cbn [general_path]; by rewrite bcv_concat_alloc).
  unfold bcv_binop. destruct a as [| | | | | | |? []|], b as [| | | | | | |? []|]; try exact Hg;
    by rewrite Hg.
Qed.

Lemma vm_binop_alloc sa sb op a b :
  vm_binop cast_ub pow alloc_ok grow_ok new_ptr sa sb op a b = binop cast_ub pow new_ptr op a b.
Proof.
  unfold binop, vm_binop.
  assert (forall sa sb x y, vm_concat alloc_ok grow_ok sa sb x y
    = vm_concat (fun _ => true) (fun _ => true) false false x y) as Hc.
  { intros. rewrite !vm_concat_ok; [done|done|apply alloc_all]. }
  assert (vm_fast_path cast_ub alloc_ok grow_ok sa sb op a b
    = vm_fast_path cast_ub (fun _ => true) (fun _ => true) false false op a b) as ->.
  { destruct op; try done. cbn [vm_fast_path]. unfold vm_add.
    by destruct a, b; rewrite ?Hc. }
  by rewrite bcv_binop_alloc.
Qed.

Definition out_flow (o : outcome) (st sc : list LRValue) : option flow :=
  match o with
  | Done v => Some (FNext (v :: st) sc)
  | Raise m => Some (FExn m)
  | _ => None
  end.

Lemma computes_binop pool op :
  is_binop op = true ->
  computes pool [Instr op []]
    (fun st sc => match st with
                  | b :: a :: st' => out_flow (binop cast_ub pow new_ptr op a b) st' sc
                  | _ => None
                  end).
Proof.
  intros Hop. one_op. cbn [i_op]. destruct st as [|b [|a st]]; [done..|].
  assert (exec_op prog op (at_pos (pos + 1) (b :: a :: st) sc rs)
    = do_binop cast_ub pow alloc_ok grow_ok new_ptr sole op (at_pos (pos + 1) (b :: a :: st) sc rs))
    as -> by (by destruct op).
  unfold do_binop. cbn [state_at stack]. rewrite vm_binop_alloc. unfold out_flow in Hr.
  assert (zlen (encode_instr (Instr op [])) = 1) as -> by (by destruct op).
  destruct (binop cast_ub pow new_ptr op a b); simplify_eq; done.
Qed.

Lemma computes_unop pool op :
  match op with
  | BC_NEG | BC_POS | BC_NOT | BC_BIT_NOT | BC_TYPEOF | BC_VOID => True
  | _ => False
  end ->
  computes pool [Instr op []]
    (fun st sc => match st with
                  | a :: st' => r ← vm_unop cast_ub op a; Some (FNext (r :: st') sc)
                  | [] => None
                  end).
Proof.
  intros Hop. one_op. cbn [i_op]. destruct st as [|a st]; [done|].
  assert (exec_op prog op (at_pos (pos + 1) (a :: st) sc rs)
    = do_unop cast_ub op (at_pos (pos + 1) (a :: st) sc rs)) as -> by (by destruct op).
  unfold do_unop. cbn [pop state_at stack].
  assert (zlen (encode_instr (Instr op [])) = 1) as -> by (by destruct op).
  destruct (vm_unop cast_ub op a); [|done]. cbn in Hr. by injection Hr as <-.
Qed.

(** The value and slots of a result, pushed on a stack. *)
Definition res_flow (r : option res) (st : list LRValue) : option flow :=
  match r with
  | Some (RVal v sc) => Some (FNext (v :: st) sc)
  | Some (RExn m) => Some (FExn m)
  | None => None
  end.

Abbreviation self_update := (self_update cast_ub pow new_ptr).

Lemma computes_self pool sop slot :
  sop = BC_ADD_SELF \/ sop = BC_MUL_SELF ->
  computes pool [Instr sop [slot]]
    (fun st sc => match st with
                  | b :: st' => res_flow (self_update sop slot (load_slot slot sc) b sc) st'
                  | [] => None
                  end).
Proof.
  intros [-> | ->]; one_op16; destruct st as [|b st]; try done; unfold Eval.self_update in Hr;
    destruct (in_scope slot sc) eqn:Hin; try done; cbn in Hr.
  - unfold add_self. cbn [pop state_at stack slots names set_stack]. rewrite Hin.
    assert (forall x y s, self_concat alloc_ok grow_ok (sole (at_pos (pos + 3) (b :: st) sc rs) 0) slot x y s
      = push (JString (x ++ y)) (set_slots (store_slot slot (JString (x ++ y)) (slots s)) s)) as Hcat.
    { intros. unfold self_concat. cbv zeta. by rewrite alloc_all, orb_true_r. }
    rewrite decide_True in Hr by done.
    revert Hr. generalize (load_slot slot sc). intros a Hr.
    destruct a, b; cbn [slot_plus] in Hr; rewrite ?Hcat, ?bcv_binop_alloc;
      try (injection Hr as <-; reflexivity);
      match type of Hr with context [bcv_binop ?a ?b ?c ?d ?e ?x ?y] =>
        destruct (bcv_binop a b c d e x y) end; cbn in Hr; simplify_eq; done.
  - rewrite decide_False in Hr by done. unfold mul_self, slot_times in *. cbn [pop state_at stack slots names set_stack].
    destruct (is_heap (load_slot slot sc)); [done|].
    assert (self_mul cast_ub pow alloc_ok new_ptr (load_slot slot sc) b
      = self_mul cast_ub pow (fun _ => true) new_ptr (load_slot slot sc) b) as ->
      by (unfold self_mul; by rewrite bcv_binop_alloc).
    destruct (self_mul cast_ub pow (fun _ => true) new_ptr (load_slot slot sc) b);
      cbn in Hr; simplify_eq; done.
Qed.

Lemma computes_inc pool slot :
  computes pool [Instr BC_INC_LOCAL [slot]]
    (fun st sc => res_flow (eval_inc cast_ub pow new_ptr false slot sc) st).
Proof.
  one_op16. unfold eval_inc in Hr. destruct (in_scope slot sc) eqn:Hin; [|done].
  destruct (bcv_is_number _); [|done]. cbn [andb] in Hr. unfold inc_local.
  cbn [state_at slots]. rewrite Hin.
  assert (increment cast_ub pow alloc_ok new_ptr (load_slot slot sc)
    = increment cast_ub pow (fun _ => true) new_ptr (load_slot slot sc)) as ->
    by (unfold increment; by rewrite bcv_binop_alloc).
  destruct (increment _ _ _ _ _); cbn in Hr; simplify_eq; done.
Qed.

(** ** Jumps *)

Lemma code_at_len prog pos l : code_at prog pos l -> 0 <= pos.
Proof. intros (pre & post & _ & ->). apply zlen_nonneg. Qed.

Lemma step_jump prog pos op a st sc rs :
  code_at prog pos [Instr op [a]] -> instr_ok (Instr op [a]) -> operand_layout op = 2 ->
  rd32 prog (pos + 1) = a /\
  step prog (at_pos pos st sc rs) = exec_op prog op (at_pos (pos + 1) st sc rs).
Proof.
  intros Hc Hi Hl. split; [apply (rd32_at prog pos op); [done..|]; by apply (instr_ok32 op)|].
  by rewrite (step_instr _ _ _ _ _ _ prog (Instr op [a])).
Qed.

Lemma computes_keep pool jop l G :
  jop = BC_JUMP_IF_FALSE_KEEP \/ jop = BC_JUMP_IF_TRUE_KEEP \/ jop = BC_JUMP_IF_NOT_NULLISH ->
  computes pool l G ->
  computes pool (Instr jop [zlen (encode l)] :: l)
    (fun st sc => match st with
                  | v :: _ => if keeps jop v then Some (FNext st sc) else G st sc
                  | [] => None
                  end).
Proof.
  intros Hj HG prog ext pos st sc rs r Hp Hc Hi Hr. apply code_at_cons in Hc as [Hc1 Hc2].
  apply Forall_cons in Hi as [Hi1 Hi2]. destruct st as [|v st]; [done|].
  assert (operand_layout jop = 2 /\ bc_info_operands jop = 2) as [Hl Hl2] by (by destruct Hj as [-> |[-> | ->]]).
  rewrite zlen_instr32 in Hc2 by done. rewrite zlen_encode_jump by done.
  destruct (step_jump prog pos jop _ (v :: st) sc rs Hc1 Hi1 Hl) as [Hrd Hs].
  assert (step prog (at_pos pos (v :: st) sc rs)
    = Next (at_pos (if keeps jop v then pos + (5 + zlen (encode l)) else pos + 5) (v :: st) sc rs)) as Hn.
  { rewrite Hs. destruct Hj as [-> |[-> | ->]]; unfold Vm.exec_op; cbn [state_at ip];
      fold (at_pos (pos + 1) (v :: st) sc rs); rewrite Hrd, !jump_at; unfold jump_keep;
      cbn [state_at stack]; unfold keeps; case_if; unfold jump, state_at; cbn;
      do 2 f_equal; lia. }
  destruct (keeps jop v); [injection Hr as <-; by apply reach_one|].
  pose proof (HG prog ext (pos + 5) (v :: st) sc rs r Hp Hc2 Hi2 Hr) as H.
  apply reach_one in Hn. destruct r; [|by eapply reach_aborts].
  eapply reach_trans; [exact Hn|]. by rewrite Z.add_assoc.
Qed.

Lemma computes_branch pool lt le T E :
  computes pool lt T -> computes pool le E ->
  computes pool
    (Instr BC_JUMP_IF_FALSE [zlen (encode lt) + 5] :: lt ++ Instr BC_JUMP [zlen (encode le)] :: le)
    (fun st sc => match st with
                  | v :: st' => if lr_to_bool v then T st' sc else E st' sc
                  | [] => None
                  end).
Proof.
  intros HT HE prog ext pos st sc rs r Hp Hc Hi Hr. apply code_at_cons in Hc as [Hc1 Hc2].
  apply Forall_cons in Hi as [Hi1 Hi2]. apply code_at_app in Hc2 as [Hct Hc3].
  apply Forall_app in Hi2 as [Hit Hi3]. apply code_at_cons in Hc3 as [Hcj Hce].
  apply Forall_cons in Hi3 as [Hij Hie]. destruct st as [|v st]; [done|].
  rewrite !zlen_instr32 in * by done.
  rewrite zlen_encode_jump, zlen_encode_app, zlen_encode_jump by done.
  destruct (step_jump prog pos BC_JUMP_IF_FALSE _ (v :: st) sc rs Hc1 Hi1 eq_refl) as [Hrd Hs].
  assert (step prog (at_pos pos (v :: st) sc rs)
    = Next (at_pos (if lr_to_bool v then pos + 5 else pos + 5 + zlen (encode lt) + 5) st sc rs)) as Hn.
  { rewrite Hs. unfold Vm.exec_op. cbn [state_at ip]. fold (at_pos (pos + 1) (v :: st) sc rs).
    rewrite Hrd, jump_at. unfold jump_if. cbn [pop state_at stack].
    destruct (lr_to_bool v); unfold jump, set_stack, state_at; cbn; do 2 f_equal; lia. }
  apply reach_one in Hn. destruct (lr_to_bool v).
  - pose proof (HT prog ext _ st sc rs r Hp Hct Hit Hr) as H.
    destruct r as [st' sc'|]; [|by eapply reach_aborts].
    eapply reach_trans; [exact Hn|]. eapply reach_trans; [exact H|]. apply reach_one.
    destruct (step_jump prog _ BC_JUMP _ st' sc' rs Hcj Hij eq_refl) as [Hrd2 ->].
    unfold Vm.exec_op. cbn [state_at ip]. fold (at_pos (pos + 5 + zlen (encode lt) + 1) st' sc' rs).
    rewrite Hrd2, !jump_at. do 2 f_equal. lia.
  - pose proof (HE prog ext _ st sc rs r Hp Hce Hie Hr) as H.
    destruct r as [st' sc'|]; [|by eapply reach_aborts].
    eapply reach_trans; [exact Hn|].
    replace (pos + (5 + (zlen (encode lt) + (5 + zlen (encode le)))))
      with (pos + 5 + zlen (encode lt) + 5 + zlen (encode le)) by lia. exact H.
Qed.

(** ** Compiling *)

(** From [c] to [c'] code is emitted that computes [F]. *)
Definition sound (F : block) (c c' : BCComp) : Prop :=
  exists l, emits l c c' /\ (c_ok c' = true -> computes (pool_of c') l F).

Lemma sound_grows F c c' : sound F c c' -> grows c c'.
Proof. intros (l & H & _). by apply emits_grows in H. Qed.

Lemma sound_weaken (F G : block) c c' :
  (forall st sc r, G st sc = Some r -> F st sc = Some r) -> sound F c c' -> sound G c c'.
Proof.
  intros H (l & He & Hc). exists l. split; [done|]. intros Hok. eapply computes_weaken; eauto.
Qed.

Lemma computes_grows c c' l F : grows c c' -> computes (pool_of c) l F -> computes (pool_of c') l F.
Proof. intros [_ _ [ext E]] H. rewrite E. by apply computes_pool. Qed.

Lemma sound_then F G c1 c2 c3 : sound F c1 c2 -> sound G c2 c3 -> sound (then_ F G) c1 c3.
Proof.
  intros (l1 & E1 & C1) (l2 & E2 & C2). exists (l1 ++ l2).
  split; [by eapply emits_app|]. intros Hok. pose proof (emits_grows _ _ _ E2) as G2.
  apply computes_app; [|auto]. apply (computes_grows c2); [done|]. by apply C1, (gr_ok _ _ G2).
Qed.

(** A failed compilation emits nothing. *)
Lemma sound_dead F c : c_ok c = false -> sound F c c.
Proof.
  intros H. exists []. split; [|congruence]. split; [reflexivity|]. intros Hok. congruence.
Qed.

Lemma sound_emits l F c c' :
  emits l c c' -> (forall pool, computes pool l F) -> sound F c c'.
Proof. intros He Hc. exists l. auto. Qed.

Lemma sound_update F d c c' : sound F c c' -> sound F c (update_stack d c').
Proof. intros (l & He & Hc). exists l. split; [by apply emits_update|]. exact Hc. Qed.

Abbreviation emit_op op := (emit realloc_ok (op_byte op)).
Abbreviation emit_op16 op a c := (emit16 realloc_ok a (emit realloc_ok (op_byte op) c)).

Lemma pool_of_patch pos c : pool_of (patch_here pos c) = pool_of c.
Proof. unfold patch_here, patch_jump_to. by case_if. Qed.

Lemma sound_keep jop G c c2 :
  jop = BC_JUMP_IF_FALSE_KEEP \/ jop = BC_JUMP_IF_TRUE_KEEP \/ jop = BC_JUMP_IF_NOT_NULLISH ->
  sound G (emit_jump realloc_ok (op_byte jop) c).1 c2 ->
  sound (fun st sc => match st with
                      | v :: _ => if keeps jop v then Some (FNext st sc) else G st sc
                      | [] => None
                      end)
        c (patch_here (emit_jump realloc_ok (op_byte jop) c).2 c2).
Proof.
  intros Hj (l & He & Hc). eexists. split.
  - apply emits_forward; [by destruct Hj as [-> |[-> | ->]]|exact He].
  - rewrite patch_here_ok, pool_of_patch. intros Hok. by apply computes_keep; auto.
Qed.

Lemma sound_branch T E c c2 c3 :
  let j1 := emit_jump realloc_ok (op_byte BC_JUMP_IF_FALSE) c in
  let j2 := emit_jump realloc_ok (op_byte BC_JUMP) c2 in
  sound T j1.1 c2 -> sound E (patch_here j1.2 j2.1) c3 ->
  sound (fun st sc => match st with
                      | v :: st' => if lr_to_bool v then T st' sc else E st' sc
                      | [] => None
                      end)
        c (patch_here j2.2 c3).
Proof.
  intros j1 j2 (lt & Ht & Ct) (le & He & Ce). eexists. split.
  - exact (emits_branches realloc_ok BC_JUMP_IF_FALSE lt le c c2 c3 eq_refl Ht He).
  - rewrite patch_here_ok, pool_of_patch. intros Hok.
    assert (grows c2 c3) as G.
    { etransitivity; [apply grows_emit_jump|]. etransitivity; [apply grows_patch_here|].
      by eapply emits_grows. }
    apply computes_branch; [|auto]. apply (computes_grows c2); [done|]. by apply Ct, (gr_ok _ _ G).
Qed.

(** ** Constants *)

Lemma pool_find_at f l i :
  pool_find f l 0 = Some i -> 0 <= i /\ exists k, l !! Z.to_nat i = Some k /\ f k = true.
Proof.
  intros H. pose proof (pool_find_spec f l 0) as Hs. rewrite H in Hs.
  destruct Hs as (k & Hi & Hk & Hf & _). rewrite Z.sub_0_r in Hk. eauto.
Qed.

Lemma pool_str_const s c c' i :
  pool_add_str realloc_ok (Some s) c = (c', i) -> c_ok c' = true ->
  exists t h, pool_of c' !! Z.to_nat i = Some (PoolString t h) /\ cstr t = cstr s.
Proof.
  intros H Hok. destruct (pool_add_str_spec realloc_ok s c c' i H Hok) as [Hf _].
  apply pool_find_at in Hf as (_ & k & Hk & Hs). apply is_str_const_true in Hs as (t & h & -> & E).
  eauto.
Qed.

Lemma pool_f64_const bits c c' i :
  pool_add_f64 realloc_ok bits c = (c', i) -> c_ok c' = true ->
  exists b, pool_of c' !! Z.to_nat i = Some (PoolFloat64 b) /\
    (b = bits \/ f64_eqb (f64_of_bits b) (f64_of_bits bits) = true).
Proof.
  unfold pool_add_f64. destruct (c_ok c) eqn:Hc; [|cbn; intros; simplify_eq; congruence].
  cbn [negb]. destruct (pool_reserve_spec realloc_ok c) as (Hp & Hf).
  destruct (pool_reserve realloc_ok c) as [c1 ok1]. cbn [fst snd] in *.
  destruct ok1; cbn [negb]; [|intros [= <- <-]; rewrite Hf by done; done].
  destruct (pool_find _ _ _) as [j|] eqn:E.
  - intros [= <- <-] _. apply pool_find_at in E as (_ & k & Hk & Hs). unfold is_f64_const in Hs.
    destruct k; try done. eauto.
  - unfold pool_push. intros [= <- <-] _. exists bits. split; [|by left].
    assert (forall x, pool_of (if zlen (p_pool (c_p c1)) >? 65535 then with_ok false x else x)
                      = pool_of x) as -> by (intros; by case_if).
    unfold pool_of, zlen. cbn. rewrite Nat2Z.id. by apply list_lookup_middle.
Qed.

Lemma grows_op16 op a c : grows c (emit_op16 op a c).
Proof. etransitivity; [apply grows_emit|apply grows_emit16]. Qed.

Lemma sound_push_string s c :
  sound (pushes (lr_new_string s)) c (emit_push_string realloc_ok s c).
Proof.
  unfold emit_push_string. destruct (pool_add_str realloc_ok (Some s) c) as [c1 idx] eqn:E.
  apply sound_update. exists [Instr BC_PUSH_STRING [idx]]. split.
  - change ([Instr BC_PUSH_STRING [idx]]) with ([] ++ [Instr BC_PUSH_STRING [idx]]).
    apply (emits_app _ _ c c1).
    + pose proof (grows_add_str realloc_ok (Some s) c) as G. rewrite E in G.
      apply emits_nil; [exact G|]. pose proof (view_add_str realloc_ok (Some s) c) as V. by rewrite E in V.
    + by apply emits_op16.
  - intros Hok. pose proof (grows_op16 BC_PUSH_STRING idx c1) as G.
    apply (computes_grows c1); [done|].
    destruct (pool_str_const s c c1 idx E (gr_ok _ _ G Hok)) as (t & h & Hk & Ht).
    apply computes_pool_const; [by right|]. rewrite Hk. unfold lr_new_string. by rewrite Ht.
Qed.

Lemma f64_eqb_same x y :
  f64_eqb x y = true -> x = y \/ exists a b, x = S754_zero a /\ y = S754_zero b.
Proof. unfold f64_eqb. rewrite SFeqb_class. intros [_ H]. by apply class_inj. Qed.

Lemma int_literal_zero s : int_literal cast_ub (S754_zero s) = true.
Proof. by destruct s. Qed.

Lemma sound_push_f64 bits c :
  int_literal cast_ub (f64_of_bits bits) = false ->
  sound (pushes (JFloat64 (f64_of_bits bits))) c (emit_push_f64 realloc_ok bits c).
Proof.
  intros Hi. unfold emit_push_f64. destruct (pool_add_f64 realloc_ok bits c) as [c1 idx] eqn:E.
  apply sound_update. exists ([] ++ [Instr BC_PUSH_FLOAT64 [idx]]). split.
  - apply (emits_app _ _ c c1); [|by apply emits_op16].
    pose proof (grows_add_f64 realloc_ok bits c) as G. rewrite E in G.
    apply emits_nil; [exact G|]. pose proof (view_add_f64 realloc_ok bits c) as V. by rewrite E in V.
  - intros Hok. pose proof (grows_op16 BC_PUSH_FLOAT64 idx c1) as G.
    apply (computes_grows c1); [done|].
    destruct (pool_f64_const bits c c1 idx E (gr_ok _ _ G Hok)) as (b & Hk & Hb).
    apply computes_pool_const; [by left|]. rewrite Hk. f_equal.
    destruct Hb as [->|Hb]; [done|].
    apply f64_eqb_same in Hb as [->|(a & a' & _ & E')]; [done|].
    by rewrite E', int_literal_zero in Hi.
Qed.

Lemma sound_const op v c :
  bc_info_operands op = 0 -> op <> BC_LOAD_PROP_ADD ->
  match op with
  | BC_PUSH_UNDEFINED => v = JUndefined
  | BC_PUSH_NULL => v = JNull
  | BC_PUSH_TRUE => v = JBool true
  | BC_PUSH_FALSE => v = JBool false
  | _ => False
  end -> sound (pushes v) c (emit_op op c).
Proof.
  intros H1 H2 H3. eapply sound_emits; [by apply emits_op|]. intros pool. by apply computes_const.
Qed.

Context (info : scope_info) (node_addr : ASTNode -> Z).

Lemma sound_literal n l v c :
  literal_value cast_ub l = Some v ->
  sound (pushes v) c (cliteral realloc_ok cast_ub node_addr n l c).
Proof.
  intros H. destruct l as [bits|s|b| | |]; cbn [cliteral literal_value] in *; simplify_eq.
  - unfold emit_push_number. destruct (int_literal cast_ub (f64_of_bits bits)) eqn:Hi.
    + apply sound_update. eapply sound_emits; [apply emits_op32; [done|]|intros; apply computes_int32].
      pose proof (cast_int32_range cast_ub cast_range (f64_of_bits bits)) as Hr.
      apply in_int32_spec in Hr. unfold INT32_MIN, INT32_MAX in Hr. lia.
    + by apply sound_push_f64.
  - apply sound_push_string.
  - by destruct b; apply sound_const.
  - by apply sound_const.
  - by apply sound_const.
Qed.

Abbreviation cexpr := (cexpr realloc_ok cast_ub info node_addr).
Abbreviation eval := (eval cast_ub pow new_ptr info).
Abbreviation emit_name_op := (emit_name_op realloc_ok info).

Definition block_of (n : ASTNode) : block := fun st sc => res_flow (eval n sc) st.

(** ** Names that are slots *)

Lemma sound_load name slot c :
  local_slot info name = Some slot ->
  sound (fun st sc => Some (FNext (load_slot slot sc :: st) sc)) c (emit_name_op BC_LOAD_VAR name c).
Proof.
  intros H. unfold Compile.emit_name_op. rewrite decide_True by auto. rewrite H.
  rewrite decide_True by auto. apply sound_update.
  eapply sound_emits; [by apply emits_op16|]. intros. apply computes_load.
Qed.

Lemma sound_store name slot c :
  local_slot info name = Some slot ->
  sound (fun st sc => match st with
                      | v :: st' => Some (FNext st' (store_slot slot v sc))
                      | [] => None
                      end) c (emit_name_op BC_STORE_VAR name c).
Proof.
  intros H. unfold Compile.emit_name_op. rewrite decide_True by auto. rewrite H.
  rewrite decide_False by done. apply sound_update.
  eapply sound_emits; [by apply emits_op16|]. intros. apply computes_store.
Qed.

(** [DUP; STORE]: the value stays on the stack. *)
Lemma sound_dup_store name slot c :
  local_slot info name = Some slot ->
  sound (fun st sc => match st with
                      | v :: st' => Some (FNext st (store_slot slot v sc))
                      | [] => None
                      end) c (emit_name_op BC_STORE_VAR name (emit_op BC_DUP c)).
Proof.
  intros H. eapply sound_weaken; [|eapply sound_then; [|by apply sound_store]].
  2: { eapply sound_emits; [by apply emits_op|]. intros. apply computes_dup. }
  intros st sc r. unfold then_. by destruct st.
Qed.

Lemma sound_op op F c :
  bc_info_operands op = 0 -> op <> BC_LOAD_PROP_ADD ->
  (forall pool, computes pool [Instr op []] F) -> sound F c (emit_op op c).
Proof. intros H1 H2 H3. eapply sound_emits; [by apply emits_op|exact H3]. Qed.

Lemma sound_binop op c :
  is_binop op = true ->
  sound (fun st sc => match st with
                      | b :: a :: st' => out_flow (binop cast_ub pow new_ptr op a b) st' sc
                      | _ => None
                      end) c (emit_op op c).
Proof.
  intros H. apply sound_op; [by destruct op|by intros ->|]. intros. by apply computes_binop.
Qed.

Lemma binop_of_is_binop op bop : binop_of op = Some bop -> is_binop bop = true.
Proof.
  unfold binop_of. assert (forall t, Forall (fun p => is_binop p.2 = true) t ->
    lookup_op op t = Some bop -> is_binop bop = true) as H.
  { induction 1 as [|[s b] t Hb _ IH]; cbn; [done|]. case_if; [by intros [= <-]|done]. }
  apply H. repeat constructor.
Qed.

(** ** Increments *)

Lemma sound_inc prefix name slot c :
  local_slot info name = Some slot ->
  sound (fun st sc => res_flow (eval_inc cast_ub pow new_ptr prefix slot sc) st) c
        (cincdec_ident realloc_ok info true prefix name c).
Proof.
  intros H. unfold cincdec_ident. rewrite H.
  assert (sound (fun st sc => res_flow (eval_inc cast_ub pow new_ptr false slot sc) st) c
            (emit_op16 BC_INC_LOCAL slot c)) as Hi.
  { eapply sound_emits; [by apply emits_op16|]. intros. apply computes_inc. }
  destruct prefix; [|by apply sound_update]. apply sound_update.
  eapply sound_weaken; [|eapply sound_then; [exact Hi|eapply sound_then;
    [apply (sound_op BC_POP); [done..|apply computes_pop]
    |eapply sound_emits; [by apply emits_op16|intros; apply computes_load]]]].
  intros st sc r. unfold then_, eval_inc.
  destruct (in_scope slot sc) eqn:Hin; [|done]. destruct (bcv_is_number _); [|done]. cbn [andb].
  destruct (increment _ _ _ _ _) as [v| | |]; cbn; try done.
  rewrite load_store_same; [done|by apply local_slot_range in H as [? _]|done].
Qed.

Lemma sound_dec prefix name slot c :
  local_slot info name = Some slot ->
  sound (fun st sc => res_flow (eval_dec cast_ub pow new_ptr prefix slot sc) st) c
        (cincdec_ident realloc_ok info false prefix name c).
Proof.
  intros H. unfold cincdec_ident, op_push_one.
  assert (forall c, sound (pushes (JInt32 1)) c (emit32 realloc_ok 1 (emit_op BC_PUSH_INT32 c))) as H1.
  { intros. eapply sound_emits; [by apply emits_op32|]. intros. apply computes_int32. }
  pose proof (fun c => sound_op BC_POS _ c eq_refl ltac:(done) (fun pool => computes_unop pool BC_POS I))
    as Hpos.
  pose proof (fun c => sound_op BC_DUP _ c eq_refl ltac:(done) computes_dup) as Hdup.
  destruct prefix; (eapply sound_weaken; [|eapply sound_then; [by apply sound_load|
      eapply sound_then; [apply Hpos|]]]).
  2: { eapply sound_then; [apply H1|]. eapply sound_then; [by apply (sound_binop BC_SUB)|].
       by apply sound_dup_store. }
  3: { eapply sound_then; [apply Hdup|]. eapply sound_then; [apply H1|].
       eapply sound_then; [by apply (sound_binop BC_SUB)|]. by apply sound_store. }
  all: intros st sc r; unfold then_, eval_dec, pushes; cbn [vm_unop mbind option_bind];
    destruct (binop cast_ub pow new_ptr BC_SUB _ _) as [v| | |]; done.
Qed.

(** ** Expressions *)

Lemma cexpr_dead n c : c_ok c = false -> cexpr n c = c.
Proof. intros H. destruct n; cbn [Compile.cexpr]; by rewrite H. Qed.

Lemma cleaf_dead n c : c_ok c = false -> cleaf realloc_ok cast_ub info node_addr n c = c.
Proof. intros H. unfold cleaf. by rewrite H. Qed.

Lemma sound_short jop l r c :
  jop = BC_JUMP_IF_FALSE_KEEP \/ jop = BC_JUMP_IF_TRUE_KEEP \/ jop = BC_JUMP_IF_NOT_NULLISH ->
  (forall c, sound (block_of l) c (cexpr l c)) -> (forall c, sound (block_of r) c (cexpr r c)) ->
  let j := emit_jump realloc_ok (op_byte jop) (cexpr l c) in
  sound (fun st sc => res_flow (bind_res (eval l sc) (fun v sc1 =>
           if keeps jop v then Some (RVal v sc1) else eval r sc1)) st)
        c (patch_here j.2 (cexpr r (emit_op BC_POP j.1))).
Proof.
  intros Hj Hl Hr j. eapply sound_weaken; [|eapply sound_then; [apply Hl|apply sound_keep; [exact Hj|]]].
  2: { eapply sound_then; [apply (sound_op BC_POP); [done..|apply computes_pop]|apply Hr]. }
  intros st sc res. unfold then_, block_of. destruct (eval l sc) as [[v sc1|m]|]; cbn; try done.
  by destruct (keeps jop v).
Qed.

Lemma sound_conditional cnd t e c :
  (forall c, sound (block_of cnd) c (cexpr cnd c)) -> (forall c, sound (block_of t) c (cexpr t c)) ->
  (forall c, sound (block_of e) c (cexpr e c)) ->
  let j1 := emit_jump realloc_ok (op_byte BC_JUMP_IF_FALSE) (cexpr cnd c) in
  let j2 := emit_jump realloc_ok (op_byte BC_JUMP) (cexpr t j1.1) in
  sound (fun st sc => res_flow (bind_res (eval cnd sc) (fun v sc1 =>
           if lr_to_bool v then eval t sc1 else eval e sc1)) st)
        c (patch_here j2.2 (cexpr e (patch_here j1.2 j2.1))).
Proof.
  intros Hc Ht He j1 j2. eapply sound_weaken; [|eapply sound_then; [apply Hc|]].
  2: { apply (sound_branch (block_of t) (block_of e)); [apply Ht|apply He]. }
  intros st sc res. unfold then_, block_of. destruct (eval cnd sc) as [[v sc1|m]|]; cbn; try done.
  by destruct (lr_to_bool v).
Qed.

(** The operand of a fused assignment leaves the slot alone. *)
Lemma sound_self sop slot e c :
  0 <= slot -> sop = BC_ADD_SELF \/ sop = BC_MUL_SELF -> assigns info slot e = false ->
  sound (block_of e) c (cexpr e c) ->
  sound (fun st sc => res_flow (bind_res (eval e sc)
                        (self_update sop slot (load_slot slot sc))) st)
        c (update_stack 0 (emit_op16 sop slot (cexpr e c))).
Proof.
  intros Hs Hsop Ha He. apply sound_update.
  eapply sound_weaken; [|eapply sound_then; [exact He|eapply sound_emits;
    [apply emits_op16; by destruct Hsop as [-> | ->]|intros; by apply computes_self]]].
  intros st sc res. unfold then_, block_of.
  pose proof (eval_keeps cast_ub pow new_ptr info slot e sc Hs Ha) as Hk.
  destruct (eval e sc) as [[v sc1|m]|]; cbn in *; try done. by destruct Hk as [_ ->].
Qed.

(** An expression whose value is stored. *)
Lemma sound_assign name slot n c c' :
  local_slot info name = Some slot -> sound (fun st sc => res_flow (n sc) st) c c' ->
  sound (fun st sc => res_flow (store_res slot (n sc)) st) c
        (emit_name_op BC_STORE_VAR name (emit_op BC_DUP c')).
Proof.
  intros H Hn. eapply sound_weaken; [|eapply sound_then; [exact Hn|by apply sound_dup_store]].
  intros st sc r. unfold then_, store_res. by destruct (n sc) as [[v sc1|m]|].
Qed.

Lemma short_circuit_ops op jop :
  short_circuit op = Some jop ->
  jop = BC_JUMP_IF_FALSE_KEEP \/ jop = BC_JUMP_IF_TRUE_KEEP \/ jop = BC_JUMP_IF_NOT_NULLISH.
Proof. unfold short_circuit. repeat case_if; intros [= <-]; auto. Qed.

Lemma unop_of_ops op prefix uop :
  unop_of op prefix = Some uop ->
  match uop with BC_NEG | BC_POS | BC_NOT | BC_BIT_NOT | BC_TYPEOF | BC_VOID => True | _ => False end.
Proof. unfold unop_of. repeat case_if; by intros [= <-]. Qed.

Lemma sound_unop uop e c c' :
  match uop with BC_NEG | BC_POS | BC_NOT | BC_BIT_NOT | BC_TYPEOF | BC_VOID => True | _ => False end ->
  sound (block_of e) c c' ->
  sound (fun st sc => res_flow (bind_res (eval e sc) (eval_unop cast_ub uop)) st) c (emit_op uop c').
Proof.
  intros Hu He. eapply sound_weaken; [|eapply sound_then; [exact He|apply sound_op;
    [by destruct uop|by intros ->|intros; by apply computes_unop]]].
  intros st sc r. unfold then_, block_of, eval_unop.
  destruct (eval e sc) as [[v sc1|m]|]; cbn; try done. by destruct (vm_unop cast_ub uop v).
Qed.

Lemma sound_binary bop l r c :
  is_binop bop = true ->
  (forall c, sound (block_of l) c (cexpr l c)) -> (forall c, sound (block_of r) c (cexpr r c)) ->
  sound (fun st sc => res_flow (bind_res (eval l sc) (fun a sc1 => bind_res (eval r sc1) (fun b sc2 =>
           of_out (binop cast_ub pow new_ptr bop a b) sc2))) st)
        c (emit_op bop (cexpr r (cexpr l c))).
Proof.
  intros Hb Hl Hr. eapply sound_weaken;
    [|eapply sound_then; [apply Hl|eapply sound_then; [apply Hr|by apply sound_binop]]].
  intros st sc res. unfold then_, block_of.
  destruct (eval l sc) as [[a sc1|m]|]; cbn; try done.
  destruct (eval r sc1) as [[b sc2|m]|]; cbn; try done.
  by destruct (binop cast_ub pow new_ptr bop a b).
Qed.

(** [x op= e] without fusion: the old value waits on the stack. *)
Lemma sound_compound name slot bop e c :
  local_slot info name = Some slot -> is_binop bop = true ->
  (forall c, sound (block_of e) c (cexpr e c)) ->
  sound (fun st sc => res_flow (store_res slot (bind_res (eval e sc) (fun b sc1 =>
           of_out (binop cast_ub pow new_ptr bop (load_slot slot sc) b) sc1))) st)
        c (emit_name_op BC_STORE_VAR name
             (emit_op BC_DUP (emit_op bop (cexpr e (emit_name_op BC_LOAD_VAR name c))))).
Proof.
  intros H Hb He. apply (sound_assign name slot (fun sc => bind_res (eval e sc) _)); [done|].
  eapply sound_weaken; [|eapply sound_then; [by apply sound_load|eapply sound_then;
    [apply He|by apply sound_binop]]].
  intros st sc r. unfold then_, block_of. destruct (eval e sc) as [[b sc1|m]|]; cbn; try done.
  by destruct (binop cast_ub pow new_ptr bop (load_slot slot sc) b).
Qed.

Lemma compound_base_binop op bop : compound_base op = Some bop -> is_binop bop = true.
Proof. unfold compound_base. case_if; [|done]. apply binop_of_is_binop. Qed.

Lemma fused_self_ops bop sop :
  fused_self_op bop = Some sop -> sop = BC_ADD_SELF \/ sop = BC_MUL_SELF.
Proof. destruct bop; try done; intros [= <-]; auto. Qed.

(** Expressions of a sequence after the first. *)
Fixpoint rest_code (l : list ASTNode) (c : BCComp) : BCComp :=
  match l with
  | [] => c
  | e :: l' => rest_code l' (cexpr e (emit_op BC_POP c))
  end.

Fixpoint rest_eval (l : list ASTNode) (r : option res) : option res :=
  match l with
  | [] => r
  | e :: l' => rest_eval l' (bind_res r (fun _ sc1 => eval e sc1))
  end.

Lemma rest_eval_none l : rest_eval l None = None.
Proof. by induction l. Qed.
Lemma rest_eval_exn l m : rest_eval l (Some (RExn m)) = Some (RExn m).
Proof. by induction l. Qed.

Lemma sound_rest l c c' (E : list LRValue -> option res) :
  Forall (fun e => forall c, sound (block_of e) c (cexpr e c)) l ->
  sound (fun st sc => res_flow (E sc) st) c c' ->
  sound (fun st sc => res_flow (rest_eval l (E sc)) st) c (rest_code l c').
Proof.
  intros Hl. revert c' E. induction Hl as [|e l He _ IH]; intros c' E HE; [exact HE|].
  cbn [rest_code rest_eval]. apply (IH _ (fun sc => bind_res (E sc) (fun _ sc1 => eval e sc1))).
  eapply sound_weaken; [|eapply sound_then; [exact HE|eapply sound_then;
    [apply (sound_op BC_POP); [done..|apply computes_pop]|apply He]]].
  intros st sc r. unfold then_, block_of. by destruct (E sc) as [[v sc1|m]|].
Qed.

Ltac alive Hc :=
  cbn [Compile.cexpr]; rewrite Hc; cbn [negb].

Lemma cexpr_assign_sound op name v c :
  supported info (AST_ASSIGN (Some op) (AST_IDENTIFIER (Some name)) v) = true -> c_ok c = true ->
  (forall c, sound (block_of v) c (cexpr v c)) ->
  (forall vop l r, v = AST_BINARY vop l r -> supported info r = true ->
     forall c, sound (block_of r) c (cexpr r c)) ->
  sound (block_of (AST_ASSIGN (Some op) (AST_IDENTIFIER (Some name)) v)) c
        (cexpr (AST_ASSIGN (Some op) (AST_IDENTIFIER (Some name)) v) c).
Proof.
  intros Hs Hc Hv Hr. cbn [supported] in Hs. alive Hc. unfold block_of. cbn [Eval.eval].
  destruct (local_slot info name) as [slot|] eqn:Hslot; [|done]. cbn [andb mbind option_bind] in *.
  pose proof (local_slot_range info name slot Hslot) as Hrange.
  apply andb_prop in Hs as [Hs Hs2]. destruct (str_eqb op "=").
  - destruct v as [| | |vop l r| | | | |]; try (apply sound_assign; [done|apply Hv]; fail).
    destruct (str_eqb vop "+" && is_ident l name) eqn:Hf; [|apply sound_assign; [done|apply Hv]].
    cbn [negb orb] in Hs2. apply negb_true_iff in Hs2.
    cbn [supported] in Hs. apply andb_prop in Hs as [Hs _]. apply andb_prop in Hs as [_ Hs].
    apply sound_self; [lia|by left|done|]. by eapply Hr.
  - destruct (lookup_op op js_assignment) as [bop|] eqn:Hb; [|done]. apply js_assignment_op in Hb.
    rewrite Hb. cbn [mbind option_bind].
    destruct (fused_self_op bop) as [sop|] eqn:Hf.
    + apply negb_true_iff in Hs2.
      apply sound_self; [lia|by eapply fused_self_ops|done|]. apply Hv.
    + apply (sound_compound name slot); [done|by eapply compound_base_binop|done].
Qed.

Lemma cexpr_sound n :
  supported info n = true -> forall c, sound (block_of n) c (cexpr n c).
Proof.
  induction n as [|l|[name|]|op l r IHl IHr|op prefix arg IH|cnd t e IHc IHt IHe
    |op t v _ IH IHr|es IH|id] using node_ind_right; intros Hs c;
    (destruct (c_ok c) eqn:Hc; [|rewrite cexpr_dead by done; by apply sound_dead]).
  - alive Hc. unfold cleaf. rewrite Hc. by apply (sound_const BC_PUSH_UNDEFINED).
  - alive Hc. unfold cleaf. rewrite Hc. cbn [negb]. unfold block_of. cbn [Eval.eval].
    destruct (literal_value cast_ub l) as [v|] eqn:El; [|by destruct l].
    eapply sound_weaken; [|by apply sound_literal]. done.
  - alive Hc. unfold cleaf. rewrite Hc. cbn [negb supported] in *.
    destruct (local_slot info name) as [slot|] eqn:E; [|done].
    unfold block_of. cbn [Eval.eval]. rewrite E. by apply sound_load.
  - alive Hc. unfold cleaf. rewrite Hc. by apply (sound_const BC_PUSH_UNDEFINED).
  - cbn [supported] in Hs. apply andb_prop in Hs as [Hs Hs3]. apply andb_prop in Hs as [Hs1 Hs2].
    alive Hc. unfold block_of. cbn [Eval.eval].
    rewrite js_short_jump, js_binary_op in *. destruct (short_circuit op) as [jop|] eqn:Hj.
    { cbn [fmap option_fmap option_map]. rewrite (surjective_pairing (emit_jump _ _ _)).
      apply sound_short; [by eapply short_circuit_ops|auto..]. }
    destruct (binop_of op) as [bop|] eqn:Hb; [|done]. cbn [mbind option_bind].
    destruct (cse_match op l r); [done|]. apply sound_binary; [by eapply binop_of_is_binop|auto..].
  - destruct op as [op|]; [|done]. cbn [supported] in Hs. alive Hc. unfold block_of. cbn [Eval.eval].
    destruct (str_eqb op "++" || str_eqb op "--") eqn:Hi.
    { destruct arg as [| |[name|]| | | | | |]; try done.
      destruct (local_slot info name) as [slot|] eqn:E; [|done]. cbn [mbind option_bind].
      destruct (str_eqb op "++"); [by apply sound_inc|by apply sound_dec]. }
    destruct (str_eqb op "typeof").
    { destruct arg as [| |[name|]| | | | | |]; try done; apply sound_unop; try done; by apply IH. }
    destruct (str_eqb op "delete"); [done|].
    destruct (lookup_op op js_unary) as [uop|] eqn:Hu; [|done]. apply js_unary_op in Hu.
    destruct prefix; [|done]. rewrite Hu. cbn [mbind option_bind]. apply sound_unop; [by eapply unop_of_ops|by apply IH].
  - cbn [supported] in Hs. apply andb_prop in Hs as [Hs Hs3]. apply andb_prop in Hs as [Hs1 Hs2].
    alive Hc. unfold block_of. cbn [Eval.eval].
    rewrite (surjective_pairing (emit_jump realloc_ok (op_byte BC_JUMP_IF_FALSE) _)).
    rewrite (surjective_pairing (emit_jump realloc_ok (op_byte BC_JUMP) _)).
    apply sound_conditional; auto.
  - destruct op as [op|]; [|done]. destruct t as [| |[name|]| | | | | |]; try done.
    assert (supported info v = true) as Hv.
    { cbn [supported] in Hs. apply andb_prop in Hs as [Hs _]. by apply andb_prop in Hs as [_ ?]. }
    apply cexpr_assign_sound; auto.
  - destruct es as [|e l]; alive Hc; [by apply (sound_const BC_PUSH_UNDEFINED)|].
    cbn [supported forallb] in Hs. apply andb_prop in Hs as [Hs1 Hs2].
    inversion_clear IH as [|? ? He Hl]. apply (sound_rest l c (cexpr e c) (fun sc => eval e sc)).
    + rewrite forallb_forall in Hs2. rewrite Forall_forall in Hl |- *.
      intros x Hx. apply Hl; [done|]. apply Hs2. by apply list_elem_of_In.
    + by apply He.
  - done.
Qed.

(** The emitted code of a whole program, from an empty one. *)
Lemma emits_program l p c :
  p_code p = [] -> emits l (comp_init p) c -> c_ok c = true -> here c < 2 ^ 31 ->
  code_of c = encode l /\ Forall instr_ok l.
Proof.
  intros Hp [_ H] Hok Hh. destruct (H Hok Hh) as [_ T].
  destruct (T [] (comp_init_tracked p Hp) I) as [Hi Hcode _ _].
  rewrite app_nil_r in *. rewrite rev_involutive in Hcode. split; [done|].
  apply Forall_rev in Hi. by rewrite rev_involutive in Hi.
Qed.

Definition result_of (r : res) : vm_result :=
  match r with RVal v sc => Finished v sc | RExn m => Aborted (Some m) end.

(** The last two instructions: the value on the stack is the result. *)
Lemma epilogue_runs prog s pos v sc :
  code_at prog pos [Instr BC_SET_RESULT []; Instr BC_STOP []] ->
  reach prog s (at_pos pos [v] sc JUndefined) ->
  exists fuel, run prog fuel s = Some (Finished v sc).
Proof.
  intros Hat Hx. apply code_at_cons in Hat as [Ha Hb].
  change (zlen (encode_instr (Instr BC_SET_RESULT []))) with 1 in Hb.
  apply (reach_run _ _ _ _ _ _ prog s (at_pos (pos + 1) [] sc v)); [|exact (step_instr _ _ _ _ _ _ prog _ (at_pos (pos + 1) [] sc v) Hb)|done].
  eapply reach_trans; [exact Hx|]. apply reach_one.
  exact (step_instr _ _ _ _ _ _ prog _ (at_pos pos [v] sc JUndefined) Ha).
Qed.

Lemma bc_compile_expr_runs p n sc r :
  p_code p = [] -> supported info n = true ->
  let prog := bc_compile_expr realloc_ok cast_ub info node_addr p n in
  p_compiled prog = 1 -> zlen (p_code prog) < 2 ^ 31 -> eval n sc = Some r ->
  exists fuel, bc_execute cast_ub pow alloc_ok grow_ok new_ptr sole prog fuel nm sc = Some (result_of r).
Proof.
  intros Hp Hs prog Hok Hh Hr. set (c0 := comp_init p) in *.
  destruct (cexpr_sound n Hs c0) as (l & He & Hc). set (c1 := cexpr n c0) in *.
  set (c2 := emit_op BC_SET_RESULT c1). set (c3 := emit_op BC_STOP c2).
  assert (c_ok c3 = true) as Hok3 by (change (p_compiled prog) with (if c_ok c3 then 1 else 0) in Hok;
    by destruct (c_ok c3)).
  pose proof (emits_app [_] [_] c1 c2 c3
    (emits_op realloc_ok BC_SET_RESULT c1 eq_refl ltac:(done))
    (emits_op realloc_ok BC_STOP c2 eq_refl ltac:(done))) as H23.
  destruct (emits_program _ p c3 Hp (emits_app _ _ _ _ _ He H23) Hok3 Hh) as [Hcode Hi].
  assert (code_at prog 0 (l ++ [Instr BC_SET_RESULT []; Instr BC_STOP []])) as Hat.
  { exists [], []. split; [|done]. rewrite app_nil_r. exact Hcode. }
  assert ((zlen (p_code prog) =? 0) || (p_compiled prog =? 0) = false) as Hrun.
  { rewrite Hok. change (p_code prog) with (code_of c3). rewrite Hcode.
    change ([Instr BC_SET_RESULT []] ++ [Instr BC_STOP []]) with [Instr BC_SET_RESULT []; Instr BC_STOP []].
    rewrite zlen_encode_app. change (zlen (encode [Instr BC_SET_RESULT []; Instr BC_STOP []])) with 2.
    pose proof (zlen_nonneg (encode l)). apply orb_false_intro; [apply Z.eqb_neq; lia|done]. }
  apply code_at_app in Hat as [Hatl Hat2]. apply Forall_app in Hi as [Hil _].
  destruct (gr_pool _ _ (emits_grows _ _ _ H23)) as [ext Hext].
  pose proof (Hc (gr_ok _ _ (emits_grows _ _ _ H23) Hok3) prog ext 0 [] sc JUndefined) as Hx.
  specialize (Hx (match r with RVal v sc' => FNext [v] sc' | RExn m => FExn m end) Hext Hatl Hil).
  unfold block_of in Hx. rewrite Hr in Hx. rewrite Z.add_0_l in *.
  unfold bc_execute. rewrite Hrun. fold (at_pos 0 [] sc JUndefined). destruct r as [v sc'|m].
  - by eapply epilogue_runs; [exact Hat2|exact (Hx eq_refl)].
  - destruct (Hx eq_refl) as (s' & Hs' & Hst). by eapply reach_run.
Qed.

End Correctness.
