(* ===== verification/StmtOk.v ===== *)
(** Correctness of the statement compiler: the code [cstmt] emits, run by the
    loop of [Vm], does what executing the statement does.  Inside a loop the
    jumps of [break] and [continue] are pending; [runs] says what the code does
    for any targets they may get. *)

From stdpp Require Import base list strings.
From Stdlib Require Import ZArith Lia SpecFloat.
From S2P Require Import Prelude.
From S2P Require Import BcProgram.
From S2P Require Import BcEmit.
From S2P Require Import F64.
From S2P Require Import NumText.
From S2P Require Import JsOps.
From S2P Require Import JsLaws.
From S2P Require Import Vm.
From S2P Require Import VmCode.
From S2P Require Import Emits.
From S2P Require Import Jumps.
From S2P Require Import Compile.
From S2P Require Import Stmt.
From S2P Require Import Eval.
From S2P Require Import StmtEval.
From S2P Require Import CompileOk.

(** ** The loops around a statement *)

Definition tag (lp : BCLoop) : bool * option (list Z) := (lp_is_switch lp, lp_label lp).

(** The loops got the pending jumps of [hl], emitted from [pos]. *)
Record loops_grow (pos : Z) (hl : list hinstr) (L L' : list BCLoop) : Prop := {
  lg_tags : map tag L' = map tag L;
  lg_brk : forall k, lp_brk <$> L' !! k = (fun lp => lp_brk lp ++ holes pos hl false k) <$> L !! k;
  lg_cont : forall k, lp_cont <$> L' !! k = (fun lp => lp_cont lp ++ holes pos hl true k) <$> L !! k
}.

Lemma find_target_tags l nl L L' : map tag L' = map tag L -> find_target l nl L' = find_target l nl L.
Proof.
  revert L. induction L' as [|lp' L' IH]; intros [|lp L]; try done. cbn [map find_target].
  intros [= Hs Hl HL]. by rewrite Hs, Hl, (IH L HL).
Qed.

Lemma loops_grow_app pos hl1 hl2 L L1 L2 :
  loops_grow pos hl1 L L1 -> loops_grow (pos + hsize hl1) hl2 L1 L2 ->
  loops_grow pos (hl1 ++ hl2) L L2.
Proof.
  intros [T1 B1 C1] [T2 B2 C2]. split; [congruence|..]; intros k; rewrite holes_app.
  - rewrite B2. specialize (B1 k). destruct (L1 !! k), (L !! k); try done. cbn in *.
    injection B1 as ->. by rewrite app_assoc.
  - rewrite C2. specialize (C1 k). destruct (L1 !! k), (L !! k); try done. cbn in *.
    injection C1 as ->. by rewrite app_assoc.
Qed.

Lemma loops_grow_length pos hl L L' : loops_grow pos hl L L' -> length L' = length L.
Proof. intros [T _ _]. by rewrite <- (length_map tag L'), T, length_map. Qed.

Lemma loops_grow_HI pos l L : loops_grow pos (map HI l) L L.
Proof.
  split; [done|..]; intros k; rewrite holes_HI; destruct (L !! k); cbn; by rewrite ?app_nil_r.
Qed.

Lemma find_target_mine lp L l nl :
  lp_is_switch lp = false ->
  find_target l nl (lp :: L) = if mine (lp_label lp) l then Some 0%nat else S <$> find_target l nl L.
Proof.
  intros H. cbn [find_target]. rewrite H. destruct l as [l|]; cbn [mine]; [done|].
  by rewrite orb_true_r.
Qed.

Section Correctness.

Context (realloc_ok calloc_ok : Z -> alloc_result) (cast_ub : f64 -> Z) (pow : f64 -> f64 -> f64).
Context (alloc_ok grow_ok : Z -> alloc_result) (new_ptr : option Z).
Context (sole : vm -> nat -> bool).

Hypothesis cast_range : forall d, in_int32 (cast_ub d) = true.
Hypothesis alloc_all : forall n, alloc_ok n = true.

(** The slot table at the end of hoisting, and the scope's names. *)
Context (nm : list (list Z)) (info : scope_info).
Context (node_addr : ASTNode -> Z) (stmt_addr : Stmt -> Z) (fuel : nat).
Hypothesis slots_named :
  forall name slot, local_slot info name = Some slot -> find_name name nm 0 = Some slot.

Abbreviation at_pos := (state_at nm).
Abbreviation step := (step cast_ub pow alloc_ok grow_ok new_ptr sole).
Abbreviation reach := (reach cast_ub pow alloc_ok grow_ok new_ptr sole).
Abbreviation aborts := (aborts cast_ub pow alloc_ok grow_ok new_ptr sole).
Abbreviation exec_op := (exec_op cast_ub pow alloc_ok grow_ok new_ptr sole).
Abbreviation computes := (computes cast_ub pow alloc_ok grow_ok new_ptr sole nm).
Abbreviation sound := (sound cast_ub pow alloc_ok grow_ok new_ptr sole nm).
Abbreviation cexpr := (cexpr realloc_ok cast_ub info node_addr).
Abbreviation eval := (eval cast_ub pow new_ptr info).
Abbreviation emit_op op := (emit realloc_ok (op_byte op)).

(** ** Where code leads *)

Definition ends (prog : BCProgram) (env : bool -> nat -> Z) (L : list BCLoop) (stop : Z)
    (st : list LRValue) (rs : LRValue) (s : vm) (c : completion) : Prop :=
  match c with
  | CNormal sc => reach prog s (at_pos stop st sc rs)
  | CBreak l sc =>
      match find_target l false L with
      | Some k => reach prog s (at_pos (env false k) st sc rs)
      | None => True
      end
  | CContinue l sc =>
      match find_target l true L with
      | Some k => reach prog s (at_pos (env true k) st sc rs)
      | None => True
      end
  | CReturn v sc => exists s', reach prog s s' /\ step prog s' = Finished v sc
  | CThrow m => aborts prog s m
  end.

Lemma ends_reach prog env L stop st rs s s1 c :
  reach prog s s1 -> ends prog env L stop st rs s1 c -> ends prog env L stop st rs s c.
Proof.
  intros H. destruct c as [sc|l sc|l sc|v sc|m]; cbn.
  - by apply reach_trans.
  - destruct (find_target l false L); [by apply reach_trans|done].
  - destruct (find_target l true L); [by apply reach_trans|done].
  - intros (s' & H' & Hs). exists s'. split; [by eapply reach_trans|done].
  - by apply reach_aborts.
Qed.

Lemma ends_tags prog env L L' stop st rs s c :
  map tag L' = map tag L -> ends prog env L' stop st rs s c -> ends prog env L stop st rs s c.
Proof. intros H. destruct c; cbn; by rewrite ?(find_target_tags _ _ _ _ H). Qed.

(** The code [hl], emitted from [pos] inside the loops [L], does what [F] says. *)
Definition runs (pool : list BCConst) (pos : Z) (hl : list hinstr) (L : list BCLoop)
    (F : list LRValue -> option completion) : Prop :=
  forall prog ext env st sc rs c,
    p_pool prog = pool ++ ext -> code_at prog pos (resolve env pos hl) ->
    Forall instr_ok (resolve env pos hl) -> F sc = Some c ->
    ends prog env L (pos + hsize hl) st rs (at_pos pos st sc rs) c.

Lemma runs_pool pool ext pos hl L F : runs pool pos hl L F -> runs (pool ++ ext) pos hl L F.
Proof.
  intros H prog ext' env st sc rs c Hp. rewrite <- app_assoc in Hp. by apply (H prog (ext ++ ext')).
Qed.

Lemma runs_seq pool pos hl1 hl2 L F G :
  runs pool pos hl1 L F -> runs pool (pos + hsize hl1) hl2 L G ->
  runs pool pos (hl1 ++ hl2) L (fun sc => then_c (F sc) G).
Proof.
  intros HF HG prog ext env st sc rs c Hp Hc Hi Hr. rewrite resolve_app in Hc, Hi.
  apply code_at_app in Hc as [Hc1 Hc2]. apply Forall_app in Hi as [Hi1 Hi2].
  rewrite zlen_resolve in Hc2. rewrite hsize_app, Z.add_assoc.
  destruct (F sc) as [r|] eqn:E; [|done].
  pose proof (HF prog ext env st sc rs r Hp Hc1 Hi1 E) as H1. cbn [then_c] in Hr.
  destruct r as [sc1| | | |]; try (injection Hr as <-; exact H1).
  eapply ends_reach; [exact H1|]. by eapply HG.
Qed.

(** From [s] to [s'] the code [hl] is emitted, after the instructions [acc]. *)
Record emitted (acc : list instr) (hl : list hinstr) (s s' : SComp) : Prop := {
  em_tracked : tracked (rev (raws hl) ++ acc) (s_comp s');
  em_plain : Forall plain (raws hl);
  em_within : Forall (within (length (s_loops s))) hl;
  em_loops : loops_grow (here_s s) hl (s_loops s) (s_loops s')
}.

(** From [s] to [s'] code is emitted that does what [F] says. *)
Definition sound_stmt (F : list LRValue -> option completion) (s s' : SComp) : Prop :=
  grows (s_comp s) (s_comp s') /\ s_info s' = s_info s /\
  (c_ok (s_comp s') = true -> here_s s' < 2 ^ 31 ->
   forall acc, tracked acc (s_comp s) -> top_plain acc ->
   exists hl, emitted acc hl s s' /\ runs (pool_of (s_comp s')) (here_s s) hl (s_loops s) F).

Lemma runs_grows c c' pos hl L F : grows c c' -> runs (pool_of c) pos hl L F -> runs (pool_of c') pos hl L F.
Proof. intros [_ _ [ext E]] H. rewrite E. by apply runs_pool. Qed.

Lemma runs_tags pool pos hl L L' F :
  map tag L' = map tag L -> runs pool pos hl L' F -> runs pool pos hl L F.
Proof. intros H HF prog ext env st sc rs c Hp Hc Hi Hr. eapply ends_tags; [exact H|]. by eapply HF. Qed.

Lemma tracked_size hl acc c c' :
  tracked acc c -> tracked (rev (raws hl) ++ acc) c' -> here c' = here c + hsize hl.
Proof.
  intros T T'. rewrite (tracked_here _ _ T), (tracked_here _ _ T').
  by rewrite rev_app_distr, rev_involutive, zlen_encode_app.
Qed.

Lemma emitted_here acc hl s s' :
  tracked acc (s_comp s) -> emitted acc hl s s' -> here_s s' = here_s s + hsize hl.
Proof. intros T [T' _ _ _]. by apply (tracked_size hl acc). Qed.

Lemma emitted_app acc hl1 hl2 s s1 s2 :
  tracked acc (s_comp s) -> emitted acc hl1 s s1 -> emitted (rev (raws hl1) ++ acc) hl2 s1 s2 ->
  emitted acc (hl1 ++ hl2) s s2.
Proof.
  intros T E1 E2. pose proof (emitted_here _ _ _ _ T E1) as Eh.
  destruct E1 as [T1 P1 W1 L1], E2 as [T2 P2 W2 L2]. rewrite Eh in L2. split.
  - by rewrite map_app, rev_app_distr, <- app_assoc.
  - rewrite map_app. by apply Forall_app.
  - apply Forall_app. split; [done|]. by rewrite <- (loops_grow_length _ _ _ _ L1).
  - by eapply loops_grow_app.
Qed.

Lemma emitted_top acc hl s s' : top_plain acc -> emitted acc hl s s' -> top_plain (rev (raws hl) ++ acc).
Proof. intros Ha [_ P _ _]. by apply top_plain_rev. Qed.

(** Plain instructions, in a state with the same loops. *)
Lemma emitted_HI acc l s c' :
  tracked (rev l ++ acc) c' -> Forall plain l -> emitted acc (map HI l) s (on_comp (fun _ => c') s).
Proof. intros T P. split; rewrite ?raws_HI; [done..|apply within_HI|apply loops_grow_HI]. Qed.

(** Writing an offset. *)
Lemma emitted_patch acc h1 op args h2 s s' stop target :
  ends_offset op args -> tracked acc (s_comp s) -> c_ok (s_comp s') = true ->
  emitted acc (h1 ++ HI (Instr op (args ++ [0])) :: h2) s s' ->
  stop = here_s s + hsize (h1 ++ [HI (Instr op (args ++ [0]))]) ->
  - 2 ^ 31 <= target - stop < 2 ^ 31 ->
  emitted acc (h1 ++ HI (Instr op (args ++ [target - stop])) :: h2) s (patch_s (stop - 4) target s').
Proof.
  intros Hop T Hok [T' P W L] Hstop Hrel.
  assert (hsize (h1 ++ [HI (Instr op (args ++ [0]))])
    = zlen (encode (raws h1)) + zlen (encode_instr (Instr op (args ++ [0])))) as Hsz.
  { rewrite hsize_app. unfold hsize. cbn [map raw]. by rewrite encode_singleton. }
  split.
  - rewrite map_app in *. cbn [map raw] in *. apply (patch_tracked (raws h1)); try done.
    rewrite Hstop, Hsz. unfold here_s. rewrite (tracked_here _ _ T). lia.
  - rewrite map_app in *. cbn [map raw] in *. apply Forall_app in P as [P1 P2].
    inversion P2; subst. apply Forall_app. split; [done|]. by constructor.
  - apply Forall_app in W as [W1 W2]. inversion W2; subst. apply Forall_app. split; [done|]. by constructor.
  - assert (forall pos c k v, holes pos (h1 ++ HI (Instr op (args ++ [v])) :: h2) c k
      = holes pos (h1 ++ HI (Instr op (args ++ [0])) :: h2) c k) as Hh.
    { intros. rewrite !holes_app. cbn [holes raw]. by rewrite (zlen_encode_offset op args v 0). }
    destruct L as [L1 L2 L3]. split; [done|..]; intros k; cbn [patch_s on_comp s_loops].
    + rewrite L2. destruct (s_loops s !! k); cbn; by rewrite ?(Hh _ _ _ (target - stop)).
    + rewrite L3. destruct (s_loops s !! k); cbn; by rewrite ?(Hh _ _ _ (target - stop)).
Qed.

Lemma sound_seq F G s1 s2 s3 :
  sound_stmt F s1 s2 -> sound_stmt G s2 s3 -> sound_stmt (fun sc => then_c (F sc) G) s1 s3.
Proof.
  intros (G1 & I1 & H1) (G2 & I2 & H2). split; [by etransitivity|]. split; [congruence|].
  intros Hok Hh acc T Ha. pose proof (gr_here _ _ G2) as Hle. unfold here_s in *.
  destruct (H1 (gr_ok _ _ G2 Hok) ltac:(lia) acc T Ha) as (hl1 & E1 & R1).
  destruct (H2 Hok Hh _ (em_tracked _ _ _ _ E1) (emitted_top _ _ _ _ Ha E1)) as (hl2 & E2 & R2).
  pose proof (emitted_here _ _ _ _ T E1) as Eh. unfold here_s in Eh.
  exists (hl1 ++ hl2). split; [by eapply emitted_app|]. rewrite Eh in R2.
  apply runs_seq; [by eapply runs_grows|]. eapply runs_tags; [|exact R2].
  apply (lg_tags _ _ _ _ (em_loops _ _ _ _ E1)).
Qed.

Lemma sound_stmt_weaken (F G : list LRValue -> option completion) s s' :
  (forall sc c, G sc = Some c -> F sc = Some c) -> sound_stmt F s s' -> sound_stmt G s s'.
Proof.
  intros H (Gr & I & HF). split; [done|]. split; [done|]. intros Hok Hh acc T Ha.
  destruct (HF Hok Hh acc T Ha) as (hl & E & R). exists hl. split; [done|].
  intros prog ext env st sc rs c Hp Hc Hi Hr. by eapply R; eauto.
Qed.

Lemma sound_stmt_dead F s : c_ok (s_comp s) = false -> sound_stmt F s s.
Proof. intros H. split; [reflexivity|]. split; [done|]. intros Hok. congruence. Qed.

(** Nothing emitted. *)
Lemma sound_skip s : sound_stmt (fun sc => Some (CNormal sc)) s s.
Proof.
  split; [reflexivity|]. split; [done|]. intros _ _ acc T Ha. exists (map HI []).
  split; [split; [done|done|done|apply loops_grow_HI]|]. intros prog ext env st sc rs c _ _ _ [= <-].
  cbn. change (hsize []) with 0. rewrite Z.add_0_r. constructor.
Qed.

(** What an expression's code leaves is what a statement's does. *)
Definition flow_completion (st : list LRValue) (r : flow) (c : completion) : Prop :=
  match r, c with
  | FNext st' sc', CNormal sc => st' = st /\ sc' = sc
  | FExn m, CThrow m' => m = m'
  | _, _ => False
  end.

Lemma sound_code (G : block) (F : list LRValue -> option completion) s c' :
  sound G (s_comp s) c' ->
  (forall st sc c, F sc = Some c -> exists r, G st sc = Some r /\ flow_completion st r c) ->
  sound_stmt F s (on_comp (fun _ => c') s).
Proof.
  intros (l & He & Hl) HG. split; [by apply emits_grows in He|]. split; [done|].
  intros Hok Hh acc T Ha. destruct He as [Gr He]. destruct (He Hok Hh) as [P HT].
  exists (map HI l). split; [apply emitted_HI; auto|].
  intros prog ext env st sc rs c Hp Hc Hi Hr. rewrite resolve_HI in *. rewrite hsize_HI.
  destruct (HG st sc c Hr) as (r & Er & Hf).
  pose proof (Hl Hok prog ext _ st sc rs r Hp Hc Hi Er) as H.
  destruct r as [st' sc'|m], c as [sc1| | | |m']; try done; cbn in *.
  - by destruct Hf as [-> ->].
  - by subst.
Qed.

(** ** Jumps *)

Lemma reach_jump prog pos off st sc rs :
  code_at prog pos [Instr BC_JUMP [off]] -> instr_ok (Instr BC_JUMP [off]) ->
  reach prog (at_pos pos st sc rs) (at_pos (pos + 5 + off) st sc rs).
Proof.
  intros Hc Hi. apply reach_one.
  destruct (step_jump cast_ub pow alloc_ok grow_ok new_ptr sole nm prog pos BC_JUMP off st sc rs Hc Hi
    eq_refl) as [Hrd ->].
  unfold Vm.exec_op. cbn [state_at ip]. fold (at_pos (pos + 1) st sc rs). rewrite Hrd, !jump_at.
  do 2 f_equal. lia.
Qed.

(** The two conditional jumps: [on] is the truth value that jumps. *)
Definition jump_on (on : bool) : BCOpcode := if on then BC_JUMP_IF_TRUE else BC_JUMP_IF_FALSE.

Lemma reach_jump_on on prog pos off v st sc rs :
  code_at prog pos [Instr (jump_on on) [off]] -> instr_ok (Instr (jump_on on) [off]) ->
  reach prog (at_pos pos (v :: st) sc rs)
        (at_pos (pos + 5 + if Bool.eqb (lr_to_bool v) on then off else 0) st sc rs).
Proof.
  intros Hc Hi. apply reach_one.
  destruct (step_jump cast_ub pow alloc_ok grow_ok new_ptr sole nm prog pos (jump_on on) off (v :: st)
    sc rs Hc Hi ltac:(by destruct on)) as [Hrd ->].
  destruct on; unfold jump_on, Vm.exec_op; cbn [state_at ip]; fold (at_pos (pos + 1) (v :: st) sc rs);
    rewrite Hrd, jump_at; unfold jump_if; cbn [pop state_at stack];
    destruct (lr_to_bool v); unfold jump, set_stack, state_at; cbn; do 2 f_equal; lia.
Qed.

Lemma jump_on_layout on : bc_info_operands (jump_on on) = 2.
Proof. by destruct on. Qed.

(** A condition followed by a conditional jump. *)
Definition decides (on : bool) (pool : list BCConst) (lt : Z -> list instr)
    (T : list LRValue -> option res) : Prop :=
  forall prog ext off pos st sc rs r,
    p_pool prog = pool ++ ext -> code_at prog pos (lt off) -> Forall instr_ok (lt off) ->
    T sc = Some r ->
    match r with
    | RVal v sc' =>
        reach prog (at_pos pos st sc rs)
          (at_pos (pos + zlen (encode (lt off)) + if Bool.eqb (lr_to_bool v) on then off else 0) st sc' rs)
    | RExn m => aborts prog (at_pos pos st sc rs) m
    end.

(** Its emission: [exit] is the position of the offset, still 0. *)
Definition emits_test (on : bool) (T : list LRValue -> option res) (c c' : BCComp) (exit : Z) : Prop :=
  grows c c' /\
  (c_ok c' = true -> here c' < 2 ^ 31 -> forall acc, tracked acc c -> top_plain acc ->
   exists lh op args, let lt off := lh ++ [Instr op (args ++ [off])] in
     ends_offset op args /\ tracked (rev (lt 0) ++ acc) c' /\ Forall plain (lt 0) /\
     exit = here c' - 4 /\ decides on (pool_of c') lt T).

Lemma emit_jump_here op c acc :
  bc_info_operands op = 2 -> tracked acc c -> top_plain acc ->
  let j := emit_jump realloc_ok (op_byte op) c in
  c_ok j.1 = true -> here j.1 < 2 ^ 31 -> j.2 = here j.1 - 4 /\ tracked (Instr op [0] :: acc) j.1.
Proof.
  intros Hop T Ha j Hok Hh.
  destruct (proj2 (emits_jump realloc_ok op c Hop) Hok Hh) as [_ HT].
  specialize (HT acc T Ha). split; [|exact HT]. unfold j.
  rewrite (jump_position realloc_ok op c acc Hop T Hok), (tracked_here _ _ HT). cbn [rev app].
  rewrite zlen_encode_app, encode_singleton, encode_jump, zlen_cons, zlen_put_u32 by done. lia.
Qed.

Lemma emits_test_expr on e c c1 :
  sound (fun st sc => res_flow (eval e sc) st) c c1 ->
  let j := emit_jump realloc_ok (op_byte (jump_on on)) c1 in
  emits_test on (eval e) c j.1 j.2.
Proof.
  intros (l & [G He] & Hl) j. pose proof (grows_emit_jump realloc_ok (op_byte (jump_on on)) c1) as Gj.
  split; [by etransitivity|]. intros Hok Hh acc T Ha.
  destruct (He (gr_ok _ _ Gj Hok) ltac:(pose proof (gr_here _ _ Gj); unfold j in Hh; lia)) as [P HT].
  specialize (HT acc T Ha). pose proof (top_plain_rev _ _ P Ha) as Ha'.
  destruct (emit_jump_here _ c1 _ (jump_on_layout on) HT Ha' Hok Hh) as [Ej Tj].
  exists l, (jump_on on), []. cbn [app]. split_and!; [left; split; [done|apply jump_on_layout]|..].
  - by rewrite rev_app_distr.
  - apply Forall_app. split; [done|]. repeat constructor. by destruct on.
  - exact Ej.
  - intros prog ext off pos st sc rs r Hp Hc Hi Hr. apply code_at_app in Hc as [Hc1 Hc2].
    apply Forall_app in Hi as [Hi1 Hi2]. apply Forall_inv in Hi2.
    destruct (gr_pool _ _ Gj) as [ext' Eext]. fold j in Eext.
    assert (p_pool prog = pool_of c1 ++ (ext' ++ ext)) as Hp1 by (by rewrite Hp, Eext, <- app_assoc).
    rewrite zlen_encode_app, encode_singleton, encode_jump, zlen_cons, zlen_put_u32 by apply jump_on_layout.
    destruct r as [v sc'|m].
    + eapply reach_trans; [apply (Hl (gr_ok _ _ Gj Hok) prog _ pos st sc rs (FNext (v :: st) sc') Hp1 Hc1 Hi1);
        by rewrite Hr|].
      pose proof (reach_jump_on on prog _ off v st sc' rs Hc2 Hi2) as H.
      replace (pos + (zlen (encode l) + (1 + 4))) with (pos + zlen (encode l) + 5) by lia. exact H.
    + apply (Hl (gr_ok _ _ Gj Hok) prog _ pos st sc rs (FExn m) Hp1 Hc1 Hi1). by rewrite Hr.
Qed.

Lemma map_HI_mid l i h : map HI (l ++ [i]) ++ h = map HI l ++ HI i :: h.
Proof. by rewrite map_app, <- app_assoc. Qed.

(** The code of a test, in front of what follows it. *)
Lemma emitted_test on T s c1 exit :
  emits_test on T (s_comp s) c1 exit -> c_ok c1 = true -> here c1 < 2 ^ 31 ->
  forall acc, tracked acc (s_comp s) -> top_plain acc ->
  exists lh op args, let lt off := lh ++ [Instr op (args ++ [off])] in
    ends_offset op args /\ emitted acc (map HI (lt 0)) s (on_comp (fun _ => c1) s) /\
    exit = here c1 - 4 /\ decides on (pool_of c1) lt T.
Proof.
  intros [_ H] Hok Hh acc Ta Ha. destruct (H Hok Hh acc Ta Ha) as (lh & op & args & H1 & H2 & H3 & H4 & H5).
  exists lh, op, args. split_and!; [done|by apply emitted_HI|done|done].
Qed.

Lemma decides_grows on c c' lt T : grows c c' -> decides on (pool_of c) lt T -> decides on (pool_of c') lt T.
Proof.
  intros [_ _ [ext E]] H prog ext' off pos st sc rs r Hp. rewrite E, <- app_assoc in Hp.
  by apply (H prog (ext ++ ext')).
Qed.

Lemma with_value_ends prog env L stop st rs on lt (pos off : Z) T sc (k : LRValue -> list LRValue -> option completion) c :
  (forall r, T sc = Some r ->
    match r with
    | RVal v sc' =>
        reach prog (at_pos pos st sc rs)
          (at_pos (pos + zlen (encode (lt off : list instr)) + if Bool.eqb (lr_to_bool v) on then off else 0) st sc' rs)
    | RExn m => aborts prog (at_pos pos st sc rs) m
    end) ->
  with_value (T sc) k = Some c ->
  (forall v sc', k v sc' = Some c ->
     ends prog env L stop st rs
       (at_pos (pos + zlen (encode (lt off)) + if Bool.eqb (lr_to_bool v) on then off else 0) st sc' rs) c) ->
  ends prog env L stop st rs (at_pos pos st sc rs) c.
Proof.
  intros Ht Hw Hk. unfold with_value in Hw. destruct (T sc) as [[v sc'|m]|]; [|injection Hw as <-|done].
  - eapply ends_reach; [exact (Ht _ eq_refl)|auto].
  - exact (Ht _ eq_refl).
Qed.

Lemma hsize_lt lh op args off h :
  hsize (map HI (lh ++ [Instr op (args ++ [off])]) ++ h)
  = zlen (encode (lh ++ [Instr op (args ++ [off])])) + hsize h.
Proof. by rewrite hsize_app, hsize_HI. Qed.

Lemma zlen_lt lh op args off off' :
  ends_offset op args ->
  zlen (encode (lh ++ [Instr op (args ++ [off])])) = zlen (encode (lh ++ [Instr op (args ++ [off'])])).
Proof.
  intros H. rewrite !zlen_encode_app, !encode_singleton. by rewrite (zlen_encode_offset op args off off').
Qed.

(** The exit of a test gets its target. *)
Lemma emitted_exit acc lh op args h2 s s' c1 target :
  ends_offset op args -> tracked acc (s_comp s) -> c_ok (s_comp s') = true ->
  let lt off := lh ++ [Instr op (args ++ [off])] in
  emitted acc (map HI (lt 0) ++ h2) s s' -> here c1 = here_s s + zlen (encode (lt 0)) ->
  0 <= target < 2 ^ 31 -> here c1 < 2 ^ 31 ->
  emitted acc (map HI (lt (target - here c1)) ++ h2) s (patch_s (here c1 - 4) target s').
Proof.
  intros Hop Ta Hok lt E Hc Ht Hh. assert (0 <= here c1) by apply zlen_nonneg.
  unfold lt in *. rewrite map_HI_mid in *.
  apply (emitted_patch acc (map HI lh) op args); try done; [|lia].
  by rewrite Hc, <- hsize_HI, map_app.
Qed.

(** What runs after a test whose exit is [off] bytes on. *)
Lemma test_runs pool pos lt off h L T (F G : list LRValue -> option completion) :
  decides false pool lt T -> zlen (encode (lt off)) = zlen (encode (lt 0)) ->
  (forall prog ext env st sc rs c, p_pool prog = pool ++ ext ->
     code_at prog (pos + zlen (encode (lt 0))) (resolve env (pos + zlen (encode (lt 0))) h) ->
     Forall instr_ok (resolve env (pos + zlen (encode (lt 0))) h) ->
     let stop := pos + zlen (encode (lt 0)) + hsize h in
     (F sc = Some c -> ends prog env L stop st rs (at_pos (pos + zlen (encode (lt 0))) st sc rs) c) /\
     (G sc = Some c -> ends prog env L stop st rs (at_pos (pos + zlen (encode (lt 0)) + off) st sc rs) c)) ->
  runs pool pos (map HI (lt off) ++ h) L
    (fun sc => with_value (T sc) (fun v sc1 => if lr_to_bool v then F sc1 else G sc1)).
Proof.
  intros Hd Hsz Hbr prog ext env st sc rs c Hpool Hc Hi Hr. rewrite resolve_app, resolve_HI, hsize_HI, Hsz in Hc, Hi.
  apply code_at_app in Hc as [Hc1 Hc2]. apply Forall_app in Hi as [Hi1 Hi2]. rewrite Hsz in Hc2.
  rewrite hsize_app, hsize_HI, Hsz, Z.add_assoc.
  eapply (with_value_ends _ _ _ _ _ _ false lt _ off T); [|exact Hr|].
  - intros r. exact (Hd prog ext off _ st sc rs r Hpool Hc1 Hi1).
  - intros v sc' Hk. cbv beta in Hk. rewrite Hsz.
    destruct (Hbr prog ext env st sc' rs c Hpool Hc2 Hi2) as [HF HG].
    destruct (lr_to_bool v); cbn [Bool.eqb]; [rewrite Z.add_0_r|]; auto.
Qed.

(** [if] without [else]: the jump of the test ends after the body. *)
Lemma if_then_runs pool pos lt h L T F :
  decides false pool lt T -> zlen (encode (lt (hsize h))) = zlen (encode (lt 0)) ->
  runs pool (pos + zlen (encode (lt 0))) h L F ->
  runs pool pos (map HI (lt (hsize h)) ++ h) L
    (fun sc => with_value (T sc) (fun v sc1 => if lr_to_bool v then F sc1 else Some (CNormal sc1))).
Proof.
  intros Hd Hsz HF. apply (test_runs _ _ _ _ _ _ _ _ (fun sc => Some (CNormal sc))); [done..|].
  intros prog ext env st sc rs c Hp Hc Hi stop. split; [by apply (HF prog ext)|].
  intros [= <-]. constructor.
Qed.

Lemma sound_if_then T F s c1 exit s2 :
  emits_test false T (s_comp s) c1 exit -> sound_stmt F (on_comp (fun _ => c1) s) s2 ->
  sound_stmt (fun sc => with_value (T sc) (fun v sc1 => if lr_to_bool v then F sc1 else Some (CNormal sc1)))
    s (patch_s exit (here_s s2) s2).
Proof.
  intros Ht (G2 & I2 & H2). assert (grows (s_comp s) (s_comp s2)) as G by (etransitivity; [apply Ht|exact G2]).
  split; [etransitivity; [exact G|apply grows_patch_jump]|]. split; [done|].
  change (here_s (patch_s exit (here_s s2) s2)) with (here (patch_jump_to exit (here_s s2) (s_comp s2))).
  cbn [patch_s on_comp s_comp] in *.
  rewrite patch_jump_ok, pool_of_patch_jump, here_patch_jump. intros Hok Hh acc Ta Ha.
  pose proof (gr_here _ _ G2) as Hp2.
  destruct (emitted_test false T s c1 exit Ht (gr_ok _ _ G2 Hok) ltac:(lia) acc Ta Ha)
    as (lh & op & args & Hop & E1 & -> & Hd).
  destruct (H2 Hok Hh _ (em_tracked _ _ _ _ E1) (emitted_top _ _ _ _ Ha E1)) as (hl & E2 & R2).
  pose proof (emitted_app _ _ _ _ _ _ Ta E1 E2) as E. pose proof (emitted_here _ _ _ _ Ta E1) as Hs1.
  pose proof (emitted_here _ _ _ _ (em_tracked _ _ _ _ E1) E2) as Hs2. pose proof (hsize_nonneg hl) as Hn.
  rewrite hsize_HI in Hs1. change (here_s (on_comp (fun _ => c1) s)) with (here c1) in *.
  assert (0 <= here c1) as H0 by apply zlen_nonneg. change (here (s_comp s2)) with (here_s s2) in Hh.
  pose proof (emitted_exit acc lh op args hl s s2 c1 (here_s s2) Hop Ta Hok E Hs1 ltac:(lia) ltac:(lia)) as E'.
  cbv zeta beta in E'. replace (here_s s2 - here c1) with (hsize hl) in E' by lia.
  eexists. split; [exact E'|]. apply (if_then_runs _ _ (fun o => lh ++ [Instr op (args ++ [o])])).
  - exact (decides_grows _ _ _ _ _ G2 Hd).
  - by apply zlen_lt.
  - rewrite <- Hs1. exact R2.
Qed.

(** [if] with [else]. *)
Lemma if_else_runs pool pos lt ht he L T F G :
  let off := hsize ht + 5 in let jump := HI (Instr BC_JUMP [hsize he]) in
  decides false pool lt T -> zlen (encode (lt off)) = zlen (encode (lt 0)) ->
  runs pool (pos + zlen (encode (lt 0))) ht L F ->
  runs pool (pos + zlen (encode (lt 0)) + off) he L G ->
  runs pool pos (map HI (lt off) ++ ht ++ jump :: he) L
    (fun sc => with_value (T sc) (fun v sc1 => if lr_to_bool v then F sc1 else G sc1)).
Proof.
  intros off jump Hd Hsz HF HG. apply test_runs; [done..|].
  intros prog ext env st sc rs c Hp Hc Hi stop. set (p1 := pos + zlen (encode (lt 0))) in *.
  rewrite resolve_app in Hc, Hi. cbn [resolve] in Hc, Hi. apply code_at_app in Hc as [Hc1 Hc].
  rewrite zlen_resolve in Hc. apply code_at_cons in Hc as [Hcj Hc2]. cbn [raw jump] in Hc2, Hi.
  rewrite zlen_jump in Hc2, Hi. apply Forall_app in Hi as [Hi1 Hi]. apply Forall_cons in Hi as [Hij Hi2].
  replace (p1 + hsize ht + 5) with (p1 + off) in Hc2, Hi2 by (unfold off; lia).
  assert (stop = p1 + off + hsize he) as Hstop.
  { unfold stop. rewrite hsize_app, hsize_cons. cbn [raw jump]. rewrite zlen_jump. unfold off. lia. }
  split; intros Hr.
  - pose proof (HF prog ext env st sc rs c Hp Hc1 Hi1 Hr) as H. destruct c as [sc'| | | |]; try exact H.
    eapply reach_trans; [exact H|]. pose proof (reach_jump prog _ _ st sc' rs Hcj Hij) as Hj.
    replace (p1 + hsize ht + 5 + hsize he) with stop in Hj by (rewrite Hstop; unfold off; lia). exact Hj.
  - rewrite Hstop. exact (HG prog ext env st sc rs c Hp Hc2 Hi2 Hr).
Qed.

(** A body, then a jump still without its offset; the exit of the test before
    the body leads behind the jump. *)
Lemma emitted_then T F s c1 exit s2 :
  emits_test false T (s_comp s) c1 exit -> sound_stmt F (on_comp (fun _ => c1) s) s2 ->
  let j := emit_jump realloc_ok (op_byte BC_JUMP) (s_comp s2) in
  let s3 := on_comp (fun _ => j.1) s2 in
  c_ok j.1 = true -> here j.1 < 2 ^ 31 -> forall acc, tracked acc (s_comp s) -> top_plain acc ->
  exists lt ht, (forall off, zlen (encode (lt off)) = zlen (encode (lt 0))) /\
    j.2 = here_s s3 - 4 /\ here_s s3 = here_s s + zlen (encode (lt 0)) + (hsize ht + 5) /\
    emitted acc (map HI (lt (hsize ht + 5)) ++ ht ++ [HI (Instr BC_JUMP [0])]) s (patch_s exit (here_s s3) s3) /\
    decides false (pool_of c1) lt T /\
    runs (pool_of (s_comp s2)) (here_s s + zlen (encode (lt 0))) ht (s_loops s) F.
Proof.
  intros Ht (G2 & I2 & H2) j s3 Hokj Hh acc Ta Ha.
  pose proof (grows_emit_jump realloc_ok (op_byte BC_JUMP) (s_comp s2)) as Gj. fold j in Gj.
  pose proof (gr_here _ _ Gj) as Hlj. pose proof (gr_here _ _ G2) as Hl2. pose proof (gr_ok _ _ Gj Hokj) as Hok2.
  cbn [on_comp s_comp] in Hl2.
  destruct (emitted_test false T s c1 exit Ht (gr_ok _ _ G2 Hok2) ltac:(lia) acc Ta Ha)
    as (lh & op & args & Hop & E1 & -> & Hd).
  destruct (H2 Hok2 ltac:(unfold here_s; lia) _ (em_tracked _ _ _ _ E1) (emitted_top _ _ _ _ Ha E1))
    as (ht & E2 & R2).
  pose proof (emitted_app _ _ _ _ _ _ Ta E1 E2) as E12. pose proof (emitted_here _ _ _ _ Ta E1) as Hs1.
  rewrite hsize_HI in Hs1. change (here_s (on_comp (fun _ => c1) s)) with (here c1) in *.
  destruct (emit_jump_here BC_JUMP (s_comp s2) _ eq_refl (em_tracked _ _ _ _ E12)
    (emitted_top _ _ _ _ Ha E12) Hokj ltac:(fold j; lia)) as [Ej Tj]. fold j in Ej, Tj.
  pose proof (emitted_HI _ [Instr BC_JUMP [0]] s2 j.1 Tj ltac:(by repeat constructor)) as Ejump.
  pose proof (emitted_app _ _ _ _ _ _ Ta E12 Ejump) as E3. fold s3 in E3.
  pose proof (emitted_here _ _ _ _ Ta E3) as Hs3. rewrite !hsize_app, hsize_jump, hsize_HI in Hs3.
  assert (0 <= here c1) as H0 by apply zlen_nonneg. pose proof (hsize_nonneg ht) as Hn. rewrite <- app_assoc in E3.
  change (here j.1) with (here_s s3) in *.
  pose proof (emitted_exit acc lh op args _ s s3 c1 (here_s s3) Hop Ta Hokj E3 Hs1 ltac:(lia) ltac:(lia)) as E3'.
  cbv zeta beta in E3'. replace (here_s s3 - here c1) with (hsize ht + 5) in E3' by lia.
  exists (fun o => lh ++ [Instr op (args ++ [o])]), ht. split_and!; try done.
  - intros off. by apply zlen_lt.
  - lia.
  - rewrite <- Hs1. exact R2.
Qed.

Lemma sound_if_else T F G s c1 exit s2 s4 :
  emits_test false T (s_comp s) c1 exit -> sound_stmt F (on_comp (fun _ => c1) s) s2 ->
  let j := emit_jump realloc_ok (op_byte BC_JUMP) (s_comp s2) in
  let s3 := on_comp (fun _ => j.1) s2 in
  sound_stmt G (patch_s exit (here_s s3) s3) s4 ->
  sound_stmt (fun sc => with_value (T sc) (fun v sc1 => if lr_to_bool v then F sc1 else G sc1))
    s (patch_s j.2 (here_s s4) s4).
Proof.
  intros Ht Hb j s3 (G4 & I4 & H4). pose proof Hb as (G2 & I2 & _). cbn [patch_s on_comp s_comp] in *.
  pose proof (grows_emit_jump realloc_ok (op_byte BC_JUMP) (s_comp s2)) as Gj. fold j in Gj.
  pose proof (grows_patch_jump exit (here_s s3) j.1) as Gp.
  assert (grows (s_comp s2) (s_comp s4)) as G24 by (etransitivity; [exact Gj|by etransitivity]).
  split; [etransitivity; [apply Ht|]; etransitivity; [exact G2|]; etransitivity; [exact G24|apply grows_patch_jump]|].
  split; [cbn [patch_s on_comp s_info]; rewrite I4; exact I2|].
  change (here_s (patch_s j.2 (here_s s4) s4)) with (here (patch_jump_to j.2 (here_s s4) (s_comp s4))).
  cbn [patch_s on_comp s_comp]. rewrite patch_jump_ok, pool_of_patch_jump, here_patch_jump.
  intros Hok Hh acc Ta Ha. pose proof (gr_ok _ _ G4 Hok) as Hokj. rewrite patch_jump_ok in Hokj.
  pose proof (gr_here _ _ G4) as Hl4. rewrite here_patch_jump in Hl4.
  destruct (emitted_then T F s c1 exit s2 Ht Hb Hokj ltac:(fold j; unfold s3 in *; cbn in *; lia) acc Ta Ha)
    as (lt & ht & Hsz & Ej & Hs3 & E3 & Hd & R2). fold j s3 in Ej, Hs3, E3.
  destruct (H4 Hok Hh _ (em_tracked _ _ _ _ E3) (emitted_top _ _ _ _ Ha E3)) as (he & E4 & R4).
  assert (here_s (patch_s exit (here_s s3) s3) = here_s s3) as Ep by apply here_patch_jump.
  rewrite Ep in *. pose proof (emitted_here _ _ _ _ (em_tracked _ _ _ _ E3) E4) as Hs4. rewrite Ep in Hs4.
  pose proof (emitted_app _ _ _ _ _ _ Ta E3 E4) as E. rewrite <- !app_assoc in E. cbn [app] in E. rewrite app_assoc in E.
  pose proof (hsize_nonneg he) as Hnhe. assert (0 <= here_s s3) as H0 by apply zlen_nonneg.
  pose proof (emitted_patch acc (map HI (lt (hsize ht + 5)) ++ ht) BC_JUMP [] he s s4 (here_s s3) (here_s s4)
    (or_introl (conj eq_refl eq_refl)) Ta Hok E) as E'.
  rewrite <- Ej in E'. cbn [app] in E'. rewrite <- app_assoc in E'.
  replace (here_s s4 - here_s s3) with (hsize he) in E' by lia. eexists. split; [apply E'|].
  { change [HI (Instr BC_JUMP [0])] with (map HI [Instr BC_JUMP [0]]).
    rewrite !hsize_app, hsize_jump, hsize_HI, Hsz. lia. }
  { change (here_s s4 < 2 ^ 31) in Hh. lia. }
  rewrite <- app_assoc. apply if_else_runs; [|apply Hsz|by eapply runs_grows|].
  - eapply decides_grows; [|exact Hd]. by etransitivity.
  - rewrite <- Hs3. eapply runs_tags; [|exact R4].
    apply (lg_tags _ _ _ _ (em_loops _ _ _ _ E3)).
Qed.

(** ** The turns of a loop *)

(** The record [loop_push] makes. *)
Definition fresh_loop (label : option (list Z)) : BCLoop :=
  {| lp_is_switch := false; lp_label := label; lp_brk := []; lp_cbrk := 0; lp_cont := []; lp_ccont := 0 |}.

Section Turns.

Context (prog : BCProgram) (env : bool -> nat -> Z) (L : list BCLoop) (lp : BCLoop).
Context (st : list LRValue) (rs : LRValue) (stop cont : Z).
Hypothesis no_switch : lp_is_switch lp = false.

(** Code from [pos] that computes [R] and goes on as [k] says. *)
Definition leads (pos : Z) (R : option res) (sc : list LRValue) (k : LRValue -> Z) : Prop :=
  match R with
  | Some (RVal v sc') => reach prog (at_pos pos st sc rs) (at_pos (k v) st sc' rs)
  | Some (RExn m) => aborts prog (at_pos pos st sc rs) m
  | None => True
  end.

Lemma leads_turn pos R sc k K n (P : LRValue -> list LRValue -> option turn) c :
  leads pos R sc k -> turn_value R P = Some n ->
  (forall v sc', P v sc' = Some n -> K n = Some c -> ends prog env L stop st rs (at_pos (k v) st sc' rs) c) ->
  (forall c', n = Leave c' -> K n = Some c') -> K n = Some c ->
  ends prog env L stop st rs (at_pos pos st sc rs) c.
Proof.
  intros Hl Ht HP HK Hn. destruct R as [[v sc'|m]|]; cbn in *; [| |done].
  - eapply ends_reach; [exact Hl|auto].
  - injection Ht as <-. specialize (HK _ eq_refl). assert (c = CThrow m) as -> by congruence. exact Hl.
Qed.

(** What remains of the turns, after [n]. *)
Definition turns (m : nat) (round : list LRValue -> option turn) (n : turn) : option completion :=
  match n with Again sc => iterate m round sc | Leave c => Some c end.

Lemma iterate_turns m round sc :
  iterate (S m) round sc = match round sc with Some n => turns m round n | None => None end.
Proof. cbn. by destruct (round sc) as [[]|]. Qed.

(** After the body: a normal end and a [continue] of this loop go on with [P]. *)
Lemma after_body_ends pos upd sc R (P : list LRValue -> option turn) K n c :
  (forall c', R = Some c' ->
     ends prog (inner_env stop cont env) (lp :: L) upd st rs (at_pos pos st sc rs) c') ->
  after_body (lp_label lp) R P = Some n -> K n = Some c -> (forall c', K (Leave c') = Some c') ->
  (forall sc' p, p = upd \/ p = cont -> P sc' = Some n ->
     ends prog env L stop st rs (at_pos p st sc' rs) c) ->
  ends prog env L stop st rs (at_pos pos st sc rs) c.
Proof.
  intros HR Ha Hn HK HP. destruct R as [r|]; [|done]. specialize (HR r eq_refl).
  destruct r as [sc1|l sc1|l sc1|v sc1|m]; cbn [after_body ends] in *.
  - eapply ends_reach; [exact HR|]. auto.
  - rewrite find_target_mine in HR by done. destruct (mine (lp_label lp) l); injection Ha as <-.
    + assert (c = CNormal sc1) as -> by (rewrite HK in Hn; congruence). exact HR.
    + assert (c = CBreak l sc1) as -> by (rewrite HK in Hn; congruence). cbn.
      by destruct (find_target l false L).
  - rewrite find_target_mine in HR by done. destruct (mine (lp_label lp) l).
    + eapply ends_reach; [exact HR|]. cbn. auto.
    + injection Ha as <-. assert (c = CContinue l sc1) as -> by (rewrite HK in Hn; congruence). cbn.
      by destruct (find_target l true L).
  - injection Ha as <-. assert (c = CReturn v sc1) as -> by (rewrite HK in Hn; congruence). exact HR.
  - injection Ha as <-. assert (c = CThrow m) as -> by (rewrite HK in Hn; congruence). exact HR.
Qed.

Lemma for_turns test_pos body_pos upd T U B m sc c :
  (forall sc, leads test_pos (T sc) sc (fun v => if lr_to_bool v then body_pos else stop)) ->
  (forall sc c, B sc = Some c ->
     ends prog (inner_env stop cont env) (lp :: L) upd st rs (at_pos body_pos st sc rs) c) ->
  (forall sc p, p = upd \/ p = cont -> leads p (U sc) sc (fun _ => test_pos)) ->
  iterate m (for_round (lp_label lp) T U B) sc = Some c ->
  ends prog env L stop st rs (at_pos test_pos st sc rs) c.
Proof.
  intros HT HB HU. revert sc. induction m as [|m IH]; intros sc Hr; [done|].
  rewrite iterate_turns in Hr. destruct (for_round _ _ _ _ sc) as [n|] eqn:En; [|done].
  eapply (leads_turn _ _ _ _ (turns m _)); [exact (HT sc)|exact En| |by intros c' ->|exact Hr].
  intros v sc1 Hn _. cbv beta in Hn |- *. destruct (lr_to_bool v).
  - eapply (after_body_ends body_pos upd); [intros c'; apply HB|exact Hn|exact Hr|done|].
    intros sc2 p Hp Hn2. eapply (leads_turn _ _ _ _ (turns m _)); [exact (HU sc2 p Hp)|exact Hn2| |by intros c' ->|exact Hr].
    intros v' sc3 [= <-] _. by apply IH.
  - injection Hn as <-. cbn in Hr. injection Hr as <-. constructor.
Qed.

Lemma do_turns body_pos upd T B m sc c :
  (forall sc c, B sc = Some c ->
     ends prog (inner_env stop cont env) (lp :: L) upd st rs (at_pos body_pos st sc rs) c) ->
  (forall sc p, p = upd \/ p = cont ->
     leads p (T sc) sc (fun v => if lr_to_bool v then body_pos else stop)) ->
  iterate m (do_round (lp_label lp) T B) sc = Some c ->
  ends prog env L stop st rs (at_pos body_pos st sc rs) c.
Proof.
  intros HB HT. revert sc. induction m as [|m IH]; intros sc Hr; [done|].
  rewrite iterate_turns in Hr. destruct (do_round _ _ _ sc) as [n|] eqn:En; [|done].
  eapply (after_body_ends body_pos upd); [intros c'; apply HB|exact En|exact Hr|done|].
  intros sc1 p Hp Hn. eapply (leads_turn _ _ _ _ (turns m _)); [exact (HT sc1 p Hp)|exact Hn| |by intros c' ->|exact Hr].
  intros v sc2 [= <-] _. cbv beta. destruct (lr_to_bool v); cbn in Hr; [by apply IH|].
  injection Hr as <-. constructor.
Qed.

End Turns.

(** ** Leaving a loop *)

Lemma emitted_pop acc l1 hb l2 s s7 brk cont p :
  p = here_s s + zlen (encode l1) ->
  emitted acc (map HI l1 ++ hb ++ map HI l2) (loop_push false s) s7 ->
  tracked acc (s_comp s) -> c_ok (s_comp s7) = true -> here_s s7 < 2 ^ 31 ->
  0 <= brk < 2 ^ 31 -> 0 <= cont < 2 ^ 31 ->
  let s8 := loop_pop brk cont s7 in
  c_ok (s_comp s8) = true /\ pool_of (s_comp s8) = pool_of (s_comp s7) /\ here_s s8 = here_s s7 /\
  s_info s8 = s_info s7 /\
  emitted acc (map HI l1 ++ close brk cont p hb ++ map HI l2) s s8.
Proof.
  intros Hp E Ta Hok Hh Hb Hc s8. pose proof (emitted_here acc _ (loop_push false s) s7 Ta E) as Hhere.
  change (here_s (loop_push false s)) with (here_s s) in Hhere.
  rewrite !hsize_app, !hsize_HI in Hhere. pose proof (zlen_nonneg (encode l2)).
  destruct E as [T P W [Ltags Lbrk Lcont]]. change (here_s (loop_push false s)) with (here_s s) in *.
  cbn [loop_push set_pending set_loops s_loops] in Ltags, Lbrk, Lcont.
  destruct (s_loops s7) as [|lp L7] eqn:EL; [done|]. injection Ltags as Hsw Hlab Ltags.
  cbn in Hsw, Hlab.
  assert (forall c k, holes (here_s s) (map HI l1 ++ hb ++ map HI l2) c k = holes p hb c k) as Hholes.
  { intros. rewrite !holes_app, !holes_HI, hsize_HI, <- Hp. by rewrite app_nil_r. }
  pose proof (Lbrk 0%nat) as Lb0. pose proof (Lcont 0%nat) as Lc0. cbn in Lb0, Lc0.
  rewrite Hholes in Lb0, Lc0. injection Lb0 as Lb0. injection Lc0 as Lc0.
  rewrite !map_app, !raws_HI in T, P.
  destruct (patch_close brk cont hb l1 l2 acc (s_comp s7) p Hok T
    ltac:(by rewrite Hp; unfold here_s; rewrite (tracked_here _ _ Ta)) Hb Hc ltac:(lia)) as (Ok8 & P8 & H8 & T8).
  assert (s_comp s8 = patch_list (lp_cont lp) cont (patch_list (lp_brk lp) brk (s_comp s7))
    /\ s_loops s8 = L7 /\ s_info s8 = s_info s7) as (EC8 & EL8 & EI8).
  { unfold s8, loop_pop. rewrite EL, Hsw. done. }
  unfold patch_list in EC8. rewrite Lb0, Lc0 in EC8. unfold here_s at 1. rewrite EC8.
  split_and!; try done. split.
  - by rewrite !map_app, !raws_HI, EC8.
  - rewrite !map_app, !raws_HI. apply Forall_app in P as [P1 P]. apply Forall_app in P as [P2 P3].
    apply Forall_app. split; [done|]. apply Forall_app. split; [by apply plain_close|done].
  - apply Forall_app in W as [_ W]. apply Forall_app in W as [W _]. apply Forall_app.
    split; [apply within_HI|]. apply Forall_app. split; [by apply within_close|apply within_HI].
  - assert (forall c k, holes (here_s s) (map HI l1 ++ close brk cont p hb ++ map HI l2) c k
      = holes p hb c (S k)) as Hclose.
    { intros. rewrite !holes_app, !holes_HI, hsize_HI, app_nil_r, <- Hp. cbn [app].
      apply holes_close. }
    split; [by rewrite EL8|..]; intros k; rewrite EL8.
    + etransitivity; [exact (Lbrk (S k))|]. simpl. destruct (s_loops s !! k); simpl; [|done].
      by rewrite Hholes, Hclose.
    + etransitivity; [exact (Lcont (S k))|]. simpl. destruct (s_loops s !! k); simpl; [|done].
      by rewrite Hholes, Hclose.
Qed.

(** ** The head of a loop: its test, or nothing *)

Definition emits_head (T : list LRValue -> option res) (c c1 : BCComp) (exit : option Z) : Prop :=
  match exit with
  | Some pos => emits_test false T c c1 pos
  | None =>
      sound (fun st sc => Some (FNext st sc)) c c1 /\ forall sc, T sc = Some (RVal (JBool true) sc)
  end.

Definition opt_patch (exit : option Z) (target : Z) (s : SComp) : SComp :=
  match exit with Some pos => patch_s pos target s | None => s end.

Lemma emits_head_grows T c c1 exit : emits_head T c c1 exit -> grows c c1.
Proof. destruct exit; [by intros [? _]|]. intros [(l & H & _) _]. by apply emits_grows in H. Qed.

Lemma head_code T s c1 exit :
  emits_head T (s_comp s) c1 exit -> c_ok c1 = true -> here c1 < 2 ^ 31 ->
  forall acc, tracked acc (s_comp s) -> top_plain acc ->
  exists lt, (forall off, zlen (encode (lt off)) = zlen (encode (lt 0))) /\
    emitted acc (map HI (lt 0)) s (on_comp (fun _ => c1) s) /\
    here c1 = here_s s + zlen (encode (lt 0)) /\
    decides false (pool_of c1) lt T /\
    (forall h2 s' target, c_ok (s_comp s') = true -> emitted acc (map HI (lt 0) ++ h2) s s' ->
       0 <= target < 2 ^ 31 ->
       emitted acc (map HI (lt (target - here c1)) ++ h2) s (opt_patch exit target s')).
Proof.
  intros H Hok Hh acc Ta Ha. destruct exit as [pos|].
  - destruct (emitted_test false T s c1 pos H Hok Hh acc Ta Ha) as (lh & op & args & Hop & E & -> & Hd).
    pose proof (emitted_here _ _ _ _ Ta E) as Hs. rewrite hsize_HI in Hs.
    exists (fun off => lh ++ [Instr op (args ++ [off])]). split_and!; try done.
    + intros off. by apply zlen_lt.
    + intros h2 s' target Hok' E' Ht. by apply emitted_exit.
  - destruct H as [(l & [G He] & Hl) HT]. destruct (He Hok Hh) as [P Htr]. specialize (Htr acc Ta Ha).
    pose proof (emitted_HI acc l s c1 Htr P) as E. pose proof (emitted_here _ _ _ _ Ta E) as Hs.
    rewrite hsize_HI in Hs. exists (fun _ => l). split_and!; try done.
    intros prog ext off pos st sc rs r Hp Hc Hi Hr. rewrite HT in Hr. injection Hr as <-. cbn [lr_to_bool Bool.eqb].
    rewrite Z.add_0_r. by apply (Hl Hok prog ext pos st sc rs (FNext st sc) Hp Hc Hi).
Qed.

(** What an update leaves: no value. *)
Definition discard (r : option res) (st : list LRValue) : option flow :=
  match r with
  | Some (RVal _ sc) => Some (FNext st sc)
  | Some (RExn m) => Some (FExn m)
  | None => None
  end.

(** A jump at the end, backwards to [target]. *)
Lemma emitted_back acc h s s' c target :
  tracked acc (s_comp s) -> top_plain acc -> emitted acc h s (on_comp (fun _ => c) s') ->
  let j := emit_jump realloc_ok (op_byte BC_JUMP) c in
  c_ok j.1 = true -> here j.1 < 2 ^ 31 -> 0 <= target < 2 ^ 31 ->
  here j.1 = here c + 5 /\
  emitted acc (h ++ map HI [Instr BC_JUMP [target - here j.1]]) s
          (patch_s j.2 target (on_comp (fun _ => j.1) s')).
Proof.
  intros Ta Ha E j Hok Hh Ht.
  destruct (emit_jump_here BC_JUMP c _ eq_refl (em_tracked _ _ _ _ E) (emitted_top _ _ _ _ Ha E) Hok Hh)
    as [Ej Tj]. fold j in Ej, Tj.
  pose proof (emitted_HI _ [Instr BC_JUMP [0]] (on_comp (fun _ => c) s') j.1 Tj ltac:(by repeat constructor)) as Ejump.
  pose proof (emitted_app _ _ _ _ _ _ Ta E Ejump) as E2.
  pose proof (emitted_here _ _ _ _ (em_tracked _ _ _ _ E) Ejump) as Hs. rewrite hsize_jump in Hs.
  split; [exact Hs|]. rewrite Ej. pose proof (emitted_here _ _ _ _ Ta E2) as Hs2.
  apply (emitted_patch acc h BC_JUMP [] []); try done; [by left|].
  change (here j.1 = here c + 5) in Hs. assert (0 <= here c) by apply zlen_nonneg. lia.
Qed.

Lemma patch_list_same l target c :
  c_ok (patch_list l target c) = c_ok c /\ here (patch_list l target c) = here c /\
  pool_of (patch_list l target c) = pool_of c.
Proof.
  unfold patch_list. revert c. induction l as [|p l IH]; intros c; [done|]. cbn [foldl].
  destruct (IH (patch_jump_to p target c)) as (-> & -> & ->).
  by rewrite patch_jump_ok, here_patch_jump, pool_of_patch_jump.
Qed.

Lemma loop_pop_same brk cont s :
  c_ok (s_comp (loop_pop brk cont s)) = c_ok (s_comp s) /\
  here_s (loop_pop brk cont s) = here_s s /\
  pool_of (s_comp (loop_pop brk cont s)) = pool_of (s_comp s) /\ s_info (loop_pop brk cont s) = s_info s.
Proof.
  unfold loop_pop, here_s. destruct (s_loops s) as [|lp L]; [done|]. cbn [set_loops on_comp s_comp s_info].
  destruct (patch_list_same (lp_brk lp) brk (s_comp s)) as (H1 & H2 & H3).
  destruct (patch_list_same (lp_cont lp) cont (patch_list (lp_brk lp) brk (s_comp s))) as (H4 & H5 & H6).
  destruct (lp_is_switch lp); split_and!; congruence.
Qed.

Lemma opt_patch_same exit target s :
  c_ok (s_comp (opt_patch exit target s)) = c_ok (s_comp s) /\
  here_s (opt_patch exit target s) = here_s s /\
  pool_of (s_comp (opt_patch exit target s)) = pool_of (s_comp s) /\
  s_info (opt_patch exit target s) = s_info s.
Proof.
  destruct exit; [|done]. unfold here_s. cbn [opt_patch patch_s on_comp s_comp s_info].
  by rewrite patch_jump_ok, here_patch_jump, pool_of_patch_jump.
Qed.

Lemma grows_then c1 c2 c3 : grows c1 c2 -> grows c2 c3 -> grows c1 c3.
Proof. intros. by etransitivity. Qed.

Lemma grows_of_same c c' :
  c_ok c' = c_ok c -> here c' = here c -> pool_of c' = pool_of c -> grows c c'.
Proof. intros H1 H2 H3. split; [by rewrite H1|lia|exists []; by rewrite H3, app_nil_r]. Qed.

Lemma code_at_parts prog env pos l1 brk cont p hb l2 :
  p = pos + zlen (encode l1) ->
  code_at prog pos (resolve env pos (map HI l1 ++ close brk cont p hb ++ map HI l2)) ->
  Forall instr_ok (resolve env pos (map HI l1 ++ close brk cont p hb ++ map HI l2)) ->
  (code_at prog pos l1 /\ Forall instr_ok l1) /\
  (code_at prog p (resolve (inner_env brk cont env) p hb) /\
   Forall instr_ok (resolve (inner_env brk cont env) p hb)) /\
  (code_at prog (p + hsize hb) l2 /\ Forall instr_ok l2).
Proof.
  intros Hp Hc Hi. rewrite resolve_app, resolve_HI, hsize_HI, <- Hp, resolve_app, resolve_HI, resolve_close in Hc, Hi.
  apply code_at_app in Hc as [Hc1 Hc]. apply code_at_app in Hc as [Hc2 Hc3]. rewrite zlen_resolve in Hc3.
  apply Forall_app in Hi as [Hi1 Hi]. apply Forall_app in Hi as [Hi2 Hi3]. rewrite <- Hp in *. done.
Qed.

(** The code of [for] and [while]: the test, the body, the update, and the jump
    back; a [continue] goes to the update, or to the test when there is none. *)
Definition loop_code (lt : Z -> list instr) (hb : list hinstr) (lu : list instr) (pos cont : Z) : list hinstr :=
  let p := pos + zlen (encode (lt 0)) in
  let stop := p + hsize hb + zlen (encode lu) + 5 in
  map HI (lt (stop - p)) ++ close stop cont p hb ++ map HI (lu ++ [Instr BC_JUMP [pos - stop]]).

Lemma hsize_loop_code lt hb lu pos cont :
  (forall off, zlen (encode (lt off)) = zlen (encode (lt 0))) ->
  pos + hsize (loop_code lt hb lu pos cont)
  = pos + zlen (encode (lt 0)) + hsize hb + zlen (encode lu) + 5.
Proof.
  intros H. unfold loop_code. rewrite !hsize_app, hsize_close, !hsize_HI, zlen_encode_app, H.
  rewrite encode_singleton, zlen_jump. lia.
Qed.

Lemma loop_runs pool pos lt hb lu own L T U B m cont :
  decides false pool lt T -> (forall off, zlen (encode (lt off)) = zlen (encode (lt 0))) ->
  let p := pos + zlen (encode (lt 0)) in
  runs pool p hb (fresh_loop own :: L) B ->
  computes pool lu (fun st sc => discard (U sc) st) ->
  cont = p + hsize hb \/ cont = pos /\ U = no_update ->
  runs pool pos (loop_code lt hb lu pos cont) L (iterate m (for_round own T U B)).
Proof.
  intros Hd Hsz p HB HU Hcont prog ext env st sc rs c Hpool Hc Hi Hr.
  rewrite hsize_loop_code by done. fold p. unfold loop_code in Hc, Hi. fold p in Hc, Hi.
  set (stop := p + hsize hb + zlen (encode lu) + 5) in *.
  apply code_at_parts in Hc as ([Hc1 Hi1] & [Hc2 Hi2] & [Hc3 Hi3]); [|by rewrite Hsz|done].
  apply code_at_app in Hc3 as [Hc3 Hc4]. apply Forall_app in Hi3 as [Hi3 Hi4]. apply Forall_inv in Hi4.
  assert (forall sc1, leads prog st rs (p + hsize hb) (U sc1) sc1 (fun _ => pos)) as Hupd.
  { intros sc1. unfold leads. specialize (HU prog ext (p + hsize hb) st sc1 rs). cbv beta in HU.
    destruct (U sc1) as [[v sc'|x]|]; [| |done].
    - eapply reach_trans; [exact (HU (FNext st sc') Hpool Hc3 Hi3 eq_refl)|].
      pose proof (reach_jump prog _ _ st sc' rs Hc4 Hi4) as H.
      by replace (p + hsize hb + zlen (encode lu) + 5 + (pos - stop)) with pos in H by (unfold stop; lia).
    - exact (HU (FExn x) Hpool Hc3 Hi3 eq_refl). }
  eapply (for_turns prog env L (fresh_loop own) st rs stop cont eq_refl pos p (p + hsize hb)); [| | |exact Hr].
  - intros sc1. unfold leads. destruct (T sc1) as [r|] eqn:ET; [|done].
    pose proof (Hd prog ext _ _ st sc1 rs r Hpool Hc1 Hi1 ET) as H. destruct r as [v sc'|x]; [|exact H].
    rewrite Hsz in H. fold p in H. destruct (lr_to_bool v); cbn [Bool.eqb] in H.
    + by rewrite Z.add_0_r in H.
    + by replace (p + (stop - p)) with stop in H by lia.
  - intros sc1 c' Hb. exact (HB prog ext (inner_env stop cont env) st sc1 rs c' Hpool Hc2 Hi2 Hb).
  - intros sc1 q [-> | ->]; [apply Hupd|]. destruct Hcont as [-> |[-> ->]]; [apply Hupd|constructor].
Qed.

(** What is left of the compiler's state behind a loop. *)
Lemma loop_exit (exit : option Z) (c : BCComp) s6 stop cont :
  c_ok (s_comp s6) = c_ok c -> here_s s6 = here c -> pool_of (s_comp s6) = pool_of c -> stop = here_s s6 ->
  let s8 := loop_pop stop cont (opt_patch exit stop s6) in
  grows c (s_comp s8) /\ c_ok (s_comp s8) = c_ok c /\ here_s s8 = here c /\ pool_of (s_comp s8) = pool_of c /\
  s_info s8 = s_info s6 /\ here_s (opt_patch exit stop s6) = here c /\
  c_ok (s_comp (opt_patch exit stop s6)) = c_ok c.
Proof.
  intros Ho Hh Hp Hs s8. destruct (loop_pop_same stop cont (opt_patch exit stop s6)) as (O1 & H1 & P1 & I1).
  destruct (opt_patch_same exit stop s6) as (O2 & H2 & P2 & I2). fold s8 in O1, H1, P1, I1.
  split; [|split_and!; congruence].
  apply grows_of_same; [congruence| |congruence]. change (here (s_comp s8)) with (here_s s8). congruence.
Qed.

Lemma sound_loop T U B s c1 exit s4 c5 cont :
  emits_head T (s_comp s) c1 exit ->
  sound_stmt B (on_comp (fun _ => c1) (loop_push false s)) s4 ->
  sound (fun st sc => discard (U sc) st) (s_comp s4) c5 ->
  cont = here_s s4 \/ cont = here_s s /\ U = no_update ->
  let j := emit_jump realloc_ok (op_byte BC_JUMP) c5 in
  let s6 := patch_s j.2 (here_s s) (on_comp (fun _ => j.1) s4) in
  sound_stmt (iterate fuel (for_round (s_pending s) T U B)) s
    (loop_pop (here_s s6) cont (opt_patch exit (here_s s6) s6)).
Proof.
  intros Hhead (G4 & I4 & H4) (lu & [G5 E5] & Hu) Hcont j s6. set (s1 := loop_push false s) in *.
  cbn [on_comp s_comp] in G4, G5. pose proof (emits_head_grows _ _ _ _ Hhead) as G1.
  pose proof (grows_emit_jump realloc_ok (op_byte BC_JUMP) c5) as Gj. fold j in Gj.
  destruct (loop_exit exit j.1 s6 (here_s s6) cont) as (Gend & Ko & Kh & Kp & Ki & Kh7 & Ko7);
    [apply patch_jump_ok|apply here_patch_jump|apply pool_of_patch_jump|done|].
  assert (grows c1 j.1) as G1j by (etransitivity; [exact G4|by etransitivity]).
  split; [etransitivity; [exact G1|by etransitivity]|]. split; [by rewrite Ki; exact I4|].
  rewrite Ko, Kh, Kp. intros Hok Hh acc Ta Ha. pose proof (Ta : tracked acc (s_comp s1)) as Ta1.
  assert (here_s s6 = here j.1) as Kh6 by apply here_patch_jump. rewrite Kh6 in *.
  pose proof (gr_here _ _ Gj). pose proof (gr_here _ _ G5). pose proof (gr_here _ _ G4). pose proof (gr_here _ _ G1).
  pose proof (gr_ok _ _ Gj Hok) as Hok5. pose proof (gr_ok _ _ G5 Hok5) as Hok4.
  destruct (head_code T s1 c1 exit Hhead (gr_ok _ _ G4 Hok4) ltac:(lia) acc Ta Ha) as (lt & Hsz & E1 & Hs1 & Hd & Hpatch).
  destruct (H4 Hok4 ltac:(unfold here_s; lia) _ (em_tracked _ _ _ _ E1) (emitted_top _ _ _ _ Ha E1)) as (hb & E2 & R2).
  pose proof (emitted_app _ _ _ _ _ _ Ta1 E1 E2) as E12.
  pose proof (emitted_here _ _ _ _ (em_tracked _ _ _ _ E1) E2) as Hs4. destruct (E5 Hok5 ltac:(lia)) as [Pu Tu].
  pose proof (emitted_HI _ lu s4 c5 (Tu _ (em_tracked _ _ _ _ E12) (emitted_top _ _ _ _ Ha E12)) Pu) as Eu.
  pose proof (emitted_here _ _ _ _ (em_tracked _ _ _ _ E12) Eu) as Hs5. rewrite hsize_HI in Hs5.
  change (here_s (on_comp (fun _ => c1) s1)) with (here c1) in *. change (here_s s1) with (here_s s) in *.
  change (here_s (on_comp (fun _ => c5) s4)) with (here c5) in Hs5. assert (0 <= here_s s) as Hn0 by apply zlen_nonneg.
  destruct (emitted_back acc _ s1 s4 c5 (here_s s) Ta Ha (emitted_app _ _ _ _ _ _ Ta1 E12 Eu) Hok Hh
    ltac:(unfold here_s in *; lia)) as [Hsj E6].
  fold j in Hsj, E6. fold s6 in E6. rewrite <- !app_assoc, <- map_app in E6.
  pose proof (Hpatch _ s6 (here j.1) ltac:(by rewrite <- Hok; apply patch_jump_ok) E6 ltac:(unfold here_s in *; lia)) as E7.
  destruct (emitted_pop acc (lt (here j.1 - here c1)) hb (lu ++ [Instr BC_JUMP [here_s s - here j.1]]) s _
    (here j.1) cont (here c1) ltac:(by rewrite Hsz) E7 Ta) as (_ & _ & _ & _ & E8);
    [congruence|lia|unfold here_s in *; lia|destruct Hcont as [-> |[-> _]]; unfold here_s in *; lia|].
  exists (loop_code lt hb lu (here_s s) cont). unfold loop_code. rewrite <- Hs1, <- Hs4, <- Hs5, <- Hsj.
  split; [exact E8|]. fold (loop_code lt hb lu (here_s s) cont).
  pose proof (loop_runs (pool_of j.1) (here_s s) lt hb lu (s_pending s) (s_loops s) T U B fuel cont) as R.
  unfold loop_code in R. cbv zeta in R. rewrite <- Hs1, <- Hs4, <- Hs5, <- Hsj in R. apply R;
    [exact (decides_grows _ _ _ _ _ G1j Hd)|exact Hsz|exact (runs_grows _ _ _ _ _ _ (grows_then _ _ _ G5 Gj) R2)
    |exact (computes_grows _ _ _ _ _ _ _ _ _ _ _ Gj (Hu Hok5))|exact Hcont].
Qed.

(** [do while]: the test jumps back when it holds. *)
Definition do_code (l1 : list instr) (hb : list hinstr) (lt : Z -> list instr) (pos : Z) : list hinstr :=
  let p := pos + zlen (encode l1) in
  let stop := p + hsize hb + zlen (encode (lt 0)) in
  map HI l1 ++ close stop (p + hsize hb) p hb ++ map HI (lt (pos - stop)).

Lemma do_runs pool pos l1 hb lt own L T B m :
  decides true pool lt T -> (forall off, zlen (encode (lt off)) = zlen (encode (lt 0))) ->
  let p := pos + zlen (encode l1) in
  computes pool l1 (fun st sc => Some (FNext st sc)) -> runs pool p hb (fresh_loop own :: L) B ->
  runs pool pos (do_code l1 hb lt pos) L (iterate m (do_round own T B)).
Proof.
  intros Hd Hsz p H1 HB prog ext env st sc rs c Hpool Hc Hi Hr. unfold do_code in *. fold p in Hc, Hi |- *.
  set (stop := p + hsize hb + zlen (encode (lt 0))) in *.
  replace (pos + hsize (map HI l1 ++ close stop (p + hsize hb) p hb ++ map HI (lt (pos - stop)))) with stop
    by (rewrite !hsize_app, hsize_close, !hsize_HI, Hsz; unfold stop, p; lia).
  apply code_at_parts in Hc as ([Hc1 Hi1] & [Hc2 Hi2] & [Hc3 Hi3]); [|done|done].
  eapply (do_turns prog env L (fresh_loop own) st rs stop (p + hsize hb) eq_refl pos (p + hsize hb)); [| |exact Hr].
  - intros sc1 c' Hb. eapply ends_reach; [exact (H1 prog ext _ st sc1 rs (FNext st sc1) Hpool Hc1 Hi1 eq_refl)|].
    exact (HB prog ext _ st sc1 rs c' Hpool Hc2 Hi2 Hb).
  - intros sc1 q Hq. assert (q = p + hsize hb) as -> by (by destruct Hq). unfold leads.
    destruct (T sc1) as [r|] eqn:ET; [|done].
    pose proof (Hd prog ext _ _ st sc1 rs r Hpool Hc3 Hi3 ET) as H. destruct r as [v sc'|x]; [|exact H].
    rewrite Hsz in H. fold stop in H. destruct (lr_to_bool v); cbn [Bool.eqb] in H.
    + by replace (stop + (pos - stop)) with pos in H by lia.
    + by rewrite Z.add_0_r in H.
Qed.

Lemma sound_do_loop T B s c1 s4 c5 exit :
  sound (fun st sc => Some (FNext st sc)) (s_comp s) c1 ->
  sound_stmt B (on_comp (fun _ => c1) (loop_push false s)) s4 ->
  emits_test true T (s_comp s4) c5 exit ->
  let s6 := patch_s exit (here_s s) (on_comp (fun _ => c5) s4) in
  sound_stmt (iterate fuel (do_round (s_pending s) T B)) s (loop_pop (here_s s6) (here_s s4) s6).
Proof.
  intros (l1 & [G1 H1] & Hl1) (G4 & I4 & H4) Ht s6. set (s1 := loop_push false s) in *.
  cbn [on_comp s_comp] in G4. pose proof (proj1 Ht) as G5.
  destruct (loop_exit None c5 s6 (here_s s6) (here_s s4)) as (Gend & Ko & Kh & Kp & Ki & _);
    [apply patch_jump_ok|apply here_patch_jump|apply pool_of_patch_jump|done|]. cbn [opt_patch] in *.
  split; [etransitivity; [exact G1|]; etransitivity; [exact G4|]; etransitivity; [exact G5|exact Gend]|].
  split; [by rewrite Ki; exact I4|]. rewrite Ko, Kh, Kp. intros Hok Hh acc Ta Ha.
  assert (here_s s6 = here c5) as Kh6 by apply here_patch_jump. rewrite Kh6 in *.
  pose proof (gr_here _ _ G5). pose proof (gr_here _ _ G4). pose proof (gr_here _ _ G1).
  pose proof (gr_ok _ _ G5 Hok) as Hok4. pose proof (gr_ok _ _ G4 Hok4) as Hok1.
  destruct (H1 Hok1 ltac:(lia)) as [P1 T1]. pose proof (Ta : tracked acc (s_comp s1)) as Ta1.
  pose proof (emitted_HI acc l1 s1 c1 (T1 acc Ta Ha) P1) as E1.
  pose proof (emitted_here _ _ _ _ Ta1 E1) as Hs1. rewrite hsize_HI in Hs1.
  destruct (H4 Hok4 ltac:(unfold here_s; lia) _ (em_tracked _ _ _ _ E1) (emitted_top _ _ _ _ Ha E1)) as (hb & E2 & R2).
  pose proof (emitted_app _ _ _ _ _ _ Ta1 E1 E2) as E12.
  pose proof (emitted_here _ _ _ _ (em_tracked _ _ _ _ E1) E2) as Hs4.
  change (here_s (on_comp (fun _ => c1) s1)) with (here c1) in *. change (here_s s1) with (here_s s) in *.
  destruct (emitted_test true T s4 c5 exit Ht Hok ltac:(lia) _ (em_tracked _ _ _ _ E12) (emitted_top _ _ _ _ Ha E12))
    as (lh & op & args & Hop & E3 & -> & Hd). set (lt o := lh ++ [Instr op (args ++ [o])]) in *.
  pose proof (emitted_here _ _ _ _ (em_tracked _ _ _ _ E12) E3) as Hs5. rewrite hsize_HI in Hs5.
  change (here_s (on_comp (fun _ => c5) s4)) with (here c5) in Hs5.
  pose proof (emitted_app _ _ _ _ _ _ Ta1 E12 E3) as E5. unfold lt in E5. rewrite map_app, app_assoc in E5.
  assert (0 <= here_s s) as Hn0 by apply zlen_nonneg.
  pose proof (emitted_patch acc ((map HI l1 ++ hb) ++ map HI lh) op args [] s1 (on_comp (fun _ => c5) s4) (here c5)
    (here_s s) Hop Ta1 Hok E5 (emitted_here _ _ _ _ Ta1 E5) ltac:(unfold here_s in *; lia)) as E6. fold s6 in E6.
  change [HI (Instr op (args ++ [here_s s - here c5]))] with (map HI [Instr op (args ++ [here_s s - here c5])]) in E6.
  rewrite <- !app_assoc, <- map_app in E6. fold (lt (here_s s - here c5)) in E6.
  destruct (emitted_pop acc l1 hb (lt (here_s s - here c5)) s s6 (here c5) (here_s s4) (here c1) Hs1 E6 Ta)
    as (_ & _ & _ & _ & E8); [by rewrite <- Hok; apply patch_jump_ok|lia|unfold here_s in *; lia..|].
  exists (do_code l1 hb lt (here_s s)).
  pose proof (do_runs (pool_of c5) (here_s s) l1 hb lt (s_pending s) (s_loops s) T B fuel Hd
    ltac:(intros; by apply zlen_lt)) as R. cbv zeta in R. unfold do_code in *.
  fold (lt 0) in Hs5. rewrite <- Hs1, <- Hs4, <- Hs5 in R |- *. split; [exact E8|].
  apply R; [exact (computes_grows _ _ _ _ _ _ _ _ _ _ _ (grows_then _ _ _ G4 G5) (Hl1 Hok1))
    |exact (runs_grows _ _ _ _ _ _ G5 R2)].
Qed.

(** ** [break], [continue] and [return] *)

Lemma sound_fail F s : sound_stmt F s (fail s).
Proof.
  split; [|split; [done|done]]. apply grows_same; done.
Qed.

(** One pending jump, recorded in a loop. *)
Lemma sound_pending (cont : bool) k (c : list LRValue -> completion) s s' :
  let j := emit_jump realloc_ok (op_byte BC_JUMP) (s_comp s) in
  is_Some (s_loops s !! k) -> s_comp s' = j.1 -> s_info s' = s_info s ->
  map tag (s_loops s') = map tag (s_loops s) ->
  (forall i, lp_brk <$> s_loops s' !! i
     = (fun lp => lp_brk lp ++ if decide (false = cont /\ i = k) then [j.2] else []) <$> s_loops s !! i) ->
  (forall i, lp_cont <$> s_loops s' !! i
     = (fun lp => lp_cont lp ++ if decide (true = cont /\ i = k) then [j.2] else []) <$> s_loops s !! i) ->
  (forall prog env stop st rs sc,
     reach prog (at_pos (here_s s) st sc rs) (at_pos (env cont k) st sc rs) ->
     ends prog env (s_loops s) stop st rs (at_pos (here_s s) st sc rs) (c sc)) ->
  sound_stmt (fun sc => Some (c sc)) s s'.
Proof.
  intros j Hk Ec Ei Et Eb Ek He. pose proof (grows_emit_jump realloc_ok (op_byte BC_JUMP) (s_comp s)) as G.
  fold j in G. split; [by rewrite Ec|]. split; [done|]. unfold here_s. rewrite Ec. intros Hok Hh acc Ta Ha.
  destruct (emit_jump_here BC_JUMP (s_comp s) acc eq_refl Ta Ha Hok Hh) as [Ej Tj]. fold j in Ej, Tj.
  pose proof (tracked_size [HJ cont k] acc _ _ Ta Tj) as Hsz. unfold hsize in Hsz. cbn [map raw] in Hsz.
  rewrite encode_singleton, zlen_jump in Hsz.
  assert (forall b i, holes (here_s s) [HJ cont k] b i = if decide (b = cont /\ i = k) then [j.2] else []) as Hh1.
  { intros b i. cbn [holes]. rewrite app_nil_r, Ej. unfold here_s.
    replace (here j.1 - 4) with (here (s_comp s) + 1) by lia.
    destruct (decide (b = cont /\ i = k)) as [[-> ->]|Hn]; [by rewrite decide_True|].
    rewrite decide_False; [done|]. intros [-> ->]. by apply Hn. }
  exists [HJ cont k]. split.
  - split; [by rewrite Ec|by repeat constructor|constructor; [by eapply lookup_lt_is_Some|done]|split; [exact Et|..]]; intros i.
    + rewrite Eb. destruct (s_loops s !! i); [|done]. cbn [fmap option_fmap option_map]. by rewrite Hh1.
    + rewrite Ek. destruct (s_loops s !! i); [|done]. cbn [fmap option_fmap option_map]. by rewrite Hh1.
  - intros prog ext env st sc rs c' Hp Hc Hi [= <-]. cbn [resolve] in Hc, Hi. apply Forall_inv in Hi.
    apply He. pose proof (reach_jump prog _ _ st sc rs Hc Hi) as H.
    fold (here_s s) in *. by replace (here_s s + 5 + (env cont k - (here_s s + 5))) with (env cont k) in H by lia.
Qed.

Lemma find_target_lookup l nl L k : find_target l nl L = Some k -> is_Some (L !! k).
Proof.
  revert k. induction L as [|lp L IH]; intros k; [done|]. cbn [find_target].
  destruct (match l with None => _ | _ => _ end); [intros [= <-]; by eexists|].
  destruct (find_target l nl L); [|done]. cbn. intros [= <-]. by apply IH.
Qed.

Lemma on_comp_jump op s :
  jump_s realloc_ok op s
  = (on_comp (fun _ => (emit_jump realloc_ok (op_byte op) (s_comp s)).1) s,
     (emit_jump realloc_ok (op_byte op) (s_comp s)).2).
Proof. unfold jump_s. by destruct (emit_jump realloc_ok (op_byte op) (s_comp s)). Qed.

Lemma insert_tags (L : list BCLoop) k lp lp' :
  L !! k = Some lp -> tag lp' = tag lp -> map tag (<[k := lp']> L) = map tag L.
Proof.
  intros H E. change (map tag) with (fmap (M := list) tag). rewrite list_fmap_insert, E.
  apply list_insert_id. by rewrite list_lookup_fmap, H.
Qed.

Lemma loop_add_list l cap pos l' cap' : loop_add realloc_ok l cap pos = Some (l', cap') -> l' = l ++ [pos].
Proof. unfold loop_add. repeat case_if; congruence. Qed.

(** The field [f] of the loops after one is replaced. *)
Lemma insert_field {A} (f : BCLoop -> list A) (L : list BCLoop) k lp lp' d (P : Prop) `{Decision P} :
  L !! k = Some lp -> f lp' = f lp ++ (if decide P then d else []) ->
  forall i, f <$> <[k := lp']> L !! i
    = (fun lp => f lp ++ if decide (P /\ i = k) then d else []) <$> L !! i.
Proof.
  intros HL Hf i. destruct (decide (i = k)) as [->|Hne].
  - rewrite list_lookup_insert_eq by by eapply lookup_lt_Some. rewrite HL. simpl. rewrite Hf.
    destruct (decide P), (decide (P /\ k = k)); tauto.
  - rewrite list_lookup_insert_ne by done. destruct (L !! i); simpl; [|done].
    rewrite decide_False by tauto. by rewrite app_nil_r.
Qed.

Lemma sound_break label s :
  sound_stmt (fun sc => Some (CBreak (label_name label) sc)) s (cbreak realloc_ok label s).
Proof.
  unfold cbreak. destruct (find_target (label_name label) false (s_loops s)) as [k|] eqn:Ef; [|apply sound_fail].
  rewrite on_comp_jump. cbn [on_comp s_loops]. destruct (find_target_lookup _ _ _ _ Ef) as [lp Hlp]. rewrite Hlp.
  destruct (loop_add _ _ _ _) as [[l cap]|] eqn:Ea; [|].
  - apply loop_add_list in Ea. apply (sound_pending false k (CBreak (label_name label))); try done.
    + by eapply insert_tags.
    + by apply (insert_field lp_brk _ _ lp).
    + apply (insert_field lp_cont _ _ lp); [done|]. cbn. by rewrite app_nil_r.
    + intros prog env stop st rs sc H. cbn. by rewrite Ef.
  - split; [|split; [done|done]]. etransitivity; [apply grows_emit_jump|]. apply grows_same; done.
Qed.

Lemma sound_continue label s :
  sound_stmt (fun sc => Some (CContinue (label_name label) sc)) s (ccontinue realloc_ok label s).
Proof.
  unfold ccontinue. destruct (find_target (label_name label) true (s_loops s)) as [k|] eqn:Ef; [|apply sound_fail].
  destruct (find_target_lookup _ _ _ _ Ef) as [lp Hlp]. rewrite Hlp.
  destruct (lp_is_switch lp) eqn:Es; [apply sound_fail|].
  rewrite on_comp_jump. cbn [on_comp s_loops]. rewrite Hlp.
  destruct (loop_add _ _ _ _) as [[l cap]|] eqn:Ea.
  - apply loop_add_list in Ea. apply (sound_pending true k (CContinue (label_name label))); try done.
    + by eapply insert_tags.
    + apply (insert_field lp_brk _ _ lp); [done|]. cbn. by rewrite app_nil_r.
    + by apply (insert_field lp_cont _ _ lp).
    + intros prog env stop st rs sc H. cbn. by rewrite Ef.
  - split; [|split; [done|done]]. etransitivity; [apply grows_emit_jump|]. apply grows_same; done.
Qed.

Lemma step_at prog pos i st sc rs :
  code_at prog pos [i] -> step prog (at_pos pos st sc rs) = exec_op prog (i_op i) (at_pos (pos + 1) st sc rs).
Proof. exact (step_instr cast_ub pow alloc_ok grow_ok new_ptr sole prog i (at_pos pos st sc rs)). Qed.

(** A value, and [BC_RETURN]. *)
Lemma sound_return (T : list LRValue -> option res) s c1 :
  sound (fun st sc => res_flow (T sc) st) (s_comp s) c1 ->
  sound_stmt (fun sc => with_value (T sc) (fun v sc1 => Some (CReturn v sc1))) s
    (on_comp (fun _ => emit_op BC_RETURN c1) s).
Proof.
  intros (l & He & Hl). pose proof (emits_op realloc_ok BC_RETURN c1 eq_refl ltac:(done)) as Hr.
  destruct (emits_app _ _ _ _ _ He Hr) as [G H]. split; [exact G|]. split; [done|].
  intros Hok Hh acc Ta Ha. destruct (H Hok Hh) as [P HT]. exists (map HI (l ++ [Instr BC_RETURN []])).
  split; [by apply emitted_HI; auto|].
  intros prog ext env st sc rs c Hp Hc Hi Hr'. rewrite resolve_HI in Hc, Hi.
  apply code_at_app in Hc as [Hc1 Hc2]. apply Forall_app in Hi as [Hi1 Hi2].
  pose proof (computes_grows _ _ _ _ _ _ _ _ _ _ _ (emits_grows _ _ _ Hr) (Hl (gr_ok _ _ (emits_grows _ _ _ Hr) Hok))) as H1.
  specialize (H1 prog ext (here_s s) st sc rs). cbv beta in H1. unfold with_value in Hr'. destruct (T sc) as [[v sc1|m]|]; [| |done].
  - injection Hr' as <-. specialize (H1 (FNext (v :: st) sc1) Hp Hc1 Hi1 eq_refl).
    eexists. split; [exact H1|]. exact (step_at _ _ _ _ sc1 rs Hc2).
  - injection Hr' as <-. exact (H1 (FExn m) Hp Hc1 Hi1 eq_refl).
Qed.

End Correctness.
