(* ===== verification/CstmtOk.v ===== *)
(** Correctness of [cstmt] on the statements of [supported_stmt]: declarations,
    the fused tests and updates of [for], statement lists, and the induction. *)

From stdpp Require Import base list strings.
From Stdlib Require Import ZArith Lia SpecFloat Ascii.
From S2P Require Import Prelude.
From S2P Require Import BcProgram.
From S2P Require Import BcEmit.
From S2P Require Import F64.
From S2P Require Import NumText.
From S2P Require Import JsOps.
From S2P Require Import JsLaws.
From S2P Require Import Vm.
From S2P Require Import VmCode.
From S2P Require Import Emits.
From S2P Require Import Jumps.
From S2P Require Import Compile.
From S2P Require Import Stmt.
From S2P Require Import Eval.
From S2P Require Import StmtEval.
From S2P Require Import CompileOk.
From S2P Require Import StmtOk.

Section Correctness.

Context (realloc_ok calloc_ok : Z -> alloc_result) (cast_ub : f64 -> Z) (pow : f64 -> f64 -> f64).
Context (alloc_ok grow_ok : Z -> alloc_result) (new_ptr : option Z).
Context (sole : vm -> nat -> bool).

Hypothesis cast_range : forall d, in_int32 (cast_ub d) = true.
Hypothesis alloc_all : forall n, alloc_ok n = true.

Context (nm : list (list Z)) (info : scope_info).
Context (node_addr : ASTNode -> Z) (stmt_addr : Stmt -> Z) (fuel : nat).
Hypothesis slots_named :
  forall name slot, local_slot info name = Some slot -> find_name name nm 0 = Some slot.

Abbreviation at_pos := (state_at nm).
Abbreviation computes := (computes cast_ub pow alloc_ok grow_ok new_ptr sole nm).
Abbreviation sound := (sound cast_ub pow alloc_ok grow_ok new_ptr sole nm).
Abbreviation sound_stmt := (sound_stmt cast_ub pow alloc_ok grow_ok new_ptr sole nm).
Abbreviation emits_head := (emits_head cast_ub pow alloc_ok grow_ok new_ptr sole nm).
Abbreviation emits_test := (emits_test cast_ub pow alloc_ok grow_ok new_ptr sole nm).
Abbreviation cexpr := (cexpr realloc_ok cast_ub info node_addr).
Abbreviation cstmt := (cstmt realloc_ok calloc_ok cast_ub node_addr stmt_addr).
Abbreviation eval := (eval cast_ub pow new_ptr info).
Abbreviation exec := (exec cast_ub pow new_ptr info fuel).
Abbreviation emit_op op := (emit realloc_ok (op_byte op)).
Abbreviation supported := (supported info).

(** ** Evaluation keeps the number of slots *)

Lemma assigns_high k n : 2 ^ 16 <= k -> assigns info k n = false.
Proof.
  intros Hk. assert (forall e, is_slot info k e = false) as Hs.
  { intros [| |[name|]| | | | | |]; try done. cbn. apply bool_decide_eq_false. intros E.
    apply local_slot_range in E. lia. }
  induction n as [|l|name|op l r IHl IHr|op prefix arg IH|c t e IHc IHt IHe
    |op t v _ IH IHr|es IH|id] using node_ind_right; cbn [assigns]; rewrite ?Hs; try done.
  - by rewrite IHl, IHr.
  - destruct op; [|done]. by rewrite IH, andb_false_r.
  - by rewrite IHc, IHt, IHe.
  - induction IH as [|e l He _ IHl]; [done|]. cbn. by rewrite He, IHl.
Qed.

Lemma eval_len n sc v sc' : eval n sc = Some (RVal v sc') -> zlen sc' = zlen sc.
Proof.
  intros E. pose proof (eval_keeps cast_ub pow new_ptr info (2 ^ 16) n sc ltac:(lia)
    (assigns_high (2 ^ 16) n ltac:(lia))) as H. rewrite E in H. apply H.
Qed.

(** ** Declarations *)

Lemma emits_declare idx c :
  emits [Instr BC_DECLARE_VAR [idx; 0]] c (emit_declare realloc_ok idx 0 c).
Proof.
  apply (emits_instr realloc_ok (Instr BC_DECLARE_VAR [idx; 0])); [|done]. intros Hok. split; [|done].
  change (emit_instr _ _ c) with (emit realloc_ok 0 (emit16 realloc_ok idx (emit_op BC_DECLARE_VAR c))) in Hok.
  pose proof (gr_ok _ _ (grows_emit realloc_ok 0 _) Hok) as Hok1.
  destruct (emit16_view realloc_ok idx _ Hok1) as (_ & Hi & _). unfold instr_ok. cbn. split; [exact Hi|by right].
Qed.

(** Reading the operands of [BC_DECLARE_VAR]. *)
Lemma exec_declare names prog idx pos st sc rs :
  code_at prog pos [Instr BC_DECLARE_VAR [idx; 0]] -> instr_ok (Instr BC_DECLARE_VAR [idx; 0]) ->
  exec_op cast_ub pow alloc_ok grow_ok new_ptr sole prog BC_DECLARE_VAR (state_at names (pos + 1) st sc rs)
  = declare_var prog idx 0 (state_at names (pos + 4) st sc rs).
Proof.
  intros Hc Hi. unfold instr_ok in Hi. cbn in Hi.
  assert (encode_args (operand_layout BC_DECLARE_VAR) [idx; 0] = le_bytes 2 idx ++ [0]) as He by done.
  pose proof (rd16_in _ _ _ _ [] _ _ Hc He ltac:(lia)) as H16.
  pose proof (at_operand _ _ _ _ _ _ Hc He) as H8. rewrite zlen_le_bytes in H8.
  change (zlen (@nil Z)) with 0 in H16. rewrite Z.add_0_r in H16. change (Z.of_nat 2) with 2 in H8.
  unfold exec_op. cbn [state_at ip]. rewrite H16, H8. f_equal. unfold jump, state_at. cbn. f_equal. lia.
Qed.

Lemma computes_declare pool idx t h name slot :
  pool !! Z.to_nat idx = Some (PoolString t h) -> cstr t = name -> find_name name nm 0 = Some slot ->
  computes pool [Instr BC_DECLARE_VAR [idx; 0]]
    (fun st sc => match st with
                  | v :: st' => Some (FNext st' (<[Z.to_nat slot := v]> sc))
                  | [] => None
                  end).
Proof.
  intros Hp Ht Hn. apply computes_instr. intros prog ext pos st sc rs r Hpool Hc Hi Hr.
  destruct st as [|v st]; [done|]. injection Hr as <-. cbn [i_op].
  rewrite (exec_declare nm prog idx) by done. unfold declare_var. cbn [pop stack state_at Z.eqb].
  rewrite Hpool, (lookup_app_l_Some _ _ _ _ Hp). unfold scope_declare_name.
  cbn [set_stack names]. rewrite Ht. cbn [state_at names]. by rewrite Hn.
Qed.

Lemma local_slot_listed name slot :
  local_slot info name = Some slot -> register_local_name (Some name) (local_names info) = local_names info.
Proof.
  intros H. unfold register_local_name.
  assert (listed name (local_names info) = true) as ->; [|by rewrite orb_true_r].
  apply bool_decide_eq_true. unfold local_slot in H. destruct (_ && _); [|done].
  destruct (find_name name _ 0) eqn:E; [|done]. clear -E. revert E. generalize 0.
  induction (local_names info) as [|x l IH]; intros i; cbn; [done|].
  case_bool_decide; [intros _; subst; by left|]. intros E. right. by eapply IH.
Qed.

Lemma with_names_same i : with_names (local_names i) i = i.
Proof. by destruct i. Qed.

Lemma store_in_scope slot v sc : in_scope slot sc = true -> <[Z.to_nat slot := v]> sc = store_slot slot v sc.
Proof. intros H. unfold store_slot. by rewrite H. Qed.

Lemma load_in_scope slot sc :
  in_scope slot sc = true -> 0 <= slot -> sc !! Z.to_nat slot = Some (load_slot slot sc).
Proof.
  intros H Hs. unfold load_slot. rewrite H. unfold in_scope, u16 in H. to_prop.
  destruct (lookup_lt_is_Some_2 sc (Z.to_nat slot)) as [v ->]; [|done].
  pose proof (Z.mod_le (zlen sc) (2 ^ 16) ltac:(apply zlen_nonneg) ltac:(lia)). unfold zlen in *. lia.
Qed.

(** The pool entry of a name, [BC_DECLARE_VAR] after a value. *)
Lemma sound_declare name slot c :
  local_slot info name = Some slot -> cstr name = name ->
  let p := pool_add_str realloc_ok (Some name) c in
  sound (fun st sc => match st with
                      | v :: st' => Some (FNext st' (<[Z.to_nat slot := v]> sc))
                      | [] => None
                      end) c (emit_declare realloc_ok p.2 0 p.1).
Proof.
  intros Hs Hn p. exists ([] ++ [Instr BC_DECLARE_VAR [p.2; 0]]). split.
  - apply (emits_app _ _ c p.1); [|apply emits_declare].
    apply emits_nil; [apply grows_add_str|apply view_add_str].
  - intros Hok. pose proof (emits_grows _ _ _ (emits_declare p.2 p.1)) as G.
    apply (computes_grows _ _ _ _ _ _ _ p.1); [done|].
    destruct (pool_str_const realloc_ok name c p.1 p.2 (surjective_pairing _) (gr_ok _ _ G Hok)) as (t & h & Hk & Ht).
    apply (computes_declare _ _ t h name); [done|by rewrite Ht|by apply slots_named].
Qed.

(** An initialiser, or [undefined], then the declaration. *)
Lemma cdeclarator_info kind name slot init s :
  s_info s = info -> local_slot info name = Some slot ->
  let s' := cdeclarator realloc_ok cast_ub node_addr kind name init s in
  s_info s' = info /\ s_pending s' = s_pending s /\ s_loops s' = s_loops s.
Proof.
  intros Hi Hs. unfold cdeclarator. cbn [on_names s_info s_pending s_loops on_comp].
  destruct init; cbn [expr_s emit_s on_comp s_info s_pending s_loops];
    rewrite Hi, (local_slot_listed _ _ Hs), with_names_same; done.
Qed.

Lemma only_comp s s' :
  s_info s' = s_info s -> s_pending s' = s_pending s -> s_loops s' = s_loops s ->
  s' = on_comp (fun _ => s_comp s') s.
Proof. destruct s, s'. cbn. by intros -> -> ->. Qed.

Lemma sound_init init c :
  supported_opt info init = true ->
  sound (fun st sc => res_flow (match init with Some e => eval e sc | None => Some (RVal JUndefined sc) end) st) c
    (match init with Some e => cexpr e c | None => emit_op BC_PUSH_UNDEFINED c end).
Proof. destruct init as [e|]; intros H; [by apply cexpr_sound|by apply sound_const]. Qed.

Lemma sound_declarator name slot init s :
  s_info s = info -> local_slot info name = Some slot -> cstr name = name -> supported_opt info init = true ->
  sound_stmt (exec_var cast_ub pow new_ptr info (DVar (PIdent (Some name)) init)) s
    (cdeclarator realloc_ok cast_ub node_addr 0 name init s).
Proof.
  intros Hi Hs Hn Hsup. destruct (cdeclarator_info 0 name slot init s Hi Hs) as (H1 & H2 & H3).
  rewrite (only_comp s _ (eq_trans H1 (eq_sym Hi)) H2 H3).
  set (c1 := match init with Some e => cexpr e (s_comp s) | None => emit_op BC_PUSH_UNDEFINED (s_comp s) end).
  assert (s_comp (cdeclarator realloc_ok cast_ub node_addr 0 name init s)
    = let p := pool_add_str realloc_ok (Some name) c1 in emit_declare realloc_ok p.2 0 p.1) as ->.
  { unfold cdeclarator, expr_s, emit_s, c1. cbn [on_names on_comp s_comp]. rewrite Hi.
    destruct init; cbn [on_comp s_comp]; by destruct (pool_add_str _ _ _). }
  eapply sound_code; [eapply sound_then; [exact (sound_init init (s_comp s) Hsup)|exact (sound_declare name slot c1 Hs Hn)]|].
  - intros st sc c. cbn [exec_var]. rewrite Hs. cbn [mbind option_bind].
    destruct (in_scope slot sc) eqn:Hin; [|done]. pose proof (local_slot_range _ _ _ Hs) as Hr.
    unfold then_. destruct init as [e|].
    + destruct (eval e sc) as [[v sc1|m]|] eqn:Ee; cbn; [| |done].
      * intros [= <-]. eexists. split; [done|]. split; [done|]. apply store_in_scope.
        by rewrite (in_scope_len slot sc) by by eapply eval_len.
      * intros [= <-]. by eexists.
    + destruct (is_undefined _) eqn:Hu; [|done]. intros [= <-]. eexists. split; [done|]. split; [done|].
      apply list_insert_id. rewrite load_in_scope by (done || lia). by destruct (load_slot slot sc).
Qed.

Lemma sound_declarators vars s :
  s_info s = info -> forallb (supported_var info) vars = true ->
  sound_stmt (exec_vars cast_ub pow new_ptr info vars) s
    (cdeclarators realloc_ok cast_ub node_addr 0 vars s) /\
  s_pending (cdeclarators realloc_ok cast_ub node_addr 0 vars s) = s_pending s.
Proof.
  revert s. induction vars as [|d l IH]; intros s Hi Hs; [split; [apply sound_skip|done]|].
  cbn [forallb] in Hs. apply andb_prop in Hs as [Hd Hs].
  destruct d as [|[|[name|]|?|?|?|?|?|?] init]; try done; cbn [cdeclarators exec_vars].
  - destruct (IH s Hi Hs) as [H Hp]. split; [|done].
    eapply sound_stmt_weaken; [|exact H]. intros sc c. done.
  - cbn [supported_var] in Hd. destruct (local_slot info name) as [slot|] eqn:El; [|done].
    apply andb_prop in Hd as [Hd Hn]. apply bool_decide_eq_true in Hn.
    pose proof (sound_declarator name slot init s Hi El Hn Hd) as H.
    destruct (cdeclarator_info 0 name slot init s Hi El) as (Hi' & Hp' & _).
    destruct (IH _ Hi' Hs) as [H2 Hp2]. split; [by eapply sound_seq|congruence].
Qed.

Lemma sound_var_decl vars s :
  s_info s = info -> forallb (supported_var info) vars = true ->
  let s' := cvar_decl realloc_ok cast_ub node_addr stmt_addr TOK_VAR vars s in
  sound_stmt (exec_vars cast_ub pow new_ptr info vars) s s' /\ s_pending s' = s_pending s.
Proof.
  intros Hi Hs. unfold cvar_decl.
  assert (existsb binds_pattern vars = false) as ->; [|by apply sound_declarators].
  clear -Hs. induction vars as [|d l IH]; [done|]. cbn [forallb existsb] in *.
  apply andb_prop in Hs as [Hd Hs]. rewrite IH by done. by destruct d as [|[|[name|]| | | | | |]].
Qed.

(** ** The head of a [for] loop *)

Lemma sound_tick c : sound (fun st sc => Some (FNext st sc)) c (emit_op BC_LOOP_TICK c).
Proof.
  eapply sound_emits; [by apply emits_op|]. intros pool. apply computes_instr.
  intros prog ext pos st sc rs r _ _ _ [= <-]. cbn. done.
Qed.

Lemma head_expr e c :
  supported e = true ->
  let j := emit_jump realloc_ok (op_byte BC_JUMP_IF_FALSE) (cexpr e (emit_op BC_LOOP_TICK c)) in
  emits_head (eval e) c j.1 (Some j.2).
Proof.
  intros Hs j. apply (emits_test_expr realloc_ok cast_ub pow alloc_ok grow_ok new_ptr sole nm info false).
  eapply sound_weaken; [|eapply sound_then; [apply sound_tick|by apply cexpr_sound]]. done.
Qed.

(** A test [slot < imm]. *)
Lemma int_literal_exact d : f64_eqb d (f64_of_Z (cast_int32 cast_ub d)) = true -> int_literal cast_ub d = true.
Proof.
  intros H. unfold int_literal. rewrite H. cbn [andb].
  pose proof (cast_int32_range cast_ub cast_range d) as Hr. set (imm := cast_int32 cast_ub d) in *.
  apply f64_eqb_same in H as [E|(a & b & -> & _)]; [|by destruct a].
  pose proof (in_int32_small _ Hr) as Hsm. apply in_int32_spec in Hr. unfold INT32_MIN, INT32_MAX in Hr.
  assert (small_int (-2147483648) /\ small_int 2147483647) as [H1 H2] by (unfold small_int; lia).
  assert (f64_leb (f64_of_Z (-2147483648)) (f64_of_Z imm) = true
    /\ f64_leb (f64_of_Z imm) (f64_of_Z 2147483647) = true) as [La Lb]
    by (rewrite !f64_leb_int by done; lia).
  rewrite E, La, Lb. destruct (f64_of_Z imm) as [|[]| |]; done.
Qed.

Lemma binop_lt a imm : in_int32 imm = true ->
  binop cast_ub pow new_ptr BC_LT a (JInt32 imm)
  = Done (JBool match a with JInt32 i => i <? imm | v => f64_ltb (bcv_to_number v) (f64_of_Z imm) end).
Proof.
  intros Hi. pose proof (in_int32_small _ Hi) as Hsm.
  pose proof (f64_compare_int imm imm Hsm Hsm) as Hc.
  assert (isnan (f64_of_Z imm) = false) as Hn by (by destruct (f64_of_Z imm)).
  assert (forall a, bcv_relational a (JInt32 imm) 0 = f64_ltb (bcv_to_number a) (f64_of_Z imm)) as Hrel.
  { intros v. transitivity (if isnan (bcv_to_number v) || isnan (f64_of_Z imm) then false
      else f64_ltb (bcv_to_number v) (f64_of_Z imm)); [by destruct v|].
    rewrite Hn, orb_false_r. destruct (isnan (bcv_to_number v)) eqn:E; [|done].
    by rewrite f64_ltb_nan by by rewrite E. }
  destruct a as [| |b|i|d|x|k desc|p o|]; try done;
    match goal with |- _ = Done (JBool (f64_ltb (bcv_to_number ?v) _)) =>
      transitivity (Done (JBool (bcv_relational v (JInt32 imm) 0))); [|by rewrite Hrel]
    end; try done.
  by destruct o.
Qed.

Lemma quick_test_range e slot imm :
  quick_test cast_ub info e = Some (slot, imm) -> 0 <= slot <= 65535 /\ in_int32 imm = true.
Proof.
  unfold quick_test. destruct e as [| | |op [| |[name|]| | | | | |] [|[bits| | | | |]| | | | | | |]| | | | |]; try done.
  destruct (_ && _); [|done]. destruct (local_slot info name) as [sl|] eqn:Es; [|done].
  cbn [mbind option_bind]. intros [= <- <-]. apply local_slot_range in Es.
  split; [lia|by apply cast_int32_range].
Qed.

Lemma quick_test_eval e slot imm sc r :
  quick_test cast_ub info e = Some (slot, imm) -> eval e sc = Some r ->
  r = RVal (JBool (local_lt slot imm sc)) sc.
Proof.
  unfold quick_test. destruct e as [| | |op [| |[name|]| | | | | |] [|[bits| | | | |]| | | | | | |]| | | | |]; try done.
  unfold str_eqb. destruct (String.eqb_spec op "<") as [->|]; [|done]. cbn [andb].
  destruct (f64_eqb _ _) eqn:Eq; [|done]. destruct (local_slot info name) as [sl|] eqn:Es; [|done].
  cbn [mbind option_bind]. intros [= <- <-]. cbn [Eval.eval]. rewrite Es.
  change (js_short "<") with (@None (LRValue -> bool)). change (lookup_op "<" js_binary) with (Some BC_LT).
  cbn [mbind option_bind bind_res literal_value]. rewrite (int_literal_exact _ Eq). cbn [mbind option_bind bind_res].
  set (i := cast_int32 cast_ub (f64_of_bits bits)).
  assert (in_int32 i = true) as Hi by by apply cast_int32_range. rewrite binop_lt by done.
  intros Hr. apply (inj Some) in Hr. subst r. do 2 f_equal.
  unfold local_lt. destruct (in_scope sl sc) eqn:Hin.
  { by destruct (load_slot sl sc). }
  unfold load_slot. by rewrite Hin.
Qed.

(** The fused test and jump. *)
Lemma reach_quick prog pos slot imm off st sc rs :
  code_at prog pos [Instr BC_JUMP_IF_LOCAL_LT_IMM [slot; imm; off]] ->
  instr_ok (Instr BC_JUMP_IF_LOCAL_LT_IMM [slot; imm; off]) ->
  reach cast_ub pow alloc_ok grow_ok new_ptr sole prog (at_pos pos st sc rs)
    (at_pos (pos + 11 + if local_lt slot imm sc then 0 else off) st sc rs).
Proof.
  intros Hc Hi. apply reach_one. rewrite (step_at cast_ub pow alloc_ok grow_ok new_ptr sole nm _ _ _ _ _ _ Hc).
  unfold instr_ok in Hi. cbn in Hi. destruct Hi as (_ & H16 & H32 & H33).
  assert (encode_args (operand_layout BC_JUMP_IF_LOCAL_LT_IMM) [slot; imm; off]
    = le_bytes 2 slot ++ le_bytes 4 imm ++ le_bytes 4 off) as He by done.
  pose proof (rd16_in _ _ _ _ [] _ _ Hc He ltac:(lia)) as R1.
  pose proof (rd32_in _ _ _ _ (le_bytes 2 slot) _ _ Hc He ltac:(lia)) as R2.
  rewrite app_assoc, <- (app_nil_r (le_bytes 4 off)) in He.
  pose proof (rd32_in _ _ _ _ _ _ _ Hc He ltac:(lia)) as R3.
  change (zlen (@nil Z)) with 0 in R1. rewrite Z.add_0_r in R1.
  rewrite zlen_le_bytes in R2. rewrite zlen_app, !zlen_le_bytes in R3.
  change (Z.of_nat 2) with 2 in *. change (2 + Z.of_nat 4) with 6 in R3.
  unfold exec_op. cbn [i_op state_at ip slots jump]. rewrite R1, R2, R3.
  destruct (local_lt slot imm sc); unfold jump, state_at; cbn; do 2 f_equal; lia.
Qed.

Lemma emits_quick slot imm c :
  0 <= slot <= 65535 -> in_int32 imm = true ->
  emits [Instr BC_JUMP_IF_LOCAL_LT_IMM [slot; imm; 0]] c
    (emit32 realloc_ok 0 (emit32 realloc_ok imm (emit16 realloc_ok slot (emit_op BC_JUMP_IF_LOCAL_LT_IMM c)))).
Proof.
  intros Hs Hi. apply (emits_instr realloc_ok (Instr BC_JUMP_IF_LOCAL_LT_IMM [slot; imm; 0])); [|done].
  intros _. split; [|done]. unfold instr_ok. cbn. apply in_int32_spec in Hi. unfold INT32_MIN, INT32_MAX in Hi.
  split_and!; done || lia.
Qed.

Lemma here_emit32 v c : c_ok (emit32 realloc_ok v c) = true -> here (emit32 realloc_ok v c) = here c + 4.
Proof.
  intros H. destruct (emit32_view _ _ _ H) as (_ & Hv).
  apply (f_equal (fun v => v.1.1.1)) in Hv. cbn [view fst] in Hv.
  unfold here. rewrite Hv, zlen_app, zlen_le_bytes. done.
Qed.

Lemma head_quick e slot imm c :
  quick_test cast_ub info e = Some (slot, imm) ->
  let c1 := emit32 realloc_ok imm
              (emit16 realloc_ok slot (emit_op BC_JUMP_IF_LOCAL_LT_IMM (emit_op BC_LOOP_TICK c))) in
  emits_head (eval e) c (emit32 realloc_ok 0 c1) (Some (here c1)).
Proof.
  intros Hq c1. destruct (quick_test_range _ _ _ Hq) as [Hs Hi]. destruct (sound_tick c) as (lt & He & Hl).
  pose proof (emits_quick slot imm (emit_op BC_LOOP_TICK c) Hs Hi) as Hj. fold c1 in Hj.
  pose proof (emits_app _ _ _ _ _ He Hj) as [G H]. split; [exact G|]. intros Hok Hh acc T Ha.
  destruct (H Hok Hh) as [P HT]. exists lt, BC_JUMP_IF_LOCAL_LT_IMM, [slot; imm]. cbn [app]. split_and!.
  - right. split; [done|]. by exists slot, imm.
  - by apply HT.
  - exact P.
  - rewrite here_emit32 by done. lia.
  - pose proof (computes_grows _ _ _ _ _ _ _ _ _ _ _ (emits_grows _ _ _ Hj)
      (Hl (gr_ok _ _ (emits_grows _ _ _ Hj) Hok))) as Hc1.
    intros prog ext off pos st sc rs r Hp Hc Hio Hr. apply code_at_app in Hc as [Hca Hcb].
    apply Forall_app in Hio as [Hia Hib]. apply Forall_inv in Hib.
    rewrite (quick_test_eval _ _ _ _ _ Hq Hr) in *.
    eapply reach_trans; [exact (Hc1 prog ext pos st sc rs (FNext st sc) Hp Hca Hia eq_refl)|].
    pose proof (reach_quick _ _ _ _ _ st sc rs Hcb Hib) as R. cbn [lr_to_bool].
    rewrite zlen_encode_app, encode_singleton, Z.add_assoc.
    change (zlen (encode_instr _)) with 11. by destruct (local_lt slot imm sc).
Qed.

Lemma head_for test s :
  supported_opt info test = true -> s_info s = info ->
  let r := cfor_test realloc_ok cast_ub node_addr test (emit_s realloc_ok BC_LOOP_TICK s) in
  emits_head (exec_test cast_ub pow new_ptr info test) (s_comp s) (s_comp r.1) r.2 /\
  r.1 = on_comp (fun _ => s_comp r.1) s.
Proof.
  intros Hs Hi. destruct test as [e|]; cbn [cfor_test emit_s on_comp s_info].
  - rewrite Hi. destruct (quick_test cast_ub info e) as [[slot imm]|] eqn:Hq.
    + split; [by apply head_quick|done].
    + rewrite on_comp_jump. unfold expr_s, emit_s. cbn [on_comp s_info s_comp fst snd]. rewrite Hi.
      split; [by apply head_expr|done].
  - split; [|done]. split; [apply sound_tick|done].
Qed.

(** ** The update of a [for] loop *)

Lemma computes_inc_discard pool slot :
  computes pool [Instr BC_INC_LOCAL_DISCARD [slot]]
    (fun st sc => discard (eval_inc cast_ub pow new_ptr false slot sc) st).
Proof.
  apply computes_instr. intros prog ext pos st sc rs r Hp Hc Hi Hr.
  rewrite (zlen_instr16 BC_INC_LOCAL_DISCARD slot) by done. unfold exec_op. cbn [i_op state_at ip].
  rewrite (rd16_at prog pos BC_INC_LOCAL_DISCARD slot) by (done || by apply (instr_ok16 BC_INC_LOCAL_DISCARD)).
  unfold eval_inc in Hr. destruct (in_scope slot sc) eqn:Hin; [|done].
  destruct (bcv_is_number _); [|done]. cbn [andb] in Hr. unfold inc_local. cbn [jump state_at slots].
  rewrite Hin.
  assert (increment cast_ub pow alloc_ok new_ptr (load_slot slot sc)
    = increment cast_ub pow (fun _ => true) new_ptr (load_slot slot sc)) as ->
    by (unfold increment; by rewrite bcv_binop_alloc).
  destruct (increment _ _ _ _ _); cbn in Hr; simplify_eq; cbn [of_outcome]; [|done].
  unfold jump, set_slots, state_at. cbn. do 2 f_equal. lia.
Qed.

Lemma quick_update_inc e slot :
  supported e = true -> quick_update info e = Some slot ->
  forall sc, eval e sc = eval_inc cast_ub pow new_ptr false slot sc.
Proof.
  destruct e as [| | | |[[|a op]|] [] [| |[name|]| | | | | |]| | | |]; try done. cbn [quick_update].
  destruct (Ascii.eqb_spec a "+"%char) as [->|]; [|done]. intros Hs Hq sc.
  cbn [Eval.supported] in Hs. cbn [Eval.eval].
  assert (str_eqb (String "+" op) "++" = true) as E.
  { destruct (str_eqb (String "+" op) "++"); [done|].
    change (str_eqb (String "+" op) "--") with false in Hs. change (str_eqb (String "+" op) "typeof") with false in Hs.
    change (str_eqb (String "+" op) "delete") with false in Hs. cbn [orb] in Hs.
    destruct (lookup_op (String "+" op) js_unary); done. }
  rewrite E. cbn [orb]. by rewrite Hq.
Qed.

Lemma sound_update_clause update s :
  supported_opt info update = true -> s_info s = info ->
  let s' := cfor_update realloc_ok cast_ub node_addr update s in
  sound (fun st sc => discard (exec_update cast_ub pow new_ptr info update sc) st) (s_comp s) (s_comp s') /\
  s' = on_comp (fun _ => s_comp s') s.
Proof.
  intros Hs Hi. destruct update as [e|]; cbn [cfor_update exec_update].
  - rewrite Hi. destruct (quick_update info e) as [slot|] eqn:Hq; (split; [|done]).
    + pose proof (quick_update_inc _ _ Hs Hq) as He.
      eapply sound_weaken; [|eapply sound_emits; [by apply emits_op16|intros; apply computes_inc_discard]].
      intros st sc r. by rewrite He.
    + unfold emit_s, expr_s. cbn [on_comp s_comp s_info]. rewrite ?Hi.
      eapply sound_weaken; [|eapply sound_then; [by apply cexpr_sound
        |apply (sound_op realloc_ok cast_ub pow alloc_ok grow_ok new_ptr sole nm BC_POP); [done..|apply computes_pop]]].
      intros st sc r. unfold then_, block_of. by destruct (eval e sc) as [[]|].
  - split; [|by destruct s]. exists []. split; [by apply emits_nil|]. intros _. apply computes_nil.
Qed.

(** ** Statements *)

Lemma cstmt_dead n top s : c_ok (s_comp s) = false -> cstmt n top s = s.
Proof. intros H. destruct n; cbn [Stmt.cstmt]; by rewrite H. Qed.

(** One of the two passes over a statement list. *)
Definition pass (func : bool) (items : list Stmt) (s : SComp) : SComp :=
  foldl (fun s n => if Bool.eqb (is_func_decl n) func then cstmt n false s else s) s items.

Lemma cstmt_block items s :
  c_ok (s_comp s) = true -> block_has_lexical items = false ->
  cstmt (AST_BLOCK items) false s = pass false items (pass true items s).
Proof.
  intros Hok Hl. cbn [Stmt.cstmt]. rewrite Hok, Hl. cbn [negb]. unfold pass.
  assert (forall func l s, (fix all (func : bool) (l : list Stmt) (s : SComp) : SComp :=
       match l with
       | [] => s
       | n :: l' => all func l' (if Bool.eqb (is_func_decl n) func then cstmt n false s else s)
       end) func l s
    = foldl (fun s n => if Bool.eqb (is_func_decl n) func then cstmt n false s else s) s l) as H.
  { clear. intros func l. induction l as [|n l IH]; intros s; [done|]. cbn [foldl]. by rewrite <- IH. }
  by rewrite !H.
Qed.

Lemma pass_no_func items s : block_has_lexical items = false -> pass true items s = s.
Proof.
  intros H. unfold pass. induction items as [|n l IH]; [done|]. cbn [block_has_lexical existsb foldl] in *.
  apply orb_false_iff in H as [Hn Hl].
  assert (is_func_decl n = false) as -> by (by destruct n). by apply IH.
Qed.

Lemma sound_expr_stmt e s :
  s_info s = info -> supported e = true ->
  sound_stmt (fun sc => with_value (eval e sc) (fun _ sc1 => Some (CNormal sc1))) s
    (emit_s realloc_ok BC_POP (expr_s realloc_ok cast_ub node_addr e s)).
Proof.
  intros Hi Hs. unfold emit_s, expr_s. rewrite Hi.
  eapply (sound_code _ _ _ _ _ _ _ _ _ s).
  - eapply sound_then; [by apply cexpr_sound|].
    apply (sound_op realloc_ok cast_ub pow alloc_ok grow_ok new_ptr sole nm BC_POP); [done..|apply computes_pop].
  - intros st sc c. unfold then_, block_of, with_value. destruct (eval e sc) as [[v sc1|m]|]; [| |done].
    + intros [= <-]. by eexists.
    + intros [= <-]. by eexists.
Qed.

(** What the induction shows of a statement. *)
Definition compiled (n : Stmt) : Prop :=
  supported_stmt info n = true -> forall s, s_info s = info -> (takes_label n = false -> s_pending s = None) ->
  sound_stmt (exec n (s_pending s)) s (cstmt n false s) /\
  (s_pending s = None -> s_pending (cstmt n false s) = None).

Lemma sound_items items :
  Forall compiled items -> forallb (supported_stmt info) items = true -> block_has_lexical items = false ->
  forall s, s_info s = info -> s_pending s = None ->
  sound_stmt (exec (AST_BLOCK items) None) s (pass false items s) /\ s_pending (pass false items s) = None.
Proof.
  unfold pass. induction 1 as [|n l Hn _ IH]; intros Hs Hl s Hi Hp; [split; [apply sound_skip|done]|].
  cbn [forallb block_has_lexical existsb foldl] in *. apply andb_prop in Hs as [Hs1 Hs2].
  apply orb_false_iff in Hl as [Hl1 Hl2].
  assert (is_func_decl n = false) as -> by (by destruct n). cbn [Bool.eqb].
  destruct (Hn Hs1 s Hi ltac:(done)) as [H1 Hp1]. specialize (Hp1 Hp). rewrite Hp in H1.
  destruct (IH Hs2 Hl2 _ (eq_trans (proj1 (proj2 H1)) Hi) Hp1) as [H2 Hp2].
  split; [|done]. eapply sound_stmt_weaken; [|eapply sound_seq; [exact H1|exact H2]]. done.
Qed.

Ltac alive Hc := cbn [Stmt.cstmt]; rewrite Hc; cbn [negb].

(** A condition and the conditional jump. *)
Lemma test_expr on e s :
  s_info s = info -> supported e = true ->
  let j := emit_jump realloc_ok (op_byte (jump_on on)) (s_comp (expr_s realloc_ok cast_ub node_addr e s)) in
  emits_test on (eval e) (s_comp s) j.1 j.2.
Proof.
  intros Hi Hs. cbn [expr_s on_comp s_comp]. rewrite Hi.
  apply (emits_test_expr realloc_ok cast_ub pow alloc_ok grow_ok new_ptr sole nm info on).
  by apply cexpr_sound.
Qed.

(** The compiled [if], with and without its other branch. *)
Definition if_code (c : ASTNode) (body other : Stmt) (s : SComp) : SComp :=
  let s1 := expr_s realloc_ok cast_ub node_addr c s in
  let j := emit_jump realloc_ok (op_byte BC_JUMP_IF_FALSE) (s_comp s1) in
  let s2 := cstmt body false (on_comp (fun _ => j.1) s1) in
  let j2 := emit_jump realloc_ok (op_byte BC_JUMP) (s_comp s2) in
  let s3 := on_comp (fun _ => j2.1) s2 in
  let s4 := cstmt other false (patch_s j.2 (here_s s3) s3) in
  patch_s j2.2 (here_s s4) s4.

Lemma cstmt_if_else c body other s :
  c_ok (s_comp s) = true -> other <> SNull ->
  cstmt (AST_IF c body other) false s = if_code c body other s.
Proof.
  intros Hc Hn. alive Hc. rewrite !on_comp_jump. unfold if_code. cbn [clear_result].
  destruct other; done.
Qed.

Lemma compiled_if c body other : compiled body -> compiled other -> compiled (AST_IF c body other).
Proof.
  intros Hb He Hs s Hi Hp. specialize (Hp eq_refl). rewrite Hp.
  cbn [supported_stmt] in Hs. apply andb_prop in Hs as [Hs Hs3]. apply andb_prop in Hs as [Hs1 Hs2].
  destruct (c_ok (s_comp s)) eqn:Hc; [|rewrite cstmt_dead by done; split; [by apply sound_stmt_dead|done]].
  pose proof (test_expr false c s Hi Hs1) as Ht. cbn [jump_on] in Ht.
  assert (other = SNull \/ other <> SNull) as [->|Hne] by (destruct other; (by left) || by right).
  - alive Hc. rewrite on_comp_jump. set (j := emit_jump realloc_ok (op_byte BC_JUMP_IF_FALSE) _) in *.
    destruct (Hb Hs2 (on_comp (fun _ => j.1) s) Hi ltac:(done)) as [H1 Hp1]. cbn [on_comp s_pending] in H1, Hp1.
    rewrite Hp in H1. specialize (Hp1 Hp). split; [|done].
    by apply (sound_if_then cast_ub pow alloc_ok grow_ok new_ptr sole nm _ _ s j.1 j.2).
  - rewrite cstmt_if_else by done. unfold if_code. set (j := emit_jump realloc_ok (op_byte BC_JUMP_IF_FALSE) _) in *.
    destruct (Hb Hs2 (on_comp (fun _ => j.1) s) Hi ltac:(done)) as [H1 Hp1]. cbn [on_comp s_pending] in H1, Hp1.
    rewrite Hp in H1. specialize (Hp1 Hp).
    change (on_comp _ (expr_s _ _ _ c s)) with (on_comp (fun _ => j.1) s).
    set (s2 := cstmt body false (on_comp (fun _ => j.1) s)) in *.
    set (s3 := patch_s j.2 _ _).
    assert (s_info s3 = info) as Hi3 by (transitivity (s_info s); [apply H1|exact Hi]).
    destruct (He Hs3 s3 Hi3 ltac:(done)) as [H3 Hp3]. change (s_pending s3) with (s_pending s2) in *.
    rewrite Hp1 in H3. split; [|intros _; exact (Hp3 Hp1)].
    by apply (sound_if_else realloc_ok cast_ub pow alloc_ok grow_ok new_ptr sole nm _ _ _ s j.1 j.2 s2).
Qed.

Lemma loop_pop_pending brk cont s : s_pending (loop_pop brk cont s) = s_pending s.
Proof. unfold loop_pop. by destruct (s_loops s). Qed.

Lemma opt_patch_pending exit target s : s_pending (opt_patch exit target s) = s_pending s.
Proof. by destruct exit. Qed.

Lemma sound_nothing c : sound (fun st sc => discard (no_update sc) st) c c.
Proof. exists []. split; [by apply emits_nil|]. intros _. apply computes_nil. Qed.

(** The first clause of a [for] loop. *)
Definition for_init (init : Stmt) (s : SComp) : SComp :=
  match init with
  | AST_VAR_DECL token vars => cvar_decl realloc_ok cast_ub node_addr stmt_addr token vars s
  | _ => cstmt init false s
  end.

Lemma sound_for_init init s :
  s_info s = info -> is_init init = true -> supported_stmt info init = true ->
  sound_stmt (exec init None) s (for_init init s) /\ s_pending (for_init init s) = s_pending s.
Proof.
  intros Hi Hin Hs. destruct (c_ok (s_comp s)) eqn:Hc.
  2: { destruct init; try done; cbn [for_init]; rewrite ?cstmt_dead by done;
         try (split; [by apply sound_stmt_dead|done]).
       destruct token; try done. by apply sound_var_decl. }
  destruct init; try done; cbn [for_init].
  - alive Hc. split; [apply sound_skip|done].
  - alive Hc. split; [by apply sound_expr_stmt|done].
  - destruct token; try done. by apply sound_var_decl.
  - alive Hc. split; [by apply sound_expr_stmt|done].
Qed.

(** The compiled [for], from the state after its first clause. *)
Definition for_code (test update : option ASTNode) (body : Stmt) (s : SComp) : SComp :=
  let head := cfor_test realloc_ok cast_ub node_addr test (emit_s realloc_ok BC_LOOP_TICK (loop_push false s)) in
  let s4 := cstmt body false head.1 in
  let s5 := cfor_update realloc_ok cast_ub node_addr update s4 in
  let j := emit_jump realloc_ok (op_byte BC_JUMP) (s_comp s5) in
  let s6 := patch_s j.2 (here_s s) (on_comp (fun _ => j.1) s5) in
  loop_pop (here_s s6) (here_s s4) (opt_patch head.2 (here_s s6) s6).

Lemma cstmt_for init test update body s :
  c_ok (s_comp s) = true ->
  cstmt (AST_FOR init test update body) false s = for_code test update body (for_init init s).
Proof.
  intros Hc. alive Hc. unfold for_code. fold (for_init init s).
  destruct (cfor_test _ _ _ _ _) as [s3 exit]. by rewrite on_comp_jump.
Qed.

Lemma sound_for_code test update body s :
  compiled body -> supported_opt info test = true -> supported_opt info update = true ->
  supported_stmt info body = true -> s_info s = info ->
  sound_stmt (iterate fuel (for_round (s_pending s) (exec_test cast_ub pow new_ptr info test)
    (exec_update cast_ub pow new_ptr info update) (exec body None))) s (for_code test update body s) /\
  s_pending (for_code test update body s) = None.
Proof.
  intros Hb H1 H2 H3 Hi. unfold for_code.
  destruct (head_for test (loop_push false s) H1 Hi) as [Hh Eh].
  destruct (cfor_test _ _ _ _ _) as [s3 exit]. cbn [fst snd] in *.
  assert (s_info s3 = info) as Hi3 by (by rewrite Eh).
  assert (s_pending s3 = None) as Hp3 by (by rewrite Eh).
  destruct (Hb H3 s3 Hi3 ltac:(done)) as [Hbody Hp4]. specialize (Hp4 Hp3). rewrite Hp3 in Hbody.
  set (s4 := cstmt body false s3) in *.
  assert (s_info s4 = info) as Hi4 by (transitivity (s_info s3); [apply Hbody|done]).
  destruct (sound_update_clause update s4 H2 Hi4) as [Hu Eu].
  set (c5 := s_comp (cfor_update realloc_ok cast_ub node_addr update s4)) in *.
  rewrite Eu. rewrite Eh in Hbody. split.
  - by apply (sound_loop realloc_ok cast_ub pow alloc_ok grow_ok new_ptr sole nm fuel _ _ _ s (s_comp s3) exit s4 c5); [..|left].
  - rewrite loop_pop_pending, opt_patch_pending. exact Hp4.
Qed.

Lemma compiled_for init test update body : compiled body -> compiled (AST_FOR init test update body).
Proof.
  intros Hb Hs s Hi _. cbn [supported_stmt] in Hs.
  apply andb_prop in Hs as [Hs H5]. apply andb_prop in Hs as [Hs H4]. apply andb_prop in Hs as [Hs H3].
  apply andb_prop in Hs as [H1 H2].
  destruct (c_ok (s_comp s)) eqn:Hc; [|rewrite cstmt_dead by done; split; [by apply sound_stmt_dead|done]].
  rewrite cstmt_for by done. destruct (sound_for_init init s Hi H1 H2) as [Hinit Hp].
  set (s1 := for_init init s) in *.
  assert (s_info s1 = info) as Hi1 by (transitivity (s_info s); [apply Hinit|done]).
  destruct (sound_for_code test update body s1 Hb H3 H4 H5 Hi1) as [Hl Hp2]. rewrite Hp in Hl.
  split; [|done]. eapply sound_stmt_weaken; [|eapply sound_seq; [exact Hinit|exact Hl]]. done.
Qed.

Lemma compiled_while c body : compiled body -> compiled (AST_WHILE c body).
Proof.
  intros Hb Hs s Hi _. cbn [supported_stmt] in Hs. apply andb_prop in Hs as [H1 H2].
  destruct (c_ok (s_comp s)) eqn:Hc; [|rewrite cstmt_dead by done; split; [by apply sound_stmt_dead|done]].
  alive Hc. rewrite !on_comp_jump. unfold expr_s, emit_s. cbn [on_comp s_info s_comp loop_push set_pending set_loops].
  rewrite Hi. pose proof (head_expr c (s_comp s) H1) as Hh. cbv zeta in Hh.
  set (j := emit_jump realloc_ok (op_byte BC_JUMP_IF_FALSE) _) in *.
  change (on_comp (fun _ => j.1) _) with (on_comp (fun _ => j.1) (loop_push false s)).
  set (s2 := on_comp (fun _ => j.1) (loop_push false s)).
  destruct (Hb H2 s2 Hi ltac:(done)) as [Hbody Hp]. specialize (Hp eq_refl).
  change (s_pending s2) with (@None (list Z)) in Hbody. set (s3 := cstmt body false s2) in *.
  split; [|intros _; etransitivity; [apply loop_pop_pending|exact Hp]].
  apply (sound_loop realloc_ok cast_ub pow alloc_ok grow_ok new_ptr sole nm fuel (eval c) no_update
    (exec body None) s j.1 (Some j.2) s3 (s_comp s3) (here_s s)); [done..|apply sound_nothing|by right].
Qed.

Lemma compiled_do c body : compiled body -> compiled (AST_DO_WHILE body c).
Proof.
  intros Hb Hs s Hi _. cbn [supported_stmt] in Hs. apply andb_prop in Hs as [H1 H2].
  destruct (c_ok (s_comp s)) eqn:Hc; [|rewrite cstmt_dead by done; split; [by apply sound_stmt_dead|done]].
  alive Hc. rewrite on_comp_jump.
  set (s2 := emit_s realloc_ok BC_LOOP_TICK (loop_push false s)).
  destruct (Hb H2 s2 Hi ltac:(done)) as [Hbody Hp]. specialize (Hp eq_refl).
  change (s_pending s2) with (@None (list Z)) in Hbody. set (s4 := cstmt body false s2) in *.
  assert (s_info s4 = info) as Hi4 by (transitivity (s_info s2); [apply Hbody|exact Hi]).
  pose proof (test_expr true c s4 Hi4 H1) as Ht. cbn [jump_on] in Ht.
  set (j := emit_jump realloc_ok (op_byte BC_JUMP_IF_TRUE) _) in *.
  split; [|intros _; etransitivity; [apply loop_pop_pending|exact Hp]].
  apply (sound_do_loop cast_ub pow alloc_ok grow_ok new_ptr sole nm fuel (eval c) (exec body None)
    s (emit_op BC_LOOP_TICK (s_comp s)) s4 j.1 j.2); [apply sound_tick|done..].
Qed.

(** The pending label is not part of what the code does. *)
Lemma sound_pending_label l l' F s s' :
  sound_stmt F (set_pending l s) s' -> sound_stmt F s (set_pending l' s').
Proof.
  intros (G & I & H). split; [exact G|]. split; [exact I|]. intros Hok Hh acc Ta Ha.
  destruct (H Hok Hh acc Ta Ha) as (hl & [E1 E2 E3] & R). exists hl. split; [by split|exact R].
Qed.

Lemma compiled_label l body : compiled body -> compiled (AST_LABEL l body).
Proof.
  intros Hb Hs s Hi Hp. specialize (Hp eq_refl). cbn [supported_stmt] in Hs.
  destruct (label_name l) as [name|] eqn:El; [|done]. apply andb_prop in Hs as [H1 H2].
  destruct (c_ok (s_comp s)) eqn:Hc; [|rewrite cstmt_dead by done; split; [by apply sound_stmt_dead|done]].
  alive Hc. rewrite El, H1. cbn [clear_result]. destruct (Hb H2 (set_pending (Some name) s) Hi) as [H _]; [by rewrite H1|].
  cbn [set_pending s_pending] in H. split; [|by destruct body].
  apply (sound_pending_label _ None) in H.
  destruct body; try done; (eapply sound_stmt_weaken; [|exact H]); intros sc c; cbn [StmtEval.exec]; by rewrite El.
Qed.

Lemma compiled_return e : compiled (AST_RETURN e).
Proof.
  intros Hs s Hi Hp. cbn [supported_stmt] in Hs.
  destruct (c_ok (s_comp s)) eqn:Hc; [|rewrite cstmt_dead by done; split; [by apply sound_stmt_dead|done]].
  alive Hc. split; [|by destruct e]. destruct e as [e|]; unfold emit_s, expr_s; rewrite ?Hi; cbn [on_comp s_comp].
  - apply (sound_return realloc_ok cast_ub pow alloc_ok grow_ok new_ptr sole nm (eval e) s (cexpr e (s_comp s))).
    by apply cexpr_sound.
  - eapply sound_stmt_weaken; [|apply (sound_return realloc_ok cast_ub pow alloc_ok grow_ok new_ptr sole nm
      (fun sc => Some (RVal JUndefined sc)) s (emit_op BC_PUSH_UNDEFINED (s_comp s)))]; [done|].
    by apply (sound_const realloc_ok cast_ub pow alloc_ok grow_ok new_ptr sole nm BC_PUSH_UNDEFINED).
Qed.

Lemma sound_nop s : sound_stmt (fun sc => Some (CNormal sc)) s (emit_s realloc_ok BC_NOP s).
Proof.
  apply (sound_code _ _ _ _ _ _ _ (fun st sc => Some (FNext st sc)) _ s (emit_op BC_NOP (s_comp s))).
  - eapply sound_emits; [by apply emits_op|]. intros pool. apply computes_instr.
    intros prog ext pos st sc rs r _ _ _ [= <-]. done.
  - intros st sc c [= <-]. by eexists.
Qed.

Lemma compiled_block items : Forall compiled items -> compiled (AST_BLOCK items).
Proof.
  intros Hall Hs s Hi Hp. specialize (Hp eq_refl). cbn [supported_stmt] in Hs.
  apply andb_prop in Hs as [Hl Hs]. apply negb_true_iff in Hl.
  destruct (c_ok (s_comp s)) eqn:Hc; [|rewrite cstmt_dead by done; split; [by apply sound_stmt_dead|done]].
  rewrite cstmt_block, pass_no_func by done. destruct (sound_items items Hall Hs Hl s Hi Hp) as [H1 H2].
  split; [|done]. eapply sound_stmt_weaken; [|exact H1]. done.
Qed.

Lemma cbreak_pending l s : s_pending (cbreak realloc_ok l s) = s_pending s.
Proof.
  unfold cbreak. destruct (find_target _ _ _); [|done]. rewrite on_comp_jump.
  destruct (s_loops _ !! _); [|done]. by destruct (loop_add _ _ _ _) as [[]|].
Qed.

Lemma ccontinue_pending l s : s_pending (ccontinue realloc_ok l s) = s_pending s.
Proof.
  unfold ccontinue. destruct (find_target _ _ _); [|done]. destruct (s_loops _ !! _) as [lp|]; [|done].
  destruct (lp_is_switch lp); [done|]. rewrite on_comp_jump.
  destruct (s_loops _ !! _); [|done]. by destruct (loop_add _ _ _ _) as [[]|].
Qed.

Lemma cstmt_sound n : compiled n.
Proof.
  induction n as [items _|items IH|c body other IHb IHo|init test update body _ IH|c body IH|c body IH
    |each source body _|bind body _|body catch fin var _ _ _|l body IH|n Hn] using stmt_ind_items.
  - done.
  - by apply compiled_block.
  - by apply compiled_if.
  - by apply compiled_for.
  - by apply compiled_while.
  - by apply compiled_do.
  - done.
  - done.
  - done.
  - by apply compiled_label.
  - destruct n; try done; try apply compiled_return; intros Hs s Hi Hp; specialize (Hp eq_refl);
      (destruct (c_ok (s_comp s)) eqn:Hc; [|rewrite cstmt_dead by done; split; [by apply sound_stmt_dead|done]]);
      alive Hc.
    + split; [apply sound_skip|done].
    + split; [by apply sound_expr_stmt|done].
    + destruct token; try done. destruct (sound_var_decl vars s Hi Hs) as [H1 H2]. split; [exact H1|by intros; etransitivity; [exact H2|]].
    + split; [apply sound_break|by rewrite cbreak_pending].
    + split; [apply sound_continue|by rewrite ccontinue_pending].
    + split; [apply sound_nop|done].
    + split; [by apply sound_expr_stmt|done].
Qed.

End Correctness.
