(* ===== verification/FuncOk.v ===== *)
(** Correctness of the compilation of a function: hoisting, its prologue, and
    the body's code run on the scope of a call. *)

From stdpp Require Import base list strings.
From Stdlib Require Import ZArith Lia SpecFloat Ascii.
From S2P Require Import Prelude.
From S2P Require Import BcProgram.
From S2P Require Import BcEmit.
From S2P Require Import F64.
From S2P Require Import NumText.
From S2P Require Import JsOps.
From S2P Require Import JsLaws.
From S2P Require Import Vm.
From S2P Require Import VmCode.
From S2P Require Import Emits.
From S2P Require Import Jumps.
From S2P Require Import Compile.
From S2P Require Import Stmt.
From S2P Require Import Eval.
From S2P Require Import StmtEval.
From S2P Require Import CompileOk.
From S2P Require Import StmtOk.
From S2P Require Import CstmtOk.

Section Correctness.

Context (realloc_ok calloc_ok : Z -> alloc_result) (cast_ub : f64 -> Z) (pow : f64 -> f64 -> f64).
Context (alloc_ok grow_ok : Z -> alloc_result) (new_ptr : option Z).
Context (sole : vm -> nat -> bool).

Hypothesis cast_range : forall d, in_int32 (cast_ub d) = true.
Hypothesis alloc_all : forall n, alloc_ok n = true.

Context (node_addr : ASTNode -> Z) (stmt_addr : Stmt -> Z).

Abbreviation reach := (reach cast_ub pow alloc_ok grow_ok new_ptr sole).
Abbreviation cstmt := (cstmt realloc_ok calloc_ok cast_ub node_addr stmt_addr).
Abbreviation emit_op op := (emit realloc_ok (op_byte op)).

(** ** What is hoisted *)

(** The [var] declarators the hoister visits, in order. *)
Fixpoint hoisted_vars (n : Stmt) : list declarator :=
  match n with
  | AST_PROGRAM items | AST_BLOCK items =>
      (fix all (l : list Stmt) : list declarator :=
         match l with [] => [] | n :: l' => hoisted_vars n ++ all l' end) items
  | AST_IF _ body else_body => hoisted_vars body ++ hoisted_vars else_body
  | AST_FOR init _ _ body => hoisted_vars init ++ hoisted_vars body
  | AST_WHILE _ body | AST_DO_WHILE body _ | AST_FOR_IN _ body | AST_FOR_OF _ _ body => hoisted_vars body
  | AST_TRY body catch_body finally_body _ =>
      hoisted_vars body ++ hoisted_vars catch_body ++ hoisted_vars finally_body
  | AST_VAR_DECL TOK_VAR vars => vars
  | _ => []
  end.

Abbreviation collect := (bc_collect_vars_hoist realloc_ok).
Abbreviation hoist_all := (foldl (fun s d => hoist_var realloc_ok d s)).

Lemma collect_dead n s : c_ok (s_comp s) = false -> collect n s = s.
Proof. intros H. destruct n; cbn [bc_collect_vars_hoist]; by rewrite H. Qed.

Lemma collect_alive n s : c_ok (s_comp (collect n s)) = true -> c_ok (s_comp s) = true.
Proof. intros H. destruct (c_ok (s_comp s)) eqn:E; [done|]. rewrite collect_dead in H by done. congruence. Qed.

(** Without a failed allocation the hoister is a fold over the declarators. *)
Definition collects (n : Stmt) : Prop :=
  forall s, c_ok (s_comp (collect n s)) = true -> collect n s = hoist_all s (hoisted_vars n).

Lemma collect_items items s :
  Forall collects items -> c_ok (s_comp (foldl (fun s n => collect n s) s items)) = true ->
  foldl (fun s n => collect n s) s items = hoist_all s (concat (map hoisted_vars items)).
Proof.
  intros H. revert s. induction H as [|n l Hn _ IH]; intros s Hok; [done|]. cbn [foldl map concat] in *.
  rewrite foldl_app, IH by done. f_equal. apply Hn.
  clear -Hok. revert Hok. generalize (collect n s). induction l as [|n' l IH]; intros s' Hok; [done|].
  cbn in Hok. by eapply collect_alive, IH.
Qed.

Lemma collect_foldl n : collects n.
Proof.
  assert (forall items s, (fix all (l : list Stmt) (s : SComp) : SComp :=
      match l with [] => s | n :: l' => all l' (collect n s) end) items s
    = foldl (fun s n => collect n s) s items) as Hf.
  { intros items. induction items as [|n' l IH]; intros s; [done|]. apply IH. }
  assert (forall items, (fix all (l : list Stmt) : list declarator :=
         match l with [] => [] | n :: l' => hoisted_vars n ++ all l' end) items
    = concat (map hoisted_vars items)) as Hv.
  { induction items as [|n' l IH]; [done|]. cbn [map concat]. by rewrite <- IH. }
  induction n as [items IH|items IH|c body other IHb IHo|init test update body IHi IH|c body IH|c body IH
    |each source body IH|bind body IH|body catch fin var IHb IHc IHf|l body IH|n Hn] using stmt_ind_items;
    intros s Hok; pose proof (collect_alive _ _ Hok) as Hs; try (destruct n; try contradiction); cbn [bc_collect_vars_hoist hoisted_vars] in Hok |- *;
    rewrite Hs in Hok |- *; cbn [negb] in Hok |- *; rewrite ?Hf, ?Hv in *; rewrite ?foldl_app;
    try done; try by apply collect_items.
  - rewrite (IHo _ Hok), (IHb s); [done|by eapply collect_alive].
  - rewrite (IH _ Hok), (IHi s); [done|by eapply collect_alive].
  - by apply IH.
  - by apply IH.
  - by apply IH.
  - by apply IH.
  - rewrite (IHf _ Hok). apply collect_alive in Hok. rewrite (IHc _ Hok). apply collect_alive in Hok. by rewrite (IHb s).
  - by destruct token.
Qed.

(** ** The prologue *)

(** The names of a function's scope after the prologue: parameters, then
    variables, each once. *)
Definition add_var (names : list (list Z)) (d : declarator) : list (list Z) :=
  register_local_name (var_name d) names.

Lemma hoist_var_names d s :
  local_names (s_info (hoist_var realloc_ok d s)) = add_var (local_names (s_info s)) d.
Proof.
  unfold hoist_var, add_var, register_local_name. destruct (var_name d) as [name|]; [|done].
  rewrite Z.geb_leb, Z.leb_antisym.
  destruct (listed _ _), (_ <? 256); done.
Qed.

Lemma hoist_all_names vars s :
  local_names (s_info (hoist_all s vars)) = foldl add_var (local_names (s_info s)) vars.
Proof. revert s. induction vars as [|d l IH]; intros s; [done|]. cbn [foldl]. by rewrite IH, hoist_var_names. Qed.

(** Besides the names and the code, hoisting changes nothing. *)
Lemma hoist_all_same vars s :
  let s' := hoist_all s vars in
  s_loops s' = s_loops s /\ s_pending s' = s_pending s /\
  local_scope_depth (s_info s') = local_scope_depth (s_info s) /\
  disable_local_slots (s_info s') = disable_local_slots (s_info s).
Proof.
  revert s. induction vars as [|d l IH]; intros s; [done|]. cbn [foldl].
  destruct (IH (hoist_var realloc_ok d s)) as (-> & -> & -> & ->). unfold hoist_var.
  destruct (var_name d); [|done]. by case_match.
Qed.

(** Where the prologue leaves the scope. *)
Definition vm_at (nm : list (list Z)) (sc : list LRValue) (pos : Z) : vm := state_at nm pos [] sc JUndefined.

Definition prologue (pool : list BCConst) (l : list instr) (nm nm' : list (list Z)) : Prop :=
  forall prog ext pos sc,
    p_pool prog = pool ++ ext -> code_at prog pos l -> Forall instr_ok l ->
    reach prog (vm_at nm sc pos)
      (vm_at nm' (sc ++ replicate (length nm' - length nm) JUndefined) (pos + zlen (encode l))).

Lemma find_name_listed name nm i : listed name nm = false -> find_name name nm i = None.
Proof.
  unfold listed. intros H. apply bool_decide_eq_false in H. revert i.
  induction nm as [|x l IH]; intros i; [done|]. apply not_elem_of_cons in H as [H1 H2]. cbn.
  rewrite bool_decide_false by done. by apply IH.
Qed.

Lemma prologue_nil pool nm : prologue pool [] nm nm.
Proof.
  intros prog ext pos sc _ _ _. rewrite Nat.sub_diag, app_nil_r. change (zlen (encode [])) with 0.
  rewrite Z.add_0_r. constructor.
Qed.

Lemma prologue_app pool l1 l2 nm1 nm2 nm3 :
  (length nm1 <= length nm2 <= length nm3)%nat ->
  prologue pool l1 nm1 nm2 -> prologue pool l2 nm2 nm3 -> prologue pool (l1 ++ l2) nm1 nm3.
Proof.
  intros Hle H1 H2 prog ext pos sc Hp Hc Hi. apply code_at_app in Hc as [Hc1 Hc2].
  apply Forall_app in Hi as [Hi1 Hi2].
  eapply reach_trans; [by eapply H1|]. pose proof (H2 prog ext _ (sc ++ replicate (length nm2 - length nm1) JUndefined) Hp Hc2 Hi2) as H.
  rewrite zlen_encode_app, Z.add_assoc. rewrite <- app_assoc, <- replicate_add in H.
  replace (length nm2 - length nm1 + (length nm3 - length nm2))%nat with (length nm3 - length nm1)%nat in H by lia.
  exact H.
Qed.

Lemma prologue_pool pool ext l nm nm' : prologue pool l nm nm' -> prologue (pool ++ ext) l nm nm'.
Proof. intros H prog ext' pos sc Hp. rewrite <- app_assoc in Hp. by apply (H prog (ext ++ ext')). Qed.

Lemma prologue_declare pool idx t h name nm :
  pool !! Z.to_nat idx = Some (PoolString t h) -> cstr t = name -> listed name nm = false ->
  prologue pool [Instr BC_PUSH_UNDEFINED []; Instr BC_DECLARE_VAR [idx; 0]] nm (nm ++ [name]).
Proof.
  intros Hk Ht Hl prog ext pos sc Hp Hc Hi. apply code_at_cons in Hc as [Hc1 Hc2].
  apply Forall_cons in Hi as [_ Hi]. apply Forall_inv in Hi.
  eapply reach_trans; [apply reach_one;
    exact (step_at cast_ub pow alloc_ok grow_ok new_ptr sole nm prog pos _ [] sc JUndefined Hc1)|].
  change (zlen (encode_instr (Instr BC_PUSH_UNDEFINED []))) with 1 in Hc2. apply reach_one.
  rewrite length_app, Nat.add_sub_swap, Nat.sub_diag by lia. cbn [length Nat.add replicate].
  pose proof (step_at cast_ub pow alloc_ok grow_ok new_ptr sole nm prog (pos + 1) _ [JUndefined] sc JUndefined Hc2) as Hs.
  etransitivity; [exact Hs|]. cbn [i_op]. rewrite (exec_declare cast_ub pow alloc_ok grow_ok new_ptr sole nm prog idx) by done.
  unfold declare_var. cbn [pop stack state_at Z.eqb]. rewrite Hp, (lookup_app_l_Some _ _ _ _ Hk).
  unfold scope_declare_name. cbn [set_stack names]. rewrite Ht. cbn [state_at names].
  rewrite find_name_listed by done.
  change (zlen (encode _)) with 5. by replace (pos + 5) with (pos + 1 + 4) by lia.
Qed.

(** A variable's name is a C string. *)
Definition c_name (d : declarator) : bool :=
  match var_name d with Some x => bool_decide (cstr x = x) | None => true end.

Lemma add_var_length names d : (length names <= length (add_var names d))%nat.
Proof.
  unfold add_var, register_local_name. destruct (var_name d); [|done]. case_match; [done|].
  rewrite length_app. lia.
Qed.

Lemma add_vars_length names vars : (length names <= length (foldl add_var names vars))%nat.
Proof.
  revert names. induction vars as [|d l IH]; intros names; [done|]. cbn [foldl].
  etransitivity; [apply add_var_length|apply IH].
Qed.

Lemma hoist_var_emits d s :
  c_name d = true ->
  exists l, emits l (s_comp s) (s_comp (hoist_var realloc_ok d s)) /\
    (c_ok (s_comp (hoist_var realloc_ok d s)) = true ->
     prologue (pool_of (s_comp (hoist_var realloc_ok d s))) l
       (local_names (s_info s)) (add_var (local_names (s_info s)) d)).
Proof.
  intros Hd. pose proof (hoist_var_names d s) as Hnames. unfold hoist_var in *. unfold c_name in Hd.
  destruct (var_name d) as [name|] eqn:Ev.
  2: { exists []. split; [by apply emits_nil|]. rewrite <- Hnames. intros _. apply prologue_nil. }
  apply bool_decide_eq_true in Hd. destruct (negb _ && _) eqn:En.
  2: { exists []. split; [by apply emits_nil|]. rewrite <- Hnames. intros _. apply prologue_nil. }
  apply andb_prop in En as [En _]. apply negb_true_iff in En.
  cbn [on_comp on_names s_comp s_info with_names local_names] in *. rewrite <- Hnames.
  destruct (pool_add_str realloc_ok (Some name) (s_comp s)) as [c1 idx] eqn:Ep.
  pose proof (emits_app [_] [_] _ _ _ (emits_op realloc_ok BC_PUSH_UNDEFINED c1 eq_refl ltac:(done))
    (emits_declare realloc_ok idx (emit_op BC_PUSH_UNDEFINED c1))) as He.
  exists ([] ++ ([Instr BC_PUSH_UNDEFINED []] ++ [Instr BC_DECLARE_VAR [idx; 0]])). split.
  - apply (emits_app _ _ _ c1); [|exact He]. pose proof (grows_add_str realloc_ok (Some name) (s_comp s)) as G.
    pose proof (view_add_str realloc_ok (Some name) (s_comp s)) as V. rewrite Ep in G, V. by apply emits_nil.
  - intros Hok. pose proof (emits_grows _ _ _ He) as G.
    destruct (pool_str_const realloc_ok name _ c1 idx Ep (gr_ok _ _ G Hok)) as (t & h & Hk & Ht).
    destruct (gr_pool _ _ G) as [ext ->]. apply prologue_pool.
    apply (prologue_declare _ idx t h name); [done|by rewrite Ht|done].
Qed.

Lemma hoist_all_emits vars s :
  forallb c_name vars = true ->
  exists l, emits l (s_comp s) (s_comp (hoist_all s vars)) /\
    (c_ok (s_comp (hoist_all s vars)) = true ->
     prologue (pool_of (s_comp (hoist_all s vars))) l
       (local_names (s_info s)) (foldl add_var (local_names (s_info s)) vars)).
Proof.
  revert s. induction vars as [|d vars IH]; intros s Hc; cbn [foldl forallb] in *.
  - exists []. split; [by apply emits_nil|]. intros _. apply prologue_nil.
  - apply andb_prop in Hc as [Hd Hc]. destruct (hoist_var_emits d s Hd) as (l1 & E1 & P1).
    destruct (IH (hoist_var realloc_ok d s) Hc) as (l2 & E2 & P2). rewrite hoist_var_names in P2.
    exists (l1 ++ l2). split; [by eapply emits_app|]. intros Hok. pose proof (emits_grows _ _ _ E2) as G.
    specialize (P1 (gr_ok _ _ G Hok)). specialize (P2 Hok). destruct (gr_pool _ _ G) as [ext Eext].
    rewrite Eext in *. eapply prologue_app; [|by apply prologue_pool|exact P2].
    split; [apply add_var_length|apply add_vars_length].
Qed.

(** ** Slots are positions in the scope *)

Lemma find_name_range name l i k : find_name name l i = Some k -> i <= k < i + zlen l.
Proof.
  revert i. induction l as [|x l IH]; intros i; cbn; [done|]. rewrite zlen_cons. pose proof (zlen_nonneg l).
  case_bool_decide; [intros [= <-]; lia|]. intros H1. apply IH in H1. lia.
Qed.

Lemma local_slot_position i name slot :
  zlen (local_names i) <= 256 -> local_slot i name = Some slot -> find_name name (local_names i) 0 = Some slot.
Proof.
  intros Hl. unfold local_slot. destruct (_ && _); [|done]. destruct (find_name name _ 0) as [k|] eqn:E; [|done].
  cbn. intros [= <-]. apply find_name_range in E. unfold u16. by rewrite Z.mod_small by lia.
Qed.

Lemma add_vars_bound names vars : zlen names <= 256 -> zlen (foldl add_var names vars) <= 256.
Proof.
  revert names. induction vars as [|d l IH]; intros names H; [done|]. cbn [foldl]. apply IH.
  unfold add_var, register_local_name. destruct (var_name d); [|done].
  destruct (_ || _) eqn:E; [done|]. apply orb_false_iff in E as [E _]. rewrite zlen_app.
  change (zlen [l0]) with 1. lia.
Qed.

(** ** Function bodies *)

(** The slot table the body is compiled with. *)
Definition func_info (f : func) : scope_info :=
  {| local_names := foldl add_var (pre_names f) (hoisted_vars (f_body f));
     local_scope_depth := 0; disable_local_slots := false |}.

Definition code_of_func (p : BCProgram) (f : func) : BCProgram :=
  bc_compile_func realloc_ok calloc_ok cast_ub node_addr stmt_addr p f.

Lemma pre_names_len f : zlen (pre_names f) <= 256.
Proof. unfold pre_names, zlen. pose proof (firstn_le_length 256 (this_name :: omap param_name (f_params f))). lia. Qed.

(** The state in which the body is compiled. *)
Definition hoisted_state (p : BCProgram) (f : func) : SComp :=
  collect (f_body f) (init_state (pre_names f) false p).

Lemma code_of_func_safe p f :
  bc_func_slot_safe f = true ->
  code_of_func p f
  = finish (emit_op BC_STOP (s_comp (cstmt (f_body f)
      (match f_body f with AST_PROGRAM _ => false | _ => true end) (hoisted_state p f)))).
Proof. intros H. unfold code_of_func, bc_compile_func. by rewrite H. Qed.

Lemma take_pre_names f : take 256 (pre_names f) = pre_names f.
Proof. unfold pre_names. by rewrite take_take. Qed.

Lemma hoisted_state_info p f :
  c_ok (s_comp (hoisted_state p f)) = true ->
  s_info (hoisted_state p f) = func_info f /\ s_loops (hoisted_state p f) = [] /\
  s_pending (hoisted_state p f) = None /\
  hoisted_state p f = hoist_all (init_state (pre_names f) false p) (hoisted_vars (f_body f)).
Proof.
  unfold hoisted_state. intros Hok. rewrite (collect_foldl _ _ Hok).
  set (s0 := init_state (pre_names f) false p). set (vars := hoisted_vars (f_body f)).
  destruct (hoist_all_same vars s0) as (H1 & H2 & H3 & H4). pose proof (hoist_all_names vars s0) as H5.
  split_and!; [|done..]. unfold func_info. fold vars.
  change (local_names (s_info s0)) with (take 256 (pre_names f)) in H5. rewrite take_pre_names in H5. rewrite <- H5.
  change false with (disable_local_slots (s_info s0)). change 0 with (local_scope_depth (s_info s0)).
  rewrite <- H3, <- H4. by destruct (s_info (hoist_all s0 vars)).
Qed.

(** The prologue's code and what it does. *)
Lemma prologue_runs p f :
  p_code p = [] -> forallb c_name (hoisted_vars (f_body f)) = true ->
  let s := hoisted_state p f in
  c_ok (s_comp s) = true -> here (s_comp s) < 2 ^ 31 ->
  exists l, tracked (rev l) (s_comp s) /\ top_plain (rev l) /\
    prologue (pool_of (s_comp s)) l (pre_names f) (local_names (func_info f)).
Proof.
  intros Hp Hc s Hok Hh. destruct (hoisted_state_info p f Hok) as (Hi & _ & _ & E). fold s in Hi, E.
  set (s0 := init_state (pre_names f) false p) in *.
  destruct (hoist_all_emits (hoisted_vars (f_body f)) s0 Hc) as (l & [G He] & Hl).
  rewrite <- E in *. destruct (He Hok Hh) as [P T]. exists l.
  rewrite <- (app_nil_r (rev l)). split_and!.
  - apply T; [|done]. by apply comp_init_tracked.
  - by apply top_plain_rev.
  - specialize (Hl Hok). change (local_names (s_info s0)) with (take 256 (pre_names f)) in Hl.
    by rewrite take_pre_names in Hl.
Qed.

(** A function the theorem is about: its body a block of statements of
    [supported_stmt], its variables named by C strings. *)
Definition func_supported (f : func) : bool :=
  bc_func_slot_safe f && forallb c_name (hoisted_vars (f_body f)) &&
  match f_body f with AST_BLOCK _ => supported_stmt (func_info f) (f_body f) | _ => false end.

Lemma cstmt_block_top items top s : cstmt (AST_BLOCK items) top s = cstmt (AST_BLOCK items) false s.
Proof. done. Qed.

Abbreviation nm f := (local_names (func_info f)).
Abbreviation runs f := (runs cast_ub pow alloc_ok grow_ok new_ptr sole (nm f)).
Abbreviation exec f fuel := (exec cast_ub pow new_ptr (func_info f) fuel (f_body f) None).

(** Prologue, body and [BC_STOP] in the finished program. *)
Lemma func_layout p f fuel :
  p_code p = [] -> func_supported f = true ->
  let prog := code_of_func p f in
  p_compiled prog = 1 -> zlen (p_code prog) < 2 ^ 31 ->
  exists l hl, code_at prog 0 (l ++ raws hl ++ [Instr BC_STOP []]) /\ Forall instr_ok (l ++ raws hl) /\
    prologue (p_pool prog) l (pre_names f) (nm f) /\ Forall (within 0) hl /\
    runs f (p_pool prog) (zlen (encode l)) hl [] (exec f fuel).
Proof.
  intros Hp Hf prog Hok Hh. unfold func_supported in Hf. apply andb_prop in Hf as [Hf Hb].
  apply andb_prop in Hf as [Hsafe Hnames]. unfold prog in *. rewrite (code_of_func_safe p f Hsafe) in *.
  set (s1 := hoisted_state p f) in *. destruct (f_body f) as [| |items| | | | | | | | | | | | | | | | | | | |] eqn:Ebody; try done.
  rewrite <- Ebody in Hnames. rewrite cstmt_block_top in *. set (s2 := cstmt (AST_BLOCK items) false s1) in *.
  set (c3 := emit_op BC_STOP (s_comp s2)) in *.
  pose proof (emits_op realloc_ok BC_STOP (s_comp s2) eq_refl ltac:(done)) as [G3 H3]. fold c3 in G3, H3.
  assert (c_ok c3 = true) as Hok3 by (change (p_compiled _) with (if c_ok c3 then 1 else 0) in Hok; by destruct (c_ok c3)).
  change (here c3 < 2 ^ 31) in Hh. destruct (H3 Hok3 Hh) as [_ T3].
  pose proof (gr_ok _ _ G3 Hok3) as Hok2. pose proof (gr_here _ _ G3) as Hh2.
  assert (c_ok (s_comp s1) = true) as Hok1.
  { destruct (c_ok (s_comp s1)) eqn:E; [done|]. unfold s2 in Hok2. rewrite cstmt_dead in Hok2 by done. congruence. }
  destruct (hoisted_state_info p f Hok1) as (Hi & Hl & Hpend & _). fold s1 in Hi, Hl, Hpend.
  destruct (cstmt_sound realloc_ok calloc_ok cast_ub pow alloc_ok grow_ok new_ptr sole cast_range alloc_all
    (nm f) (func_info f) node_addr stmt_addr fuel) with (n := AST_BLOCK items) (s := s1) as [(G2 & _ & H2) _]; try done.
  { intros name slot. apply local_slot_position, add_vars_bound, pre_names_len. }
  fold s2 in G2, H2. pose proof (gr_here _ _ G2) as Hh1. rewrite Hpend in H2.
  destruct (prologue_runs p f Hp Hnames Hok1 ltac:(unfold here_s in *; fold s1; lia)) as (l & T1 & Ta & Hpro).
  fold s1 in T1, Hpro. destruct (H2 Hok2 ltac:(unfold here_s; lia) _ T1 Ta) as (hl & E2 & R2).
  destruct (gr_pool _ _ G2) as [x2 P2]. destruct (gr_pool _ _ G3) as [x3 P3].
  pose proof (T3 _ (em_tracked _ _ _ _ E2) (emitted_top _ _ _ _ Ta E2)) as [Hall Hcode _ _].
  pose proof (tracked_here _ _ T1) as Hpos. rewrite rev_involutive in Hpos. unfold here_s in R2. rewrite Hpos, Hl in R2.
  rewrite !rev_app_distr, !rev_involutive, <- app_assoc in Hcode.
  exists l, hl. split_and!.
  - exists [], []. rewrite app_nil_r. by split.
  - apply Forall_app in Hall as [_ Hall]. apply Forall_app in Hall as [Hall1 Hall2].
    apply Forall_rev in Hall1, Hall2. rewrite rev_involutive in Hall1, Hall2. by apply Forall_app.
  - change (p_pool _) with (pool_of c3). rewrite P3, P2, <- app_assoc. by apply prologue_pool.
  - pose proof (em_within _ _ _ _ E2) as W. by rewrite Hl in W.
  - change (p_pool _) with (pool_of c3). rewrite P3. by apply runs_pool.
Qed.

(** What a call gives, from the completion of the body. *)
Definition func_result (c : completion) : option vm_result :=
  match c with
  | CNormal sc => Some (Finished JUndefined sc)
  | CReturn v sc => Some (Finished v sc)
  | CThrow m => Some (Aborted (Some m))
  | _ => None
  end.

(** The scope after hoisting: the arguments, then undefined variables. *)
Definition call_scope (f : func) (sc : list LRValue) : list LRValue :=
  sc ++ replicate (length (nm f) - length (pre_names f)) JUndefined.

(** A state with code from offset 0 that reaches the end of the body. *)
Lemma ends_result prog f stop c r s :
  ends cast_ub pow alloc_ok grow_ok new_ptr sole (nm f) prog (fun _ _ => 0) [] stop [] JUndefined s c ->
  code_at prog stop [Instr BC_STOP []] -> func_result c = Some r ->
  exists s', reach prog s s' /\ step cast_ub pow alloc_ok grow_ok new_ptr sole prog s' = r.
Proof.
  intros He Hc Hr. destruct c as [sc|l sc|l sc|v sc|m]; cbn in *; try done; injection Hr as <-; [|done..].
  eexists. split; [exact He|]. by rewrite (step_at _ _ _ _ _ _ _ _ _ _ _ _ _ Hc).
Qed.

Lemma code_of_func_runs p f fuel sc c r :
  p_code p = [] -> func_supported f = true ->
  let prog := code_of_func p f in
  p_compiled prog = 1 -> zlen (p_code prog) < 2 ^ 31 ->
  exec f fuel (call_scope f sc) = Some c -> func_result c = Some r ->
  exists k, bc_execute cast_ub pow alloc_ok grow_ok new_ptr sole prog k (pre_names f) sc = Some r.
Proof.
  intros Hp Hf prog Hok Hh Hc Hr.
  destruct (func_layout p f fuel Hp Hf Hok Hh) as (l & hl & Hat & Hi & Hpro & Hw & Hrun). fold prog in Hat, Hpro, Hrun.
  apply code_at_app in Hat as [Hat1 Hat]. apply code_at_app in Hat as [Hat2 Hat3]. rewrite Z.add_0_l in *.
  apply Forall_app in Hi as [Hi1 Hi2]. rewrite <- (resolve_closed (fun _ _ => 0) (zlen (encode l)) hl Hw) in Hat2, Hat3, Hi2.
  rewrite zlen_resolve in Hat3.
  pose proof (Hrun prog [] (fun _ _ => 0) [] (call_scope f sc) JUndefined c (eq_sym (app_nil_r _)) Hat2 Hi2 Hc) as He.
  destruct (ends_result _ _ _ _ _ _ He Hat3 Hr) as (s' & Hs' & Hst).
  pose proof (Hpro prog [] 0 sc (eq_sym (app_nil_r _)) Hat1 Hi1) as Hp0. rewrite Z.add_0_l in Hp0.
  unfold bc_execute. assert ((zlen (p_code prog) =? 0) || (p_compiled prog =? 0) = false) as ->.
  { rewrite Hok. destruct (code_at_op prog _ _ Hat3) as [Hlen _].
    apply orb_false_intro; [apply Z.eqb_neq; pose proof (hsize_nonneg hl); pose proof (zlen_nonneg (encode l)); lia|done]. }
  apply (reach_run _ _ _ _ _ _ prog _ s'); [|exact Hst|].
  - eapply reach_trans; [exact Hp0|exact Hs'].
  - intros s ->. by destruct c.
Qed.

End Correctness.
