(* ===== verification/CompileProps.v ===== *)
(** What the compiler of expressions guarantees, and where its optimisations
    change the meaning of a program. *)

From stdpp Require Import base list strings.
From Stdlib Require Import ZArith Lia SpecFloat.
From S2P Require Import Prelude.
From S2P Require Import BcProgram.
From S2P Require Import BcEmit.
From S2P Require Import LexText.
From S2P Require Import F64.
From S2P Require Import NumText.
From S2P Require Import JsOps.
From S2P Require Import JsLaws.
From S2P Require Import Vm.
From S2P Require Import Compile.
From S2P Require Import Eval.
From S2P Require Import CompileOk.

(** ** An instance: slots [a], [b], [c]; every allocation succeeds *)

Module Machine.

Definition always (_ : Z) : bool := true.
Definition info : scope_info :=
  {| local_names := map chars_of ["a"; "b"; "c"]%string;
     local_scope_depth := 0; disable_local_slots := false |}.
Definition id (s : string) : ASTNode := AST_IDENTIFIER (Some (chars_of s)).
Definition ten : ASTNode := AST_LITERAL (LNumber 4621819117588971520).
Definition str (s : string) : ASTNode := AST_LITERAL (LString (Some (chars_of s))).

Definition compiled (n : ASTNode) : BCProgram :=
  bc_compile_expr always x86_cast info (fun _ => 0) empty_program n.
Definition executed (n : ASTNode) (fuel : nat) (sc : list LRValue) : option vm_result :=
  bc_execute x86_cast f64_mul always always (Some 4096) (fun _ _ => false) (compiled n) fuel [] sc.
Definition evaluated (n : ASTNode) (sc : list LRValue) : option res :=
  eval x86_cast f64_mul (Some 4096) info n sc.

(** [a && b ? "A" : (c = a < 10, c)] *)
Definition choice : ASTNode :=
  AST_CONDITIONAL (AST_BINARY "&&" (id "a") (id "b")) (str "A")
    (AST_SEQUENCE [AST_ASSIGN (Some "=") (id "c") (AST_BINARY "<" (id "a") ten); id "c"]).

(** [a * b + a * c] *)
Definition products : ASTNode :=
  AST_BINARY "+" (AST_BINARY "*" (id "a") (id "b")) (AST_BINARY "*" (id "a") (id "c")).

(** [a += (a = 10)] *)
Definition late_read : ASTNode :=
  AST_ASSIGN (Some "+=") (id "a") (AST_ASSIGN (Some "=") (id "a") ten).

(** [a++] *)
Definition next_a : ASTNode := AST_UNARY (Some "++") false (id "a").

(** [delete (a = 10)] *)
Definition delete_assignment : ASTNode :=
  AST_UNARY (Some "delete") true (AST_ASSIGN (Some "=") (id "a") ten).

End Machine.
Import Machine.

(** ** Properties *)

Section Properties.

(** C2: compiled expressions compute what the language says.  For every
    supported expression, whatever the scope, the operands and the behaviour of
    a failing [realloc], if compilation succeeds and the expression evaluates
    to a value (or raises an error) in a scope, then the program, executed in
    that scope, terminates with that value and leaves the slots as evaluation
    does (or aborts with that error). *)
Theorem compile_expr_correct (realloc_ok : Z -> alloc_result) cast_ub pow (alloc_ok grow_ok : Z -> alloc_result)
    new_ptr sole nm info node_addr p n sc r :
  (forall d, in_int32 (cast_ub d) = true) -> (forall n, alloc_ok n = true) ->
  p_code p = [] -> supported info n = true ->
  let prog := bc_compile_expr realloc_ok cast_ub info node_addr p n in
  p_compiled prog = 1 -> zlen (p_code prog) < 2 ^ 31 ->
  eval cast_ub pow new_ptr info n sc = Some r ->
  exists fuel, bc_execute cast_ub pow alloc_ok grow_ok new_ptr sole prog fuel nm sc = Some (result_of r).
Proof. intros. by apply bc_compile_expr_runs. Qed.

(** The witness: the expression [choice] with [a && b] false. *)
Lemma compile_expr_correct_witness :
  let sc := [JInt32 1; JInt32 0; JNull] in
  evaluated choice sc = Some (RVal (JBool true) [JInt32 1; JInt32 0; JBool true]) /\
  exists fuel, executed choice fuel sc = Some (Finished (JBool true) [JInt32 1; JInt32 0; JBool true]).
Proof.
  split; [vm_compute; reflexivity|].
  apply (compile_expr_correct always x86_cast f64_mul always always (Some 4096) (fun _ _ => false)
           [] info (fun _ => 0) empty_program choice [JInt32 1; JInt32 0; JNull]
           (RVal (JBool true) [JInt32 1; JInt32 0; JBool true]));
    [intros; reflexivity..|vm_compute; reflexivity].
Defined.

(** three optimisations change the meaning.  A sum of products with a common
    factor is computed as one product, also when [+] concatenates: [a*b + a*c]
    gives 24 for [a = 2], [b = "1"], [c = "2"], where the language gives 6.  A
    fused [a += e] reads [a] after [e]: [a += (a = 10)] is 20 whatever integer
    [a] was.  [a++] of a string concatenates.  [delete] of an assignment does
    not perform it. *)
Lemma compiler_disagrees i :
  let two := [JInt32 2; JString (chars_of "1"); JString (chars_of "2")] in
  (evaluated products two = Some (RVal (JInt32 6) two) /\
   executed products 20 two = Some (Finished (JInt32 24) two)) /\
  (evaluated late_read [JInt32 i] = Some (RVal (sum_value (i + 10)) [sum_value (i + 10)]) /\
   executed late_read 20 [JInt32 i] = Some (Finished (JInt32 20) [JInt32 20])) /\
  (forall s, executed next_a 20 [JString s] = Some (Finished (JString s) [JString (s ++ chars_of "1")])) /\
  executed delete_assignment 20 [JInt32 i] = Some (Finished (JBool true) [JInt32 i]).
Proof.
  intros two. split; [|split; [|split]]; [split; vm_compute; reflexivity| |by vm_compute..].
  split; [|vm_compute; reflexivity].
  change (evaluated late_read [JInt32 i]) with
    (store_res 0 (of_out (bcv_binop x86_cast f64_mul (fun _ => true) (Some 4096) BC_ADD (JInt32 i)
       (if int_literal x86_cast (f64_of_bits 4621819117588971520)
        then JInt32 (cast_int32 x86_cast (f64_of_bits 4621819117588971520))
        else JFloat64 (f64_of_bits 4621819117588971520))) [JInt32 10])).
  done.
Qed.

End Properties.
