(* ===== verification/FuncProps.v ===== *)
(** What the compiler of statements guarantees of a function, and where the code
    it emits goes wrong. *)

From stdpp Require Import base list strings.
From Stdlib Require Import ZArith Lia SpecFloat.
From S2P Require Import Prelude.
From S2P Require Import BcProgram.
From S2P Require Import BcEmit.
From S2P Require Import LexText.
From S2P Require Import F64.
From S2P Require Import NumText.
From S2P Require Import JsOps.
From S2P Require Import JsLaws.
From S2P Require Import Vm.
From S2P Require Import Compile.
From S2P Require Import Stmt.
From S2P Require Import Eval.
From S2P Require Import StmtEval.
From S2P Require Import FuncOk.
From S2P Require Import CompileProps.

(** ** An instance: functions of [n], with [x86_cast] and no failed allocation *)

Module Calls.

Import Machine.

Definition int (z : Z) : ASTNode :=
  AST_LITERAL (LNumber (match z with 0 => 0 | 1 => 4607182418800017408 | 2 => 4611686018427387904
                        | _ => 4621819117588971520 end)).
Definition set (x : string) (e : ASTNode) : Stmt :=
  AST_EXPR_STMT (AST_ASSIGN (Some "=") (id x) e).
Definition var (x : string) (e : option ASTNode) : Stmt :=
  AST_VAR_DECL TOK_VAR [DVar (PIdent (Some (chars_of x))) e].

Definition of_body (items : list Stmt) : func :=
  {| f_params := [PIdent (Some (chars_of "n"))]; f_body := AST_BLOCK items; f_is_arrow := false;
     f_derived := false; f_scans_arguments := false |}.

Definition code (f : func) : BCProgram := code_of_func always always x86_cast (fun _ => 0) (fun _ => 0) empty_program f.
Definition call (f : func) (fuel : nat) (sc : list LRValue) : option vm_result :=
  bc_execute x86_cast f64_mul always always (Some 4096) (fun _ _ => false) (code f) fuel (pre_names f) sc.
Definition meaning (f : func) (fuel : nat) (sc : list LRValue) : option completion :=
  exec x86_cast f64_mul (Some 4096) (func_info f) fuel (f_body f) None (call_scope f sc).

(** [var s = 0; for (var i = 0; i < 10; i++) { if (i % 2) continue;
    if (i > n) break; s += i; } return s;] *)
Definition even_sum : func :=
  of_body
    [var "s" (Some (int 0));
     AST_FOR (var "i" (Some (int 0))) (Some (AST_BINARY "<" (id "i") (int 10)))
       (Some (AST_UNARY (Some "++"%string) false (id "i")))
       (AST_BLOCK
          [AST_IF (AST_BINARY "%" (id "i") (int 2)) (AST_CONTINUE None) SNull;
           AST_IF (AST_BINARY ">" (id "i") (id "n")) (AST_BREAK None) SNull;
           AST_EXPR_STMT (AST_ASSIGN (Some "+=") (id "s") (id "i"))]);
     AST_RETURN (Some (id "s"))].

(** [if (n) a: while (n) { var x = 2; n = 0; }
    b: while (true) { var y = 1; return y; }] *)
Definition labelled : func :=
  of_body
    [AST_IF (id "n")
       (AST_LABEL (Some (chars_of "a"))
          (AST_WHILE (id "n") (AST_BLOCK [var "x" (Some (int 2)); set "n" (int 0)]))) SNull;
     AST_LABEL (Some (chars_of "b"))
       (AST_WHILE (AST_LITERAL (LBool true)) (AST_BLOCK [var "y" (Some (int 1)); AST_RETURN (Some (id "y"))]))].

(** [var last; for (var c of "12") { last = c; switch (n) { case n: continue; } }
    return last;] *)
Definition last_digit : func :=
  of_body
    [var "last" None;
     AST_FOR_OF (EachDecl TOK_VAR [DVar (PIdent (Some (chars_of "c"))) None]) (str "12")
       (AST_BLOCK
          [set "last" (id "c");
           AST_SWITCH (id "n") [(Some (id "n"), AST_BLOCK [AST_CONTINUE None])]]);
     AST_RETURN (Some (id "last"))].

End Calls.
Import Calls.

(** ** Properties *)

Section Properties.

(** C1: a compiled function does what its statements say.  For every function
    whose parameters are plain names and whose body is made of blocks without
    lexical declarations, expression statements, [var], [if], the three loops,
    labels, [break], [continue] and [return], over the expressions of the
    expression theorem: if compilation succeeds and executing the body on the
    arguments, in the scope with the hoisted variables, ends (after any number
    of turns of its loops) with a returned value, at its end, or with an error,
    then the code run on the call's scope terminates with that value, with
    [undefined], or with that error, and leaves the same variables. *)
Theorem compile_func_correct (realloc_ok calloc_ok : Z -> alloc_result) cast_ub pow
    (alloc_ok grow_ok : Z -> alloc_result) new_ptr sole node_addr stmt_addr p f turns sc c r :
  (forall d, in_int32 (cast_ub d) = true) -> (forall n, alloc_ok n = true) ->
  p_code p = [] -> func_supported f = true ->
  let prog := bc_compile_func realloc_ok calloc_ok cast_ub node_addr stmt_addr p f in
  p_compiled prog = 1 -> zlen (p_code prog) < 2 ^ 31 ->
  exec cast_ub pow new_ptr (func_info f) turns (f_body f) None (call_scope f sc) = Some c ->
  func_result c = Some r ->
  exists fuel, bc_execute cast_ub pow alloc_ok grow_ok new_ptr sole prog fuel (pre_names f) sc = Some r.
Proof. intros. by eapply code_of_func_runs. Qed.

(** The witness: [even_sum] of 7, with every kind of jump. *)
Lemma compile_func_correct_witness :
  meaning even_sum 20 [JUndefined; JInt32 7]
    = Some (CReturn (JInt32 12) [JUndefined; JInt32 7; JInt32 12; JInt32 8]) /\
  exists fuel, call even_sum fuel [JUndefined; JInt32 7]
    = Some (Finished (JInt32 12) [JUndefined; JInt32 7; JInt32 12; JInt32 8]).
Proof.
  split; [vm_compute; reflexivity|].
  apply (compile_func_correct Machine.always Machine.always x86_cast f64_mul Machine.always Machine.always
    (Some 4096) (fun _ _ => false) (fun _ => 0) (fun _ => 0) empty_program even_sum 20 [JUndefined; JInt32 7]
    (CReturn (JInt32 12) [JUndefined; JInt32 7; JInt32 12; JInt32 8]));
    [intros; reflexivity..|vm_compute; reflexivity].
Defined.

(** Hoisting does not look inside labelled statements, so the slot of a [var]
    there is the number of names met so far, whether or not the declaration was
    executed.  When the branch with the first labelled loop is not taken, the
    variable of the second is declared one slot before the one it is read from:
    the function [labelled] returns [undefined] for 0, and 1 for 1; the language
    gives 1 for both. *)
Lemma hoisting_misses_labels :
  func_supported labelled = false /\ p_compiled (code labelled) = 1 /\
  call labelled 100 [JUndefined; JInt32 0] = Some (Finished JUndefined [JUndefined; JInt32 0; JInt32 1]) /\
  call labelled 100 [JUndefined; JInt32 1]
    = Some (Finished (JInt32 1) [JUndefined; JInt32 0; JInt32 2; JInt32 1]).
Proof. split_and!; vm_compute; reflexivity. Qed.

(** A [continue] inside a [switch] jumps without dropping the value the
    [switch] tests, which in a [for-of] loop lies on top of the loop's own
    three values: the next turn takes it for the position in the source.  The
    function [last_digit] visits one character of ["12"] and returns ["1"],
    where the language gives ["2"]. *)
Lemma continue_in_switch_ends_iteration :
  p_compiled (code last_digit) = 1 /\
  forall n, n = 0 \/ n = 1 ->
  call last_digit 100 [JUndefined; JInt32 n]
    = Some (Finished (JString (chars_of "1")) [JUndefined; JInt32 n; JString (chars_of "1"); JString (chars_of "1")]).
Proof. split; [vm_compute; reflexivity|]. intros n [-> | ->]; vm_compute; reflexivity. Qed.

End Properties.
